(* ===== verification/_CoqProject ===== *)
-Q . S2P
Prelude.v
JsValue.v
CanonicalJson.v
JsMap.v
PolicyLattice.v
Envelope.v
StrictJson.v
EventRegistry.v
Time.v
Ledger.v
Approvals.v
OperationId.v
Runtime.v
RuntimeSafety.v
RuntimeExamples.v
Scheduler.v
SchedulerSafety.v
SchedulerLiveness.v
SchedulerExamples.v
Projections.v
ProjectionSafety.v
ProjectionSteps.v
ProjectionRebuild.v
ProjectionExamples.v
Wildcard.v
PolicyResolver.v
PolicyResolution.v
JsonParse.v
SessionState.v
SessionTools.v
SessionWorkflow.v
SessionEvents.v
SessionReplay.v
SessionSafety.v
SessionExamples.v
ContractRegistry.v
Zod.v
PortContracts.v
ToolRegistry.v
ToolRuntime.v
ToolRuntimeSafety.v
ToolRuntimeAnswers.v
ToolRuntimeCalls.v
ToolRuntimeExamples.v
MemoryPolicy.v
MemoryStore.v
MemoryEvents.v
MemoryEntries.v
MemoryRecords.v
MemoryWorlds.v
MemorySafety.v
MemoryHost.v
MemoryGuarantees.v
MemoryRetrieval.v
MemoryExamples.v
