(* ===== verification/Prelude.v ===== *)
(** * HSEOS: a verification library of the governed-execution and agent-session core

    The repository is an operating system for agents.  A tool call enters through the
    governed execution runtime, which authenticates it, asks a policy, consumes an
    approval and records facts in an append-only ledger around the call of a provider;
    a scheduler queues calls; projections derive the read model from the ledger; a
    permission lattice and a policy resolver take the decisions.  An agent session is
    itself a stream of durable events, replayed into the state that says what may
    happen next.  This library translates those parts from JavaScript and proves what
    makes them correct.

    ** Foundations

    - [Prelude]: notations, tactics, lists, sets, sorting, consecutive numbers.
    - [JsValue]: JavaScript values, property access, truthiness, numbers and thrown
      errors; [result] is the completion of a call.  Strings are ASCII texts, so one
      character is one UTF-16 unit and one UTF-8 byte.
    - [CanonicalJson]: [stableJson] (packages/governed-execution/runtime.js),
      [canonicalJson] (packages/agent-session-store/replay.js), [canonicalize]
      (packages/managed-governance-contracts/canonical-json.js), [JSON.stringify].
    - [JsMap]: a [Map] with string keys, in insertion order.
    - [JsonParse]: [JSON.parse] of the language, which the compaction contracts call, with
      the library lemma that it reads back what is written.
    - [StrictJson], [Time]: strict payloads and secret names, UTC timestamps
      (tools/mcp-project-state/lib/execution-event-ledger.js).
    - [OperationId]: operation identifiers (packages/governed-execution/operation-id.js).

    ** Governed execution

    - [Envelope]: canonical-envelope.js.
    - [EventRegistry]: tools/lib/governed-execution/event-registry.js: schemas,
      upcasters and the lifecycle catalogue.
    - [Ledger]: execution-event-ledger.js: the [execution_events] table with its
      triggers, optimistic concurrency, idempotent retries and readers.
    - [Approvals]: execution-approval-store.js: issue, get and transactional consume.
    - [Runtime], [RuntimeSafety], [RuntimeExamples]: runtime.js.  A call is a coroutine
      cut at each [await]; [RuntimeSafety] interleaves the segments of any number of
      calls over one ledger.  What the runtime depends on (authority, policy, contract
      registry, provider, clock) is the class [Dependencies], and the theorems hold for
      every instance.
    - [Scheduler], [SchedulerSafety], [SchedulerLiveness], [SchedulerExamples]:
      scheduler.js as a step relation over method calls and promise callbacks.
    - [Projections], [ProjectionSafety], [ProjectionSteps], [ProjectionRebuild],
      [ProjectionExamples]: execution-projections.js over the ledger: batches,
      checkpoints, generations, rebuilds, with concurrent writers and failures.

    - [ContractRegistry]: tools/lib/governed-execution/contract-registry.js: the class,
      schema evaluation, the shipped contracts, and the instance that gives the runtime
      its contracts.

    ** Tool calls of agent sessions

    - [Zod], [PortContracts]: the schema combinators and the contracts of the tool port
      (packages/agent-runtime-contracts: common.js, agent-contracts.js, ports.js).
    - [ToolRegistry], [ToolRuntime]: packages/tool-runtime/registry.js, tool-runtime.js.
      The tool runtime runs over the state of [Scheduler]; a call is cut at its [await].
    - [ToolRuntimeSafety] (the invariant), [ToolRuntimeAnswers] (outcomes),
      [ToolRuntimeCalls] (sharing, termination of calls), [ToolRuntimeExamples].

    ** Policy

    - [PolicyLattice]: packages/agent-policy-lattice/index.js.
    - [Wildcard], [PolicyResolver], [PolicyResolution]:
      tools/managed-governance-control-plane/lib/domain/policy-resolver.js.

    ** Agent sessions (packages/agent-session-store/replay.js)

    - [SessionState]: the records of the reducer; [SessionTools]: tool calls, outcomes,
      history, pruned stubs (packages/agent-runtime-contracts/compaction-contracts.js).
    - [SessionWorkflow], [SessionEvents], [SessionReplay]: one definition per event type
      and the reducer, request reconstruction and recovery plan.
    - [SessionSafety], [SessionExamples]: the abstract transitions [change], the
      refinement of every handler to one of them and the theorems by induction on
      [replayed].

    ** Agent memory (packages/agent-memory, tools/cli/lib/memory-context-source.js)

    - [MemoryPolicy]: policy.js; [MemoryStore]: store.js, as programs over a world (ledger,
      approvals, cached projection); [MemoryHost]: what the host builds around the store.
    - [MemoryEvents], [MemoryEntries], [MemoryRecords]: what columns keep, normal entries,
      what each fact does to well-formed records.
    - [MemoryWorlds], [MemorySafety]: a logic of programs and one specification per
      operation, on both outcomes; [MemoryGuarantees], [MemoryRetrieval]: the theorems over
      reachable worlds, with other stores and other writers in between;
      [MemoryExamples]: a note written, promoted, retrieved, deleted.

    ** What the theorems show

    - Providers are called at most once per operation, only after the start facts are
      durable, and a success answered is a success recorded ([RuntimeSafety]); answers
      are canonical envelopes ([Envelope]).
    - Appending keeps positions dense, streams gap-free and stored rows unchanged; a
      retry is an equivalence ([Ledger]); approvals are used at most once
      ([Approvals]).
    - The scheduler keeps its limits, starts in order, loses no wake-up and answers
      every request; closing it during a persisted cancellation is the exception
      proved by [close_strands_queued].
    - A tool is visible to models only with a governed contract; calls of one request
      share one operation and the signature of their scope (which tells plain values apart up
      to the order of keys), each answers with the outcome its envelope
      stands for, and every call ends ([ToolRegistry], [ToolRuntimeAnswers],
      [ToolRuntimeCalls]).
    - The rows of a projection are exactly those of a scan of the ledger up to its
      checkpoint, whatever the interleaving; rebuilds terminate ([ProjectionRebuild]).
    - Decisions of the lattice and of the resolver refine declarative combinations and
      do not depend on the order of their inputs; an answer [allow] goes back to an item of
      the input that is published and, for an exception, approved and in force.
    - Memory replays without error in every reachable world; entries are never edited,
      a write keeps what it was given, deletions and promotions spend an approval in the
      transaction of their events, and the cache never shows.  A record is proved, whatever
      event it comes from, only by an approval granted and spent for its very operation;
      only a proved promotion is trusted ([MemoryGuarantees],
      [MemoryRetrieval]).
    - A replayed session keeps its bounds and its identifiers, runs no tool without a
      model call, replaces no final outcome and ends settled; replay can be split.

    ** Bounds and fuel

    [strip_zeros], [parse_value], [reconcile_loop] and [rebuild_rounds] recurse on
    fuel computed from the input (its length, the number of facts left), and
    [json_parse_text], [reconcile_loop_total] and [rebuild_activates] show that it is
    enough.  Integers are those JavaScript represents exactly; the places where the
    code tests [Number.isSafeInteger] test it here.

    ** Parameters and hypotheses

    Third-party code is an argument: SHA-256 (the class [Sha256]: 64 lower-case
    hexadecimal digits), zod (the class [Zod], whose law is the documented reading of
    its combinators; in the session reducer any test of the event), JSON-schema
    validators, [Date.parse] of timestamps with an offset, the rounding of a decimal literal to a
    double, the SQLite driver apart from the tables, constraints and triggers the
    modelled files declare.  No theorem assumes more of it than these shapes.

    ** Not modelled

    Network servers, SQL of the operational database, installers, the command line and
    user interfaces (input and output around the packages); provider adapters; the
    object-identity checks and listeners of the scheduler; wall-clock metrics; cyclic
    values and values with accessors; the credential patterns (a parameter of memory); strings outside of ASCII; a compaction event that
    names the turn [constructor], which makes the code write to an inherited
    function; the file protocol of the session event store, the workflow engine, the
    agent runtime and the context assembler, which are not part of this library. *)

From stdpp Require Export base tactics list option sets gmap strings pretty sorting.
From Stdlib Require Export ZArith Lia.
From Stdlib Require Strings.Ascii Strings.String.
Export Stdlib.Strings.Ascii (ascii (..)).
Export (notations) Stdlib.Strings.Ascii.

#[export] Set Default Goal Selector "!".

(** ** Notations *)

Declare Scope hseos_scope.
Delimit Scope hseos_scope with hseos.
Open Scope hseos_scope.
Open Scope list_scope.

(** [a =s b] is JavaScript's [===] on two strings. *)
Notation "a =s b" := (String.eqb a b) (at level 70, no associativity) : hseos_scope.
(** [x ∈s l] is [l.includes(x)] for a list of strings. *)
Notation "x ∈s l" := (existsb (String.eqb x) l) (at level 70, no associativity) : hseos_scope.

(** ** Automation *)

Create HintDb hseos.

(** Turns boolean connectives of the translated guards into propositions. *)
Ltac bool_props :=
  repeat match goal with
  | H : (_ && _)%bool = true |- _ => apply andb_true_iff in H; destruct H
  | H : (_ || _)%bool = false |- _ => apply orb_false_iff in H; destruct H
  | H : negb _ = true |- _ => apply negb_true_iff in H
  | H : negb _ = false |- _ => apply negb_false_iff in H
  | H : (_ =? _)%string = true |- _ => apply String.eqb_eq in H
  | H : (_ =? _)%string = false |- _ => apply String.eqb_neq in H
  | H : (_ =? _)%Z = true |- _ => apply Z.eqb_eq in H
  | H : (_ =? _)%Z = false |- _ => apply Z.eqb_neq in H
  | H : (_ <? _)%Z = true |- _ => apply Z.ltb_lt in H
  | H : (_ <? _)%Z = false |- _ => apply Z.ltb_ge in H
  | H : (_ <=? _)%Z = true |- _ => apply Z.leb_le in H
  | H : (_ <=? _)%Z = false |- _ => apply Z.leb_gt in H
  | H : (_ =? _)%nat = true |- _ => apply Nat.eqb_eq in H
  | H : (_ =? _)%nat = false |- _ => apply Nat.eqb_neq in H
  | H : (_ <? _)%nat = true |- _ => apply Nat.ltb_lt in H
  | H : (_ <? _)%nat = false |- _ => apply Nat.ltb_ge in H
  | H : (_ <=? _)%nat = true |- _ => apply Nat.leb_le in H
  | H : (_ <=? _)%nat = false |- _ => apply Nat.leb_gt in H
  | H : bool_decide _ = true |- _ => apply bool_decide_eq_true in H
  | H : bool_decide _ = false |- _ => apply bool_decide_eq_false in H
  end.

(** Case analysis on the scrutinee of the first conditional in sight. *)
Ltac case_if :=
  match goal with
  | |- context [if ?b then _ else _] => destruct b eqn:?
  end.
Ltac case_if_in H :=
  match type of H with
  | context [if ?b then _ else _] => destruct b eqn:?
  end.

(** ** Lists *)

Section lists.
Context {A : Type}.
Implicit Types (l : list A) (f : A → bool).

(** [Array.prototype.findLast]. *)
Definition find_last f l : option A := find f (reverse l).

Lemma existsb_false f l : existsb f l = false ↔ ∀ x, x ∈ l → f x = false.
Proof.
  split.
  - intros H x Hx. destruct (f x) eqn:E; [|done].
    rewrite <- H. symmetry. apply existsb_exists.
    exists x. by rewrite <- list_elem_of_In.
  - intros H. apply not_true_iff_false. intros [x [Hx Hf]]%existsb_exists.
    rewrite <- list_elem_of_In in Hx. by rewrite (H x Hx) in Hf.
Qed.

Lemma existsb_true f l : existsb f l = true ↔ ∃ x, x ∈ l ∧ f x = true.
Proof. rewrite existsb_exists. by setoid_rewrite list_elem_of_In. Qed.

Lemma forallb_true f l : forallb f l = true ↔ ∀ x, x ∈ l → f x = true.
Proof. rewrite forallb_forall. by setoid_rewrite list_elem_of_In. Qed.

Lemma list_filter_elem f l x : x ∈ List.filter f l ↔ x ∈ l ∧ f x = true.
Proof. by rewrite !list_elem_of_In, filter_In. Qed.

Lemma find_some_elem f l x : find f l = Some x → x ∈ l ∧ f x = true.
Proof. rewrite list_elem_of_In. apply find_some. Qed.

Lemma find_none_elem f l : find f l = None ↔ existsb f l = false.
Proof.
  rewrite existsb_false. split.
  - intros H x Hx. apply (find_none _ _ H). by apply list_elem_of_In.
  - induction l as [|y l IH]; intros H; simpl; [done|].
    rewrite (H y) by (by left). apply IH. intros z Hz. apply H. by right.
Qed.

Lemma find_last_some f l x : find_last f l = Some x → x ∈ l ∧ f x = true.
Proof.
  intros [H ?]%find_some_elem. split; [|done]. by apply elem_of_reverse.
Qed.

Lemma existsb_perm f l l' : l ≡ₚ l' → existsb f l = existsb f l'.
Proof.
  intros HP. apply eq_true_iff_eq. rewrite !existsb_true.
  split; intros (x & Hx & Hf); exists x; split; try done; by rewrite <- HP || rewrite HP.
Qed.
End lists.

(** ** [new Set(list)]: the distinct elements, first occurrences first *)

Section js_set.
Context `{EqDecision A}.
Implicit Types (l : list A).

Fixpoint js_set l : list A :=
  match l with
  | [] => []
  | x :: l => x :: filter (λ y, y ≠ x) (js_set l)
  end.

Lemma elem_of_js_set x l : x ∈ js_set l ↔ x ∈ l.
Proof.
  induction l as [|y l IH]; simpl; [done|].
  rewrite !elem_of_cons, list_elem_of_filter, IH.
  destruct (decide (x = y)); naive_solver.
Qed.

Lemma NoDup_js_set l : NoDup (js_set l).
Proof.
  induction l as [|y l IH]; simpl; constructor.
  - rewrite list_elem_of_filter. naive_solver.
  - by apply NoDup_filter.
Qed.

Lemma js_set_NoDup l : NoDup l → js_set l = l.
Proof.
  induction 1 as [|x l Hx HN IH]; simpl; [done|]. rewrite IH. f_equal.
  clear IH HN. induction l as [|y l IH]; [done|].
  rewrite filter_cons_True by set_solver. f_equal. apply IH. set_solver.
Qed.

Lemma length_js_set l : length (js_set l) ≤ length l.
Proof.
  induction l as [|x l IH]; simpl; [lia|].
  pose proof (length_filter (λ y, y ≠ x) (js_set l)). lia.
Qed.

(** The test [new Set(l).size !== l.length] used to reject duplicates. *)
Lemma js_set_length_NoDup l : length (js_set l) = length l ↔ NoDup l.
Proof.
  split; [|intros H; by rewrite js_set_NoDup].
  induction l as [|x l IH]; simpl; intros H; [constructor|].
  pose proof (length_filter (λ y, y ≠ x) (js_set l)).
  pose proof (length_js_set l).
  assert (Hl : length (js_set l) = length l) by lia.
  constructor; [|by apply IH].
  rewrite <- elem_of_js_set. intros Hx.
  assert (length (filter (λ y, y ≠ x) (js_set l)) < length (js_set l)); [|lia].
  eapply length_filter_lt; [done|]. tauto.
Qed.

Lemma js_set_idemp l : js_set (js_set l) = js_set l.
Proof. apply js_set_NoDup, NoDup_js_set. Qed.

Definition has_duplicates l : bool := negb (length (js_set l) =? length l)%nat.

Lemma has_duplicates_false l : has_duplicates l = false ↔ NoDup l.
Proof.
  unfold has_duplicates. rewrite negb_false_iff, Nat.eqb_eq.
  apply js_set_length_NoDup.
Qed.
End js_set.

(** ** [Array.prototype.sort]: stable sorting by a comparison *)

Section sort_by.
Context {A : Type} (leb : A → A → bool).
Implicit Types (l : list A).

Fixpoint insert_by (x : A) l : list A :=
  match l with
  | [] => [x]
  | y :: l' => if leb x y then x :: l else y :: insert_by x l'
  end.

Fixpoint sort_by l : list A :=
  match l with
  | [] => []
  | x :: l => insert_by x (sort_by l)
  end.

Lemma insert_by_perm x l : insert_by x l ≡ₚ x :: l.
Proof.
  induction l as [|y l IH]; simpl; [done|]. case_if; [done|].
  rewrite IH. constructor.
Qed.

Lemma sort_by_perm l : sort_by l ≡ₚ l.
Proof. induction l as [|x l IH]; simpl; [done|]. by rewrite insert_by_perm, IH. Qed.

Lemma elem_of_sort_by x l : x ∈ sort_by l ↔ x ∈ l.
Proof. by rewrite sort_by_perm. Qed.

Lemma length_sort_by l : length (sort_by l) = length l.
Proof. by rewrite sort_by_perm. Qed.

Definition le_of (x y : A) : Prop := leb x y = true.

Class LebOrder : Prop := {
  leb_total x y : leb x y = true ∨ leb y x = true;
  leb_trans x y z : leb x y = true → leb y z = true → leb x z = true;
}.

Context {order : LebOrder}.

Lemma leb_refl x : leb x x = true.
Proof. by destruct (leb_total x x). Qed.

Lemma insert_by_sorted x l :
  StronglySorted le_of l → StronglySorted le_of (insert_by x l).
Proof.
  induction 1 as [|y l HS IH HF]; simpl; [repeat constructor|]. case_if.
  - repeat constructor; try done. rewrite Forall_forall in *.
    intros z Hz. by apply (leb_trans x y z), HF.
  - constructor; [done|]. rewrite insert_by_perm. constructor; [|done].
    unfold le_of. destruct (leb_total x y); congruence.
Qed.

Lemma sort_by_sorted l : StronglySorted le_of (sort_by l).
Proof. induction l; simpl; [constructor|]. by apply insert_by_sorted. Qed.

Lemma insert_by_sorted_id x l :
  StronglySorted le_of (x :: l) → insert_by x l = x :: l.
Proof.
  intros H. inversion H as [|?? _ HF]; subst. destruct l as [|y l]; [done|].
  simpl. inversion HF as [|?? Hy]; subst. by rewrite Hy.
Qed.

Lemma sort_by_sorted_id l : StronglySorted le_of l → sort_by l = l.
Proof.
  induction 1 as [|x l HS IH HF]; simpl; [done|]. rewrite IH.
  apply insert_by_sorted_id. by constructor.
Qed.

Lemma sort_by_idemp l : sort_by (sort_by l) = sort_by l.
Proof. apply sort_by_sorted_id, sort_by_sorted. Qed.

(** Sorted permutations agree when equivalent elements are equal. *)
Lemma sort_by_unique l l' :
  (∀ x y, x ∈ l → y ∈ l → leb x y = true → leb y x = true → x = y) →
  l ≡ₚ l' → sort_by l = sort_by l'.
Proof.
  intros Hanti HP. apply (StronglySorted_unique_strong le_of).
  - intros x y Hx Hy. rewrite !elem_of_sort_by in *. rewrite <- HP in Hy.
    by apply Hanti.
  - apply sort_by_sorted.
  - apply sort_by_sorted.
  - by rewrite !sort_by_perm.
Qed.

(** The first match in a sorted list is below every other match. *)
Lemma find_sorted_min f l x :
  StronglySorted le_of l → find f l = Some x →
  ∀ y, y ∈ l → f y = true → leb x y = true.
Proof.
  induction 1 as [|z l HS IH HF]; simpl; [done|].
  destruct (f z) eqn:Hz; intros Hf y Hy Hfy; simplify_eq.
  - apply elem_of_cons in Hy as [->|Hy]; [apply leb_refl|].
    rewrite Forall_forall in HF. by apply HF.
  - apply elem_of_cons in Hy as [->|Hy]; [congruence|]. by apply IH.
Qed.
End sort_by.
Arguments LebOrder {_} _.

(** ** The order of strings used by [Array.prototype.sort] and [<] *)

#[export] Instance string_leb_order : LebOrder String.leb.
Proof.
  split.
  - intros x y. destruct (String.leb_total x y); auto.
  - intros x y z Hx Hy. apply Is_true_true.
    trans y; by apply Is_true_true.
Qed.

Lemma string_leb_antisym s1 s2 :
  String.leb s1 s2 = true → String.leb s2 s1 = true → s1 = s2.
Proof. apply String.leb_antisym. Qed.

Definition sort_strings : list string → list string := sort_by String.leb.

Lemma sort_strings_perm l l' : l ≡ₚ l' → sort_strings l = sort_strings l'.
Proof. apply sort_by_unique; eauto using string_leb_antisym, string_leb_order. Qed.

Lemma includes_spec x l : (x ∈s l) = true ↔ x ∈ l.
Proof.
  rewrite existsb_true. split.
  - by intros (y & Hy & ->%String.eqb_eq).
  - intros H. exists x. by rewrite String.eqb_refl.
Qed.
#[export] Hint Rewrite includes_spec : hseos.

(** ** Consecutive numbers *)

Fixpoint numbers (k : Z) (n : nat) : list Z :=
  match n with O => [] | S n => k :: numbers (k + 1) n end.

Lemma length_numbers k n : length (numbers k n) = n.
Proof. revert k. induction n as [|n IH]; intros k; simpl; [done|]. by rewrite IH. Qed.

Lemma numbers_app k n m : numbers k (n + m) = numbers k n ++ numbers (k + Z.of_nat n) m.
Proof.
  revert k. induction n as [|n IH]; intros k; simpl.
  - f_equal. lia.
  - rewrite IH. do 3 f_equal. lia.
Qed.

Lemma elem_of_numbers x k n : x ∈ numbers k n ↔ (k ≤ x < k + Z.of_nat n)%Z.
Proof.
  revert k. induction n as [|n IH]; intros k; simpl.
  - rewrite elem_of_nil. lia.
  - rewrite elem_of_cons, IH. lia.
Qed.

Lemma lookup_numbers k n i : (i < n)%nat → numbers k n !! i = Some (k + Z.of_nat i)%Z.
Proof.
  revert k i. induction n as [|n IH]; intros k [|i] H; simpl; try lia.
  - f_equal. lia.
  - rewrite IH by lia. f_equal. lia.
Qed.

(** ** Filtered and truncated lists *)

Section filtered.
Context {A : Type}.
Implicit Types (l : list A) (f g : A → bool).

Lemma filter_filter f g l :
  List.filter f (List.filter g l) = List.filter (λ x, g x && f x) l.
Proof.
  induction l as [|x l IH]; simpl; [done|]. destruct (g x); simpl; [|done].
  by destruct (f x); rewrite IH.
Qed.

Lemma filter_ext_elem f g l :
  (∀ x, x ∈ l → f x = g x) → List.filter f l = List.filter g l.
Proof. intros H. apply filter_ext_in. intros x Hx. apply H. by apply list_elem_of_In. Qed.

Lemma NoDup_list_filter f l : NoDup l → NoDup (List.filter f l).
Proof. rewrite !NoDup_ListNoDup. apply List.NoDup_filter. Qed.

Lemma sorted_filter (R : A → A → Prop) f l :
  StronglySorted R l → StronglySorted R (List.filter f l).
Proof.
  induction 1 as [|x l HS IH HF]; simpl; [constructor|]. case_if; [|done].
  constructor; [done|]. rewrite Forall_forall in *. intros y [Hy _]%list_filter_elem.
  by apply HF.
Qed.

Lemma take_filter_all f n l :
  (∀ x, x ∈ take n l → f x = true) → take n (List.filter f l) = take n l.
Proof.
  revert n. induction l as [|x l IH]; intros [|n] H; simpl; try done.
  rewrite (H x) by (simpl; left). simpl. f_equal. apply IH. intros y Hy. apply H.
  simpl. by right.
Qed.

Lemma take_filter_elem f n l x :
  x ∈ take n l → f x = true → x ∈ take n (List.filter f l).
Proof.
  revert n. induction l as [|y l IH]; intros [|n] Hx Hf; simpl in *; try done.
  apply elem_of_cons in Hx as [->|Hx].
  - rewrite Hf. simpl. by left.
  - destruct (f y); simpl; [right; by apply IH|].
    assert (Hn : take n (List.filter f l) ⊆ take (S n) (List.filter f l)).
    { intros z (i & ? & ?)%elem_of_take. apply elem_of_take. exists i. split; [done|lia]. }
    by apply Hn, IH.
Qed.
End filtered.
