(* ===== verification/JsValue.v ===== *)
(** * JavaScript values, property access and exceptions

    The dynamic values the program inspects with [typeof], [Array.isArray] and
    property access, and the completion of a call ([Ok] or a thrown value).

    Strings are ASCII: one character is one UTF-16 code unit and one UTF-8 byte,
    so [length] and [Buffer.byteLength] agree.  A finite number is represented by
    the shortest decimal that reads back as it, the one [Number::toString]
    prints. *)
From S2P Require Import Prelude.

(** ** Numbers *)

(** [NInt z] is an integer, [NDec m k] the non-integer [m / 10^k] with [m] not
    divisible by 10; the remaining constructors are the other doubles. *)
Inductive number :=
  | NInt (z : Z)
  | NDec (m : Z) (k : positive)
  | NNegZero
  | NInf (negative : bool)
  | NNaN.

#[export] Instance number_eq_dec : EqDecision number.
Proof. solve_decision. Defined.

(** ** Values *)

(** [VObj fields] lists the own enumerable string-keyed properties of a plain
    object in enumeration order; [VUndef] is [undefined]. *)
Inductive value :=
  | VUndef
  | VNull
  | VBool (b : bool)
  | VNum (n : number)
  | VStr (s : string)
  | VArr (items : list value)
  | VObj (fields : list (string * value)).

Section value_ind.
Variable P : value → Prop.
Hypothesis HU : P VUndef.
Hypothesis HN : P VNull.
Hypothesis HB : ∀ b, P (VBool b).
Hypothesis HM : ∀ n, P (VNum n).
Hypothesis HS : ∀ s, P (VStr s).
Hypothesis HA : ∀ items, Forall P items → P (VArr items).
Hypothesis HO : ∀ fields, Forall (λ kv, P kv.2) fields → P (VObj fields).

Fixpoint value_ind' (v : value) : P v :=
  match v with
  | VUndef => HU
  | VNull => HN
  | VBool b => HB b
  | VNum n => HM n
  | VStr s => HS s
  | VArr items =>
      HA items ((fix go l : Forall P l :=
        match l with
        | [] => Forall_nil_2 _
        | x :: l => Forall_cons_2 _ _ _ (value_ind' x) (go l)
        end) items)
  | VObj fields =>
      HO fields ((fix go l : Forall (λ kv, P kv.2) l :=
        match l with
        | [] => Forall_nil_2 _
        | x :: l => Forall_cons_2 _ _ _ (value_ind' x.2) (go l)
        end) fields)
  end.
End value_ind.

#[export] Instance value_eq_dec : EqDecision value.
Proof.
  refine (fix go (v w : value) : Decision (v = w) :=
    match v, w with
    | VUndef, VUndef => left eq_refl
    | VNull, VNull => left eq_refl
    | VBool a, VBool b => cast_if (decide (a = b))
    | VNum a, VNum b => cast_if (decide (a = b))
    | VStr a, VStr b => cast_if (decide (a = b))
    | VArr a, VArr b => cast_if (@list_eq_dec _ go a b)
    | VObj a, VObj b =>
        cast_if (@list_eq_dec _ (@prod_eq_dec _ String.eq_dec _ go) a b)
    | _, _ => right _
    end); try congruence.
Defined.

(** ** Property access and type tests *)

Fixpoint assoc {A} (k : string) (l : list (string * A)) : option A :=
  match l with
  | [] => None
  | (k', v) :: l => if k =s k' then Some v else assoc k l
  end.

(** [v.k], for a [v] already known not to be [null] or [undefined]. *)
Definition get (k : string) (v : value) : value :=
  match v with
  | VObj fields => default VUndef (assoc k fields)
  | _ => VUndef
  end.

(** [Object.keys(v)]. *)
Definition object_keys (v : value) : list string :=
  match v with
  | VObj fields => fields.*1
  | _ => []
  end.

(** [Object.hasOwn(v, k)]. *)
Definition has_own (k : string) (v : value) : bool :=
  match v with
  | VObj fields => bool_decide (is_Some (assoc k fields))
  | _ => false
  end.

Definition is_undefined (v : value) : bool :=
  match v with VUndef => true | _ => false end.
Definition is_null (v : value) : bool :=
  match v with VNull => true | _ => false end.
Definition is_string (v : value) : bool :=
  match v with VStr _ => true | _ => false end.
Definition is_boolean (v : value) : bool :=
  match v with VBool _ => true | _ => false end.
Definition is_array (v : value) : bool :=
  match v with VArr _ => true | _ => false end.
Definition is_number (v : value) : bool :=
  match v with VNum _ => true | _ => false end.

(** [!v || typeof v !== 'object' || Array.isArray(v)] is [negb (is_record v)]. *)
Definition is_record (v : value) : bool :=
  match v with VObj _ => true | _ => false end.

(** [typeof v === 'string' && v.length > 0]. *)
Definition nonempty_string (v : value) : bool :=
  match v with VStr s => negb (s =s "") | _ => false end.

Definition truthy (v : value) : bool :=
  match v with
  | VUndef | VNull => false
  | VBool b => b
  | VNum (NInt 0) | VNum NNegZero | VNum NNaN => false
  | VNum _ => true
  | VStr s => negb (s =s "")
  | VArr _ | VObj _ => true
  end.

(** The text of a value known to be a string. *)
Definition str_of (v : value) : string :=
  match v with VStr s => s | _ => "" end.
Definition items_of (v : value) : list value :=
  match v with VArr l => l | _ => [] end.

(** [Array.isArray(v) && v.every((x) => typeof x === 'string')]. *)
Definition is_string_array (v : value) : bool :=
  match v with VArr l => forallb is_string l | _ => false end.
Definition strings_of (v : value) : list string := str_of <$> items_of v.

(** The separator ['\0'] of joined names. *)
Definition NUL : string := String "000"%char "".

(** [a ?? b] / [a || b] on values. *)
Definition or_else (a b : value) : value := if truthy a then a else b.

(** [Number.isFinite], [Number.isInteger] and [Number.isSafeInteger]. *)
Definition num_finite (n : number) : bool :=
  match n with NInf _ | NNaN => false | _ => true end.
Definition MAX_SAFE_INTEGER : Z := 2 ^ 53 - 1.
Definition is_integer (v : value) : bool :=
  match v with VNum (NInt _) | VNum NNegZero => true | _ => false end.
Definition is_safe_integer (v : value) : bool :=
  match v with
  | VNum (NInt z) => (Z.abs z <=? MAX_SAFE_INTEGER)%Z
  | VNum NNegZero => true
  | _ => false
  end.
Definition int_of (v : value) : Z :=
  match v with VNum (NInt z) => z | _ => 0%Z end.

(** The order of finite numbers, by cross multiplication. *)
Definition num_fraction (n : number) : Z * Z :=
  match n with
  | NInt z => (z, 1%Z)
  | NDec m k => (m, 10 ^ Zpos k)%Z
  | _ => (0%Z, 1%Z)
  end.
Definition num_lt (a b : number) : bool :=
  match a, b with
  | NNaN, _ | _, NNaN => false
  | NInf na, NInf nb => na && negb nb
  | NInf na, _ => na
  | _, NInf nb => negb nb
  | _, _ =>
      let '(p, q) := num_fraction a in
      let '(r, s) := num_fraction b in (p * s <? r * q)%Z
  end.
Definition num_le (a b : number) : bool :=
  match a, b with
  | NNaN, _ | _, NNaN => false
  | _, _ => negb (num_lt b a)
  end.

(** ** Exceptions *)

(** A call completes with a value or throws one. *)
Inductive result (A : Type) :=
  | Ok (a : A)
  | Throw (error : value).
Arguments Ok {_} _.
Arguments Throw {_} _.

#[export] Instance result_ret : MRet result := @Ok.
#[export] Instance result_bind : MBind result := λ A B f r,
  match r with Ok a => f a | Throw e => Throw e end.
#[export] Instance result_fmap : FMap result := λ A B f r,
  match r with Ok a => Ok (f a) | Throw e => Throw e end.

#[export] Instance result_eq_dec `{EqDecision A} : EqDecision (result A).
Proof. solve_decision. Defined.

Definition is_ok {A} (r : result A) : bool :=
  match r with Ok _ => true | Throw _ => false end.

(** [if (b) throw e;] *)
Definition throw_if (b : bool) (e : value) : result unit :=
  if b then Throw e else Ok ().

(** [l.map(f)] for an [f] that may throw; [i] is the index of the first item. *)
Fixpoint map_result {A B} (f : A → result B) (l : list A) : result (list B) :=
  match l with
  | [] => Ok []
  | x :: l => y ← f x; ys ← map_result f l; Ok (y :: ys)
  end.
Fixpoint imap_result {A B} (f : nat → A → result B) (i : nat) (l : list A) :
    result (list B) :=
  match l with
  | [] => Ok []
  | x :: l => y ← f i x; ys ← imap_result f (S i) l; Ok (y :: ys)
  end.

(** [for (const x of l) f(x);] *)
Fixpoint for_each {A} (f : A → result unit) (l : list A) : result unit :=
  match l with
  | [] => Ok ()
  | x :: l => _ ← f x; for_each f l
  end.

(** An instance of an error class of the repository: its [name], [message],
    [code] and [details]. *)
Definition error_with (name message code : string) (details : value) : value :=
  VObj [("name", VStr name); ("message", VStr message); ("code", VStr code);
        ("details", details)].
Definition error (name message code : string) : value :=
  error_with name message code (VObj []).
Definition type_error (message : string) : value :=
  VObj [("name", VStr "TypeError"); ("message", VStr message)].

Definition error_code (e : value) : string := str_of (get "code" e).
Definition code_of {A} (r : result A) : option string :=
  match r with Ok _ => None | Throw e => Some (error_code e) end.

(** Inverts [H : m1 ← m2; ... = Ok r] into the success of every step. *)
Ltac inv_ok H :=
  repeat match type of H with
  | mbind _ ?m = Ok _ =>
      let E := fresh "Hok" in destruct m eqn:E; simpl in H; [|discriminate H]
  | result_bind _ _ _ ?m = Ok _ =>
      let E := fresh "Hok" in destruct m eqn:E; simpl in H; [|discriminate H]
  | Ok _ = Ok _ => injection H as H
  end.

Lemma throw_if_ok b e u : throw_if b e = Ok u ↔ b = false.
Proof. destruct b, u; simpl; split; congruence. Qed.

Ltac inv_throw_if :=
  repeat match goal with
  | H : throw_if _ _ = Ok _ |- _ => apply throw_if_ok in H
  end.

Lemma bind_ok {A B} (m : result A) (f : A → result B) b :
  m ≫= f = Ok b ↔ ∃ a, m = Ok a ∧ f a = Ok b.
Proof. destruct m; simpl; naive_solver. Qed.

Lemma map_result_Forall2 {A B} (f : A → result B) l k :
  map_result f l = Ok k ↔ Forall2 (λ x y, f x = Ok y) l k.
Proof.
  split.
  - revert k. induction l as [|x l IH]; simpl; intros k H.
    + simplify_eq. constructor.
    + inv_ok H. subst. constructor; auto.
  - induction 1 as [|x y l k Hx HF IH]; simpl; [done|]. by rewrite Hx, IH.
Qed.

Lemma imap_result_elem {A B} (f : nat → A → result B) i l k :
  imap_result f i l = Ok k →
  Forall2 (λ x y, ∃ j, f j x = Ok y) l k.
Proof.
  revert i k. induction l as [|x l IH]; simpl; intros i k H.
  - simplify_eq. constructor.
  - inv_ok H. subst. constructor; eauto.
Qed.

Lemma for_each_ok {A} (f : A → result unit) l :
  for_each f l = Ok () ↔ Forall (λ x, f x = Ok ()) l.
Proof.
  induction l as [|x l IH]; simpl.
  - split; constructor.
  - destruct (f x) as [[]|e] eqn:E; simpl.
    + rewrite IH. split; [by constructor|by inversion 1].
    + split; [done|]. inversion 1. congruence.
Qed.

Lemma nonempty_string_spec v : nonempty_string v = true → ∃ s, v = VStr s ∧ s ≠ "".
Proof. destruct v; simpl; try done. intros H. bool_props. eauto. Qed.

Lemma nonempty_str_of v : nonempty_string v = true → str_of v ≠ "".
Proof. by intros (s & -> & H)%nonempty_string_spec. Qed.
#[export] Hint Resolve nonempty_str_of : hseos.

Lemma imap_result_source {A B} (f : nat → A → result B) i l k y :
  imap_result f i l = Ok k → y ∈ k → ∃ j x, x ∈ l ∧ f j x = Ok y.
Proof.
  revert i k. induction l as [|x l IH]; simpl; intros i k H Hy.
  - simplify_eq. by apply not_elem_of_nil in Hy.
  - inv_ok H. subst k. apply elem_of_cons in Hy as [->|Hy].
    + exists i, x. split; [by left|done].
    + destruct (IH _ _ Hok0 Hy) as (j & z & Hz & E). exists j, z. split; [by right|done].
Qed.

Lemma strings_of_map l : strings_of (VArr (VStr <$> l)) = l.
Proof. unfold strings_of; simpl. induction l as [|x l IH]; [done|]. simpl. by f_equal. Qed.
