(* ===== verification/CanonicalJson.v ===== *)
(** * Canonical JSON

    [JSON.stringify] and the three canonical renderings of the repository:
    [stableJson] (governed execution and the event ledger), [canonicalJson] (the
    session store) and [canonicalize] (managed governance).  Digests, idempotency
    scopes and approvals are compared through these texts, so what matters is
    which values they identify: exactly those equal up to the order of keys. *)
From S2P Require Import Prelude JsValue.

(** ** Own-property order and object construction *)

Definition ascii_digit (c : ascii) : option N :=
  let n := Ascii.N_of_ascii c in
  if (48 <=? n)%N && (n <=? 57)%N then Some (n - 48)%N else None.

Fixpoint decimal_value (acc : N) (s : string) : option N :=
  match s with
  | EmptyString => Some acc
  | String c s => d ← ascii_digit c; decimal_value (10 * acc + d)%N s
  end.

(** The array index denoted by a key, if it is a canonical one: such keys are
    enumerated first, in ascending order. *)
Definition index_key (k : string) : option N :=
  match k with
  | EmptyString => None
  | String c rest =>
      if Ascii.eqb c "0" && negb (rest =s "") then None
      else if (10 <? String.length k)%nat then None
      else n ← decimal_value 0 k; if (n <? 4294967295)%N then Some n else None
  end.

Definition index_le (a b : string * value) : bool :=
  match index_key a.1, index_key b.1 with
  | Some m, Some n => (m <=? n)%N
  | _, _ => true
  end.
Definition is_index (kv : string * value) : bool :=
  bool_decide (is_Some (index_key kv.1)).

(** The enumeration order of the properties created in the order [fields]. *)
Definition own_order (fields : list (string * value)) : list (string * value) :=
  sort_by index_le (List.filter is_index fields) ++
  List.filter (λ kv, negb (is_index kv)) fields.

Fixpoint put (k : string) (v : value) (fields : list (string * value)) :
    list (string * value) :=
  match fields with
  | [] => [(k, v)]
  | (k', w) :: fields =>
      if k =s k' then (k', v) :: fields else (k', w) :: put k v fields
  end.

(** [Object.fromEntries(entries)]. *)
Definition from_entries (entries : list (string * value)) : value :=
  VObj (own_order (fold_left (λ acc kv, put kv.1 kv.2 acc) entries [])).

(** ** [JSON.stringify] *)

Definition hex_digit (n : N) : ascii :=
  if (n <? 10)%N then Ascii.ascii_of_N (48 + n) else Ascii.ascii_of_N (87 + n).

(** The escape sequence of one character of a string literal. *)
Definition escape_char (c : ascii) : string :=
  let n := Ascii.N_of_ascii c in
  if (n =? 34)%N then "\" +:+ String (Ascii.ascii_of_N 34) ""
  else if (n =? 92)%N then "\\"
  else if (n =? 8)%N then "\b"
  else if (n =? 9)%N then "\t"
  else if (n =? 10)%N then "\n"
  else if (n =? 12)%N then "\f"
  else if (n =? 13)%N then "\r"
  else if (n <? 32)%N then
    "\u00" +:+ String (hex_digit (n / 16)) (String (hex_digit (n mod 16)) "")
  else String c "".

Definition quote_mark : string := String (Ascii.ascii_of_N 34) "".

Fixpoint escape (s : string) : string :=
  match s with
  | EmptyString => ""
  | String c s => escape_char c +:+ escape s
  end.
Definition quote (s : string) : string := quote_mark +:+ escape s +:+ quote_mark.

(** [Number::toString] (ECMA-262, 6.1.6.1.20), from the decimal digits. *)
Fixpoint strip_zeros (fuel : nat) (m : N) : N :=
  match fuel with
  | O => m
  | S fuel => if (m mod 10 =? 0)%N then strip_zeros fuel (m / 10) else m
  end.
Definition zeros (n : nat) : string := String.concat "" (replicate n "0").
Definition exponent_form (digits : string) (e : Z) : string :=
  let mantissa :=
    match digits with
    | String c EmptyString => digits
    | String c rest => String c ("." +:+ rest)
    | EmptyString => ""
    end in
  mantissa +:+ "e" +:+ (if (e <? 0)%Z then "-" else "+") +:+ pretty (Z.abs_N e).
Definition show_decimal (m : Z) (k : positive) : string :=
  let digits := pretty (Z.abs_N m) in
  let n := (Z.of_nat (String.length digits) - Zpos k)%Z in
  let body :=
    if (0 <? n)%Z && (n <=? 21)%Z then
      String.substring 0 (Z.to_nat n) digits +:+ "." +:+
      String.substring (Z.to_nat n) (String.length digits) digits
    else if (-6 <? n)%Z && (n <=? 0)%Z then "0." +:+ zeros (Z.to_nat (- n)) +:+ digits
    else exponent_form digits (n - 1) in
  (if (m <? 0)%Z then "-" else "") +:+ body.
Definition show_integer (z : Z) : string :=
  if (Z.abs z <? 10 ^ 21)%Z then pretty z
  else
    let all := pretty (Z.abs_N z) in
    (if (z <? 0)%Z then "-" else "") +:+
    exponent_form (pretty (strip_zeros (String.length all) (Z.abs_N z)))
      (Z.of_nat (String.length all) - 1).
Definition show_number (n : number) : string :=
  match n with
  | NInt z => show_integer z
  | NDec m k => show_decimal m k
  | NNegZero => "0"
  | NInf b => if b then "-Infinity" else "Infinity"
  | NNaN => "NaN"
  end.

(** [String(v)], as in a template literal. *)
Fixpoint js_string (v : value) : string :=
  match v with
  | VUndef => "undefined"
  | VNull => "null"
  | VBool b => if b then "true" else "false"
  | VNum n => show_number n
  | VStr s => s
  | VArr items =>
      String.concat ","
        ((λ x, match x with VUndef | VNull => "" | _ => js_string x end) <$> items)
  | VObj _ => "[object Object]"
  end.

(** [JSON.stringify] of a primitive; [None] is [undefined]. *)
Definition primitive_text (v : value) : option string :=
  match v with
  | VNull => Some "null"
  | VBool b => Some (if b then "true" else "false")
  | VNum n => Some (if num_finite n then show_number n else "null")
  | VStr s => Some (quote s)
  | _ => None
  end.

Definition brackets (items : list string) : string :=
  "[" +:+ String.concat "," items +:+ "]".
Definition braces (members : list (string * string)) : string :=
  "{" +:+ String.concat "," ((λ kt, quote kt.1 +:+ ":" +:+ kt.2) <$> members) +:+ "}".

(** [JSON.stringify(v)]: members whose value is [undefined] are left out, and
    such array items are [null]. *)
Fixpoint json_stringify (v : value) : option string :=
  match v with
  | VArr items => Some (brackets ((λ x, default "null" (json_stringify x)) <$> items))
  | VObj fields =>
      Some (braces (omap (λ kv, (λ t, (kv.1, t)) <$> json_stringify kv.2) fields))
  | _ => primitive_text v
  end.

Definition key_le {A} (a b : string * A) : bool := String.leb a.1 b.1.

(** [stableValue]: every object rebuilt from its sorted keys. *)
Fixpoint stable_value (v : value) : value :=
  match v with
  | VArr items => VArr (stable_value <$> items)
  | VObj fields =>
      from_entries (sort_by key_le ((λ kv, (kv.1, stable_value kv.2)) <$> fields))
  | _ => v
  end.
(** [stableJson]; the callers only pass values that are not [undefined]. *)
Definition stable_json (v : value) : string :=
  default "undefined" (json_stringify (stable_value v)).

(** [canonicalJson] of the session store. *)
Fixpoint canonical_json (v : value) : option string :=
  match v with
  | VArr items => Some (brackets ((λ x, default "" (canonical_json x)) <$> items))
  | VObj fields =>
      Some (braces (sort_by key_le
        ((λ kv, (kv.1, default "undefined" (canonical_json kv.2))) <$> fields)))
  | _ => primitive_text v
  end.

(** [canonicalize] of managed governance, which refuses what JSON cannot carry
    without loss.  Cycles, accessors, symbol keys and sparse arrays have no
    counterpart among the values of the model. *)
Definition canonical_error (message path : string) : value :=
  error_with "CanonicalJsonError" (message +:+ " at " +:+ path)
    "MANAGED_GOVERNANCE_CANONICAL_JSON_INVALID" (VStr path).

Definition encode_number (n : number) (path : string) : result string :=
  if negb (num_finite n) then Throw (canonical_error "number must be finite" path)
  else match n with
  | NNegZero => Throw (canonical_error "negative zero is not supported" path)
  | NInt z =>
      if (MAX_SAFE_INTEGER <? Z.abs z)%Z
      then Throw (canonical_error "integer exceeds the lossless JavaScript range" path)
      else Ok (show_number n)
  | _ => Ok (show_number n)
  end.

Fixpoint encode (v : value) (path : string) : result string :=
  match v with
  | VNull => Ok "null"
  | VStr s => Ok (quote s)
  | VBool b => Ok (if b then "true" else "false")
  | VNum n => encode_number n path
  | VUndef => Throw (canonical_error "unsupported value type undefined" path)
  | VArr items =>
      brackets <$>
        (fix items_text (i : nat) (l : list value) : result (list string) :=
          match l with
          | [] => Ok []
          | x :: l =>
              t ← encode x (path +:+ "[" +:+ pretty i +:+ "]");
              ts ← items_text (S i) l; Ok (t :: ts)
          end) 0%nat items
  | VObj fields =>
      braces <$> map_result (λ kr : string * result string, t ← kr.2; Ok (kr.1, t))
        (sort_by key_le ((λ kv, (kv.1, encode kv.2 (path +:+ "." +:+ kv.1))) <$> fields))
  end.
Definition canonicalize (v : value) : result string := encode v "$".

Example stable_json_example :
  stable_json (VObj [("b", VNum (NInt 1)); ("10", VNull); ("9", VArr [VUndef; VBool true]);
                     ("a", VObj [("x", VUndef)])])
  = "{" +:+ quote "9" +:+ ":[null,true]," +:+ quote "10" +:+ ":null," +:+
    quote "a" +:+ ":{}," +:+ quote "b" +:+ ":1}".
Proof. vm_compute. reflexivity. Qed.
Example show_number_examples :
  show_number <$> [NInt (10^21); NInt (-120); NDec 15 1; NDec 1 6; NDec 1 7; NDec (-125) 9]
  = ["1e+21"; "-120"; "1.5"; "0.000001"; "1e-7"; "-1.25e-7"].
Proof. vm_compute. reflexivity. Qed.

(** ** Values JSON carries without loss, and their text *)

(** No [undefined], distinct keys and safe integers, at every level. *)
Fixpoint plain (v : value) : bool :=
  match v with
  | VUndef => false
  | VNum (NInt z) => (Z.abs z <=? MAX_SAFE_INTEGER)%Z
  | VNum _ => false
  | VArr items => forallb plain items
  | VObj fields => bool_decide (NoDup fields.*1) && forallb (λ kv, plain kv.2) fields
  | _ => true
  end.

(** Equality up to the order of the keys of every object. *)
Inductive json_eq : value → value → Prop :=
  | json_eq_primitive v :
      (is_array v || is_record v = false)%bool → json_eq v v
  | json_eq_array l k : Forall2 json_eq l k → json_eq (VArr l) (VArr k)
  | json_eq_object f g h :
      Forall2 (λ a b : string * value, a.1 = b.1 ∧ json_eq a.2 b.2) f h → g ≡ₚ h →
      json_eq (VObj f) (VObj g).

(** The text of a plain value, keys in the order given. *)
Fixpoint text (v : value) : string :=
  match v with
  | VArr items => brackets (text <$> items)
  | VObj fields => braces ((λ kv, (kv.1, text kv.2)) <$> fields)
  | _ => default "" (primitive_text v)
  end.

Fixpoint sort_keys (v : value) : value :=
  match v with
  | VArr items => VArr (sort_keys <$> items)
  | VObj fields => VObj (sort_by key_le ((λ kv, (kv.1, sort_keys kv.2)) <$> fields))
  | _ => v
  end.

(** ** Unique decoding *)

Lemma app_assoc_s a b c : (a +:+ b) +:+ c = a +:+ b +:+ c.
Proof. induction a; [done|]. by apply (f_equal (String a)). Qed.

Lemma app_nil_s a : "" +:+ a = a.
Proof. done. Qed.

Lemma app_String a b c : String a b +:+ c = String a (b +:+ c).
Proof. done. Qed.

Definition delimiter (c : ascii) : bool :=
  Ascii.eqb c "," || Ascii.eqb c "]" || Ascii.eqb c "}".
Definition delimited (r : string) : Prop :=
  match r with EmptyString => True | String c _ => delimiter c = true end.

Definition numeral (c : ascii) : bool :=
  Ascii.eqb c "-" || bool_decide (is_Some (ascii_digit c)).

Fixpoint all_chars (f : ascii → bool) (s : string) : bool :=
  match s with EmptyString => true | String c s => f c && all_chars f s end.

Lemma numeral_delimiter c : numeral c = true → delimiter c = true → False.
Proof. destruct c as [[] [] [] [] [] [] [] []]; vm_compute; congruence. Qed.

Lemma numeral_split s t r1 r2 :
  all_chars numeral s = true → all_chars numeral t = true →
  delimited r1 → delimited r2 → s +:+ r1 = t +:+ r2 → s = t ∧ r1 = r2.
Proof.
  revert t. induction s as [|a s IH]; intros [|b t] Hs Ht Hr1 Hr2 H; simpl in *.
  - done.
  - change ("" +:+ r1) with r1 in H. subst r1. bool_props.
    exfalso. eapply numeral_delimiter; [|exact Hr1]. done.
  - change ("" +:+ r2) with r2 in H. subst r2. bool_props.
    exfalso. eapply numeral_delimiter; [|exact Hr2]. done.
  - rewrite !app_String in H. injection H as -> H. bool_props.
    destruct (IH t) as [-> ->]; done.
Qed.

Lemma pretty_N_char_numeral x : numeral (pretty_N_char x) = true.
Proof. unfold pretty_N_char. repeat case_match; reflexivity. Qed.

Lemma pretty_N_go_numeral x s :
  all_chars numeral s = true → all_chars numeral (pretty_N_go x s) = true.
Proof.
  revert s. induction (N.lt_wf_0 x) as [x _ IH]; intros s Hs.
  destruct (decide (x = 0)%N) as [->|]; [by rewrite pretty_N_go_0|].
  rewrite pretty_N_go_step by lia. apply IH; [apply N.div_lt; lia|].
  simpl. by rewrite pretty_N_char_numeral.
Qed.

Lemma pretty_numeral (z : Z) : all_chars numeral (pretty z) = true.
Proof.
  unfold pretty, pretty_Z, pretty, pretty_positive, pretty, pretty_N.
  destruct z as [|p|p].
  - done.
  - simpl. by apply pretty_N_go_numeral.
  - simpl. by apply pretty_N_go_numeral.
Qed.

(** Reading one character back from its escape sequence. *)
Definition unescape (s : string) : option (ascii * string) :=
  match s with
  | String "\" (String "u" (String _ (String _ (String h (String l r))))) =>
      let d c := let n := Ascii.N_of_ascii c in
        if (n <? 58)%N then (n - 48)%N else (n - 87)%N in
      Some (Ascii.ascii_of_N (16 * d h + d l), r)
  | String "\" (String e r) =>
      Some (match e with
            | "b" => "008" | "t" => "009" | "n" => "010" | "f" => "012"
            | "r" => "013" | c => c end%char, r)
  | String c r => if Ascii.eqb c (Ascii.ascii_of_N 34) then None else Some (c, r)
  | EmptyString => None
  end.

Lemma unescape_escape c r : unescape (escape_char c +:+ r) = Some (c, r).
Proof. destruct c as [[] [] [] [] [] [] [] []]; reflexivity. Qed.

Lemma unescape_quote r : unescape (quote_mark +:+ r) = None.
Proof. reflexivity. Qed.

Lemma escape_split s t r1 r2 :
  escape s +:+ quote_mark +:+ r1 = escape t +:+ quote_mark +:+ r2 →
  s = t ∧ r1 = r2.
Proof.
  revert t. induction s as [|a s IH]; intros [|b t] H; cbn [escape] in H;
    rewrite ?app_assoc_s, ?app_nil_s in H; pose proof (f_equal unescape H) as H';
    rewrite ?unescape_escape, ?unescape_quote in H'; try done.
  - by injection H.
  - injection H' as -> H'. by destruct (IH t H') as [-> ->].
Qed.

Lemma quote_split s t r1 r2 :
  quote s +:+ r1 = quote t +:+ r2 → s = t ∧ r1 = r2.
Proof.
  unfold quote. rewrite !app_assoc_s. intros H.
  apply (escape_split s t). by injection H.
Qed.

(** Comma-separated items between brackets decode uniquely when each item does. *)
Section separated.
Context {A : Type} (txt : A → string) (ok : A → Prop) (close : ascii).
Hypothesis close_delimiter : delimiter close = true.
Hypothesis close_comma : close ≠ ","%char.
Hypothesis txt_head : ∀ x, ok x → ∃ c s, txt x = String c s ∧ delimiter c = false.

Fixpoint tail_text (l : list string) : string :=
  match l with [] => "" | x :: l => "," +:+ x +:+ tail_text l end.

Lemma concat_cons x l : String.concat "," (x :: l) = x +:+ tail_text l.
Proof.
  revert x. induction l as [|y l IH]; intros x; simpl.
  - induction x; [done|]. by apply (f_equal (String a)).
  - by rewrite <- IH.
Qed.

Lemma tail_delimited l r : delimited (tail_text l +:+ String close r).
Proof. destruct l; [done|]. cbn [tail_text]. by rewrite !app_assoc_s. Qed.

Definition splits (x : A) : Prop := ∀ y r1 r2,
  ok x → ok y → delimited r1 → delimited r2 →
  txt x +:+ r1 = txt y +:+ r2 → x = y ∧ r1 = r2.

Lemma tail_split l k r1 r2 :
  Forall splits l → Forall ok l → Forall ok k →
  tail_text (txt <$> l) +:+ String close r1 = tail_text (txt <$> k) +:+ String close r2 →
  l = k ∧ r1 = r2.
Proof.
  revert k. induction l as [|x l IH]; intros [|y k] HS Hl Hk H; simpl in H;
    rewrite ?app_assoc_s, ?app_nil_s, ?app_String in H.
  - by injection H.
  - injection H as H. congruence.
  - injection H as H. congruence.
  - apply Forall_cons in HS as [Hx HS], Hl as [Ox Hl], Hk as [Oy Hk].
    injection H as H. apply Hx in H as [<- H]; auto using tail_delimited.
    apply IH in H as [<- <-]; auto.
Qed.

Lemma concat_split l k r1 r2 :
  Forall splits l → Forall ok l → Forall ok k →
  String.concat "," (txt <$> l) +:+ String close r1 =
    String.concat "," (txt <$> k) +:+ String close r2 →
  l = k ∧ r1 = r2.
Proof.
  intros HS Hl Hk. destruct l as [|x l], k as [|y k]; cbn [fmap list_fmap];
    rewrite ?concat_cons, ?app_assoc_s; intros H.
  - by injection H.
  - apply Forall_cons in Hk as [Oy _]. destruct (txt_head y Oy) as (c & s & E & Hc).
    rewrite E in H. injection H as -> _. congruence.
  - apply Forall_cons in Hl as [Ox _]. destruct (txt_head x Ox) as (c & s & E & Hc).
    rewrite E in H. injection H as -> _. congruence.
  - apply Forall_cons in HS as [Hx HS], Hl as [Ox Hl], Hk as [Oy Hk].
    apply Hx in H as [<- H]; auto using tail_delimited.
    apply tail_split in H as [<- <-]; auto.
Qed.
End separated.

(** What the first character of a text tells about its value. *)
Definition head_kind (c : ascii) : nat :=
  if numeral c then 1 else if Ascii.eqb c "n" then 2 else if Ascii.eqb c "t" then 3
  else if Ascii.eqb c "f" then 4 else if Ascii.eqb c (Ascii.ascii_of_N 34) then 5
  else if Ascii.eqb c "[" then 6 else if Ascii.eqb c "{" then 7 else 0.
Definition value_kind (v : value) : nat :=
  match v with
  | VUndef => 0 | VNum _ => 1 | VNull => 2 | VBool true => 3 | VBool false => 4
  | VStr _ => 5 | VArr _ => 6 | VObj _ => 7
  end.

Lemma head_kind_delimiter c : head_kind c ≠ 0 → delimiter c = false.
Proof. destruct c as [[] [] [] [] [] [] [] []]; vm_compute; congruence. Qed.

Lemma plain_integer n : plain (VNum n) = true →
  ∃ z, n = NInt z ∧ text (VNum n) = pretty z.
Proof.
  destruct n as [z| | | |]; simpl; try done. intros H. exists z. split; [done|].
  unfold show_integer. apply Z.leb_le in H.
  replace (Z.abs z <? 10 ^ 21)%Z with true; [done|].
  symmetry. apply Z.ltb_lt. unfold MAX_SAFE_INTEGER in H. lia.
Qed.

Lemma pretty_Z_nonempty (z : Z) : pretty z ≠ "".
Proof.
  unfold pretty, pretty_Z, pretty, pretty_positive, pretty, pretty_N.
  destruct z as [|p|p]; try done. simpl. rewrite pretty_N_go_step by done.
  assert (∀ x s, s ≠ "" → pretty_N_go x s ≠ "") as Hne; [|by apply Hne].
  intros x. induction (N.lt_wf_0 x) as [x _ IH]; intros s Hs.
  destruct (decide (x = 0)%N) as [->|]; [by rewrite pretty_N_go_0|].
  rewrite pretty_N_go_step by lia. apply IH; [apply N.div_lt; lia|done].
Qed.

Lemma text_head v : plain v = true →
  ∃ c s, text v = String c s ∧ head_kind c = value_kind v ∧ value_kind v ≠ 0.
Proof.
  destruct v as [| |[]|n|s|l|f]; intros Hp; try done; try (by eexists _, _).
  destruct (plain_integer n Hp) as (z & -> & ->).
  pose proof (pretty_numeral z) as Hn. pose proof (pretty_Z_nonempty z) as He.
  destruct (pretty z) as [|c s]; [done|]. exists c, s. simpl in Hn. bool_props.
  split; [done|]. unfold head_kind. by rewrite H.
Qed.

Lemma text_head_delimiter v : plain v = true →
  ∃ c s, text v = String c s ∧ delimiter c = false.
Proof.
  intros Hp. destruct (text_head v Hp) as (c & s & E & Hk & H0).
  exists c, s. split; [done|]. apply head_kind_delimiter. congruence.
Qed.

Definition member_text (kv : string * value) : string := quote kv.1 +:+ ":" +:+ text kv.2.

Lemma braces_text f :
  text (VObj f) = "{" +:+ String.concat "," (member_text <$> f) +:+ "}".
Proof. unfold text; fold text. unfold braces. by rewrite <- list_fmap_compose. Qed.

Lemma text_split v : splits text (λ v, plain v = true) v.
Proof.
  induction v as [| |b|n|s|l IH|f IH] using value_ind'; intros w r1 r2 Hv Hw Hr1 Hr2 H;
    (destruct (text_head w Hw) as (c & t & E & Hk & _);
     destruct (text_head _ Hv) as (c' & t' & E' & Hk' & Hne);
     pose proof H as Hh; rewrite E, E' in Hh; injection Hh as Hc _; subst c';
     rewrite Hk in Hk'; clear Hk E E' t t' c; simpl in Hk', Hne;
     destruct w as [| |[]|m|u|k|g]; try destruct b; try done; clear Hk' Hne).
  - by injection H.
  - by injection H.
  - by injection H.
  - destruct (plain_integer n Hv) as (z & -> & E1).
    destruct (plain_integer m Hw) as (z' & -> & E2). rewrite E1, E2 in H.
    apply numeral_split in H as [H ->]; auto using pretty_numeral.
    by apply (inj pretty) in H as ->.
  - apply quote_split in H as [-> ->]. done.
  - simpl in Hv, Hw. rewrite forallb_true, <- Forall_forall in Hv, Hw.
    simpl in H. unfold brackets in H. rewrite !app_assoc_s in H. injection H as H.
    apply (concat_split text (λ v, plain v = true)) in H as [-> ->]; auto using text_head_delimiter.
  - simpl in Hv, Hw. bool_props. rewrite forallb_true, <- Forall_forall in *.
    rewrite !braces_text, !app_assoc_s in H. injection H as H.
    apply (concat_split member_text (λ kv, plain kv.2 = true)) in H as [-> ->]; auto.
    + intros [k v] _. eexists _, _. split; [reflexivity|]. reflexivity.
    + eapply Forall_impl; [exact IH|]. intros [k v] Hs [k' v'] s1 s2 Hk1 Hk2 Hd1 Hd2 HH.
      unfold member_text in HH. simpl in *. rewrite !app_assoc_s in HH.
      apply quote_split in HH as [<- HH]. injection HH as HH.
      by apply Hs in HH as [<- <-].
Qed.

(** The text of plain values decodes uniquely. *)
Lemma text_inj v w : plain v = true → plain w = true → text v = text w → v = w.
Proof.
  intros Hv Hw H. assert (∀ s, s +:+ "" = s) as Hnil.
  { intros s. induction s; [done|]. by apply (f_equal (String a)). }
  apply (text_split v w "" ""); auto; simpl; auto. by rewrite !Hnil.
Qed.

(** ** Normal forms and equality up to key order *)

Lemma Forall_fmap_ext_eq {A B} (f g : A → B) l :
  Forall (λ x, f x = g x) l → f <$> l = g <$> l.
Proof. apply Forall_fmap_ext_1. Qed.

#[export] Instance key_le_order {A} : LebOrder (@key_le A).
Proof.
  split; unfold key_le; intros.
  - destruct (String.leb_total x.1 y.1); auto.
  - by eapply (leb_trans String.leb).
Qed.

Lemma sort_key_perm {A} (l k : list (string * A)) :
  NoDup l.*1 → l ≡ₚ k → sort_by key_le l = sort_by key_le k.
Proof.
  intros HN. apply sort_by_unique; [apply key_le_order|].
  intros [x a] [y b] Hx Hy H1 H2.
  assert (x = y) as -> by (by apply string_leb_antisym).
  f_equal. apply list_elem_of_lookup in Hx as [i Hi], Hy as [j Hj].
  assert (i = j) as ->; [|congruence].
  eapply (NoDup_lookup _ _ _ y HN); by rewrite list_lookup_fmap, ?Hi, ?Hj.
Qed.

Lemma sort_map_values {A B} (f : A → B) (l : list (string * A)) :
  sort_by key_le ((λ kv, (kv.1, f kv.2)) <$> l) =
  (λ kv, (kv.1, f kv.2)) <$> sort_by key_le l.
Proof.
  induction l as [|[k x] l IH]; [done|]. rewrite fmap_cons. cbn [sort_by]. rewrite IH. clear IH.
  induction (sort_by key_le l) as [|[k' y] s IH]; [done|].
  cbn [fmap list_fmap insert_by]. unfold key_le at 1 3; cbn [fst snd].
  destruct (String.leb k k'); [done|]. cbn [fmap list_fmap]. f_equal. exact IH.
Qed.

Lemma keys_map_values {A B} (f : A → B) (l : list (string * A)) :
  ((λ kv, (kv.1, f kv.2)) <$> l).*1 = l.*1.
Proof. by rewrite <- list_fmap_compose. Qed.

Lemma put_new k v f : k ∉ f.*1 → put k v f = f ++ [(k, v)].
Proof.
  induction f as [|[k' w] f IH]; simpl; [done|]. rewrite not_elem_of_cons. intros [Hne Hf].
  destruct (String.eqb_spec k k'); [done|]. by rewrite IH.
Qed.

Lemma fold_put_NoDup l acc :
  NoDup (acc ++ l).*1 → fold_left (λ acc kv, put kv.1 kv.2 acc) l acc = acc ++ l.
Proof.
  revert acc. induction l as [|[k v] l IH]; intros acc H; simpl.
  - by rewrite app_nil_r.
  - assert (Hk : k ∉ acc.*1).
    { rewrite fmap_app, NoDup_app in H. destruct H as (_ & H & _).
      intros Hk. apply (H k Hk). by left. }
    rewrite put_new by done.
    replace (acc ++ (k, v) :: l) with ((acc ++ [(k, v)]) ++ l) in *
      by (by rewrite <- app_assoc).
    by apply IH.
Qed.

Lemma filter_partition_perm {A} (f : A → bool) l :
  List.filter f l ++ List.filter (λ x, negb (f x)) l ≡ₚ l.
Proof.
  induction l as [|x l IH]; simpl; [done|]. destruct (f x); simpl.
  - by rewrite IH.
  - by rewrite <- Permutation_middle, IH.
Qed.

Lemma own_order_perm l : own_order l ≡ₚ l.
Proof. unfold own_order. by rewrite sort_by_perm, filter_partition_perm. Qed.

Lemma from_entries_NoDup l : NoDup l.*1 →
  ∃ g, from_entries l = VObj g ∧ g ≡ₚ l.
Proof.
  intros H. eexists. split; [reflexivity|].
  by rewrite own_order_perm, fold_put_NoDup.
Qed.

Lemma plain_object f : plain (VObj f) = true ↔
  NoDup f.*1 ∧ Forall (λ kv, plain kv.2 = true) f.
Proof.
  simpl. rewrite andb_true_iff, bool_decide_eq_true, forallb_true, Forall_forall. done.
Qed.
Lemma plain_array l : plain (VArr l) = true ↔ Forall (λ v, plain v = true) l.
Proof. simpl. by rewrite forallb_true, Forall_forall. Qed.

Lemma plain_object_perm f g : f ≡ₚ g → plain (VObj f) = true → plain (VObj g) = true.
Proof. rewrite !plain_object. intros H [??]. split; by rewrite <- H. Qed.

Lemma plain_map_values (f : value → value) l :
  plain (VObj l) = true →
  Forall (λ kv, plain kv.2 = true → plain (f kv.2) = true) l →
  plain (VObj ((λ kv, (kv.1, f kv.2)) <$> l)) = true.
Proof.
  rewrite !plain_object, keys_map_values, Forall_fmap. intros [HN HP] HF.
  split; [done|]. rewrite Forall_forall in *. intros x Hx. by apply HF, HP.
Qed.

Lemma sort_keys_plain v : plain v = true → plain (sort_keys v) = true.
Proof.
  induction v as [| |b|n|s|l IH|f IH] using value_ind'; try done; intros Hp.
  - simpl sort_keys. rewrite plain_array in *. rewrite Forall_fmap.
    rewrite Forall_forall in *. intros x Hx. by apply (IH x Hx), Hp.
  - simpl sort_keys. eapply plain_object_perm; [by rewrite sort_by_perm|].
    by apply plain_map_values.
Qed.

Lemma stable_value_plain v : plain v = true → plain (stable_value v) = true.
Proof.
  induction v as [| |b|n|s|l IH|f IH] using value_ind'; try done; intros Hp.
  - simpl stable_value. rewrite plain_array in *. rewrite Forall_fmap.
    rewrite Forall_forall in *. intros x Hx. by apply (IH x Hx), Hp.
  - simpl stable_value.
    assert (Hm := plain_map_values stable_value f Hp IH).
    destruct (from_entries_NoDup (sort_by key_le ((λ kv, (kv.1, stable_value kv.2)) <$> f)))
      as (g & -> & Hg).
    + rewrite sort_by_perm. by apply plain_object.
    + eapply plain_object_perm; [|exact Hm]. by rewrite Hg, sort_by_perm.
Qed.

(** [sort_keys] absorbs [stable_value] and conversely. *)
Lemma sort_keys_stable v : plain v = true → sort_keys (stable_value v) = sort_keys v.
Proof.
  induction v as [| |b|n|s|l IH|f IH] using value_ind'; try done; intros Hp.
  - simpl. f_equal. rewrite <- list_fmap_compose. apply Forall_fmap_ext_eq.
    rewrite plain_array in Hp. rewrite Forall_forall in *. intros x Hx. by apply IH, Hp.
  - pose proof Hp as [HN HF]%plain_object. simpl stable_value.
    destruct (from_entries_NoDup (sort_by key_le ((λ kv, (kv.1, stable_value kv.2)) <$> f)))
      as (g & -> & Hg); [by rewrite sort_by_perm, keys_map_values|].
    rewrite sort_by_perm in Hg. simpl. f_equal.
    transitivity (sort_by key_le ((λ kv, (kv.1, sort_keys kv.2)) <$>
      ((λ kv, (kv.1, stable_value kv.2)) <$> f))).
    + symmetry. apply sort_key_perm; [by rewrite !keys_map_values|]. by rewrite Hg.
    + rewrite <- list_fmap_compose. f_equal. apply Forall_fmap_ext_eq.
      rewrite Forall_forall in *. intros x Hx. simpl. f_equal. by apply (IH x Hx), HF.
Qed.

Lemma stable_sort_keys v : plain v = true → stable_value (sort_keys v) = stable_value v.
Proof.
  induction v as [| |b|n|s|l IH|f IH] using value_ind'; try done; intros Hp.
  - simpl. f_equal. rewrite <- list_fmap_compose. apply Forall_fmap_ext_eq.
    rewrite plain_array in Hp. rewrite Forall_forall in *. intros x Hx. by apply IH, Hp.
  - pose proof Hp as [HN HF]%plain_object. simpl. f_equal.
    transitivity (sort_by key_le ((λ kv, (kv.1, stable_value kv.2)) <$>
      ((λ kv, (kv.1, sort_keys kv.2)) <$> f))).
    + symmetry. apply sort_key_perm; [by rewrite !keys_map_values|].
      by rewrite (sort_by_perm key_le).
    + rewrite <- list_fmap_compose. f_equal. apply Forall_fmap_ext_eq.
      rewrite Forall_forall in *. intros x Hx. simpl. f_equal. by apply (IH x Hx), HF.
Qed.

Lemma json_eq_sort_keys v w : plain v = true → json_eq v w → sort_keys v = sort_keys w.
Proof.
  revert w. induction v as [| |b|n|s|l IH|f IH] using value_ind'; intros w Hp H;
    inversion H as [|? k HF|? g h HF HP]; subst; try done.
  - rewrite plain_array in Hp. cbn [sort_keys]. f_equal. clear H.
    induction HF as [|x y l k Hxy HF IHF]; [done|].
    apply Forall_cons in IH as [Hx IH], Hp as [Px Hp].
    rewrite !fmap_cons. f_equal; [by apply Hx|by apply IHF].
  - pose proof Hp as [HN HV]%plain_object. simpl. f_equal.
    transitivity (sort_by key_le ((λ kv, (kv.1, sort_keys kv.2)) <$> h)).
    + f_equal. clear H HP HN Hp. induction HF as [|x y f h [Hk Hv] HF IHF]; [done|].
      apply Forall_cons in IH as [Hx IH], HV as [Px HV].
      rewrite !fmap_cons. f_equal; [|by apply IHF]. by rewrite (Hx y.2), Hk.
    + symmetry. apply sort_key_perm; [|by rewrite HP].
      rewrite keys_map_values, HP. replace (h.*1) with (f.*1); [done|].
      clear - HF. induction HF as [|x y f h [Hk _] HF IHF]; [done|].
      by rewrite !fmap_cons, Hk, IHF.
Qed.

Lemma sort_keys_json_eq v w : sort_keys v = sort_keys w → json_eq v w.
Proof.
  revert w. induction v as [| |b|n|s|l IH|f IH] using value_ind';
    intros [| | | | |k|g] H; simplify_eq/=; try by constructor.
  - constructor. revert k H. induction IH as [|x l Hx HF IHl]; intros [|y k] H;
      rewrite ?fmap_cons in H; simplify_eq; constructor; [by apply Hx|by apply IHl].
  - assert (HP : (λ kv, (kv.1, sort_keys kv.2)) <$> f ≡ₚ (λ kv, (kv.1, sort_keys kv.2)) <$> g).
    { etrans; [symmetry; apply (sort_by_perm key_le)|]. rewrite H. apply sort_by_perm. }
    apply Permutation_map_inv in HP as (h & Hh & HP).
    apply (json_eq_object f g h); [|done]. clear H HP.
    revert h Hh. induction IH as [|x f Hx HF IHf]; intros [|y h] Hh;
      rewrite ?fmap_cons in Hh; simplify_eq/=; constructor; auto.
Qed.

(** ** The texts of plain values *)

Lemma plain_defined v : plain v = true → v ≠ VUndef.
Proof. by intros H ->. Qed.

Lemma stringify_text v : plain v = true → json_stringify v = Some (text v).
Proof.
  induction v as [| |b|n|s|l IH|f IH] using value_ind'; try done; intros Hp.
  - rewrite plain_array in Hp. simpl. do 2 f_equal. apply Forall_fmap_ext_eq.
    rewrite Forall_forall in *. intros x Hx. by rewrite (IH x Hx (Hp x Hx)).
  - apply plain_object in Hp as [_ Hp]. simpl. do 2 f_equal.
    induction IH as [|x f Hx HF IHf]; [done|]. apply Forall_cons in Hp as [Px Hp].
    simpl. rewrite (Hx Px). simpl. f_equal. by apply IHf.
Qed.

Lemma canonical_text v : plain v = true → canonical_json v = Some (text (sort_keys v)).
Proof.
  induction v as [| |b|n|s|l IH|f IH] using value_ind'; try done; intros Hp.
  - rewrite plain_array in Hp. simpl. do 2 f_equal. rewrite <- list_fmap_compose.
    apply Forall_fmap_ext_eq. rewrite Forall_forall in *. intros x Hx.
    by rewrite (IH x Hx (Hp x Hx)).
  - apply plain_object in Hp as [_ Hp]. simpl. do 2 f_equal.
    rewrite (sort_map_values (λ v, default "undefined" (canonical_json v))).
    rewrite (sort_map_values sort_keys), <- list_fmap_compose.
    apply Forall_fmap_ext_eq. rewrite (sort_by_perm key_le).
    rewrite Forall_forall in *. intros x Hx. simpl. by rewrite (IH x Hx (Hp x Hx)).
Qed.

Lemma stable_text v : plain v = true → stable_json v = text (stable_value v).
Proof. intros H. unfold stable_json. by rewrite stringify_text by by apply stable_value_plain. Qed.

Lemma sequence_pairs (l : list (string * string)) :
  map_result (λ kr : string * result string, t ← kr.2; Ok (kr.1, t))
    ((λ kt, (kt.1, Ok kt.2)) <$> l) = Ok l.
Proof. induction l as [|[k t] l IH]; [done|]. rewrite fmap_cons. simpl. by rewrite IH. Qed.

Lemma canonicalize_encode v path : plain v = true → encode v path = Ok (text (sort_keys v)).
Proof.
  revert path. induction v as [| |b|n|s|l IH|f IH] using value_ind'; try done; intros path Hp.
  - simpl. destruct n as [z| | | |]; try done. unfold encode_number. simpl in *.
    apply Z.leb_le in Hp. replace (MAX_SAFE_INTEGER <? Z.abs z)%Z with false; [done|].
    symmetry. by apply Z.ltb_ge.
  - rewrite plain_array in Hp. simpl.
    match goal with |- context [?go 0%nat l] =>
      assert (∀ i, go i l = Ok ((λ x, text (sort_keys x)) <$> l)) as Hgo end.
    { induction IH as [|x l Hx HF IHl]; intros i; [done|].
      apply Forall_cons in Hp as [Px Hp]. rewrite Hx by done. simpl. by rewrite IHl. }
    rewrite Hgo. simpl. by rewrite <- list_fmap_compose.
  - apply plain_object in Hp as [_ Hp]. simpl.
    assert (Hm : (λ kv, (kv.1, encode kv.2 (path +:+ "." +:+ kv.1))) <$> f =
      (λ kt, (kt.1, Ok kt.2)) <$> ((λ kv, (kv.1, text (sort_keys kv.2))) <$> f)).
    { rewrite <- list_fmap_compose. apply Forall_fmap_ext_eq.
      rewrite Forall_forall in *. intros x Hx. simpl. by rewrite (IH x Hx _ (Hp x Hx)). }
    rewrite Hm, (sort_map_values (@Ok string)), sequence_pairs. simpl. do 2 f_equal.
    rewrite (sort_map_values sort_keys), <- list_fmap_compose.
    by rewrite (sort_map_values (λ v, text (sort_keys v))).
Qed.

(** ** What the canonical texts identify *)

(** [stableJson] identifies exactly the values equal up to key order. *)
Theorem stable_json_iff v w : plain v = true → plain w = true →
  stable_json v = stable_json w ↔ json_eq v w.
Proof.
  intros Hv Hw. rewrite !stable_text by done. split.
  - intros H%text_inj; [|by apply stable_value_plain..].
    apply sort_keys_json_eq. by rewrite <- (sort_keys_stable v), H, sort_keys_stable.
  - intros H%json_eq_sort_keys; [|done].
    by rewrite <- (stable_sort_keys v), H, stable_sort_keys.
Qed.

Definition sample_json : value :=
  VObj [("b", VArr [VNum (NInt 1); VNull]); ("a", VStr "x"); ("10", VBool true)].
Definition sample_reordered : value :=
  VObj [("10", VBool true); ("a", VStr "x"); ("b", VArr [VNum (NInt 1); VNull])].

Lemma sample_plain : plain sample_json = true ∧ plain sample_reordered = true.
Proof. by vm_compute. Qed.

Lemma stable_json_iff_witness :
  stable_json sample_json = stable_json sample_reordered ∧ json_eq sample_json sample_reordered.
Proof.
  assert (H : stable_json sample_json = stable_json sample_reordered) by (vm_compute; reflexivity).
  split; [exact H|].
  exact (proj1 (stable_json_iff sample_json sample_reordered (proj1 sample_plain)
    (proj2 sample_plain)) H).
Defined.

(** [canonicalJson] of the session store draws the same distinction. *)
Theorem canonical_json_iff v w : plain v = true → plain w = true →
  canonical_json v = canonical_json w ↔ json_eq v w.
Proof.
  intros Hv Hw. rewrite !canonical_text by done. split.
  - intros H. apply sort_keys_json_eq, text_inj; try by apply sort_keys_plain.
    congruence.
  - intros H%json_eq_sort_keys; [|done]. by rewrite H.
Qed.

Lemma canonical_json_iff_witness :
  canonical_json sample_json ≠ canonical_json (VArr [sample_json]) ∧
  ¬ json_eq sample_json (VArr [sample_json]).
Proof.
  assert (H : canonical_json sample_json ≠ canonical_json (VArr [sample_json])) by
    (vm_compute; discriminate).
  split; [exact H|]. intros He. apply H.
  apply (canonical_json_iff sample_json (VArr [sample_json]) (proj1 sample_plain)); [|exact He].
  vm_compute. reflexivity.
Defined.

(** [canonicalize] of managed governance accepts every plain value and writes
    the text [canonicalJson] writes: digests taken by the two halves of the system
    agree. *)
Theorem canonicalize_canonical_json v : plain v = true →
  canonicalize v = Ok (default "" (canonical_json v)).
Proof. intros H. unfold canonicalize. by rewrite canonicalize_encode, canonical_text. Qed.

Lemma canonicalize_canonical_json_witness :
  canonicalize sample_json = Ok (default "" (canonical_json sample_json)) ∧
  is_Some (canonical_json sample_json).
Proof.
  split; [exact (canonicalize_canonical_json sample_json (proj1 sample_plain))|].
  vm_compute. eexists. reflexivity.
Defined.

(** ** Looking properties up *)

Lemma assoc_put_eq k v f : assoc k (put k v f) = Some v.
Proof.
  induction f as [|[k' w] f IH]; simpl; [by rewrite String.eqb_refl|].
  destruct (k =s k') eqn:E; simpl; by rewrite E.
Qed.

Lemma assoc_put_ne k k' v f : k ≠ k' → assoc k (put k' v f) = assoc k f.
Proof.
  intros Hne. induction f as [|[k1 w] f IH]; simpl.
  - by apply String.eqb_neq in Hne as ->.
  - destruct (k' =s k1) eqn:E; simpl; destruct (k =s k1) eqn:E1; try done.
    bool_props. congruence.
Qed.

Lemma keys_put k v f : (put k v f).*1 = if decide (k ∈ f.*1) then f.*1 else f.*1 ++ [k].
Proof.
  induction f as [|[k' w] f IH]; [done|]. cbn [put]. destruct (k =s k') eqn:E; bool_props.
  - subst. rewrite !fmap_cons. simpl. by rewrite decide_True by left.
  - rewrite !fmap_cons, IH. simpl. repeat case_decide; set_solver.
Qed.

Lemma NoDup_put k v f : NoDup f.*1 → NoDup (put k v f).*1.
Proof.
  intros H. rewrite keys_put. case_decide; [done|].
  apply NoDup_app. split_and!; [done|set_solver|apply NoDup_singleton].
Qed.

Lemma NoDup_fold_put (l f : list (string * value)) : NoDup f.*1 →
  NoDup (fold_left (λ acc kv, put kv.1 kv.2 acc) l f).*1.
Proof. revert f. induction l as [|x l IH]; simpl; intros f H; [done|]. by apply IH, NoDup_put. Qed.

Lemma assoc_None {A} k (f : list (string * A)) : assoc k f = None ↔ k ∉ f.*1.
Proof.
  induction f as [|[k' w] f IH]; [split; [intros _ ?%not_elem_of_nil|]; done|].
  rewrite fmap_cons. simpl. case_if; bool_props; subst.
  - split; [done|]. set_solver.
  - rewrite IH. set_solver.
Qed.

Lemma assoc_elem_of {A} k (f : list (string * A)) v :
  NoDup f.*1 → assoc k f = Some v ↔ (k, v) ∈ f.
Proof.
  induction f as [|[k' w] f IH]; simpl; [split; [done|by intros ?%not_elem_of_nil]|].
  intros [Hn HN]%NoDup_cons. rewrite elem_of_cons. case_if; bool_props; subst.
  - split; [intros; simplify_eq; by left|]. intros [?|Hin]; [simplify_eq; done|].
    exfalso. apply Hn. apply list_elem_of_fmap. by exists (k', v).
  - rewrite (IH HN). naive_solver.
Qed.

Lemma assoc_perm {A} k (f g : list (string * A)) : NoDup f.*1 → f ≡ₚ g → assoc k f = assoc k g.
Proof.
  intros HN HP. assert (HN' : NoDup g.*1) by (by rewrite <- HP).
  apply option_eq. intros v. by rewrite !assoc_elem_of, HP.
Qed.

Lemma assoc_own_order k f : NoDup f.*1 → assoc k (own_order f) = assoc k f.
Proof. intros H. symmetry. apply assoc_perm; [done|]. symmetry. apply own_order_perm. Qed.

Lemma get_put_eq k v f : get k (VObj (put k v f)) = v.
Proof. simpl. by rewrite assoc_put_eq. Qed.
Lemma get_put_ne k k' v f : k ≠ k' → get k (VObj (put k' v f)) = get k (VObj f).
Proof. intros H. simpl. by rewrite assoc_put_ne. Qed.

(** ** The digits of a number *)

Lemma digit_char r : (r < 10)%N → ascii_digit (pretty_N_char r) = Some r.
Proof.
  intros Hr.
  assert (r = 0 ∨ r = 1 ∨ r = 2 ∨ r = 3 ∨ r = 4 ∨ r = 5 ∨ r = 6 ∨ r = 7 ∨ r = 8 ∨ r = 9)%N
    as H by lia.
  by repeat destruct H as [->|H]; subst.
Qed.

Lemma decimal_pretty_go x s :
  decimal_value 0 (pretty_N_go x s) = decimal_value x s.
Proof.
  revert s. induction (N.lt_wf_0 x) as [x _ IH]; intros s.
  destruct (decide (x = 0)%N) as [->|Hx]; [by rewrite pretty_N_go_0|].
  rewrite pretty_N_go_step by lia. rewrite IH by (apply N.div_lt; lia).
  pose proof (N.mod_lt x 10 ltac:(lia)). pose proof (N.div_mod x 10 ltac:(lia)).
  assert (ascii_digit (pretty_N_char (x mod 10)) = Some (x mod 10)%N) as Hd.
  { by apply digit_char. }
  cbn [decimal_value]. rewrite Hd. cbn. f_equal. lia.
Qed.
