(* ===== verification/JsMap.v ===== *)
(** * Maps with text keys

    A [Map] (or an object used as one) is the list of its pairs in insertion order:
    [assoc] reads, [upsert] sets a value where its key already is, [remove] deletes. *)
From S2P Require Import Prelude JsValue CanonicalJson.

Fixpoint upsert {A} (k : string) (v : A) (l : list (string * A)) : list (string * A) :=
  match l with
  | [] => [(k, v)]
  | (k', w) :: l => if k =s k' then (k', v) :: l else (k', w) :: upsert k v l
  end.

Definition remove {A} (k : string) (l : list (string * A)) : list (string * A) :=
  List.filter (λ kv, negb (kv.1 =s k)) l.

(** ** Reading after writing *)

Lemma assoc_upsert_eq {A} k (v : A) l : assoc k (upsert k v l) = Some v.
Proof.
  induction l as [|[k' w] l IH]; simpl; [by rewrite String.eqb_refl|].
  destruct (k =s k') eqn:E; simpl; by rewrite E.
Qed.

Lemma assoc_upsert_ne {A} k k' (v : A) l : k ≠ k' → assoc k (upsert k' v l) = assoc k l.
Proof.
  intros Hne. induction l as [|[k'' w] l IH]; simpl.
  - destruct (k =s k') eqn:E; [|done]. by apply String.eqb_eq in E.
  - destruct (k' =s k'') eqn:E; simpl; [|by rewrite IH].
    apply String.eqb_eq in E as ->. destruct (k =s k'') eqn:E'; [|done]. by apply String.eqb_eq in E'.
Qed.

Lemma keys_upsert {A} k (v : A) l :
  (upsert k v l).*1 = if decide (k ∈ l.*1) then l.*1 else l.*1 ++ [k].
Proof.
  induction l as [|[k' w] l IH]; [done|]. cbn [upsert]. destruct (k =s k') eqn:E; csimpl.
  - apply String.eqb_eq in E as ->. by rewrite decide_True by by left.
  - apply String.eqb_neq in E. rewrite IH. repeat case_decide; set_solver.
Qed.

Lemma NoDup_upsert {A} k (v : A) l : NoDup l.*1 → NoDup (upsert k v l).*1.
Proof.
  intros HN. rewrite keys_upsert. case_decide; [done|]. apply NoDup_app. set_solver by eauto using NoDup_singleton.
Qed.

Lemma length_upsert {A} k (v : A) l :
  length (upsert k v l) = if decide (k ∈ l.*1) then length l else S (length l).
Proof.
  pose proof (f_equal length (keys_upsert k v l)) as Hl. rewrite length_fmap in Hl. rewrite Hl.
  case_decide; rewrite ?length_app, length_fmap; simpl; lia.
Qed.

Lemma elem_of_upsert {A} k (v : A) l kv : kv ∈ upsert k v l → kv = (k, v) ∨ kv ∈ l.
Proof.
  induction l as [|[k' w] l IH]; simpl; [set_solver|].
  destruct (k =s k') eqn:E; [apply String.eqb_eq in E as ->|]; set_solver.
Qed.

Lemma assoc_snoc {A} k k' (x : A) l : assoc k (l ++ [(k', x)]) =
  match assoc k l with Some y => Some y | None => if k =s k' then Some x else None end.
Proof. induction l as [|[k0 y] l IH]; simpl; [done|]. by case_if. Qed.

(** ** Deleting *)

Lemma elem_of_remove {A} k (l : list (string * A)) kv : kv ∈ remove k l ↔ kv ∈ l ∧ kv.1 ≠ k.
Proof. unfold remove. rewrite list_filter_elem, negb_true_iff, String.eqb_neq. done. Qed.

Lemma remove_keys {A} k (l : list (string * A)) : (remove k l).*1 `sublist_of` l.*1.
Proof.
  unfold remove. induction l as [|[j x] l IH]; simpl; [constructor|]. destruct (negb _); simpl; by constructor.
Qed.

Lemma remove_NoDup {A} k (l : list (string * A)) : NoDup l.*1 → NoDup (remove k l).*1.
Proof. intros HN. eapply sublist_NoDup; [exact HN|apply remove_keys]. Qed.

Lemma remove_values {A} k (l : list (string * A)) : NoDup l.*2 → NoDup (remove k l).*2.
Proof.
  intros HN. eapply sublist_NoDup; [exact HN|]. clear HN. unfold remove. induction l as [|[j x] l IH]; simpl; [constructor|].
  destruct (negb _); simpl; by constructor.
Qed.

Lemma NoDup_value {A} (l : list (string * A)) k j x : NoDup l.*2 → (k, x) ∈ l → (j, x) ∈ l → k = j.
Proof.
  intros HN (n & Hn)%list_elem_of_lookup (m & Hm)%list_elem_of_lookup.
  assert (n = m) as ->; [|congruence].
  eapply NoDup_lookup; [exact HN|..]; by rewrite list_lookup_fmap, ?Hn, ?Hm.
Qed.

Lemma NoDup_snoc {A} (l : list A) x : NoDup l → x ∉ l → NoDup (l ++ [x]).
Proof. intros Hl Hx. apply NoDup_app. split_and!; [done|set_solver|apply NoDup_singleton]. Qed.

Lemma assoc_remove_ne {A} k j (l : list (string * A)) : k ≠ j → assoc k (remove j l) = assoc k l.
Proof.
  intros Hk. induction l as [|[i x] l IH]; [done|]. unfold remove in *. simpl.
  destruct (i =s j) eqn:E; simpl; rewrite IH; [|done]. apply String.eqb_eq in E as ->.
  apply String.eqb_neq in Hk. by rewrite Hk.
Qed.

Lemma length_remove {A} k (l : list (string * A)) x : (k, x) ∈ l → length (remove k l) < length l.
Proof.
  unfold remove. induction l as [|[j y] l IH]; [by intros ?%elem_of_nil|]. simpl.
  intros [[= <- <-]|Hx]%elem_of_cons.
  - rewrite String.eqb_refl. simpl. pose proof (List.filter_length_le (λ kv : string * A, negb (kv.1 =s k)) l). lia.
  - specialize (IH Hx). destruct (j =s k); simpl; lia.
Qed.
