(* ===== verification/PolicyLattice.v ===== *)
(** * The agent permission lattice (packages/agent-policy-lattice/index.js)

    Rules from seven configuration sources are ordered by stage and source and
    combined into one decision; configuration entries are merged by kind; a child
    agent derives its authority from its parent.  [localeCompare] is a parameter:
    the collation belongs to the host's ICU data. *)
From S2P Require Import Prelude JsValue CanonicalJson.

(** ** Vocabulary *)

Inductive source :=
  | runtime_default | synced_plugin | installed_plugin | project | user | managed
  | enterprise.
Inductive stage :=
  | constitutional | mandatory_hook | deny_stage | ask_stage | execution_mode_stage
  | allow_stage | provider_callback_stage | governed_dispatch.
Inductive decision := abstain | allow | ask | deny.
Inductive mode := default_mode | bypass | plan.

#[export] Instance source_eq_dec : EqDecision source.
Proof. solve_decision. Defined.
#[export] Instance stage_eq_dec : EqDecision stage.
Proof. solve_decision. Defined.
#[export] Instance decision_eq_dec : EqDecision decision.
Proof. solve_decision. Defined.
#[export] Instance mode_eq_dec : EqDecision mode.
Proof. solve_decision. Defined.

Definition source_name (s : source) : string :=
  match s with
  | runtime_default => "runtime_default" | synced_plugin => "synced_plugin"
  | installed_plugin => "installed_plugin" | project => "project" | user => "user"
  | managed => "managed" | enterprise => "enterprise"
  end.
Definition stage_name (s : stage) : string :=
  match s with
  | constitutional => "constitutional" | mandatory_hook => "mandatory_hook"
  | deny_stage => "deny" | ask_stage => "ask" | execution_mode_stage => "execution_mode"
  | allow_stage => "allow" | provider_callback_stage => "provider_callback"
  | governed_dispatch => "governed_dispatch"
  end.
Definition decision_name (d : decision) : string :=
  match d with abstain => "abstain" | allow => "allow" | ask => "ask" | deny => "deny" end.
Definition mode_name (m : mode) : string :=
  match m with default_mode => "default" | bypass => "bypass" | plan => "plan" end.

Definition SOURCE_PRECEDENCE : list source :=
  [runtime_default; synced_plugin; installed_plugin; project; user; managed; enterprise].
Definition STAGE_PRECEDENCE : list stage :=
  [constitutional; mandatory_hook; deny_stage; ask_stage; execution_mode_stage;
   allow_stage; provider_callback_stage; governed_dispatch].
Definition DECISIONS : list decision := [abstain; allow; ask; deny].
Definition EXECUTION_MODES : list mode := [default_mode; bypass; plan].
Definition RULE_STAGES : list stage :=
  [constitutional; mandatory_hook; deny_stage; ask_stage; allow_stage].

(** [SET.has(v)] for a set of names, returning the member named. *)
Definition named {A} (name : A → string) (members : list A) (v : value) : option A :=
  match v with VStr s => find (λ m, name m =s s) members | _ => None end.

(** [LIST.indexOf(x)] for a member. *)
Fixpoint index_of `{EqDecision A} (x : A) (l : list A) : nat :=
  match l with
  | [] => 0
  | y :: l => if decide (x = y) then 0 else S (index_of x l)
  end.

Definition AgentPolicyLatticeError (message : string) : value :=
  error "AgentPolicyLatticeError" message "AGENT_POLICY_LATTICE_INVALID".
Definition AuthorityWidening (message : string) (details : value) : value :=
  error_with "AgentPolicyLatticeError" message "AGENT_AUTHORITY_WIDENING" details.

(** ** Rules *)

Definition assertRecord (v : value) (label : string) : result unit :=
  throw_if (negb (is_record v)) (AgentPolicyLatticeError (label +:+ " must be an object")).

Definition normalizeSource (v : value) : result source :=
  match named source_name SOURCE_PRECEDENCE v with
  | Some s => Ok s
  | None => Throw (AgentPolicyLatticeError ("unknown policy source: " +:+ js_string v))
  end.
Definition source_rank (s : source) : nat := index_of s SOURCE_PRECEDENCE.
Definition stage_rank (s : stage) : nat := index_of s STAGE_PRECEDENCE.

Definition normalizeDecision (v : value) (label : string) : result decision :=
  match named decision_name DECISIONS v with
  | Some d => Ok d
  | None => Throw (AgentPolicyLatticeError (label +:+ " returned an invalid decision"))
  end.

Record rule := MkRule {
  rule_id : string;
  rule_source : source;
  rule_stage : stage;
  rule_decision : decision;
  rule_reason : string;
}.

(** The one decision a [deny], [ask] or [allow] stage may carry besides abstaining. *)
Definition fixedDecision (s : stage) : option decision :=
  match s with
  | deny_stage => Some deny | ask_stage => Some ask | allow_stage => Some allow
  | _ => None
  end.
Definition protective (s : stage) : bool :=
  bool_decide (s ∈ [constitutional; mandatory_hook]).

Definition normalizeRule (index : nat) (v : value) : result rule :=
  _ ← assertRecord v ("rule " +:+ pretty index);
  let id := get "id" v in
  _ ← throw_if (negb (nonempty_string id) || (256 <? String.length (str_of id))%nat)
        (AgentPolicyLatticeError ("rule " +:+ pretty index +:+ " has an invalid id"));
  let label := "rule " +:+ str_of id in
  match named stage_name RULE_STAGES (get "stage" v) with
  | None => Throw (AgentPolicyLatticeError (label +:+ " has an invalid stage"))
  | Some st =>
      d ← normalizeDecision (get "decision" v) label;
      _ ← throw_if
            match fixedDecision st with
            | Some f => negb (bool_decide (d ∈ [abstain; f]))
            | None => false
            end
            (AgentPolicyLatticeError
               (label +:+ " has a decision incompatible with its stage"));
      _ ← throw_if (protective st && negb (bool_decide (d ∈ [abstain; ask; deny])))
            (AgentPolicyLatticeError
               (label +:+ " cannot grant authority from a protective stage"));
      src ← normalizeSource (get "source" v);
      Ok {| rule_id := str_of id; rule_source := src; rule_stage := st;
            rule_decision := d;
            rule_reason := String.substring 0 2048 (str_of (get "reason" v)) |}
  end.

(** ** Evaluation *)

Record trace_entry := MkTrace {
  trace_stage : stage;
  trace_source : source;
  trace_rule_id : string;
  trace_decision : decision;
}.
Record outcome := MkOutcome {
  out_decision : decision;
  dispatch_allowed : bool;
  deciding_rule_id : option string;
  out_trace : list trace_entry;
}.

(** The provider callback: absent, not callable, or a function and the way its
    one call completes. *)
Inductive callback :=
  | no_callback
  | not_a_function
  | callback_returning (completion : result value).

Definition traceRule (r : rule) : trace_entry :=
  MkTrace (rule_stage r) (rule_source r) (rule_id r) (rule_decision r).
Definition decides (d : decision) (r : rule) : bool := bool_decide (rule_decision r = d).
Definition in_allow_stage (r : rule) : bool := bool_decide (rule_stage r = allow_stage).
Definition modeDecision (m : mode) : decision :=
  match m with bypass => allow | plan => ask | default_mode => abstain end.

Section evaluation.
(** [a.localeCompare(b) <= 0]. *)
Context (locale_le : string → string → bool).

Definition rule_le (l r : rule) : bool :=
  if decide (stage_rank (rule_stage l) = stage_rank (rule_stage r)) then
    if decide (source_rank (rule_source l) = source_rank (rule_source r)) then
      locale_le (rule_id l) (rule_id r)
    else (source_rank (rule_source r) <? source_rank (rule_source l))%nat
  else (stage_rank (rule_stage l) <? stage_rank (rule_stage r))%nat.

(** The decision before the provider callback, from the ordered rules. *)
Definition combine (ordered : list rule) (m : mode) : decision * option rule :=
  let d := find (decides deny) ordered in
  let a := find (decides ask) ordered in
  let al := find (λ r, in_allow_stage r && decides allow r) ordered in
  let decision :=
    match d, a with
    | Some _, _ => deny
    | None, Some _ => ask
    | None, None =>
        if decide (modeDecision m = ask) then ask
        else match al with
             | Some _ => allow
             | None => if decide (modeDecision m = allow) then allow else ask
             end
    end in
  (decision, match d, a with Some r, _ => Some r | None, Some r => Some r | _, _ => al end).

(** The callback may only be consulted about an [allow]. *)
Definition consult (cb : callback) (combined : decision) (deciding : option rule)
    (trace : list trace_entry) : result (decision * option rule * list trace_entry) :=
  match combined, cb with
  | allow, not_a_function =>
      Throw (AgentPolicyLatticeError "provider_callback must be a function")
  | allow, callback_returning completion =>
      v ← completion;
      d ← normalizeDecision v "provider callback";
      let trace := trace ++
        [MkTrace provider_callback_stage runtime_default "provider:callback" d] in
      Ok (if decide (d = abstain) then (combined, deciding, trace) else (d, None, trace))
  | _, _ => Ok (combined, deciding, trace)
  end.

Definition evaluate_rules (rules : list rule) (m : mode) (cb : callback) : result outcome :=
  let ordered := sort_by rule_le rules in
  let '(combined, deciding) := combine ordered m in
  let trace :=
    (traceRule <$> List.filter (λ r, negb (in_allow_stage r)) ordered) ++
    MkTrace execution_mode_stage runtime_default ("mode:" +:+ mode_name m) (modeDecision m)
    :: (traceRule <$> List.filter in_allow_stage ordered) in
  '(final, deciding, trace) ← consult cb combined deciding trace;
  let allowed := bool_decide (final = allow) in
  Ok {| out_decision := final;
        dispatch_allowed := allowed;
        deciding_rule_id := rule_id <$> deciding;
        out_trace := trace ++
          [MkTrace governed_dispatch runtime_default "dispatch:governed"
             (if allowed then allow else deny)] |}.

(** [execution_mode] is [None] when the argument is absent. *)
Definition evaluatePermissionLattice (rules : value) (execution_mode : option value)
    (cb : callback) : result outcome :=
  _ ← throw_if (negb (is_array rules)) (AgentPolicyLatticeError "rules must be an array");
  match named mode_name EXECUTION_MODES (default (VStr "default") execution_mode) with
  | None => Throw (AgentPolicyLatticeError "execution_mode is invalid")
  | Some m =>
      normalized ← imap_result normalizeRule 0 (items_of rules);
      _ ← throw_if (has_duplicates (rule_id <$> normalized))
            (AgentPolicyLatticeError "rule ids must be unique");
      evaluate_rules normalized m cb
  end.
End evaluation.

(** ** Configuration *)

Definition assertStringArray (v : value) (label : string) : result unit :=
  throw_if
    (negb (is_array v) ||
     existsb (λ i, negb (nonempty_string i) || (1024 <? String.length (str_of i))%nat)
       (items_of v))
    (AgentPolicyLatticeError (label +:+ " must be an array of bounded strings")).

Record config_entry := MkEntry {
  entry_key : string;
  entry_source : source;
  entry_kind : value;     (** [entry.kind || 'replace'] *)
  entry_value : value;
}.

Definition normalizeEntry (index : nat) (v : value) : result config_entry :=
  _ ← assertRecord v ("configuration entry " +:+ pretty index);
  let key := get "key" v in
  _ ← throw_if
        (negb (nonempty_string key) || (256 <? String.length (str_of key))%nat ||
         (str_of key ∈s ["__proto__"; "prototype"; "constructor"]))
        (AgentPolicyLatticeError "configuration key is invalid");
  src ← normalizeSource (get "source" v);
  Ok {| entry_key := str_of key; entry_source := src;
        entry_kind := or_else (get "kind" v) (VStr "replace");
        entry_value := get "value" v |}.

Definition source_ge (a b : config_entry) : bool :=
  (source_rank (entry_source b) <=? source_rank (entry_source a))%nat.

(** [Math.min(a, b)] on finite numbers. *)
Definition math_min (a b : number) : number :=
  if num_lt b a then b
  else match b with
       | NNegZero => if num_lt a b then a else b
       | _ => a
       end.
Definition number_of (v : value) : number :=
  match v with VNum n => n | _ => NNaN end.
Definition valid_limit (v : value) : bool :=
  match v with VNum n => num_finite n && negb (num_lt n (NInt 0)) | _ => false end.

(** The candidates of one key, highest source first, merged by their kind. *)
Definition mergeCandidates (key : string) (candidates : list config_entry) : result value :=
  match candidates with
  | [] => Ok VUndef
  | first :: rest =>
      _ ← throw_if (negb (length (js_set (entry_kind <$> candidates)) =? 1)%nat)
            (AgentPolicyLatticeError
               ("configuration key " +:+ key +:+ " has incompatible merge kinds"));
      let values := entry_value <$> candidates in
      match entry_kind first with
      | VStr "replace" => Ok (entry_value first)
      | VStr "deny_union" =>
          _ ← for_each (λ v, assertStringArray v (key +:+ " deny list")) values;
          Ok (VArr (VStr <$> sort_strings (js_set (values ≫= strings_of))))
      | VStr "allow_intersection" =>
          _ ← for_each (λ v, assertStringArray v (key +:+ " allow list")) values;
          Ok (VArr (VStr <$> sort_strings
            (List.filter (λ x, forallb (λ v, x ∈s strings_of v) values)
               (js_set (strings_of (entry_value first))))))
      | VStr "limit_min" =>
          _ ← throw_if (existsb (λ v, negb (valid_limit v)) values)
                (AgentPolicyLatticeError (key +:+ " limits must be finite non-negative numbers"));
          Ok (VNum (fold_left (λ m e, math_min m (number_of (entry_value e))) rest
                      (number_of (entry_value first))))
      | _ => Throw (AgentPolicyLatticeError
               ("configuration key " +:+ key +:+ " has an unknown merge kind"))
      end
  end.

Record resolved_configuration := MkResolved {
  cfg_values : list (string * value);
  cfg_provenance : list (string * list source);
}.

Definition candidates_of (key : string) (entries : list config_entry) : list config_entry :=
  sort_by source_ge (List.filter (λ e, entry_key e =s key) entries).

Definition entry_identity (e : config_entry) : string :=
  entry_key e +:+ NUL +:+ source_name (entry_source e).

Definition resolveConfiguration (entries : value) : result resolved_configuration :=
  _ ← throw_if (negb (is_array entries))
        (AgentPolicyLatticeError "configuration entries must be an array");
  ordered ← imap_result normalizeEntry 0 (items_of entries);
  _ ← throw_if (has_duplicates (entry_identity <$> ordered))
        (AgentPolicyLatticeError "a configuration source may define each key only once");
  let keys := js_set (entry_key <$> ordered) in
  values ← map_result
    (λ key, v ← mergeCandidates key (candidates_of key ordered); Ok (key, v)) keys;
  Ok {| cfg_values := values;
        cfg_provenance :=
          (λ key, (key, entry_source <$> candidates_of key ordered)) <$> keys |}.

(** ** Child authority *)

Record authority := MkAuthority {
  capabilities : list string;
  max_effects : number;
}.

Definition deriveChildAuthority (parent requested : value) : result authority :=
  _ ← assertRecord parent "parent authority";
  _ ← assertRecord requested "requested child authority";
  _ ← assertStringArray (get "capabilities" parent) "parent capabilities";
  _ ← assertStringArray (get "capabilities" requested) "requested child capabilities";
  let parentCapabilities := strings_of (get "capabilities" parent) in
  let requestedCapabilities := js_set (strings_of (get "capabilities" requested)) in
  let widened :=
    List.filter (λ c, negb (c ∈s parentCapabilities)) requestedCapabilities in
  _ ← throw_if (0 <? length widened)%nat
        (AuthorityWidening "child authority exceeds its parent"
           (VObj [("capabilities", VArr (VStr <$> widened))]));
  let parentLimit := get "max_effects" parent in
  let requestedLimit := get "max_effects" requested in
  let valid v := is_safe_integer v && negb (num_lt (number_of v) (NInt 0)) in
  _ ← throw_if (negb (valid parentLimit) || negb (valid requestedLimit))
        (AgentPolicyLatticeError "authority limits must be non-negative safe integers");
  _ ← throw_if (num_lt (number_of parentLimit) (number_of requestedLimit))
        (AuthorityWidening "child effect limit exceeds its parent" (VObj []));
  Ok {| capabilities := sort_strings requestedCapabilities;
        max_effects := number_of requestedLimit |}.

(** ** What the lattice decides *)

(** The decision as a function of the set of rules: a denial wins over a question,
    a question over the mode, the mode over the allow rules. *)
Definition decision_spec (rules : list rule) (m : mode) : decision :=
  if existsb (decides deny) rules then deny
  else if existsb (decides ask) rules then ask
  else match m with
       | plan => ask
       | bypass => allow
       | default_mode =>
           if existsb (λ r, in_allow_stage r && decides allow r) rules then allow else ask
       end.

(** What the callback makes of a decision. *)
Definition consulted_spec (d : decision) (cb : callback) : decision :=
  match d, cb with
  | allow, callback_returning (Ok v) =>
      match named decision_name DECISIONS v with
      | Some abstain | None => allow
      | Some d => d
      end
  | _, _ => d
  end.

(** Deny is the most restrictive decision, allow the least. *)
Definition leniency (d : decision) : nat :=
  match d with deny => 0 | ask | abstain => 1 | allow => 2 end.

Lemma find_existsb {A} (f : A → bool) l :
  existsb f l = bool_decide (is_Some (find f l)).
Proof.
  induction l as [|x l IH]; simpl; [done|]. by destruct (f x).
Qed.

Lemma combine_spec ordered m : (combine ordered m).1 = decision_spec ordered m.
Proof.
  unfold combine, decision_spec. rewrite !find_existsb.
  destruct (find (decides deny) ordered); [done|].
  destruct (find (decides ask) ordered); [done|].
  destruct (find _ ordered); by destruct m.
Qed.

Lemma decision_spec_perm rules rules' m :
  rules ≡ₚ rules' → decision_spec rules m = decision_spec rules' m.
Proof. intros H. unfold decision_spec. by rewrite !(existsb_perm _ _ _ H). Qed.

Lemma consult_spec cb d r t d' r' t' :
  consult cb d r t = Ok (d', r', t') → d' = consulted_spec d cb.
Proof.
  destruct d, cb as [| |[v|e]]; simpl; intros H; simplify_eq; try done.
  unfold normalizeDecision in H. destruct (named decision_name DECISIONS v) as [d|]; [|done].
  simpl in H. by destruct d; simplify_eq/=.
Qed.

Lemma evaluate_rules_spec locale_le rules m cb out :
  evaluate_rules locale_le rules m cb = Ok out →
  out_decision out = consulted_spec (decision_spec rules m) cb ∧
  dispatch_allowed out = bool_decide (out_decision out = allow).
Proof.
  unfold evaluate_rules. intros H.
  rewrite (decision_spec_perm rules (sort_by (rule_le locale_le) rules))
    by (by rewrite sort_by_perm).
  rewrite <- combine_spec. destruct (combine _ _) as [d r]. simpl.
  destruct (consult _ _ _ _) as [[[d' r'] t']|] eqn:E; simpl in H; [|done].
  simplify_eq/=. apply consult_spec in E. split; [done|]. reflexivity.
Qed.

(** The rules a successful evaluation worked on. *)
Definition normalized_as (rules : value) (rs : list rule) : Prop :=
  imap_result normalizeRule 0 (items_of rules) = Ok rs ∧ NoDup (rule_id <$> rs).

Lemma evaluate_ok locale_le rules em cb out :
  evaluatePermissionLattice locale_le rules em cb = Ok out →
  ∃ rs m, normalized_as rules rs ∧
    named mode_name EXECUTION_MODES (default (VStr "default") em) = Some m ∧
    evaluate_rules locale_le rs m cb = Ok out.
Proof.
  unfold evaluatePermissionLattice. intros H. inv_ok H. case_match; [|done].
  inv_ok H. inv_throw_if. eexists _, _. split; [|done].
  split; [done|]. by apply has_duplicates_false.
Qed.

(** Normalised rules of a protective stage never carry an [allow]. *)
Definition rule_wf (r : rule) : Prop :=
  rule_id r ≠ "" ∧ rule_stage r ∈ RULE_STAGES ∧
  (rule_decision r = allow → rule_stage r = allow_stage) ∧
  (rule_stage r = deny_stage → rule_decision r ∈ [abstain; deny]) ∧
  (rule_stage r = ask_stage → rule_decision r ∈ [abstain; ask]) ∧
  (rule_stage r = allow_stage → rule_decision r ∈ [abstain; allow]).

Lemma named_elem {A} (name : A → string) l v x :
  named name l v = Some x → x ∈ l ∧ v = VStr (name x).
Proof.
  destruct v; simpl; try done. intros [H1 H2]%find_some_elem.
  apply String.eqb_eq in H2 as ->. done.
Qed.

Lemma normalizeRule_wf i v r : normalizeRule i v = Ok r → rule_wf r.
Proof.
  unfold normalizeRule. intros H. inv_ok H. case_match eqn:Hst; [|done].
  inv_ok H. inv_throw_if. subst r. apply named_elem in Hst as [Hst _].
  match goal with d : decision |- _ => rename d into d0 end.
  unfold rule_wf; simpl. bool_props.
  split; [by apply nonempty_str_of|]. split; [done|].
  match goal with H : context [fixedDecision ?st] |- _ => revert H end.
  match goal with H : _ && _ = false |- _ => revert H end.
  clear - Hst. destruct s, d0; intros H1 H2; vm_compute in H1, H2; try discriminate;
    repeat split; intros; try done; unfold RULE_STAGES in *; set_solver.
Qed.

Lemma normalized_wf rules rs r : normalized_as rules rs → r ∈ rs → rule_wf r.
Proof.
  intros [H _] Hr. destruct (imap_result_source _ _ _ _ _ H Hr) as (j & v & _ & Hj).
  by eapply normalizeRule_wf.
Qed.

(** ** Theorems *)

(** C22: the decision is the declarative combination of the rules. *)
Theorem evaluate_decision locale_le rules em cb out :
  evaluatePermissionLattice locale_le rules em cb = Ok out →
  ∃ rs m, normalized_as rules rs ∧
    named mode_name EXECUTION_MODES (default (VStr "default") em) = Some m ∧
    out_decision out = consulted_spec (decision_spec rs m) cb ∧
    (dispatch_allowed out = true ↔ out_decision out = allow).
Proof.
  intros (rs & m & Hrs & Hm & H)%evaluate_ok. exists rs, m.
  apply evaluate_rules_spec in H as [Hd ->]. split_and!; try done.
  by rewrite bool_decide_eq_true.
Qed.

Lemma allow_spec rs m :
  decision_spec rs m = allow →
  (∀ r, r ∈ rs → rule_decision r ∈ [abstain; allow]) ∧ m ≠ plan ∧
  (m = bypass ∨ ∃ r, r ∈ rs ∧ rule_stage r = allow_stage ∧ rule_decision r = allow).
Proof.
  unfold decision_spec. destruct (existsb (decides deny) rs) eqn:Hd; [done|].
  destruct (existsb (decides ask) rs) eqn:Ha; [done|]. intros H.
  rewrite existsb_false in Hd, Ha. split; [|split].
  - intros r Hr. specialize (Hd r Hr). specialize (Ha r Hr). unfold decides in *. bool_props.
    destruct (rule_decision r); set_solver.
  - by destruct m.
  - destruct m; [|by left|done]. destruct (existsb _ rs) eqn:Hal; [|done].
    apply existsb_true in Hal as (r & Hr & Hb). unfold decides, in_allow_stage in Hb.
    bool_props. right. eauto.
Qed.

(** C33: dispatch needs an authority: nothing denied or asked, the mode is not
    [plan], an allow-stage rule (or [bypass]) grants it, and a callback that is
    consulted does not object. *)
Theorem dispatch_requires_authority locale_le rules em cb out :
  evaluatePermissionLattice locale_le rules em cb = Ok out →
  dispatch_allowed out = true →
  ∃ rs m, normalized_as rules rs ∧
    named mode_name EXECUTION_MODES (default (VStr "default") em) = Some m ∧
    (∀ r, r ∈ rs → rule_decision r ∈ [abstain; allow]) ∧ m ≠ plan ∧
    (m = bypass ∨ ∃ r, r ∈ rs ∧ rule_stage r = allow_stage ∧ rule_decision r = allow) ∧
    (cb = no_callback ∨ cb = callback_returning (Ok (VStr "allow")) ∨
     cb = callback_returning (Ok (VStr "abstain"))).
Proof.
  intros (rs & m & Hrs & Hm & H)%evaluate_ok Hd. exists rs, m.
  pose proof (evaluate_rules_spec _ _ _ _ _ H) as [Hout Hal]. rewrite Hd in Hal.
  symmetry in Hal. apply bool_decide_eq_true in Hal. rewrite Hal in Hout.
  assert (Hs : decision_spec rs m = allow).
  { by destruct (decision_spec rs m). }
  pose proof (allow_spec rs m Hs) as (? & ? & ?). split_and!; try done.
  unfold evaluate_rules in H. rewrite Hs in Hout.
  destruct (combine _ _) as [d r] eqn:Ec. pose proof (combine_spec (sort_by (rule_le locale_le) rs) m) as Hc.
  rewrite Ec, (decision_spec_perm _ rs), Hs in Hc by apply sort_by_perm. simpl in Hc. subst d.
  destruct cb as [| |[v|e]]; simpl in H; try done; [by left|]. right.
  unfold normalizeDecision in H. simpl in Hout.
  destruct (named decision_name DECISIONS v) as [d|] eqn:En; [|done].
  apply named_elem in En as [_ ->]. destruct d; simplify_eq; auto.
Qed.

Lemma decision_spec_lenient rs r m :
  rule_decision r ≠ allow →
  leniency (decision_spec (r :: rs) m) ≤ leniency (decision_spec rs m).
Proof.
  intros Hr. unfold decision_spec. simpl.
  assert (decides allow r = false) as -> by (by apply bool_decide_eq_false).
  rewrite andb_false_r. simpl.
  destruct (decides deny r), (decides ask r); simpl; repeat case_match; simpl; lia.
Qed.

(** A rule that does not allow never relaxes the decision: denials and
    questions only restrict, whatever source they come from. *)
Theorem restrictive_rule_monotone locale_le rules r m out out' :
  rule_decision r ≠ allow →
  evaluate_rules locale_le rules m no_callback = Ok out →
  evaluate_rules locale_le (r :: rules) m no_callback = Ok out' →
  leniency (out_decision out') ≤ leniency (out_decision out).
Proof.
  intros Hr H%evaluate_rules_spec H'%evaluate_rules_spec.
  destruct H as [-> _], H' as [-> _].
  assert (∀ d, consulted_spec d no_callback = d) as Hc by (by intros []).
  rewrite !Hc. by apply decision_spec_lenient.
Qed.

Lemma rule_le_order locale_le : LebOrder locale_le → LebOrder (rule_le locale_le).
Proof.
  intros Hl. split; unfold rule_le.
  - intros x y. repeat case_decide; try congruence.
    + apply (leb_total locale_le).
    + rewrite !Nat.ltb_lt. lia.
    + rewrite !Nat.ltb_lt. lia.
  - intros x y z. repeat case_decide; rewrite ?Nat.ltb_lt; try lia; try congruence.
    apply (leb_trans locale_le).
Qed.

(** Rules in another order give the same outcome, trace included. *)
Theorem evaluation_order_independent locale_le rules rules' m cb :
  LebOrder locale_le →
  (∀ a b, locale_le a b = true → locale_le b a = true → a = b) →
  NoDup (rule_id <$> rules) → rules ≡ₚ rules' →
  evaluate_rules locale_le rules m cb = evaluate_rules locale_le rules' m cb.
Proof.
  intros Hl Hanti HN HP. unfold evaluate_rules.
  assert (sort_by (rule_le locale_le) rules = sort_by (rule_le locale_le) rules') as ->; [|done].
  apply sort_by_unique; [by apply rule_le_order| |done].
  intros x y Hx Hy. unfold rule_le. repeat case_decide; rewrite ?Nat.ltb_lt; try lia; try congruence.
  intros Hxy Hyx. assert (rule_id x = rule_id y) as Hid by (by apply Hanti).
  apply list_elem_of_lookup in Hx as [i Hi], Hy as [j Hj].
  assert (i = j) as ->; [|congruence].
  eapply (NoDup_lookup _ _ _ (rule_id y) HN); by rewrite list_lookup_fmap, ?Hi, ?Hj; f_equal/=.
Qed.

(** ** Child authority *)

Definition valid_limit_value (v : value) : bool :=
  is_safe_integer v && negb (num_lt (number_of v) (NInt 0)).
Definition bounded_strings (v : value) : bool :=
  is_array v &&
  forallb (λ i, nonempty_string i && (String.length (str_of i) <=? 1024)%nat) (items_of v).

Lemma assertStringArray_ok v label :
  assertStringArray v label = Ok () ↔ bounded_strings v = true.
Proof.
  unfold assertStringArray, bounded_strings. rewrite throw_if_ok.
  destruct v as [| | | | |l|]; simpl; try done.
  rewrite existsb_false, forallb_true. split; intros H x Hx; specialize (H x Hx).
  - bool_props. rewrite H. simpl. by apply Nat.leb_le.
  - bool_props. rewrite H. simpl. by apply Nat.ltb_ge.
Qed.

(** C38: a child authority is derived exactly when the request is well formed and
    within its parent; it then holds the requested capabilities, all of them the
    parent's, and the requested limit, at most the parent's. *)
Theorem deriveChildAuthority_iff parent requested a :
  deriveChildAuthority parent requested = Ok a ↔
  is_record parent = true ∧ is_record requested = true ∧
  bounded_strings (get "capabilities" parent) = true ∧
  bounded_strings (get "capabilities" requested) = true ∧
  strings_of (get "capabilities" requested) ⊆ strings_of (get "capabilities" parent) ∧
  valid_limit_value (get "max_effects" parent) = true ∧
  valid_limit_value (get "max_effects" requested) = true ∧
  num_lt (number_of (get "max_effects" parent))
         (number_of (get "max_effects" requested)) = false ∧
  a = {| capabilities := sort_strings (js_set (strings_of (get "capabilities" requested)));
         max_effects := number_of (get "max_effects" requested) |}.
Proof.
  unfold deriveChildAuthority, assertRecord, valid_limit_value. split.
  - intros H. inv_ok H.
    repeat match goal with u : unit |- _ => destruct u end.
    repeat match goal with
    | H : assertStringArray _ _ = Ok _ |- _ => apply assertStringArray_ok in H
    end.
    inv_throw_if. bool_props. subst a. split_and!; try done; try (by rewrite andb_true_iff, negb_true_iff).
    + intros c Hc. apply includes_spec. destruct (_ ∈s _) eqn:E; [done|]. exfalso.
      match goal with H : length ?l ≤ 0 |- _ => assert (Hl : c ∈ l); [|destruct l; [by apply not_elem_of_nil in Hl|simpl in H; lia]] end.
      apply list_filter_elem. rewrite elem_of_js_set, E. done.
  - intros (Hp & Hr & Hpc & Hrc & Hsub & Hpl & Hrl & Hlt & ->).
    rewrite Hp, Hr. cbn [negb throw_if mbind result_bind].
    rewrite !(proj2 (assertStringArray_ok _ _)) by done. cbn [mbind result_bind].
    replace (List.filter _ _) with (@nil string).
    2: { symmetry. apply elem_of_nil_inv. intros c [Hc E]%list_filter_elem.
         apply elem_of_js_set, Hsub, includes_spec in Hc. by rewrite Hc in E. }
    cbn. rewrite Hpl, Hrl, Hlt. done.
Qed.

(** ** Configuration merging *)

Lemma valid_limit_number v : valid_limit v = true → ∃ n, v = VNum n ∧ num_finite n = true.
Proof. destruct v; simpl; try done. intros H. bool_props. eauto. Qed.

Lemma num_fraction_pos n : (0 < (num_fraction n).2)%Z.
Proof. destruct n; simpl; lia. Qed.

Lemma num_lt_finite a b : num_finite a = true → num_finite b = true →
  num_lt a b = ((num_fraction a).1 * (num_fraction b).2 <?
                (num_fraction b).1 * (num_fraction a).2)%Z.
Proof. destruct a, b; try done; intros _ _; simpl; done. Qed.

Lemma math_min_finite a b :
  num_finite a = true → num_finite b = true → num_finite (math_min a b) = true.
Proof. unfold math_min. intros Ha Hb. case_if; [done|]. by destruct b; try case_if. Qed.

Lemma num_lt_irrefl a : num_finite a = true → num_lt a a = false.
Proof. intros H. rewrite num_lt_finite by done. apply Z.ltb_irrefl. Qed.

Lemma num_lt_asym a b : num_finite a = true → num_finite b = true →
  num_lt a b = true → num_lt b a = false.
Proof.
  intros Ha Hb. rewrite !num_lt_finite by done. intros H. bool_props. apply Z.ltb_ge. lia.
Qed.

Lemma num_ge_trans a b c :
  num_finite a = true → num_finite b = true → num_finite c = true →
  num_lt a b = false → num_lt b c = false → num_lt a c = false.
Proof.
  intros Ha Hb Hc. rewrite !num_lt_finite by done. intros H1 H2. bool_props. apply Z.ltb_ge.
  pose proof (num_fraction_pos a). pose proof (num_fraction_pos b).
  pose proof (num_fraction_pos c).
  destruct (num_fraction a) as [p q], (num_fraction b) as [r s], (num_fraction c) as [t u].
  simpl in *. apply (Z.mul_le_mono_pos_r _ _ s); [done|].
  transitivity (r * q * u)%Z; nia.
Qed.

Lemma math_min_le a b : num_finite a = true → num_finite b = true →
  num_lt a (math_min a b) = false ∧ num_lt b (math_min a b) = false.
Proof.
  intros Ha Hb. unfold math_min. destruct (num_lt b a) eqn:E.
  - split; [by apply num_lt_asym|by apply num_lt_irrefl].
  - destruct b; try (split; [by apply num_lt_irrefl|done]). case_if.
    + split; [by apply num_lt_irrefl|done].
    + split; [done|by apply num_lt_irrefl].
Qed.

Lemma fold_math_min_le l n :
  num_finite n = true → Forall (λ v, valid_limit (entry_value v) = true) l →
  let m := fold_left (λ m e, math_min m (number_of (entry_value e))) l n in
  num_finite m = true ∧ num_lt n m = false ∧
  Forall (λ e, num_lt (number_of (entry_value e)) m = false) l.
Proof.
  revert n. induction l as [|e l IH]; intros n Hn HF; simpl.
  - split_and!; [done|by apply num_lt_irrefl|constructor].
  - apply Forall_cons in HF as [(x & Hx & Hf)%valid_limit_number HF].
    rewrite Hx. simpl. destruct (math_min_le n x) as [H1 H2]; try done.
    destruct (IH (math_min n x)) as (Hm & Hlt & Hall); [by apply math_min_finite|done|].
    split_and!; [done| |constructor; [rewrite Hx; simpl|done]].
    + eapply (num_ge_trans n (math_min n x)); eauto using math_min_finite.
    + eapply (num_ge_trans x (math_min n x)); eauto using math_min_finite.
Qed.

Lemma same_kind candidates e1 e2 :
  length (js_set (entry_kind <$> candidates)) = 1%nat →
  e1 ∈ candidates → e2 ∈ candidates → entry_kind e1 = entry_kind e2.
Proof.
  intros H H1 H2. destruct (js_set _) as [|k [|]] eqn:E; try done.
  assert (∀ e, e ∈ candidates → entry_kind e = k) as Hk.
  { intros e He. assert (entry_kind e ∈ [k]) as ?; [|set_solver].
    rewrite <- E, elem_of_js_set. by apply list_elem_of_fmap_2. }
  by rewrite (Hk e1), (Hk e2).
Qed.

(** What the merged value of a kind promises about each contributing value. *)
Definition no_looser (kind merged contributed : value) : Prop :=
  match kind with
  | VStr "deny_union" => strings_of contributed ⊆ strings_of merged
  | VStr "allow_intersection" => strings_of merged ⊆ strings_of contributed
  | VStr "limit_min" => num_lt (number_of contributed) (number_of merged) = false
  | _ => True
  end.

Lemma deny_union_above values u :
  u ∈ values →
  strings_of u ⊆ strings_of (VArr (VStr <$> sort_strings (js_set (values ≫= strings_of)))).
Proof.
  intros Hu. rewrite strings_of_map. intros x Hx.
  apply elem_of_sort_by, elem_of_js_set, list_elem_of_bind. by exists u.
Qed.

Lemma allow_intersection_below values l u :
  u ∈ values →
  strings_of (VArr (VStr <$> sort_strings
    (List.filter (λ x, forallb (λ v, x ∈s strings_of v) values) l))) ⊆ strings_of u.
Proof.
  intros Hu. rewrite strings_of_map. intros x Hx.
  apply elem_of_sort_by, list_filter_elem in Hx as [_ Hx].
  rewrite forallb_true in Hx. by apply includes_spec, Hx.
Qed.

Lemma limit_min_below first rest e :
  Forall (λ e, valid_limit (entry_value e) = true) (first :: rest) →
  e ∈ first :: rest →
  num_lt (number_of (entry_value e))
    (fold_left (λ m e, math_min m (number_of (entry_value e))) rest
       (number_of (entry_value first))) = false.
Proof.
  intros [(n & Hn & Hf)%valid_limit_number HF]%Forall_cons He.
  rewrite Hn. simpl. destruct (fold_math_min_le rest n Hf HF) as (_ & Hlt & Hall).
  apply elem_of_cons in He as [->|He]; [by rewrite Hn|].
  rewrite Forall_forall in Hall. by apply Hall.
Qed.

Lemma existsb_invalid_limit (l : list config_entry) :
  existsb (λ v, negb (valid_limit v)) (entry_value <$> l) = false →
  Forall (λ e, valid_limit (entry_value e) = true) l.
Proof.
  rewrite existsb_false, Forall_forall. intros H e He.
  apply negb_false_iff, H. by apply list_elem_of_fmap_2.
Qed.

(** Merging never loosens: the merged value of a protected kind is at most as
    permissive as what every contributing source asked for. *)
Theorem mergeCandidates_restrictive key candidates v e :
  mergeCandidates key candidates = Ok v → e ∈ candidates →
  no_looser (entry_kind e) v (entry_value e).
Proof.
  destruct candidates as [|first rest]; [by intros _ ?%not_elem_of_nil|].
  intros H He. cbn [mergeCandidates] in H. inv_ok H. inv_throw_if. bool_props.
  rewrite (same_kind _ e first Hok He) by (by left).
  assert (Hin : entry_value e ∈ entry_value <$> first :: rest) by (by apply list_elem_of_fmap_2).
  destruct (entry_kind first) as [| | | |kind| |]; try exact I.
  unfold no_looser. repeat (match goal with
    | |- match ?x with _ => _ end => is_var x; destruct x end; try exact I); cbn in H.
  - inv_ok H. subst v. exact (allow_intersection_below (entry_value <$> first :: rest) _ _ Hin).
  - inv_ok H. inv_throw_if. subst v. cbn [number_of]. apply limit_min_below; [|done].
    by apply existsb_invalid_limit.
  - inv_ok H. subst v. exact (deny_union_above (entry_value <$> first :: rest) _ Hin).
Qed.

(** ** Witnesses *)

Definition sample_rule (id stage decision source : string) : value :=
  VObj [("id", VStr id); ("stage", VStr stage); ("decision", VStr decision);
        ("source", VStr source)].
Definition sample_rules : value :=
  VArr [sample_rule "grant" "allow" "allow" "project";
        sample_rule "guard" "constitutional" "abstain" "enterprise"].
Definition approving : callback := callback_returning (Ok (VStr "abstain")).

Lemma evaluate_decision_witness :
  ∃ out rs m, normalized_as sample_rules rs ∧
    named mode_name EXECUTION_MODES (VStr "default") = Some m ∧
    out_decision out = consulted_spec (decision_spec rs m) approving ∧
    (dispatch_allowed out = true ↔ out_decision out = allow).
Proof.
  eexists. eapply (evaluate_decision String.leb sample_rules None approving).
  vm_compute. reflexivity.
Defined.

Lemma dispatch_requires_authority_witness :
  ∃ rs m, normalized_as sample_rules rs ∧
    named mode_name EXECUTION_MODES (VStr "default") = Some m ∧
    (∀ r, r ∈ rs → rule_decision r ∈ [abstain; allow]) ∧ m ≠ plan ∧
    (m = bypass ∨ ∃ r, r ∈ rs ∧ rule_stage r = allow_stage ∧ rule_decision r = allow) ∧
    (approving = no_callback ∨ approving = callback_returning (Ok (VStr "allow")) ∨
     approving = callback_returning (Ok (VStr "abstain"))).
Proof.
  eapply (dispatch_requires_authority String.leb sample_rules None approving).
  - vm_compute. reflexivity.
  - reflexivity.
Defined.

Definition grant : rule := MkRule "grant" project allow_stage allow "".
Definition prohibit : rule := MkRule "prohibit" runtime_default deny_stage deny "".

Lemma restrictive_rule_monotone_witness :
  ∃ out out', evaluate_rules String.leb [grant] bypass no_callback = Ok out ∧
    evaluate_rules String.leb [prohibit; grant] bypass no_callback = Ok out' ∧
    leniency (out_decision out') ≤ leniency (out_decision out).
Proof.
  eexists _, _. split_and!; [vm_compute; reflexivity..|].
  eapply (restrictive_rule_monotone String.leb [grant] prohibit bypass);
    [discriminate|vm_compute; reflexivity..].
Defined.

Lemma evaluation_order_independent_witness :
  evaluate_rules String.leb [grant; prohibit] default_mode approving =
  evaluate_rules String.leb [prohibit; grant] default_mode approving.
Proof.
  apply (evaluation_order_independent String.leb).
  - apply string_leb_order.
  - apply string_leb_antisym.
  - apply (bool_decide_unpack _). vm_compute. exact I.
  - apply Permutation_swap.
Defined.

Definition deny_entry (src : source) (values : list string) : config_entry :=
  MkEntry "blocked" src (VStr "deny_union") (VArr (VStr <$> values)).

Lemma mergeCandidates_restrictive_witness :
  ∃ v, mergeCandidates "blocked" [deny_entry enterprise ["rm"]; deny_entry user ["curl"]]
         = Ok v ∧
    no_looser (VStr "deny_union") v (VArr [VStr "curl"]).
Proof.
  eexists. split; [vm_compute; reflexivity|].
  eapply (mergeCandidates_restrictive "blocked"
    [deny_entry enterprise ["rm"]; deny_entry user ["curl"]] _ (deny_entry user ["curl"])).
  - vm_compute. reflexivity.
  - by right; left.
Defined.
