(* ===== verification/Envelope.v ===== *)
(** * The canonical execution envelope (packages/governed-execution/canonical-envelope.js)

    Every governed execution answers with an envelope: [executionEnvelope] builds
    one, [failureEnvelope] builds the one of an error, [assertCanonicalEnvelope]
    is the check the scheduler and the adapters apply to what a port returns. *)
From S2P Require Import Prelude JsValue CanonicalJson.

(** [String(error)] of a thrown value.  An instance of [Error] is the record of
    its [name], [message] and own fields ([error_with]). *)
Definition error_text (e : value) : string :=
  match get "name" e, get "message" e with
  | VStr name, VStr message =>
      if name =s "" then message
      else if message =s "" then name else name +:+ ": " +:+ message
  | _, _ => js_string e
  end.

(** ** Construction *)

Definition executionEnvelope (ok : bool) (data error : value)
    (evidence warnings : list string) : value :=
  VObj [("schema_version", VNum (NInt 1)); ("ok", VBool ok); ("data", data);
        ("error", error);
        ("evidence", VArr (VStr <$> js_set evidence));
        ("warnings", VArr (VStr <$> js_set warnings))].

(** The message and the code a failure reports. *)
Definition failure_message (e : value) : string :=
  let fallback :=
    match e with VUndef | VNull => "Execution failed" | _ => error_text e end in
  if nonempty_string (get "message" e) then str_of (get "message" e) else fallback.
Definition failure_code (e : value) : string :=
  if nonempty_string (get "code" e) then str_of (get "code" e) else "EXECUTION_FAILED".

Definition failureEnvelope (e operationId : value) (evidence warnings : list string) : value :=
  executionEnvelope false VNull
    (VObj [("code", VStr (failure_code e)); ("message", VStr (failure_message e));
           ("operation_id", operationId); ("retryable", VBool (truthy (get "retryable" e)))])
    evidence warnings.

(** ** Validation *)

(** [Object.keys(v).sort().join('\0')]. *)
Definition joined_keys (v : value) : string :=
  String.concat NUL (sort_strings (object_keys v)).
Definition has_keys (v : value) (keys : list string) : bool :=
  joined_keys v =s String.concat NUL keys.

Definition CanonicalEnvelopeError (message : string) : value :=
  error "CanonicalEnvelopeError" message "EXECUTION_ENVELOPE_INVALID".

Definition unique_strings (v : value) : bool :=
  is_string_array v && negb (has_duplicates (strings_of v)).

Definition envelope_keys : list string :=
  ["data"; "error"; "evidence"; "ok"; "schema_version"; "warnings"].
Definition error_keys : list string := ["code"; "message"; "operation_id"; "retryable"].
Definition data_keys : list string := ["operation_id"; "replayed"; "result"].

Definition valid_success (outcome : value) : bool :=
  let data := get "data" outcome in
  is_record data && has_keys data data_keys && nonempty_string (get "operation_id" data) &&
  is_boolean (get "replayed" data) && is_null (get "error" outcome).

Definition valid_failure (outcome : value) : bool :=
  let e := get "error" outcome in
  is_null (get "data" outcome) && is_record e && nonempty_string (get "code" e) &&
  nonempty_string (get "message" e) && is_boolean (get "retryable" e) &&
  has_keys e error_keys &&
  (is_null (get "operation_id" e) || nonempty_string (get "operation_id" e)).

Definition assertCanonicalEnvelope (outcome : value) : result value :=
  _ ← throw_if (negb (is_record outcome))
        (CanonicalEnvelopeError "Execution port returned an invalid envelope");
  _ ← throw_if (negb (has_keys outcome envelope_keys))
        (CanonicalEnvelopeError "Execution port returned a non-canonical envelope");
  _ ← throw_if
        (negb (bool_decide (get "schema_version" outcome = VNum (NInt 1))) ||
         negb (is_boolean (get "ok" outcome)) ||
         negb (unique_strings (get "evidence" outcome)) ||
         negb (unique_strings (get "warnings" outcome)))
        (CanonicalEnvelopeError "Execution port returned an invalid envelope");
  _ ← (if truthy (get "ok" outcome) then
         throw_if (negb (valid_success outcome))
           (CanonicalEnvelopeError "Execution port returned an invalid success envelope")
       else
         throw_if (negb (valid_failure outcome))
           (CanonicalEnvelopeError "Execution port returned an invalid failure envelope"));
  Ok outcome.

(** ** What is canonical *)

Definition canonical (outcome : value) : bool := is_ok (assertCanonicalEnvelope outcome).

Lemma unique_strings_set l : unique_strings (VArr (VStr <$> js_set l)) = true.
Proof.
  unfold unique_strings. rewrite strings_of_map, (proj2 (has_duplicates_false _)) by apply NoDup_js_set.
  rewrite andb_true_r. simpl. apply forallb_true.
  by intros x (y & -> & _)%list_elem_of_fmap.
Qed.

Lemma assert_accepts outcome :
  canonical outcome =
  (is_record outcome && has_keys outcome envelope_keys &&
   bool_decide (get "schema_version" outcome = VNum (NInt 1)) &&
   is_boolean (get "ok" outcome) && unique_strings (get "evidence" outcome) &&
   unique_strings (get "warnings" outcome) &&
   (if truthy (get "ok" outcome) then valid_success outcome else valid_failure outcome))%bool.
Proof.
  unfold canonical, assertCanonicalEnvelope.
  destruct (is_record outcome); [|done]. simpl.
  destruct (has_keys outcome envelope_keys); [|done]. simpl.
  destruct (bool_decide _), (is_boolean _); [|done..].
  destruct (unique_strings (get "evidence" outcome)); [|done].
  destruct (unique_strings (get "warnings" outcome)); [|done]. simpl.
  destruct (truthy _); [by destruct (valid_success _)|by destruct (valid_failure _)].
Qed.

Lemma assert_returns outcome v : assertCanonicalEnvelope outcome = Ok v → v = outcome.
Proof. unfold assertCanonicalEnvelope. intros H. inv_ok H. done. Qed.

Lemma failure_code_nonempty e : negb (failure_code e =s "") = true.
Proof. unfold failure_code. case_if; [|done]. by destruct (get "code" e). Qed.

Section fields.
Context (ok : bool) (data e : value) (evidence warnings : list string).
Let envelope := executionEnvelope ok data e evidence warnings.

Lemma envelope_version : get "schema_version" envelope = VNum (NInt 1).
Proof. done. Qed.
Lemma envelope_ok : get "ok" envelope = VBool ok.
Proof. done. Qed.
Lemma envelope_data : get "data" envelope = data.
Proof. done. Qed.
Lemma envelope_error : get "error" envelope = e.
Proof. done. Qed.
Lemma envelope_evidence : get "evidence" envelope = VArr (VStr <$> js_set evidence).
Proof. done. Qed.
Lemma envelope_warnings : get "warnings" envelope = VArr (VStr <$> js_set warnings).
Proof. done. Qed.
End fields.

Definition known_operation (operationId : value) : Prop :=
  operationId = VNull ∨ nonempty_string operationId = true.

Lemma failure_accepts e operationId evidence warnings :
  canonical (failureEnvelope e operationId evidence warnings) =
  negb (failure_message e =s "") && (is_null operationId || nonempty_string operationId).
Proof.
  rewrite assert_accepts. unfold failureEnvelope.
  rewrite envelope_version, envelope_ok, envelope_evidence, envelope_warnings,
    bool_decide_eq_true_2, !unique_strings_set, !andb_true_r by done.
  change (is_record _) with true. change (has_keys _ envelope_keys) with true.
  unfold valid_failure. simpl. rewrite failure_code_nonempty. simpl.
  by rewrite !andb_true_r.
Qed.

Lemma success_canonical id result replayed evidence warnings : id ≠ "" →
  canonical (executionEnvelope true
    (VObj [("operation_id", VStr id); ("result", result); ("replayed", VBool replayed)]) VNull
    evidence warnings) = true.
Proof.
  intros Hid. rewrite assert_accepts.
  rewrite envelope_version, envelope_ok, envelope_evidence, envelope_warnings,
    bool_decide_eq_true_2, !unique_strings_set, !andb_true_r by done.
  change (is_record _) with true. change (has_keys _ envelope_keys) with true.
  unfold valid_success. rewrite envelope_data, envelope_error.
  apply String.eqb_neq in Hid. simpl. by rewrite Hid.
Qed.

(** The envelope of a failure is canonical exactly when its message is not
    empty and its operation is unknown or named: whatever was thrown, an error
    with an empty text is the only way to answer outside the contract. *)
Theorem failureEnvelope_canonical_iff e operationId evidence warnings :
  canonical (failureEnvelope e operationId evidence warnings) = true ↔
  failure_message e ≠ "" ∧ known_operation operationId.
Proof.
  rewrite failure_accepts, andb_true_iff, negb_true_iff, String.eqb_neq, orb_true_iff.
  unfold known_operation. destruct operationId; naive_solver.
Qed.

(** ** The keys of a canonical envelope *)

Definition text_length (l : list string) : nat := sum_list_with (λ s, S (String.length s)) l.

Lemma length_app_s s t : String.length (s +:+ t) = String.length s + String.length t.
Proof. induction s as [|c s IH]; [done|]. rewrite app_String. simpl. by rewrite IH. Qed.

Lemma length_concat l : l ≠ [] → S (String.length (String.concat NUL l)) = text_length l.
Proof.
  induction l as [|x [|y l] IH]; intros H; [done|simpl; lia|].
  change (String.concat NUL (x :: y :: l)) with (x +:+ NUL +:+ String.concat NUL (y :: l)).
  unfold text_length in *. rewrite !length_app_s. cbn [sum_list_with].
  cbn [sum_list_with] in IH. rewrite <- IH by done. simpl. lia.
Qed.

Lemma text_length_perm l k : l ≡ₚ k → text_length l = text_length k.
Proof. unfold text_length. by intros ->. Qed.

(** Joined texts of the same length cannot hide a key inside another one. *)
Lemma joined_keys_exact l keys :
  NoDup l → NoDup keys → keys ≠ [] → keys ⊆ l →
  String.concat NUL (sort_strings l) = String.concat NUL keys → l ≡ₚ keys.
Proof.
  intros Hl Hk Hne Hsub H.
  destruct (submseteq_Permutation keys l) as [rest HP]; [by apply NoDup_submseteq|].
  assert (rest = []) as ->; [|by rewrite HP, app_nil_r].
  assert (Hs : sort_strings l ≡ₚ keys ++ rest) by (by rewrite <- HP; apply sort_by_perm).
  assert (sort_strings l ≠ []).
  { intros E. rewrite E in Hs. apply Permutation_nil_l in Hs. by destruct keys. }
  apply (f_equal (λ s, S (String.length s))) in H.
  rewrite !length_concat, (text_length_perm _ _ Hs) in H by done.
  unfold text_length in H. rewrite sum_list_with_app in H.
  destruct rest; [done|]. simpl in H. lia.
Qed.

Lemma assoc_elem {A} k (l : list (string * A)) v : assoc k l = Some v → (k, v) ∈ l.
Proof.
  induction l as [|[k' w] l IH]; simpl; [done|]. case_if; intros ?; simplify_eq.
  - bool_props. subst. by left.
  - right. auto.
Qed.

Lemma get_defined k v : get k v ≠ VUndef → k ∈ object_keys v.
Proof.
  destruct v as [| | | | | |f]; simpl; try done.
  destruct (assoc k f) eqn:E; [|done]. intros _. apply list_elem_of_fmap.
  exists (k, v). split; [done|]. by apply assoc_elem.
Qed.

Lemma defined_by (f : value → bool) v : f VUndef = false → f v = true → v ≠ VUndef.
Proof. intros ? ? ->. congruence. Qed.

Lemma has_keys_exact v keys :
  NoDup (object_keys v) → NoDup keys → keys ≠ [] → has_keys v keys = true →
  Forall (λ k, get k v ≠ VUndef) keys → object_keys v ≡ₚ keys.
Proof.
  intros HN Hk Hne H%String.eqb_eq HF. apply joined_keys_exact; try done.
  intros k Hin. rewrite Forall_forall in HF. by apply get_defined, HF.
Qed.

(** What a canonical envelope holds: a success names its operation and carries no
    error, a failure carries no data and a complete error. *)
Definition well_formed_envelope (outcome : value) : Prop :=
  object_keys outcome ≡ₚ envelope_keys ∧
  NoDup (strings_of (get "evidence" outcome)) ∧
  NoDup (strings_of (get "warnings" outcome)) ∧
  ((get "ok" outcome = VBool true ∧ get "error" outcome = VNull ∧
    str_of (get "operation_id" (get "data" outcome)) ≠ "") ∨
   (get "ok" outcome = VBool false ∧ get "data" outcome = VNull ∧
    str_of (get "code" (get "error" outcome)) ≠ "" ∧
    str_of (get "message" (get "error" outcome)) ≠ "")).

(** A canonical envelope has exactly the six keys of the contract, although
    only the joined text of its keys is compared, and is either a success that
    names its operation or a failure with a code and a message. *)
Theorem canonical_well_formed outcome :
  NoDup (object_keys outcome) → canonical outcome = true → well_formed_envelope outcome.
Proof.
  intros HN H. rewrite assert_accepts in H. unfold unique_strings in H. bool_props.
  assert (Hok : get "ok" outcome = VBool true ∨ get "ok" outcome = VBool false).
  { destruct (get "ok" outcome) as [| |[]| | | |]; try done; auto. }
  unfold well_formed_envelope. rewrite <- !has_duplicates_false.
  assert (object_keys outcome ≡ₚ envelope_keys) as Hkeys.
  { apply has_keys_exact; try done.
    - by apply (bool_decide_unpack _).
    - destruct Hok as [Hok|Hok]; rewrite Hok in *; simpl in *;
        unfold valid_success, valid_failure in *; bool_props;
        repeat constructor; try congruence;
        first [by apply (defined_by is_record)|by apply (defined_by is_null)
              |by apply (defined_by is_string_array)]. }
  split_and!; try done.
  destruct Hok as [Hok|Hok]; rewrite Hok in *; simpl in *;
    unfold valid_success, valid_failure in *; bool_props; [left|right]; split_and!;
    try done; try by apply nonempty_str_of.
  - by destruct (get "error" outcome).
  - by destruct (get "data" outcome).
Qed.

Lemma canonical_well_formed_witness :
  well_formed_envelope (failureEnvelope VNull VNull ["receipt:1"] []).
Proof.
  apply canonical_well_formed.
  - apply (bool_decide_unpack _). vm_compute. exact I.
  - vm_compute. reflexivity.
Defined.
