(* ===== verification/StrictJson.v ===== *)
(** * Strict JSON, private keys and canonical copies

    The guards the event registry, the ledger and the approval store put in front
    of what they persist: only JSON values ([assertStrictJson]), no field whose
    name announces a secret ([assertNoSensitivePayload]), and copies in canonical
    form ([canonicalClone]). *)
From S2P Require Import Prelude JsValue CanonicalJson.

(** ** [assertStrictJson] *)

(** JSON values: nothing undefined, only finite numbers. *)
Fixpoint strict (v : value) : bool :=
  match v with
  | VUndef => false
  | VNum n => num_finite n
  | VArr items => forallb strict items
  | VObj fields => forallb (λ kv, strict kv.2) fields
  | _ => true
  end.

Section guards.
(** The error of the calling module, from a message and a path. *)
Context (fail : string → string → value).

(** Cycles, sparse arrays and exotic prototypes have no counterpart among the
    values of the model. *)
Fixpoint assertStrictJson (v : value) (path : string) : result unit :=
  match v with
  | VNull | VStr _ | VBool _ => Ok ()
  | VNum n =>
      throw_if (negb (num_finite n)) (fail (path +:+ " contains a non-finite number") path)
  | VUndef => Throw (fail (path +:+ " contains a non-JSON value") path)
  | VArr items =>
      (fix go (i : nat) (l : list value) : result unit :=
        match l with
        | [] => Ok ()
        | x :: l => _ ← assertStrictJson x (path +:+ "[" +:+ pretty i +:+ "]"); go (S i) l
        end) 0%nat items
  | VObj fields =>
      (fix go (l : list (string * value)) : result unit :=
        match l with
        | [] => Ok ()
        | (k, x) :: l => _ ← assertStrictJson x (path +:+ "." +:+ k); go l
        end) fields
  end.

Lemma assertStrictJson_ok v path : assertStrictJson v path = Ok () ↔ strict v = true.
Proof.
  revert path. induction v as [| |b|n|s|l IH|f IH] using value_ind';
    intros path; simpl; try done.
  - rewrite throw_if_ok. by destruct (num_finite n).
  - generalize 0%nat. induction IH as [|x l Hx HF IHl]; intros i; simpl; [done|].
    rewrite bind_ok, andb_true_iff, <- (Hx (path +:+ "[" +:+ pretty i +:+ "]")), <- IHl.
    split; [intros ([] & ? & ?)|intros [? ?]; exists ()]; eauto.
  - induction IH as [|[k x] l Hx HF IHl]; simpl; [done|].
    rewrite bind_ok, andb_true_iff, <- (Hx (path +:+ "." +:+ k)), <- IHl.
    split; [intros ([] & ? & ?)|intros [? ?]; exists ()]; eauto.
Qed.
End guards.

(** ** Names of private fields *)

Definition lower_letter (c : ascii) : bool :=
  let n := Ascii.N_of_ascii c in (97 <=? n)%N && (n <=? 122)%N.
Definition upper_letter (c : ascii) : bool :=
  let n := Ascii.N_of_ascii c in (65 <=? n)%N && (n <=? 90)%N.
Definition digit (c : ascii) : bool := bool_decide (is_Some (ascii_digit c)).
Definition alphanumeric (c : ascii) : bool := lower_letter c || upper_letter c || digit c.
Definition underscore : ascii := "_".

(** [.replaceAll(/([a-z0-9])([A-Z])/g, '$1_$2')]; the upper-case letter that ends
    a match cannot start another one. *)
Fixpoint split_camel (s : string) : string :=
  match s with
  | String a (String b _ as rest) =>
      if (lower_letter a || digit a) && upper_letter b
      then String a (String underscore (split_camel rest))
      else String a (split_camel rest)
  | _ => s
  end.

(** [.replaceAll(/[^a-zA-Z0-9]+/g, '_')]; [run] says that a run has begun. *)
Fixpoint collapse (run : bool) (s : string) : string :=
  match s with
  | EmptyString => ""
  | String c s =>
      if alphanumeric c then String c (collapse false s)
      else if run then collapse true s else String underscore (collapse true s)
  end.

(** [.replaceAll(/^_+|_+$/g, '')] *)
Fixpoint trim_left (s : string) : string :=
  match s with
  | String c s' => if Ascii.eqb c underscore then trim_left s' else s
  | EmptyString => ""
  end.
Fixpoint trim_right (s : string) : string :=
  match s with
  | EmptyString => ""
  | String c s =>
      let t := trim_right s in
      if Ascii.eqb c underscore && (t =s "") then "" else String c t
  end.

Definition to_lower_char (c : ascii) : ascii :=
  if upper_letter c then Ascii.ascii_of_N (Ascii.N_of_ascii c + 32) else c.
Fixpoint to_lower (s : string) : string :=
  match s with EmptyString => "" | String c s => String (to_lower_char c) (to_lower s) end.

Definition normalizeKey (key : string) : string :=
  to_lower (trim_right (trim_left (collapse false (split_camel key)))).

(** [/(?:^|_)(?:credential|credentials|password|secret|token)$/] *)
Definition sensitive_words : list string :=
  ["credential"; "credentials"; "password"; "secret"; "token"].
Fixpoint ends_with (suffix s : string) : bool :=
  (s =s suffix) || match s with EmptyString => false | String _ s => ends_with suffix s end.
Definition SENSITIVE_KEY_SUFFIX (key : string) : bool :=
  existsb (λ w, (key =s w) || ends_with ("_" +:+ w) key) sensitive_words.

Definition is_sensitive (SENSITIVE_KEYS : list string) (key : string) : bool :=
  let normalizedKey := normalizeKey key in
  (normalizedKey ∈s SENSITIVE_KEYS) || SENSITIVE_KEY_SUFFIX normalizedKey.

Example normalizeKey_examples :
  normalizeKey <$> ["apiKey"; "__Client--Secret "; "x-Api_KEY"; "already_normal"]
  = ["api_key"; "client_secret"; "x_api_key"; "already_normal"].
Proof. vm_compute. reflexivity. Qed.

(** The property names at every depth. *)
Fixpoint all_keys (v : value) : list string :=
  match v with
  | VArr items => items ≫= all_keys
  | VObj fields => fields ≫= (λ kv, kv.1 :: all_keys kv.2)
  | _ => []
  end.

Section private_fields.
Context (fail : string → string → value) (sensitive : string → bool).

Fixpoint assertNoSensitivePayload (v : value) (path : string) : result unit :=
  match v with
  | VArr items =>
      (fix go (i : nat) (l : list value) : result unit :=
        match l with
        | [] => Ok ()
        | x :: l =>
            _ ← assertNoSensitivePayload x (path +:+ "[" +:+ pretty i +:+ "]"); go (S i) l
        end) 0%nat items
  | VObj fields =>
      (fix go (l : list (string * value)) : result unit :=
        match l with
        | [] => Ok ()
        | (k, x) :: l =>
            let here := path +:+ "." +:+ k in
            _ ← throw_if (sensitive k)
                  (fail ("Sensitive field is forbidden in event payload: " +:+ here) here);
            _ ← assertNoSensitivePayload x here;
            go l
        end) fields
  | _ => Ok ()
  end.

Lemma bind_unit (m : result ()) (k : result ()) :
  (_ ← m; k) = Ok () ↔ m = Ok () ∧ k = Ok ().
Proof. destruct m as [[]|]; simpl; naive_solver. Qed.

(** A payload passes exactly when no property name at any depth, however it
    is spelled, denotes a secret. *)
Theorem assertNoSensitivePayload_iff v path :
  assertNoSensitivePayload v path = Ok () ↔ Forall (λ k, sensitive k = false) (all_keys v).
Proof.
  revert path. induction v as [| |b|n|s|l IH|f IH] using value_ind';
    intros path; simpl; try by split; constructor.
  - generalize 0%nat. induction IH as [|x l Hx HF IHl]; intros i; simpl;
      [by split; constructor|].
    by rewrite bind_unit, Forall_app, Hx, IHl.
  - induction IH as [|[k x] l Hx HF IHl]; simpl; [by split; constructor|].
    rewrite !bind_unit, throw_if_ok, Forall_cons, Forall_app, Hx, IHl. simpl. tauto.
Qed.
End private_fields.

(** ** Canonical copies *)

(** [JSON.parse(JSON.stringify(v))] on strict JSON: only the sign of zero is lost. *)
Fixpoint reparse (v : value) : value :=
  match v with
  | VNum NNegZero => VNum (NInt 0)
  | VArr items => VArr (reparse <$> items)
  | VObj fields => VObj ((λ kv, (kv.1, reparse kv.2)) <$> fields)
  | _ => v
  end.

Definition canonicalClone (fail : string → string → value) (v : value) : result value :=
  _ ← assertStrictJson fail v "payload"; Ok (reparse (stable_value v)).

(** ** Copies introduce no property *)

Lemma elem_of_put k v f kv : kv ∈ put k v f → kv ∈ f ∨ kv.2 = v ∧ kv.1 = k.
Proof.
  induction f as [|[k' w] f IH]; simpl.
  - intros ->%list_elem_of_singleton. by right.
  - destruct (k =s k') eqn:E; bool_props; intros [->|H]%elem_of_cons.
    + right. by subst.
    + left. by right.
    + left. by left.
    + destruct (IH H) as [?|?]; [left; by right|by right].
Qed.

Lemma elem_of_from_entries l kv :
  kv ∈ own_order (fold_left (λ acc kv, put kv.1 kv.2 acc) l []) → kv ∈ l.
Proof.
  rewrite own_order_perm.
  assert (∀ acc, kv ∈ fold_left (λ acc kv, put kv.1 kv.2 acc) l acc → kv ∈ l ∨ kv ∈ acc) as Hgen.
  { induction l as [|x l IH]; simpl; intros acc H; [by right|].
    destruct (IH _ H) as [?|Hp]; [left; by right|].
    apply elem_of_put in Hp as [?|[? ?]]; [by right|]. left.
    assert (kv = x) as -> by (destruct kv, x; simpl in *; congruence). by left. }
  intros H. destruct (Hgen [] H) as [?|?%not_elem_of_nil]; done.
Qed.

Lemma all_keys_stable v k : k ∈ all_keys (stable_value v) → k ∈ all_keys v.
Proof.
  induction v as [| |b|n|s|l IH|f IH] using value_ind'; try done; simpl.
  - rewrite !list_elem_of_bind. intros (x & Hk & (y & -> & Hy)%list_elem_of_fmap).
    rewrite Forall_forall in IH. exists y. split; [by apply IH|done].
  - rewrite !list_elem_of_bind. intros (kv & Hk & Hkv%elem_of_from_entries).
    apply elem_of_sort_by, list_elem_of_fmap in Hkv as ([k' w] & -> & Hin).
    exists (k', w). split; [|done]. simpl in *. rewrite Forall_forall in IH.
    apply elem_of_cons in Hk as [->|Hk]; [by left|right]. by apply (IH (k', w)).
Qed.

Lemma all_keys_reparse v : all_keys (reparse v) = all_keys v.
Proof.
  induction v as [| |b|n|s|l IH|f IH] using value_ind'; simpl; try done.
  - by destruct n.
  - induction IH as [|x l Hx _ IH]; [done|]. simpl. rewrite Hx. f_equal. exact IH.
  - induction IH as [|x f Hx _ IH]; [done|]. simpl. rewrite Hx. do 2 f_equal. exact IH.
Qed.

(** The check, in one direction. *)
Lemma no_sensitive_key fail sensitive v path k :
  assertNoSensitivePayload fail sensitive v path = Ok () → k ∈ all_keys v → sensitive k = false.
Proof.
  revert path. induction v as [| |b|n|s|l IH|f IH] using value_ind';
    intros path; simpl; try (by intros _ ?%not_elem_of_nil).
  - generalize 0%nat. induction IH as [|x l Hx HF IHl]; intros i; simpl;
      [by intros _ ?%not_elem_of_nil|].
    intros [H1 H2]%bind_unit [Hk|Hk]%elem_of_app; [by eapply Hx|by eapply IHl].
  - induction IH as [|[k' x] l Hx HF IHl]; simpl; [by intros _ ?%not_elem_of_nil|].
    intros [H1%throw_if_ok [H2 H3]%bind_unit]%bind_unit [->|[Hk|Hk]%elem_of_app]%elem_of_cons;
      [done|by eapply Hx|by eapply IHl].
Qed.
