(* ===== verification/EventRegistry.v ===== *)
(** * The event schema registry (tools/lib/governed-execution/event-registry.js)

    Event types are registered with their schema versions and the declarative
    upcasters between them; new facts must use the current version, stored facts
    are brought to it when they are read.  Field names are strings, the keys of a
    [versions] object are decimal numerals, and [localeCompare] is a parameter. *)
From S2P Require Import Prelude JsValue CanonicalJson StrictJson.

Definition EventSchemaError_with (message code : string) (details : value) : value :=
  error_with "EventSchemaError" message code details.
Definition EventSchemaError (message code : string) : value :=
  EventSchemaError_with message code (VObj []).
Definition schema_error (message : string) : value :=
  EventSchemaError message "EXECUTION_EVENT_SCHEMA_INVALID".
Definition payload_error (message field : string) : value :=
  EventSchemaError_with message "EXECUTION_EVENT_PAYLOAD_INVALID"
    (VObj [("field", VStr field)]).
Definition strict_error (message path : string) : value := schema_error message.

Definition assertPlainObject (v : value) (label : string) : result unit :=
  throw_if (negb (is_record v)) (schema_error (label +:+ " must be an object")).
Definition clone : value → result value := canonicalClone strict_error.

Definition validator : Type := value → result unit.

Record schema := MkSchema {
  allowed_fields : list string;
  required_fields : list string;
  classifications : list (string * value);
  validate : option validator;
}.
Record upcaster := MkUpcaster {
  rename : list (string * string);
  add : list (string * value);
  remove : list string;
}.
Record definition := MkDefinition {
  event_type : string;
  current_version : Z;
  versions : gmap Z schema;
  upcasters : gmap Z upcaster;
}.
Record registry := MkRegistry {
  definitions : list (string * definition);
  sealed : bool;
}.

(** What callers pass to [register]. *)
Record raw_schema := MkRawSchema {
  raw_allowed_fields : value;
  raw_required_fields : value;
  raw_classifications : list (string * value);
  raw_validate : option validator;
}.
Record raw_definition := MkRawDefinition {
  raw_event_type : value;
  raw_current_version : value;
  raw_versions : list (string * raw_schema);
  raw_upcasters : list (string * value);
}.

(** [Number(key)] of a decimal numeral. *)
Definition version_number (key : string) : option Z := Z.of_N <$> decimal_value 0 key.
Definition show_version (v : option Z) : string :=
  match v with Some z => pretty z | None => "NaN" end.
Definition version_label (eventType : string) (v : option Z) : string :=
  eventType +:+ " v" +:+ show_version v.

(** [Object.entries(v)] of an object of strings. *)
Definition entries_of (v : value) : list (string * value) :=
  match v with VObj fields => fields | _ => [] end.
Definition string_entries (v : value) : list (string * string) :=
  (λ kv, (kv.1, str_of kv.2)) <$> entries_of v.

Definition upcast_error (message : string) : value :=
  EventSchemaError message "EXECUTION_EVENT_UPCAST_INVALID".

Definition normalizeUpcaster (eventType : string) (version : option Z) (v : value) :
    result upcaster :=
  let label := version_label eventType version in
  _ ← assertPlainObject v (label +:+ " upcaster");
  let unknown := List.filter (λ k, negb (k ∈s ["add"; "remove"; "rename"])) (object_keys v) in
  _ ← throw_if (0 <? length unknown)%nat
        (EventSchemaError_with ("Unsupported upcaster operation for " +:+ label)
           "EXECUTION_EVENT_UPCAST_INVALID"
           (VObj [("operations", VArr (VStr <$> unknown))]));
  let rename := or_else (get "rename" v) (VObj []) in
  let add := or_else (get "add" v) (VObj []) in
  let remove := or_else (get "remove" v) (VArr []) in
  _ ← assertPlainObject rename (label +:+ " upcaster.rename");
  _ ← assertPlainObject add (label +:+ " upcaster.add");
  _ ← throw_if
        (negb (is_array remove) ||
         existsb (λ f, negb (nonempty_string f)) (items_of remove))
        (upcast_error ("Invalid remove operation for " +:+ label));
  _ ← for_each
        (λ kv, throw_if ((kv.1 =s "") || negb (nonempty_string kv.2))
                 (upcast_error ("Invalid rename operation for " +:+ label)))
        (entries_of rename);
  rename ← clone rename;
  add ← clone add;
  Ok {| rename := string_entries rename; add := entries_of add;
        remove := sort_strings (js_set (strings_of remove)) |}.

(** ** Objects under construction *)

(** [delete fields[k]]; the fields are kept in the order they were created. *)
Definition delete_field (k : string) (fields : list (string * value)) :
    list (string * value) :=
  List.filter (λ kv, negb (kv.1 =s k)) fields.
Definition has_field (k : string) (fields : list (string * value)) : bool :=
  bool_decide (is_Some (assoc k fields)).

Definition precondition_error (message : string) (details : list (string * value)) : value :=
  EventSchemaError_with message "EXECUTION_EVENT_UPCAST_PRECONDITION_FAILED" (VObj details).

Definition rename_field (fields : list (string * value)) (from to : string) :
    result (list (string * value)) :=
  match assoc from fields with
  | Some v =>
      _ ← throw_if (negb (from =s to) && has_field to fields)
            (precondition_error "Upcaster rename precondition failed"
               [("from", VStr from); ("to", VStr to)]);
      let fields := put to v fields in
      Ok (if from =s to then fields else delete_field from fields)
  | None =>
      Throw (precondition_error "Upcaster rename precondition failed"
               [("from", VStr from); ("to", VStr to)])
  end.
Definition add_field (fields : list (string * value)) (field : string) (v : value) :
    result (list (string * value)) :=
  _ ← throw_if (has_field field fields)
        (precondition_error "Upcaster add precondition failed" [("field", VStr field)]);
  v ← clone v;
  Ok (put field v fields).

Fixpoint fold_result {A B} (f : A → B → result A) (acc : A) (l : list B) : result A :=
  match l with
  | [] => Ok acc
  | x :: l => acc ← f acc x; fold_result f acc l
  end.

(** ** Validation *)

Definition validatePayload (eventType : string) (version : Z) (s : schema) (payload : value) :
    result unit :=
  let label := version_label eventType (Some version) in
  _ ← assertPlainObject payload (label +:+ " payload");
  let keys := object_keys payload in
  let unknown := List.filter (λ k, negb (k ∈s allowed_fields s)) keys in
  let missing := List.filter (λ k, negb (has_own k payload)) (required_fields s) in
  _ ← throw_if ((0 <? length unknown)%nat || (0 <? length missing)%nat)
        (EventSchemaError_with ("Payload does not match " +:+ label)
           "EXECUTION_EVENT_PAYLOAD_INVALID"
           (VObj [("event_type", VStr eventType); ("schema_version", VNum (NInt version));
                  ("unknown_fields", VArr (VStr <$> sort_strings unknown));
                  ("missing_fields", VArr (VStr <$> sort_strings missing))]));
  match validate s with
  | Some check => copy ← clone payload; check copy
  | None => Ok ()
  end.

(** Reading a property of [undefined], where a map holds no such entry. *)
Definition existing {A} (o : option A) : result A :=
  match o with
  | Some a => Ok a
  | None => Throw (type_error "Cannot read properties of undefined")
  end.

(** ** Registration *)

Definition register_version (eventType : string) (acc : gmap Z schema)
    (entry : string * raw_schema) : result (gmap Z schema) :=
  let '(rawVersion, s) := entry in
  let invalid :=
    schema_error ("Invalid schema registration for " +:+ eventType +:+ " v" +:+ rawVersion) in
  match version_number rawVersion with
  | None => Throw invalid
  | Some version =>
      _ ← throw_if ((version <? 1)%Z || negb (is_array (raw_allowed_fields s)) ||
                    negb (is_array (raw_required_fields s))) invalid;
      let allowed := strings_of (raw_allowed_fields s) in
      let unclassified :=
        List.filter (λ f, negb (is_string (default VUndef (assoc f (raw_classifications s)))))
          allowed in
      _ ← throw_if (0 <? length unclassified)%nat
            (EventSchemaError_with
               ("Every " +:+ version_label eventType (Some version) +:+
                " field requires a data classification")
               "EXECUTION_EVENT_FIELD_UNCLASSIFIED"
               (VObj [("fields", VArr (VStr <$> unclassified))]));
      Ok (<[version := {|
             allowed_fields := js_set allowed;
             required_fields := js_set (strings_of (raw_required_fields s));
             classifications := raw_classifications s;
             validate := raw_validate s |}]> acc)
  end.

Definition register_upcaster (eventType : string) (acc : gmap Z upcaster)
    (entry : string * value) : result (gmap Z upcaster) :=
  let version := version_number entry.1 in
  u ← normalizeUpcaster eventType version entry.2;
  Ok (match version with Some v => <[v := u]> acc | None => acc end).

Definition positive_integer (v : value) : bool :=
  match v with VNum (NInt z) => (1 <=? z)%Z | _ => false end.

Definition register (reg : registry) (d : raw_definition) : result registry :=
  _ ← throw_if (sealed reg)
        (EventSchemaError "Event registry is sealed" "EXECUTION_EVENT_REGISTRY_SEALED");
  _ ← throw_if (negb (nonempty_string (raw_event_type d)) ||
                negb (positive_integer (raw_current_version d)))
        (schema_error "Event definition requires event_type and a positive current_version");
  let eventType := str_of (raw_event_type d) in
  let currentVersion := int_of (raw_current_version d) in
  _ ← throw_if (bool_decide (is_Some (assoc eventType (definitions reg))))
        (EventSchemaError ("Event type already registered: " +:+ eventType)
           "EXECUTION_EVENT_SCHEMA_DUPLICATE");
  normalizedVersions ← fold_result (register_version eventType) ∅ (raw_versions d);
  _ ← throw_if (negb (bool_decide (is_Some (normalizedVersions !! currentVersion))))
        (schema_error ("Current schema is missing for " +:+
           version_label eventType (Some currentVersion)));
  _ ← for_each
        (λ version,
           throw_if
             (negb (bool_decide (is_Some (normalizedVersions !! version))) ||
              negb (truthy (default VUndef (assoc (pretty version) (raw_upcasters d)))))
             (schema_error ("Missing deterministic upcaster for " +:+
                version_label eventType (Some version))))
        (seqZ 1 (currentVersion - 1));
  normalizedUpcasters ← fold_result (register_upcaster eventType) ∅ (raw_upcasters d);
  Ok {| definitions := definitions reg ++
          [(eventType, {| event_type := eventType; current_version := currentVersion;
                          versions := normalizedVersions;
                          upcasters := normalizedUpcasters |})];
        sealed := sealed reg |}.

Definition seal (reg : registry) : registry :=
  {| definitions := definitions reg; sealed := true |}.
Definition empty_registry : registry := {| definitions := []; sealed := false |}.
Definition new_registry (l : list raw_definition) : result registry :=
  fold_result register empty_registry l.

(** [definition(eventType)] *)
Definition lookup_definition (reg : registry) (eventType : value) : result definition :=
  let found := match eventType with VStr s => assoc s (definitions reg) | _ => None end in
  match found with
  | Some d => Ok d
  | None =>
      Throw (EventSchemaError_with ("Unregistered event type: " +:+ js_string eventType)
               "EXECUTION_EVENT_TYPE_UNREGISTERED" (VObj [("event_type", eventType)]))
  end.

(** ** Reading and appending *)

Definition validateForAppend (reg : registry) (event : value) : result value :=
  _ ← assertPlainObject event "event";
  d ← lookup_definition reg (get "event_type" event);
  let current := VNum (NInt (current_version d)) in
  _ ← throw_if (negb (bool_decide (get "schema_version" event = current)))
        (EventSchemaError_with
           ("New " +:+ event_type d +:+ " facts must use schema v" +:+
            pretty (current_version d))
           "EXECUTION_EVENT_SCHEMA_NOT_CURRENT"
           (VObj [("event_type", VStr (event_type d));
                  ("actual", get "schema_version" event); ("expected", current)]));
  s ← existing (versions d !! current_version d);
  _ ← validatePayload (event_type d) (current_version d) s (get "payload" event);
  Ok event.

(** [{ ...event, schema_version, payload }] *)
Definition with_version (event : value) (version : Z) (payload : value) : value :=
  VObj (put "payload" payload (put "schema_version" (VNum (NInt version)) (entries_of event))).

Section reading.
(** [a.localeCompare(b) <= 0]. *)
Context (locale_le : string → string → bool).

Definition by_key {A} (l : list (string * A)) : list (string * A) :=
  sort_by (λ a b, locale_le a.1 b.1) l.

Definition applyDeclarativeUpcaster (payload : value) (u : upcaster) : result value :=
  copy ← clone payload;
  renamed ← fold_result (λ fields ft, rename_field fields ft.1 ft.2)
              (entries_of copy) (by_key (rename u));
  let removed := fold_left (λ fields f, delete_field f fields) (remove u) renamed in
  added ← fold_result (λ fields fv, add_field fields fv.1 fv.2) removed (by_key (add u));
  Ok (VObj (own_order added)).

(** [while (version < current_version) ...]; [steps] is what is left of it. *)
Fixpoint upcast (d : definition) (steps : nat) (version : Z) (payload : value) :
    result (Z * value) :=
  match steps with
  | O => Ok (version, payload)
  | S steps =>
      u ← existing (upcasters d !! version);
      payload ← applyDeclarativeUpcaster payload u;
      let version := (version + 1)%Z in
      s ← existing (versions d !! version);
      _ ← validatePayload (event_type d) version s payload;
      upcast d steps version payload
  end.

Definition supported (d : definition) (version : value) : option schema :=
  match version with VNum (NInt z) => versions d !! z | _ => None end.

Definition deserialize (reg : registry) (event : value) : result value :=
  _ ← assertPlainObject event "event";
  d ← lookup_definition reg (get "event_type" event);
  match supported d (get "schema_version" event) with
  | None =>
      Throw (EventSchemaError_with
        ("Unsupported " +:+ event_type d +:+ " schema v" +:+
         js_string (get "schema_version" event))
        "EXECUTION_EVENT_SCHEMA_UNSUPPORTED"
        (VObj [("event_type", VStr (event_type d));
               ("schema_version", get "schema_version" event)]))
  | Some s =>
      let version := int_of (get "schema_version" event) in
      payload ← clone (get "payload" event);
      _ ← validatePayload (event_type d) version s payload;
      '(version, payload) ←
        upcast d (Z.to_nat (current_version d - version)) version payload;
      Ok (with_version event version payload)
  end.
End reading.

(** ** Lookup in objects under construction *)

Lemma assoc_delete_eq k f : assoc k (delete_field k f) = None.
Proof.
  apply assoc_None. intros ([k' v] & E & Hin)%list_elem_of_fmap.
  apply list_filter_elem in Hin as [_ Hb]. simpl in E. subst. simpl in Hb.
  by rewrite String.eqb_refl in Hb.
Qed.

Lemma assoc_delete_ne k k' f : k ≠ k' → assoc k (delete_field k' f) = assoc k f.
Proof.
  intros Hne. induction f as [|[k1 v] f IH]; simpl; [done|].
  destruct (k1 =s k') eqn:E; simpl; [|by rewrite IH].
  bool_props. subst. apply String.eqb_neq in Hne as ->. exact IH.
Qed.

Lemma NoDup_delete k f : NoDup f.*1 → NoDup (delete_field k f).*1.
Proof.
  induction f as [|[k1 v] f IH]; simpl; [done|]. intros [Hn HN]%NoDup_cons.
  destruct (negb (k1 =s k)); [|by apply IH]. rewrite fmap_cons. constructor; [|by apply IH].
  simpl. intros ([k2 w] & E & Hin)%list_elem_of_fmap. apply list_filter_elem in Hin as [Hin _].
  apply Hn, list_elem_of_fmap. by exists (k2, w).
Qed.

Lemma fold_result_inv {A B} (P : A → Prop) (f : A → B → result A) l a a' :
  (∀ a b a', b ∈ l → P a → f a b = Ok a' → P a') → P a → fold_result f a l = Ok a' → P a'.
Proof.
  revert a. induction l as [|x l IH]; simpl; intros a Hf Ha H; [congruence|].
  inv_ok H. eapply IH; [|by eapply Hf; [left| |]|done].
  intros. eapply Hf; [by right|done..].
Qed.

Lemma rename_field_ok f from to f' :
  rename_field f from to = Ok f' →
  NoDup f.*1 →
  NoDup f'.*1 ∧ (∀ k, k ≠ from → k ≠ to → assoc k f' = assoc k f) ∧
  assoc to f' = assoc from f ∧ is_Some (assoc from f) ∧
  (from ≠ to → assoc from f' = None).
Proof.
  unfold rename_field. destruct (assoc from f) as [v|] eqn:Hv; [|done].
  intros H HN. inv_ok H. inv_throw_if. subst f'. destruct (from =s to) eqn:E; bool_props.
  - subst. split_and!; [by apply NoDup_put| |by apply assoc_put_eq|done|done].
    intros k ? ?. by apply assoc_put_ne.
  - split_and!; [by apply NoDup_delete, NoDup_put| | |done|].
    + intros k ? ?. by rewrite assoc_delete_ne, assoc_put_ne.
    + by rewrite assoc_delete_ne, assoc_put_eq by done.
    + intros _. apply assoc_delete_eq.
Qed.

Lemma add_field_ok f k v f' :
  add_field f k v = Ok f' → NoDup f.*1 →
  NoDup f'.*1 ∧ (∀ j, j ≠ k → assoc j f' = assoc j f) ∧
  ∃ w, clone v = Ok w ∧ assoc k f' = Some w.
Proof.
  unfold add_field. intros H HN. inv_ok H. inv_throw_if. subst f'.
  split_and!; [by apply NoDup_put|by intros; apply assoc_put_ne|].
  eexists. split; [done|]. apply assoc_put_eq.
Qed.

(** Folds of renames and of additions, by what they leave alone. *)
Lemma rename_fold l f f' :
  fold_result (λ fields ft, rename_field fields ft.1 ft.2) f l = Ok f' → NoDup f.*1 →
  NoDup f'.*1 ∧ ∀ k, k ∉ l.*1 → k ∉ l.*2 → assoc k f' = assoc k f.
Proof.
  revert f. induction l as [|[a b] l IH]; simpl; intros f H HN; [simplify_eq; done|].
  inv_ok H. destruct (rename_field_ok _ _ _ _ Hok HN) as (HN1 & Hframe & _).
  destruct (IH _ H HN1) as [HN2 Hl]. split; [done|]. intros k Ha Hb.
  rewrite Hl by set_solver. apply Hframe; set_solver.
Qed.

Lemma rename_fold_moves l f f' from to :
  fold_result (λ fields ft, rename_field fields ft.1 ft.2) f l = Ok f' → NoDup f.*1 →
  NoDup (l.*1 ++ l.*2) → (from, to) ∈ l →
  assoc to f' = assoc from f ∧ assoc from f' = None ∧ is_Some (assoc from f).
Proof.
  revert f. induction l as [|[a b] l IH]; intros f H HN Hdis Hin;
    [by apply not_elem_of_nil in Hin|].
  cbn [fold_result] in H. inv_ok H. simpl in Hok.
  destruct (rename_field_ok _ _ _ _ Hok HN) as (HN1 & Hframe & Hto & Hs & Hfrom).
  rewrite !fmap_cons in Hdis. simpl in Hdis. apply NoDup_cons in Hdis as [Ha Hdis].
  assert (Hb : b ∉ l.*1 ++ l.*2 ∧ NoDup (l.*1 ++ l.*2)).
  { apply NoDup_cons. by rewrite Permutation_middle. }
  destruct Hb as [Hb Hdis'].
  destruct (rename_fold _ _ _ H HN1) as [_ Hl].
  apply elem_of_cons in Hin as [[= -> ->]|Hin].
  - rewrite !Hl by set_solver. rewrite Hto, Hfrom by set_solver. done.
  - destruct (IH _ H HN1 Hdis' Hin) as (H1 & H2 & H3).
    assert (from ∈ l.*1 ∧ to ∈ l.*2) as [Hf Ht].
    { split; apply list_elem_of_fmap; by exists (from, to). }
    rewrite H1, H2. rewrite Hframe in H3 |- * by set_solver. done.
Qed.

Lemma remove_fold l f :
  NoDup f.*1 →
  let f' := fold_left (λ fields k, delete_field k fields) l f in
  NoDup f'.*1 ∧ ∀ k, assoc k f' = if decide (k ∈ l) then None else assoc k f.
Proof.
  revert f. induction l as [|a l IH]; simpl; intros f HN; [done|].
  destruct (IH (delete_field a f)) as [HN1 Hl]; [by apply NoDup_delete|].
  split; [done|]. intros k. rewrite Hl. destruct (decide (k = a)) as [->|Hne].
  - rewrite assoc_delete_eq. rewrite (decide_True (P := a ∈ a :: l)) by (by left).
    by case_decide.
  - rewrite assoc_delete_ne by done. repeat case_decide; set_solver.
Qed.

Lemma add_fold l f f' :
  fold_result (λ fields fv, add_field fields fv.1 fv.2) f l = Ok f' → NoDup f.*1 →
  NoDup f'.*1 ∧ (∀ k, k ∉ l.*1 → assoc k f' = assoc k f) ∧
  (NoDup l.*1 → ∀ k v, (k, v) ∈ l → ∃ w, clone v = Ok w ∧ assoc k f' = Some w).
Proof.
  revert f. induction l as [|[a v] l IH]; intros f H HN.
  { simpl in H. simplify_eq. split_and!; [done|done|]. by intros _ k w ?%not_elem_of_nil. }
  cbn [fold_result] in H. inv_ok H. simpl in Hok.
  destruct (add_field_ok _ _ _ _ Hok HN) as (HN1 & Hframe & w & Hw & Ha).
  destruct (IH _ H HN1) as (HN2 & Hl & Hadd). split_and!; [done| |].
  - intros k Hk. rewrite Hl, Hframe by set_solver. done.
  - intros [Hn Hnd]%NoDup_cons k v' Hin. apply elem_of_cons in Hin as [[= -> ->]|Hin].
    + exists w. split; [done|]. by rewrite Hl.
    + by apply Hadd.
Qed.

(** ** What an upcaster does *)

Lemma clone_record v w : is_record v = true → clone v = Ok w →
  ∃ f, w = VObj f ∧ NoDup f.*1.
Proof.
  destruct v as [| | | | | |f]; try done. intros _ H. unfold clone, canonicalClone in H.
  inv_ok H. subst w. cbn [stable_value]. unfold from_entries. cbn [reparse].
  eexists. split; [done|]. rewrite keys_map_values.
  rewrite own_order_perm. apply NoDup_fold_put. constructor.
Qed.

Lemma by_key_perm {A} le (l : list (string * A)) : by_key le l ≡ₚ l.
Proof. apply sort_by_perm. Qed.

(** The names an upcaster mentions. *)
Definition mentioned (u : upcaster) : list string :=
  (rename u).*1 ++ (rename u).*2 ++ remove u ++ (add u).*1.

(** An upcaster that applies touches only the fields it names: the others keep
    their (canonical) value, a renamed field moves, a removed one is gone, an
    added one has the value declared for it. *)
Theorem applyDeclarativeUpcaster_effect le payload u v copy :
  is_record payload = true → clone payload = Ok copy → NoDup (add u).*1 →
  NoDup ((rename u).*1 ++ (rename u).*2) →
  applyDeclarativeUpcaster le payload u = Ok v →
  (∀ k, k ∉ mentioned u → get k v = get k copy) ∧
  (∀ from to, (from, to) ∈ rename u → to ∉ remove u → to ∉ (add u).*1 →
    get to v = get from copy) ∧
  (∀ k, k ∈ remove u → k ∉ (add u).*1 → has_own k v = false) ∧
  (∀ k w, (k, w) ∈ add u → clone w = Ok (get k v)).
Proof.
  intros Hrec Hcopy Hadd Hren H. unfold applyDeclarativeUpcaster in H. rewrite Hcopy in H.
  cbn [mbind result_bind] in H. destruct (clone_record _ _ Hrec Hcopy) as (f & -> & HN).
  cbn [entries_of] in H. inv_ok H. subst v.
  destruct (rename_fold _ _ _ Hok HN) as [HN1 H1].
  destruct (remove_fold (remove u) a HN1) as [HN2 H2].
  destruct (add_fold _ _ _ Hok0 HN2) as (HN3 & H3 & H4).
  setoid_rewrite by_key_perm in H1. setoid_rewrite by_key_perm in H3.
  unfold mentioned. cbn [get has_own].
  split_and!.
  - intros k Hk. rewrite assoc_own_order, H3, H2, H1 by set_solver.
    by rewrite decide_False by set_solver.
  - intros from to Hin Hr Ha. rewrite assoc_own_order, H3, H2, decide_False by done.
    edestruct (rename_fold_moves _ _ _ from to Hok HN) as (E & _).
    + by rewrite !by_key_perm.
    + by rewrite by_key_perm.
    + by rewrite E.
  - intros k Hr Ha. rewrite assoc_own_order, H3, H2, decide_True by done. done.
  - intros k w Hin. destruct H4 with k w as (w' & -> & E); [by rewrite by_key_perm..|].
    by rewrite assoc_own_order, E.
Qed.

(** ** Reading a fact brings it to a version that can be appended *)

Lemma upcast_result le d steps version payload version' payload' s :
  versions d !! version = Some s →
  validatePayload (event_type d) version s payload = Ok () →
  upcast le d steps version payload = Ok (version', payload') →
  version' = (version + Z.of_nat steps)%Z ∧ ∃ s', versions d !! version' = Some s' ∧
  validatePayload (event_type d) version' s' payload' = Ok ().
Proof.
  revert version payload s. induction steps as [|n IH]; intros version payload s Hs Hv H;
    cbn [upcast] in H.
  - injection H as <- <-. split; [lia|eauto].
  - inv_ok H. destruct (versions d !! (version + 1)%Z) as [s1|] eqn:E; [|done].
    injection Hok1 as <-. destruct a2. destruct (IH _ _ _ E Hok2 H) as [-> ?].
    split; [lia|done].
Qed.

Lemma get_with_version k e version payload :
  get k (with_version e version payload) =
    if decide (k = "payload") then payload
    else if decide (k = "schema_version") then VNum (NInt version)
    else get k (VObj (entries_of e)).
Proof.
  unfold with_version. case_decide as Hp; [subst; apply get_put_eq|].
  rewrite get_put_ne by done. case_decide; [subst; apply get_put_eq|].
  by rewrite get_put_ne.
Qed.

Lemma validateForAppend_same reg event v : validateForAppend reg event = Ok v → v = event.
Proof. unfold validateForAppend. intros H. inv_ok H. done. Qed.

(** A fact of a current or older version is read as a fact the registry would
    accept for append; nothing but its version and payload changes. *)
Theorem deserialize_appendable le reg e e' d :
  lookup_definition reg (get "event_type" e) = Ok d →
  (int_of (get "schema_version" e) ≤ current_version d)%Z →
  deserialize le reg e = Ok e' →
  validateForAppend reg e' = Ok e' ∧
  get "schema_version" e' = VNum (NInt (current_version d)) ∧
  ∀ k, k ≠ "schema_version" → k ≠ "payload" → get k e' = get k e.
Proof.
  intros Hd Hle H. unfold deserialize in H. rewrite Hd in H. inv_ok H. clear Hok.
  cbn [mbind result_bind] in H.
  destruct (supported d _) as [s|] eqn:Hs; [|done]. inv_ok H.
  destruct a2 as [version payload]. injection H as <-.
  assert (He : e = VObj (entries_of e)).
  { by destruct e. }
  assert (Hget : ∀ k, k ≠ "schema_version" → k ≠ "payload" →
    get k (with_version e version payload) = get k e).
  { intros k ? ?. by rewrite get_with_version, !decide_False, <- He. }
  unfold supported in Hs. destruct (get "schema_version" e) as [| | |[z| | | |]| | |] eqn:Ez; try done.
  cbn [int_of] in *. destruct a1. destruct (upcast_result _ _ _ _ _ _ _ _ Hs Hok0 Hok1) as [Hv (s' & Hs' & Hp)].
  assert (version = current_version d) as -> by lia.
  split_and!; [|by rewrite get_with_version|done].
  unfold validateForAppend. rewrite (Hget "event_type"), Hd, !get_with_version by done.
  cbn [mbind result_bind]. rewrite bool_decide_eq_true_2, Hs' by done.
  cbn [mbind result_bind throw_if negb existing].
  rewrite decide_True by done. by rewrite Hp.
Qed.

(** ** Registration keeps the registry complete *)

(** Every version up to the current one has a schema and a way to the next, and
    every field of every schema is classified. *)
Definition complete (d : definition) : Prop :=
  (1 ≤ current_version d)%Z ∧
  (∀ v, (1 ≤ v ≤ current_version d)%Z → is_Some (versions d !! v)) ∧
  (∀ v, (1 ≤ v < current_version d)%Z → is_Some (upcasters d !! v)) ∧
  map_Forall (λ _ s, ∀ f, f ∈ allowed_fields s →
    is_string (default VUndef (assoc f (classifications s))) = true) (versions d).
Definition wf_registry (reg : registry) : Prop :=
  NoDup (definitions reg).*1 ∧
  ∀ t d, (t, d) ∈ definitions reg → t = event_type d ∧ t ≠ "" ∧ complete d.

Lemma version_number_pretty v : (1 ≤ v)%Z → version_number (pretty v) = Some v.
Proof.
  intros Hv. unfold version_number.
  assert (pretty v = pretty_N_go (Z.to_N v) "") as ->.
  { destruct v as [|p|p]; try lia. unfold pretty, pretty_Z, pretty, pretty_positive, pretty, pretty_N.
    by rewrite decide_False. }
  rewrite decimal_pretty_go. simpl. f_equal. lia.
Qed.

Lemma string_filter_none f l :
  (0 <? length (List.filter (λ x, negb (f x)) l))%nat = false → ∀ x : string, x ∈ l → f x = true.
Proof.
  intros H x Hx. destruct (f x) eqn:E; [done|]. exfalso.
  assert (x ∈ List.filter (λ x, negb (f x)) l) as Hin by (by apply list_filter_elem; rewrite E).
  bool_props. destruct (List.filter _ l); [by apply not_elem_of_nil in Hin|simpl in H; lia].
Qed.

Lemma register_versions_classified t l m :
  fold_result (register_version t) ∅ l = Ok m →
  map_Forall (λ _ s, ∀ f, f ∈ allowed_fields s →
    is_string (default VUndef (assoc f (classifications s))) = true) m.
Proof.
  apply (fold_result_inv (λ m, map_Forall _ m)); [|by apply map_Forall_empty].
  intros acc [raw s] acc' _ Hacc H. unfold register_version in H.
  destruct (version_number raw) as [version|]; [|done]. inv_ok H. inv_throw_if. subst acc'.
  apply map_Forall_insert_2; [|done]. simpl. intros f Hf. rewrite elem_of_js_set in Hf.
  by apply (string_filter_none _ _ Hok0).
Qed.

Lemma register_upcasters_domain t l m v u :
  fold_result (register_upcaster t) ∅ l = Ok m → (1 ≤ v)%Z → assoc (pretty v) l = Some u →
  is_Some (m !! v).
Proof.
  intros H Hv Hu. revert H.
  assert (is_Some ((∅ : gmap Z upcaster) !! v) ∨ is_Some (assoc (pretty v) l)) as Hin by eauto.
  clear Hu. revert Hin. generalize (∅ : gmap Z upcaster).
  induction l as [|[k x] l IH]; intros acc Hin H.
  - simpl in *. simplify_eq. destruct Hin as [|[? ?]]; done.
  - cbn [fold_result] in H. inv_ok H. apply (IH a); [|done]. unfold register_upcaster in Hok.
    inv_ok Hok. subst a. simpl in Hin |- *. destruct (pretty v =s k) eqn:E.
    + bool_props. subst k. rewrite version_number_pretty by done. left.
      rewrite lookup_insert. by case_decide; eauto.
    + destruct Hin as [Hin|]; [left|by right]. case_match; [|done].
      rewrite lookup_insert_is_Some. destruct (decide (z = v)); auto.
Qed.

Lemma register_wf reg d reg' :
  wf_registry reg → register reg d = Ok reg' → wf_registry reg'.
Proof.
  intros [HN Hwf] H. unfold register in H. inv_ok H. inv_throw_if. subst reg'.
  bool_props.
  split; cbn [definitions].
  - rewrite fmap_app. apply NoDup_app. split_and!; [done| |apply NoDup_singleton].
    intros t Ht Hin. apply list_elem_of_singleton in Hin. simpl in Hin. subst t.
    apply Hok1. destruct (assoc _ _) eqn:E; [eauto|]. by apply assoc_None in E.
  - intros t x [Hin|Hin]%elem_of_app; [by apply Hwf|].
    apply list_elem_of_singleton in Hin. injection Hin as -> ->. cbn [event_type].
    split_and!; [done|by apply nonempty_str_of|].
    unfold complete. cbn [current_version versions upcasters].
    assert (Hsteps : ∀ v, (1 ≤ v < int_of (raw_current_version d))%Z →
      is_Some (a2 !! v) ∧ is_Some (assoc (pretty v) (raw_upcasters d))).
    { intros v Hv. destruct a4. apply for_each_ok in Hok4. rewrite Forall_forall in Hok4.
      specialize (Hok4 v ltac:(apply elem_of_seqZ; lia)). apply throw_if_ok in Hok4.
      bool_props. split; [done|]. destruct (assoc (pretty v) _); [by eauto|done]. }
    split_and!.
    + destruct (raw_current_version d) as [| | |[]| | |]; try done. simpl in H0.
      bool_props. done.
    + intros v Hv. destruct (decide (v = int_of (raw_current_version d))) as [->|Hne]; [done|].
      apply Hsteps. lia.
    + intros v Hv. destruct (Hsteps v Hv) as [_ [u Hu]].
      eapply register_upcasters_domain; [done|lia|done].
    + by eapply register_versions_classified.
Qed.

(** A registry built from any list of definitions has all the schemas and
    upcasters its versions need, one definition per type, and no unclassified
    field; reading a fact never reaches for a schema that is not there. *)
Theorem new_registry_wf l reg : new_registry l = Ok reg → wf_registry reg.
Proof.
  apply (fold_result_inv wf_registry).
  - intros r d r' _. apply register_wf.
  - split; [constructor|]. by intros t d ?%not_elem_of_nil.
Qed.

(** ** The lifecycle events of an execution *)

Definition lifecycle_schema (allowedFields requiredFields : list string) (check : validator) :
    raw_schema :=
  {| raw_allowed_fields := VArr (VStr <$> allowedFields);
     raw_required_fields := VArr (VStr <$> requiredFields);
     raw_classifications :=
       (λ f, (f, VStr (if ends_with "_ref" f then "reference" else "operational")))
         <$> allowedFields;
     raw_validate := Some check |}.

Definition requireStringFields (fields : list string) : validator := λ payload,
  for_each (λ f, throw_if (negb (nonempty_string (get f payload)))
                   (payload_error (f +:+ " must be a non-empty string") f)) fields.
Definition combineValidators (checks : list validator) : validator := λ payload,
  for_each (λ check, check payload) checks.
Definition requirePositiveIntegers (fields : list string) : validator := λ payload,
  for_each (λ f, throw_if (negb (positive_integer (get f payload)))
                   (payload_error (f +:+ " must be a positive integer") f)) fields.
Definition requireOptionalStrings (fields : list string) : validator := λ payload,
  for_each (λ f, throw_if (has_own f payload && negb (nonempty_string (get f payload)))
                   (payload_error (f +:+ " must be a non-empty string") f)) fields.
Definition requireObjectField (field : string) : validator := λ payload,
  assertPlainObject (get field payload) field.
Definition requireStringArrayField (field : string) : validator := λ payload,
  throw_if (negb (is_string_array (get field payload)))
    (payload_error (field +:+ " must be an array of strings") field).
Definition validateError : validator := λ payload,
  let e := get "error" payload in
  _ ← assertPlainObject e "error";
  _ ← throw_if (existsb (λ k, negb (k ∈s ["code"; "message"; "retryable"])) (object_keys e))
        (EventSchemaError "error contains an unknown field" "EXECUTION_EVENT_PAYLOAD_INVALID");
  _ ← requireStringFields ["code"; "message"] e;
  throw_if (negb (is_boolean (get "retryable" e)))
    (EventSchemaError "error.retryable must be a boolean" "EXECUTION_EVENT_PAYLOAD_INVALID").

Record lifecycle_item := MkItem {
  item_type : string;
  item_fields : list string;
  item_required : option (list string);
  item_strings : list string;
  item_validate : list validator;
}.

Definition lifecycle : list lifecycle_item :=
  [MkItem "ExecutionAuthorized"
     ["tool"; "capability"; "input_schema_version"; "output_schema_version"; "reversibility";
      "policy_version"; "deadline"; "cancellation_policy"; "idempotency_key";
      "resource_scope"; "input_digest"; "approval_id"; "warnings"]
     (Some ["tool"; "capability"; "input_schema_version"; "output_schema_version";
      "reversibility"; "policy_version"; "deadline"; "cancellation_policy";
      "idempotency_key"; "resource_scope"; "input_digest"; "warnings"])
     ["tool"; "capability"; "reversibility"; "policy_version"; "deadline";
      "cancellation_policy"; "idempotency_key"; "input_digest"]
     [requirePositiveIntegers ["input_schema_version"; "output_schema_version"];
      requireObjectField "resource_scope"; requireOptionalStrings ["approval_id"];
      requireStringArrayField "warnings"];
   MkItem "ExecutionStarted"
     ["tool"; "provider"; "idempotency_key"; "dispatch_attempt"; "deadline"] None
     ["tool"; "provider"; "idempotency_key"; "deadline"]
     [requirePositiveIntegers ["dispatch_attempt"]];
   MkItem "ExecutionSucceeded"
     ["result"; "output_schema_version"; "provider_receipt_ref"; "warnings"]
     (Some ["result"; "output_schema_version"; "warnings"]) []
     [requirePositiveIntegers ["output_schema_version"];
      requireOptionalStrings ["provider_receipt_ref"]; requireStringArrayField "warnings"];
   MkItem "ExecutionFailed" ["error"; "provider_receipt_ref"; "warnings"]
     (Some ["error"; "warnings"]) []
     [validateError; requireOptionalStrings ["provider_receipt_ref"];
      requireStringArrayField "warnings"];
   MkItem "ExecutionCancelled" ["reason"; "phase"; "provider_receipt_ref"; "warnings"]
     (Some ["reason"; "phase"; "warnings"]) ["reason"; "phase"]
     [requireOptionalStrings ["provider_receipt_ref"]; requireStringArrayField "warnings"];
   MkItem "ExecutionOutcomeUncertain" ["reason"; "provider_receipt_ref"; "warnings"]
     (Some ["reason"; "warnings"]) ["reason"]
     [requireOptionalStrings ["provider_receipt_ref"]; requireStringArrayField "warnings"];
   MkItem "ExecutionCompensated" ["prior_outcome_event_id"; "compensation_receipt_ref"] None
     ["prior_outcome_event_id"; "compensation_receipt_ref"] [];
   MkItem "ExecutionCompensationFailed"
     ["prior_outcome_event_id"; "error"; "compensation_receipt_ref"]
     (Some ["prior_outcome_event_id"; "error"]) ["prior_outcome_event_id"]
     [validateError; requireOptionalStrings ["compensation_receipt_ref"]]].

Definition createExecutionEventRegistry : result registry :=
  seal <$> new_registry
    ((λ item, {|
        raw_event_type := VStr (item_type item);
        raw_current_version := VNum (NInt 1);
        raw_versions :=
          [("1", lifecycle_schema (item_fields item)
                   (default (item_fields item) (item_required item))
                   (combineValidators
                      (requireStringFields (item_strings item) :: item_validate item)))];
        raw_upcasters := [] |}) <$> lifecycle).

Definition execution_registry : registry :=
  match createExecutionEventRegistry with Ok reg => reg | Throw _ => empty_registry end.

Lemma execution_registry_created : createExecutionEventRegistry = Ok execution_registry.
Proof.
  unfold execution_registry. destruct createExecutionEventRegistry as [r|e] eqn:E; [done|].
  exfalso. revert E. assert (is_ok createExecutionEventRegistry = true) as H by (vm_compute; done).
  by destruct createExecutionEventRegistry.
Qed.

(** ** Denials of the gateway *)

(** [encodeURIComponent] of an ASCII text. *)
Definition hex_upper (n : N) : ascii :=
  if (n <? 10)%N then Ascii.ascii_of_N (48 + n) else Ascii.ascii_of_N (55 + n).
Fixpoint encodeURIComponent (s : string) : string :=
  match s with
  | EmptyString => ""
  | String c s =>
      let n := Ascii.N_of_ascii c in
      (if alphanumeric c || existsb (Ascii.eqb c) (String.list_ascii_of_string "-_.!~*'()")
       then String c ""
       else String "%" (String (hex_upper (n / 16)) (String (hex_upper (n mod 16)) ""))) +:+
      encodeURIComponent s
  end.

Definition GATEWAY_DENIAL_AGGREGATE : string := "mcp_gateway".
Definition GATEWAY_DENIAL_CODES : list string := ["MCP_TOOL_UNKNOWN"; "MCP_SCOPE_DENIED"].

(** The append request of a denial: one [ExecutionFailed] fact on its own stream. *)
Definition buildGatewayDenialFact (serverId : string) (tool : value) (code : string)
    (rpcCode actor : value) (eventId occurredAt : string) : result value :=
  _ ← throw_if (negb (code ∈s GATEWAY_DENIAL_CODES))
        (EventSchemaError_with ("Unsupported gateway denial code: " +:+ code)
           "EXECUTION_EVENT_PAYLOAD_INVALID" (VObj [("code", VStr code)]));
  let toolName :=
    match tool with VStr s => String.substring 0 128 s | _ => "(invalid)" end in
  let fact := VObj
    [("event_id", VStr eventId); ("event_type", VStr "ExecutionFailed");
     ("schema_version", VNum (NInt 1)); ("occurred_at", VStr occurredAt);
     ("correlation_id", VStr ("mcp-gateway:" +:+ serverId));
     ("causation_id", VStr ("mcp-gateway-denial:" +:+ eventId));
     ("actor", actor); ("operation_id", VNull);
     ("payload", VObj
        [("error", VObj
            [("code", VStr code);
             ("message", VStr ("MCP gateway denied " +:+ quote toolName +:+ " (rpc_code " +:+
                (if is_integer rpcCode then js_string rpcCode else "n/a") +:+ ")"));
             ("retryable", VBool false)]);
         ("warnings", VArr [])]);
     ("evidence_refs",
        VArr [VStr ("hseos://mcp/" +:+ serverId +:+ "/denied/" +:+ encodeURIComponent toolName)])] in
  Ok (VObj [("aggregate_type", VStr GATEWAY_DENIAL_AGGREGATE);
            ("aggregate_id", VStr (serverId +:+ ":" +:+ eventId));
            ("expected_version", VNum (NInt 0)); ("events", VArr [fact])]).

(** A failure with a code and a message is a fact the registry accepts. *)
Lemma failed_fact_valid eventId occurred correlation causation actor op code message refs :
  code ≠ "" → message ≠ "" →
  let fact := VObj
    [("event_id", eventId); ("event_type", VStr "ExecutionFailed");
     ("schema_version", VNum (NInt 1)); ("occurred_at", occurred);
     ("correlation_id", correlation); ("causation_id", causation); ("actor", actor);
     ("operation_id", op);
     ("payload", VObj
        [("error", VObj [("code", VStr code); ("message", VStr message);
                         ("retryable", VBool false)]);
         ("warnings", VArr [])]);
     ("evidence_refs", refs)] in
  validateForAppend execution_registry fact = Ok fact.
Proof.
  intros Hc Hm. destruct code as [|c code]; [done|]. destruct message as [|d message]; [done|].
  vm_compute. reflexivity.
Qed.

(** The ledger does not validate facts of this aggregate type: they conform by
    construction. *)
Lemma denial_fact_appendable serverId tool code rpcCode actor eventId occurredAt request :
  buildGatewayDenialFact serverId tool code rpcCode actor eventId occurredAt = Ok request →
  ∃ fact, get "events" request = VArr [fact] ∧ validateForAppend execution_registry fact = Ok fact.
Proof.
  unfold buildGatewayDenialFact. intros H. inv_ok H. inv_throw_if. subst request.
  eexists. split; [reflexivity|]. apply failed_fact_valid.
  - intros ->. done.
  - by rewrite (app_String "M").
Qed.

(** ** Witnesses *)

Definition sample_schema (fields : list string) : raw_schema :=
  lifecycle_schema fields fields (combineValidators []).
Definition sample_definition : raw_definition :=
  {| raw_event_type := VStr "Renamed";
     raw_current_version := VNum (NInt 2);
     raw_versions := [("1", sample_schema ["old"]); ("2", sample_schema ["new"; "count"])];
     raw_upcasters :=
       [("1", VObj [("rename", VObj [("old", VStr "new")]);
                    ("add", VObj [("count", VNum (NInt 0))])])] |}.
Definition sample_registry : registry :=
  match new_registry [sample_definition] with Ok reg => reg | Throw _ => empty_registry end.
Definition sample_fact : value :=
  VObj [("event_type", VStr "Renamed"); ("schema_version", VNum (NInt 1));
        ("payload", VObj [("old", VStr "x")])].
Definition sample_upcaster : upcaster :=
  MkUpcaster [("old", "new")] [("count", VNum (NInt 0))] ["legacy"].

Lemma new_registry_wf_witness :
  ∃ reg, new_registry [sample_definition] = Ok reg ∧ wf_registry reg.
Proof.
  exists sample_registry. split; [vm_compute; reflexivity|].
  apply (new_registry_wf [sample_definition]). vm_compute. reflexivity.
Defined.

Lemma deserialize_appendable_witness :
  ∃ e', validateForAppend sample_registry e' = Ok e' ∧
    get "schema_version" e' = VNum (NInt 2) ∧
    ∀ k, k ≠ "schema_version" → k ≠ "payload" → get k e' = get k sample_fact.
Proof.
  destruct (lookup_definition sample_registry (VStr "Renamed")) as [d|] eqn:E;
    [|vm_compute in E; discriminate E].
  assert (Hd : current_version d = 2%Z) by (vm_compute in E; injection E as <-; reflexivity).
  eexists. rewrite <- Hd.
  eapply (deserialize_appendable String.leb sample_registry sample_fact).
  - exact E.
  - rewrite Hd. vm_compute. discriminate.
  - vm_compute. reflexivity.
Defined.

Lemma applyDeclarativeUpcaster_effect_witness :
  let payload := VObj [("old", VStr "x"); ("kept", VNull); ("legacy", VBool true)] in
  ∃ v, applyDeclarativeUpcaster String.leb payload sample_upcaster = Ok v ∧
    get "new" v = VStr "x" ∧ get "kept" v = VNull ∧ has_own "legacy" v = false.
Proof.
  intros payload. eexists. split; [vm_compute; reflexivity|].
  edestruct (applyDeclarativeUpcaster_effect String.leb payload sample_upcaster)
    as (Hkept & Hmoved & Hremoved & _).
  - reflexivity.
  - vm_compute. reflexivity.
  - apply (bool_decide_unpack _). vm_compute. exact I.
  - apply (bool_decide_unpack _). vm_compute. exact I.
  - vm_compute. reflexivity.
  - split_and!.
    + rewrite (Hmoved "old" "new"); [vm_compute; reflexivity| | |];
        apply (bool_decide_unpack _); vm_compute; exact I.
    + rewrite Hkept; [vm_compute; reflexivity|].
      apply (bool_decide_unpack _); vm_compute; exact I.
    + apply Hremoved; apply (bool_decide_unpack _); vm_compute; exact I.
Defined.
