(* ===== verification/Time.v ===== *)
(** * Canonical UTC timestamps

    [Date.prototype.toISOString], the parsing of such texts, and the triple check
    (pattern, valid date, same text again) by which the event ledger and the
    approval store accept a timestamp.  Approval windows and projections compare
    timestamps as strings: on canonical ones that is the order of time. *)
From S2P Require Import Prelude JsValue.

(** ** Dates *)

(** Days from 0000-03-01 to March 1st of year [y]. *)
Definition year_start (y : Z) : Z := (365 * y + y / 4 - y / 100 + y / 400)%Z.
(** 1970-01-01 in that count. *)
Definition EPOCH : Z := 719468.

Definition days_from_civil (y m d : Z) : Z :=
  let y' := if (m <=? 2)%Z then (y - 1)%Z else y in
  let m' := if (m <=? 2)%Z then (m + 9)%Z else (m - 3)%Z in
  (year_start y' + (153 * m' + 2) / 5 + d - 1 - EPOCH)%Z.

(** The March-based year of a day count, by centuries, four-year cycles and years. *)
Definition year_of (n : Z) : Z :=
  (let era := n / 146097 in
   let doe := n mod 146097 in
   let century := Z.min (doe / 36524) 3 in
   let doc := doe - century * 36524 in
   let cycle := doc / 1461 in
   let year := Z.min ((doc - cycle * 1461) / 365) 3 in
   400 * era + 100 * century + 4 * cycle + year)%Z.

Definition civil_from_days (z : Z) : Z * Z * Z :=
  (let n := z + EPOCH in
   let y := year_of n in
   let doy := n - year_start y in
   let m := (5 * doy + 2) / 153 in
   let d := doy - (153 * m + 2) / 5 + 1 in
   if m <? 10 then (y, m + 3, d) else (y + 1, m - 9, d))%Z.

(** ** Text *)

Definition digit_of (n : Z) : ascii := Ascii.ascii_of_N (48 + Z.to_N n).
Fixpoint pad (width : nat) (n : Z) : string :=
  match width with
  | O => ""
  | S w => String (digit_of (n / 10 ^ Z.of_nat w)) (pad w (n mod 10 ^ Z.of_nat w))
  end.

(** A text made of padded numbers, each followed by a separator. *)
Fixpoint format (template : list (nat * ascii)) (fields : list Z) : string :=
  match template, fields with
  | (w, c) :: template, n :: fields => pad w n +:+ String c (format template fields)
  | _, _ => ""
  end.

Definition digit_value (c : ascii) : option Z :=
  let n := Z.of_N (Ascii.N_of_ascii c) in
  if (48 <=? n)%Z && (n <=? 57)%Z then Some (n - 48)%Z else None.
Fixpoint scan_number (width : nat) (s : string) : option (Z * string) :=
  match width with
  | O => Some (0%Z, s)
  | S w =>
      match s with
      | EmptyString => None
      | String c s =>
          d ← digit_value c; '(n, rest) ← scan_number w s;
          Some (d * 10 ^ Z.of_nat w + n, rest)%Z
      end
  end.
Fixpoint scan (template : list (nat * ascii)) (s : string) : option (list Z) :=
  match template with
  | [] => if s =s "" then Some [] else None
  | (w, c) :: template =>
      '(n, rest) ← scan_number w s;
      match rest with
      | String c' rest =>
          if Ascii.eqb c c' then (λ ns, n :: ns) <$> scan template rest else None
      | EmptyString => None
      end
  end.

(** [/^\d{4}-\d{2}-\d{2}T\d{2}:\d{2}:\d{2}\.\d{3}Z$/] *)
Definition UTC_TIMESTAMP_PATTERN : list (nat * ascii) :=
  [(4, "-"); (2, "-"); (2, "T"); (2, ":"); (2, ":"); (2, "."); (3, "Z")]%char%nat.

Definition MS_PER_DAY : Z := 86400000.

(** [new Date(t).toISOString()], for a year written with four digits. *)
Definition date_fields (t : Z) : list Z :=
  (let '(y, m, d) := civil_from_days (t / MS_PER_DAY) in
   let ms := t mod MS_PER_DAY in
   [y; m; d; ms / 3600000; ms / 60000 mod 60; ms / 1000 mod 60; ms mod 1000])%Z.
Definition MIN_TIME : Z := (days_from_civil 0 1 1 * MS_PER_DAY)%Z.
Definition MAX_TIME : Z := (days_from_civil 10000 1 1 * MS_PER_DAY)%Z.
Definition expanded_year (y : Z) : string :=
  ((if (y <? 0)%Z then "-" else "+") +:+ pad 6 (Z.abs y)).
Definition toISOString (t : Z) : string :=
  match date_fields t with
  | y :: rest =>
      if (0 <=? y)%Z && (y <=? 9999)%Z then format UTC_TIMESTAMP_PATTERN (y :: rest)
      else expanded_year y +:+ String "-" (format (tail UTC_TIMESTAMP_PATTERN) rest)
  | [] => ""
  end.

(** [new Date(s).getTime()] of a text of that pattern; [None] is [NaN].  A day of
    the month past its end denotes a day of the next one, and 24:00:00.000 the
    end of the day. *)
Definition date_value (fields : list Z) : option Z :=
  match fields with
  | [y; m; d; h; mi; s; ms] =>
      if (1 <=? m)%Z && (m <=? 12)%Z && (1 <=? d)%Z && (d <=? 31)%Z &&
         ((h <=? 23)%Z || ((h =? 24)%Z && (mi =? 0)%Z && (s =? 0)%Z && (ms =? 0)%Z)) &&
         (mi <=? 59)%Z && (s <=? 59)%Z
      then Some (days_from_civil y m d * MS_PER_DAY +
                 h * 3600000 + mi * 60000 + s * 1000 + ms)%Z
      else None
  | _ => None
  end.

(** The pattern matches, the date exists and prints as the same text. *)
Definition is_canonical_timestamp (s : string) : bool :=
  match scan UTC_TIMESTAMP_PATTERN s with
  | Some fields =>
      match date_value fields with
      | Some t => toISOString t =s s
      | None => false
      end
  | None => false
  end.

(** The time a canonical timestamp denotes. *)
Definition time_of (s : string) : Z :=
  default 0%Z (fields ← scan UTC_TIMESTAMP_PATTERN s; date_value fields).

Example timestamp_examples :
  toISOString <$> [0; 1709251199999; -62167219200000]%Z =
    ["1970-01-01T00:00:00.000Z"; "2024-02-29T23:59:59.999Z"; "0000-01-01T00:00:00.000Z"] ∧
  is_canonical_timestamp <$>
    ["2024-02-29T23:59:59.999Z"; "2023-02-29T00:00:00.000Z"; "2024-01-01T24:00:00.000Z";
     "2024-01-01T00:00:00Z"] = [true; false; false; false].
Proof. split; vm_compute; reflexivity. Qed.

(** ** Numbers and their texts *)

Lemma digit_of_code n : (0 ≤ n < 10)%Z → Ascii.N_of_ascii (digit_of n) = (48 + Z.to_N n)%N.
Proof. intros H. apply Ascii.N_ascii_embedding. lia. Qed.

Lemma digit_value_of n : (0 ≤ n < 10)%Z → digit_value (digit_of n) = Some n.
Proof.
  intros H. unfold digit_value. rewrite digit_of_code by done.
  destruct (_ && _) eqn:E; [f_equal; lia|].
  apply andb_false_iff in E as [E|E]; bool_props; lia.
Qed.

Lemma digit_of_value c d : digit_value c = Some d → (0 ≤ d < 10)%Z ∧ c = digit_of d.
Proof.
  unfold digit_value. intros H. case_if_in H; [|done]. bool_props. simplify_eq.
  split; [lia|]. unfold digit_of. rewrite <- (Ascii.ascii_N_embedding c) at 1. f_equal. lia.
Qed.

Definition fits (wn : (nat * ascii) * Z) : Prop := (0 ≤ wn.2 < 10 ^ Z.of_nat wn.1.1)%Z.

Lemma pow_succ w : (10 ^ Z.of_nat (S w) = 10 * 10 ^ Z.of_nat w)%Z.
Proof. rewrite Nat2Z.inj_succ, Z.pow_succ_r; lia. Qed.
Lemma pow_pos w : (0 < 10 ^ Z.of_nat w)%Z.
Proof. apply Z.pow_pos_nonneg; lia. Qed.

Lemma lead_digit w n : (0 ≤ n < 10 ^ Z.of_nat (S w))%Z → (0 ≤ n / 10 ^ Z.of_nat w < 10)%Z.
Proof.
  rewrite pow_succ. pose proof (pow_pos w). intros H1. split.
  - apply Z.div_pos; lia.
  - apply Z.div_lt_upper_bound; lia.
Qed.

Lemma app_s_nil s : (s +:+ "") = s.
Proof. induction s as [|c s IH]; [done|]. by apply (f_equal (String c)). Qed.

Lemma scan_pad w n r : (0 ≤ n < 10 ^ Z.of_nat w)%Z → scan_number w (pad w n +:+ r) = Some (n, r).
Proof.
  revert n. induction w as [|w IH]; intros n H.
  - simpl in *. assert (n = 0%Z) as -> by lia. done.
  - cbn [pad scan_number].
    change (String ?a ?b +:+ r) with (String a (b +:+ r)). cbn [scan_number].
    rewrite digit_value_of by by apply lead_digit. cbn.
    pose proof (pow_pos w). rewrite IH by (apply Z.mod_pos_bound; lia). cbn. do 2 f_equal.
    pose proof (Z.div_mod n (10 ^ Z.of_nat w)). lia.
Qed.

Lemma pad_scan w s n r :
  scan_number w s = Some (n, r) → (0 ≤ n < 10 ^ Z.of_nat w)%Z ∧ s = pad w n +:+ r.
Proof.
  revert s n. induction w as [|w IH]; intros s n H; cbn [scan_number] in H.
  - simplify_eq. split; [simpl; lia|done].
  - destruct s as [|c s]; [done|]. destruct (digit_value c) as [d|] eqn:Hd; [|done].
    cbn in H. destruct (scan_number w s) as [[n' r']|] eqn:E; [|done]. cbn in H. simplify_eq.
    apply digit_of_value in Hd as [Hd ->]. apply IH in E as [Hn ->].
    rewrite pow_succ. split; [nia|]. cbn [pad].
    change (String ?a ?b +:+ r) with (String a (b +:+ r)).
    assert (Hm : ((d * 10 ^ Z.of_nat w + n') mod 10 ^ Z.of_nat w = n')%Z).
    { rewrite Z.add_comm, Z.mod_add, Z.mod_small; lia. }
    rewrite Hm, Z.div_add_l, Z.div_small, Z.add_0_r by lia. done.
Qed.

Lemma scan_format template fields :
  length template = length fields → Forall fits (zip template fields) →
  scan template (format template fields) = Some fields.
Proof.
  revert fields. induction template as [|[w c] tp IH]; intros [|n ns] Hl HF; try done.
  simpl in HF. apply Forall_cons in HF as [Hn HF]. cbn [format scan].
  rewrite scan_pad by done. cbn. rewrite Ascii.eqb_refl, IH by (simpl in Hl; done || lia). done.
Qed.

Lemma format_scan template s fields :
  scan template s = Some fields →
  length template = length fields ∧ Forall fits (zip template fields) ∧
  s = format template fields.
Proof.
  revert s fields. induction template as [|[w c] tp IH]; intros s fields H; cbn [scan] in H.
  - case_if_in H; [|done]. bool_props. simplify_eq. done.
  - destruct (scan_number w s) as [[n r]|] eqn:E; [|done]. cbn in H.
    destruct r as [|c' r]; [done|]. destruct (Ascii.eqb c c') eqn:Ec; [|done].
    apply Ascii.eqb_eq in Ec as <-. destruct (scan tp r) as [ns|] eqn:Es; [|done].
    cbn in H. simplify_eq. apply pad_scan in E as [Hn ->].
    destruct (IH _ _ Es) as (Hl & HF & ->). split_and!; [simpl; lia|by constructor|done].
Qed.

(** ** The order of padded texts *)

Fixpoint lex (fs gs : list Z) : comparison :=
  match fs, gs with
  | f :: fs, g :: gs => match (f ?= g)%Z with Eq => lex fs gs | c => c end
  | _, _ => Eq
  end.

Lemma compare_cons a b s t :
  String.compare (String a s) (String b t) =
  match Ascii.compare a b with Eq => String.compare s t | c => c end.
Proof. done. Qed.

Lemma digit_compare a b : (0 ≤ a < 10)%Z → (0 ≤ b < 10)%Z →
  Ascii.compare (digit_of a) (digit_of b) = (a ?= b)%Z.
Proof.
  intros Ha Hb. unfold Ascii.compare. rewrite !digit_of_code by done.
  rewrite <- N2Z.inj_compare. rewrite !N2Z.inj_add, !Z2N.id by lia. apply Z.add_compare_mono_l.
Qed.

Lemma quotient_compare p a b : (0 < p)%Z →
  (a ?= b)%Z = match (a / p ?= b / p)%Z with Eq => (a mod p ?= b mod p)%Z | c => c end.
Proof.
  intros Hp. pose proof (Z.mod_pos_bound a p Hp). pose proof (Z.mod_pos_bound b p Hp).
  pose proof (Z.div_mod a p ltac:(lia)) as Ha. pose proof (Z.div_mod b p ltac:(lia)) as Hb.
  generalize dependent (a / p)%Z. generalize dependent (b / p)%Z.
  generalize dependent (a mod p)%Z. generalize dependent (b mod p)%Z.
  intros rb Hrb ra Hra qb -> qa ->.
  destruct (qa ?= qb)%Z eqn:E.
  - apply Z.compare_eq in E as ->. apply Z.add_compare_mono_l.
  - rewrite Z.compare_lt_iff in E |- *.
    assert (p * (qa + 1) ≤ p * qb)%Z by (apply Z.mul_le_mono_nonneg_l; lia). lia.
  - rewrite Z.compare_gt_iff in E |- *.
    assert (p * (qb + 1) ≤ p * qa)%Z by (apply Z.mul_le_mono_nonneg_l; lia). lia.
Qed.

Lemma pad_compare w a b r r' :
  (0 ≤ a < 10 ^ Z.of_nat w)%Z → (0 ≤ b < 10 ^ Z.of_nat w)%Z →
  String.compare (pad w a +:+ r) (pad w b +:+ r') =
  match (a ?= b)%Z with Eq => String.compare r r' | c => c end.
Proof.
  revert a b. induction w as [|w IH]; intros a b Ha Hb.
  - simpl in *. assert (a = 0 ∧ b = 0)%Z as [-> ->] by lia. done.
  - cbn [pad]. change (String ?a ?b +:+ r) with (String a (b +:+ r)).
    change (String ?a ?b +:+ r') with (String a (b +:+ r')).
    rewrite compare_cons, digit_compare by by apply lead_digit. pose proof (pow_pos w) as Hp.
    rewrite IH by (apply Z.mod_pos_bound; lia).
    rewrite (quotient_compare (10 ^ Z.of_nat w) a b Hp).
    by destruct (_ ?= _)%Z.
Qed.

Lemma format_compare template fs gs :
  length template = length fs → length template = length gs →
  Forall fits (zip template fs) → Forall fits (zip template gs) →
  String.compare (format template fs) (format template gs) = lex fs gs.
Proof.
  revert fs gs. induction template as [|[w c] tp IH]; intros [|f fs] [|g gs] Hf Hg HF HG; try done.
  cbn [zip zip_with] in HF, HG. apply Forall_cons in HF as [H1 HF]. apply Forall_cons in HG as [H2 HG].
  cbn [format lex]. rewrite pad_compare by done. destruct (f ?= g)%Z; [|done..].
  rewrite compare_cons. unfold Ascii.compare. rewrite N.compare_refl.
  apply IH; simpl in *; try done; lia.
Qed.

(** ** Dates and day counts *)

Lemma year_of_bounds n :
  (year_start (year_of n) ≤ n < year_start (year_of n + 1))%Z.
Proof. unfold year_of, year_start. Z.to_euclidean_division_equations. lia. Qed.

Lemma year_start_mono y y' : (y ≤ y')%Z → (year_start y ≤ year_start y')%Z.
Proof. unfold year_start. Z.to_euclidean_division_equations. lia. Qed.
Lemma year_start_length y : (365 ≤ year_start (y + 1) - year_start y ≤ 366)%Z.
Proof. unfold year_start. Z.to_euclidean_division_equations. lia. Qed.

(** The month and the day of a day of the March-based year. *)
Lemma month_bounds doy : (0 ≤ doy < 366)%Z →
  (let m := (5 * doy + 2) / 153 in
   0 ≤ m < 12 ∧ 1 ≤ doy - (153 * m + 2) / 5 + 1 ≤ 31)%Z.
Proof. cbn zeta. intros H. Z.to_euclidean_division_equations. lia. Qed.

Lemma month_mono a b : (0 ≤ a)%Z → (a < b)%Z → (b < 366)%Z →
  (let m x := (5 * x + 2) / 153 in
   let d x := x - (153 * m x + 2) / 5 + 1 in
   m a < m b ∨ (m a = m b ∧ d a < d b))%Z.
Proof. cbv zeta beta. intros ???. Z.to_euclidean_division_equations. lia. Qed.

(** The components of the date of day [z]. *)
Lemma civil_spec z :
  ∃ Y doy, let '(y, m, d) := civil_from_days z in
  (0 ≤ doy < 366 ∧ z + EPOCH = year_start Y + doy ∧ year_start Y + doy < year_start (Y + 1) ∧
   let M := (5 * doy + 2) / 153 in
   1 ≤ m ≤ 12 ∧ 1 ≤ d ≤ 31 ∧ 12 * y + m = 12 * Y + M + 3 ∧ d = doy - (153 * M + 2) / 5 + 1)%Z.
Proof.
  unfold civil_from_days. pose proof (year_of_bounds (z + EPOCH)) as Hb.
  set (Y := year_of (z + EPOCH)) in *. pose proof (year_start_length Y).
  exists Y, (z + EPOCH - year_start Y)%Z.
  assert (Hd : (0 ≤ z + EPOCH - year_start Y < 366)%Z) by lia.
  pose proof (month_bounds _ Hd) as [Hm Hday]. cbn zeta in *.
  destruct (_ <? 10)%Z eqn:E; bool_props; split_and!; try done; lia.
Qed.

Lemma civil_round_trip z :
  let '(y, m, d) := civil_from_days z in days_from_civil y m d = z.
Proof.
  destruct (civil_spec z) as (Y & doy & H). destruct (civil_from_days z) as [[y m] d].
  cbn zeta in H. destruct H as (Hdoy & Hz & _ & Hm & Hd & Hym & ->).
  pose proof (month_bounds _ Hdoy) as [HM _]. cbn zeta in HM.
  set (M := ((5 * doy + 2) / 153)%Z) in *. unfold days_from_civil.
  destruct (m <=? 2)%Z eqn:E; bool_props.
  - assert (M = m + 9 ∧ Y = y - 1)%Z as [-> ->] by lia. lia.
  - assert (M = m - 3 ∧ Y = y)%Z as [-> ->] by lia. lia.
Qed.

Lemma civil_order z z' : (z < z')%Z →
  let '(y, m, d) := civil_from_days z in
  let '(y', m', d') := civil_from_days z' in
  (y < y' ∨ (y = y' ∧ (m < m' ∨ (m = m' ∧ d < d'))))%Z.
Proof.
  intros Hlt. destruct (civil_spec z) as (Y & doy & H), (civil_spec z') as (Y' & doy' & H').
  destruct (civil_from_days z) as [[y m] d], (civil_from_days z') as [[y' m'] d'].
  cbn zeta in H, H'. destruct H as (Hdoy & Hz & Hend & Hm & Hd & Hym & ->).
  destruct H' as (Hdoy' & Hz' & Hend' & Hm' & Hd' & Hym' & ->).
  pose proof (month_bounds _ Hdoy) as [HM _]. pose proof (month_bounds _ Hdoy') as [HM' _].
  cbn zeta in *. destruct (Z.lt_trichotomy Y Y') as [HY|[HY|HY]].
  - clear - HY Hm Hm' Hym Hym' HM HM'. lia.
  - subst Y'. pose proof (month_mono doy doy') as Hmono. cbv zeta beta in Hmono.
    specialize (Hmono ltac:(lia) ltac:(lia) ltac:(lia)).
    clear - Hmono Hm Hm' Hym Hym' HM HM'.
    generalize dependent ((5 * doy + 2) / 153)%Z. intros M.
    generalize dependent ((5 * doy' + 2) / 153)%Z. intros M' Hym' HM' Hym HM Hmono.
    destruct Hmono as [Hmono|[-> Hmono]]; [lia|]. right. split; [lia|]. right. split; [lia|done].
  - pose proof (year_start_mono (Y' + 1) Y ltac:(lia)). lia.
Qed.

(** ** Times with a four-digit year *)

Definition in_range (t : Z) : Prop := (MIN_TIME ≤ t < MAX_TIME)%Z.
Definition year_at (t : Z) : Z := (civil_from_days (t / MS_PER_DAY)).1.1.

Lemma civil_month_day z :
  let '(y, m, d) := civil_from_days z in (1 ≤ m ≤ 12 ∧ 1 ≤ d ≤ 31)%Z.
Proof.
  destruct (civil_spec z) as (Y & doy & H). destruct (civil_from_days z) as [[y m] d].
  cbn zeta in H. tauto.
Qed.

Lemma year_mono z z' : (z ≤ z')%Z → ((civil_from_days z).1.1 ≤ (civil_from_days z').1.1)%Z.
Proof.
  intros H. destruct (decide (z = z')) as [->|]; [lia|].
  pose proof (civil_order z z' ltac:(lia)) as Ho.
  destruct (civil_from_days z) as [[y m] d], (civil_from_days z') as [[y' m'] d']. simpl. lia.
Qed.

Lemma in_range_year t : in_range t ↔ (0 ≤ year_at t ≤ 9999)%Z.
Proof.
  unfold in_range, year_at, MIN_TIME, MAX_TIME.
  set (z0 := days_from_civil 0 1 1). set (z1 := days_from_civil 10000 1 1).
  assert (Hlow : (z0 * MS_PER_DAY ≤ t)%Z ↔ (z0 ≤ t / MS_PER_DAY)%Z).
  { unfold MS_PER_DAY. Z.to_euclidean_division_equations. lia. }
  assert (Hhigh : (t < z1 * MS_PER_DAY)%Z ↔ (t / MS_PER_DAY < z1)%Z).
  { unfold MS_PER_DAY. Z.to_euclidean_division_equations. lia. }
  rewrite Hlow, Hhigh. generalize (t / MS_PER_DAY)%Z. intros z.
  assert (H0 : civil_from_days (z0 - 1) = (-1, 12, 31)%Z) by reflexivity.
  assert (H0' : civil_from_days z0 = (0, 1, 1)%Z) by reflexivity.
  assert (H1 : civil_from_days z1 = (10000, 1, 1)%Z) by reflexivity.
  assert (H1' : civil_from_days (z1 - 1) = (9999, 12, 31)%Z) by reflexivity.
  split.
  - intros [Ha Hb]. pose proof (year_mono z0 z Ha) as Hy. pose proof (year_mono z (z1 - 1) ltac:(lia)) as Hy'.
    rewrite H0' in Hy. rewrite H1' in Hy'. done.
  - intros [Ha Hb]. split.
    + destruct (Z.le_gt_cases z0 z) as [|Hlt]; [done|].
      pose proof (year_mono z (z0 - 1) ltac:(lia)) as Hy. rewrite H0 in Hy. simpl in Hy. lia.
    + destruct (Z.lt_ge_cases z z1) as [|Hge]; [done|].
      pose proof (year_mono z1 z Hge) as Hy. rewrite H1 in Hy. simpl in Hy. lia.
Qed.

Lemma toISOString_format t : in_range t → toISOString t = format UTC_TIMESTAMP_PATTERN (date_fields t).
Proof.
  intros Hy%in_range_year. unfold year_at in Hy. unfold toISOString, date_fields.
  destruct (civil_from_days _) as [[y m] d]. simpl in Hy. cbn zeta.
  assert ((0 <=? y)%Z && (y <=? 9999)%Z = true) as ->; [|done].
  apply andb_true_iff. split; apply Z.leb_le; lia.
Qed.

Lemma date_fields_fit t :
  in_range t → length UTC_TIMESTAMP_PATTERN = length (date_fields t) ∧
  Forall fits (zip UTC_TIMESTAMP_PATTERN (date_fields t)).
Proof.
  intros Hy%in_range_year. unfold year_at in Hy. unfold date_fields.
  pose proof (civil_month_day (t / MS_PER_DAY)) as Hmd.
  destruct (civil_from_days _) as [[y m] d]. simpl in Hy. split; [done|].
  pose proof (Z.mod_pos_bound t MS_PER_DAY ltac:(done)) as Hms. unfold MS_PER_DAY in *.
  set (ms := (t mod _)%Z) in *. clearbody ms.
  repeat constructor; unfold fits; simpl; try lia;
    clear - Hms; Z.to_euclidean_division_equations; lia.
Qed.

Lemma date_value_fields t : date_value (date_fields t) = Some t.
Proof.
  unfold date_fields. pose proof (civil_month_day (t / MS_PER_DAY)) as Hmd.
  pose proof (civil_round_trip (t / MS_PER_DAY)) as Hz.
  destruct (civil_from_days _) as [[y m] d]. cbn zeta. unfold date_value.
  pose proof (Z.mod_pos_bound t MS_PER_DAY ltac:(done)) as Hms.
  pose proof (Z.div_mod t MS_PER_DAY ltac:(done)) as Ht.
  rewrite Hz. set (q := (t / MS_PER_DAY)%Z) in *. set (ms := (t mod MS_PER_DAY)%Z) in *.
  clearbody q ms. unfold MS_PER_DAY in *.
  assert (H : (0 ≤ ms / 3600000 ≤ 23 ∧ ms / 60000 mod 60 ≤ 59 ∧ ms / 1000 mod 60 ≤ 59 ∧
    ms / 3600000 * 3600000 + ms / 60000 mod 60 * 60000 + ms / 1000 mod 60 * 1000 + ms mod 1000
      = ms)%Z).
  { clear - Hms. Z.to_euclidean_division_equations. lia. }
  destruct H as (Hh & Hmi & Hs & Hsum).
  assert (((1 <=? m) && (m <=? 12) && (1 <=? d) && (d <=? 31) &&
    ((ms / 3600000 <=? 23) || ((ms / 3600000 =? 24) && (ms / 60000 mod 60 =? 0) &&
      (ms / 1000 mod 60 =? 0) && (ms mod 1000 =? 0))) &&
    (ms / 60000 mod 60 <=? 59) && (ms / 1000 mod 60 <=? 59))%Z = true) as ->; [|f_equal; lia].
  rewrite !andb_true_iff, orb_true_iff, !Z.leb_le. tauto.
Qed.

Lemma lex_lt f g fs gs : (f < g)%Z → lex (f :: fs) (g :: gs) = Lt.
Proof. intros H. simpl. by rewrite (proj2 (Z.compare_lt_iff f g) H). Qed.
Lemma lex_eq f fs gs : lex (f :: fs) (f :: gs) = lex fs gs.
Proof. simpl. by rewrite Z.compare_refl. Qed.

Lemma date_fields_lex t t' : (t < t')%Z → lex (date_fields t) (date_fields t') = Lt.
Proof.
  intros Hlt. unfold date_fields.
  assert (Hd : (t / MS_PER_DAY < t' / MS_PER_DAY ∨ (t / MS_PER_DAY = t' / MS_PER_DAY ∧
    t mod MS_PER_DAY < t' mod MS_PER_DAY))%Z).
  { unfold MS_PER_DAY. Z.to_euclidean_division_equations. lia. }
  destruct Hd as [Hd|[-> Hms]].
  - apply civil_order in Hd. destruct (civil_from_days _) as [[y m] d], (civil_from_days _) as [[y' m'] d'].
    cbn zeta. destruct Hd as [?|[-> [?|[-> ?]]]]; rewrite ?lex_eq; by apply lex_lt.
  - destruct (civil_from_days _) as [[y m] d]. cbn zeta. rewrite !lex_eq.
    set (a := (t mod MS_PER_DAY)%Z) in *. set (b := (t' mod MS_PER_DAY)%Z) in *. clearbody a b.
    assert (H : (a / 3600000 < b / 3600000 ∨ (a / 3600000 = b / 3600000 ∧
      (a / 60000 mod 60 < b / 60000 mod 60 ∨ (a / 60000 mod 60 = b / 60000 mod 60 ∧
      (a / 1000 mod 60 < b / 1000 mod 60 ∨ (a / 1000 mod 60 = b / 1000 mod 60 ∧
       a mod 1000 < b mod 1000))))))%Z).
    { clear - Hms. Z.to_euclidean_division_equations. lia. }
    destruct H as [?|[-> [?|[-> [?|[-> ?]]]]]]; rewrite ?lex_eq; by apply lex_lt.
Qed.

Lemma lex_refl fs : lex fs fs = Eq.
Proof. induction fs as [|f fs IH]; [done|]. by rewrite lex_eq. Qed.
Lemma lex_antisym fs gs : lex gs fs = CompOpp (lex fs gs).
Proof.
  revert gs. induction fs as [|f fs IH]; intros [|g gs]; try done. simpl.
  rewrite (Z.compare_antisym f g), IH. by destruct (f ?= g)%Z.
Qed.

Lemma toISOString_compare t t' :
  in_range t → in_range t' →
  String.compare (toISOString t) (toISOString t') = (t ?= t')%Z.
Proof.
  intros H H'. rewrite !toISOString_format by done.
  destruct (date_fields_fit t H) as [Hl HF], (date_fields_fit t' H') as [Hl' HF'].
  rewrite format_compare by done. destruct (Z.compare_spec t t') as [->|Hlt|Hgt].
  - apply lex_refl.
  - by apply date_fields_lex.
  - by rewrite lex_antisym, date_fields_lex.
Qed.

Lemma canonical_of_time t : in_range t →
  is_canonical_timestamp (toISOString t) = true ∧ time_of (toISOString t) = t.
Proof.
  intros H. destruct (date_fields_fit t H) as [Hl HF].
  unfold is_canonical_timestamp, time_of. rewrite toISOString_format, scan_format by done.
  cbn [mbind option_bind]. rewrite date_value_fields. split; [|done].
  by rewrite toISOString_format, String.eqb_refl.
Qed.

Lemma canonical_is_printed s :
  is_canonical_timestamp s = true → ∃ t, in_range t ∧ s = toISOString t.
Proof.
  unfold is_canonical_timestamp. destruct (scan _ s) as [fields|] eqn:Hs; [|done].
  destruct (date_value fields) as [t|]; [|done]. intros H%String.eqb_eq.
  exists t. split; [|done]. apply in_range_year. unfold year_at.
  destruct (decide (0 ≤ (civil_from_days (t / MS_PER_DAY)).1.1 ≤ 9999)%Z) as [|Hn]; [done|].
  exfalso. unfold toISOString, date_fields in H.
  destruct (civil_from_days _) as [[y m] d]. simpl in Hn. cbn zeta in H.
  assert ((0 <=? y)%Z && (y <=? 9999)%Z = false) as E.
  { apply not_true_iff_false. rewrite andb_true_iff, !Z.leb_le. lia. }
  rewrite E in H. subst s. unfold expanded_year in Hs. by destruct (y <? 0)%Z.
Qed.

Lemma canonical_compare s s' :
  is_canonical_timestamp s = true → is_canonical_timestamp s' = true →
  String.compare s s' = (time_of s ?= time_of s')%Z.
Proof.
  intros (t & Ht & ->)%canonical_is_printed (t' & Ht' & ->)%canonical_is_printed.
  rewrite toISOString_compare by done. by rewrite (proj2 (canonical_of_time t Ht)), (proj2 (canonical_of_time t' Ht')).
Qed.

(** [a < b] on strings. *)
Definition string_lt (a b : string) : bool := String.ltb a b.

Lemma canonical_lt s s' :
  is_canonical_timestamp s = true → is_canonical_timestamp s' = true →
  string_lt s s' = (time_of s <? time_of s')%Z.
Proof. intros H H'. unfold string_lt, String.ltb, Z.ltb. by rewrite canonical_compare. Qed.

(** The triple check accepts exactly the texts that [toISOString] gives to the
    times of the years 0 to 9999; comparing two accepted texts, as the approval
    window and the projections do, is comparing the times. *)
Theorem canonical_timestamps s s' :
  (is_canonical_timestamp s = true ↔ ∃ t, in_range t ∧ s = toISOString t) ∧
  (is_canonical_timestamp s = true → is_canonical_timestamp s' = true →
   string_lt s s' = (time_of s <? time_of s')%Z).
Proof.
  split; [|apply canonical_lt]. split; [apply canonical_is_printed|].
  intros (t & H & ->). by apply canonical_of_time.
Qed.
