(* ===== verification/Ledger.v ===== *)
(** * The execution event ledger (tools/mcp-project-state/lib/execution-event-ledger.js)

    Events are appended to streams under optimistic concurrency control and read
    back per stream, globally, or for a set of aggregates.  The database is the
    table [execution_events] with the two triggers that guard an insertion; every
    other [CHECK] of the schema restates what [normalizeEvent] has established.  A
    JSON column is kept as the value its text parses to, and two columns compare
    equal when their texts do.  The text of the current time ([recorded_at]) is an
    argument of the operations that insert.  The latency metric is left out. *)
From S2P Require Import Prelude JsValue CanonicalJson StrictJson EventRegistry Time.

(** ** Errors *)

Definition InvalidEventError_at (message : string) (details : list (string * value)) : value :=
  error_with "InvalidEventError" message "EXECUTION_EVENT_INVALID" (VObj details).
Definition InvalidEventError (message : string) : value := InvalidEventError_at message [].
Definition invalid_path (message path : string) : value :=
  InvalidEventError_at message [("path", VStr path)].
Definition DuplicateEventError (eventIds : list string) : value :=
  error_with "DuplicateEventError"
    "Event identifiers already exist with different or partial content"
    "EXECUTION_EVENT_ID_CONFLICT" (VObj [("event_ids", VArr (VStr <$> eventIds))]).

Record stream := MkStream { aggregate_id : string; aggregate_type : string }.
#[export] Instance stream_eq_dec : EqDecision stream.
Proof. solve_decision. Defined.

Definition ConcurrencyConflictError (s : stream) (expected current : Z) : value :=
  error_with "ConcurrencyConflictError"
    ("Expected " +:+ aggregate_type s +:+ "/" +:+ aggregate_id s +:+ " at version " +:+
     pretty expected +:+ ", current version is " +:+ pretty current)
    "EXECUTION_STREAM_VERSION_CONFLICT"
    (VObj [("aggregate_id", VStr (aggregate_id s)); ("aggregate_type", VStr (aggregate_type s));
           ("expected_version", VNum (NInt expected)); ("current_version", VNum (NInt current))]).
(** [RAISE(ABORT, message)] of a trigger. *)
Definition SqliteError (message : string) : value :=
  error "SqliteError" message "SQLITE_CONSTRAINT_TRIGGER".

(** ** Rows *)

(** The columns of an event before it is stored. *)
Record candidate := MkCandidate {
  event_id : string;
  event_type : string;
  event_stream : stream;
  stream_sequence : Z;
  schema_version : Z;
  occurred_at : string;
  correlation_id : string;
  causation_id : string;
  actor_json : value;
  operation_id : option string;
  payload_json : value;
  evidence_refs_json : value;
}.
Record row := MkRow { position : Z; columns : candidate; recorded_at : string }.

#[export] Instance candidate_eq_dec : EqDecision candidate.
Proof. solve_decision. Defined.
#[export] Instance row_eq_dec : EqDecision row.
Proof. solve_decision. Defined.

Record database := MkDb {
  execution_events : list row;
  execution_event_schemas : list (string * Z);
}.

(** ** Normalisation *)

Definition SENSITIVE_KEYS : list string :=
  ["access_token"; "api_key"; "approval_token"; "auth"; "authentication"; "authorization";
   "client_secret"; "cookie"; "credential"; "credentials"; "password"; "private_key";
   "refresh_token"; "secret"; "session_cookie"; "set_cookie"; "token"].

Definition hex_char (c : ascii) : bool :=
  let n := Ascii.N_of_ascii c in
  digit c || ((97 <=? n)%N && (n <=? 102)%N) || ((65 <=? n)%N && (n <=? 70)%N).
(** [/^[0-9a-f]{8}-[0-9a-f]{4}-[0-9a-f]{4}-[0-9a-f]{4}-[0-9a-f]{12}$/i] *)
Fixpoint matches_groups (groups : list nat) (s : string) : bool :=
  match groups with
  | [] => s =s ""
  | n :: groups =>
      let head := String.substring 0 n s in
      let rest := String.substring n (String.length s) s in
      (String.length head =? n)%nat && all_chars hex_char head &&
      match groups with
      | [] => rest =s ""
      | _ => match rest with
             | String c rest => Ascii.eqb c "-" && matches_groups groups rest
             | EmptyString => false
             end
      end
  end.
Definition UUID_PATTERN (s : string) : bool := matches_groups [8; 4; 4; 4; 12]%nat s.

Definition requireString (v : value) (label : string) : result unit :=
  throw_if (negb (nonempty_string v))
    (InvalidEventError (label +:+ " must be a non-empty string")).
Definition requireNullableString (v : value) (label : string) : result unit :=
  throw_if (negb (is_null v) && negb (nonempty_string v))
    (InvalidEventError (label +:+ " must be a non-empty string or null")).
Definition optional_string (v : value) : option string :=
  match v with VStr s => Some s | _ => None end.

(** What [stableJson] writes into a column, parsed back. *)
Definition json_column (v : value) : value := reparse (stable_value v).
(** The text of a column. *)
Definition column_text (v : value) : option string := json_stringify v.

Definition positive (v : value) : bool := is_integer v && (1 <=? int_of v)%Z.

Definition normalizeEvent (event : value) (s : stream) (sequence : Z) : result candidate :=
  let field k := get k event in
  _ ← throw_if (negb (is_record event)) (InvalidEventError "Each event must be an object");
  _ ← requireString (field "event_id") "event_id";
  _ ← throw_if (negb (UUID_PATTERN (str_of (field "event_id"))))
        (InvalidEventError "event_id must be a UUID");
  _ ← requireString (field "event_type") "event_type";
  _ ← requireString (field "occurred_at") "occurred_at";
  _ ← requireString (field "correlation_id") "correlation_id";
  _ ← requireString (field "causation_id") "causation_id";
  _ ← (if aggregate_type s =s "execution" then requireString (field "operation_id") "operation_id"
       else requireNullableString (field "operation_id") "operation_id");
  _ ← throw_if (negb (positive (field "schema_version")))
        (InvalidEventError "schema_version must be a positive integer");
  _ ← throw_if (negb (is_canonical_timestamp (str_of (field "occurred_at"))))
        (InvalidEventError
           "occurred_at must be a canonical UTC timestamp with millisecond precision");
  _ ← throw_if (negb (is_record (field "actor"))) (InvalidEventError "actor must be an object");
  _ ← throw_if (is_undefined (field "payload")) (InvalidEventError "payload is required");
  let evidenceRefs :=
    match field "evidence_refs" with VUndef => VArr [] | v => v end in
  _ ← throw_if (negb (is_string_array evidenceRefs))
        (InvalidEventError "evidence_refs must be an array of strings");
  _ ← assertStrictJson invalid_path (field "actor") "actor";
  _ ← assertStrictJson invalid_path (field "payload") "payload";
  _ ← assertNoSensitivePayload invalid_path (is_sensitive SENSITIVE_KEYS) (field "actor") "actor";
  _ ← assertNoSensitivePayload invalid_path (is_sensitive SENSITIVE_KEYS)
        (field "payload") "payload";
  Ok {| event_id := str_of (field "event_id");
        event_type := str_of (field "event_type");
        event_stream := s;
        stream_sequence := sequence;
        schema_version := int_of (field "schema_version");
        occurred_at := str_of (field "occurred_at");
        correlation_id := str_of (field "correlation_id");
        causation_id := str_of (field "causation_id");
        actor_json := json_column (field "actor");
        operation_id := optional_string (field "operation_id");
        payload_json := json_column (field "payload");
        evidence_refs_json := json_column evidenceRefs |}.

(** [hydrate(row)], as the object the readers return. *)
Definition opt_value (o : option string) : value :=
  match o with Some s => VStr s | None => VNull end.
Definition hydrate (r : row) : value :=
  let c := columns r in
  VObj [("position", VNum (NInt (position r)));
        ("event_id", VStr (event_id c)); ("event_type", VStr (event_type c));
        ("aggregate_id", VStr (aggregate_id (event_stream c)));
        ("aggregate_type", VStr (aggregate_type (event_stream c)));
        ("stream_sequence", VNum (NInt (stream_sequence c)));
        ("schema_version", VNum (NInt (schema_version c)));
        ("occurred_at", VStr (occurred_at c));
        ("correlation_id", VStr (correlation_id c)); ("causation_id", VStr (causation_id c));
        ("actor", actor_json c); ("operation_id", opt_value (operation_id c));
        ("payload", payload_json c); ("evidence_refs", evidence_refs_json c);
        ("recorded_at", VStr (recorded_at r))].

Definition samePersistedEvent (r : row) (c : candidate) : bool :=
  let d := columns r in
  (event_type d =s event_type c) &&
  (aggregate_id (event_stream d) =s aggregate_id (event_stream c)) &&
  (aggregate_type (event_stream d) =s aggregate_type (event_stream c)) &&
  (stream_sequence d =? stream_sequence c)%Z && (schema_version d =? schema_version c)%Z &&
  (occurred_at d =s occurred_at c) && (correlation_id d =s correlation_id c) &&
  (causation_id d =s causation_id c) &&
  bool_decide (column_text (actor_json d) = column_text (actor_json c)) &&
  bool_decide (operation_id d = operation_id c) &&
  bool_decide (column_text (payload_json d) = column_text (payload_json c)) &&
  bool_decide (column_text (evidence_refs_json d) = column_text (evidence_refs_json c)).

(** ** Statements *)

Definition in_stream (s : stream) (r : row) : bool := bool_decide (event_stream (columns r) = s).

(** [SELECT COALESCE(MAX(stream_sequence), 0)] *)
Definition selectVersion (db : database) (s : stream) : Z :=
  fold_right (λ r m, Z.max (stream_sequence (columns r)) m) 0%Z
    (List.filter (in_stream s) (execution_events db)).
Definition selectById (db : database) (id : string) : option row :=
  find (λ r, event_id (columns r) =s id) (execution_events db).

Definition last_position (db : database) : Z :=
  match last (execution_events db) with Some r => position r | None => 0%Z end.

(** [INSERT INTO execution_events]: the row gets the next position unless a
    trigger of the schema aborts. *)
Definition insert (now : string) (db : database) (c : candidate) : result database :=
  _ ← throw_if (negb (bool_decide
        ((event_type c, schema_version c) ∈ execution_event_schemas db)))
        (SqliteError "execution event type/schema is not registered");
  _ ← throw_if
        (existsb (λ r, (event_id (columns r) =s event_id c) ||
                       (in_stream (event_stream c) r &&
                        (stream_sequence (columns r) =? stream_sequence c)%Z))
           (execution_events db))
        (SqliteError "execution_events identity is immutable");
  Ok {| execution_events := execution_events db ++ [MkRow (last_position db + 1) c now];
        execution_event_schemas := execution_event_schemas db |}.

(** ** Appending *)

Record prepared := MkPrepared {
  prep_stream : stream;
  prep_expected : Z;
  prep_candidates : list candidate;
}.
Record appended := MkAppended {
  rows : list row;
  current_version : Z;
  idempotent : bool;
}.

Definition nonnegative (v : value) : bool := is_integer v && (0 <=? int_of v)%Z.

Definition prepareAppend (reg : registry) (request : value) : result prepared :=
  let id := get "aggregate_id" request in
  let type := get "aggregate_type" request in
  let expected_version := get "expected_version" request in
  let events := get "events" request in
  _ ← requireString id "aggregate_id";
  _ ← requireString type "aggregate_type";
  _ ← throw_if (negb (nonnegative expected_version))
        (InvalidEventError "expected_version must be a non-negative integer");
  _ ← throw_if (negb (is_array events) || (length (items_of events) =? 0)%nat)
        (InvalidEventError "events must be a non-empty array");
  _ ← (if str_of type =s "execution"
       then for_each (λ e, _ ← validateForAppend reg e; Ok ()) (items_of events)
       else Ok ());
  let s := {| aggregate_id := str_of id; aggregate_type := str_of type |} in
  let expected := int_of expected_version in
  candidates ← imap_result (λ index e, normalizeEvent e s (expected + Z.of_nat index + 1)) 0
                 (items_of events);
  _ ← throw_if (has_duplicates (event_id <$> candidates))
        (InvalidEventError "event_id values must be unique within an append");
  Ok {| prep_stream := s; prep_expected := expected; prep_candidates := candidates |}.

Definition appendRows (now : string) (db : database) (p : prepared) :
    result (appended * database) :=
  let candidates := prep_candidates p in
  let existing := (λ c, selectById db (event_id c)) <$> candidates in
  if existsb (λ o, bool_decide (is_Some o)) existing then
    if forallb (λ oc : option row * candidate,
         match oc.1 with Some r => samePersistedEvent r oc.2 | None => false end)
         (zip existing candidates)
    then Ok ({| rows := omap id existing; current_version := selectVersion db (prep_stream p);
                idempotent := true |}, db)
    else Throw (DuplicateEventError (event_id <$> candidates))
  else
    let currentVersion := selectVersion db (prep_stream p) in
    _ ← throw_if (negb (currentVersion =? prep_expected p)%Z)
          (ConcurrencyConflictError (prep_stream p) (prep_expected p) currentVersion);
    db' ← fold_result (insert now) db candidates;
    Ok ({| rows := omap (λ c, selectById db' (event_id c)) candidates;
           current_version := prep_expected p + Z.of_nat (length candidates);
           idempotent := false |}, db').

(** The body of the batch transaction: every request sees the ones before it. *)
Fixpoint appendAll (now : string) (db : database) (l : list prepared) :
    result (list appended * database) :=
  match l with
  | [] => Ok ([], db)
  | p :: l =>
      '(a, db) ← appendRows now db p;
      '(as', db) ← appendAll now db l;
      Ok (a :: as', db)
  end.

(** ** Metrics *)

Record metrics := MkMetrics {
  append_count : Z;
  append_count_by_aggregate_type : gmap string Z;
  events_appended : Z;
  events_appended_by_aggregate_type : gmap string Z;
  concurrency_conflicts : Z;
  concurrency_conflicts_by_aggregate_type : gmap string Z;
  event_id_conflicts : Z;
  idempotent_replays : Z;
}.
Definition no_metrics : metrics := MkMetrics 0 ∅ 0 ∅ 0 ∅ 0 0.
Definition bump (k : string) (n : Z) (m : gmap string Z) : gmap string Z :=
  <[k := (default 0 (m !! k) + n)%Z]> m.

Definition recordAttempt (t : string) (m : metrics) : metrics :=
  MkMetrics (append_count m + 1) (bump t 1 (append_count_by_aggregate_type m))
    (events_appended m) (events_appended_by_aggregate_type m) (concurrency_conflicts m)
    (concurrency_conflicts_by_aggregate_type m) (event_id_conflicts m) (idempotent_replays m).
Definition recordResult (t : string) (a : appended) (m : metrics) : metrics :=
  if idempotent a then
    MkMetrics (append_count m) (append_count_by_aggregate_type m) (events_appended m)
      (events_appended_by_aggregate_type m) (concurrency_conflicts m)
      (concurrency_conflicts_by_aggregate_type m) (event_id_conflicts m)
      (idempotent_replays m + 1)
  else
    let n := Z.of_nat (length (rows a)) in
    MkMetrics (append_count m) (append_count_by_aggregate_type m) (events_appended m + n)
      (bump t n (events_appended_by_aggregate_type m)) (concurrency_conflicts m)
      (concurrency_conflicts_by_aggregate_type m) (event_id_conflicts m) (idempotent_replays m).
Definition error_name (e : value) : string := str_of (get "name" e).
Definition recordError (e : value) (fallback : string) (m : metrics) : metrics :=
  let detail := get "aggregate_type" (get "details" e) in
  let t := if truthy detail then str_of detail else fallback in
  let m := if error_name e =s "ConcurrencyConflictError" then
      MkMetrics (append_count m) (append_count_by_aggregate_type m) (events_appended m)
        (events_appended_by_aggregate_type m) (concurrency_conflicts m + 1)
        (bump t 1 (concurrency_conflicts_by_aggregate_type m)) (event_id_conflicts m)
        (idempotent_replays m)
    else m in
  if error_name e =s "DuplicateEventError" then
    MkMetrics (append_count m) (append_count_by_aggregate_type m) (events_appended m)
      (events_appended_by_aggregate_type m) (concurrency_conflicts m)
      (concurrency_conflicts_by_aggregate_type m) (event_id_conflicts m + 1)
      (idempotent_replays m)
  else m.

(** ** The ledger object *)

Record ledger := MkLedger { db : database; ledger_metrics : metrics }.

Definition outcome_of (a : appended) : value :=
  VObj [("current_version", VNum (NInt (current_version a)));
        ("idempotent", VBool (idempotent a));
        ("events", VArr (hydrate <$> rows a))].

(** [append(request)]: a transaction, so a throw leaves the database as it was. *)
Definition append (reg : registry) (now : string) (l : ledger) (request : value) :
    result value * ledger :=
  match prepareAppend reg request with
  | Throw e => (Throw e, l)
  | Ok p =>
      let t := aggregate_type (prep_stream p) in
      let m := recordAttempt t (ledger_metrics l) in
      match appendRows now (db l) p with
      | Ok (a, db') => (Ok (outcome_of a), {| db := db'; ledger_metrics := recordResult t a m |})
      | Throw e => (Throw e, {| db := db l; ledger_metrics := recordError e t m |})
      end
  end.

Definition appendBatch (reg : registry) (now : string) (l : ledger) (requests : value) :
    result (list value) * ledger :=
  if negb (is_array requests) || (length (items_of requests) =? 0)%nat
  then (Throw (InvalidEventError "append batch must be a non-empty array"), l)
  else
    match map_result (prepareAppend reg) (items_of requests) with
    | Throw e => (Throw e, l)
    | Ok ps =>
        let types := (λ p, aggregate_type (prep_stream p)) <$> ps in
        let m := fold_left (λ m t, recordAttempt t m) types (ledger_metrics l) in
        match appendAll now (db l) ps with
        | Ok (as', db') =>
            (Ok (outcome_of <$> as'),
             {| db := db';
                ledger_metrics := fold_left (λ m ta, recordResult ta.1 ta.2 m) (zip types as') m |})
        | Throw e =>
            (Throw e, {| db := db l; ledger_metrics := recordError e (default "" (head types)) m |})
        end
    end.

(** ** Reading *)

Definition getVersion (db : database) (aggregate_type aggregate_id : value) : result Z :=
  _ ← requireString aggregate_type "aggregate_type";
  _ ← requireString aggregate_id "aggregate_id";
  Ok (selectVersion db {| aggregate_id := str_of aggregate_id;
                          aggregate_type := str_of aggregate_type |}).

Definition sequence_le (a b : row) : bool :=
  (stream_sequence (columns a) <=? stream_sequence (columns b))%Z.
Definition position_le (a b : row) : bool := (position a <=? position b)%Z.

Definition select_stream (db : database) (s : stream) (from to : Z) : list row :=
  sort_by sequence_le
    (List.filter (λ r, in_stream s r && (from <=? stream_sequence (columns r))%Z &&
                       (stream_sequence (columns r) <=? to)%Z) (execution_events db)).

Definition readStream (db : database) (aggregate_type aggregate_id : string) (from to : value) :
    result (list value) :=
  _ ← requireString (VStr aggregate_type) "aggregate_type";
  _ ← requireString (VStr aggregate_id) "aggregate_id";
  _ ← throw_if (negb (positive from) || negb (is_integer to) || (int_of to <? int_of from)%Z)
        (InvalidEventError "Invalid stream version range");
  Ok (hydrate <$> select_stream db {| aggregate_id := aggregate_id;
                                      aggregate_type := aggregate_type |} (int_of from) (int_of to)).

Definition valid_cursor (after_position limit : value) : bool :=
  nonnegative after_position && positive limit && (int_of limit <=? 1000)%Z.

(** [SELECT * ... WHERE position > ? ... ORDER BY position LIMIT ?] *)
Definition select_after (db : database) (wanted : row → bool) (after limit : Z) : list row :=
  firstn (Z.to_nat limit)
    (sort_by position_le
       (List.filter (λ r, (after <? position r)%Z && wanted r) (execution_events db))).

Definition readGlobal (db : database) (after_position limit wanted_type : value) :
    result (list value) :=
  _ ← throw_if (negb (valid_cursor after_position limit))
        (InvalidEventError "Invalid global stream cursor or limit");
  _ ← (if is_undefined wanted_type then Ok ()
       else requireString wanted_type "aggregate_type");
  let wanted r :=
    is_undefined wanted_type ||
    (aggregate_type (event_stream (columns r)) =s str_of wanted_type) in
  Ok (hydrate <$> select_after db wanted (int_of after_position) (int_of limit)).

Definition stream_of (v : value) : result stream :=
  _ ← requireString (get "aggregate_type" v) "aggregate_type";
  _ ← requireString (get "aggregate_id" v) "aggregate_id";
  Ok {| aggregate_id := str_of (get "aggregate_id" v);
        aggregate_type := str_of (get "aggregate_type" v) |}.

(** The rows of several aggregates, each read through its stream index. *)
Definition select_aggregates (db : database) (streams : list stream) (after limit : Z) :
    list row :=
  firstn (Z.to_nat limit)
    (sort_by position_le (streams ≫= λ s, select_after db (in_stream s) after limit)).

Definition readAggregates (db : database) (after_position limit aggregates : value) :
    result (list value) :=
  _ ← throw_if (negb (valid_cursor after_position limit))
        (InvalidEventError "Invalid global stream cursor or limit");
  _ ← throw_if (negb (is_array aggregates)) (InvalidEventError "aggregates must be an array");
  streams ← map_result stream_of (items_of aggregates);
  Ok (hydrate <$> select_aggregates db streams (int_of after_position) (int_of limit)).

(** ** What a well-formed table holds *)

Definition stream_rows (db : database) (s : stream) : list row :=
  List.filter (in_stream s) (execution_events db).
Definition row_id (r : row) : string := event_id (columns r).
Definition row_sequence (r : row) : Z := stream_sequence (columns r).

(** Positions count the rows, identifiers are unique and every stream is numbered
    from one without a gap. *)
Record wf_db (db : database) : Prop := {
  wf_positions : position <$> execution_events db = numbers 1 (length (execution_events db));
  wf_ids : NoDup (row_id <$> execution_events db);
  wf_streams s : row_sequence <$> stream_rows db s = numbers 1 (length (stream_rows db s));
}.

(** What [prepareAppend] promises of the rows it prepares. *)
Record well_prepared (p : prepared) : Prop := {
  prep_nonempty : prep_candidates p ≠ [];
  prep_ids : NoDup (event_id <$> prep_candidates p);
  prep_in_stream c : c ∈ prep_candidates p → event_stream c = prep_stream p;
  prep_sequences : stream_sequence <$> prep_candidates p =
    numbers (prep_expected p + 1) (length (prep_candidates p));
}.

Lemma normalizeEvent_stream event s n c :
  normalizeEvent event s n = Ok c → event_stream c = s ∧ stream_sequence c = n.
Proof. unfold normalizeEvent. intros H. inv_ok H. by subst c. Qed.

Lemma imap_normalize l s e i cs :
  imap_result (λ index v, normalizeEvent v s (e + Z.of_nat index + 1)) i l = Ok cs →
  length cs = length l ∧ (∀ c, c ∈ cs → event_stream c = s) ∧
  stream_sequence <$> cs = numbers (e + Z.of_nat i + 1) (length cs).
Proof.
  revert i cs. induction l as [|v l IH]; intros i cs H; cbn [imap_result] in H.
  - injection H as <-. split_and!; [done| |done]. by intros c ?%not_elem_of_nil.
  - inv_ok H. subst cs. apply normalizeEvent_stream in Hok as [Hs Hn].
    destruct (IH _ _ Hok0) as (Hl & Hin & Hseq). split_and!; [simpl; lia| |].
    + intros c [->|Hc]%elem_of_cons; [done|by apply Hin].
    + rewrite fmap_cons, Hseq, Hn. simpl length.
      cbn [numbers]. do 2 f_equal. lia.
Qed.

Lemma prepareAppend_wf reg request p : prepareAppend reg request = Ok p → well_prepared p.
Proof.
  unfold prepareAppend. intros H. inv_ok H. inv_throw_if. subst p.
  destruct (imap_normalize _ _ _ _ _ Hok4) as (Hl & Hin & Hseq).
  split; cbn [prep_candidates prep_stream prep_expected]; try done.
  - intros ->. bool_props. destruct (items_of _); done.
  - by apply has_duplicates_false.
  - rewrite Hseq. f_equal. lia.
Qed.

(** ** Insertions *)

Definition numbered (now : string) (from : Z) (cs : list candidate) : list row :=
  imap (λ i c, MkRow (from + Z.of_nat i) c now) cs.

Lemma columns_numbered now from cs : columns <$> numbered now from cs = cs.
Proof.
  unfold numbered. revert from. induction cs as [|c cs IH]; intros from; [done|].
  rewrite imap_cons, fmap_cons. simpl. f_equal. rewrite <- (IH (from + 1)%Z) at 2.
  f_equal. apply imap_ext. intros i x _. simpl. f_equal. lia.
Qed.

Lemma insert_ok now db c db' :
  insert now db c = Ok db' →
  execution_events db' = execution_events db ++ [MkRow (last_position db + 1) c now] ∧
  execution_event_schemas db' = execution_event_schemas db ∧
  event_id c ∉ row_id <$> execution_events db.
Proof.
  unfold insert. intros H. inv_ok H. inv_throw_if. subst db'. split_and!; try done.
  intros (r & E & Hr)%list_elem_of_fmap. rewrite existsb_false in Hok0.
  specialize (Hok0 r Hr). bool_props. done.
Qed.

Lemma last_position_snoc l s r : last_position (MkDb (l ++ [r]) s) = position r.
Proof. unfold last_position. simpl. by rewrite last_snoc. Qed.

Lemma fold_insert_ok now db cs db' :
  fold_result (insert now) db cs = Ok db' →
  execution_events db' = execution_events db ++ numbered now (last_position db + 1) cs ∧
  execution_event_schemas db' = execution_event_schemas db.
Proof.
  revert db. induction cs as [|c cs IH]; intros db H; cbn [fold_result] in H.
  - injection H as <-. by rewrite app_nil_r.
  - inv_ok H. apply insert_ok in Hok as (He & Hs & _). destruct a as [ev sc]. simpl in He, Hs.
    subst ev sc. apply IH in H as [He Hs]. rewrite last_position_snoc in He. simpl in He, Hs.
    split; [|done]. rewrite He. unfold numbered. rewrite imap_cons, <- app_assoc. simpl.
    f_equal. f_equal; [f_equal; lia|]. apply imap_ext. intros i x _. simpl. f_equal. lia.
Qed.

Lemma fold_insert_fresh now db cs db' c :
  fold_result (insert now) db cs = Ok db' → c ∈ cs → event_id c ∉ row_id <$> execution_events db.
Proof.
  revert db. induction cs as [|x cs IH]; intros db H Hc; [by apply not_elem_of_nil in Hc|].
  cbn [fold_result] in H. inv_ok H. apply insert_ok in Hok as (He & _ & Hx).
  apply elem_of_cons in Hc as [->|Hc]; [done|].
  specialize (IH _ H Hc). rewrite He, fmap_app in IH. set_solver.
Qed.

(** ** Versions *)

Lemma fold_max_numbers (l : list row) k n :
  row_sequence <$> l = numbers (k + 1) n → (0 ≤ k)%Z → n = length l →
  fold_right (λ r m, Z.max (row_sequence r) m) 0%Z l =
    if decide (l = []) then 0%Z else (k + Z.of_nat n)%Z.
Proof.
  revert k n. induction l as [|r l IH]; intros k n H Hk Hn; [by subst|].
  destruct n as [|n]; [done|]. rewrite fmap_cons in H. injection H as Hr H.
  simpl in Hn. simpl. rewrite (IH (k + 1)%Z n) by (done || lia).
  case_decide; subst; simpl in *; lia.
Qed.

Lemma selectVersion_wf db s : wf_db db → selectVersion db s = Z.of_nat (length (stream_rows db s)).
Proof.
  intros H. unfold selectVersion. fold (stream_rows db s).
  erewrite (fold_max_numbers _ 0); [|apply (wf_streams _ H s)|done|done].
  case_decide as E; [by rewrite E|lia].
Qed.

Lemma last_position_wf db : wf_db db →
  last_position db = Z.of_nat (length (execution_events db)).
Proof.
  intros H. unfold last_position. pose proof (wf_positions _ H) as Hp.
  destruct (execution_events db) as [|r l] using rev_ind; [done|].
  rewrite last_snoc. rewrite length_app in *. simpl in *.
  rewrite fmap_app, numbers_app in Hp. apply app_inj_2 in Hp as [_ Hp]; [|done].
  simpl in Hp. injection Hp as Hp. lia.
Qed.

Lemma stream_rows_app db l s sc :
  stream_rows (MkDb (execution_events db ++ l) sc) s =
  stream_rows db s ++ List.filter (in_stream s) l.
Proof. unfold stream_rows. simpl. apply List.filter_app. Qed.

Lemma filter_numbered now from cs s s' :
  (∀ c, c ∈ cs → event_stream c = s) →
  List.filter (in_stream s') (numbered now from cs) =
  if decide (s = s') then numbered now from cs else [].
Proof.
  unfold numbered. revert from. induction cs as [|c cs IH]; intros from H; [by case_decide|].
  rewrite imap_cons. simpl. unfold in_stream at 1. cbn [columns].
  rewrite (H c) by (by left).
  assert (Hrec : List.filter (in_stream s')
    (imap ((λ i c0, MkRow (from + Z.of_nat i) c0 now) ∘ S) cs) =
    if decide (s = s') then imap ((λ i c0, MkRow (from + Z.of_nat i) c0 now) ∘ S) cs else []).
  { rewrite <- (imap_ext (λ i c0, MkRow (from + 1 + Z.of_nat i) c0 now)).
    - apply IH. intros c' Hc'. apply H. by right.
    - intros i x _. simpl. f_equal. lia. }
  rewrite Hrec. destruct (decide (s = s')) as [->|Hne].
  - by rewrite bool_decide_eq_true_2.
  - by rewrite bool_decide_eq_false_2.
Qed.

Lemma position_numbered now from cs : position <$> numbered now from cs = numbers from (length cs).
Proof.
  unfold numbered. revert from. induction cs as [|c cs IH]; intros from; [done|].
  rewrite imap_cons, fmap_cons. simpl. f_equal; [lia|]. rewrite <- (IH (from + 1)%Z).
  f_equal. apply imap_ext. intros i x _. simpl. f_equal. lia.
Qed.

Lemma fmap_numbered {A} (f : candidate → A) now from cs :
  (λ r, f (columns r)) <$> numbered now from cs = f <$> cs.
Proof. rewrite <- (columns_numbered now from cs) at 2. by rewrite <- list_fmap_compose. Qed.

(** The table after the rows of a prepared append have been inserted. *)
Lemma insert_rows_wf now db p db' :
  wf_db db → well_prepared p → selectVersion db (prep_stream p) = prep_expected p →
  fold_result (insert now) db (prep_candidates p) = Ok db' → wf_db db'.
Proof.
  intros Hwf Hp Hv H. pose proof (fold_insert_ok _ _ _ _ H) as [He _].
  set (added := numbered now (last_position db + 1) (prep_candidates p)) in *.
  assert (Hlen : length added = length (prep_candidates p)).
  { unfold added, numbered. apply length_imap. }
  destruct db' as [ev sc]. simpl in He. subst ev. split; simpl.
  - rewrite fmap_app, length_app, numbers_app, (wf_positions _ Hwf), Hlen. f_equal.
    unfold added. rewrite position_numbered, last_position_wf by done. f_equal. lia.
  - rewrite fmap_app. apply NoDup_app. split_and!; [apply (wf_ids _ Hwf)| |].
    + intros x Hx Hin. unfold added in Hin. unfold row_id in Hin.
      rewrite (fmap_numbered event_id) in Hin. apply list_elem_of_fmap in Hin as (c & -> & Hc).
      by eapply fold_insert_fresh.
    + unfold added, row_id. rewrite (fmap_numbered event_id). apply (prep_ids _ Hp).
  - intros s. rewrite stream_rows_app. unfold added.
    rewrite (filter_numbered _ _ _ (prep_stream p)) by apply (prep_in_stream _ Hp).
    rewrite fmap_app, length_app, numbers_app, (wf_streams _ Hwf s). f_equal.
    fold added. case_decide as Hs; [|done]. subst s. rewrite Hlen.
    unfold added, row_sequence. rewrite (fmap_numbered stream_sequence), (prep_sequences _ Hp).
    f_equal. rewrite <- Hv, selectVersion_wf by done. lia.
Qed.

Lemma appendRows_wf now db p a db' :
  wf_db db → well_prepared p → appendRows now db p = Ok (a, db') →
  wf_db db' ∧ ∃ l, execution_events db' = execution_events db ++ l.
Proof.
  intros Hwf Hp H. unfold appendRows in H. case_if_in H.
  - case_if_in H; [|done]. injection H as _ <-. split; [done|]. exists []. by rewrite app_nil_r.
  - apply bind_ok in H as (u & Hv & H). apply bind_ok in H as (d & Hins & H).
    inv_throw_if. bool_props. injection H as _ <-. split.
    + by eapply insert_rows_wf.
    + apply fold_insert_ok in Hins as [-> _]. eauto.
Qed.

(** Every append, refused or not, keeps the table well formed and only adds rows. *)
Definition extends (before after : database) : Prop :=
  ∃ l, execution_events after = execution_events before ++ l.

Lemma extends_refl d : extends d d.
Proof. exists []. by rewrite app_nil_r. Qed.
Lemma extends_trans d e f : extends d e → extends e f → extends d f.
Proof. intros [l Hl] [k Hk]. exists (l ++ k). by rewrite Hk, Hl, app_assoc. Qed.

Lemma appendAll_wf now db ps as' db' :
  wf_db db → Forall well_prepared ps → appendAll now db ps = Ok (as', db') →
  wf_db db' ∧ extends db db'.
Proof.
  revert db as'. induction ps as [|p ps IH]; intros db as' Hwf HF H; cbn [appendAll] in H.
  - injection H as _ <-. split; [done|apply extends_refl].
  - apply Forall_cons in HF as [Hp HF]. apply bind_ok in H as ([a d] & Ha & H).
    apply bind_ok in H as ([bs e] & Hb & H). injection H as _ <-.
    apply appendRows_wf in Ha as [Hd Hext]; [|done..].
    destruct (IH _ _ Hd HF Hb) as [He Hext']. split; [done|by eapply extends_trans].
Qed.

Lemma prepare_all_wf reg l ps :
  map_result (prepareAppend reg) l = Ok ps → Forall well_prepared ps.
Proof.
  rewrite map_result_Forall2. induction 1 as [|v p l ps Hv _ IH]; constructor; [|done].
  by eapply prepareAppend_wf.
Qed.

(** C4: whatever is asked of the ledger, and whether it answers or throws, the
    table stays well formed (positions count the rows, identifiers are unique,
    streams are numbered from one without a gap) and no stored row changes. *)
Theorem ledger_invariant reg now l request l' :
  wf_db (db l) →
  l' = (append reg now l request).2 ∨ l' = (appendBatch reg now l request).2 →
  wf_db (db l') ∧ extends (db l) (db l').
Proof.
  intros Hwf Hl. assert (Hid : wf_db (db l) ∧ extends (db l) (db l)) by
    (split; [done|apply extends_refl]).
  destruct Hl as [->| ->].
  - unfold append. destruct (prepareAppend reg request) as [p|e] eqn:Hp; [|done].
    apply prepareAppend_wf in Hp. destruct (appendRows _ _ _) as [[a d]|e] eqn:Ha; [|done].
    by eapply appendRows_wf.
  - unfold appendBatch. case_if; [done|]. destruct (map_result _ _) as [ps|e] eqn:Hps; [|done].
    apply prepare_all_wf in Hps. destruct (appendAll _ _ _) as [[as' d]|e] eqn:Ha; [|done].
    by eapply appendAll_wf.
Qed.

(** ** What an append does *)

Lemma existsb_existing db cs :
  existsb (λ o : option row, bool_decide (is_Some o))
    ((λ c, selectById db (event_id c)) <$> cs) = false ↔
  ∀ c, c ∈ cs → event_id c ∉ row_id <$> execution_events db.
Proof.
  rewrite existsb_false. split.
  - intros H c Hc (r & E & Hr)%list_elem_of_fmap.
    specialize (H (selectById db (event_id c))). rewrite bool_decide_eq_false in H.
    apply H; [apply list_elem_of_fmap; by exists c|]. unfold selectById.
    destruct (find _ _) as [r'|] eqn:Ef; [eauto|]. rewrite find_none_elem, existsb_false in Ef.
    specialize (Ef r Hr). apply String.eqb_neq in Ef. by unfold row_id in E.
  - intros H o (c & -> & Hc)%list_elem_of_fmap. apply bool_decide_eq_false.
    intros [r Hr]. unfold selectById in Hr. apply find_some_elem in Hr as [Hr E].
    bool_props. apply (H c Hc). apply list_elem_of_fmap. by exists r.
Qed.

Lemma fold_insert_total now s cs : ∀ db k,
  (∀ c, c ∈ cs → (event_type c, schema_version c) ∈ execution_event_schemas db ∧
    event_stream c = s ∧ event_id c ∉ row_id <$> execution_events db) →
  NoDup (event_id <$> cs) → stream_sequence <$> cs = numbers k (length cs) →
  (∀ r, r ∈ execution_events db → event_stream (columns r) = s → (row_sequence r < k)%Z) →
  ∃ db', fold_result (insert now) db cs = Ok db'.
Proof.
  induction cs as [|c cs IH]; intros db k Hc HN Hseq Hold; [by exists db|].
  rewrite fmap_cons in HN. rewrite fmap_cons in Hseq. apply NoDup_cons in HN as [Hn HN]. injection Hseq as Hk Hseq.
  destruct (Hc c) as (Ht & Hs & Hid); [by left|].
  assert (Hins : insert now db c = Ok {|
    execution_events := execution_events db ++ [MkRow (last_position db + 1) c now];
    execution_event_schemas := execution_event_schemas db |}).
  { unfold insert. rewrite bool_decide_eq_true_2 by done. cbn [negb throw_if mbind result_bind].
    replace (existsb _ _) with false; [done|]. symmetry. apply existsb_false. intros r Hr.
    apply orb_false_iff. split.
    - apply String.eqb_neq. intros E. apply Hid. apply list_elem_of_fmap. by exists r.
    - apply andb_false_iff. destruct (in_stream (event_stream c) r) eqn:E; [right|by left].
      unfold in_stream in E. bool_props. apply Z.eqb_neq. rewrite Hs in E.
      specialize (Hold r Hr E). unfold row_sequence in Hold. lia. }
  cbn [fold_result]. rewrite Hins. cbn [mbind result_bind].
  apply (IH _ (k + 1)%Z); cbn [execution_event_schemas execution_events]; try done.
  - intros x Hx. destruct (Hc x) as (? & ? & Hidx); [by right|]. split_and!; try done.
    rewrite fmap_app, not_elem_of_app. split; [done|]. intros E%list_elem_of_singleton.
    apply Hn. apply list_elem_of_fmap. by exists x.
  - intros r [Hr|Hr]%elem_of_app E.
    + specialize (Hold r Hr E). lia.
    + apply list_elem_of_singleton in Hr as ->. unfold row_sequence. simpl. lia.
Qed.

Lemma selectById_row db r :
  NoDup (row_id <$> execution_events db) → r ∈ execution_events db →
  selectById db (row_id r) = Some r.
Proof.
  unfold selectById. induction (execution_events db) as [|x l IH]; intros HN Hr;
    [by apply not_elem_of_nil in Hr|].
  rewrite fmap_cons in HN. apply NoDup_cons in HN as [Hx HN]. simpl.
  apply elem_of_cons in Hr as [->|Hr].
  - unfold row_id. by rewrite String.eqb_refl.
  - destruct (_ =s _) eqn:E; [|by apply IH]. exfalso. bool_props. apply Hx.
    apply list_elem_of_fmap. by exists r.
Qed.

Lemma omap_selectById db l :
  NoDup (row_id <$> execution_events db) → l ⊆ execution_events db →
  omap (λ c, selectById db (event_id c)) (columns <$> l) = l.
Proof.
  intros HN. induction l as [|r l IH]; intros Hl; [done|]. rewrite fmap_cons. simpl.
  change (event_id (columns r)) with (row_id r). rewrite selectById_row by (done || apply Hl; by left).
  f_equal. apply IH. set_solver.
Qed.

Lemma stream_rows_before db s r : wf_db db → r ∈ execution_events db →
  event_stream (columns r) = s → (row_sequence r < selectVersion db s + 1)%Z.
Proof.
  intros Hwf Hr Hs. assert (Hin : row_sequence r ∈ row_sequence <$> stream_rows db s).
  { apply list_elem_of_fmap_2. apply list_filter_elem. split; [done|].
    unfold in_stream. by apply bool_decide_eq_true_2. }
  rewrite (wf_streams _ Hwf), elem_of_numbers in Hin. rewrite selectVersion_wf by done. lia.
Qed.

(** The identifiers are new and the event types known to the schema catalog. *)
Definition insertable (db : database) (p : prepared) : Prop :=
  ∀ c, c ∈ prep_candidates p →
    (event_type c, schema_version c) ∈ execution_event_schemas db ∧
    event_id c ∉ row_id <$> execution_events db.

(** C7: appending new events succeeds exactly when the stream is at the expected
    version; the events are then at the end of that stream, in the order given,
    and every other stream is untouched.  Otherwise the conflict is reported. *)
Theorem appendRows_new now db p :
  wf_db db → well_prepared p → insertable db p →
  let n := length (prep_candidates p) in
  let added := numbered now (last_position db + 1) (prep_candidates p) in
  if decide (selectVersion db (prep_stream p) = prep_expected p) then
    ∃ db', appendRows now db p =
      Ok (MkAppended added (prep_expected p + Z.of_nat n) false, db') ∧
      selectVersion db' (prep_stream p) = (prep_expected p + Z.of_nat n)%Z ∧
      ∀ s, stream_rows db' s =
        stream_rows db s ++ if decide (prep_stream p = s) then added else []
  else
    appendRows now db p =
      Throw (ConcurrencyConflictError (prep_stream p) (prep_expected p)
               (selectVersion db (prep_stream p))).
Proof.
  intros Hwf Hp Hins n added.
  assert (Hex : existsb (λ o : option row, bool_decide (is_Some o))
    ((λ c, selectById db (event_id c)) <$> prep_candidates p) = false).
  { apply existsb_existing. intros c Hc. by apply Hins. }
  case_decide as Hv.
  2:{ unfold appendRows. rewrite Hex. apply Z.eqb_neq in Hv. by rewrite Hv. }
  destruct (fold_insert_total now (prep_stream p) (prep_candidates p) db (prep_expected p + 1))
    as [db' Hdb'].
  - intros c Hc. destruct (Hins c Hc). split_and!; try done. by apply (prep_in_stream _ Hp).
  - apply (prep_ids _ Hp).
  - apply (prep_sequences _ Hp).
  - intros r Hr Hs. rewrite <- Hv. by apply stream_rows_before.
  - pose proof (insert_rows_wf _ _ _ _ Hwf Hp Hv Hdb') as Hwf'.
    pose proof (fold_insert_ok _ _ _ _ Hdb') as [He _]. fold added in He.
    assert (Hrows : ∀ s, stream_rows db' s =
      stream_rows db s ++ if decide (prep_stream p = s) then added else []).
    { intros s. unfold stream_rows. rewrite He, List.filter_app. f_equal.
      unfold added. apply filter_numbered. apply (prep_in_stream _ Hp). }
    exists db'. split_and!; [| |done].
    + unfold appendRows. rewrite Hex, (proj2 (Z.eqb_eq _ _) Hv). cbn [negb throw_if mbind result_bind].
      rewrite Hdb'. cbn [mbind result_bind]. do 3 f_equal.
      rewrite <- (columns_numbered now (last_position db + 1) (prep_candidates p)) at 1.
      apply omap_selectById; [apply (wf_ids _ Hwf')|]. rewrite He. fold added. set_solver.
    + rewrite selectVersion_wf, Hrows, length_app, decide_True by done.
      unfold added, numbered. rewrite length_imap, Nat2Z.inj_add, <- selectVersion_wf by done.
      unfold n. lia.
Qed.

(** ** Retries *)

Lemma samePersistedEvent_refl r : samePersistedEvent r (columns r) = true.
Proof.
  unfold samePersistedEvent. rewrite !String.eqb_refl, !Z.eqb_refl, !bool_decide_eq_true_2 by done.
  done.
Qed.

Lemma selectById_columns db l :
  NoDup (row_id <$> execution_events db) → l ⊆ execution_events db →
  (λ c, selectById db (event_id c)) <$> (columns <$> l) = Some <$> l.
Proof.
  intros HN. induction l as [|r l IH]; intros Hl; [done|]. rewrite !fmap_cons.
  change (event_id (columns r)) with (row_id r).
  rewrite selectById_row by (done || apply Hl; by left). f_equal. apply IH. set_solver.
Qed.

Lemma omap_id_Some {A} (l : list A) : omap id (Some <$> l) = l.
Proof. induction l as [|x l IH]; [done|]. rewrite fmap_cons. simpl. by f_equal. Qed.

Lemma appendRows_replay now now' db p a db1 db2 :
  wf_db db → well_prepared p → appendRows now db p = Ok (a, db1) → idempotent a = false →
  wf_db db2 → extends db1 db2 →
  appendRows now' db2 p =
    Ok (MkAppended (rows a) (selectVersion db2 (prep_stream p)) true, db2).
Proof.
  intros Hwf Hp H Hid Hwf2 [l Hl]. unfold appendRows in H. case_if_in H.
  { case_if_in H; [|done]. injection H as <- _. done. }
  apply bind_ok in H as (u & Hv & H). apply bind_ok in H as (d & Hins & H).
  inv_throw_if. bool_props. injection H as <- <-. cbn [rows].
  pose proof (insert_rows_wf _ _ _ _ Hwf Hp Hv Hins) as Hwf1.
  apply fold_insert_ok in Hins as [He _].
  set (added := numbered now (last_position db + 1) (prep_candidates p)) in *.
  assert (Hsub1 : added ⊆ execution_events d) by (rewrite He; set_solver).
  assert (Hsub2 : added ⊆ execution_events db2) by (rewrite Hl; set_solver).
  assert (Hc : prep_candidates p = columns <$> added).
  { symmetry. apply columns_numbered. }
  unfold appendRows. rewrite Hc, selectById_columns by (done || apply (wf_ids _ Hwf2)).
  rewrite (proj2 (existsb_true _ _)).
  2:{ pose proof (prep_nonempty _ Hp) as Hne. rewrite Hc in Hne. destruct added as [|r ?]; [done|].
      exists (Some r). split; [by left|]. by apply bool_decide_eq_true_2. }
  rewrite (proj2 (forallb_true _ _)).
  2:{ intros [o c] Hoc. clear - Hoc. induction added as [|r rs IH]; [by apply not_elem_of_nil in Hoc|].
      rewrite !fmap_cons in Hoc. simpl in Hoc. apply elem_of_cons in Hoc as [[= -> ->]|Hoc].
      - apply samePersistedEvent_refl.
      - by apply IH. }
  rewrite omap_id_Some, omap_selectById by (done || apply (wf_ids _ Hwf1)). done.
Qed.

(** C27: an append that succeeded can be retried at any later time, with the same
    now stale expected version: it returns the same events, says so, and changes
    nothing. *)
Theorem append_retry reg now now' l request v l1 l2 :
  wf_db (db l) → append reg now l request = (Ok v, l1) → get "idempotent" v = VBool false →
  wf_db (db l2) → extends (db l1) (db l2) →
  ∃ v' l3, append reg now' l2 request = (Ok v', l3) ∧ db l3 = db l2 ∧
    get "events" v' = get "events" v ∧ get "idempotent" v' = VBool true.
Proof.
  intros Hwf H Hid Hwf2 Hext. unfold append in *.
  destruct (prepareAppend reg request) as [p|e] eqn:Hp; [|done].
  apply prepareAppend_wf in Hp. destruct (appendRows now (db l) p) as [[a d]|e] eqn:Ha; [|done].
  injection H as <- <-. cbn [db] in Hext.
  assert (Hi : idempotent a = false) by (cbn in Hid; by injection Hid).
  rewrite (appendRows_replay now now' (db l) p a d (db l2)) by done.
  eexists _, _. split; [reflexivity|]. done.
Qed.

(** ** Reading several aggregates *)

Lemma events_sorted db : wf_db db → StronglySorted (le_of position_le) (execution_events db).
Proof.
  intros H. pose proof (wf_positions _ H) as Hp. revert Hp.
  generalize (length (execution_events db)), 1%Z. clear H.
  induction (execution_events db) as [|r l IH]; intros n k Hp; [constructor|].
  destruct n as [|n]; [done|]. rewrite fmap_cons in Hp. injection Hp as Hr Hp.
  constructor; [by eapply IH|]. apply Forall_forall. intros x Hx.
  assert (position x ∈ position <$> l) as Hin by (by apply list_elem_of_fmap_2).
  rewrite Hp, elem_of_numbers in Hin. unfold le_of, position_le. apply Z.leb_le. lia.
Qed.

Lemma position_inj db x y : wf_db db → x ∈ execution_events db → y ∈ execution_events db →
  position x = position y → x = y.
Proof.
  intros H Hx Hy E. apply list_elem_of_lookup in Hx as [i Hi], Hy as [j Hj].
  assert (Hpos : ∀ k r, execution_events db !! k = Some r → position r = (1 + Z.of_nat k)%Z).
  { intros k r Hk. pose proof (lookup_lt_Some _ _ _ Hk).
    assert (Hl : (position <$> execution_events db) !! k = Some (position r)) by
      (by rewrite list_lookup_fmap, Hk).
    rewrite (wf_positions _ H), lookup_numbers in Hl by done. congruence. }
  pose proof (Hpos _ _ Hi). pose proof (Hpos _ _ Hj). assert (i = j) as -> by lia. congruence.
Qed.

Lemma events_NoDup db : wf_db db → NoDup (execution_events db).
Proof. intros H. eapply NoDup_fmap_1, wf_ids, H. Qed.

#[export] Instance position_order : LebOrder position_le.
Proof. split; unfold position_le; intros; rewrite ?Z.leb_le in *; lia. Qed.

Lemma select_after_filter db f after limit : wf_db db →
  select_after db f after limit = take (Z.to_nat limit)
    (List.filter (λ r, (after <? position r)%Z && f r) (execution_events db)).
Proof.
  intros H. unfold select_after. f_equal.
  apply sort_by_sorted_id. by apply sorted_filter, events_sorted.
Qed.

Section aggregates.
Context (db : database) (streams : list stream) (after : Z) (n : nat).
Hypothesis Hwf : wf_db db.
Hypothesis Hdistinct : NoDup streams.

Let wanted (r : row) : bool := existsb (λ s, in_stream s r) streams.
Let merged : list row :=
  List.filter (λ r, (after <? position r)%Z && wanted r) (execution_events db).
Let part (s : stream) : list row := take n (List.filter (in_stream s) merged).

Lemma select_part s :
  s ∈ streams → select_after db (in_stream s) after (Z.of_nat n) = part s.
Proof.
  intros Hs. rewrite select_after_filter, Nat2Z.id by done. unfold part, merged.
  f_equal. rewrite filter_filter. apply filter_ext_elem. intros r _.
  destruct (in_stream s r) eqn:E; [|by rewrite !andb_false_r]. rewrite !andb_true_r.
  assert (wanted r = true) as ->; [|by rewrite andb_true_r].
  apply existsb_true. by exists s.
Qed.

Lemma elem_of_parts r : r ∈ streams ≫= part ↔
  r ∈ merged ∧ ∃ s, s ∈ streams ∧ r ∈ part s.
Proof.
  rewrite list_elem_of_bind. split.
  - intros (s & Hr & Hs). split; [|eauto]. apply elem_of_take in Hr as (i & Hi & _).
    apply list_elem_of_lookup_2 in Hi. by apply list_filter_elem in Hi as [? _].
  - intros (_ & s & ? & ?). eauto.
Qed.

Lemma NoDup_part s : NoDup (part s).
Proof.
  assert (HN : NoDup (List.filter (in_stream s) merged)).
  { apply NoDup_list_filter, NoDup_list_filter. by apply events_NoDup. }
  unfold part. rewrite <- (take_drop n) in HN. by apply NoDup_app in HN as [? _].
Qed.

Lemma part_stream s r : r ∈ part s → event_stream (columns r) = s.
Proof.
  intros (i & Hi & _)%elem_of_take. apply list_elem_of_lookup_2 in Hi.
  apply list_filter_elem in Hi as [_ H]. unfold in_stream in H. by bool_props.
Qed.

Lemma NoDup_parts : NoDup (streams ≫= part).
Proof.
  clear - Hwf Hdistinct. revert Hdistinct. generalize merged part NoDup_part part_stream.
  intros _ part' HN Hs. induction streams as [|s l IH]; intros Hd; [constructor|].
  apply NoDup_cons in Hd as [Hn Hd]. simpl. apply NoDup_app.
  split_and!; [apply HN| |by apply IH].
  intros r Hr (s' & Hr' & Hs')%list_elem_of_bind. apply Hn.
  by rewrite <- (Hs s r Hr), (Hs s' r Hr').
Qed.

Lemma select_parts :
  select_aggregates db streams after (Z.of_nat n) = take n merged.
Proof.
  unfold select_aggregates. rewrite Nat2Z.id.
  assert (Hbind : streams ≫= (λ s, select_after db (in_stream s) after (Z.of_nat n)) =
                  streams ≫= part).
  { assert (Hall : ∀ s, s ∈ streams →
      select_after db (in_stream s) after (Z.of_nat n) = part s) by apply select_part.
    revert Hall. generalize part. clear. intros part'. induction streams as [|s l IH]; intros H; [done|].
    simpl. rewrite (H s) by (by left). f_equal. apply IH. intros s' Hs'. apply H. by right. }
  rewrite Hbind.
  set (kept := List.filter (λ r, bool_decide (r ∈ streams ≫= part)) merged).
  rewrite (sort_by_unique position_le _ kept).
  - rewrite sort_by_sorted_id.
    2:{ apply sorted_filter, sorted_filter. by apply events_sorted. }
    apply take_filter_all. intros r Hr. apply bool_decide_eq_true_2, elem_of_parts.
    assert (Hm : r ∈ merged).
    { apply elem_of_take in Hr as (i & Hi & _). by eapply list_elem_of_lookup_2. }
    split; [done|]. unfold merged in Hm. apply list_filter_elem in Hm as [_ Hm].
    apply andb_true_iff in Hm as [_ (s & Hs & Hrs)%existsb_true].
    exists s. split; [done|]. by apply take_filter_elem.
  - intros x y Hx Hy H1 H2. apply elem_of_parts in Hx as [Hx _], Hy as [Hy _].
    apply list_filter_elem in Hx as [Hx _], Hy as [Hy _].
    apply (position_inj db); try done. unfold position_le in *. bool_props. lia.
  - apply NoDup_Permutation; [apply NoDup_parts|by apply NoDup_list_filter, NoDup_list_filter, events_NoDup|].
    intros r. unfold kept. rewrite list_filter_elem, bool_decide_eq_true.
    split; [|tauto]. intros H. split; [|done]. by apply elem_of_parts in H as [? _].
Qed.
End aggregates.

(** Reading each aggregate through its own index and merging gives what one
    scan of the whole ledger for those aggregates would give, limit included. *)
Theorem select_aggregates_scan db streams after limit :
  wf_db db → NoDup streams → (0 ≤ limit)%Z →
  select_aggregates db streams after limit =
  select_after db (λ r, existsb (λ s, in_stream s r) streams) after limit.
Proof.
  intros Hwf HN Hl. rewrite <- (Z2Nat.id limit) by done. rewrite select_parts by done.
  by rewrite select_after_filter, Nat2Z.id.
Qed.

(** ** No secret is stored *)

Definition clean (c : candidate) : Prop :=
  ∀ k, k ∈ all_keys (actor_json c) ++ all_keys (payload_json c) →
    is_sensitive SENSITIVE_KEYS k = false.
Definition clean_db (db : database) : Prop :=
  ∀ r, r ∈ execution_events db → clean (columns r).

Lemma normalizeEvent_clean event s n c : normalizeEvent event s n = Ok c → clean c.
Proof.
  unfold normalizeEvent. intros H. inv_ok H. subst c.
  repeat match goal with u : () |- _ => destruct u end.
  intros k Hk. cbn [actor_json payload_json] in Hk. unfold json_column in Hk.
  rewrite !all_keys_reparse in Hk. apply elem_of_app in Hk as [Hk|Hk]; apply all_keys_stable in Hk;
    (eapply no_sensitive_key; [|exact Hk]; done).
Qed.

Lemma imap_normalize_clean l s f i cs :
  imap_result (λ index v, normalizeEvent v s (f index)) i l = Ok cs → ∀ c, c ∈ cs → clean c.
Proof.
  intros H c Hc. destruct (imap_result_source _ _ _ _ _ H Hc) as (j & v & _ & Hv).
  by eapply normalizeEvent_clean.
Qed.

Lemma prepareAppend_clean reg request p c :
  prepareAppend reg request = Ok p → c ∈ prep_candidates p → clean c.
Proof.
  unfold prepareAppend. intros H Hc. inv_ok H. subst p. cbn [prep_candidates] in Hc.
  match goal with
  | H : imap_result _ _ _ = Ok _ |- _ =>
      exact (imap_normalize_clean _ _
        (λ i, int_of (get "expected_version" request) + Z.of_nat i + 1)%Z _ _ H _ Hc)
  end.
Qed.

Lemma appendRows_clean now db p a db' :
  clean_db db → (∀ c, c ∈ prep_candidates p → clean c) →
  appendRows now db p = Ok (a, db') → clean_db db'.
Proof.
  intros Hdb Hp H. unfold appendRows in H. case_if_in H.
  - case_if_in H; [|done]. by injection H as _ <-.
  - apply bind_ok in H as (u & _ & H). apply bind_ok in H as (d & Hins & H). injection H as _ <-.
    apply fold_insert_ok in Hins as [He _]. intros r. rewrite He, elem_of_app.
    intros [Hr|Hr]; [by apply Hdb|]. apply Hp.
    rewrite <- (columns_numbered now (last_position db + 1) (prep_candidates p)).
    by apply list_elem_of_fmap_2.
Qed.

(** No event of the ledger names a secret, at any depth of its actor or its
    payload, however the name is spelled; a request that does is refused whole. *)
Theorem append_keeps_clean reg now l request :
  clean_db (db l) → clean_db (db (append reg now l request).2).
Proof.
  intros Hdb. unfold append. destruct (prepareAppend reg request) as [p|e] eqn:Hp; [|done].
  destruct (appendRows _ _ _) as [[a d]|e] eqn:Ha; [|done].
  eapply appendRows_clean; [done| |done]. intros c. by eapply prepareAppend_clean.
Qed.

(** ** Fresh identifiers *)

Definition value_id (event : value) : string := str_of (get "event_id" event).
Definition value_type (event : value) : string := str_of (get "event_type" event).

Lemma normalizeEvent_fields event s n c : normalizeEvent event s n = Ok c →
  event_id c = value_id event ∧ event_type c = value_type event ∧
  payload_json c = json_column (get "payload" event).
Proof. unfold normalizeEvent. intros H. inv_ok H. by subst c. Qed.

Lemma imap_normalize_fields l s f i cs :
  imap_result (λ index v, normalizeEvent v s (f index)) i l = Ok cs →
  event_id <$> cs = value_id <$> l ∧ event_type <$> cs = value_type <$> l ∧
  payload_json <$> cs = (λ v, json_column (get "payload" v)) <$> l.
Proof.
  revert i cs. induction l as [|v l IH]; intros i cs H; cbn [imap_result] in H;
    [by injection H as <-|].
  inv_ok H. subst cs. apply normalizeEvent_fields in Hok as (H1 & H2 & H3).
  destruct (IH _ _ Hok0) as (E1 & E2 & E3). rewrite !fmap_cons. by rewrite H1, H2, H3, E1, E2, E3.
Qed.

Lemma prepareAppend_fields reg request p : prepareAppend reg request = Ok p →
  prep_stream p = MkStream (str_of (get "aggregate_id" request))
                    (str_of (get "aggregate_type" request)) ∧
  prep_expected p = int_of (get "expected_version" request) ∧
  event_id <$> prep_candidates p = value_id <$> items_of (get "events" request) ∧
  event_type <$> prep_candidates p = value_type <$> items_of (get "events" request) ∧
  payload_json <$> prep_candidates p =
    (λ v, json_column (get "payload" v)) <$> items_of (get "events" request).
Proof.
  unfold prepareAppend. intros H. inv_ok H. subst p. cbn [prep_stream prep_expected prep_candidates].
  match goal with
  | H : imap_result _ _ _ = Ok _ |- _ =>
      destruct (imap_normalize_fields _ _
        (λ i, int_of (get "expected_version" request) + Z.of_nat i + 1)%Z _ _ H) as (? & ? & ?)
  end. done.
Qed.

(** With identifiers the table has not seen, an append that answers has found its
    stream at the expected version and put its rows at the end of the table. *)
Lemma append_fresh reg now l request v l' :
  wf_db (db l) →
  (∀ e, e ∈ items_of (get "events" request) → value_id e ∉ row_id <$> execution_events (db l)) →
  append reg now l request = (Ok v, l') →
  let s := MkStream (str_of (get "aggregate_id" request)) (str_of (get "aggregate_type" request)) in
  let events := items_of (get "events" request) in
  selectVersion (db l) s = int_of (get "expected_version" request) ∧
  wf_db (db l') ∧ extends (db l) (db l') ∧
  ∃ added, stream_rows (db l') s = stream_rows (db l) s ++ added ∧
    (λ r, event_type (columns r)) <$> added = value_type <$> events ∧
    (λ r, payload_json (columns r)) <$> added =
      (λ e, json_column (get "payload" e)) <$> events.
Proof.
  intros Hwf Hfresh H s events. unfold append in H.
  destruct (prepareAppend reg request) as [p|e] eqn:Hp; [|done].
  pose proof (prepareAppend_wf _ _ _ Hp) as Hwp.
  destruct (prepareAppend_fields _ _ _ Hp) as (Hs & He & Hids & Htypes & Hpay).
  destruct (appendRows now (db l) p) as [[a d]|e] eqn:Ha; [|done]. injection H as _ <-. cbn [db].
  pose proof (appendRows_wf _ _ _ _ _ Hwf Hwp Ha) as [Hwf' Hext].
  assert (Hex : existsb (λ o : option row, bool_decide (is_Some o))
    ((λ c, selectById (db l) (event_id c)) <$> prep_candidates p) = false).
  { apply existsb_existing. intros c Hc. apply (list_elem_of_fmap_2 event_id) in Hc.
    rewrite Hids in Hc. apply list_elem_of_fmap in Hc as (x & -> & Hx). by apply Hfresh. }
  unfold appendRows in Ha. rewrite Hex in Ha. apply bind_ok in Ha as (u & Hv & Ha).
  apply bind_ok in Ha as (d' & Hins & Ha). injection Ha as _ <-. inv_throw_if. bool_props.
  rewrite <- He, <- Hv, Hs. split_and!; try done.
  apply fold_insert_ok in Hins as [Hev _].
  exists (numbered now (last_position (db l) + 1) (prep_candidates p)). split_and!.
  - unfold stream_rows. rewrite Hev, List.filter_app. f_equal.
    rewrite (filter_numbered _ _ _ (prep_stream p)) by apply (prep_in_stream _ Hwp).
    by rewrite Hs, decide_True.
  - by rewrite (fmap_numbered event_type).
  - by rewrite (fmap_numbered payload_json).
Qed.

Lemma append_grows reg now l request :
  wf_db (db l) → wf_db (db (append reg now l request).2) ∧
  extends (db l) (db (append reg now l request).2).
Proof.
  intros Hwf. unfold append. assert (Hid : extends (db l) (db l)) by apply extends_refl.
  destruct (prepareAppend reg request) as [p|e] eqn:Hp; [|done].
  apply prepareAppend_wf in Hp. destruct (appendRows _ _ _) as [[a d]|e] eqn:Ha; [|done].
  by eapply appendRows_wf.
Qed.

Lemma append_throws reg now l request e l' :
  append reg now l request = (Throw e, l') → db l' = db l.
Proof.
  unfold append. destruct (prepareAppend reg request) as [p|]; [|by intros [= _ <-]].
  destruct (appendRows _ _ _) as [[a d]|]; [done|by intros [= _ <-]].
Qed.

(** ** What an append adds, column by column *)

Section effects.
Context {A : Type} (f : candidate → A) (g : value → A).
Hypothesis column_of : ∀ e s n c, normalizeEvent e s n = Ok c → f c = g e.

Lemma imap_normalize_columns l s h i cs :
  imap_result (λ index v, normalizeEvent v s (h index)) i l = Ok cs → f <$> cs = g <$> l.
Proof.
  revert i cs. induction l as [|v l IH]; intros i cs H; cbn [imap_result] in H; [by injection H as <-|].
  inv_ok H. subst cs. rewrite !fmap_cons, (column_of _ _ _ _ Hok). f_equal. by eapply IH.
Qed.

Lemma prepareAppend_columns reg request p : prepareAppend reg request = Ok p →
  f <$> prep_candidates p = g <$> items_of (get "events" request).
Proof.
  unfold prepareAppend. intros H. inv_ok H. subst p. cbn [prep_candidates].
  match goal with
  | H : imap_result _ _ _ = Ok _ |- _ =>
      exact (imap_normalize_columns _ _
        (λ i, int_of (get "expected_version" request) + Z.of_nat i + 1)%Z _ _ H)
  end.
Qed.

(** An append that answers has changed nothing (a replay of stored events) or has put
    its events at the end of its stream, which was at the expected version; it has
    advanced when the version expected is the current one. *)
Lemma append_effect reg now l request v l' :
  wf_db (db l) → append reg now l request = (Ok v, l') →
  let s := MkStream (str_of (get "aggregate_id" request)) (str_of (get "aggregate_type" request)) in
  let expected := int_of (get "expected_version" request) in
  let advanced := selectVersion (db l) s = expected ∧
    (∀ s', s' ≠ s → stream_rows (db l') s' = stream_rows (db l) s') ∧
    ∃ added, stream_rows (db l') s = stream_rows (db l) s ++ added ∧
      (λ r, f (columns r)) <$> added = g <$> items_of (get "events" request) in
  wf_db (db l') ∧ (db l' = db l ∨ advanced) ∧ (selectVersion (db l) s = expected → advanced).
Proof.
  intros Hwf H s expected advanced. unfold append in H.
  destruct (prepareAppend reg request) as [p|e] eqn:Hp; [|done].
  pose proof (prepareAppend_wf _ _ _ Hp) as Hwp. pose proof (prepareAppend_columns _ _ _ Hp) as Hcols.
  destruct (prepareAppend_fields _ _ _ Hp) as (Hs & He & _).
  destruct (appendRows now (db l) p) as [[a d]|e] eqn:Ha; [|done]. injection H as _ <-. cbn [db] in *.
  split; [by eapply appendRows_wf|]. unfold appendRows in Ha. case_if_in Ha.
  - case_if_in Ha; [|done]. injection Ha as _ <-. split; [by left|]. intros Hv. exfalso.
    destruct (prep_candidates p) as [|c cs] eqn:Ecs; [by apply (prep_nonempty _ Hwp)|].
    cbn [fmap list_fmap zip zip_with forallb fst snd] in *. bool_props.
    destruct (selectById (db l) (event_id c)) as [r|] eqn:Er; [|done].
    unfold selectById in Er. apply find_some_elem in Er as [Hr _].
    unfold samePersistedEvent in *. bool_props.
    assert (Hst : event_stream (columns r) = s).
    { pose proof (prep_in_stream _ Hwp c) as Hc. rewrite Ecs in Hc. specialize (Hc ltac:(by left)).
      rewrite Hs in Hc. fold s in Hc. rewrite <- Hc.
      destruct (event_stream (columns r)), (event_stream c); cbn in *; by subst. }
    pose proof (stream_rows_before _ _ _ Hwf Hr Hst) as Hlt.
    pose proof (prep_sequences _ Hwp) as Hq. rewrite Ecs in Hq. cbn in Hq. injection Hq as Hq _.
    unfold row_sequence, expected in *. lia.
  - apply bind_ok in Ha as (u & Hv & Ha). apply bind_ok in Ha as (d' & Hins & Ha). injection Ha as _ <-.
    inv_throw_if. bool_props. pose proof (fold_insert_ok _ _ _ _ Hins) as [Hev _].
    assert (Hrows : ∀ s', stream_rows d' s' = stream_rows (db l) s' ++
        if decide (s = s') then numbered now (last_position (db l) + 1) (prep_candidates p) else []).
    { intros s'. unfold stream_rows. rewrite Hev, List.filter_app. f_equal.
      rewrite (filter_numbered _ _ _ (prep_stream p)) by apply (prep_in_stream _ Hwp). by rewrite Hs. }
    assert (Hadv : advanced); [|by split; [right|]].
    split_and!; [by rewrite Hs, He in Hv|intros s' Hne; rewrite Hrows, decide_False by done; apply app_nil_r|].
    eexists. rewrite Hrows, decide_True by done. split; [reflexivity|]. by rewrite (fmap_numbered f).
Qed.
End effects.

(** ** Witnesses *)

Definition sample_uuid (c : string) : string := "00000000-0000-4000-8000-00000000000" +:+ c.
Definition started_fact (id : string) : value :=
  VObj [("event_id", VStr (sample_uuid id)); ("event_type", VStr "ExecutionStarted");
        ("schema_version", VNum (NInt 1)); ("occurred_at", VStr "2024-02-29T12:00:00.000Z");
        ("correlation_id", VStr "c"); ("causation_id", VStr "r");
        ("actor", VObj [("id", VStr "a")]); ("operation_id", VStr "op");
        ("payload", VObj [("tool", VStr "t"); ("provider", VStr "p");
           ("idempotency_key", VStr "k"); ("dispatch_attempt", VNum (NInt 1));
           ("deadline", VStr "2024-02-29T12:00:01.000Z")]);
        ("evidence_refs", VArr [])].
Definition append_request (version : Z) (events : list value) : value :=
  VObj [("aggregate_id", VStr "op"); ("aggregate_type", VStr "execution");
        ("expected_version", VNum (NInt version)); ("events", VArr events)].
Definition empty_ledger : ledger :=
  MkLedger (MkDb [] [("ExecutionStarted", 1%Z)]) no_metrics.

Lemma empty_ledger_wf : wf_db (db empty_ledger).
Proof. split; [done|constructor|done]. Qed.

Definition first_append : result value * ledger :=
  append execution_registry "now" empty_ledger (append_request 0 [started_fact "1"]).

Lemma first_append_wf : wf_db (db first_append.2).
Proof.
  unfold first_append, append. destruct (prepareAppend _ _) as [p|e] eqn:Hp; [|apply empty_ledger_wf].
  apply prepareAppend_wf in Hp. destruct (appendRows _ _ _) as [[a d]|e] eqn:Ha; [|apply empty_ledger_wf].
  eapply (appendRows_wf _ _ _ _ _ empty_ledger_wf Hp Ha).
Qed.

Lemma ledger_invariant_witness :
  wf_db (db first_append.2) ∧ extends (db empty_ledger) (db first_append.2).
Proof.
  apply (ledger_invariant execution_registry "now" empty_ledger
           (append_request 0 [started_fact "1"])).
  - apply empty_ledger_wf.
  - by left.
Defined.

Definition first_prepared : prepared :=
  match prepareAppend execution_registry (append_request 0 [started_fact "1"]) with
  | Ok p => p
  | Throw _ => MkPrepared (MkStream "" "") 0 []
  end.

Lemma first_prepared_wf : well_prepared first_prepared.
Proof.
  eapply (prepareAppend_wf execution_registry (append_request 0 [started_fact "1"])).
  vm_compute. reflexivity.
Qed.
Lemma first_prepared_insertable : insertable (db empty_ledger) first_prepared.
Proof.
  intros c Hc. split; [|by apply not_elem_of_nil].
  vm_compute in Hc. apply list_elem_of_singleton in Hc as ->.
  apply (bool_decide_unpack _). vm_compute. exact I.
Qed.
Lemma first_prepared_version :
  selectVersion (db empty_ledger) (prep_stream first_prepared) = prep_expected first_prepared.
Proof. vm_compute. reflexivity. Qed.

Lemma appendRows_new_witness :
  ∃ db', appendRows "now" (db empty_ledger) first_prepared =
    Ok (MkAppended
          (numbered "now" (last_position (db empty_ledger) + 1) (prep_candidates first_prepared))
          (prep_expected first_prepared + Z.of_nat (length (prep_candidates first_prepared)))
          false, db').
Proof.
  pose proof (appendRows_new "now" (db empty_ledger) first_prepared empty_ledger_wf
    first_prepared_wf first_prepared_insertable) as H.
  cbv zeta in H. rewrite decide_True in H by exact first_prepared_version.
  destruct H as (db' & H & _). exists db'. exact H.
Defined.

Lemma append_retry_witness :
  ∃ v v' l3, first_append.1 = Ok v ∧
    append execution_registry "later" first_append.2 (append_request 0 [started_fact "1"])
      = (Ok v', l3) ∧
    db l3 = db first_append.2 ∧ get "events" v' = get "events" v ∧
    get "idempotent" v' = VBool true.
Proof.
  destruct first_append as [[v|e] l1] eqn:E; [|vm_compute in E; discriminate E].
  exists v. destruct (append_retry execution_registry "now" "later" empty_ledger
    (append_request 0 [started_fact "1"]) v l1 l1) as (v' & l3 & H).
  - apply empty_ledger_wf.
  - exact E.
  - vm_compute in E. injection E as <- _. reflexivity.
  - change l1 with (snd (Ok v, l1)). rewrite <- E. apply first_append_wf.
  - apply extends_refl.
  - exists v', l3. split; [reflexivity|exact H].
Defined.

Lemma select_aggregates_scan_witness :
  select_aggregates (db first_append.2) [MkStream "op" "execution"] 0 10 =
  select_after (db first_append.2)
    (λ r, existsb (λ s, in_stream s r) [MkStream "op" "execution"]) 0 10.
Proof.
  apply select_aggregates_scan; [apply first_append_wf|apply NoDup_singleton|lia].
Defined.

Lemma append_keeps_clean_witness : clean_db (db first_append.2).
Proof.
  apply (append_keeps_clean execution_registry "now" empty_ledger).
  by intros r ?%not_elem_of_nil.
Defined.
