(* ===== verification/Approvals.v ===== *)
(** * The approval store (tools/mcp-project-state/lib/execution-approval-store.js)

    Approvals are issued for one operation, one resource scope, one policy version
    and a window of time, and consumed once, in the transaction that records the
    facts they authorize.  The database is the two tables of the store with the
    triggers that guard an insertion.  [consume] runs on the ledger whose
    transaction it shares: a throw restores both databases and keeps the ledger's
    in-memory metrics. *)
From S2P Require Import Prelude JsValue CanonicalJson StrictJson Time.
From S2P Require Ledger.

Definition ApprovalError (message code : string) : value := error "ApprovalError" message code.
Definition invalid_approval (message : string) : value :=
  ApprovalError message "EXECUTION_APPROVAL_INVALID".

Definition SENSITIVE_KEYS : list string :=
  ["access_token"; "api_key"; "approval_token"; "authorization"; "client_secret"; "cookie";
   "credential"; "credentials"; "password"; "private_key"; "refresh_token"; "secret";
   "session_cookie"; "token"].

(** [assertStrictJson], which also refuses the names of secrets. *)
Fixpoint assertStrictApproval (v : value) (path : string) : result unit :=
  match v with
  | VNull | VStr _ | VBool _ => Ok ()
  | VNum n =>
      throw_if (negb (num_finite n)) (invalid_approval (path +:+ " contains a non-finite number"))
  | VUndef => Throw (invalid_approval (path +:+ " contains a non-JSON value"))
  | VArr items =>
      (fix go (i : nat) (l : list value) : result unit :=
        match l with
        | [] => Ok ()
        | x :: l => _ ← assertStrictApproval x (path +:+ "[" +:+ pretty i +:+ "]"); go (S i) l
        end) 0%nat items
  | VObj fields =>
      (fix go (l : list (string * value)) : result unit :=
        match l with
        | [] => Ok ()
        | (k, x) :: l =>
            _ ← throw_if (is_sensitive SENSITIVE_KEYS k)
                  (ApprovalError ("Sensitive field is forbidden in " +:+ path +:+ ": " +:+ k)
                     "EXECUTION_APPROVAL_SENSITIVE_DATA");
            _ ← assertStrictApproval x (path +:+ "." +:+ k);
            go l
        end) fields
  end.

(** [stableJson(value, field)], as the column it fills. *)
Definition stableJson (v : value) (field : string) : result value :=
  _ ← throw_if (negb (is_record v)) (invalid_approval (field +:+ " must be an object"));
  _ ← assertStrictApproval v field;
  Ok (Ledger.json_column v).

Definition requireText (v : value) (field : string) : result unit :=
  throw_if (negb (nonempty_string v)) (invalid_approval (field +:+ " must be a non-empty string")).
Definition requireTimestamp (v : value) (field : string) : result unit :=
  _ ← requireText v field;
  throw_if (negb (is_canonical_timestamp (str_of v)))
    (invalid_approval (field +:+ " must be a canonical UTC timestamp")).

Record approval := MkApproval {
  approval_id : string;
  operation_id : string;
  authorizer_json : value;
  resource_scope_json : value;
  issued_at : string;
  expires_at : string;
  decision : string;
  policy_version : string;
  evidence_ref : string;
}.
Record approval_use := MkUse {
  use_approval_id : string;
  use_operation_id : string;
  consumed_at : string;
}.
Record store := MkStore {
  execution_approvals : list approval;
  execution_approval_uses : list approval_use;
}.

Definition hydrate (a : approval) : value :=
  VObj [("approval_id", VStr (approval_id a)); ("operation_id", VStr (operation_id a));
        ("authorizer", authorizer_json a); ("resource_scope", resource_scope_json a);
        ("issued_at", VStr (issued_at a)); ("expires_at", VStr (expires_at a));
        ("decision", VStr (decision a)); ("policy_version", VStr (policy_version a));
        ("evidence_ref", VStr (evidence_ref a))].

(** ** Statements *)

Definition select_approval (s : store) (id : string) : option approval :=
  find (λ a, approval_id a =s id) (execution_approvals s).
(** [WHERE approval_id = ? OR operation_id = ?] *)
Definition select_use (s : store) (id op : string) : option approval_use :=
  find (λ u, (use_approval_id u =s id) || (use_operation_id u =s op)) (execution_approval_uses s).

Definition insert_approval (s : store) (a : approval) : result store :=
  _ ← throw_if (bool_decide (is_Some (select_approval s (approval_id a))))
        (Ledger.SqliteError "execution_approvals identity is immutable");
  Ok {| execution_approvals := execution_approvals s ++ [a];
        execution_approval_uses := execution_approval_uses s |}.
Definition insert_use (s : store) (u : approval_use) : result store :=
  _ ← throw_if (bool_decide (is_Some (select_use s (use_approval_id u) (use_operation_id u))))
        (Ledger.SqliteError "execution_approval_uses identity is immutable");
  Ok {| execution_approvals := execution_approvals s;
        execution_approval_uses := execution_approval_uses s ++ [u] |}.

(** ** Operations *)

(** [get(approvalId)]; [null] when there is no such approval. *)
Definition get_approval (s : store) (approvalId : value) : result value :=
  _ ← requireText approvalId "approval_id";
  Ok match select_approval s (str_of approvalId) with
     | Some a => hydrate a
     | None => VNull
     end.

Definition parse_record (record : value) : result approval :=
  let field k := get k record in
  _ ← throw_if (negb (is_record record)) (invalid_approval "Approval must be an object");
  _ ← for_each (λ k, requireText (field k) k)
        ["approval_id"; "operation_id"; "policy_version"; "evidence_ref"];
  _ ← requireTimestamp (field "issued_at") "issued_at";
  _ ← requireTimestamp (field "expires_at") "expires_at";
  _ ← throw_if
        (match field "decision" with VStr d => negb (d ∈s ["approved"; "denied"]) | _ => true end)
        (invalid_approval "decision must be approved or denied");
  _ ← throw_if (negb (string_lt (str_of (field "issued_at")) (str_of (field "expires_at"))))
        (invalid_approval "expires_at must be after issued_at");
  authorizerJson ← stableJson (field "authorizer") "authorizer";
  resourceScopeJson ← stableJson (field "resource_scope") "resource_scope";
  _ ← for_each (λ k, requireText (get k (field "authorizer")) ("authorizer." +:+ k))
        ["id"; "type"];
  _ ← throw_if (length (object_keys (field "resource_scope")) =? 0)%nat
        (invalid_approval "resource_scope must not be empty");
  Ok {| approval_id := str_of (field "approval_id");
        operation_id := str_of (field "operation_id");
        authorizer_json := authorizerJson; resource_scope_json := resourceScopeJson;
        issued_at := str_of (field "issued_at"); expires_at := str_of (field "expires_at");
        decision := str_of (field "decision");
        policy_version := str_of (field "policy_version");
        evidence_ref := str_of (field "evidence_ref") |}.

Definition issue (s : store) (record : value) : result (value * store) :=
  a ← parse_record record;
  s' ← match insert_approval s a with
       | Ok s' => Ok s'
       | Throw e =>
           if error_code e =s "SQLITE_CONSTRAINT_PRIMARYKEY"
           then Throw (ApprovalError "Approval identifier already exists"
                         "EXECUTION_APPROVAL_DUPLICATE")
           else Throw e
       end;
  v ← get_approval s' (VStr (approval_id a));
  Ok (v, s').

Record consumption := MkConsumption {
  req_approval_id : string;
  req_operation_id : string;
  req_policy_version : string;
  req_resource_scope_json : value;
  req_now : string;
}.

Definition parse_consumption (request : value) : result consumption :=
  let field k := get k request in
  _ ← for_each (λ k, requireText (field k) k) ["approval_id"; "operation_id"; "policy_version"];
  _ ← requireTimestamp (field "now") "now";
  scope ← stableJson (field "resource_scope") "resource_scope";
  Ok {| req_approval_id := str_of (field "approval_id");
        req_operation_id := str_of (field "operation_id");
        req_policy_version := str_of (field "policy_version");
        req_resource_scope_json := scope;
        req_now := str_of (field "now") |}.

Definition same_text (a b : value) : bool :=
  bool_decide (Ledger.column_text a = Ledger.column_text b).

(** The guards of the transaction, in order. *)
Definition check_consumption (s : store) (r : consumption) : result approval :=
  match select_approval s (req_approval_id r) with
  | None => Throw (ApprovalError "Approval not found" "EXECUTION_APPROVAL_NOT_FOUND")
  | Some a =>
      _ ← throw_if (bool_decide (is_Some (select_use s (req_approval_id r) (req_operation_id r))))
            (ApprovalError "Approval or operation authorization was already consumed"
               "EXECUTION_APPROVAL_REUSED");
      _ ← throw_if (negb (decision a =s "approved"))
            (ApprovalError "Approval decision is not approved" "EXECUTION_APPROVAL_DENIED");
      _ ← throw_if (negb (operation_id a =s req_operation_id r))
            (ApprovalError "Approval operation scope mismatch" "EXECUTION_APPROVAL_SCOPE_MISMATCH");
      _ ← throw_if (negb (policy_version a =s req_policy_version r))
            (ApprovalError "Approval policy version mismatch" "EXECUTION_APPROVAL_POLICY_MISMATCH");
      _ ← throw_if (negb (same_text (resource_scope_json a) (req_resource_scope_json r)))
            (ApprovalError "Approval resource scope mismatch" "EXECUTION_APPROVAL_SCOPE_MISMATCH");
      _ ← throw_if (string_lt (req_now r) (issued_at a))
            (ApprovalError "Approval is not active yet" "EXECUTION_APPROVAL_NOT_ACTIVE");
      _ ← throw_if (negb (string_lt (req_now r) (expires_at a)))
            (ApprovalError "Approval expired" "EXECUTION_APPROVAL_EXPIRED");
      Ok a
  end.

(** The ledger after a transaction that threw. *)
Definition rolled_back (before after : Ledger.ledger) : Ledger.ledger :=
  Ledger.MkLedger (Ledger.db before) (Ledger.ledger_metrics after).

(** What a consumption does before its callback: the guards and the insertion of the use. *)
Definition authorization (s : store) (request : value) : result (approval * store) :=
  r ← parse_consumption request; a ← check_consumption s r;
  s' ← insert_use s (MkUse (req_approval_id r) (req_operation_id r) (req_now r));
  Ok (a, s').

(** [consume(request, onConsumed)] *)
Definition consume (s : store) (l : Ledger.ledger) (request : value)
    (onConsumed : Ledger.ledger → result value * Ledger.ledger) :
    result value * store * Ledger.ledger :=
  match authorization s request with
  | Throw e => (Throw e, s, l)
  | Ok (a, s') =>
      match onConsumed l with
      | (Ok _, l') => (Ok (hydrate a), s', l')
      | (Throw e, l') => (Throw e, s, rolled_back l l')
      end
  end.

(** ** What the store guarantees *)

(** The instant [t] is in the window of the approval. *)
Definition active_at (a : approval) (t : Z) : Prop :=
  (time_of (issued_at a) ≤ t < time_of (expires_at a))%Z.

Definition wf_approval (a : approval) : Prop :=
  is_canonical_timestamp (issued_at a) = true ∧ is_canonical_timestamp (expires_at a) = true ∧
  decision a ∈ ["approved"; "denied"] ∧ (time_of (issued_at a) < time_of (expires_at a))%Z.

(** Every use is of a stored approval that granted that operation at that time;
    neither an approval nor an operation is used twice. *)
Record wf_store (s : store) : Prop := {
  wf_approval_ids : NoDup (approval_id <$> execution_approvals s);
  wf_approvals a : a ∈ execution_approvals s → wf_approval a;
  wf_use_approvals : NoDup (use_approval_id <$> execution_approval_uses s);
  wf_use_operations : NoDup (use_operation_id <$> execution_approval_uses s);
  wf_uses u : u ∈ execution_approval_uses s →
    ∃ a, a ∈ execution_approvals s ∧ approval_id a = use_approval_id u ∧
      operation_id a = use_operation_id u ∧ decision a = "approved" ∧
      active_at a (time_of (consumed_at u));
}.

(** A stored use is known by its approval. *)
Lemma use_unique s u u' : wf_store s → u ∈ execution_approval_uses s → u' ∈ execution_approval_uses s →
  use_approval_id u = use_approval_id u' → u = u'.
Proof.
  intros Hs Hu Hu' E. apply list_elem_of_lookup in Hu as [i Hi], Hu' as [j Hj].
  assert (i = j) as ->; [|congruence]. eapply (NoDup_lookup _ _ _ (use_approval_id u)); [apply (wf_use_approvals s Hs)|..].
  - by rewrite list_lookup_fmap, Hi.
  - rewrite list_lookup_fmap, Hj. cbn. by rewrite E.
Qed.

Lemma requireTimestamp_ok v field : requireTimestamp v field = Ok () →
  is_canonical_timestamp (str_of v) = true.
Proof. unfold requireTimestamp. intros H. apply bind_unit in H as [_ H]. inv_throw_if. by bool_props. Qed.

Lemma parse_record_wf record a : parse_record record = Ok a → wf_approval a.
Proof.
  unfold parse_record. intros H. inv_ok H. subst a.
  repeat match goal with u : () |- _ => destruct u end.
  repeat match goal with
  | H : requireTimestamp _ _ = Ok _ |- _ => apply requireTimestamp_ok in H
  end.
  inv_throw_if. bool_props. unfold wf_approval. cbn.
  rewrite canonical_lt in * by done. bool_props. split_and!; try done.
  destruct (get "decision" record); try done. bool_props. by apply includes_spec.
Qed.

Lemma parse_consumption_time request r :
  parse_consumption request = Ok r → is_canonical_timestamp (req_now r) = true.
Proof.
  unfold parse_consumption. intros H. inv_ok H. subst r.
  repeat match goal with u : () |- _ => destruct u end.
  repeat match goal with
  | H : requireTimestamp _ _ = Ok _ |- _ => apply requireTimestamp_ok in H
  end. done.
Qed.

Lemma select_approval_some s id a :
  select_approval s id = Some a → a ∈ execution_approvals s ∧ approval_id a = id.
Proof. intros [H E]%find_some_elem. by bool_props. Qed.

Lemma find_not_some {A} (f : A → bool) l : ¬ is_Some (find f l) → ∀ x, x ∈ l → f x = false.
Proof.
  intros H. destruct (find f l) eqn:E; [exfalso; eauto|].
  by apply existsb_false, find_none_elem.
Qed.

Lemma insert_approval_wf s a s' :
  wf_store s → wf_approval a → insert_approval s a = Ok s' → wf_store s'.
Proof.
  intros Hs Ha H. unfold insert_approval in H. inv_ok H. inv_throw_if. bool_props. subst s'.
  pose proof (find_not_some _ _ Hok) as Hnew. destruct Hs. split; cbn; try done.
  - rewrite fmap_app. apply NoDup_app. split_and!; [done| |apply NoDup_singleton].
    intros x (b & -> & Hb)%list_elem_of_fmap E%list_elem_of_singleton.
    specialize (Hnew b Hb). simpl in Hnew. by bool_props.
  - intros b [Hb| ->%list_elem_of_singleton]%elem_of_app; auto.
  - intros u Hu. destruct (wf_uses0 u Hu) as (b & Hb & ?). exists b. set_solver.
Qed.

(** What a consumption that passes the guards has established. *)
Lemma check_consumption_ok s r a :
  wf_store s → is_canonical_timestamp (req_now r) = true →
  check_consumption s r = Ok a →
  a ∈ execution_approvals s ∧ approval_id a = req_approval_id r ∧
  operation_id a = req_operation_id r ∧ policy_version a = req_policy_version r ∧
  decision a = "approved" ∧ active_at a (time_of (req_now r)) ∧
  same_text (resource_scope_json a) (req_resource_scope_json r) = true ∧
  ∀ u, u ∈ execution_approval_uses s →
    use_approval_id u ≠ req_approval_id r ∧ use_operation_id u ≠ req_operation_id r.
Proof.
  intros Hs Hnow H. unfold check_consumption in H.
  destruct (select_approval s _) as [b|] eqn:Hb; [|done]. inv_ok H. subst b.
  apply select_approval_some in Hb as [Hin Hid]. inv_throw_if. bool_props.
  destruct (wf_approvals _ Hs a Hin) as (Hi & He & _ & _).
  rewrite canonical_lt in * by done. bool_props.
  split_and!; try done. intros u Hu. pose proof (find_not_some _ _ Hok u Hu) as E.
  simpl in E. by bool_props.
Qed.

Lemma insert_use_wf s u s' a :
  wf_store s → insert_use s u = Ok s' → a ∈ execution_approvals s →
  approval_id a = use_approval_id u → operation_id a = use_operation_id u →
  decision a = "approved" → active_at a (time_of (consumed_at u)) → wf_store s'.
Proof.
  intros Hs H Ha Hid Hop Hd Hact. unfold insert_use in H. inv_ok H. inv_throw_if. bool_props.
  subst s'. pose proof (find_not_some _ _ Hok) as Hnew. destruct Hs. split; cbn; try done.
  - rewrite fmap_app. apply NoDup_app. split_and!; [done| |apply NoDup_singleton].
    intros x (b & -> & Hb)%list_elem_of_fmap E%list_elem_of_singleton.
    specialize (Hnew b Hb). simpl in Hnew. by bool_props.
  - rewrite fmap_app. apply NoDup_app. split_and!; [done| |apply NoDup_singleton].
    intros x (b & -> & Hb)%list_elem_of_fmap E%list_elem_of_singleton.
    specialize (Hnew b Hb). simpl in Hnew. by bool_props.
  - intros v [Hv| ->%list_elem_of_singleton]%elem_of_app; [by apply wf_uses0|].
    by exists a.
Qed.

(** An authorized consumption adds one use, of the approval and for the operation asked. *)
Lemma authorization_ok s request a s' :
  wf_store s → authorization s request = Ok (a, s') →
  wf_store s' ∧ execution_approvals s' = execution_approvals s ∧
  ∃ r, parse_consumption request = Ok r ∧
    execution_approval_uses s' =
      execution_approval_uses s ++ [MkUse (req_approval_id r) (req_operation_id r) (req_now r)] ∧
    a ∈ execution_approvals s ∧ approval_id a = req_approval_id r ∧ decision a = "approved" ∧
    same_text (resource_scope_json a) (req_resource_scope_json r) = true.
Proof.
  intros Hs H. unfold authorization in H. apply bind_ok in H as (r & Hr & H). apply bind_ok in H as (b & Hb & H).
  apply bind_ok in H as (s1 & H1 & H). injection H as <- <-.
  pose proof (parse_consumption_time _ _ Hr) as Ht.
  destruct (check_consumption_ok _ _ _ Hs Ht Hb) as (Hin & Hid & Hop & _ & Hd & Hact & Hsc & _).
  split; [by eapply insert_use_wf|]. unfold insert_use in H1. inv_ok H1. subst s1. split; [done|by exists r].
Qed.

(** Issuing adds an approval and spends none. *)
Lemma issue_ok s record v s' : wf_store s → issue s record = Ok (v, s') →
  wf_store s' ∧ execution_approval_uses s' = execution_approval_uses s.
Proof.
  intros Hs H. unfold issue in H. apply bind_ok in H as (a & Ha & H).
  apply bind_ok in H as (s1 & H1 & H). apply bind_ok in H as (w & _ & H).
  injection H as _ <-. destruct (insert_approval s a) as [s2|e] eqn:Hi; [|by case_if_in H1].
  injection H1 as <-. split; [eapply insert_approval_wf; [done| |done]; by eapply parse_record_wf|].
  unfold insert_approval in Hi. inv_ok Hi. by subst s2.
Qed.

(** C36: the store stays well formed whatever is issued or consumed: an approval and
    an operation are used at most once, and only with an approval that was granted
    for that operation and is active at that instant. *)
Theorem store_invariant s l record request onConsumed :
  wf_store s →
  (∀ v s', issue s record = Ok (v, s') → wf_store s') ∧
  wf_store (consume s l request onConsumed).1.2.
Proof.
  intros Hs. split.
  - intros v s' H. by eapply issue_ok.
  - unfold consume. destruct (authorization s request) as [[a s']|e] eqn:H; [|done].
    destruct (onConsumed l) as [[v|e] l']; [|done]. cbn.
    by apply authorization_ok in H as [? _].
Qed.

(** A consumption either runs its callback to the end or restores the ledger. *)
Lemma consume_callback s l request onConsumed res s' l' :
  consume s l request onConsumed = (res, s', l') →
  match res with
  | Ok _ => ∃ w, onConsumed l = (Ok w, l')
  | Throw _ => Ledger.db l' = Ledger.db l
  end.
Proof.
  unfold consume. destruct (authorization s request) as [[a s1]|e]; [|by intros [= <- <- <-]].
  destruct (onConsumed l) as [[v|e] l1]; intros [= <- <- <-]; eauto.
Qed.

(** C8: a consumption that succeeds has recorded its facts with an approval of the
    operation, granted, for the same scope and policy version, active at that
    time and never used; from then on the approval and the operation are spent.
    One that throws, in its guards or in its callback after whatever that has
    appended, leaves both databases as they were. *)
Theorem consume_outcome s l request onConsumed res s' l' :
  wf_store s → consume s l request onConsumed = (res, s', l') →
  match res with
  | Ok v => ∃ a r w, parse_consumption request = Ok r ∧ v = hydrate a ∧
      a ∈ execution_approvals s ∧ approval_id a = req_approval_id r ∧
      operation_id a = req_operation_id r ∧ policy_version a = req_policy_version r ∧
      same_text (resource_scope_json a) (req_resource_scope_json r) = true ∧
      decision a = "approved" ∧ active_at a (time_of (req_now r)) ∧
      onConsumed l = (Ok w, l') ∧
      is_Some (select_use s' (approval_id a) "") ∧ select_use s (approval_id a) (operation_id a) = None
  | Throw _ => s' = s ∧ Ledger.db l' = Ledger.db l
  end.
Proof.
  intros Hs H. unfold consume in H. destruct (authorization s request) as [[a s1]|e] eqn:Hg.
  2:{ by injection H as <- <- <-. }
  unfold authorization in Hg. apply bind_ok in Hg as (r & Hr & Hg). apply bind_ok in Hg as (b & Hb & Hg).
  apply bind_ok in Hg as (s2 & Hu & Hg). injection Hg as -> ->.
  destruct (onConsumed l) as [[v|e] l1] eqn:Hc; injection H as <- <- <-; [|done].
  pose proof (parse_consumption_time _ _ Hr) as Ht.
  destruct (check_consumption_ok _ _ _ Hs Ht Hb) as (Hin & Hid & Hop & Hpol & Hd & Hact & Hsc & Hfresh).
  exists a, r, v. split_and!; try done.
  - unfold insert_use in Hu. inv_ok Hu. subst s1. unfold select_use. cbn.
    destruct (find _ _) eqn:E; [eauto|]. exfalso. rewrite find_none_elem, existsb_false in E.
    specialize (E (MkUse (req_approval_id r) (req_operation_id r) (req_now r))).
    cbn in E. rewrite Hid, String.eqb_refl in E. discriminate E. set_solver.
  - destruct (select_use s _ _) as [u|] eqn:E; [|done]. exfalso.
    apply find_some_elem in E as [Hin' E]. destruct (Hfresh u Hin') as [H1 H2].
    rewrite Hid, Hop in E. apply String.eqb_neq in H1. apply String.eqb_neq in H2.
    by rewrite H1, H2 in E.
Qed.

(** The code meant for an approval identifier that already exists,
    EXECUTION_APPROVAL_DUPLICATE, is never reported: the trigger of the table
    aborts the insertion first, and its own error is what the caller gets. *)
Theorem issue_duplicate s record a :
  parse_record record = Ok a → approval_id a ∈ approval_id <$> execution_approvals s →
  issue s record = Throw (Ledger.SqliteError "execution_approvals identity is immutable").
Proof.
  intros Ha (b & E & Hb)%list_elem_of_fmap. unfold issue, insert_approval. rewrite Ha.
  cbn [mbind result_bind]. rewrite bool_decide_eq_true_2; [done|].
  unfold select_approval. destruct (find _ _) eqn:Ef; [eauto|]. exfalso.
  rewrite find_none_elem, existsb_false in Ef. specialize (Ef b Hb). simpl in Ef. by bool_props.
Qed.

(** ** Witnesses *)

Definition sample_record : value :=
  VObj [("approval_id", VStr "ap-1"); ("operation_id", VStr "op-1");
        ("authorizer", VObj [("id", VStr "ana"); ("type", VStr "human")]);
        ("resource_scope", VObj [("repo", VStr "r")]);
        ("issued_at", VStr "2024-01-01T00:00:00.000Z");
        ("expires_at", VStr "2024-01-02T00:00:00.000Z"); ("decision", VStr "approved");
        ("policy_version", VStr "1"); ("evidence_ref", VStr "ev:1")].
Definition sample_consumption : value :=
  VObj [("approval_id", VStr "ap-1"); ("operation_id", VStr "op-1");
        ("resource_scope", VObj [("repo", VStr "r")]); ("policy_version", VStr "1");
        ("now", VStr "2024-01-01T12:00:00.000Z")].
Definition empty_store : store := MkStore [] [].
Definition sample_store : store :=
  match issue empty_store sample_record with Ok (_, s) => s | Throw _ => empty_store end.
Definition accept (l : Ledger.ledger) : result value * Ledger.ledger := (Ok VNull, l).

Lemma empty_store_wf : wf_store empty_store.
Proof. split; cbn; try apply NoDup_nil_2; by intros x ?%not_elem_of_nil. Qed.

Lemma sample_store_wf : wf_store sample_store.
Proof.
  assert (E : parse_record sample_record = Ok (default (MkApproval "" "" VNull VNull "" "" "" "" "")
    (head (execution_approvals sample_store)))) by (vm_compute; reflexivity).
  eapply (insert_approval_wf empty_store); [apply empty_store_wf|by eapply parse_record_wf|].
  vm_compute. reflexivity.
Qed.

Lemma store_invariant_witness :
  wf_store (consume sample_store Ledger.empty_ledger sample_consumption accept).1.2.
Proof.
  apply (store_invariant sample_store Ledger.empty_ledger sample_record sample_consumption accept).
  apply sample_store_wf.
Defined.

Lemma consume_outcome_witness :
  ∃ v s' a r w, consume sample_store Ledger.empty_ledger sample_consumption accept
      = (Ok v, s', Ledger.empty_ledger) ∧
    parse_consumption sample_consumption = Ok r ∧ v = hydrate a ∧
    accept Ledger.empty_ledger = (Ok w, Ledger.empty_ledger) ∧
    active_at a (time_of (req_now r)).
Proof.
  destruct (consume sample_store Ledger.empty_ledger sample_consumption accept)
    as [[[v|e] s'] l'] eqn:E; [|vm_compute in E; discriminate E].
  assert (Hl : l' = Ledger.empty_ledger) by (vm_compute in E; injection E as _ _ <-; reflexivity).
  subst l'.
  destruct (consume_outcome sample_store Ledger.empty_ledger sample_consumption accept (Ok v) s'
    Ledger.empty_ledger) as (a & r & w & H1 & H2 & _ & _ & _ & _ & _ & _ & H3 & H4 & _).
  - apply sample_store_wf.
  - exact E.
  - exists v, s', a, r, w. exact (conj eq_refl (conj H1 (conj H2 (conj H4 H3)))).
Defined.

Lemma issue_duplicate_witness :
  issue sample_store sample_record =
    Throw (Ledger.SqliteError "execution_approvals identity is immutable").
Proof.
  destruct (parse_record sample_record) as [a|e] eqn:E; [|vm_compute in E; discriminate E].
  eapply issue_duplicate; [exact E|]. vm_compute in E. injection E as <-.
  apply (bool_decide_unpack _). vm_compute. exact I.
Defined.
