(* ===== verification/OperationId.v ===== *)
(** * Operation identifiers (packages/governed-execution/operation-id.js)

    SHA-256 is third-party code: an interface says what it promises, and the
    identifiers are proved to be UUIDs of the name-based form from it. *)
From S2P Require Import Prelude JsValue CanonicalJson StrictJson Ledger.

(** [createHash('sha256').update(text).digest('hex')]: 64 lower-case hex digits. *)
Definition lower_hex (c : ascii) : bool :=
  let n := Ascii.N_of_ascii c in digit c || ((97 <=? n)%N && (n <=? 102)%N).
Class Sha256 := {
  sha256_hex : string → string;
  sha256_length s : String.length (sha256_hex s) = 64%nat;
  sha256_digits s : all_chars lower_hex (sha256_hex s) = true;
}.

(** A function with the promised shape, for the examples. *)
Definition sample_digest : string := String.concat "" (replicate 8 "01234567").
Definition sample_sha256 : Sha256.
Proof. refine {| sha256_hex _ := sample_digest |}; intros _; reflexivity. Defined.

(** [s.slice(from, to)] *)
Definition slice (from to : nat) (s : string) : string := String.substring from (to - from) s.

Section operation_id.
Context `{Sha256}.

Definition deterministicOperationId (tool idempotencyKey : string) : string :=
  let hex := sha256_hex (tool +:+ NUL +:+ idempotencyKey) in
  slice 0 8 hex +:+ "-" +:+ slice 8 12 hex +:+ "-5" +:+ slice 13 16 hex +:+ "-8" +:+
  slice 17 20 hex +:+ "-" +:+ slice 20 32 hex.

(** [digest(value)] *)
Definition digest (v : value) : result string :=
  if is_undefined v then Throw (type_error "The data argument must be a string")
  else Ok (sha256_hex (stable_json v)).
End operation_id.

(** ** Shape *)

Lemma length_app_text s t : String.length (s +:+ t) = (String.length s + String.length t)%nat.
Proof. induction s as [|c s IH]; [done|]. rewrite app_String. simpl. by rewrite IH. Qed.

Lemma length_slice from n s :
  (from + n ≤ String.length s)%nat → String.length (String.substring from n s) = n.
Proof.
  revert from n. induction s as [|c s IH]; intros from n Hl; simpl in *.
  - by destruct from, n; simpl in *; try lia.
  - destruct from as [|from]; [|apply IH; lia]. destruct n as [|n]; [done|]. simpl.
    f_equal. apply IH. lia.
Qed.

Lemma all_chars_slice f from n s :
  all_chars f s = true → all_chars f (String.substring from n s) = true.
Proof.
  revert from n. induction s as [|c s IH]; intros from n Hs; simpl in *.
  - by destruct from, n.
  - bool_props. destruct from as [|from]; [|by apply IH]. destruct n as [|n]; [done|]. simpl.
    match goal with H : f c = true |- _ => rewrite H end. simpl. by apply IH.
Qed.

Lemma substring_app s t : String.substring 0 (String.length s) (s +:+ t) = s.
Proof.
  induction s as [|c s IH]; [by destruct t|]. rewrite app_String. simpl. by rewrite IH.
Qed.
Lemma substring_all t n : (String.length t ≤ n)%nat → String.substring 0 n t = t.
Proof.
  revert n. induction t as [|c t IH]; intros [|n] Hn; simpl in *; try done; try lia.
  f_equal. apply IH. lia.
Qed.
Lemma substring_skip s t n :
  (String.length t ≤ n)%nat → String.substring (String.length s) n (s +:+ t) = t.
Proof.
  intros Hn. induction s as [|c s IH]; [by apply substring_all|].
  rewrite app_String. simpl. exact IH.
Qed.

Lemma lower_hex_char c : lower_hex c = true → hex_char c = true.
Proof. unfold lower_hex, hex_char. intros ->. done. Qed.
Lemma all_chars_impl f g s : (∀ c, f c = true → g c = true) →
  all_chars f s = true → all_chars g s = true.
Proof.
  intros Hfg. induction s as [|c s IH]; simpl; [done|]. intros H. bool_props.
  rewrite Hfg, IH by done. done.
Qed.
Lemma all_chars_app f s t : all_chars f (s +:+ t) = all_chars f s && all_chars f t.
Proof. induction s as [|c s IH]; [done|]. rewrite app_String. simpl. by rewrite IH, andb_assoc. Qed.

Lemma matches_groups_cons n m groups head rest :
  String.length head = n → all_chars hex_char head = true →
  matches_groups (n :: m :: groups) (head +:+ String "-" rest) = matches_groups (m :: groups) rest.
Proof.
  intros Hn Hc. cbn [matches_groups]. subst n. rewrite substring_app, Nat.eqb_refl, Hc.
  rewrite substring_skip by (rewrite length_app_text; lia). done.
Qed.
Lemma matches_groups_last n head :
  String.length head = n → all_chars hex_char head = true → matches_groups [n] head = true.
Proof.
  intros Hn Hc. cbn [matches_groups]. subst n. rewrite substring_all, Nat.eqb_refl, Hc by done.
  assert (String.substring (String.length head) (String.length head) head = "") as ->; [|done].
  clear Hc. generalize (String.length head) at 2. induction head as [|c s IH]; intros n; simpl.
  - by destruct n.
  - apply IH.
Qed.

(** The identifier of an operation is a UUID: the ledger accepts it wherever it
    asks for one, and a request of the same tool and key always maps to it. *)
Theorem deterministicOperationId_uuid `{Sha256} tool key :
  UUID_PATTERN (deterministicOperationId tool key) = true ∧
  String.length (deterministicOperationId tool key) = 36%nat.
Proof.
  unfold deterministicOperationId. set (hex := sha256_hex _).
  assert (Hl : String.length hex = 64%nat) by apply sha256_length.
  assert (Hc : all_chars hex_char hex = true).
  { eapply all_chars_impl; [apply lower_hex_char|apply sha256_digits]. }
  assert (Hlen : ∀ a b, (a ≤ b)%nat → (b ≤ 64)%nat → String.length (slice a b hex) = (b - a)%nat).
  { intros a b ??. apply length_slice. lia. }
  assert (Hdig : ∀ a b, all_chars hex_char (slice a b hex) = true).
  { intros a b. by apply all_chars_slice. }
  split.
  - unfold UUID_PATTERN. change ("-" +:+ ?r) with (String "-" r).
    change ("-5" +:+ ?r) with (String "-" ("5" +:+ r)). change ("-8" +:+ ?r) with (String "-" ("8" +:+ r)).
    rewrite matches_groups_cons by (rewrite ?Hlen by lia; done).
    rewrite matches_groups_cons by (rewrite ?Hlen by lia; done).
    rewrite <- (app_assoc_s "5"), matches_groups_cons.
    2,3: rewrite ?length_app_text, ?all_chars_app, ?Hlen, ?Hdig by lia; done.
    change ("-" +:+ ?r) with (String "-" r). rewrite <- (app_assoc_s "8"), matches_groups_cons.
    2,3: rewrite ?length_app_text, ?all_chars_app, ?Hlen, ?Hdig by lia; done.
    apply matches_groups_last; [by rewrite Hlen by lia|done].
  - rewrite !length_app_text, !Hlen by lia. done.
Qed.

Lemma deterministicOperationId_uuid_witness :
  UUID_PATTERN (@deterministicOperationId sample_sha256 "files.read" "key") = true.
Proof. exact (proj1 (@deterministicOperationId_uuid sample_sha256 "files.read" "key")). Defined.
