(* ===== verification/Runtime.v ===== *)
(** * The governed execution runtime (packages/governed-execution/runtime.js)

    [execute] and [cancelQueued], split at their [await]s into the synchronous
    segments that the event loop runs without interruption.  Each segment is a
    computation over the local variables of the call and the world shared with the
    other calls (the ledger and the approval store); between two segments any other
    call may run.  The clock, the identifier factory, the abort flag and the random
    key are what the segment reads from its environment, one field each. *)
From S2P Require Import Prelude JsValue CanonicalJson Envelope StrictJson EventRegistry Time.
From S2P Require Import OperationId.
From S2P Require Ledger Approvals.

(** ** Dependencies *)

(** A tool contract, as far as the runtime reads it. *)
Record contract := MkContract {
  name : string;
  capability : string;
  failure_mode : string;
  cancellation_policy : string;
  provider : string;
  timeout_ms : Z;
  policy_version : string;
  requires_approval : bool;
  reversibility : string;
  provider_accepts_idempotency : bool;
  input_schema_version : Z;
  output_schema_version : Z;
}.

(** The collaborators handed to the constructor.  [locale_le] is the collation the
    registry sorts with, [lookup_provider] says whether a usable provider is
    found, [reconcileActive] is the optional projector. *)
Class Dependencies := {
  event_registry : registry;
  locale_le : string → string → bool;
  resolve : value → result contract;
  validateInput : contract → value → result value;
  validateOutput : contract → value → result value;
  lookup_provider : string → result bool;
  approval_boundary : bool;
  reconcileActive : option (Ledger.database → result unit);
}.

Definition GovernedExecutionError (message code : string) : value :=
  error "GovernedExecutionError" message code.
Definition DispatchDeadlineError : value :=
  GovernedExecutionError "Provider did not settle before the execution deadline"
    "EXECUTION_DEADLINE_EXCEEDED".
(** [error.retryable = b] *)
Definition with_retryable (b : bool) (e : value) : value :=
  VObj (entries_of e ++ [("retryable", VBool b)]).

(** ** Segments *)

(** What a segment reads: the i-th call of the clock ([None] is an invalid date)
    and of the identifier factory, the time of the database, the state of the abort
    signal and a random key. *)
Record env := MkEnv {
  clock : nat → option Z;
  ids : nat → string;
  recorded : string;
  aborted : bool;
  random_key : string;
}.
Record world := MkWorld { w_ledger : Ledger.ledger; w_store : Approvals.store }.
(** The variables the handler of [execute] and [cancelQueued] catches with. *)
Record frame := MkFrame {
  operationId : value;
  providerDispatchBegan : bool;
  operationEvidence : list string;
  warnings : list string;
}.
Record state := MkState { st_frame : frame; st_world : world }.

(** A computation that may throw, keeping the effects made until then. *)
Definition M (A : Type) : Type := state → result A * state.
#[export] Instance M_ret : MRet M := λ A a s, (Ok a, s).
#[export] Instance M_bind : MBind M := λ A B f m s,
  match m s with
  | (Ok a, s') => f a s'
  | (Throw e, s') => (Throw e, s')
  end.
#[export] Instance M_fmap : FMap M := λ A B f m s,
  match m s with
  | (Ok a, s') => (Ok (f a), s')
  | (Throw e, s') => (Throw e, s')
  end.
Definition lift {A} (r : result A) : M A := λ s, (r, s).
Definition throw {A} (e : value) : M A := λ s, (Throw e, s).
Definition guard (b : bool) (e : value) : M unit := lift (throw_if b e).
(** [try { ... } catch (error) { ... }] *)
Definition try_catch {A} (m : M A) (handler : value → M A) : M A := λ s,
  match m s with
  | (Ok a, s') => (Ok a, s')
  | (Throw e, s') => handler e s'
  end.

Definition get_frame : M frame := λ s, (Ok (st_frame s), s).
Definition get_world : M world := λ s, (Ok (st_world s), s).
Definition set_frame (f : frame → frame) : M unit := λ s,
  (Ok (), MkState (f (st_frame s)) (st_world s)).
Definition push_warnings (l : list string) : M unit :=
  set_frame (λ f, MkFrame (operationId f) (providerDispatchBegan f) (operationEvidence f)
                    (warnings f ++ l)).
Definition set_operation (id : string) : M unit :=
  set_frame (λ f, MkFrame (VStr id) (providerDispatchBegan f) (operationEvidence f) (warnings f)).
Definition set_evidence (l : list string) : M unit :=
  set_frame (λ f, MkFrame (operationId f) (providerDispatchBegan f) l (warnings f)).
Definition begin_dispatch : M unit :=
  set_frame (λ f, MkFrame (operationId f) true (operationEvidence f) (warnings f)).

(** [canonicalTime(this.clock.now())] *)
Definition canonicalTime (reading : option Z) : result string :=
  match reading with
  | Some t => Ok (toISOString t)
  | None => Throw (GovernedExecutionError "Clock returned an invalid timestamp"
                     "EXECUTION_GOVERNANCE_FAILED")
  end.
Definition MAX_DATE : Z := 8640000000000000.
(** [new Date(t).toISOString()] *)
Definition isoDate (t : Z) : result string :=
  if (Z.abs t <=? MAX_DATE)%Z then Ok (toISOString t)
  else Throw (VObj [("name", VStr "RangeError"); ("message", VStr "Invalid time value")]).

Definition providerError (e : value) : string * string * bool :=
  ((match get "code" e with VStr c => c | _ => "PROVIDER_EXECUTION_FAILED" end),
   (match get "message" e with VStr m => m | _ => "Provider execution failed" end),
   truthy (get "retryable" e)).

Definition providerMetadata (r : value) : result (list string * list string) :=
  _ ← for_each (λ field,
        throw_if (negb (is_undefined (get field r)) && negb (is_string_array (get field r)))
          (GovernedExecutionError ("Provider " +:+ field +:+ " must be an array of strings")
             "EXECUTION_PROVIDER_RESULT_INVALID")) ["evidence"; "warnings"];
  _ ← throw_if (negb (is_undefined (get "receipt_ref" r)) &&
                negb (nonempty_string (get "receipt_ref" r)))
        (GovernedExecutionError "Provider receipt_ref must be a non-empty string"
           "EXECUTION_PROVIDER_RESULT_INVALID");
  Ok (strings_of (get "evidence" r) ++
        (if truthy (get "receipt_ref" r) then [str_of (get "receipt_ref" r)] else []),
      strings_of (get "warnings" r)).

(** ** The operation and its facts *)

Record operation := MkOperation {
  operation_id : string;
  tool : string;
  op_capability : string;
  actor : value;
  resource_scope : value;
  idempotency_key : string;
  correlation_id : value;
  causation_id : value;
  deadline : string;
  deadline_ms : Z;
}.

Section runtime.
Context {hash : Sha256} {deps : Dependencies}.
Implicit Types (op : operation) (c : contract) (e : env).

(** [_fact(type, operation, payload, evidenceRefs)]: the [i]-th identifier and the
    [j]-th clock reading of the segment. *)
Definition fact (e : env) (i j : nat) (type : value) op (payload : list (string * value))
    (evidenceRefs : list string) : result value :=
  occurred_at ← canonicalTime (clock e j);
  validateForAppend event_registry (VObj
    [("event_id", VStr (ids e i)); ("event_type", type);
     ("schema_version", VNum (NInt 1)); ("occurred_at", VStr occurred_at);
     ("correlation_id", correlation_id op); ("causation_id", causation_id op);
     ("actor", actor op); ("operation_id", VStr (operation_id op));
     ("payload", VObj payload); ("evidence_refs", VArr (VStr <$> evidenceRefs))]).

Definition append_request op (version : Z) (events : list value) : value :=
  VObj [("aggregate_type", VStr "execution"); ("aggregate_id", VStr (operation_id op));
        ("expected_version", VNum (NInt version)); ("events", VArr events)].

(** [this.ledger.append(request)] *)
Definition ledger_append (e : env) (request : value) : M value := λ s,
  let '(r, l) := Ledger.append event_registry (recorded e) (w_ledger (st_world s)) request in
  (r, MkState (st_frame s) (MkWorld l (w_store (st_world s)))).

Definition appendOutcome (e : env) (i j : nat) op (type : value)
    (payload : list (string * value)) (evidenceRefs : list string) : M value :=
  f ← lift (fact e i j type op payload evidenceRefs);
  ledger_append e (append_request op 2 [f]).

(** [_persistOutcome]: the error, if the outcome could not be made durable. *)
Definition persistOutcome (e : env) (i j : nat) op (type : value)
    (payload : list (string * value)) (evidenceRefs : list string) : M (option value) :=
  f ← get_frame;
  try_catch
    (_ ← appendOutcome e i j op type
           (payload ++ [("warnings", VArr (VStr <$> warnings f))]) evidenceRefs;
     mret None)
    (λ error, mret (Some error)).

Definition error_note (prefix : string) (error : value) : string :=
  prefix +:+ js_string (or_else (get "code" error) (get "message" error)).

Definition terminalPersistenceFailure (id : value) (evidence warnings : list string)
    (cause : value) : value :=
  failureEnvelope
    (GovernedExecutionError
       ("Provider dispatch began but the terminal outcome could not be persisted; " +:+
        "automatic replay is prohibited") "EXECUTION_OUTCOME_IN_DOUBT")
    id evidence (warnings ++ [error_note "terminal_append_failed:" cause]).

(** [_reconcile(warnings)] *)
Definition reconcile : M unit :=
  w ← get_world;
  match reconcileActive with
  | None => mret ()
  | Some projector =>
      match projector (Ledger.db (w_ledger w)) with
      | Ok _ => mret ()
      | Throw VNull | Throw VUndef =>
          throw (type_error "Cannot read properties of null (reading 'code')")
      | Throw error => push_warnings [error_note "projection_reconcile_failed:" error]
      end
  end.

(** The end every outcome shares: persist it, reconcile, answer. *)
Definition conclude (e : env) (i j : nat) op (type : value)
    (payload : list (string * value)) (evidenceRefs : list string)
    (evidence : list string) (answer : list string → value) : M value :=
  persistenceError ← persistOutcome e i j op type payload evidenceRefs;
  match persistenceError with
  | Some cause =>
      f ← get_frame;
      mret (terminalPersistenceFailure (VStr (operation_id op)) evidence (warnings f) cause)
  | None =>
      _ ← reconcile;
      f ← get_frame;
      mret (answer (warnings f))
  end.

(** ** Replay *)

Definition TERMINAL_EVENTS : list string :=
  ["ExecutionSucceeded"; "ExecutionFailed"; "ExecutionCancelled"; "ExecutionOutcomeUncertain"].
Definition is_terminal (event : value) : bool := str_of (get "event_type" event) ∈s TERMINAL_EVENTS.
Definition event_named (type : string) (event : value) : bool :=
  bool_decide (get "event_type" event = VStr type).

Definition scope_conflict : value :=
  GovernedExecutionError "Idempotency key is already bound to a different operation scope"
    "EXECUTION_IDEMPOTENCY_SCOPE_CONFLICT".

Definition same_operation op (event : value) : bool :=
  bool_decide (get "operation_id" event = VStr (operation_id op)) &&
  bool_decide (get "correlation_id" event = correlation_id op) &&
  bool_decide (get "causation_id" event = causation_id op).

(** The authorization found was made for this very operation. *)
Definition same_authorization op (inputDigest : string) c (authorized : value) : bool :=
  let payload := get "payload" authorized in
  bool_decide (get "tool" payload = VStr (tool op)) &&
  bool_decide (get "idempotency_key" payload = VStr (idempotency_key op)) &&
  bool_decide (get "input_digest" payload = VStr inputDigest) &&
  bool_decide (get "capability" payload = VStr (capability c)) &&
  bool_decide (get "policy_version" payload = VStr (policy_version c)) &&
  bool_decide (get "input_schema_version" payload = VNum (NInt (input_schema_version c))) &&
  bool_decide (get "output_schema_version" payload = VNum (NInt (output_schema_version c))) &&
  bool_decide (stable_json (get "resource_scope" payload) = stable_json (resource_scope op)) &&
  bool_decide (stable_json (get "actor" authorized) = stable_json (actor op)) &&
  bool_decide (get "correlation_id" authorized = correlation_id op) &&
  bool_decide (get "causation_id" authorized = causation_id op).

(** The envelope that answers for a terminal fact. *)
Definition replay_terminal op (terminal : value) (evidence durableWarnings : list string) :
    value :=
  let payload := get "payload" terminal in
  if event_named "ExecutionSucceeded" terminal then
    executionEnvelope true
      (VObj [("operation_id", VStr (operation_id op)); ("result", get "result" payload);
             ("replayed", VBool true)]) VNull evidence durableWarnings
  else
    let error := get "error" payload in
    let code :=
      if event_named "ExecutionFailed" terminal then get "code" error
      else if event_named "ExecutionCancelled" terminal then VStr "EXECUTION_CANCELLED"
      else VStr "EXECUTION_OUTCOME_IN_DOUBT" in
    let replayError := GovernedExecutionError
      (js_string (or_else (or_else (get "reason" payload) (get "message" error))
                    (VStr "Execution did not succeed")))
      (js_string (or_else code (VStr "EXECUTION_FAILED"))) in
    failureEnvelope
      (with_retryable (event_named "ExecutionFailed" terminal && truthy (get "retryable" error))
         replayError)
      (VStr (operation_id op)) evidence durableWarnings.

Definition in_doubt op (evidence durableWarnings : list string) : value :=
  failureEnvelope
    (GovernedExecutionError
       "Execution started without a durable terminal fact; automatic replay is prohibited"
       "EXECUTION_OUTCOME_IN_DOUBT")
    (VStr (operation_id op)) evidence durableWarnings.

(** The stored facts of a stream, at the current version of their schemas. *)
Definition existing_events (d : Ledger.database) (id : string) : result (list value) :=
  stored ← Ledger.readStream d "execution" id (VNum (NInt 1)) (VNum (NInt MAX_SAFE_INTEGER));
  map_result (deserialize locale_le event_registry) stored.

(** [_readExisting(operation, inputDigest, contract)] *)
Definition readExisting (d : Ledger.database) op (inputDigest : string) c :
    result (option value) :=
  existing ← existing_events d (operation_id op);
  match existing with
  | [] => Ok None
  | _ =>
      let authorized := find (event_named "ExecutionAuthorized") existing in
      if existsb (λ event, negb (same_operation op event)) existing then Throw scope_conflict
      else match authorized with
      | None => Throw scope_conflict
      | Some authorized =>
          if negb (same_authorization op inputDigest c authorized) then Throw scope_conflict
          else
            let terminal := find_last is_terminal existing in
            let allEvidence := existing ≫= (λ event, strings_of (get "evidence_refs" event)) in
            let durableWarnings :=
              strings_of (get "warnings" (get "payload" (default authorized terminal))) in
            Ok (Some
              match terminal with
              | None => in_doubt op allEvidence durableWarnings
              | Some terminal => replay_terminal op terminal allEvidence durableWarnings
              end)
      end
  end.


(** ** The segments of [execute] *)

(** What a segment ends with: an answer, or the wait for a collaborator together
    with the variables that survive it. *)
Record call := MkCall { request : value; the_contract : contract; input : value }.
Inductive control :=
  | Answer (envelope : value)
  | AwaitAuthority (k : call)
  | AwaitPolicy (k : call)
  | AwaitApproval (k : call) (op : operation) (inputDigest : string)
  | AwaitProvider (k : call) (op : operation) (approvalEvidence : list string).

Definition invalid_request (message : string) : value :=
  GovernedExecutionError message "EXECUTION_REQUEST_INVALID".

(** A signal is [undefined] or an [AbortSignal]. *)
Definition is_abort_signal (v : value) : bool := is_boolean (get "aborted" v).

(** Up to [await this.authority.evaluate(...)]. *)
Definition begin_execute (req : value) : M control :=
  _ ← guard (negb (is_record req)) (invalid_request "Execution request must be an object");
  c ← lift (resolve (get "tool" req));
  _ ← guard (negb (failure_mode c =s "fail_closed"))
        (GovernedExecutionError
           ("Failure mode " +:+ failure_mode c +:+
            " is reserved but not implemented by execution runtime v1")
           "EXECUTION_FAILURE_MODE_NOT_IMPLEMENTED");
  found ← try_catch (lift (lookup_provider (provider c)))
            (λ _, throw (GovernedExecutionError "Provider registry lookup failed"
                           "EXECUTION_PROVIDER_RESOLUTION_FAILED"));
  _ ← guard (negb found)
        (GovernedExecutionError "Provider is unavailable" "EXECUTION_PROVIDER_NOT_FOUND");
  input ← lift (validateInput c (get "input" req));
  let actor := get "actor" req in
  _ ← guard (negb (is_record actor)) (invalid_request "actor must be an object");
  _ ← guard (negb (nonempty_string (get "id" actor)) || negb (nonempty_string (get "type" actor)))
        (invalid_request "actor must declare non-empty id and type");
  let scope := get "resource_scope" req in
  _ ← guard (negb (is_record scope)) (invalid_request "resource_scope must be an object");
  _ ← guard (length (object_keys scope) =? 0)%nat
        (invalid_request "resource_scope must not be empty");
  _ ← guard (negb (is_undefined (get "signal" req)) && negb (is_abort_signal (get "signal" req)))
        (invalid_request "signal must implement the AbortSignal contract");
  mret (AwaitAuthority (MkCall req c input)).

Definition allowed (decision : value) : bool := bool_decide (get "allowed" decision = VBool true).

(** Resumed with the decision of the authority. *)
Definition after_authority (k : call) (decision : result value) : M control :=
  d ← lift decision;
  _ ← guard (negb (allowed d))
        (GovernedExecutionError "Authority evaluation denied execution"
           "EXECUTION_AUTHORITY_DENIED");
  mret (AwaitPolicy k).

(** The checks on a policy decision; its warnings. *)
Definition check_policy (c : contract) (verb : string) (d : value) : result (list string) :=
  _ ← throw_if (negb (allowed d))
        (GovernedExecutionError ("Policy evaluation denied " +:+ verb) "EXECUTION_POLICY_DENIED");
  _ ← throw_if (negb (bool_decide (get "policy_version" d = VStr (policy_version c))))
        (GovernedExecutionError "Policy version does not match the tool contract"
           "EXECUTION_POLICY_VERSION_MISMATCH");
  let approval := get "requires_approval" d in
  _ ← throw_if ((negb (is_undefined approval) && negb (is_boolean approval)) ||
                (negb (is_undefined (get "warnings" d)) && negb (is_string_array (get "warnings" d))))
        (GovernedExecutionError "Policy decision has an invalid shape"
           "EXECUTION_POLICY_DECISION_INVALID");
  Ok (strings_of (get "warnings" d)).

Definition make_operation (e : env) (k : call) (idempotencyKey causation : string) :
    result operation :=
  let c := the_contract k in
  let id := deterministicOperationId (name c) idempotencyKey in
  _ ← canonicalTime (clock e 0);
  let limit := (default 0%Z (clock e 0) + timeout_ms c)%Z in
  deadline ← isoDate limit;
  Ok {| operation_id := id; tool := name c; op_capability := capability c;
        actor := get "actor" (request k); resource_scope := get "resource_scope" (request k);
        idempotency_key := idempotencyKey;
        correlation_id := or_else (get "correlation_id" (request k)) (VStr id);
        causation_id := or_else (get "causation_id" (request k)) (VStr (causation +:+ id));
        deadline := deadline; deadline_ms := limit |}.

Definition needs_approval (c : contract) (policy : value) : bool :=
  requires_approval c || (reversibility c =s "irreversible_mutation") ||
  (negb (reversibility c =s "read_only") && negb (provider_accepts_idempotency c)) ||
  bool_decide (get "requires_approval" policy = VBool true).

Definition authorized_payload op c (inputDigest : string) (warnings : list string)
    (approvalId : option string) : list (string * value) :=
  [("tool", VStr (name c)); ("capability", VStr (capability c));
   ("input_schema_version", VNum (NInt (input_schema_version c)));
   ("output_schema_version", VNum (NInt (output_schema_version c)));
   ("reversibility", VStr (reversibility c)); ("policy_version", VStr (policy_version c));
   ("deadline", VStr (deadline op)); ("cancellation_policy", VStr (cancellation_policy c));
   ("idempotency_key", VStr (idempotency_key op)); ("resource_scope", resource_scope op);
   ("input_digest", VStr inputDigest); ("warnings", VArr (VStr <$> warnings))] ++
  match approvalId with Some id => [("approval_id", VStr id)] | None => [] end.
Definition started_payload op c : list (string * value) :=
  [("tool", VStr (name c)); ("provider", VStr (provider c));
   ("idempotency_key", VStr (idempotency_key op)); ("dispatch_attempt", VNum (NInt 1));
   ("deadline", VStr (deadline op))].

(** The [ExecutionAuthorized] and [ExecutionStarted] facts of the operation. *)
Definition start_facts (e : env) (j : nat) op c (inputDigest : string)
    (warnings : list string) (approvalId : option string) (approvalEvidence : list string) :
    result (list value) :=
  authorized ← fact e 0 j (VStr "ExecutionAuthorized") op
                 (authorized_payload op c inputDigest warnings approvalId) approvalEvidence;
  started ← fact e 1 (S j) (VStr "ExecutionStarted") op (started_payload op c) [];
  Ok [authorized; started].

(** [this.approvalStore.consume(request, appendStartFacts)] *)
Definition consume_approval (e : env) op c (approvalId : string) (now : string)
    (facts : list value) : M value := λ s,
  let w := st_world s in
  let '(r, store, l) := Approvals.consume (w_store w) (w_ledger w)
    (VObj [("approval_id", VStr approvalId); ("operation_id", VStr (operation_id op));
           ("resource_scope", resource_scope op); ("policy_version", VStr (policy_version c));
           ("now", VStr now)])
    (λ l, Ledger.append event_registry (recorded e) l (append_request op 0 facts)) in
  (r, MkState (st_frame s) (MkWorld l store)).

Definition cancelled_payload (reason phase : string) : list (string * value) :=
  [("reason", VStr reason); ("phase", VStr phase)].

(** From the durable start facts to the call of the provider; [j] clock readings
    and two identifiers of the segment have been used. *)
Definition dispatch (e : env) (j : nat) (k : call) op (approvalEvidence : list string) :
    M control :=
  _ ← set_evidence approvalEvidence;
  let c := the_contract k in
  let id := VStr (operation_id op) in
  if negb (is_undefined (get "signal" (request k))) && aborted e &&
     (cancellation_policy c =s "cooperative")
  then
    Answer <$> conclude e 2 j op (VStr "ExecutionCancelled")
      (cancelled_payload "cancelled before provider dispatch" "pre_dispatch") []
      approvalEvidence
      (failureEnvelope (GovernedExecutionError "Execution cancelled" "EXECUTION_CANCELLED")
         id approvalEvidence)
  else
    _ ← lift (canonicalTime (clock e j));
    let remainingMs := (deadline_ms op - default 0%Z (clock e j))%Z in
    if (remainingMs <=? 0)%Z then
      Answer <$> conclude e 2 (S j) op (VStr "ExecutionCancelled")
        (cancelled_payload "execution deadline expired before provider dispatch" "pre_dispatch")
        [] approvalEvidence (failureEnvelope DispatchDeadlineError id approvalEvidence)
    else
      _ ← begin_dispatch;
      mret (AwaitProvider k op approvalEvidence).
(** The start facts are appended, inside the transaction that consumes the
    approval if there is one; the clock has been read [j] times. *)
Definition start (e : env) (j : nat) (k : call) op (inputDigest : string)
    (approvalId : option string) (approvalEvidence : list string) : M control :=
  let c := the_contract k in
  f ← get_frame;
  facts ← lift (start_facts e j op c inputDigest (warnings f) approvalId approvalEvidence);
  match approvalId with
  | Some id =>
      now ← lift (canonicalTime (clock e (j + 2)));
      approval ← consume_approval e op c id now facts;
      dispatch e (j + 3) k op [str_of (get "evidence_ref" approval)]
  | None =>
      _ ← ledger_append e (append_request op 0 facts);
      dispatch e (j + 2) k op []
  end.

(** Resumed with the decision of the policy. *)
Definition after_policy (e : env) (k : call) (decision : result value) : M control :=
  let c := the_contract k in
  d ← lift decision;
  notes ← lift (check_policy c "execution" d);
  _ ← push_warnings notes;
  let key := get "idempotency_key" (request k) in
  let key := if is_undefined key then VStr (random_key e) else key in
  _ ← guard (negb (nonempty_string key))
        (invalid_request "idempotency_key must be a non-empty string");
  _ ← set_operation (deterministicOperationId (name c) (str_of key));
  op ← lift (make_operation e k (str_of key) "request:");
  inputDigest ← lift (digest (input k));
  w ← get_world;
  replay ← lift (readExisting (Ledger.db (w_ledger w)) op inputDigest c);
  match replay with
  | Some envelope => mret (Answer envelope)
  | None =>
      if needs_approval c d then
        _ ← guard (negb approval_boundary)
              (GovernedExecutionError
                 "Explicit approval is required but no approval boundary is available"
                 "EXECUTION_APPROVAL_REQUIRED");
        mret (AwaitApproval k op inputDigest)
      else start e 1 k op inputDigest None []
  end.

(** Resumed with the identifier of the approval. *)
Definition after_approval (e : env) (k : call) op (inputDigest : string)
    (resolved : result value) : M control :=
  id ← lift resolved;
  _ ← guard (negb (nonempty_string id))
        (GovernedExecutionError "Explicit approval is required" "EXECUTION_APPROVAL_REQUIRED");
  w ← get_world;
  approval ← lift (Approvals.get_approval (w_store w) id);
  let approvalEvidence :=
    if truthy approval then [str_of (get "evidence_ref" approval)] else [] in
  start e 0 k op inputDigest (Some (str_of id)) approvalEvidence.

(** *** The end of a dispatch *)

(** How the race with the deadline ended, and whether the deadline had passed. *)
Record settlement := MkSettlement { completion : result value; deadlineExceeded : bool }.

(** Names found on every object: looked up in [typeByOutcome] they give a function
    where an event type is expected. *)
Definition inherited_names : list string :=
  ["constructor"; "toString"; "valueOf"; "hasOwnProperty"; "isPrototypeOf";
   "propertyIsEnumerable"; "toLocaleString"; "__proto__"; "__defineGetter__";
   "__defineSetter__"; "__lookupGetter__"; "__lookupSetter__"].
Definition typeByOutcome (outcome : value) : value :=
  let key := js_string outcome in
  if key =s "cancelled" then VStr "ExecutionCancelled"
  else if key =s "failed" then VStr "ExecutionFailed"
  else if key =s "uncertain" then VStr "ExecutionOutcomeUncertain"
  else if key ∈s inherited_names then VObj []
  else VStr "ExecutionOutcomeUncertain".

Definition error_payload (code message : value) (retryable : bool) : value :=
  VObj [("code", code); ("message", message); ("retryable", VBool retryable)].
Definition receipt_field (receipt : option string) : list (string * value) :=
  match receipt with Some r => [("provider_receipt_ref", VStr r)] | None => [] end.

(** The provider, or the deadline, rejected. *)
Definition provider_rejected (e : env) (k : call) op (approvalEvidence : list string)
    (error : value) (late : bool) : M value :=
  let c := the_contract k in
  let '(code, message, retryable) := providerError error in
  let receipt := get "receipt_ref" error in
  let validReceiptRef :=
    if nonempty_string receipt then Some (str_of receipt) else None in
  _ ← (if negb (is_undefined receipt) && negb (nonempty_string receipt)
       then push_warnings ["provider_error_receipt_ref_invalid"] else mret ());
  let outcome :=
    if late then VStr "uncertain"
    else or_else (get "outcome" error)
           (VStr (if reversibility c =s "read_only" then "failed" else "uncertain")) in
  let receiptRefs := match validReceiptRef with Some r => [r] | None => [] end in
  let type := typeByOutcome outcome in
  let typed t := bool_decide (type = VStr t) in
  let reason := if late then "provider deadline exceeded after dispatch began" else message in
  let payload :=
    if typed "ExecutionCancelled" then
      cancelled_payload message "dispatch" ++ receipt_field validReceiptRef
    else if typed "ExecutionFailed" then
      ("error", error_payload (VStr code) (VStr message) retryable) :: receipt_field validReceiptRef
    else if typed "ExecutionOutcomeUncertain" then
      ("reason", VStr reason) :: receipt_field validReceiptRef
    else [] in
  let resultError :=
    if typed "ExecutionOutcomeUncertain" then
      GovernedExecutionError reason "EXECUTION_OUTCOME_IN_DOUBT"
    else GovernedExecutionError message
           (if typed "ExecutionCancelled" then "EXECUTION_CANCELLED" else code) in
  conclude e 0 0 op type payload receiptRefs (approvalEvidence ++ receiptRefs)
    (failureEnvelope (with_retryable (typed "ExecutionFailed" && retryable) resultError)
       (VStr (operation_id op)) (approvalEvidence ++ receiptRefs)).

(** What an unusable result of the provider becomes: a failure if the tool only
    reads, an uncertain outcome otherwise. *)
Definition unusable_result (e : env) (k : call) op (reason : string)
    (extra : list (string * value)) (code message : value)
    (refs evidence : list string) : M value :=
  let uncertain := negb (reversibility (the_contract k) =s "read_only") in
  conclude e 0 0 op
    (VStr (if uncertain then "ExecutionOutcomeUncertain" else "ExecutionFailed"))
    (if uncertain then ("reason", VStr reason) :: extra
     else [("error", error_payload code message false)]) refs evidence
    (failureEnvelope
       (GovernedExecutionError (js_string message)
          (if uncertain then "EXECUTION_OUTCOME_IN_DOUBT" else js_string code))
       (VStr (operation_id op)) evidence).

(** The provider resolved. *)
Definition provider_resolved (e : env) (k : call) op (approvalEvidence : list string)
    (providerResult : value) : M value :=
  let c := the_contract k in
  if negb (has_own "data" providerResult) then
    unusable_result e k op "Provider result must contain data" []
      (VStr "EXECUTION_PROVIDER_RESULT_INVALID") (VStr "Provider result must contain data") []
      approvalEvidence
  else match providerMetadata providerResult with
  | Throw error =>
      unusable_result e k op (str_of (get "message" error)) [] (get "code" error)
        (get "message" error) [] approvalEvidence
  | Ok (refs, notes) =>
      let evidence := approvalEvidence ++ refs in
      _ ← set_evidence evidence;
      _ ← push_warnings notes;
      let receipt := get "receipt_ref" providerResult in
      let receipts := if truthy receipt then [str_of receipt] else [] in
      let receipt_entry :=
        if truthy receipt then [("provider_receipt_ref", receipt)] else [] in
      match validateOutput c (get "data" providerResult) with
      | Throw VNull | Throw VUndef =>
          throw (type_error "Cannot read properties of null (reading 'message')")
      | Throw error =>
          unusable_result e k op "provider completed but output schema validation failed"
            receipt_entry (get "code" error) (get "message" error) receipts evidence
      | Ok output =>
          conclude e 0 0 op (VStr "ExecutionSucceeded")
            ([("result", output);
              ("output_schema_version", VNum (NInt (output_schema_version c)))] ++
             receipt_entry) evidence evidence
            (executionEnvelope true
               (VObj [("operation_id", VStr (operation_id op)); ("result", output);
                      ("replayed", VBool false)]) VNull evidence)
      end
  end.

(** Resumed by the race of the provider with the deadline. *)
Definition after_provider (e : env) (k : call) op (approvalEvidence : list string)
    (s : settlement) : M control :=
  Answer <$>
  match completion s with
  | Throw error => provider_rejected e k op approvalEvidence error (deadlineExceeded s)
  | Ok result => provider_resolved e k op approvalEvidence result
  end.

(** The handler of [execute] around every segment. *)
Definition handle (m : M control) : M control :=
  try_catch m (λ error,
    f ← get_frame;
    mret (Answer
      (if providerDispatchBegan f
       then terminalPersistenceFailure (operationId f) (operationEvidence f) (warnings f) error
       else failureEnvelope error (operationId f) [] (warnings f)))).

(** ** [cancelQueued] *)

Definition begin_cancel (req : value) : M control :=
  _ ← guard (negb (is_record req)) (invalid_request "Execution request must be an object");
  c ← lift (resolve (get "tool" req));
  _ ← guard (negb (failure_mode c =s "fail_closed"))
        (GovernedExecutionError
           ("Failure mode " +:+ failure_mode c +:+
            " is reserved but not implemented by execution runtime v1")
           "EXECUTION_FAILURE_MODE_NOT_IMPLEMENTED");
  _ ← guard (negb (cancellation_policy c =s "cooperative"))
        (GovernedExecutionError "Tool contract does not permit cancellation"
           "EXECUTION_CANCELLATION_REFUSED");
  input ← lift (validateInput c (get "input" req));
  let actor := get "actor" req in
  _ ← guard (negb (is_record actor) || negb (nonempty_string (get "id" actor)) ||
             negb (nonempty_string (get "type" actor)))
        (invalid_request "actor must declare non-empty id and type");
  let scope := get "resource_scope" req in
  _ ← guard (negb (is_record scope) || (length (object_keys scope) =? 0)%nat)
        (invalid_request "resource_scope must be a non-empty object");
  mret (AwaitAuthority (MkCall req c input)).

Definition cancel_after_authority (k : call) (decision : result value) : M control :=
  d ← lift decision;
  _ ← guard (negb (allowed d))
        (GovernedExecutionError "Authority evaluation denied cancellation"
           "EXECUTION_AUTHORITY_DENIED");
  mret (AwaitPolicy k).

(** The three facts of a queued cancellation, appended at once. *)
Definition cancellation_facts (e : env) op c (inputDigest : string) (warnings : list string) :
    result (list value) :=
  started ← start_facts e 1 op c inputDigest warnings None [];
  cancelled ← fact e 2 3 (VStr "ExecutionCancelled") op
    (cancelled_payload "cancelled by governed scheduler before provider dispatch"
       "scheduler_queue" ++ [("warnings", VArr (VStr <$> warnings))]) [];
  Ok (started ++ [cancelled]).

Definition cancel_after_policy (e : env) (k : call) (decision : result value) : M control :=
  let c := the_contract k in
  d ← lift decision;
  notes ← lift (check_policy c "cancellation" d);
  _ ← push_warnings notes;
  let key := get "idempotency_key" (request k) in
  _ ← guard (negb (nonempty_string key))
        (invalid_request "Queued cancellation requires its original idempotency key");
  _ ← set_operation (deterministicOperationId (name c) (str_of key));
  op ← lift (make_operation e k (str_of key) "scheduler-cancel:");
  inputDigest ← lift (digest (input k));
  w ← get_world;
  replay ← lift (readExisting (Ledger.db (w_ledger w)) op inputDigest c);
  match replay with
  | Some envelope => mret (Answer envelope)
  | None =>
      f ← get_frame;
      facts ← lift (cancellation_facts e op c inputDigest (warnings f));
      _ ← ledger_append e (append_request op 0 facts);
      _ ← reconcile;
      f ← get_frame;
      mret (Answer (failureEnvelope
        (GovernedExecutionError "Execution cancelled before provider dispatch"
           "EXECUTION_CANCELLED")
        (VStr (operation_id op)) [] (warnings f)))
  end.

(** ** A call, run segment by segment *)

Inductive verb := Execute | CancelQueued.

(** What the event loop hands to a waiting call. *)
Inductive resumption :=
  | Begin (req : value)
  | Decided (decision : result value)
  | Raced (s : settlement).

(** The segment that a resumption runs, if the call waits for it. *)
Definition segment (v : verb) (e : env) (waiting : option control) (r : resumption) :
    option (M control) :=
  match waiting, r, v with
  | None, Begin req, Execute => Some (begin_execute req)
  | None, Begin req, CancelQueued => Some (begin_cancel req)
  | Some (AwaitAuthority k), Decided d, Execute => Some (after_authority k d)
  | Some (AwaitAuthority k), Decided d, CancelQueued => Some (cancel_after_authority k d)
  | Some (AwaitPolicy k), Decided d, Execute => Some (after_policy e k d)
  | Some (AwaitPolicy k), Decided d, CancelQueued => Some (cancel_after_policy e k d)
  | Some (AwaitApproval k op dg), Decided d, Execute => Some (after_approval e k op dg d)
  | Some (AwaitProvider k op ev), Raced s, Execute => Some (after_provider e k op ev s)
  | _, _, _ => None
  end.

Definition initial_frame : frame := MkFrame VNull false [] [].
End runtime.
