(* ===== verification/RuntimeSafety.v ===== *)
(** * What the governed execution runtime guarantees

    The calls of [execute] and [cancelQueued] run interleaved over one ledger: a
    configuration holds the shared world and the calls in flight, a step resumes
    one of them, starts one, or lets another writer extend the ledger.  In every
    reachable configuration a provider has been called at most once per operation,
    after its start facts became durable; a success is only reported once it is
    durable; and every answer is a canonical envelope. *)
From stdpp Require Import relations.
From S2P Require Import Prelude JsValue CanonicalJson Envelope StrictJson EventRegistry Time.
From S2P Require Approvals.
From S2P Require Import Ledger OperationId Runtime.

Definition table (s : state) : database := db (w_ledger (st_world s)).
Definition execution_stream (id : string) : stream := MkStream id "execution".

(** The identifiers a segment draws are pairwise distinct and new to the ledger, as
    random UUIDs are. *)
Definition fresh (e : env) (d : database) : Prop :=
  (∀ i, ids e i ∉ row_id <$> execution_events d) ∧ (∀ i j, ids e i = ids e j → i = j).

(** ** Inversion of a segment *)

Lemma M_bind_Ok {A B} (m : M A) (f : A → M B) s b s' :
  (m ≫= f) s = (Ok b, s') → ∃ a s1, m s = (Ok a, s1) ∧ f a s1 = (Ok b, s').
Proof. unfold mbind, M_bind. destruct (m s) as [[a|e] s1]; [eauto|done]. Qed.
Lemma M_fmap_Ok {A B} (f : A → B) (m : M A) s b s' :
  (f <$> m) s = (Ok b, s') → ∃ a, m s = (Ok a, s') ∧ b = f a.
Proof. unfold fmap, M_fmap. destruct (m s) as [[a|e] s1]; [|done]. intros [= <- <-]. eauto. Qed.

Lemma try_catch_Ok {A} (m : M A) h s a s' :
  try_catch m h s = (Ok a, s') →
  m s = (Ok a, s') ∨ ∃ e s1, m s = (Throw e, s1) ∧ h e s1 = (Ok a, s').
Proof. unfold try_catch. destruct (m s) as [[b|e] s1]; eauto. Qed.

(** Inverts [H : m s = (Ok a, s')] into the success of every step of [m]. *)
Ltac inv_M H :=
  repeat match type of H with
  | (mbind _ _) _ = (Ok _, _) =>
      let a := fresh "a" in let s1 := fresh "s" in let E := fresh "E" in
      apply M_bind_Ok in H as (a & s1 & E & H);
      lazymatch type of E with
      | lift _ _ = _ => let R := fresh "R" in injection E as R <-
      | guard _ _ _ = _ => let R := fresh "R" in injection E as R <-; clear R
      | get_frame _ = _ => injection E as <- <-
      | get_world _ = _ => injection E as <- <-
      | mret _ _ = _ => injection E as <- <-
      | set_frame _ _ = _ => injection E as <- <-
      | push_warnings _ _ = _ => injection E as <- <-
      | set_operation _ _ = _ => injection E as <- <-
      | set_evidence _ _ = _ => injection E as <- <-
      | begin_dispatch _ = _ => injection E as <- <-
      | _ => idtac
      end
  | (fmap _ _) _ = (Ok _, _) =>
      let a := fresh "a" in let E := fresh "E" in let R := fresh "R" in
      apply M_fmap_Ok in H as (a & H & R)
  | mret _ _ = (Ok _, _) => let R := fresh "R" in injection H as R H
  | lift _ _ = (Ok _, _) => let R := fresh "R" in injection H as R H
  end.

(** ** Segments only extend the ledger *)

Section keeping.
Definition keeps {A} (m : M A) : Prop := ∀ s,
  wf_db (table s) → wf_db (table (m s).2) ∧ extends (table s) (table (m s).2).

Lemma keeps_pure {A} (m : M A) : (∀ s, st_world (m s).2 = st_world s) → keeps m.
Proof. intros H s Hwf. unfold table. rewrite H. split; [done|apply extends_refl]. Qed.

Lemma keeps_bind {A B} (m : M A) (f : A → M B) :
  keeps m → (∀ a, keeps (f a)) → keeps (m ≫= f).
Proof.
  intros Hm Hf s Hwf. unfold mbind, M_bind. specialize (Hm s Hwf).
  destruct (m s) as [[a|e] s']; simpl in *; [|done]. destruct Hm as [Hwf' Hext].
  destruct (Hf a s' Hwf') as [? ?]. split; [done|by eapply extends_trans].
Qed.

Lemma keeps_fmap {A B} (f : A → B) (m : M A) : keeps m → keeps (f <$> m).
Proof.
  intros Hm s Hwf. unfold fmap, M_fmap. specialize (Hm s Hwf). by destruct (m s) as [[a|e] s'].
Qed.

Lemma keeps_try {A} (m : M A) h : keeps m → (∀ e, keeps (h e)) → keeps (try_catch m h).
Proof.
  intros Hm Hh s Hwf. unfold try_catch. specialize (Hm s Hwf).
  destruct (m s) as [[a|e] s']; simpl in *; [done|]. destruct Hm as [Hwf' Hext].
  destruct (Hh e s' Hwf') as [? ?]. split; [done|by eapply extends_trans].
Qed.

Lemma keeps_lift {A} (r : result A) : keeps (lift r).
Proof. by apply keeps_pure. Qed.
Lemma keeps_ret {A} (a : A) : keeps (mret a).
Proof. by apply keeps_pure. Qed.
Lemma keeps_throw {A} e : keeps (@throw A e).
Proof. by apply keeps_pure. Qed.
Lemma keeps_guard b e : keeps (guard b e).
Proof. by apply keeps_pure. Qed.
Lemma keeps_get_frame : keeps get_frame.
Proof. by apply keeps_pure. Qed.
Lemma keeps_get_world : keeps get_world.
Proof. by apply keeps_pure. Qed.
Lemma keeps_set_frame f : keeps (set_frame f).
Proof. by apply keeps_pure. Qed.
End keeping.
#[export] Hint Resolve keeps_lift keeps_ret keeps_throw keeps_guard keeps_get_frame
  keeps_get_world keeps_set_frame keeps_bind keeps_fmap keeps_try : hseos.

(** Steps through the binds, tests and handlers of a segment. *)
Ltac keeps_step :=
  lazymatch goal with
  | |- forall _, _ => intro
  | |- keeps (mbind _ _) => apply keeps_bind
  | |- keeps (fmap _ _) => apply keeps_fmap
  | |- keeps (try_catch _ _) => apply keeps_try
  | |- keeps (if ?b then _ else _) => destruct b
  | |- keeps (match ?x with _ => _ end) => destruct x
  | |- keeps (let '(_, _) := ?x in _) => destruct x
  | |- keeps _ => solve [auto with hseos nocore]
  end.
Ltac keeps_tac := repeat keeps_step.

Section safety.
Context {hash : Sha256} {deps : Dependencies}.

Lemma keeps_ledger_append e req : keeps (ledger_append e req).
Proof.
  intros s Hwf. unfold ledger_append.
  destruct (append_grows event_registry (recorded e) (w_ledger (st_world s)) req Hwf) as [H1 H2].
  by destruct (append _ _ _ _) as [r l].
Qed.

Lemma keeps_consume e op c id now facts : keeps (consume_approval e op c id now facts).
Proof.
  intros s Hwf. unfold consume_approval.
  destruct (Approvals.consume _ _ _ _) as [[r st] l] eqn:E.
  apply Approvals.consume_callback in E. unfold table; simpl. destruct r as [v|err].
  - destruct E as [w E].
    pose proof (append_grows event_registry (recorded e) (w_ledger (st_world s))
      (append_request op 0 facts) Hwf) as Hg. by rewrite E in Hg.
  - rewrite E. split; [done|apply extends_refl].
Qed.
Hint Resolve keeps_ledger_append keeps_consume : hseos.

Lemma keeps_conclude e i j op type payload refs evidence answer :
  keeps (conclude e i j op type payload refs evidence answer).
Proof.
  unfold conclude, persistOutcome, appendOutcome, reconcile, push_warnings. keeps_tac.
Qed.
Hint Resolve keeps_conclude : hseos.

Lemma keeps_start e j k op dg aid aev : keeps (start e j k op dg aid aev).
Proof. unfold start, dispatch, set_evidence, begin_dispatch. keeps_tac. Qed.
Hint Resolve keeps_start : hseos.

Lemma keeps_segment v e waiting r m : segment v e waiting r = Some m → keeps (handle m).
Proof.
  intros Hm. unfold handle. apply keeps_try; [|by intros; keeps_tac].
  destruct waiting as [[env'|k|k|k op dg|k op ev]|], r as [req|d|st], v; simplify_eq/=;
    unfold after_authority, after_policy, after_approval, after_provider, begin_execute,
      begin_cancel, cancel_after_authority, cancel_after_policy, provider_rejected,
      provider_resolved, unusable_result, reconcile, push_warnings, set_operation, set_evidence;
    keeps_tac.
Qed.

(** ** A dispatch follows its start facts *)

Definition started (d : database) (id : string) : Prop :=
  ∃ r1 r2 rest, stream_rows d (execution_stream id) = r1 :: r2 :: rest ∧
    event_type (columns r1) = "ExecutionAuthorized" ∧
    event_type (columns r2) = "ExecutionStarted".

Lemma fact_fields e i j type op payload refs v :
  fact e i j type op payload refs = Ok v →
  value_id v = ids e i ∧ value_type v = str_of type ∧ get "payload" v = VObj payload.
Proof.
  unfold fact. intros (t & _ & Hv)%bind_ok. apply validateForAppend_same in Hv as ->. done.
Qed.

Lemma start_facts_fields e j op c dg ws aid aev facts :
  start_facts e j op c dg ws aid aev = Ok facts →
  value_id <$> facts = [ids e 0; ids e 1] ∧
  value_type <$> facts = ["ExecutionAuthorized"; "ExecutionStarted"].
Proof.
  unfold start_facts. intros (a & Ha & H)%bind_ok. apply bind_ok in H as (b & Hb & [= <-]).
  apply fact_fields in Ha as (Ha1 & Ha2 & _), Hb as (Hb1 & Hb2 & _). rewrite !fmap_cons.
  by rewrite Ha1, Ha2, Hb1, Hb2.
Qed.

(** The append of the start facts claims the operation. *)
Definition claims (before after : database) (id : string) : Prop :=
  selectVersion before (execution_stream id) = 0%Z ∧ started after id.

Lemma append_start e op facts l v l' now :
  wf_db (db l) → fresh e (db l) →
  value_id <$> facts = [ids e 0; ids e 1] →
  value_type <$> facts = ["ExecutionAuthorized"; "ExecutionStarted"] →
  append event_registry now l (Runtime.append_request op 0 facts) = (Ok v, l') →
  claims (db l) (db l') (Runtime.operation_id op).
Proof.
  intros Hwf [Hnew _] Hids Htypes H. apply append_fresh in H; [|done|].
  - cbn in H. destruct H as (Hv & Hwf' & _ & added & Hrows & Hadded & _).
    split; [done|]. unfold started, execution_stream. rewrite Hrows.
    assert (stream_rows (db l) (MkStream (Runtime.operation_id op) "execution") = []) as ->.
    { rewrite selectVersion_wf in Hv by done. destruct (stream_rows _ _); [done|simpl in Hv; lia]. }
    rewrite Htypes in Hadded. destruct added as [|r1 [|r2 [|]]]; try done.
    rewrite !fmap_cons in Hadded. injection Hadded as E1 E2. by exists r1, r2, [].
  - intros x Hx. assert (Hid : value_id x ∈ value_id <$> facts) by (by apply list_elem_of_fmap_2).
    rewrite Hids in Hid. repeat (apply elem_of_cons in Hid as [->|Hid]; [apply Hnew|]). by apply not_elem_of_nil in Hid.
Qed.

Lemma dispatch_waits e j k op ev s ctl s' :
  dispatch e j k op ev s = (Ok ctl, s') →
  (∃ v, ctl = Answer v) ∨ (ctl = AwaitProvider k op ev ∧ table s' = table s).
Proof.
  unfold dispatch. intros H. inv_M H. case_if_in H.
  - inv_M H. left. eauto.
  - inv_M H. case_if_in H; inv_M H; [left; by eauto|]. subst. by right.
Qed.

Lemma start_waits e j k op dg aid aev s ctl s' k' op' ev :
  wf_db (table s) → fresh e (table s) →
  start e j k op dg aid aev s = (Ok ctl, s') → ctl = AwaitProvider k' op' ev →
  op' = op ∧ claims (table s) (table s') (Runtime.operation_id op).
Proof.
  intros Hwf Hfresh H ->. unfold start in H. inv_M H.
  apply start_facts_fields in R as [Hids Htypes]. destruct aid as [id|]; inv_M H.
  - apply dispatch_waits in H as [[v Hv]|[[= -> -> ->] Ht]]; [done|]. split; [done|].
    rewrite Ht. unfold consume_approval in E.
    destruct (Approvals.consume _ _ _ _) as [[r st] l] eqn:Ec. injection E as -> <-.
    apply Approvals.consume_callback in Ec as [w Ec]. by eapply append_start.
  - apply dispatch_waits in H as [[v Hv]|[[= -> -> ->] Ht]]; [done|]. split; [done|].
    rewrite Ht. unfold ledger_append in E.
    destruct (append _ _ _ _) as [r l] eqn:Ea. injection E as -> <-. by eapply append_start.
Qed.

Lemma segment_waits v e waiting r m s ctl s' k op ev :
  segment v e waiting r = Some m → wf_db (table s) → fresh e (table s) →
  handle m s = (Ok ctl, s') → ctl = AwaitProvider k op ev →
  claims (table s) (table s') (Runtime.operation_id op).
Proof.
  intros Hm Hwf Hfresh H ->. unfold handle, try_catch in H.
  destruct (m s) as [[c|err] s1] eqn:E.
  2:{ inv_M H. done. }
  injection H as -> ->.
  destruct waiting as [[env'|kk|kk|kk op1 dg|kk op1 ev1]|], r as [req|d|st], v; simplify_eq/=;
    unfold begin_execute, begin_cancel, after_authority, cancel_after_authority, after_policy,
      cancel_after_policy, after_approval, after_provider in E; inv_M E; try done.
  - destruct a4 as [envelope|]; [by inv_M E|]. destruct (needs_approval _ _); [by inv_M E|].
    edestruct start_waits as [-> Hc]; [| |exact E|reflexivity|exact Hc]; done.
  - destruct a4 as [envelope|]; by inv_M E.
  - edestruct start_waits as [-> Hc]; [| |exact E|reflexivity|exact Hc]; done.
Qed.

(** ** Calls in flight *)

Record call_state := MkCallState {
  cs_verb : verb;
  cs_waiting : option control;    (** [None]: not begun *)
  cs_frame : frame;
}.
Record config := MkConfig {
  cfg_world : world;
  cfg_calls : list call_state;
  cfg_dispatched : list string;   (** the operations a provider was called for *)
}.

Definition dispatches (ctl : control) : list string :=
  match ctl with AwaitProvider _ op _ => [Runtime.operation_id op] | _ => [] end.

(** One call is resumed, one is received, or another writer adds to the tables. *)
Inductive step : config → config → Prop :=
  | step_resume i v waiting f w calls ds e r m ctl s' :
      calls !! i = Some (MkCallState v waiting f) →
      segment v e waiting r = Some m → fresh e (db (w_ledger w)) →
      handle m (MkState f w) = (Ok ctl, s') →
      step (MkConfig w calls ds)
        (MkConfig (st_world s') (<[i := MkCallState v (Some ctl) (st_frame s')]> calls)
           (dispatches ctl ++ ds))
  | step_receive v w calls ds :
      step (MkConfig w calls ds)
        (MkConfig w (calls ++ [MkCallState v None initial_frame]) ds)
  | step_other w w' calls ds :
      wf_db (db (w_ledger w')) → extends (db (w_ledger w)) (db (w_ledger w')) →
      step (MkConfig w calls ds) (MkConfig w' calls ds).

Definition initial (w : world) : config := MkConfig w [] [].
Definition reachable (w : world) (c : config) : Prop := rtc step (initial w) c.

(** ** At most one dispatch *)

Definition ledger_of (c : config) : database := db (w_ledger (cfg_world c)).

Definition dispatch_invariant (c : config) : Prop :=
  wf_db (ledger_of c) ∧ NoDup (cfg_dispatched c) ∧
  ∀ id, id ∈ cfg_dispatched c → started (ledger_of c) id.

Lemma stream_rows_extends d d' s : extends d d' →
  ∃ l, stream_rows d' s = stream_rows d s ++ l.
Proof. intros [l Hl]. unfold stream_rows. rewrite Hl, List.filter_app. eauto. Qed.

Lemma started_extends d d' id : extends d d' → started d id → started d' id.
Proof.
  intros Hext (r1 & r2 & rest & Hr & H1 & H2).
  destruct (stream_rows_extends d d' (execution_stream id) Hext) as [l Hl].
  exists r1, r2, (rest ++ l). by rewrite Hl, Hr.
Qed.

Lemma started_not_claimed d id : wf_db d → started d id →
  selectVersion d (execution_stream id) ≠ 0%Z.
Proof.
  intros Hwf (r1 & r2 & rest & Hr & _). rewrite selectVersion_wf, Hr by done. simpl. lia.
Qed.

Lemma step_dispatch c c' : dispatch_invariant c → step c c' → dispatch_invariant c'.
Proof.
  intros (Hwf & HN & Hst) Hstep. destruct Hstep as [i v waiting f w calls ds e r m ctl s'
    Hi Hm Hfresh Hrun| |w w' calls ds Hwf' Hext]; unfold dispatch_invariant in *; simpl in *.
  - pose proof (keeps_segment _ _ _ _ _ Hm (MkState f w) Hwf) as [Hwf' Hext].
    rewrite Hrun in Hwf', Hext. simpl in Hwf', Hext. unfold ledger_of in *; simpl in *.
    assert (Hall : ∀ id, id ∈ ds → started (table s') id).
    { intros id Hid. by eapply started_extends, Hst. }
    split; [done|]. destruct ctl as [| | | |k op ev]; simpl; try done.
    pose proof (segment_waits _ _ _ _ _ (MkState f w) _ _ _ _ _ Hm Hwf Hfresh Hrun eq_refl)
      as [Hv Hnew].
    split.
    + constructor; [|done]. intros Hin. eapply started_not_claimed; [exact Hwf|by apply Hst|done].
    + intros id [->|Hid]%elem_of_cons; [done|by apply Hall].
  - done.
  - split; [done|]. split; [done|]. intros id Hid. by eapply started_extends, Hst.
Qed.

Lemma reachable_dispatch w c :
  wf_db (db (w_ledger w)) → reachable w c → dispatch_invariant c.
Proof.
  intros Hwf Hr. assert (Hinv : dispatch_invariant (initial w)).
  { split; [done|]. split; [constructor|]. by intros id ?%not_elem_of_nil. }
  revert Hinv. induction Hr as [x|x y z Hxy _ IH]; intros Hx; [done|].
  by apply IH, (step_dispatch x).
Qed.

(** C1: however calls interleave, a provider is called at most once for an
    operation, and only once its authorization and its start are durable. *)
Theorem dispatched_once w c :
  wf_db (db (w_ledger w)) → reachable w c →
  NoDup (cfg_dispatched c) ∧
  ∀ id, id ∈ cfg_dispatched c → started (ledger_of c) id.
Proof. intros Hwf Hr. by destruct (reachable_dispatch w c Hwf Hr) as (_ & ? & ?). Qed.

(** ** A success is durable *)

Definition last_fact (d : database) (id : string) : option candidate :=
  columns <$> last (stream_rows d (execution_stream id)).

Lemma append_outcome_last e i j op type payload refs s v s' :
  wf_db (table s) → fresh e (table s) →
  appendOutcome e i j op (VStr type) payload refs s = (Ok v, s') →
  ∃ c, last_fact (table s') (Runtime.operation_id op) = Some c ∧ event_type c = type ∧
    payload_json c = json_column (VObj payload).
Proof.
  intros Hwf [Hnew _] H. unfold appendOutcome in H. inv_M H.
  apply fact_fields in R as (Hid & Htype & Hpay). unfold ledger_append in H.
  destruct (append _ _ _ _) as [r l] eqn:Ea. injection H as -> <-.
  apply append_fresh in Ea; [|done|].
  - cbn in Ea. destruct Ea as (_ & _ & _ & added & Hrows & Htypes & Hpays).
    destruct added as [|r1 [|]]; try done. rewrite Htype in Htypes. rewrite Hpay in Hpays.
    cbn in Htypes, Hpays. injection Htypes as Htypes. injection Hpays as Hpays.
    exists (columns r1). unfold last_fact, table, execution_stream. simpl.
    by rewrite Hrows, last_snoc.
  - intros x Hx. cbn in Hx. apply list_elem_of_singleton in Hx as ->. by rewrite Hid.
Qed.

Lemma reconcile_world s u s' : reconcile s = (Ok u, s') → st_world s' = st_world s.
Proof.
  unfold reconcile, mbind, M_bind, get_world.
  destruct reconcileActive as [projector|]; [|by intros [= _ <-]].
  by destruct (projector _) as [|[]]; try done; intros [= _ <-].
Qed.

(** An outcome that is answered for has been appended, unless the answer says that
    it could not be. *)
Lemma conclude_durable e i j op type payload refs evidence answer s v s' :
  wf_db (table s) → fresh e (table s) →
  conclude e i j op (VStr type) payload refs evidence answer s = (Ok v, s') →
  get "ok" v = VBool true →
  ∃ c ws, last_fact (table s') (Runtime.operation_id op) = Some c ∧ event_type c = type ∧
    payload_json c = json_column (VObj (payload ++ [("warnings", ws)])) ∧
    ∃ notes, v = answer notes.
Proof.
  intros Hwf Hfresh H Hok. unfold conclude in H. inv_M H. unfold persistOutcome in E. inv_M E.
  apply try_catch_Ok in E as [Ea|(err & s2 & _ & Ea)].
  2:{ injection Ea as <- <-. inv_M H. by subst v. }
  inv_M Ea. subst a s1.
  assert (Ht : table s' = table s0 ∧ ∃ notes, v = answer notes).
  { inv_M H. subst. apply reconcile_world in E0. unfold table. rewrite E0. eauto. }
  destruct Ht as [-> [notes ->]].
  destruct (append_outcome_last _ _ _ _ _ _ _ _ _ _ Hwf Hfresh E) as (c & Hc & Htype & Hp).
  exists c. eexists. split_and!; eauto.
Qed.

Lemma conclude_answers e i j op type payload refs evidence answer s v s' :
  conclude e i j op type payload refs evidence answer s = (Ok v, s') →
  (∃ ws cause, v = terminalPersistenceFailure (VStr (Runtime.operation_id op)) evidence ws cause) ∨
  ∃ notes, v = answer notes.
Proof.
  unfold conclude. intros H. inv_M H. destruct a as [cause|]; inv_M H; subst; eauto.
Qed.

Lemma conclude_failure e i j op type payload refs evidence err id ev s v s' :
  conclude e i j op type payload refs evidence (failureEnvelope err id ev) s = (Ok v, s') →
  get "ok" v = VBool false.
Proof. by intros [(? & ? & ->)|[? ->]]%conclude_answers. Qed.

Lemma provider_rejected_failure e k op ev error late s v s' :
  provider_rejected e k op ev error late s = (Ok v, s') → get "ok" v = VBool false.
Proof.
  unfold provider_rejected. destruct (providerError error) as [[code message] retryable].
  intros H. inv_M H. by apply conclude_failure in H.
Qed.

(** C2: when a dispatched call answers with success, the success and its result are
    the last durable fact of the operation. *)
Theorem success_is_durable e k op ev st m s v s' :
  segment Execute e (Some (AwaitProvider k op ev)) (Raced st) = Some m →
  wf_db (table s) → fresh e (table s) →
  handle m s = (Ok (Answer v), s') → get "ok" v = VBool true →
  ∃ c fields, last_fact (table s') (Runtime.operation_id op) = Some c ∧
    event_type c = "ExecutionSucceeded" ∧
    payload_json c = json_column (VObj (("result", get "result" (get "data" v)) :: fields)) ∧
    get "operation_id" (get "data" v) = VStr (Runtime.operation_id op) ∧
    get "replayed" (get "data" v) = VBool false.
Proof.
  intros Hm Hwf Hfresh H Hok. injection Hm as <-. unfold handle, try_catch in H.
  destruct (after_provider e k op ev st s) as [[ctl|err] s1] eqn:E.
  2:{ inv_M H. subst v. by case_match. }
  injection H as -> ->. unfold after_provider in E. inv_M E. injection R as ->.
  destruct (completion st) as [result|error].
  - unfold provider_resolved, unusable_result in E.
    case_if_in E; [by apply conclude_failure in E; congruence|].
    destruct (providerMetadata result) as [[refs notes]|error];
      [|by apply conclude_failure in E; congruence].
    inv_M E. destruct (validateOutput _ _) as [output|error].
    + pose proof (λ Hw Hf, conclude_durable _ _ _ _ _ _ _ _ _ _ _ _ Hw Hf E Hok) as Hc.
      destruct (Hc Hwf Hfresh) as (c & ws & Hlast & Htype & Hp & notes' & ->). clear Hc.
      exists c. eexists. split; [exact Hlast|]. split; [exact Htype|]. split; [exact Hp|]. done.
    + destruct error; try done; apply conclude_failure in E; congruence.
  - apply provider_rejected_failure in E. congruence.
Qed.

(** ** Every answer is a canonical envelope *)

(** Canonical, unless it reports an error whose text is empty. *)
Definition answered (v : value) : Prop :=
  canonical v = true ∨ get "message" (get "error" v) = VStr "".

Lemma failure_answered e id evidence ws :
  known_operation id → answered (failureEnvelope e id evidence ws).
Proof.
  intros Hid. unfold answered. rewrite failure_accepts.
  destruct (failure_message e =s "") eqn:E; bool_props.
  - right. cbn. by rewrite E.
  - left. destruct Hid as [-> | ->]; simpl; [done|by rewrite orb_true_r].
Qed.

Lemma known_named id : id ≠ "" → known_operation (VStr id).
Proof. intros H. right. simpl. by apply String.eqb_neq in H as ->. Qed.

Lemma nonempty_app a c b : (a +:+ String c b) ≠ "".
Proof. by destruct a. Qed.
Lemma operation_named tool key : deterministicOperationId tool key ≠ "".
Proof. apply nonempty_app. Qed.

Definition fine (s : state) : Prop := known_operation (operationId (st_frame s)).
Definition ensures {A} (P : A → Prop) (m : M A) : Prop := ∀ s,
  fine s → fine (m s).2 ∧ ∀ a, (m s).1 = Ok a → P a.

Lemma ensures_bind {A B} (Q : A → Prop) (P : B → Prop) (m : M A) (f : A → M B) :
  ensures Q m → (∀ a, Q a → ensures P (f a)) → ensures P (m ≫= f).
Proof.
  intros Hm Hf s Hs. unfold mbind, M_bind. destruct (Hm s Hs) as [Hs' Ha].
  destruct (m s) as [[a|e] s']; simpl in *; [|done]. by apply Hf; [apply Ha|].
Qed.
Lemma ensures_try {A} (P : A → Prop) (m : M A) h :
  ensures P m → (∀ e, ensures P (h e)) → ensures P (try_catch m h).
Proof.
  intros Hm Hh s Hs. unfold try_catch. destruct (Hm s Hs) as [Hs' Ha].
  destruct (m s) as [[a|e] s']; simpl in *; [done|]. by apply Hh.
Qed.
Lemma ensures_fmap {A B} (P : B → Prop) (f : A → B) (m : M A) :
  ensures (λ a, P (f a)) m → ensures P (f <$> m).
Proof.
  intros Hm s Hs. unfold fmap, M_fmap. destruct (Hm s Hs) as [Hs' Ha].
  destruct (m s) as [[a|e] s']; simpl in *; [|done]. split; [done|]. intros b [= <-]. by apply Ha.
Qed.
Lemma ensures_lift {A} (r : result A) : ensures (λ a, r = Ok a) (lift r).
Proof. by intros s Hs. Qed.
Lemma ensures_ret {A} (P : A → Prop) a : P a → ensures P (mret a).
Proof. intros Ha s Hs. split; [done|]. by intros b [= <-]. Qed.
Lemma ensures_throw {A} (P : A → Prop) e : ensures P (throw e).
Proof. by intros s Hs. Qed.
Lemma ensures_any {A} (m : M A) :
  (∀ s, operationId (st_frame (m s).2) = operationId (st_frame s)) → ensures (λ _, True) m.
Proof. intros H s Hs. unfold fine. by rewrite H. Qed.
Lemma ensures_frame : ensures (λ f, known_operation (operationId f)) get_frame.
Proof. intros s Hs. split; [done|]. by intros f [= <-]. Qed.
Lemma ensures_world : ensures (λ _, True) get_world.
Proof. by apply ensures_any. Qed.
Lemma ensures_guard b e : ensures (λ _, True) (guard b e).
Proof. by apply ensures_any. Qed.
Lemma ensures_warnings l : ensures (λ _, True) (push_warnings l).
Proof. by apply ensures_any. Qed.
Lemma ensures_evidence l : ensures (λ _, True) (set_evidence l).
Proof. by apply ensures_any. Qed.
Lemma ensures_dispatch_flag : ensures (λ _, True) begin_dispatch.
Proof. by apply ensures_any. Qed.
Lemma ensures_operation id : id ≠ "" → ensures (λ _, True) (set_operation id).
Proof. intros Hid s Hs. split; [|done]. by apply known_named. Qed.
Lemma ensures_append e req : ensures (λ _, True) (ledger_append e req).
Proof. apply ensures_any. intros s. unfold ledger_append. by destruct (append _ _ _ _). Qed.
Lemma ensures_consume e op c id now facts :
  ensures (λ _, True) (consume_approval e op c id now facts).
Proof.
  apply ensures_any. intros s. unfold consume_approval.
  by destruct (Approvals.consume _ _ _ _) as [[??]?].
Qed.
Lemma ensures_reconcile : ensures (λ _, True) reconcile.
Proof.
  apply ensures_any. intros s. unfold reconcile, mbind, M_bind, get_world.
  destruct reconcileActive as [p|]; [|done]. by destruct (p _) as [|[]].
Qed.
Hint Resolve ensures_lift ensures_throw ensures_frame ensures_world ensures_guard
  ensures_warnings ensures_evidence ensures_dispatch_flag ensures_append ensures_consume
  ensures_reconcile : hseos.

(** Steps through a segment, keeping what each step ensures. *)
Ltac ensures_step :=
  lazymatch goal with
  | |- ensures _ (mbind _ _) =>
      eapply ensures_bind; [solve [eauto with hseos nocore]|intros ? ?; cbv beta in *]
  | |- ensures _ (if ?b then _ else _) => destruct b eqn:?
  | |- ensures _ (mret _) => apply ensures_ret
  | |- ensures _ (throw _) => apply ensures_throw
  | |- ensures _ (fmap _ _) => apply ensures_fmap
  end.

Definition control_ok (ctl : control) : Prop :=
  match ctl with
  | Answer v => answered v
  | AwaitApproval _ op _ | AwaitProvider _ op _ => Runtime.operation_id op ≠ ""
  | _ => True
  end.

Lemma ensures_persist e i j op type payload refs :
  ensures (λ _, True) (persistOutcome e i j op type payload refs).
Proof.
  unfold persistOutcome, appendOutcome. ensures_step.
  apply ensures_try; [|intros; by apply ensures_ret].
  eapply (ensures_bind (λ _, True)); [|intros; by apply ensures_ret].
  repeat ensures_step. auto with hseos.
Qed.
Hint Resolve ensures_persist : hseos.

Lemma ensures_conclude e i j op type payload refs evidence answer :
  Runtime.operation_id op ≠ "" → (∀ ws, answered (answer ws)) →
  ensures answered (conclude e i j op type payload refs evidence answer).
Proof.
  intros Hop Hans. unfold conclude. ensures_step. destruct a as [cause|]; repeat ensures_step.
  - by apply failure_answered, known_named.
  - apply Hans.
Qed.

Lemma ensures_conclude_failure e i j op type payload refs evidence err ev :
  Runtime.operation_id op ≠ "" →
  ensures answered (conclude e i j op type payload refs evidence
    (failureEnvelope err (VStr (Runtime.operation_id op)) ev)).
Proof. intros Hop. apply ensures_conclude; [done|]. intros ws. by apply failure_answered, known_named. Qed.
Hint Resolve ensures_conclude_failure : hseos.

Lemma ensures_start e j k op dg aid aev :
  Runtime.operation_id op ≠ "" → ensures control_ok (start e j k op dg aid aev).
Proof.
  intros Hop. unfold start, dispatch. repeat ensures_step.
  destruct aid as [id|]; repeat ensures_step; simpl; auto with hseos.
Qed.

Lemma make_operation_named e k key causation op :
  make_operation e k key causation = Ok op → Runtime.operation_id op ≠ "".
Proof. unfold make_operation. intros E. inv_ok E. subst op. apply operation_named. Qed.

Lemma readExisting_answered d op dg c v :
  Runtime.operation_id op ≠ "" → readExisting d op dg c = Ok (Some v) → answered v.
Proof.
  intros Hop. unfold readExisting. intros E. inv_ok E. destruct a; [done|].
  case_if_in E; [done|]. destruct (find _ _) as [authorized|]; [|done].
  case_if_in E; [done|]. injection E as <-. destruct (find_last _ _) as [terminal|].
  - unfold replay_terminal. case_if; [left; by apply success_canonical|].
    by apply failure_answered, known_named.
  - by apply failure_answered, known_named.
Qed.

Lemma ensures_after_policy e k d : ensures control_ok (after_policy e k d).
Proof.
  unfold after_policy. repeat ensures_step.
  all: try (eapply ensures_bind; [apply ensures_operation, operation_named|intros ? ?]).
  repeat ensures_step.
  all: try match goal with E : make_operation _ _ _ _ = Ok _ |- _ =>
    apply make_operation_named in E end.
  match goal with E : readExisting _ _ _ _ = Ok ?r |- _ => destruct r as [v|] end;
    repeat ensures_step; [by eapply readExisting_answered|done|].
  by apply ensures_start.
Qed.

Lemma ensures_cancel_after_policy e k d : ensures control_ok (cancel_after_policy e k d).
Proof.
  unfold cancel_after_policy. repeat ensures_step.
  all: try (eapply ensures_bind; [apply ensures_operation, operation_named|intros ? ?]).
  repeat ensures_step.
  all: try match goal with E : make_operation _ _ _ _ = Ok _ |- _ =>
    apply make_operation_named in E end.
  match goal with E : readExisting _ _ _ _ = Ok ?r |- _ => destruct r as [v|] end;
    repeat ensures_step; [by eapply readExisting_answered|].
  by apply failure_answered, known_named.
Qed.

Lemma ensures_after_provider e k op ev st :
  Runtime.operation_id op ≠ "" → ensures control_ok (after_provider e k op ev st).
Proof.
  intros Hop. unfold after_provider. ensures_step. destruct (completion st) as [result|error].
  - unfold provider_resolved, unusable_result. ensures_step; [auto with hseos|].
    destruct (providerMetadata result) as [[refs notes]|err]; [|auto with hseos].
    repeat ensures_step. destruct (validateOutput _ _) as [output|err].
    + apply ensures_conclude; [done|]. intros ws. left. by apply success_canonical.
    + destruct err; try apply ensures_throw; auto with hseos.
  - unfold provider_rejected. destruct (providerError error) as [[code message] retryable].
    eapply (ensures_bind (λ _, True)); [|intros; auto with hseos].
    case_if; [auto with hseos|by apply ensures_ret].
Qed.
Hint Resolve ensures_after_policy ensures_cancel_after_policy ensures_after_provider : hseos.

Definition waiting_ok (waiting : option control) : Prop :=
  match waiting with Some ctl => control_ok ctl | None => True end.

Lemma ensures_segment v e waiting r m :
  segment v e waiting r = Some m → waiting_ok waiting → ensures control_ok (handle m).
Proof.
  intros Hm Hw. unfold handle. apply ensures_try.
  2:{ intros err. ensures_step. apply ensures_ret. simpl.
      case_if; [by apply failure_answered|by apply failure_answered]. }
  destruct waiting as [[env'|k|k|k op dg|k op ev]|], r as [req|d|st], v; simplify_eq/=;
    auto with hseos;
    unfold begin_execute, begin_cancel, after_authority, cancel_after_authority, after_approval.
  all: repeat ensures_step; try done.
  - by apply ensures_start.
  - eapply (ensures_bind (λ _, True)); [|intros; repeat ensures_step; done].
    apply ensures_try; [|intros; apply ensures_throw].
    intros s Hs. split; [done|]. done.
Qed.

Definition answer_invariant (c : config) : Prop :=
  ∀ cs, cs ∈ cfg_calls c →
    known_operation (operationId (cs_frame cs)) ∧ waiting_ok (cs_waiting cs).

Lemma step_answers c c' : answer_invariant c → step c c' → answer_invariant c'.
Proof.
  intros Hinv Hstep. destruct Hstep as [i v waiting f w calls ds e r m ctl s'
    Hi Hm Hfresh Hrun|v w calls ds|w w' calls ds Hwf' Hext]; intros cs Hcs; simpl in Hcs.
  - apply list_elem_of_lookup in Hcs as [j Hj]. apply list_lookup_insert_Some in Hj.
    destruct Hj as [(-> & <- & _)|[_ Hj]].
    2:{ apply Hinv. simpl. by eapply list_elem_of_lookup_2. }
    destruct (Hinv _ (list_elem_of_lookup_2 _ _ _ Hi)) as [Hf Hw]. simpl in *.
    destruct (ensures_segment _ _ _ _ _ Hm Hw (MkState f w) Hf) as [Hf' Hctl].
    rewrite Hrun in Hf', Hctl. split; [done|]. by apply Hctl.
  - apply elem_of_app in Hcs as [Hcs| ->%list_elem_of_singleton]; [by apply Hinv|].
    split; [by left|done].
  - by apply Hinv.
Qed.

(** C28: every call that has been answered, in any interleaving, got an envelope the
    scheduler and the adapters accept, or one reporting an error with no text. *)
Theorem answers_are_canonical w c cs v :
  reachable w c → cs ∈ cfg_calls c → cs_waiting cs = Some (Answer v) →
  canonical v = true ∨ get "message" (get "error" v) = VStr "".
Proof.
  intros Hr Hcs Hv. assert (Hinv : answer_invariant c).
  { assert (H0 : answer_invariant (initial w)) by (by intros cs' ?%not_elem_of_nil).
    revert H0. clear - Hr. induction Hr as [x|x y z Hxy _ IH]; intros Hx; [done|].
    by apply IH, (step_answers x). }
  destruct (Hinv cs Hcs) as [_ Hw]. by rewrite Hv in Hw.
Qed.
End safety.
