(* ===== verification/RuntimeExamples.v ===== *)
(** * A governed execution, run

    Concrete collaborators, an executable interleaving of segments, and the theorems
    of [RuntimeSafety] at the configurations it reaches. *)
From stdpp Require Import relations.
From S2P Require Import Prelude JsValue CanonicalJson Envelope StrictJson EventRegistry Time.
From S2P Require Approvals.
From S2P Require Import Ledger OperationId Runtime RuntimeSafety.

(** ** Collaborators *)

#[local] Existing Instance sample_sha256.

Definition sample_contract : contract :=
  MkContract "files.read" "files" "fail_closed" "cooperative" "local" 1000 "1" false
    "read_only" true 1 1.
#[export] Instance sample_dependencies : Dependencies := {|
  event_registry := execution_registry;
  locale_le := String.leb;
  resolve := λ _, Ok sample_contract;
  validateInput := λ _ v, Ok v;
  validateOutput := λ _ v, Ok v;
  lookup_provider := λ _, Ok true;
  approval_boundary := false;
  reconcileActive := None;
|}.

Definition sample_request : value :=
  VObj [("tool", VStr "files.read"); ("input", VObj [("path", VStr "a")]);
        ("actor", VObj [("id", VStr "ana"); ("type", VStr "human")]);
        ("resource_scope", VObj [("repo", VStr "r")]); ("idempotency_key", VStr "k")].
Definition allow_decision : result value :=
  Ok (VObj [("allowed", VBool true); ("policy_version", VStr "1")]).

Definition catalog : list (string * Z) :=
  (λ t, (t, 1%Z)) <$> ["ExecutionAuthorized"; "ExecutionStarted"; "ExecutionSucceeded";
                      "ExecutionFailed"; "ExecutionCancelled"; "ExecutionOutcomeUncertain"].
Definition empty_world : world :=
  MkWorld (MkLedger (MkDb [] catalog) no_metrics) Approvals.empty_store.

(** Identifiers: three UUIDs, then texts that are not UUIDs. *)
Fixpoint tally (mark : ascii) (n : nat) : string :=
  match n with O => "" | S n => String mark (tally mark n) end.
Definition nth_id (a b c : string) (mark : ascii) (i : nat) : string :=
  match i with
  | 0 => sample_uuid a | 1 => sample_uuid b | 2 => sample_uuid c | _ => tally mark i
  end%nat.
Definition sample_env (a b c : string) (mark : ascii) : env :=
  MkEnv (λ j, Some (1700000000000 + Z.of_nat j)%Z) (nth_id a b c mark) "now" false "random".
Definition env1 : env := sample_env "1" "2" "3" "x"%char.
Definition env2 : env := sample_env "4" "5" "6" "y"%char.

Lemma tally_inj m i j : tally m i = tally m j → i = j.
Proof.
  revert j. induction i as [|i IH]; intros [|j] H; try done. injection H as H. by f_equal; apply IH.
Qed.
Lemma env1_distinct i j : ids env1 i = ids env1 j → i = j.
Proof.
  destruct i as [|[|[|i]]], j as [|[|[|j]]]; intros H; try done; try (vm_compute in H; discriminate H).
  by apply (tally_inj "x"%char).
Qed.
Lemma env2_distinct i j : ids env2 i = ids env2 j → i = j.
Proof.
  destruct i as [|[|[|i]]], j as [|[|[|j]]]; intros H; try done; try (vm_compute in H; discriminate H).
  by apply (tally_inj "y"%char).
Qed.

(** ** Running *)

Definition resume (i : nat) (e : env) (r : resumption) (c : config) : option config :=
  match cfg_calls c !! i with
  | Some (MkCallState v waiting f) =>
      match segment v e waiting r with
      | Some m =>
          match handle m (MkState f (cfg_world c)) with
          | (Ok ctl, s') =>
              Some (MkConfig (st_world s')
                (<[i := MkCallState v (Some ctl) (st_frame s')]> (cfg_calls c))
                (dispatches ctl ++ cfg_dispatched c))
          | _ => None
          end
      | None => None
      end
  | None => None
  end.

Lemma resume_step i e r c c' :
  fresh e (ledger_of c) → resume i e r c = Some c' → step c c'.
Proof.
  intros Hf H. unfold resume in H. destruct c as [w calls ds]; simpl in *.
  destruct (calls !! i) as [[v waiting f]|] eqn:Hi; [|done].
  destruct (segment v e waiting r) as [m|] eqn:Hm; [|done].
  destruct (handle m _) as [[ctl|err] s'] eqn:Hrun; [|done]. injection H as <-.
  by eapply step_resume.
Qed.

Definition received : config := MkConfig empty_world [MkCallState Execute None initial_frame] [].
Definition dispatched : config :=
  default received
    (c ← resume 0 env1 (Begin sample_request) received;
     c ← resume 0 env1 (Decided allow_decision) c;
     resume 0 env1 (Decided allow_decision) c).
Definition settled : config :=
  default received
    (resume 0 env2 (Raced (MkSettlement (Ok (VObj [("data", VStr "text")])) false)) dispatched).

Lemma fresh_empty : fresh env1 (ledger_of received).
Proof.
  split; [intros i; by apply not_elem_of_nil|]. apply env1_distinct.
Qed.

Lemma empty_world_wf : wf_db (db (w_ledger empty_world)).
Proof. split; [done|constructor|done]. Qed.

Lemma dispatched_reachable : reachable empty_world dispatched.
Proof.
  assert (H1 : step (initial empty_world) received) by apply (step_receive Execute).
  destruct (resume 0 env1 (Begin sample_request) received) as [c1|] eqn:E1;
    [|vm_compute in E1; discriminate E1].
  destruct (resume 0 env1 (Decided allow_decision) c1) as [c2|] eqn:E2;
    [|vm_compute in E1; injection E1 as <-; vm_compute in E2; discriminate E2].
  destruct (resume 0 env1 (Decided allow_decision) c2) as [c3|] eqn:E3;
    [|vm_compute in E1; injection E1 as <-; vm_compute in E2; injection E2 as <-;
      vm_compute in E3; discriminate E3].
  assert (Hd : dispatched = c3) by (unfold dispatched; rewrite E1; cbn; rewrite E2; cbn; by rewrite E3).
  assert (Hl1 : ledger_of c1 = ledger_of received) by (vm_compute in E1; by injection E1 as <-).
  assert (Hl2 : ledger_of c2 = ledger_of received).
  { vm_compute in E1; injection E1 as <-; vm_compute in E2; by injection E2 as <-. }
  rewrite Hd. eapply rtc_l; [exact H1|].
  eapply rtc_l; [eapply resume_step; [apply fresh_empty|exact E1]|].
  eapply rtc_l; [eapply resume_step; [rewrite Hl1; apply fresh_empty|exact E2]|].
  eapply rtc_l; [eapply resume_step; [rewrite Hl2; apply fresh_empty|exact E3]|].
  apply rtc_refl.
Qed.

Definition sample_id : string := deterministicOperationId "files.read" "k".

Lemma dispatched_once_witness :
  cfg_dispatched dispatched = [sample_id] ∧ NoDup (cfg_dispatched dispatched) ∧
  ∀ id, id ∈ cfg_dispatched dispatched → started (ledger_of dispatched) id.
Proof.
  split; [vm_compute; reflexivity|].
  apply (dispatched_once empty_world dispatched empty_world_wf dispatched_reachable).
Defined.

Lemma answers_are_canonical_witness :
  let v := failureEnvelope (GovernedExecutionError "Authority evaluation denied execution"
    "EXECUTION_AUTHORITY_DENIED") VNull [] [] in
  ∃ c, reachable empty_world c ∧ (canonical v = true ∨ get "message" (get "error" v) = VStr "").
Proof.
  intros v.
  assert (H1 : step (initial empty_world) received) by apply (step_receive Execute).
  destruct (resume 0 env1 (Begin sample_request) received) as [c1|] eqn:E1;
    [|vm_compute in E1; discriminate E1].
  destruct (resume 0 env1 (Decided (Ok (VObj []))) c1) as [c2|] eqn:E2;
    [|vm_compute in E1; injection E1 as <-; vm_compute in E2; discriminate E2].
  assert (Hl1 : ledger_of c1 = ledger_of received) by (vm_compute in E1; by injection E1 as <-).
  assert (Hr : reachable empty_world c2).
  { eapply rtc_l; [exact H1|].
    eapply rtc_l; [eapply resume_step; [apply fresh_empty|exact E1]|].
    eapply rtc_l; [eapply resume_step; [rewrite Hl1; apply fresh_empty|exact E2]|]. apply rtc_refl. }
  exists c2. split; [exact Hr|].
  eapply (answers_are_canonical empty_world c2 (default (MkCallState Execute None initial_frame)
    (head (cfg_calls c2)))); [exact Hr| |];
    vm_compute in E1; injection E1 as <-; vm_compute in E2; injection E2 as <-.
  - by left.
  - vm_compute. reflexivity.
Defined.

(** ** The success of the dispatch *)

Definition dispatched_state : state :=
  MkState (cs_frame (default (MkCallState Execute None initial_frame) (head (cfg_calls dispatched))))
    (cfg_world dispatched).
Definition provider_wait : option control :=
  cs_waiting (default (MkCallState Execute None initial_frame) (head (cfg_calls dispatched))).
Definition provider_success : settlement :=
  MkSettlement (Ok (VObj [("data", VStr "text")])) false.

Lemma dispatched_wf : wf_db (table dispatched_state).
Proof. apply (reachable_dispatch empty_world dispatched empty_world_wf dispatched_reachable). Qed.

Lemma dispatched_fresh : fresh env2 (table dispatched_state).
Proof.
  split; [|apply env2_distinct]. intros i.
  assert (row_id <$> execution_events (table dispatched_state) = [sample_uuid "1"; sample_uuid "2"])
    as -> by (vm_compute; reflexivity).
  intros H. apply elem_of_cons in H as [H|H%list_elem_of_singleton];
    destruct i as [|[|[|i]]]; vm_compute in H; discriminate H.
Qed.

Lemma success_is_durable_witness :
  ∃ k op ev m v s', provider_wait = Some (AwaitProvider k op ev) ∧
    segment Execute env2 provider_wait (Raced provider_success) = Some m ∧
    handle m dispatched_state = (Ok (Answer v), s') ∧
    ∃ c, last_fact (table s') (Runtime.operation_id op) = Some c ∧
      event_type c = "ExecutionSucceeded".
Proof.
  destruct provider_wait as [[|k|k|k op dg|k op ev]|] eqn:Hw; try (vm_compute in Hw; discriminate Hw).
  destruct (segment Execute env2 (Some (AwaitProvider k op ev)) (Raced provider_success))
    as [m|] eqn:Hm; [|discriminate Hm].
  destruct (handle m dispatched_state) as [[[v|?|?|? ? ?|? ? ?]|err] s'] eqn:Hrun;
    try (injection Hm as <-; vm_compute in Hw; injection Hw as <- <- <-; vm_compute in Hrun;
         discriminate Hrun).
  exists k, op, ev, m, v, s'. split; [reflexivity|]. split; [reflexivity|].
  split; [first [exact Hrun|reflexivity]|].
  destruct (success_is_durable env2 k op ev provider_success m dispatched_state v s' Hm
    dispatched_wf dispatched_fresh Hrun) as (c & fields & Hc & Ht & _).
  - injection Hm as <-. vm_compute in Hw. injection Hw as <- <- <-. vm_compute in Hrun.
    injection Hrun as <- _. vm_compute. reflexivity.
  - exists c. exact (conj Hc Ht).
Defined.
