(* ===== verification/Scheduler.v ===== *)
(** * The execution scheduler (packages/governed-execution/scheduler.js)

    The scheduler holds requests in a queue, starts them in order under a
    concurrency limit, runs exclusive tools alone, and makes queued cancellations
    barriers: nothing starts while one is being persisted.

    [state] has the fields of the class.  An item is known by its position in
    [items], which lists everything ever accepted; [queue] and [activeItems] hold
    positions, [activeItems] in insertion order.  A chain of promise callbacks
    ([_start], [_cancelQueued]) is the [job] of its item; each callback is one
    [Tick], so callbacks, port settlements and outside calls interleave freely.
    The port is only known by what its promises settle with ([Settle]).

    Abort listeners outside the scheduler and the random identifiers of handles
    are not modelled. *)
From S2P Require Import Prelude JsValue CanonicalJson Envelope OperationId.

(** ** Data *)

Inductive item_state := Queued | Running | Cancelling | Settled.
#[export] Instance item_state_eq_dec : EqDecision item_state.
Proof. solve_decision. Defined.

(** Where the promise chain of an item stands. *)
Inductive job :=
  | Idle
  | ExecuteScheduled | ExecutePending | ExecuteReturned (result : value) | ExecuteFinally
  | CancelScheduled (reason : string) | CancelPending (reason : string)
  | CancelReturned (outcome : value) | CancelFailed (error : value) | CancelFinally.

Record item := MkItem {
  request : value;
  exclusive : bool;
  cancellable : bool;
  external : bool;                  (* [request.signal] was given *)
  controller_aborted : bool;        (* [item.controller.signal.aborted] *)
  signal_reason : option string;    (* the reason of the composed signal, when aborted *)
  forwarding : bool;                (* [composeSignals] still listens to its sources *)
  queued_abort : bool;              (* [cancelFromSignal] is still registered *)
  cancelled : bool;
  settled : bool;
  item_status : item_state;         (* [item.state] *)
  resolved : list value;            (* the values passed to [item.resolve] *)
  item_job : job;
}.

Record metrics := MkMetrics {
  m_cancellation_refused : Z; m_cancelled : Z; m_completed : Z; m_failed : Z;
  m_rejected : Z; m_started : Z }.

Record state := MkState {
  maxConcurrency : Z;
  maxQueue : Z;
  items : list item;
  queue : list nat;
  activeItems : list nat;
  cancellationBarriers : Z;
  exclusiveRunning : bool;
  accepting : bool;
  drainWaiters : list nat;
  drained : list nat;               (* the drain promises resolved so far *)
  counters : metrics;
  started : list nat;               (* history: the items started, in order *)
}.

(** ** Updates *)

Definition set_items f s := MkState (maxConcurrency s) (maxQueue s) (f (items s)) (queue s)
  (activeItems s) (cancellationBarriers s) (exclusiveRunning s) (accepting s) (drainWaiters s)
  (drained s) (counters s) (started s).
Definition set_queue q s := MkState (maxConcurrency s) (maxQueue s) (items s) q
  (activeItems s) (cancellationBarriers s) (exclusiveRunning s) (accepting s) (drainWaiters s)
  (drained s) (counters s) (started s).
Definition set_active f s := MkState (maxConcurrency s) (maxQueue s) (items s) (queue s)
  (f (activeItems s)) (cancellationBarriers s) (exclusiveRunning s) (accepting s) (drainWaiters s)
  (drained s) (counters s) (started s).
Definition add_barriers n s := MkState (maxConcurrency s) (maxQueue s) (items s) (queue s)
  (activeItems s) (cancellationBarriers s + n)%Z (exclusiveRunning s) (accepting s)
  (drainWaiters s) (drained s) (counters s) (started s).
Definition set_exclusive b s := MkState (maxConcurrency s) (maxQueue s) (items s) (queue s)
  (activeItems s) (cancellationBarriers s) b (accepting s) (drainWaiters s)
  (drained s) (counters s) (started s).
Definition stop_accepting s := MkState (maxConcurrency s) (maxQueue s) (items s) (queue s)
  (activeItems s) (cancellationBarriers s) (exclusiveRunning s) false (drainWaiters s)
  (drained s) (counters s) (started s).
Definition set_waiters w d s := MkState (maxConcurrency s) (maxQueue s) (items s) (queue s)
  (activeItems s) (cancellationBarriers s) (exclusiveRunning s) (accepting s) w d
  (counters s) (started s).
Definition count f s := MkState (maxConcurrency s) (maxQueue s) (items s) (queue s)
  (activeItems s) (cancellationBarriers s) (exclusiveRunning s) (accepting s) (drainWaiters s)
  (drained s) (f (counters s)) (started s).
Definition log_start i s := MkState (maxConcurrency s) (maxQueue s) (items s) (queue s)
  (activeItems s) (cancellationBarriers s) (exclusiveRunning s) (accepting s) (drainWaiters s)
  (drained s) (counters s) (started s ++ [i]).

Definition inc_refused m := MkMetrics (m_cancellation_refused m + 1) (m_cancelled m)
  (m_completed m) (m_failed m) (m_rejected m) (m_started m).
Definition inc_cancelled m := MkMetrics (m_cancellation_refused m) (m_cancelled m + 1)
  (m_completed m) (m_failed m) (m_rejected m) (m_started m).
Definition inc_completed m := MkMetrics (m_cancellation_refused m) (m_cancelled m)
  (m_completed m + 1) (m_failed m) (m_rejected m) (m_started m).
Definition inc_failed m := MkMetrics (m_cancellation_refused m) (m_cancelled m)
  (m_completed m) (m_failed m + 1) (m_rejected m) (m_started m).
Definition inc_rejected m := MkMetrics (m_cancellation_refused m) (m_cancelled m)
  (m_completed m) (m_failed m) (m_rejected m + 1) (m_started m).
Definition inc_started m := MkMetrics (m_cancellation_refused m) (m_cancelled m)
  (m_completed m) (m_failed m) (m_rejected m) (m_started m + 1).

Definition set_status st j it := MkItem (request it) (exclusive it) (cancellable it) (external it)
  (controller_aborted it) (signal_reason it) (forwarding it) (queued_abort it) (cancelled it)
  (settled it) st (resolved it) j.
Definition set_job j it := set_status (item_status it) j it.
Definition set_cancelled it := MkItem (request it) (exclusive it) (cancellable it) (external it)
  (controller_aborted it) (signal_reason it) (forwarding it) (queued_abort it) true
  (settled it) (item_status it) (resolved it) (item_job it).
Definition set_settled it := MkItem (request it) (exclusive it) (cancellable it) (external it)
  (controller_aborted it) (signal_reason it) (forwarding it) (queued_abort it) (cancelled it)
  true Settled (resolved it) (item_job it).
Definition set_signal c r fw q it := MkItem (request it) (exclusive it) (cancellable it)
  (external it) c r fw q (cancelled it) (settled it) (item_status it) (resolved it) (item_job it).
Definition add_resolved v it := MkItem (request it) (exclusive it) (cancellable it) (external it)
  (controller_aborted it) (signal_reason it) (forwarding it) (queued_abort it) (cancelled it)
  (settled it) (item_status it) (resolved it ++ [v]) (item_job it).

(** An assignment to the fields of the object at position [i]. *)
Definition on_item (i : nat) (f : item → item) (s : state) : state := set_items (alter f i) s.

(** ** Errors and operation identifiers *)

Definition ExecutionSchedulerError (message code : string) (retryable : bool) : value :=
  VObj [("name", VStr "ExecutionSchedulerError"); ("message", VStr message);
        ("code", VStr code); ("retryable", VBool retryable)].

Section operation.
Context `{Sha256}.

Definition operationIdFor (req : value) : value :=
  if is_record req && nonempty_string (get "tool" req) &&
     nonempty_string (get "idempotency_key" req)
  then VStr (deterministicOperationId (str_of (get "tool" req))
               (str_of (get "idempotency_key" req)))
  else VNull.

Definition failure_for (e req : value) : value := failureEnvelope e (operationIdFor req) [] [].
End operation.

(** ** Signals *)

(** [request.signal] as the caller gives it. *)
Inductive signal_arg := NoSignal | InvalidSignal | ExternalSignal (aborted : option string).

Definition default_reason : string := "Scheduled execution cancelled".

(** [controller.abort(...)] on the controller of the item.  No caller leaves the
    item queued, so the listener [cancelFromSignal] returns at once. *)
Definition abort_controller (reason : string) (it : item) : item :=
  if controller_aborted it then it
  else if bool_decide (signal_reason it = None) && (negb (external it) || forwarding it)
  then set_signal true (Some reason) (forwarding it) false it
  else set_signal true (signal_reason it) (forwarding it) (queued_abort it) it.

(** [item.disposeQueuedAbort(); item.disposeSignal();] *)
Definition dispose (it : item) : item :=
  set_signal (controller_aborted it) (signal_reason it) false false it.

(** ** The loop *)

(** [_resolveDrain()]. *)
Definition resolveDrain (s : state) : state :=
  match queue s, activeItems s with
  | [], [] => set_waiters [] (drained s ++ drainWaiters s) s
  | _, _ => s
  end.

Definition size (s : state) : Z := Z.of_nat (length (activeItems s)).

(** [_start(item)]. *)
Definition start (i : nat) (it : item) (s : state) : state :=
  let s := set_active (λ l, l ++ [i]) (on_item i (set_status Running ExecuteScheduled) s) in
  let s := if exclusive it then set_exclusive true s else s in
  log_start i (count inc_started s).

(** The loop of [_pump()], on the queue [q] of [s]. *)
Fixpoint pump_loop (q : list nat) (s : state) : state :=
  match q with
  | [] => resolveDrain s
  | next :: rest =>
      match items s !! next with
      | None => s
      | Some it =>
          if exclusive it then
            if (0 <? size s)%Z then s else start next it (set_queue rest s)
          else if (maxConcurrency s <=? size s)%Z then s
          else pump_loop rest (start next it (set_queue rest s))
      end
  end.

Definition pump (s : state) : state :=
  if exclusiveRunning s || (0 <? cancellationBarriers s)%Z then s else pump_loop (queue s) s.

(** ** Cancellation of a queued item *)

(** [queue.splice(queue.indexOf(item), 1)]. *)
Fixpoint splice (i : nat) (q : list nat) : list nat :=
  match q with
  | [] => []
  | j :: q => if (j =? i)%nat then q else j :: splice i q
  end.

(** [_cancelQueued(item, reason, pump)]. *)
Definition cancelQueued (i : nat) (reason : string) (pump_after : bool) (s : state) : state * bool :=
  match items s !! i with
  | Some it =>
      if bool_decide (i ∈ queue s) && bool_decide (item_status it = Queued) then
        let s := on_item i (λ it, dispose (abort_controller reason
                    (set_status Cancelling (CancelScheduled reason) (set_cancelled it))))
                  (count inc_cancelled (set_queue (splice i (queue s)) s)) in
        let s := add_barriers 1 (set_active (λ l, l ++ [i]) s) in
        (if pump_after then pump s else s, true)
      else (s, false)
  | None => (s, false)
  end.

(** [cancelFromSignal], with the reason of the composed signal. *)
Definition cancelFromSignal (i : nat) (s : state) : state :=
  match items s !! i with
  | Some it =>
      if negb (bool_decide (item_status it = Queued)) then s
      else if negb (cancellable it) then count inc_refused s
      else
        let reason := default "" (signal_reason it) in
        (cancelQueued i (if reason =s "" then default_reason else reason) true s).1
  | None => s
  end.

(** The caller's signal of the item is aborted. *)
Definition abort_signal (i : nat) (reason : string) (s : state) : state :=
  match items s !! i with
  | Some it =>
      if external it && forwarding it && bool_decide (signal_reason it = None) then
        let s := on_item i (λ it, set_signal (controller_aborted it) (Some reason)
                                    (forwarding it) false it) s in
        if queued_abort it then cancelFromSignal i s else s
      else s
  | None => s
  end.

(** [handle.cancel(reason)]. *)
Definition cancel_handle (i : nat) (reason : string) (s : state) : state * bool :=
  match items s !! i with
  | Some it =>
      if cancelled it || settled it || controller_aborted it then (s, false)
      else if negb (cancellable it) then (count inc_refused s, false)
      else if bool_decide (item_status it = Queued) then cancelQueued i reason true s
      else (on_item i (λ it, abort_controller reason (set_cancelled it)) (count inc_cancelled s), true)
  | None => (s, false)
  end.

(** ** Requests *)

Inductive handle :=
  | Accepted (i : nat)
  | Rejected (envelope : value).

Section enqueue.
Context `{Sha256} (resolve : string → result value).

Definition reject (req e : value) (s : state) : state * handle :=
  (count inc_rejected s, Rejected (failure_for e req)).

(** [exclusive] and [cancellable], from the contract when it resolves. *)
Definition contract_flags (tool : string) : bool * bool :=
  match resolve tool with
  | Ok contract =>
      if is_undefined contract || is_null contract then (true, true)
      else (bool_decide (get "exclusive" contract = VBool true),
            negb (bool_decide (get "cancellation_policy" contract = VStr "non_cancellable")))
  | Throw _ => (true, true)
  end.

Definition new_item (req : value) (sig : signal_arg) : item :=
  let '(excl, canc) := contract_flags (str_of (get "tool" req)) in
  let '(ext, reason, fw) :=
    match sig with
    | ExternalSignal (Some reason) => (true, Some reason, false)
    | ExternalSignal None => (true, None, true)
    | _ => (false, None, false)
    end in
  MkItem req excl canc ext false reason fw true false false Queued [] Idle.

(** [enqueue(request)]; [sig] is [request.signal]. *)
Definition enqueue (req : value) (sig : signal_arg) (s : state) : state * handle :=
  if negb (is_record req) || negb (is_string (get "tool" req)) then
    reject req (ExecutionSchedulerError "Scheduler request must identify a tool"
                  "EXECUTION_REQUEST_INVALID" false) s
  else if negb (accepting s) then
    reject req (ExecutionSchedulerError "Scheduler is closed"
                  "EXECUTION_SCHEDULER_CLOSED" false) s
  else match sig with
  | InvalidSignal =>
      reject req (ExecutionSchedulerError "Scheduler signal must implement the AbortSignal contract"
                    "EXECUTION_REQUEST_INVALID" false) s
  | _ =>
      if (maxQueue s <=? Z.of_nat (length (queue s)))%Z then
        reject req (ExecutionSchedulerError "Scheduler queue capacity is exhausted"
                      "EXECUTION_SCHEDULER_CAPACITY" true) s
      else
        let i := length (items s) in
        let it := new_item req sig in
        let s := set_queue (queue s ++ [i]) (set_items (λ l, l ++ [it]) s) in
        let s := if bool_decide (signal_reason it = None) then s else cancelFromSignal i s in
        (match items s !! i with
         | Some it => if bool_decide (item_status it = Queued) then pump s else s
         | None => s
         end, Accepted i)
  end.
End enqueue.

(** ** Halting, closing and draining *)

(** The loop of [_halt(cause)] over the items that were queued; reading a field of
    [null] or [undefined] throws and leaves the loop. *)
Definition halt_message (cause : value) : string :=
  "Scheduler halted after durable cancellation failure: " +:+
  js_string (or_else (get "code" cause) (get "message" cause)).

Definition halt_envelope `{Sha256} (cause : value) (it : item) : value :=
  failure_for (ExecutionSchedulerError (halt_message cause) "EXECUTION_SCHEDULER_HALTED" false)
    (request it).

Fixpoint halt_items `{Sha256} (cause : value) (q : list nat) (s : state) : state :=
  match q with
  | [] => s
  | i :: q =>
      let s := count inc_rejected (on_item i (λ it, dispose (set_settled it)) s) in
      if is_undefined cause || is_null cause then s
      else halt_items cause q
        (on_item i (λ it, add_resolved (halt_envelope cause it) it) s)
  end.

Definition halt `{Sha256} (cause : value) (s : state) : state :=
  halt_items cause (queue s) (set_queue [] (stop_accepting s)).

(** [drain()]: the waiter it leaves, or none when there is nothing to wait for. *)
Definition drain (s : state) : state * option nat :=
  match queue s, activeItems s with
  | [], [] => (s, None)
  | _, _ =>
      let w := length (drained s) + length (drainWaiters s) in
      (set_waiters (drainWaiters s ++ [w]) (drained s) s, Some w)
  end.

Definition close_queued_item (i : nat) (s : state) : state :=
  match items s !! i with
  | Some it =>
      if cancelled it then s
      else if negb (cancellable it) then count inc_refused s
      else (cancelQueued i "Scheduler closed before execution" false s).1
  | None => s
  end.

Definition close_running_item (i : nat) (s : state) : state :=
  match items s !! i with
  | Some it =>
      if cancelled it then s
      else if negb (cancellable it) then count inc_refused s
      else on_item i (λ it, abort_controller "Scheduler closed during execution" (set_cancelled it))
             (count inc_cancelled s)
  | None => s
  end.

(** [close({ cancelQueued, cancelRunning })], up to the drain it awaits. *)
Definition close (cancel_queued cancel_running : bool) (s : state) : state * option nat :=
  let s := stop_accepting s in
  let s := if cancel_queued
           then pump (fold_left (λ s i, close_queued_item i s) (queue s) s) else s in
  let s := if cancel_running
           then fold_left (λ s i, close_running_item i s) (activeItems s) s else s in
  drain s.

(** ** Promise callbacks *)

(** The [finally] of [_start] and of [_cancelQueued]. *)
Definition set_delete (i : nat) (l : list nat) : list nat := List.filter (λ j, negb (j =? i)%nat) l.

Definition finally_start (i : nat) (it : item) (s : state) : state :=
  let s := set_active (set_delete i) (on_item i (λ it, dispose (set_settled (set_job Idle it))) s) in
  pump (if exclusive it then set_exclusive false s else s).

Definition finally_cancel (i : nat) (s : state) : state :=
  let s := set_active (set_delete i) (on_item i (λ it, set_settled (set_job Idle it)) s) in
  let s := add_barriers (-1) s in
  if accepting s then pump s else resolveDrain s.

Definition resolve_item (v : value) (next : job) (it : item) : item :=
  set_job next (add_resolved v it).

Section jobs.
Context `{Sha256} (resolve : string → result value).

(** One scheduled callback of item [i]; [None] when it has none. *)
Definition tick (i : nat) (s : state) : option state :=
  it ← items s !! i;
  match item_job it with
  | ExecuteScheduled => Some (on_item i (set_job ExecutePending) s)
  | ExecuteReturned result => Some (on_item i (resolve_item result ExecuteFinally) s)
  | ExecuteFinally => Some (finally_start i it s)
  | CancelScheduled reason => Some (on_item i (set_job (CancelPending reason)) s)
  | CancelReturned outcome => Some (on_item i (resolve_item outcome CancelFinally) s)
  | CancelFailed e =>
      Some (halt e (on_item i (resolve_item (failure_for e (request it)) CancelFinally)
                      (count inc_failed s)))
  | CancelFinally => Some (finally_cancel i s)
  | Idle | ExecutePending | CancelPending _ => None
  end.

(** [executionPort.execute(item.request)] settles with [r]. *)
Definition execute_settles (i : nat) (it : item) (r : result value) (s : state) : state :=
  match r ≫= assertCanonicalEnvelope with
  | Ok result =>
      on_item i (set_job (ExecuteReturned result))
        (count (if truthy (get "ok" result) then inc_completed else inc_failed) s)
  | Throw e =>
      on_item i (set_job (ExecuteReturned (failure_for e (request it)))) (count inc_failed s)
  end.

(** [executionPort.cancelQueued(item.request, reason)] settles with [r]. *)
Definition cancellation_outcome (r : result value) : result value :=
  outcome ← r ≫= assertCanonicalEnvelope;
  if truthy (get "ok" outcome) ||
     negb (bool_decide (get "code" (get "error" outcome) = VStr "EXECUTION_CANCELLED"))
  then Throw (ExecutionSchedulerError "Governed port did not persist queued cancellation"
                "EXECUTION_CANCELLATION_INVALID" false)
  else Ok outcome.

Definition cancel_settles (i : nat) (r : result value) (s : state) : state :=
  on_item i (set_job match cancellation_outcome r with
                     | Ok outcome => CancelReturned outcome
                     | Throw e => CancelFailed e
                     end) s.

Definition settle (i : nat) (r : result value) (s : state) : option state :=
  it ← items s !! i;
  match item_job it with
  | ExecutePending => Some (execute_settles i it r s)
  | CancelPending _ => Some (cancel_settles i r s)
  | _ => None
  end.

(** ** The whole scheduler *)

Inductive action :=
  | Enqueue (req : value) (sig : signal_arg)
  | CancelHandle (i : nat) (reason : string)
  | AbortSignal (i : nat) (reason : string)
  | Close (cancel_queued cancel_running : bool)
  | Drain
  | Tick (i : nat)
  | Settle (i : nat) (r : result value).

Definition perform (a : action) (s : state) : option state :=
  match a with
  | Enqueue req sig => Some (enqueue resolve req sig s).1
  | CancelHandle i reason => Some (cancel_handle i reason s).1
  | AbortSignal i reason => Some (abort_signal i reason s)
  | Close cq cr => Some (close cq cr s).1
  | Drain => Some (drain s).1
  | Tick i => tick i s
  | Settle i r => settle i r s
  end.

(** The constructor's checks; [contracts] and [port] are taken as valid. *)
Definition new_scheduler (max_concurrency max_queue : value) : result state :=
  _ ← for_each (λ fv : string * value,
        throw_if (negb (is_integer fv.2) || (int_of fv.2 <? 1)%Z)
          (ExecutionSchedulerError (fv.1 +:+ " must be a positive integer")
             "EXECUTION_SCHEDULER_INVALID" false))
      [("maxConcurrency", max_concurrency); ("maxQueue", max_queue)];
  Ok (MkState (int_of max_concurrency) (int_of max_queue) [] [] [] 0%Z false true [] []
        (MkMetrics 0 0 0 0 0 0) []).

(** The states of the histories whose actions are all [allowed]. *)
Inductive reachable (allowed : action → Prop) : state → Prop :=
  | reach_new mc mq s : new_scheduler mc mq = Ok s → reachable allowed s
  | reach_step a s s' : reachable allowed s → allowed a → perform a s = Some s' →
      reachable allowed s'.

(** [run] performs a list of actions. *)
Definition run (l : list action) (s : state) : option state :=
  fold_left (λ o a, s ← o; perform a s) l (Some s).

(** [snapshot()]. *)
Definition snapshot (s : state) : value :=
  VObj [("accepting", VBool (accepting s)); ("active", VNum (NInt (size s)));
        ("exclusive_running", VBool (exclusiveRunning s || (0 <? cancellationBarriers s)%Z));
        ("max_concurrency", VNum (NInt (maxConcurrency s)));
        ("max_queue", VNum (NInt (maxQueue s)));
        ("queued", VNum (NInt (Z.of_nat (length (queue s)))));
        ("totals", VObj [
           ("cancellation_refused", VNum (NInt (m_cancellation_refused (counters s))));
           ("cancelled", VNum (NInt (m_cancelled (counters s))));
           ("completed", VNum (NInt (m_completed (counters s))));
           ("failed", VNum (NInt (m_failed (counters s))));
           ("rejected", VNum (NInt (m_rejected (counters s))));
           ("started", VNum (NInt (m_started (counters s))))])].
End jobs.
