(* ===== verification/SchedulerLiveness.v ===== *)
(** * Every accepted request is answered

    The promise callbacks and port answers of the scheduler, without any further
    call, take a bounded number of steps ([work]); when none is left, every
    request has been answered once, unless the scheduler was closed or halted
    with requests still queued.  The last theorems show that this exception is
    real: a graceful close can strand a queued request. *)
From S2P Require Import Prelude JsValue CanonicalJson Envelope OperationId Scheduler SchedulerSafety.

(** ** The work left *)

Definition rank (it : item) : nat :=
  match item_status it, item_job it with
  | Queued, _ => 6
  | _, (ExecuteScheduled | CancelScheduled _) => 5
  | _, (ExecutePending | CancelPending _) => 4
  | _, (ExecuteReturned _ | CancelReturned _ | CancelFailed _) => 3
  | _, (ExecuteFinally | CancelFinally) => 2
  | _, Idle => 0
  end.
Definition work (s : state) : nat := sum_list_with rank (items s).

Lemma sum_alter (g : item → nat) f i l it :
  l !! i = Some it →
  sum_list_with g (alter f i l) + g it = sum_list_with g l + g (f it).
Proof.
  revert i. induction l as [|x l IH]; intros [|i] H; [done|done|..].
  - simplify_eq/=. lia.
  - specialize (IH _ H). change (alter f (S i) (x :: l)) with (x :: alter f i l). simpl. lia.
Qed.

Lemma work_on_item f i s it :
  items s !! i = Some it → work (on_item i f s) + rank it = work s + rank (f it).
Proof. apply (sum_alter rank). Qed.

Lemma start_items i it s :
  items (start i it s) = alter (set_status Running ExecuteScheduled) i (items s).
Proof. unfold start. by destruct (exclusive it). Qed.

Lemma start_work i it s :
  items s !! i = Some it → item_status it = Queued → work (start i it s) ≤ work s.
Proof.
  intros Hi Hst. unfold work. rewrite start_items.
  pose proof (sum_alter rank (set_status Running ExecuteScheduled) i (items s) it Hi) as Hs.
  unfold rank in Hs at 2 4. rewrite Hst in Hs. simpl in Hs. lia.
Qed.

Lemma resolveDrain_work s : work (resolveDrain s) = work s.
Proof. unfold resolveDrain. by destruct (queue s); [destruct (activeItems s)|]. Qed.

Lemma pump_loop_work q s :
  NoDup q → (∀ i, i ∈ q → ∃ it, items s !! i = Some it ∧ item_status it = Queued) →
  work (pump_loop q s) ≤ work s.
Proof.
  intros Hnd. revert s. induction Hnd as [|i q Hni Hnd IH]; intros s Hq; simpl.
  { by rewrite resolveDrain_work. }
  destruct (Hq i) as (it & Hi & Hst); [by left|]. rewrite Hi.
  pose proof (start_work i it (set_queue q s) Hi Hst) as Hw.
  change (work (set_queue q s)) with (work s) in Hw.
  case_if; case_if; try lia. etrans; [apply IH|exact Hw].
  intros j Hj. rewrite start_items, list_lookup_alter, decide_False by (intros ->; done).
  apply Hq. by right.
Qed.

Lemma pump_work s : wf s → work (pump s) ≤ work s.
Proof.
  intros Hwf. unfold pump. case_if; [done|].
  apply pump_loop_work; [by apply queue_nodup|exact (wf_queue s Hwf)].
Qed.

Lemma halt_items_work `{Sha256} cause q s :
  NoDup q → (∀ i, i ∈ q → ∃ it, items s !! i = Some it ∧ item_status it = Queued) →
  work (halt_items cause q s) ≤ work s.
Proof.
  intros Hnd. revert s. induction Hnd as [|i q Hni Hnd IH]; intros s Hq; simpl; [done|].
  destruct (Hq i) as (it & Hi & Hst); [by left|].
  pose proof (work_on_item (λ it, dispose (set_settled it)) i s it Hi) as Hw.
  assert (Hr : rank it = 6) by (unfold rank; by rewrite Hst).
  assert (Hr' : ∀ x, rank x ≤ 6).
  { intros x. unfold rank. destruct (item_status x), (item_job x); lia. }
  pose proof (Hr' (dispose (set_settled it))). case_if; [change (work (count ?f ?s)) with (work s); lia|].
  set (s' := on_item i _ (count _ _)).
  assert (Hs' : work s' ≤ work s).
  { unfold s'. change (work (on_item i ?g (count ?f ?t))) with (work (on_item i g t)).
    rewrite on_item_twice.
    pose proof (work_on_item (λ it, add_resolved (halt_envelope cause (dispose (set_settled it)))
                               (dispose (set_settled it))) i s it Hi).
    pose proof (Hr' (add_resolved (halt_envelope cause (dispose (set_settled it)))
                               (dispose (set_settled it)))). lia. }
  etrans; [apply IH|exact Hs']. intros j Hj. unfold s', on_item, set_items. simpl.
  rewrite !list_lookup_alter, !decide_False by (intros ->; done). apply Hq. by right.
Qed.

(** ** Callbacks and port answers *)

Section internal.
Context `{Sha256} (resolve : string → result value).

Definition internal (a : action) : bool :=
  match a with Tick _ | Settle _ _ => true | _ => false end.

Lemma internal_step a s s' :
  wf s → internal a = true → perform resolve a s = Some s' → work s' < work s.
Proof.
  intros Hwf Ha Hp.
  assert (Hstep : ∀ i f s it, items s !! i = Some it → rank (f it) < rank it →
    work (on_item i f s) < work s).
  { intros i f t it Hi Hr. pose proof (work_on_item f i t it Hi). lia. }
  assert (Hrank : ∀ i it, items s !! i = Some it → _) by
    exact (λ i it Hi, job_status it (wf_items s Hwf i it Hi)).
  destruct a as [| | | | |i|i r]; try done; simpl in Hp.
  - unfold tick in Hp. destruct (items s !! i) as [it|] eqn:Hi; [|done]. simpl in Hp.
    specialize (Hrank i it Hi). destruct (item_job it) eqn:Hj; try done; injection Hp as <-.
    + apply (Hstep i _ s it Hi). unfold rank. simpl. rewrite Hrank, Hj. lia.
    + apply (Hstep i _ s it Hi). unfold rank. simpl. rewrite Hrank, Hj. lia.
    + rewrite finally_start_finish by done.
      pose proof (pump_work _ (finished_start_wf i it s Hwf Hi Hrank)).
      eapply Nat.le_lt_trans; [done|].
      apply (Hstep i _ s it Hi). unfold rank. simpl. rewrite Hrank, Hj. lia.
    + apply (Hstep i _ s it Hi). unfold rank. simpl. rewrite Hrank, Hj. lia.
    + apply (Hstep i _ s it Hi). unfold rank. simpl. rewrite Hrank, Hj. lia.
    + unfold halt. set (s' := on_item i _ (count _ s)).
      assert (Hni : i ∉ queue s).
      { intros (x & Hx & ?)%(wf_queue s Hwf). congruence. }
      eapply Nat.le_lt_trans.
      * apply halt_items_work; [by apply (queue_nodup s)|]. intros j Hj'.
        destruct (wf_queue s Hwf j Hj') as (x & Hx & ?). exists x. split; [|done].
        simpl. by rewrite list_lookup_alter, decide_False by (intros ->; done).
      * apply (Hstep i _ s it Hi). unfold rank. simpl. rewrite Hrank, Hj. lia.
    + rewrite (finally_cancel_finish i it) by done. cbv zeta.
      pose proof (pump_work _ (finished_cancel_wf i it s Hwf Hi Hrank)).
      assert (Hf : work (finish i it (λ it, set_settled (set_job Idle it)) s) < work s).
      { apply (Hstep i _ s it Hi). unfold rank. simpl. rewrite Hrank, Hj. lia. }
      case_if; [|rewrite resolveDrain_work]; lia.
  - unfold settle in Hp. destruct (items s !! i) as [it|] eqn:Hi; [|done]. simpl in Hp.
    specialize (Hrank i it Hi). destruct (item_job it) eqn:Hj; try done; injection Hp as <-.
    + unfold execute_settles. destruct (r ≫= assertCanonicalEnvelope);
        apply (Hstep i _ s it Hi); unfold rank; simpl; rewrite Hrank, Hj; lia.
    + apply (Hstep i _ s it Hi). unfold rank. simpl. rewrite Hrank, Hj.
      destruct (cancellation_outcome r); lia.
Qed.

(** ** No request is forgotten *)

Definition nullish (e : value) : bool := is_undefined e || is_null e.

(** What an item is answered with. *)
Definition answer (req v : value) : Prop := canonical v = true ∨ ∃ e, v = failure_for e req.

Record accounted (q : list nat) (i : nat) (it : item) : Prop := {
  acc_queued : item_status it = Queued → i ∈ q;
  acc_settled : item_status it = Settled → length (resolved it) = 1;
  acc_resolved v : v ∈ resolved it → answer (request it) v;
  acc_job : match item_job it with
            | ExecuteReturned v | CancelReturned v => answer (request it) v
            | CancelFailed e => nullish e = false
            | _ => True
            end;
}.
Definition all_accounted (s : state) : Prop :=
  ∀ i it, items s !! i = Some it → accounted (queue s) i it.

Lemma accounted_change s s' i f it :
  all_accounted s → items s !! i = Some it → items s' = alter f i (items s) →
  (∀ j, j ≠ i → j ∈ queue s → j ∈ queue s') → accounted (queue s') i (f it) →
  all_accounted s'.
Proof.
  intros Hs Hi Hitems Hq Hf j x. rewrite Hitems, list_lookup_alter. case_decide; subst.
  - rewrite Hi. simpl. by intros [= <-].
  - intros Hx. destruct (Hs j x Hx) as []. constructor; eauto.
Qed.

Lemma accounted_same s s' :
  all_accounted s → items s' = items s → queue s ⊆ queue s' → all_accounted s'.
Proof.
  intros Hs Hi Hq j x. rewrite Hi. intros Hx. destruct (Hs j x Hx) as []. constructor; auto.
Qed.

Lemma start_accounted i it rest s :
  all_accounted s → items s !! i = Some it → queue s = i :: rest → item_status it = Queued →
  item_wf it → all_accounted (start i it (set_queue rest s)).
Proof.
  intros Hs Hi Hq Hst [Hjob _ _ Hres].
  apply (accounted_change s _ i (set_status Running ExecuteScheduled) it);
    [done..|exact (start_items i it (set_queue rest s))| |].
  - intros j Hji. rewrite start_queue, Hq, elem_of_cons. simpl. tauto.
  - destruct (Hs i it Hi). by constructor.
Qed.

Lemma resolveDrain_same s :
  items (resolveDrain s) = items s ∧ queue (resolveDrain s) = queue s.
Proof. unfold resolveDrain. by destruct (queue s) eqn:?; [destruct (activeItems s)|]. Qed.

Lemma resolveDrain_accounted s : all_accounted s → all_accounted (resolveDrain s).
Proof.
  intros Hs. destruct (resolveDrain_same s) as [Hi Hq].
  apply (accounted_same s); [done..|by rewrite Hq].
Qed.

Lemma pump_loop_accounted q s :
  wf s → exclusiveRunning s = false → queue s = q → all_accounted s →
  all_accounted (pump_loop q s).
Proof.
  revert s. induction q as [|i rest IH]; intros s Hwf He Hq Hs; simpl.
  { by apply resolveDrain_accounted. }
  assert (Hin : i ∈ queue s) by (rewrite Hq; by left).
  destruct (wf_queue s Hwf i Hin) as (it & Hi & Hst). rewrite Hi.
  pose proof (start_accounted i it rest s Hs Hi Hq Hst (wf_items s Hwf i it Hi)) as Hst'.
  destruct (exclusive it) eqn:Hx; case_if; try done. bool_props.
  apply IH; [|by rewrite start_not_exclusive|by rewrite start_queue|done].
  apply start_wf; try done. by rewrite Hx.
Qed.

Lemma pump_accounted s : wf s → all_accounted s → all_accounted (pump s).
Proof.
  intros Hwf Hs. unfold pump. case_if; [done|].
  apply orb_false_iff in Heqb as [He _]. by apply pump_loop_accounted.
Qed.

Lemma set_signal_accounted q i c r fw qa it :
  accounted q i it → accounted q i (set_signal c r fw qa it).
Proof. intros []. by constructor. Qed.

Lemma on_item_accounted i f s it :
  all_accounted s → items s !! i = Some it → accounted (queue s) i (f it) →
  all_accounted (on_item i f s).
Proof. intros Hs Hi Hf. by apply (accounted_change s _ i f it). Qed.

Lemma raise_barrier_accounted i reason s :
  wf s → all_accounted s → all_accounted (raise_barrier i reason s).
Proof.
  intros Hwf Hs. unfold raise_barrier, cancelQueued.
  destruct (items s !! i) as [it|] eqn:Hi; [|done]. case_if; [|done]. simpl.
  set (f := λ it, dispose _). apply (accounted_change s _ i f it); [done..| |].
  - intros j Hji Hj. simpl. by apply splice_other.
  - unfold f. destruct (abort_controller_fields reason
      (set_status Cancelling (CancelScheduled reason) (set_cancelled it))) as (rs & q & ->).
    destruct (Hs i it Hi). by constructor.
Qed.

Lemma cancelQueued_accounted i reason s :
  wf s → all_accounted s → all_accounted (cancelQueued i reason true s).1.
Proof.
  intros Hwf Hs. destruct (cancelQueued_pumps i reason s) as [->| ->]; [done|].
  apply pump_accounted; [by apply raise_barrier_wf|by apply raise_barrier_accounted].
Qed.

Lemma cancelFromSignal_accounted i s :
  wf s → all_accounted s → all_accounted (cancelFromSignal i s).
Proof.
  intros Hwf Hs. unfold cancelFromSignal. destruct (items s !! i); [|done].
  repeat case_if; try done; by apply cancelQueued_accounted.
Qed.

Lemma cancelled_accounted q i r it :
  accounted q i it → accounted q i (abort_controller r (set_cancelled it)).
Proof.
  intros []. destruct (abort_controller_fields r (set_cancelled it)) as (rs & qa & ->).
  by constructor.
Qed.

Lemma new_item_fresh req sig :
  resolved (new_item resolve req sig) = [] ∧ item_job (new_item resolve req sig) = Idle.
Proof. unfold new_item. by destruct (contract_flags resolve _), sig as [| |[]]. Qed.

Lemma enqueue_accounted req sig s :
  stable s → all_accounted s → all_accounted (enqueue resolve req sig s).1.
Proof.
  intros Hstable Hs. pose proof (stable_wf s Hstable) as Hwf. unfold enqueue.
  case_if; [done|]. case_if; [done|].
  destruct (match sig with InvalidSignal => true | _ => false end) eqn:Hsig; [by destruct sig|].
  set (i := length (items s)). set (it := new_item resolve req sig).
  set (pushed := set_queue _ (set_items _ s)).
  destruct (maxQueue s <=? Z.of_nat (length (queue s)))%Z eqn:Hfull; [by destruct sig|].
  bool_props. pose proof (new_item_wf resolve req sig) as [Hit Hst].
  pose proof (new_item_fresh req sig) as [Hf1 Hf2]. fold it in Hf1, Hf2.
  assert (Hw : wf pushed) by (apply push_wf; [done..|lia]).
  assert (Hp : all_accounted pushed).
  { intros j x. simpl. rewrite lookup_app_Some, list_lookup_singleton_Some.
    intros [Hx|(Hj & Hz & <-)].
    - destruct (Hs j x Hx) as [Hin]. constructor; [|done..].
      intros Hq. apply elem_of_app. left. by apply Hin.
    - assert (j = i) as -> by (unfold i; lia). constructor; simpl.
      + intros _. apply elem_of_app. right. by left.
      + fold it in Hst. congruence.
      + intros v. rewrite Hf1. by intros ?%elem_of_nil.
      + by rewrite Hf2. }
  set (signalled := if bool_decide (signal_reason it = None) then pushed
                    else cancelFromSignal i pushed).
  assert (Hsg : all_accounted signalled).
  { unfold signalled. case_if; [done|]. by apply cancelFromSignal_accounted. }
  assert (Hws : wf signalled).
  { unfold signalled. case_if; [done|].
    destruct (cancelFromSignal_new i it pushed) as [?|[]]; try done; [| |by apply stable_wf].
    - simpl. by rewrite lookup_app_r, Nat.sub_diag by done.
    - simpl. apply elem_of_app. right. by left. }
  assert (Hgoal : all_accounted (match items signalled !! i with
    | Some it => if bool_decide (item_status it = Queued) then pump signalled else signalled
    | None => signalled end)); [|by destruct sig].
  destruct (items signalled !! i); [|done]. case_if; [|done]. by apply pump_accounted.
Qed.

Lemma close_queued_accounted l s :
  wf s → all_accounted s →
  let s' := fold_left (λ s i, close_queued_item i s) l s in wf s' ∧ all_accounted s'.
Proof.
  revert s. induction l as [|i l IH]; intros s Hwf Hs; simpl; [done|].
  apply IH; [by apply close_queued_wf|]. unfold close_queued_item.
  destruct (items s !! i); [|done]. repeat case_if; try done. by apply raise_barrier_accounted.
Qed.

Lemma close_running_accounted l s :
  all_accounted s → all_accounted (fold_left (λ s i, close_running_item i s) l s).
Proof.
  revert s. induction l as [|i l IH]; intros s Hs; simpl; [done|].
  apply IH. unfold close_running_item. destruct (items s !! i) as [it|] eqn:Hi; [|done].
  repeat case_if; try done. eapply on_item_accounted; [done..|].
  by apply cancelled_accounted, Hs.
Qed.

Lemma drain_accounted s : all_accounted s → all_accounted (drain s).1.
Proof. unfold drain. by destruct (queue s) eqn:?; [destruct (activeItems s)|]. Qed.

Lemma close_accounted cq cr s :
  stable s → all_accounted s → all_accounted (close cq cr s).1.
Proof.
  intros Hstable Hs. unfold close. apply drain_accounted.
  assert (Hw : wf (stop_accepting s)) by by apply wf_stop, stable_wf.
  assert (Hq : all_accounted (if cq then pump (fold_left (λ s i, close_queued_item i s)
    (queue (stop_accepting s)) (stop_accepting s)) else stop_accepting s)).
  { destruct cq; [|done].
    destruct (close_queued_accounted (queue (stop_accepting s)) (stop_accepting s)); [done..|].
    by apply pump_accounted. }
  destruct cr; [|done]. by apply close_running_accounted.
Qed.

Lemma halt_items_accounted cause q s :
  nullish cause = false → NoDup q →
  (∀ i, i ∈ q → ∃ it, items s !! i = Some it ∧ item_status it = Queued ∧ item_wf it) →
  (∀ j x, items s !! j = Some x → accounted q j x) →
  ∀ j x, items (halt_items cause q s) !! j = Some x → accounted [] j x.
Proof.
  intros Hc Hnd. revert s. induction Hnd as [|i q Hni Hnd IH]; intros s Hq Hs; simpl; [done|].
  unfold nullish in Hc. rewrite Hc. destruct (Hq i) as (it & Hi & Hst & Hit); [by left|].
  assert (Hres : resolved it = [] ∧ item_job it = Idle).
  { destruct Hit as [Hjob _ _ Hr]. rewrite Hst in *.
    by destruct (item_job it); try done; destruct (resolved it). }
  destruct Hres as [Hres Hjob]. set (s' := on_item i _ (count _ _)).
  assert (Hlook : ∀ j, items s' !! j = if decide (i = j) then
    (λ it, add_resolved (halt_envelope cause it) it) <$> ((λ it, dispose (set_settled it)) <$>
      items s !! j) else items s !! j).
  { intros j. unfold s', on_item, set_items. simpl. rewrite !list_lookup_alter.
    case_decide; subst; [|done]. by rewrite decide_True. }
  apply IH.
  - intros j Hj. rewrite Hlook, decide_False by (intros ->; done). apply Hq. by right.
  - intros j x. rewrite Hlook. case_decide; subst.
    + rewrite Hi. simpl. intros [= <-]. destruct (Hs j it Hi) as [].
      constructor; simpl; rewrite ?Hres, ?Hjob; [done|done| |done].
      intros v ->%list_elem_of_singleton. right. by eexists.
    + intros Hx. destruct (Hs j x Hx) as [Hin]. constructor; [|done..].
      intros Hj. specialize (Hin Hj). apply elem_of_cons in Hin as [->|?]; done.
Qed.

(** The port rejects with a reason, as [Promise] code that throws errors does. *)
Definition orderly (a : action) : Prop :=
  match a with Settle _ (Throw e) => nullish e = false | _ => True end.

Lemma assert_throws outcome e : assertCanonicalEnvelope outcome = Throw e → nullish e = false.
Proof.
  unfold assertCanonicalEnvelope, throw_if. intros Ha.
  repeat (case_if_in Ha; simpl in Ha; try (by injection Ha as <-)); done.
Qed.

Lemma checked_canonical r v : r ≫= assertCanonicalEnvelope = Ok v → canonical v = true.
Proof.
  rewrite bind_ok. intros (w & _ & Hw). pose proof (assert_returns w v Hw) as ->.
  unfold canonical. by rewrite Hw.
Qed.

Lemma cancellation_canonical r v : cancellation_outcome r = Ok v → canonical v = true.
Proof.
  unfold cancellation_outcome. destruct (r ≫= assertCanonicalEnvelope) as [w|] eqn:Hw; simpl; [|done].
  case_if; [done|]. intros [= <-]. by apply (checked_canonical r).
Qed.

Lemma cancellation_throws i r e :
  orderly (Settle i r) → cancellation_outcome r = Throw e → nullish e = false.
Proof.
  unfold cancellation_outcome. intros Ho. destruct (r ≫= assertCanonicalEnvelope) as [w|f] eqn:Hw; simpl.
  - case_if; [by intros [= <-]|done].
  - intros [= <-]. destruct r as [w|f']; simpl in *; [by eapply assert_throws|congruence].
Qed.

Lemma tick_accounted i s s' :
  stable s → all_accounted s → tick i s = Some s' → all_accounted s'.
Proof.
  intros Hstable Hs Ht. unfold tick in Ht. pose proof (stable_wf s Hstable) as Hwf.
  destruct (items s !! i) as [it|] eqn:Hi; [|done]. simpl in Ht.
  pose proof (wf_items s Hwf i it Hi) as Hit. pose proof (job_status it Hit) as Hst.
  pose proof (Hs i it Hi) as [_ _ Hres Hacc].
  destruct (item_job it) eqn:Hj; try done; injection Ht as <-.
  - eapply on_item_accounted; [done..|]. by constructor; simpl; rewrite ?Hst.
  - eapply on_item_accounted; [done..|]. constructor; simpl; rewrite ?Hst; try done.
    intros v [?| ->%list_elem_of_singleton]%elem_of_app; auto.
  - rewrite finally_start_finish by done. apply pump_accounted; [by apply finished_start_wf|].
    apply (accounted_change s _ i (λ it, dispose (set_settled (set_job Idle it))) it); try done.
    constructor; try done. intros _. by destruct Hit as [_ _ _ Hr]; rewrite Hst, Hj in Hr.
  - eapply on_item_accounted; [done..|]. by constructor; simpl; rewrite ?Hst.
  - eapply on_item_accounted; [done..|]. constructor; simpl; rewrite ?Hst; try done.
    intros v [?| ->%list_elem_of_singleton]%elem_of_app; auto.
  - unfold halt. set (f := resolve_item _ CancelFinally).
    assert (Hni : i ∉ queue s) by (intros (x & Hx & ?)%(wf_queue s Hwf); congruence).
    intros j x Hx. rewrite (proj1 (proj2 (halt_frame _ _ _))).
    eapply (halt_items_accounted error (queue s)); [done|by apply queue_nodup| | |exact Hx].
    + intros k Hk. destruct (wf_queue s Hwf k Hk) as (y & Hy & ?). exists y.
      simpl. rewrite list_lookup_alter, decide_False by (intros ->; done).
      split_and!; [done..|]. by apply (wf_items s Hwf k).
    + intros k y. simpl. rewrite list_lookup_alter. case_decide; subst; [|apply Hs].
      rewrite Hi. simpl. intros [= <-]. constructor; simpl; rewrite ?Hst; try done.
      intros v [?| ->%list_elem_of_singleton]%elem_of_app; [auto|]. right. by eexists.
  - rewrite (finally_cancel_finish i it) by done. cbv zeta.
    set (s' := finish _ _ _ s).
    assert (Hs' : all_accounted s').
    { apply (accounted_change s _ i (λ it, set_settled (set_job Idle it)) it); try done.
      constructor; try done. intros _. by destruct Hit as [_ _ _ Hr]; rewrite Hst, Hj in Hr. }
    case_if; [|by apply resolveDrain_accounted].
    apply pump_accounted; [by apply finished_cancel_wf|done].
Qed.

Lemma settle_accounted i r s s' :
  orderly (Settle i r) → stable s → all_accounted s → settle i r s = Some s' → all_accounted s'.
Proof.
  intros Ho Hstable Hs Ht. unfold settle in Ht. pose proof (stable_wf s Hstable) as Hwf.
  destruct (items s !! i) as [it|] eqn:Hi; [|done]. simpl in Ht.
  pose proof (job_status it (wf_items s Hwf i it Hi)) as Hst.
  pose proof (Hs i it Hi) as [_ _ Hres _].
  destruct (item_job it) eqn:Hj; try done; injection Ht as <-.
  - unfold execute_settles. destruct (r ≫= assertCanonicalEnvelope) as [v|e] eqn:Hr.
    + eapply (on_item_accounted i _ (count _ s)); [done..|].
      constructor; simpl; rewrite ?Hst; try done. left. by apply (checked_canonical r).
    + eapply (on_item_accounted i _ (count _ s)); [done..|].
      constructor; simpl; rewrite ?Hst; try done. right. by exists e.
  - unfold cancel_settles. eapply on_item_accounted; [done..|].
    destruct (cancellation_outcome r) as [v|e] eqn:Hr;
      (constructor; simpl; rewrite ?Hst; try done).
    + left. by apply (cancellation_canonical r).
    + by apply (cancellation_throws i r).
Qed.

Lemma perform_accounted a s s' :
  orderly a → stable s → all_accounted s → perform resolve a s = Some s' → all_accounted s'.
Proof.
  intros Ho Hstable Hs. pose proof (stable_wf s Hstable) as Hwf.
  destruct a as [req sig|i reason|i reason|cq cr| |i|i r]; simpl; intros Hp; try injection Hp as <-.
  - by apply enqueue_accounted.
  - unfold cancel_handle. destruct (items s !! i) as [it|] eqn:Hi; [|done].
    repeat case_if; try done; [by apply cancelQueued_accounted|].
    eapply (on_item_accounted i _ (count _ s)); [done..|]. by apply cancelled_accounted, Hs.
  - unfold abort_signal. destruct (items s !! i) as [it|] eqn:Hi; [|done]. case_if; [|done].
    set (s' := on_item i _ s).
    assert (Hs' : all_accounted s').
    { eapply on_item_accounted; [done..|]. by apply set_signal_accounted, Hs. }
    case_if; [|done]. apply cancelFromSignal_accounted; [|done].
    eapply wf_on_item; [done..|]. pose proof (wf_items s Hwf i it Hi) as Hit.
    apply set_signal_wf; [done|]. intros Hq. by destruct Hit as [_ _ []].
  - by apply close_accounted.
  - by apply drain_accounted.
  - by eapply tick_accounted.
  - by eapply settle_accounted.
Qed.

Lemma reachable_accounted s : reachable resolve orderly s → all_accounted s.
Proof.
  induction 1 as [mc mq s Hn|a s s' Hr IH Ho Hp].
  - unfold new_scheduler in Hn. rewrite bind_ok in Hn. destruct Hn as (u & _ & [= <-]).
    intros i it. simpl. by rewrite lookup_nil.
  - eapply perform_accounted; [done| |done..]. by eapply reachable_stable.
Qed.

(** ** Where the callbacks end *)

(** Nothing is scheduled and no answer of the port is awaited. *)
Definition quiet (s : state) : Prop := ∀ i r, tick i s = None ∧ settle i r s = None.

Lemma quiet_idle s i it : quiet s → items s !! i = Some it → item_job it = Idle.
Proof.
  intros Hq Hi. destruct (Hq i (Ok VNull)) as [Ht Hr]. unfold tick, settle in *.
  rewrite Hi in Ht, Hr. simpl in *. by destruct (item_job it).
Qed.

Lemma quiet_inactive s : wf s → quiet s → activeItems s = [].
Proof.
  intros Hwf Hq. destruct (activeItems s) as [|i l] eqn:Hl; [done|]. exfalso.
  assert (Hin : i ∈ activeItems s) by (rewrite Hl; by left).
  destruct (wf_active s Hwf) as (_ & Hm & _). apply Hm in Hin as (it & Hi & Ha).
  pose proof (job_status it (wf_items s Hwf i it Hi)) as Hst.
  rewrite (quiet_idle s i it Hq Hi) in Hst. apply active_status in Ha.
  destruct Ha, Hst; congruence.
Qed.

Definition open_or_empty (s : state) : Prop := accepting s = true ∨ queue s = [].

Lemma start_frame i it s : accepting (start i it s) = accepting s.
Proof. unfold start. by destruct (exclusive it). Qed.

Lemma pump_frame s : accepting (pump s) = accepting s ∧ (queue s = [] → queue (pump s) = []).
Proof.
  unfold pump. case_if; [done|]. clear. remember (queue s) as q eqn:Hq. revert s Hq.
  induction q as [|i q IH]; intros s Hq; simpl.
  - rewrite resolveDrain_accepting. split; [done|]. intros _. by rewrite (proj2 (resolveDrain_same s)).
  - destruct (items s !! i) as [it|]; [|done].
    case_if; case_if; try done; [by rewrite start_frame|].
    destruct (IH (start i it (set_queue q s))) as [-> _]; [by rewrite start_queue|].
    by rewrite start_frame.
Qed.

Lemma internal_open a s s' :
  wf s → internal a = true → perform resolve a s = Some s' → open_or_empty s → open_or_empty s'.
Proof.
  intros Hwf Ha Hp. destruct a as [| | | | |i|i r]; try done; simpl in Hp.
  - unfold tick in Hp. destruct (items s !! i) as [it|] eqn:Hi; [|done]. simpl in Hp.
    pose proof (job_status it (wf_items s Hwf i it Hi)) as Hst.
    destruct (item_job it) eqn:Hj; try done; injection Hp as <-; try done.
    + rewrite finally_start_finish by done.
      destruct (pump_frame (finish i it (λ it, dispose (set_settled (set_job Idle it))) s))
        as [Hacc Hq]. intros [?|?]; [left; by rewrite Hacc|right; by apply Hq].
    + right. unfold halt. by rewrite (proj1 (proj2 (halt_frame _ _ _))).
    + rewrite (finally_cancel_finish i it) by done. cbv zeta.
      set (s1 := finish _ _ _ s). destruct (pump_frame s1) as [Hacc Hq].
      destruct (resolveDrain_same s1) as [_ Hrd].
      intros [Ho|Ho]; [rewrite Ho; left; by rewrite Hacc|].
      case_if; right; [by apply Hq|by rewrite Hrd].
  - unfold settle in Hp. destruct (items s !! i) as [it|] eqn:Hi; [|done]. simpl in Hp.
    destruct (item_job it); try done; injection Hp as <-; [|done].
    unfold execute_settles. by destruct (r ≫= assertCanonicalEnvelope).
Qed.

Lemma run_snoc_none l : fold_left (λ o a, s ← o; perform resolve a s) l None = None.
Proof. by induction l. Qed.

Lemma run_cons a l s : run resolve (a :: l) s = s1 ← perform resolve a s; run resolve l s1.
Proof. unfold run. simpl. destruct (perform resolve a s); [done|]. apply run_snoc_none. Qed.

Definition background (a : action) : Prop := internal a = true ∧ orderly a.

(** The state of the item at the end of every promise. *)
Definition answered (it : item) : Prop :=
  item_status it = Settled ∧ ∃ v, resolved it = [v] ∧ answer (request it) v.

Lemma quiet_answered s :
  stable s → all_accounted s → open_or_empty s → quiet s →
  activeItems s = [] ∧ queue s = [] ∧ drainWaiters s = [] ∧
  ∀ i it, items s !! i = Some it → answered it.
Proof.
  intros [[Hwf Hw] Hp] Hs Ho Hq. pose proof (quiet_inactive s Hwf Hq) as Ha.
  assert (Hqueue : queue s = []).
  { destruct Ho as [Ho|Ho]; [|done]. by apply pumped_idle, Ha; [|apply Hp]. }
  split_and!; [done|done|by destruct Hw as [?|[?|?]]|]. intros i it Hi.
  pose proof (job_status it (wf_items s Hwf i it Hi)) as Hst.
  rewrite (quiet_idle s i it Hq Hi) in Hst. destruct (Hs i it Hi) as [Hin Hset Hres _].
  rewrite Hqueue in Hin. destruct Hst as [Hst|Hst]; [by apply Hin, elem_of_nil in Hst|].
  split; [done|]. specialize (Hset Hst). destruct (resolved it) as [|v [|]] eqn:E; try done.
  exists v. split; [done|]. apply Hres. by left.
Qed.

Lemma background_run l s s' :
  stable s → all_accounted s → open_or_empty s → Forall background l →
  run resolve l s = Some s' →
  length l + work s' ≤ work s ∧ stable s' ∧ all_accounted s' ∧ open_or_empty s'.
Proof.
  intros Hst Hs Ho Hl. revert s Hst Hs Ho. induction Hl as [|a l [Hi Ha] _ IH]; intros s Hst Hs Ho.
  { intros [= <-]. simpl. split_and!; try done; lia. }
  rewrite run_cons. destruct (perform resolve a s) as [s1|] eqn:Hp; simpl; [|done].
  pose proof (stable_wf s Hst) as Hwf.
  pose proof (internal_step a s s1 Hwf Hi Hp) as Hwork. intros Hr.
  destruct (IH s1) as (Hlen & ?); [by eapply perform_stable|by eapply perform_accounted|
    by eapply internal_open|done|]. split; [simpl; lia|done].
Qed.

(** C3: while the scheduler is open, the callbacks and the answers of the port
    are bounded by the work in it, in any order; when none is left, nothing is
    queued or active, every drain is resolved, and every accepted request was
    answered exactly once, with a canonical envelope or the failure envelope of
    a thrown error. *)
Theorem every_request_answered s l s' :
  reachable resolve orderly s → open_or_empty s → Forall background l →
  run resolve l s = Some s' →
  length l ≤ work s ∧
  (quiet s' → activeItems s' = [] ∧ queue s' = [] ∧ drainWaiters s' = [] ∧
    ∀ i it, items s' !! i = Some it → answered it).
Proof.
  intros Hr Ho Hl Hrun.
  destruct (background_run l s s' (reachable_stable resolve orderly s Hr)
    (reachable_accounted s Hr) Ho Hl Hrun) as (Hlen & Hst & Hs & Ho').
  split; [lia|]. intros Hq. by apply quiet_answered.
Qed.

End internal.

(** ** A graceful close that never ends *)

Section stranded.
Context `{Sha256}.

Definition parallel_contract (tool : string) : result value :=
  Ok (VObj [("exclusive", VBool false); ("cancellation_policy", VStr "cooperative")]).
Definition ask (tool : string) : action := Enqueue (VObj [("tool", VStr tool)]) NoSignal.
Definition refusal : value :=
  failureEnvelope (VObj [("message", VStr "cancelled"); ("code", VStr "EXECUTION_CANCELLED")])
    VNull [] [].

(** Three requests at [maxConcurrency] 1; the second is cancelled while queued,
    and the scheduler is closed with the default options.  The first request
    finishes before the cancellation has been persisted. *)
Definition stranding : list action :=
  [ask "a"; ask "b"; ask "c"; CancelHandle 1 "no longer needed"; Close false false;
   Tick 0; Settle 0 (Ok refusal); Tick 0; Tick 0;
   Tick 1; Settle 1 (Ok refusal); Tick 1; Tick 1].

Definition single_scheduler : option state :=
  match new_scheduler (VNum (NInt 1)) (VNum (NInt 8)) with Ok s => Some s | Throw _ => None end.

(** What can happen to a closed scheduler without a caller cancelling or closing. *)
Definition passive (a : action) : bool :=
  match a with Enqueue _ _ | Drain | Tick _ | Settle _ _ => true | _ => false end.

Lemma closed_stays a s s' :
  quiet s → accepting s = false → passive a = true →
  perform parallel_contract a s = Some s' →
  items s' = items s ∧ queue s' = queue s ∧ accepting s' = false ∧
  drainWaiters s `prefix_of` drainWaiters s'.
Proof.
  intros Hq Ha Hpass Hp. destruct a as [req sig| | | | |i|i r]; try done; simpl in Hp.
  - injection Hp as <-. unfold enqueue. case_if; [done|]. by rewrite Ha.
  - injection Hp as <-. unfold drain. destruct (queue s) eqn:E; [destruct (activeItems s)|].
    all: split_and!; simpl; try done; by apply prefix_app_r.
  - destruct (Hq i (Ok VNull)) as [Ht _]. congruence.
  - destruct (Hq i r) as [_ Ht]. congruence.
Qed.

Lemma quiet_items s s' : items s' = items s → quiet s → quiet s'.
Proof.
  intros Hi Hq i r. destruct (Hq i r) as [Ht Hs]. unfold tick, settle in *. rewrite Hi.
  destruct (items s !! i) as [it|]; [|done]. simpl in *. by destruct (item_job it).
Qed.

Lemma closed_stays_run l s s' :
  quiet s → accepting s = false → Forall (λ a, passive a = true) l →
  run parallel_contract l s = Some s' →
  queue s' = queue s ∧ drainWaiters s `prefix_of` drainWaiters s'.
Proof.
  intros Hq Ha Hl. revert s Hq Ha. induction Hl as [|a l Hpass _ IH]; intros s Hq Ha.
  { by intros [= <-]. }
  rewrite run_cons. destruct (perform parallel_contract a s) as [s1|] eqn:Hp; simpl; [|done].
  destruct (closed_stays a s s1 Hq Ha Hpass Hp) as (Hi & Hqu & Ha1 & Hpre).
  intros Hr. destruct (IH s1 (quiet_items s s1 Hi Hq) Ha1 Hr) as [-> Hpre'].
  split; [done|]. by etrans.
Qed.

(** Closing can strand a queued request.  After [stranding] the
    scheduler is quiet with a request still queued and the promise of [close]
    pending, and no callback, answer, drain or new request ever changes that. *)
Theorem close_strands_queued :
  ∃ s0 s, single_scheduler = Some s0 ∧ run parallel_contract stranding s0 = Some s ∧
    quiet s ∧ activeItems s = [] ∧ queue s = [2%nat] ∧ drainWaiters s = [0%nat] ∧
    ∀ l s', Forall (λ a, passive a = true) l → run parallel_contract l s = Some s' →
      queue s' = [2%nat] ∧ 0%nat ∈ drainWaiters s'.
Proof.
  eexists _, _. split; [reflexivity|]. split; [vm_compute; reflexivity|].
  match goal with |- quiet ?s ∧ _ => set (final := s) end.
  assert (Hq : quiet final).
  { intros i r. unfold tick, settle, final. simpl. by destruct i as [|[|[|i]]]. }
  split_and!; [done..|]. intros l s' Hl Hr.
  destruct (closed_stays_run l final s' Hq eq_refl Hl Hr) as [-> Hpre].
  split; [done|]. eapply elem_of_prefix; [|exact Hpre]. by left.
Qed.
End stranded.
