(* ===== verification/SchedulerExamples.v ===== *)
(** * The scheduler, run

    The theorems of [SchedulerLiveness] at states reached by concrete histories. *)
From S2P Require Import Prelude JsValue CanonicalJson Envelope OperationId.
From S2P Require Import Scheduler SchedulerSafety SchedulerLiveness.

#[local] Existing Instance sample_sha256.

(** A tool of the group "edit" runs alone, any other in parallel. *)
Definition sample_resolve (tool : string) : result value :=
  if tool =s "missing" then Throw (VObj [("message", VStr "unknown tool")])
  else Ok (VObj [("exclusive", VBool (tool =s "edit"));
                 ("cancellation_policy", VStr "cooperative")]).

Definition fresh_scheduler : state :=
  MkState 2 8 [] [] [] 0 false true [] [] (MkMetrics 0 0 0 0 0 0) [].

Lemma fresh_reachable allowed : reachable sample_resolve allowed fresh_scheduler.
Proof. by apply (reach_new _ _ (VNum (NInt 2)) (VNum (NInt 8))). Qed.

Lemma run_reachable (allowed : action → Prop) l s s' :
  reachable sample_resolve allowed s → Forall allowed l →
  run sample_resolve l s = Some s' → reachable sample_resolve allowed s'.
Proof.
  intros Hs Hl. revert s Hs. induction Hl as [|a l Ha _ IH]; intros s Hs.
  { by intros [= <-]. }
  rewrite run_cons. destruct (perform sample_resolve a s) as [s1|] eqn:Hp; simpl; [|done].
  apply IH. by eapply reach_step.
Qed.

(** Two reads run, an edit and a read wait. *)
Definition busy_history : list action :=
  [ask "read"; ask "read"; ask "edit"; ask "read"; Tick 0; Settle 0 (Throw (VStr "lost"))].
Definition busy : state := default fresh_scheduler (run sample_resolve busy_history fresh_scheduler).

Lemma busy_reachable : reachable sample_resolve orderly busy.
Proof.
  apply (run_reachable orderly busy_history fresh_scheduler); [apply fresh_reachable| |].
  - repeat constructor.
  - vm_compute. reflexivity.
Qed.

(** One item from its port call to its answer. *)
Definition conclude (i : nat) : list action :=
  [Tick i; Settle i (Ok refusal); Tick i; Tick i].
Definition rest_of_busy : list action :=
  [Tick 0; Tick 0] ++ conclude 1 ++ conclude 2 ++ conclude 3.
Definition finished : state := default busy (run sample_resolve rest_of_busy busy).

Lemma busy_accepting : accepting busy = true.
Proof. vm_compute. reflexivity. Qed.

Lemma idle_quiet s n : item_job <$> items s = replicate n Idle → quiet s.
Proof.
  intros Hall i r. unfold tick, settle. destruct (items s !! i) as [it|] eqn:Hi; [|done]. simpl.
  assert (Hj : (item_job <$> items s) !! i = Some (item_job it)) by
    (by rewrite list_lookup_fmap, Hi).
  rewrite Hall in Hj. by apply lookup_replicate in Hj as [-> _].
Qed.
Lemma finished_quiet : quiet finished.
Proof. apply (idle_quiet finished 4). vm_compute. reflexivity. Qed.

Lemma every_request_answered_witness :
  length rest_of_busy ≤ work busy ∧ drainWaiters finished = [] ∧
  (∀ i it, items finished !! i = Some it → answered it) ∧ length (items finished) = 4%nat.
Proof.
  destruct (every_request_answered sample_resolve busy rest_of_busy finished) as [Hlen Hq].
  - apply busy_reachable.
  - left. vm_compute. reflexivity.
  - repeat constructor.
  - vm_compute. reflexivity.
  - split; [exact Hlen|]. destruct (Hq finished_quiet) as (_ & _ & Hd & Hall).
    split; [exact Hd|]. split; [exact Hall|]. vm_compute. reflexivity.
Defined.

Lemma scheduler_limits_witness :
  (Z.of_nat (how_many (has_status Running) (items busy)) ≤ maxConcurrency busy)%Z ∧
  how_many (has_status Running) (items busy) = 2%nat.
Proof.
  split; [exact (proj1 (scheduler_limits sample_resolve orderly busy busy_reachable))|].
  vm_compute. reflexivity.
Defined.

Lemma starts_in_order_witness :
  fifo busy ∧ started busy = [0; 1] ∧ queue busy = [2; 3].
Proof.
  split; [exact (proj1 (starts_in_order sample_resolve orderly busy busy_reachable))|].
  vm_compute. split; reflexivity.
Defined.

Lemma no_lost_wakeup_witness : pumped busy ∧ queue busy ≠ [].
Proof.
  split; [exact (proj1 (no_lost_wakeup sample_resolve orderly busy busy_reachable busy_accepting))|].
  vm_compute. discriminate.
Defined.
