(* ===== verification/Projections.v ===== *)
(** * The execution projections (tools/mcp-project-state/lib/execution-projections.js)

    A projection generation holds one row per execution, folded from the event
    ledger up to its checkpoint.  Generations are built next to the active one and
    promoted once they have caught up and agree with the ledger.

    [pstore] is the three tables of migration 006 for the single projection
    [execution-runs].  The fault injector of the tests is an argument that may
    throw; wall-clock columns and the lag metric are left out.  [reconcile_loop]
    takes fuel: one unit per batch read. *)
From S2P Require Import Prelude JsValue CanonicalJson EventRegistry Time Ledger.

(** ** Errors *)

Definition ProjectionError_with (name message code : string) (details : value) : value :=
  error_with name message code details.
Definition ProjectionError (message code : string) : value :=
  ProjectionError_with "ProjectionError" message code (VObj []).
Definition UnsupportedProjectionEventError (eventType : string) : value :=
  ProjectionError_with "UnsupportedProjectionEventError"
    ("Unsupported execution projection event: " +:+ eventType)
    "EXECUTION_PROJECTION_EVENT_UNSUPPORTED" (VObj [("event_type", VStr eventType)]).
Definition ProjectionIntegrityError (details : value) : value :=
  ProjectionError_with "ProjectionIntegrityError"
    "Projection cannot activate because its integrity comparison failed"
    "EXECUTION_PROJECTION_INTEGRITY_FAILED" details.
Definition ProjectionCheckpointConflictError (generation expected attempted : Z) : value :=
  ProjectionError_with "ProjectionCheckpointConflictError"
    "Projection checkpoint changed before the batch could commit"
    "EXECUTION_PROJECTION_CHECKPOINT_CONFLICT"
    (VObj [("generation", VNum (NInt generation));
           ("expected_checkpoint", VNum (NInt expected));
           ("attempted_checkpoint", VNum (NInt attempted))]).

(** ** Tables *)

Definition PROJECTION_SCHEMA_VERSION : Z := 1.

Inductive generation_status := building | active | retired | failed.
#[export] Instance generation_status_eq_dec : EqDecision generation_status.
Proof. solve_decision. Defined.

(** A row of [execution_projection_generations]. *)
Record generation := MkGeneration {
  gen_number : Z;
  gen_schema_version : Z;
  gen_status : generation_status;
  source_high_water : Z;
}.
(** A row of [execution_projection_checkpoints]. *)
Record checkpoint := MkCheckpoint { ck_position : Z; last_error : option string }.
(** A row of [execution_run_projection], without its generation. *)
Record run := MkRun {
  run_stream : stream;
  run_version : Z;
  run_operation_id : option string;
  run_status : string;
  last_event_type : string;
  last_occurred_at : string;
  run_position : Z;
}.
#[export] Instance run_eq_dec : EqDecision run.
Proof. solve_decision. Defined.

Record pstore := MkStore {
  generations : list generation;
  checkpoints : gmap Z checkpoint;
  runs : gmap (Z * (string * string)) run;
  events_processed : Z;
  projection_failures : Z;
}.

Definition set_generations f st := MkStore (f (generations st)) (checkpoints st) (runs st)
  (events_processed st) (projection_failures st).
Definition set_checkpoint g c st := MkStore (generations st) (<[g := c]> (checkpoints st)) (runs st)
  (events_processed st) (projection_failures st).
Definition set_run k r st := MkStore (generations st) (checkpoints st) (<[k := r]> (runs st))
  (events_processed st) (projection_failures st).
Definition add_processed n st := MkStore (generations st) (checkpoints st) (runs st)
  (events_processed st + n) (projection_failures st).
Definition add_failure st := MkStore (generations st) (checkpoints st) (runs st)
  (events_processed st) (projection_failures st + 1).

(** ** The projection of one event *)

Definition STATUS_BY_EVENT : list (string * string) :=
  [("ExecutionAuthorized", "authorized"); ("ExecutionStarted", "running");
   ("ExecutionSucceeded", "succeeded"); ("ExecutionFailed", "failed");
   ("ExecutionCancelled", "cancelled"); ("ExecutionOutcomeUncertain", "in_doubt");
   ("ExecutionCompensated", "compensated"); ("ExecutionCompensationFailed", "compensation_failed")].

Definition value_string (v : value) : option string :=
  match v with VStr s => Some s | _ => None end.

(** [applyExecutionRun(state, event)], on an event of an execution. *)
Definition applyExecutionRun (current : option run) (event : value) : result run :=
  let type := str_of (get "event_type" event) in
  match assoc type STATUS_BY_EVENT with
  | None => Throw (UnsupportedProjectionEventError type)
  | Some status =>
      let next := MkRun (MkStream (str_of (get "aggregate_id" event))
                                  (str_of (get "aggregate_type" event)))
                        (int_of (get "stream_sequence" event))
                        (value_string (get "operation_id" event)) status type
                        (str_of (get "occurred_at" event)) (int_of (get "position" event)) in
      match current with
      | Some r =>
          if (int_of (get "stream_sequence" event) <=? run_version r)%Z then Ok r else Ok next
      | None => Ok next
      end
  end.

(** ** Statements *)

Definition getGeneration (st : pstore) (g : Z) : option generation :=
  find (λ x, gen_number x =? g)%Z (generations st).
Definition getActive (st : pstore) : option generation :=
  find (λ x, bool_decide (gen_status x = active)) (generations st).
Definition run_key (g : Z) (s : stream) : Z * (string * string) :=
  (g, (aggregate_type s, aggregate_id s)).

(** [_upsertProjectedRun]: a conflicting row is replaced when the new position is
    higher. *)
Definition upsertProjectedRun (g : Z) (r : run) (st : pstore) : result pstore :=
  _ ← throw_if (bool_decide (run_operation_id r = None))
        (SqliteError "NOT NULL constraint failed: execution_run_projection.operation_id");
  let k := run_key g (run_stream r) in
  match runs st !! k with
  | Some old => if (run_position old <? run_position r)%Z then Ok (set_run k r st) else Ok st
  | None => Ok (set_run k r st)
  end.

(** [_updateCheckpoint]: the number of rows changed. *)
Definition updateCheckpoint (g expected last : Z) (st : pstore) : pstore * Z :=
  match checkpoints st !! g with
  | Some c => if (ck_position c =? expected)%Z then (set_checkpoint g (MkCheckpoint last None) st, 1%Z)
              else (st, 0%Z)
  | None => (st, 0%Z)
  end.

Definition recordError (g : Z) (e : value) (st : pstore) : pstore :=
  match checkpoints st !! g with
  | Some c => set_checkpoint g (MkCheckpoint (ck_position c) (Some (str_of (get "message" e)))) st
  | None => st
  end.

(** [UPDATE ... SET status = to WHERE generation = g AND status = from] *)
Definition change_status (g : Z) (from to : generation_status) (x : generation) : generation :=
  if (gen_number x =? g)%Z && bool_decide (gen_status x = from)
  then MkGeneration (gen_number x) (gen_schema_version x) to (source_high_water x) else x.
Definition markGenerationFailed (g : Z) (st : pstore) : pstore :=
  set_generations (fmap (change_status g building failed)) st.

(** ** A batch *)

Section projection.
(** The registry the events are read through, and the tests' fault injector. *)
Context (locale_le : string → string → bool) (reg : registry).
Context (fault_injector : string → value → result unit).

Definition apply_event (g : Z) (st : pstore) (event : value) : result pstore :=
  _ ← fault_injector "before_event" event;
  st ← (if bool_decide (get "aggregate_type" event = VStr "execution") then
          projected ← deserialize locale_le reg event;
          let s := MkStream (str_of (get "aggregate_id" projected))
                            (str_of (get "aggregate_type" projected)) in
          next ← applyExecutionRun (runs st !! run_key g s) projected;
          upsertProjectedRun g next st
        else Ok st);
  _ ← fault_injector "after_event" event;
  Ok st.

(** [_applyBatch], the body of its transaction: a throw discards the store. *)
Definition applyBatch (g expected : Z) (events : list value) (st : pstore) : result pstore :=
  st ← fold_result (apply_event g) st events;
  let final := default VUndef (last events) in
  let lastPosition := int_of (get "position" final) in
  _ ← fault_injector "before_checkpoint" final;
  let '(st, changes) := updateCheckpoint g expected lastPosition st in
  _ ← throw_if (negb (changes =? 1)%Z)
        (ProjectionCheckpointConflictError g expected lastPosition);
  Ok st.

(** ** Reconciliation *)

Definition not_reconcilable (g : Z) : value :=
  ProjectionError ("Projection generation is not reconcilable: " +:+ pretty g)
    "EXECUTION_PROJECTION_NOT_RECONCILABLE".
Definition schema_mismatch (prefix : string) (actual : Z) : value :=
  ProjectionError_with "ProjectionError" (prefix +:+ " schema is incompatible: " +:+ pretty actual)
    "EXECUTION_PROJECTION_SCHEMA_MISMATCH"
    (VObj [("actual", VNum (NInt actual)); ("expected", VNum (NInt PROJECTION_SCHEMA_VERSION))]).
Definition missing_row : value := type_error "Cannot read properties of undefined".

(** The [for (;;)] of [reconcileGeneration]: the store it leaves and the number of
    events processed or what it throws. *)
Fixpoint reconcile_loop (fuel : nat) (db : database) (g : Z) (batch_size : value)
    (st : pstore) (processed : Z) : option (pstore * result Z) :=
  match fuel with
  | O => None
  | S fuel =>
      match checkpoints st !! g with
      | None => Some (st, Throw missing_row)
      | Some c =>
          match readGlobal db (VNum (NInt (ck_position c))) batch_size VUndef with
          | Throw e => Some (st, Throw e)
          | Ok [] => Some (st, Ok processed)
          | Ok events =>
              match applyBatch g (ck_position c) events st with
              | Throw e =>
                  if error_code e =s "EXECUTION_PROJECTION_CHECKPOINT_CONFLICT"
                  then reconcile_loop fuel db g batch_size st processed
                  else Some (st, Throw e)
              | Ok st =>
                  let n := Z.of_nat (length events) in
                  let st := add_processed n st in
                  if (n <? int_of batch_size)%Z then Some (st, Ok (processed + n)%Z)
                  else reconcile_loop fuel db g batch_size st (processed + n)
              end
          end
      end
  end.

(** The [catch] of [reconcileGeneration] and of [rebuild]. *)
Definition record_failure (g : Z) (e : value) (mark : bool) (st : pstore) : pstore :=
  let st := add_failure (recordError g e st) in
  if mark then markGenerationFailed g st else st.

Definition reconcileGeneration (fuel : nat) (db : database) (g : Z) (batch_size : value)
    (st : pstore) : option (pstore * result (Z * Z)) :=
  match getGeneration st g with
  | Some row =>
      if negb (bool_decide (gen_status row = building)) && negb (bool_decide (gen_status row = active))
      then Some (st, Throw (not_reconcilable g))
      else if negb (gen_schema_version row =? PROJECTION_SCHEMA_VERSION)%Z
      then Some (st, Throw (schema_mismatch "Projection generation" (gen_schema_version row)))
      else
        '(st, r) ← reconcile_loop fuel db g batch_size st 0;
        match r with
        | Ok processed =>
            match checkpoints st !! g with
            | Some c => Some (st, Ok (processed, ck_position c))
            | None => Some (record_failure g missing_row (bool_decide (gen_status row = building)) st,
                            Throw missing_row)
            end
        | Throw e =>
            Some (record_failure g e (bool_decide (gen_status row = building)) st, Throw e)
        end
  | None => Some (st, Throw (not_reconcilable g))
  end.
End projection.

(** ** The integrity comparison *)

Definition is_execution (r : row) : bool := aggregate_type (event_stream (columns r)) =s "execution".
Definition execution_rows (db : database) : list row := List.filter is_execution (execution_events db).
Definition execution_ids (db : database) : list string :=
  js_set ((λ r, aggregate_id (event_stream (columns r))) <$> execution_rows db).
Definition execution (id : string) : stream := MkStream id "execution".

(** The row of [execution_events] with the highest position of a stream. *)
Definition latest (db : database) (s : stream) : option row :=
  last (sort_by position_le (stream_rows db s)).

Definition mismatch (db : database) (st : pstore) (g : Z) (id : string) : bool :=
  match latest db (execution id) with
  | None => false
  | Some r =>
      match runs st !! run_key g (execution id), assoc (event_type (columns r)) STATUS_BY_EVENT with
      | None, _ | _, None => true
      | Some p, Some status =>
          negb (run_version p =? selectVersion db (execution id))%Z ||
          negb (run_position p =? position r)%Z ||
          match run_operation_id p, operation_id (columns r) with
          | Some a, Some b => negb (a =s b)
          | _, _ => false
          end ||
          negb (run_status p =s status) || negb (last_event_type p =s event_type (columns r)) ||
          negb (last_occurred_at p =s occurred_at (columns r))
      end
  end.

Record integrity := MkIntegrity { source_count : Z; projected_count : Z; mismatch_count : Z }.

Definition projected_keys (st : pstore) (g : Z) : list (Z * (string * string)) :=
  List.filter (λ k, (k.1 =? g)%Z && (k.2.1 =s "execution")) (map_to_list (runs st)).*1.

Definition integrity_of (db : database) (g : Z) (st : pstore) : integrity :=
  MkIntegrity (Z.of_nat (length (execution_ids db)))
    (Z.of_nat (length (projected_keys st g)))
    (Z.of_nat (length (List.filter (mismatch db st g) (execution_ids db)))).

Definition integrity_details (i : integrity) (g : Z) : value :=
  VObj [("source_count", VNum (NInt (source_count i)));
        ("projected_count", VNum (NInt (projected_count i)));
        ("mismatch_count", VNum (NInt (mismatch_count i))); ("generation", VNum (NInt g))].

(** ** Generations *)

(** [createGeneration()]. *)
Definition createGeneration (db : database) (st : pstore) : Z * pstore :=
  let g := (fold_right Z.max 0 (gen_number <$> generations st) + 1)%Z in
  (g, set_checkpoint g (MkCheckpoint 0 None)
        (set_generations (λ l, l ++ [MkGeneration g PROJECTION_SCHEMA_VERSION building
                                       (last_position db)]) st)).

Definition retire_others (g : Z) (x : generation) : generation :=
  if bool_decide (gen_status x = active) && negb (gen_number x =? g)%Z
  then MkGeneration (gen_number x) (gen_schema_version x) retired (source_high_water x) else x.
Definition promotes (g : Z) (x : generation) : bool :=
  (gen_number x =? g)%Z && bool_decide (gen_status x = building).
Definition promote (g high : Z) (x : generation) : generation :=
  if promotes g x then MkGeneration (gen_number x) (gen_schema_version x) active high else x.

Definition status_text (s : generation_status) : string :=
  match s with building => "building" | active => "active" | retired => "retired" | failed => "failed" end.
Definition not_activatable (g : Z) (candidate : option generation) : value :=
  ProjectionError_with "ProjectionError"
    ("Projection generation is not activatable: " +:+ pretty g)
    "EXECUTION_PROJECTION_NOT_ACTIVATABLE"
    (VObj [("generation", VNum (NInt g));
           ("status", match candidate with
                      | Some x => VStr (status_text (gen_status x)) | None => VNull end)]).
Definition activation_conflict (g changes : Z) : value :=
  ProjectionError_with "ProjectionError"
    ("Projection generation lost activation eligibility: " +:+ pretty g)
    "EXECUTION_PROJECTION_ACTIVATION_CONFLICT"
    (VObj [("generation", VNum (NInt g)); ("changes", VNum (NInt changes))]).

(** [_activate]: whether the generation was activated, the ledger's high-water mark
    and the store. *)
Definition activate (db : database) (g : Z) (st : pstore) : result (bool * Z * pstore) :=
  let candidate := getGeneration st g in
  _ ← throw_if (negb match candidate with
                     | Some x => bool_decide (gen_status x = building) | None => false end)
        (not_activatable g candidate);
  let version := default 0%Z (gen_schema_version <$> candidate) in
  _ ← throw_if (negb (version =? PROJECTION_SCHEMA_VERSION)%Z)
        (schema_mismatch "Projection generation" version);
  let ledgerHighWater := last_position db in
  match checkpoints st !! g with
  | Some c =>
      if (ck_position c =? ledgerHighWater)%Z then
        let i := integrity_of db g st in
        _ ← throw_if (negb (source_count i =? projected_count i)%Z || (0 <? mismatch_count i)%Z)
              (ProjectionIntegrityError (integrity_details i g));
        let st := set_generations (fmap (retire_others g)) st in
        let changes := Z.of_nat (length (List.filter (promotes g) (generations st))) in
        let st := set_generations (fmap (promote g ledgerHighWater)) st in
        _ ← throw_if (negb (changes =? 1)%Z) (activation_conflict g changes);
        Ok (true, ledgerHighWater, st)
      else Ok (false, ledgerHighWater, st)
  | None => Ok (false, ledgerHighWater, st)
  end.

(** ** Rebuilding *)

Section rebuilding.
Context (locale_le : string → string → bool) (reg : registry).
Context (fault_injector : string → value → result unit).

Definition catchup_exhausted : value :=
  ProjectionError "Projection rebuild could not catch the moving high-water mark"
    "EXECUTION_PROJECTION_CATCHUP_EXHAUSTED".

(** The rounds of [rebuild]; [db] is the ledger each round finds. *)
Fixpoint rebuild_rounds (rounds fuel : nat) (ledger_at : nat → database) (g : Z)
    (batch_size : value) (st : pstore) : option (pstore * result (Z * bool * Z)) :=
  match rounds with
  | O => Some (record_failure g catchup_exhausted true st, Throw catchup_exhausted)
  | S rounds =>
      let db := ledger_at rounds in
      '(st, r) ← reconcileGeneration locale_le reg fault_injector fuel db g batch_size st;
      match r with
      | Throw e => Some (st, Throw e)
      | Ok _ =>
          match activate db g st with
          | Throw e => Some (record_failure g e true st, Throw e)
          | Ok (true, high, st) => Some (st, Ok (g, true, high))
          | Ok (false, _, st) => rebuild_rounds rounds fuel ledger_at g batch_size st
          end
      end
  end.

(** [rebuild({ batch_size, max_rounds })]. *)
Definition rebuild (max_rounds fuel : nat) (ledger_at : nat → database) (batch_size : value)
    (st : pstore) : option (pstore * result (Z * bool * Z)) :=
  let '(g, st) := createGeneration (ledger_at max_rounds) st in
  rebuild_rounds max_rounds fuel ledger_at g batch_size st.

Definition not_active : value :=
  ProjectionError "No active execution projection" "EXECUTION_PROJECTION_NOT_ACTIVE".

(** [reconcileActive(options)]. *)
Definition reconcileActive (fuel : nat) (db : database) (batch_size : value) (st : pstore) :
    option (pstore * result (Z * Z)) :=
  match getActive st with
  | None => Some (st, Throw not_active)
  | Some x =>
      reconcileGeneration locale_le reg fault_injector fuel db (gen_number x) batch_size st
  end.
End rebuilding.

(** ** Reading *)

Definition newer (a b : run) : bool := (run_position b <=? run_position a)%Z.

Definition generation_runs (g : Z) (st : pstore) : list run :=
  (List.filter (λ kr : Z * (string * string) * run, (kr.1.1 =? g)%Z) (map_to_list (runs st))).*2.

(** [listRuns({ status, limit })]. *)
Definition listRuns (status limit : value) (st : pstore) : result (list run) :=
  match getActive st with
  | None => Ok []
  | Some x =>
      _ ← throw_if (negb (gen_schema_version x =? PROJECTION_SCHEMA_VERSION)%Z)
            (schema_mismatch "Active projection" (gen_schema_version x));
      _ ← throw_if (negb (is_integer limit) || (int_of limit <? 1)%Z || (1000 <? int_of limit)%Z)
            (ProjectionError "Invalid projection query limit" "INVALID_LIMIT");
      let wanted r := negb (truthy status) || (run_status r =s str_of status) in
      Ok (firstn (Z.to_nat (int_of limit))
            (sort_by newer (List.filter wanted (generation_runs (gen_number x) st))))
  end.

(** [health()]: the verdict, its reason and the figures behind it; the coverage
    ratio is given by its two terms. *)
Record health_report := MkHealth {
  healthy : bool;
  reason : string;
  lag : Z;
  report_source_count : Z;
  report_projected_count : Z;
  report_mismatch_count : Z;
}.

Definition health (db : database) (st : pstore) : health_report :=
  let ledgerHighWater := last_position db in
  let sourceCount := Z.of_nat (length (execution_ids db)) in
  match getActive st with
  | None => MkHealth false "no_active_generation" ledgerHighWater sourceCount 0 sourceCount
  | Some x =>
      let g := gen_number x in
      let c := default (MkCheckpoint 0 None) (checkpoints st !! g) in
      let i := integrity_of db g st in
      let lag := (ledgerHighWater - ck_position c)%Z in
      let covered := (sourceCount =? 0)%Z || (projected_count i =? sourceCount)%Z in
      let current := (gen_schema_version x =? PROJECTION_SCHEMA_VERSION)%Z in
      let reason := "ok" in
      let reason := if (0 <? mismatch_count i)%Z then "integrity_gap" else reason in
      let reason := if negb covered then "coverage_gap" else reason in
      let reason := if (lag <? 0)%Z then "checkpoint_ahead" else reason in
      let reason := if (0 <? lag)%Z then "projection_lag" else reason in
      let reason := if negb current then "schema_version_mismatch" else reason in
      let reason := match last_error c with
                    | Some e => if e =s "" then reason else "projection_error" | None => reason end in
      MkHealth
        (current && (lag =? 0)%Z && covered && (mismatch_count i =? 0)%Z &&
         bool_decide (last_error c = None))
        reason lag sourceCount (projected_count i) (mismatch_count i)
  end.

(** [metrics().checkpoint_position_by_projection]; the two counters of [metrics()]
    are fields of the store. *)
Definition checkpoint_position (st : pstore) : Z :=
  match getActive st with
  | Some x => match checkpoints st !! gen_number x with Some c => ck_position c | None => 0%Z end
  | None => 0%Z
  end.
