(* ===== verification/ProjectionSafety.v ===== *)
(** * A projection is the fold of the ledger up to its checkpoint

    Workers of several processes reconcile generations while the ledger grows: a
    configuration holds the ledger, the projection tables and the batches that have
    been read but not applied, and a step reads or applies a batch, appends,
    creates, activates or fails a generation.  Whatever the order, the rows of a
    generation are the latest facts of the prefix its checkpoint names, so a
    generation that has caught up always passes the integrity comparison. *)
From S2P Require Import Prelude JsValue CanonicalJson EventRegistry Time Ledger Projections.

(** ** Reading a projected event *)

Lemma deserialize_keeps le reg e e' k :
  deserialize le reg e = Ok e' → k ≠ "payload" → k ≠ "schema_version" → get k e' = get k e.
Proof.
  unfold deserialize. intros H Hp Hs. inv_ok H.
  destruct (supported a0 (get "schema_version" e)) as [s|]; [|done]. inv_ok H.
  destruct a3 as [v p]. injection H as <-.
  rewrite get_with_version, !decide_False by done. by destruct e.
Qed.

(** The row a fact is projected to. *)
Definition run_of (r : row) : run :=
  let c := columns r in
  MkRun (event_stream c) (stream_sequence c) (operation_id c)
    (default "" (assoc (event_type c) STATUS_BY_EVENT)) (event_type c) (occurred_at c) (position r).

Definition projectable (r : row) : Prop :=
  is_Some (assoc (event_type (columns r)) STATUS_BY_EVENT) ∧ is_Some (operation_id (columns r)).

(** The latest fact of an execution in a list of rows. *)
Definition latest_run (l : list row) (k : string * string) : option run :=
  run_of <$> last (List.filter (λ r, is_execution r && in_stream (MkStream k.2 k.1) r) l).

(** [rows] are projected exactly in generation [g]. *)
Definition exact (l : list row) (g : Z) (st : pstore) : Prop :=
  (∀ k, runs st !! (g, k) = latest_run l k) ∧
  ∀ r, r ∈ l → is_execution r = true → projectable r.

Lemma latest_run_snoc l r k :
  latest_run (l ++ [r]) k =
    if is_execution r && in_stream (MkStream k.2 k.1) r then Some (run_of r) else latest_run l k.
Proof.
  unfold latest_run. rewrite List.filter_app. simpl. case_if.
  - by rewrite last_snoc.
  - by rewrite app_nil_r.
Qed.

Lemma hydrate_execution r :
  bool_decide (get "aggregate_type" (hydrate r) = VStr "execution") = is_execution r.
Proof.
  unfold is_execution. simpl. destruct (aggregate_type (event_stream (columns r)) =s "execution") eqn:E;
    bool_props; [apply bool_decide_eq_true_2|apply bool_decide_eq_false_2]; congruence.
Qed.

Section events.
Context (locale_le : string → string → bool) (reg : registry).
Context (fault_injector : string → value → result unit).

(** The row of a fact that comes after those of [l]. *)
Definition after_rows (l : list row) (r : row) : Prop :=
  ∀ x, x ∈ l → (position x < position r)%Z ∧
    (event_stream (columns x) = event_stream (columns r) →
     (stream_sequence (columns x) < stream_sequence (columns r))%Z).

(** What a change of the rows of one generation leaves alone. *)
Definition only_runs_of (g : Z) (st st' : pstore) : Prop :=
  checkpoints st' = checkpoints st ∧ generations st' = generations st ∧
  ∀ g' k, g' ≠ g → runs st' !! (g', k) = runs st !! (g', k).

Lemma only_runs_refl g st : only_runs_of g st st.
Proof. done. Qed.
Lemma only_runs_trans g st st' st'' :
  only_runs_of g st st' → only_runs_of g st' st'' → only_runs_of g st st''.
Proof.
  intros (Hc & Hg & Hr) (Hc' & Hg' & Hr'). split_and!; [congruence|congruence|].
  intros g' k Hne. by rewrite Hr', Hr.
Qed.

Lemma latest_run_elem l k p :
  latest_run l k = Some p → ∃ x, x ∈ l ∧ p = run_of x ∧ event_stream (columns x) = MkStream k.2 k.1.
Proof.
  unfold latest_run. rewrite fmap_Some. intros (x & Hx & ->). exists x.
  apply last_Some in Hx as [l' Hl]. assert (x ∈ l' ++ [x]) as Hin by (apply elem_of_app; right; by left).
  rewrite <- Hl in Hin. apply list_filter_elem in Hin as [Hin Hb].
  apply andb_true_iff in Hb as [_ Hb]. unfold in_stream in Hb. bool_props. done.
Qed.

(** The projection of a fact that comes after the projected ones. *)
Lemma applyExecutionRun_later l g st r a next :
  exact l g st → after_rows l r → is_execution r = true →
  (∀ k, k ≠ "payload" → k ≠ "schema_version" → get k a = get k (hydrate r)) →
  applyExecutionRun (runs st !! run_key g (event_stream (columns r))) a = Ok next →
  next = run_of r ∧ is_Some (assoc (event_type (columns r)) STATUS_BY_EVENT).
Proof.
  intros [Hruns _] Hafter Hex Hget Ha. unfold applyExecutionRun in Ha.
  rewrite !Hget in Ha by done.
  change (get "event_type" (hydrate r)) with (VStr (event_type (columns r))) in Ha.
  change (get "aggregate_id" (hydrate r)) with (VStr (aggregate_id (event_stream (columns r)))) in Ha.
  change (get "aggregate_type" (hydrate r)) with (VStr (aggregate_type (event_stream (columns r)))) in Ha.
  change (get "stream_sequence" (hydrate r)) with (VNum (NInt (stream_sequence (columns r)))) in Ha.
  change (get "operation_id" (hydrate r)) with (opt_value (operation_id (columns r))) in Ha.
  change (get "occurred_at" (hydrate r)) with (VStr (occurred_at (columns r))) in Ha.
  change (get "position" (hydrate r)) with (VNum (NInt (position r))) in Ha.
  cbn [str_of int_of] in Ha.
  destruct (assoc (event_type (columns r)) STATUS_BY_EVENT) as [status|] eqn:Hstatus; [|done].
  split; [|done]. unfold run_key in Ha. rewrite Hruns in Ha.
  assert (Hnext : run_of r = MkRun (MkStream (aggregate_id (event_stream (columns r)))
      (aggregate_type (event_stream (columns r)))) (stream_sequence (columns r))
      (value_string (opt_value (operation_id (columns r)))) status (event_type (columns r))
      (occurred_at (columns r)) (position r)).
  { unfold run_of. rewrite Hstatus. destruct (event_stream (columns r)).
    by destruct (operation_id (columns r)). }
  rewrite <- Hnext in Ha. destruct (latest_run l _) as [p|] eqn:Hp; [|congruence].
  apply latest_run_elem in Hp as (x & Hx & -> & Hxs). simpl in Hxs.
  destruct (Hafter x Hx) as [_ Hseq]. simpl in Ha.
  rewrite (proj2 (Z.leb_gt _ _)) in Ha; [congruence|].
  apply Hseq. rewrite Hxs. by destruct (event_stream (columns r)).
Qed.

Lemma upsert_later l g st r st' :
  exact l g st → after_rows l r → upsertProjectedRun g (run_of r) st = Ok st' →
  is_Some (operation_id (columns r)) ∧
  st' = set_run (run_key g (event_stream (columns r))) (run_of r) st.
Proof.
  intros [Hruns _] Hafter Hu. unfold upsertProjectedRun in Hu. inv_ok Hu. inv_throw_if. bool_props.
  split; [by apply not_eq_None_Some|].
  change (run_stream (run_of r)) with (event_stream (columns r)) in Hu.
  destruct (runs st !! run_key g (event_stream (columns r))) as [old|] eqn:Hold; [|congruence].
  unfold run_key in Hold. rewrite Hruns in Hold. apply latest_run_elem in Hold as (x & Hx & -> & _).
  destruct (Hafter x Hx) as [Hpos _].
  rewrite (proj2 (Z.ltb_lt _ _)) in Hu by exact Hpos. congruence.
Qed.

Lemma apply_event_exact g st r st' l :
  exact l g st → after_rows l r →
  apply_event locale_le reg fault_injector g st (hydrate r) = Ok st' →
  exact (l ++ [r]) g st' ∧ only_runs_of g st st'.
Proof.
  intros Hl Hafter Ha. unfold apply_event in Ha.
  apply bind_ok in Ha as (u & _ & Ha). apply bind_ok in Ha as (st1 & Hok0 & Ha).
  apply bind_ok in Ha as (u' & _ & [= <-]). rewrite hydrate_execution in Hok0. pose proof Hl as [Hruns Hproj].
  destruct (is_execution r) eqn:Hex.
  - apply bind_ok in Hok0 as (projected & Hok2 & Hok0). cbv zeta in Hok0.
    apply bind_ok in Hok0 as (next & Hok3 & Hok0).
    pose proof (λ k, deserialize_keeps locale_le reg (hydrate r) projected k Hok2) as Hget.
    rewrite !Hget in Hok3 by done.
    change (get "aggregate_id" (hydrate r)) with (VStr (aggregate_id (event_stream (columns r)))) in Hok3.
    change (get "aggregate_type" (hydrate r)) with (VStr (aggregate_type (event_stream (columns r)))) in Hok3.
    cbn [str_of] in Hok3.
    replace (MkStream _ _) with (event_stream (columns r)) in Hok3 by by destruct (event_stream (columns r)).
    destruct (applyExecutionRun_later l g st r projected _ Hl Hafter Hex Hget Hok3) as [-> Hst].
    destruct (upsert_later l g st r st1 Hl Hafter Hok0) as [Hop ->].
    split; [split|].
    + intros k. rewrite latest_run_snoc, Hex. simpl. unfold run_key, in_stream.
      destruct (event_stream (columns r)) as [id ty] eqn:Hs. destruct k as [t i]. simpl.
      case_bool_decide as Hk.
      * simplify_eq. by rewrite lookup_insert_eq.
      * rewrite lookup_insert_ne by congruence. apply Hruns.
    + intros x [Hx| ->%list_elem_of_singleton]%elem_of_app; [by apply Hproj|done].
    + split_and!; [done..|]. intros g' k Hne. simpl. by rewrite lookup_insert_ne by (unfold run_key; congruence).
  - injection Hok0 as <-. split; [split|done].
    + intros k. rewrite latest_run_snoc, Hex. apply Hruns.
    + intros x [Hx| ->%list_elem_of_singleton]%elem_of_app; [by apply Hproj|congruence].
Qed.

(** ** A batch of consecutive facts *)

Lemma numbers_split (f : row → Z) a y b k n :
  f <$> (a ++ y :: b) = numbers k n →
  f y = (k + Z.of_nat (length a))%Z ∧ ∀ x, x ∈ a → (f x < f y)%Z.
Proof.
  intros H. assert (Hn : n = length a + S (length b)).
  { rewrite <- (length_numbers k n), <- H, length_fmap, length_app. done. }
  rewrite Hn, numbers_app, fmap_app in H.
  apply app_inj_1 in H as [Ha Hy]; [|by rewrite length_fmap, length_numbers].
  rewrite fmap_cons in Hy. cbn [numbers] in Hy. injection Hy as Hy _. split; [lia|].
  intros x Hx. assert (Hin : f x ∈ f <$> a) by by apply list_elem_of_fmap_2.
  rewrite Ha, elem_of_numbers in Hin. lia.
Qed.

Lemma after_rows_split db l r l' :
  wf_db db → execution_events db = l ++ r :: l' → after_rows l r.
Proof.
  intros Hwf He x Hx. split.
  - pose proof (wf_positions db Hwf) as Hp. rewrite He in Hp.
    by apply (numbers_split position) in Hp as [_ Hp]; apply Hp.
  - intros Hs. pose proof (wf_streams db Hwf (event_stream (columns r))) as Hq.
    unfold stream_rows in Hq. rewrite He, List.filter_app in Hq. simpl in Hq.
    unfold in_stream in Hq at 2. rewrite bool_decide_eq_true_2 in Hq by done.
    apply (numbers_split row_sequence) in Hq as [_ Hq]. apply Hq, list_filter_elem.
    split; [done|]. by apply bool_decide_eq_true_2.
Qed.

Lemma apply_events_exact db g rows l l' st st' :
  wf_db db → execution_events db = l ++ rows ++ l' → exact l g st →
  fold_result (apply_event locale_le reg fault_injector g) st (hydrate <$> rows) = Ok st' →
  exact (l ++ rows) g st' ∧ only_runs_of g st st'.
Proof.
  intros Hwf. revert l st. induction rows as [|r rows IH]; intros l st He Hl Hf.
  - injection Hf as <-. by rewrite app_nil_r.
  - rewrite fmap_cons in Hf. cbn [fold_result] in Hf. apply bind_ok in Hf as (st1 & H1 & Hf).
    destruct (apply_event_exact g st r st1 l Hl (after_rows_split db l r (rows ++ l') Hwf He) H1)
      as [Hl1 Ho1].
    destruct (IH (l ++ [r]) st1) as [Hl2 Ho2]; [by rewrite <- app_assoc|done|done|].
    rewrite <- app_assoc in Hl2. split; [done|]. by eapply only_runs_trans.
Qed.

Lemma updateCheckpoint_ok g expected final st st' :
  updateCheckpoint g expected final st = (st', 1%Z) →
  ∃ c, checkpoints st !! g = Some c ∧ ck_position c = expected ∧
    st' = set_checkpoint g (MkCheckpoint final None) st.
Proof.
  unfold updateCheckpoint. destruct (checkpoints st !! g) as [c|]; [|done].
  case_if; [|done]. bool_props. intros [= <-]. by exists c.
Qed.

(** A batch read at some time and applied later commits only if the checkpoint is
    still where it was read. *)
Lemma applyBatch_exact db g c rows r l l' st st' :
  wf_db db → execution_events db = l ++ (rows ++ [r]) ++ l' → c = Z.of_nat (length l) →
  exact l g st → applyBatch locale_le reg fault_injector g c (hydrate <$> (rows ++ [r])) st = Ok st' →
  (∃ ck, checkpoints st !! g = Some ck ∧ ck_position ck = c) ∧
  exact (l ++ rows ++ [r]) g st' ∧
  checkpoints st' = <[g := MkCheckpoint (c + Z.of_nat (length (rows ++ [r]))) None]> (checkpoints st) ∧
  generations st' = generations st ∧
  ∀ g' k, g' ≠ g → runs st' !! (g', k) = runs st !! (g', k).
Proof.
  intros Hwf He Hc Hl Hb. unfold applyBatch in Hb. apply bind_ok in Hb as (st1 & Hf & Hb).
  destruct (apply_events_exact db g (rows ++ [r]) l l' st st1 Hwf He Hl Hf) as [Hl1 (Hck & Hgen & Hrun)].
  assert (Hlast : last (hydrate <$> (rows ++ [r])) = Some (hydrate r)) by by rewrite fmap_last, last_snoc.
  rewrite Hlast in Hb. cbv zeta in Hb. apply bind_ok in Hb as (u & _ & Hb).
  change (get "position" (default VUndef (Some (hydrate r)))) with (VNum (NInt (position r))) in Hb.
  cbn [int_of] in Hb.
  destruct (updateCheckpoint g c (position r) st1) as [st2 n] eqn:Hu.
  apply bind_ok in Hb as (u' & Hn & [= <-]). apply throw_if_ok, negb_false_iff, Z.eqb_eq in Hn as ->.
  apply updateCheckpoint_ok in Hu as (ck & Hg & Hpos & ->). rewrite Hck in Hg.
  pose proof (wf_positions db Hwf) as Hp. rewrite He, <- app_assoc in Hp.
  rewrite app_assoc in Hp. apply (numbers_split position) in Hp as [Hp _].
  split; [by exists ck|]. split; [done|]. split_and!; [|done|done].
  simpl. rewrite Hck, Hp, !length_app. do 2 f_equal. simpl. lia.
Qed.
End events.

(** ** The integrity comparison of an exact projection *)

Lemma latest_run_execution l t i p : latest_run l (t, i) = Some p → t = "execution".
Proof.
  unfold latest_run. rewrite fmap_Some. intros (x & Hx & _).
  apply last_Some in Hx as [l' Hl]. assert (x ∈ l' ++ [x]) as Hin by (apply elem_of_app; right; by left).
  rewrite <- Hl in Hin. apply list_filter_elem in Hin as [_ Hb].
  apply andb_true_iff in Hb as [He Hs]. unfold is_execution, in_stream in *. bool_props.
  rewrite Hs in He. done.
Qed.

Lemma latest_run_stream db id :
  latest_run (execution_events db) ("execution", id) = run_of <$> last (stream_rows db (execution id)).
Proof.
  unfold latest_run, stream_rows. do 2 f_equal. apply filter_ext_elem. intros r _. simpl.
  unfold is_execution, in_stream, execution. case_bool_decide as H; [|by rewrite andb_false_r].
  by rewrite H.
Qed.

Lemma latest_wf db s : wf_db db → latest db s = last (stream_rows db s).
Proof.
  intros H. unfold latest. f_equal. apply sort_by_sorted_id. by apply sorted_filter, events_sorted.
Qed.

Lemma selectVersion_last db s r :
  wf_db db → last (stream_rows db s) = Some r → selectVersion db s = stream_sequence (columns r).
Proof.
  intros H Hr. rewrite selectVersion_wf by done. pose proof (wf_streams db H s) as Hq.
  apply last_Some in Hr as [l Hl]. rewrite Hl in Hq at 1.
  apply (numbers_split row_sequence) in Hq as [Hq _]. rewrite Hl, length_app. simpl.
  unfold row_sequence in Hq. lia.
Qed.

Lemma elem_of_execution_ids db id :
  id ∈ execution_ids db ↔ ∃ r, r ∈ stream_rows db (execution id).
Proof.
  unfold execution_ids. rewrite elem_of_js_set, list_elem_of_fmap. split.
  - intros (r & -> & [Hr He]%list_filter_elem). exists r. apply list_filter_elem. split; [done|].
    unfold is_execution, in_stream, execution in *. bool_props. apply bool_decide_eq_true.
    destruct (event_stream (columns r)). by simplify_eq/=.
  - intros (r & [Hr Hs]%list_filter_elem). exists r. unfold in_stream in Hs. bool_props.
    rewrite Hs. split; [done|]. apply list_filter_elem. split; [done|]. unfold is_execution. by rewrite Hs.
Qed.

Lemma exact_no_mismatch db g st id :
  wf_db db → exact (execution_events db) g st → mismatch db st g id = false.
Proof.
  intros Hwf [Hruns Hproj]. unfold mismatch. rewrite latest_wf by done.
  destruct (last (stream_rows db (execution id))) as [r|] eqn:Hr; [|done].
  unfold run_key, execution at 1 2. cbn [aggregate_type aggregate_id].
  rewrite Hruns, latest_run_stream, Hr. unfold run_of. cbn [fmap option_fmap option_map].
  pose proof (selectVersion_last db _ r Hwf Hr) as Hv.
  apply last_Some in Hr as [l Hl]. assert (r ∈ stream_rows db (execution id)) as Hin
    by (rewrite Hl; apply elem_of_app; right; by left).
  apply list_filter_elem in Hin as [Hin Hs]. unfold in_stream in Hs. bool_props.
  destruct (Hproj r Hin) as [[status Hst] [op Hop]]; [unfold is_execution; by rewrite Hs|].
  rewrite Hst, Hv, Hop. simpl. by rewrite !Z.eqb_refl, !String.eqb_refl.
Qed.

Lemma exact_counts db g st :
  wf_db db → exact (execution_events db) g st →
  length (execution_ids db) = length (projected_keys st g).
Proof.
  intros Hwf [Hruns _].
  assert (Hk : ∀ k, k ∈ projected_keys st g ↔ ∃ id, k = (g, ("execution", id)) ∧ id ∈ execution_ids db).
  { intros [g' [t id]]. unfold projected_keys. rewrite list_filter_elem, list_elem_of_fmap. split.
    - intros [[[k p] [Hk Hp%elem_of_map_to_list]] Hb]. simpl in Hk, Hb. subst k. bool_props. subst.
      exists id. split; [done|]. rewrite Hruns, latest_run_stream, fmap_Some in Hp.
      destruct Hp as (r & Hr & _). apply elem_of_execution_ids. exists r.
      apply last_Some in Hr as [l ->]. apply elem_of_app. right. by left.
    - intros (id' & [= -> -> ->] & Hid). split; [|simpl; by rewrite Z.eqb_refl].
      apply elem_of_execution_ids in Hid as [r Hr].
      destruct (last (stream_rows db (execution id'))) as [r'|] eqn:Hl.
      + exists ((g, ("execution", id')), run_of r'). split; [done|].
        apply elem_of_map_to_list. by rewrite Hruns, latest_run_stream, Hl.
      + apply last_None in Hl. rewrite Hl in Hr. by apply not_elem_of_nil in Hr. }
  assert (Hp : (λ id, (g, ("execution", id))) <$> execution_ids db ≡ₚ projected_keys st g).
  { apply NoDup_Permutation.
    - apply NoDup_fmap_2; [by intros ?? [= ]|]. apply NoDup_js_set.
    - apply NoDup_list_filter, NoDup_fst_map_to_list.
    - intros k. rewrite Hk, list_elem_of_fmap. done. }
  rewrite <- Hp. by rewrite length_fmap.
Qed.

(** An exact projection of the whole ledger passes. *)
Lemma exact_integrity db g st :
  wf_db db → exact (execution_events db) g st →
  source_count (integrity_of db g st) = projected_count (integrity_of db g st) ∧
  mismatch_count (integrity_of db g st) = 0%Z.
Proof.
  intros Hwf Hex. unfold integrity_of; simpl. rewrite (exact_counts db g st) by done. split; [done|].
  enough (List.filter (mismatch db st g) (execution_ids db) = []) as -> by done.
  induction (execution_ids db) as [|id l IH]; [done|]. simpl. by rewrite (exact_no_mismatch db g st).
Qed.
