(* ===== verification/ProjectionSteps.v ===== *)
(** * Projections of a growing ledger

    Workers of several processes reconcile generations while the ledger grows.  A
    configuration holds the ledger, the projection tables and the batches that have
    been read but not yet applied; a step appends, reads a batch, applies one or
    loses it to an error, or creates or activates a generation.  Whatever the order,
    the rows of a generation are the latest facts of the prefix its checkpoint
    names, and a generation that has caught up passes the integrity comparison. *)
From S2P Require Import Prelude JsValue CanonicalJson EventRegistry Time Ledger Projections ProjectionSafety.

(** ** Steps *)

(** A batch read by a worker: the generation, the checkpoint it was read at and the
    events. *)
Record batch := MkBatch { batch_generation : Z; batch_expected : Z; batch_events : list value }.

Record pconfig := MkPConfig { source : ledger; tables : pstore; pending : list batch }.

Section steps.
Context (locale_le : string → string → bool) (reg : registry).
Context (fault_injector : string → value → result unit).

Inductive pstep : pconfig → pconfig → Prop :=
  | step_append now l st bs request :
      pstep (MkPConfig l st bs) (MkPConfig (append reg now l request).2 st bs)
  | step_read l st bs g c batch_size events :
      checkpoints st !! g = Some c →
      readGlobal (db l) (VNum (NInt (ck_position c))) batch_size VUndef = Ok events →
      events ≠ [] →
      pstep (MkPConfig l st bs) (MkPConfig l st (MkBatch g (ck_position c) events :: bs))
  | step_apply l st bs b st' :
      applyBatch locale_le reg fault_injector (batch_generation b) (batch_expected b)
        (batch_events b) st = Ok st' →
      pstep (MkPConfig l st (b :: bs))
        (MkPConfig l (add_processed (Z.of_nat (length (batch_events b))) st') bs)
  | step_swap l st bs bs' :
      bs ≡ₚ bs' → pstep (MkPConfig l st bs) (MkPConfig l st bs')
  | step_conflict l st bs b e :
      applyBatch locale_le reg fault_injector (batch_generation b) (batch_expected b)
        (batch_events b) st = Throw e →
      error_code e = "EXECUTION_PROJECTION_CHECKPOINT_CONFLICT" →
      pstep (MkPConfig l st (b :: bs)) (MkPConfig l st bs)
  | step_failure l st bs bs' g e mark :
      bs' ⊆+ bs → pstep (MkPConfig l st bs) (MkPConfig l (record_failure g e mark st) bs')
  | step_create l st bs :
      pstep (MkPConfig l st bs) (MkPConfig l (createGeneration (db l) st).2 bs)
  | step_activate l st bs g activated high st' :
      activate (db l) g st = Ok (activated, high, st') →
      pstep (MkPConfig l st bs) (MkPConfig l st' bs).

Definition empty_store : pstore := MkStore [] ∅ ∅ 0 0.

Inductive preachable : pconfig → Prop :=
  | preach_start l : wf_db (db l) → preachable (MkPConfig l empty_store [])
  | preach_step a b : preachable a → pstep a b → preachable b.

(** ** The invariant *)

Definition pending_ok (rows : list row) (b : batch) : Prop :=
  ∃ l r rs l', rows = l ++ (rs ++ [r]) ++ l' ∧ batch_expected b = Z.of_nat (length l) ∧
    batch_events b = hydrate <$> (rs ++ [r]).

(** The state of generation [g] is the fold of the prefix its checkpoint names. *)
Definition projected_prefix (rows : list row) (st : pstore) (g : Z) (c : checkpoint) : Prop :=
  ∃ l l', rows = l ++ l' ∧ ck_position c = Z.of_nat (length l) ∧ exact l g st.

Record pinv (x : pconfig) : Prop := {
  pinv_wf : wf_db (db (source x));
  pinv_exact g c : checkpoints (tables x) !! g = Some c →
    projected_prefix (execution_events (db (source x))) (tables x) g c;
  pinv_fresh g k : checkpoints (tables x) !! g = None → runs (tables x) !! (g, k) = None;
  pinv_known g : is_Some (checkpoints (tables x) !! g) ↔
    g ∈ gen_number <$> generations (tables x);
  pinv_unique : NoDup (gen_number <$> generations (tables x));
  pinv_active a b : a ∈ generations (tables x) → b ∈ generations (tables x) →
    gen_status a = active → gen_status b = active → gen_number a = gen_number b;
  pinv_pending : Forall (pending_ok (execution_events (db (source x)))) (pending x);
}.

Lemma exact_runs l g st st' :
  (∀ k, runs st' !! (g, k) = runs st !! (g, k)) → exact l g st → exact l g st'.
Proof. intros H [Hr Hp]. split; [|done]. intros k. by rewrite H. Qed.

Lemma exact_nil g st : (∀ k, runs st !! (g, k) = None) → exact [] g st.
Proof. intros H. split; [done|]. by intros r ?%not_elem_of_nil. Qed.

(** The ledger only grows, so what was a prefix or a segment of it stays one. *)
Lemma projected_prefix_extends rows tail st g c :
  projected_prefix rows st g c → projected_prefix (rows ++ tail) st g c.
Proof. intros (l & l' & -> & Hc & He). exists l, (l' ++ tail). by rewrite app_assoc. Qed.

Lemma pending_ok_extends rows tail b : pending_ok rows b → pending_ok (rows ++ tail) b.
Proof.
  intros (l & r & rs & l' & -> & Hc & He). exists l, r, rs, (l' ++ tail). by rewrite <- !app_assoc.
Qed.

Lemma filter_after_drop rows k n :
  position <$> rows = numbers (k + 1) (length rows) →
  List.filter (λ r, (k + Z.of_nat n <? position r)%Z) rows = drop n rows.
Proof.
  revert k n. induction rows as [|r rows IH]; intros k n H; [by destruct n|].
  rewrite fmap_cons in H. cbn [length numbers] in H. injection H as Hr H. cbn [List.filter].
  destruct n as [|n].
  - rewrite Hr, (proj2 (Z.ltb_lt _ _)) by lia. simpl drop. f_equal.
    trans (List.filter (λ r, (k + 1 + Z.of_nat 0 <? position r)%Z) rows); [|by rewrite (IH (k + 1)%Z)].
    apply filter_ext_elem.
    intros x Hx. assert (Hin : position x ∈ position <$> rows) by by apply list_elem_of_fmap_2.
    rewrite H, elem_of_numbers in Hin.
    rewrite !(proj2 (Z.ltb_lt _ _)) by lia. done.
  - rewrite Hr, (proj2 (Z.ltb_ge _ _)) by lia. simpl drop.
    rewrite <- (IH (k + 1)%Z n H). apply filter_ext_elem. intros x _. f_equal. lia.
Qed.

Lemma readGlobal_batch ldb n limit events :
  wf_db ldb → readGlobal ldb (VNum (NInt (Z.of_nat n))) limit VUndef = Ok events →
  (1 ≤ int_of limit)%Z ∧
  events = hydrate <$> take (Z.to_nat (int_of limit)) (drop n (execution_events ldb)).
Proof.
  intros Hwf H. unfold readGlobal in H. apply bind_ok in H as (u & Hv & H).
  cbn [is_undefined] in H. apply bind_ok in H as (u' & _ & [= <-]).
  apply throw_if_ok, negb_false_iff in Hv. unfold valid_cursor, positive in Hv. bool_props.
  split; [lia|]. f_equal. rewrite select_after_filter by done. f_equal.
  pose proof (filter_after_drop (execution_events ldb) 0 n (wf_positions _ Hwf)) as <-.
  apply filter_ext_elem. intros r _. by rewrite andb_true_r.
Qed.

(** ** Preservation *)

Definition actives_agree (l : list generation) : Prop :=
  ∀ a b, a ∈ l → b ∈ l → gen_status a = active → gen_status b = active → gen_number a = gen_number b.

Lemma pinv_tables l st bs st' :
  pinv (MkPConfig l st bs) → runs st' = runs st →
  (∀ g, ck_position <$> checkpoints st' !! g = ck_position <$> checkpoints st !! g) →
  gen_number <$> generations st' = gen_number <$> generations st →
  actives_agree (generations st') → pinv (MkPConfig l st' bs).
Proof.
  intros [Hwf Hex Hfresh Hknown Huniq _ Hpend] Hr Hc Hg Ha; simpl in *.
  split; simpl; [done| | | |by rewrite Hg|done|done].
  - intros g c H. pose proof (Hc g) as Hcg. rewrite H in Hcg. simpl in Hcg. symmetry in Hcg.
    apply fmap_Some in Hcg as (c0 & H0 & Hp). destruct (Hex g c0 H0) as (a & b & -> & Hl & He).
    exists a, b. rewrite Hp. split_and!; [done..|]. revert He. apply exact_runs. by rewrite Hr.
  - intros g k H. rewrite Hr. apply Hfresh. pose proof (Hc g) as Hcg. rewrite H in Hcg.
    by destruct (checkpoints st !! g).
  - intros g. rewrite Hg, <- Hknown. specialize (Hc g).
    rewrite <- !(fmap_is_Some ck_position), Hc. done.
Qed.

Lemma record_failure_tables g e mark st :
  let st' := record_failure g e mark st in
  runs st' = runs st ∧
  (∀ g, ck_position <$> checkpoints st' !! g = ck_position <$> checkpoints st !! g) ∧
  gen_number <$> generations st' = gen_number <$> generations st ∧
  ∀ x, x ∈ generations st' → gen_status x = active → x ∈ generations st.
Proof.
  assert (Hck : ∀ h, ck_position <$> checkpoints (recordError g e st) !! h =
                     ck_position <$> checkpoints st !! h).
  { intros h. unfold recordError. destruct (checkpoints st !! g) as [c|] eqn:Hc; [|done]. simpl.
    destruct (decide (h = g)) as [->|]; [by rewrite lookup_insert_eq, Hc|by rewrite lookup_insert_ne]. }
  assert (Hrest : runs (recordError g e st) = runs st ∧
                  generations (recordError g e st) = generations st).
  { unfold recordError. by destruct (checkpoints st !! g). }
  destruct Hrest as [Hr Hg]. unfold record_failure. destruct mark; simpl; rewrite Hr, Hg;
    split_and!; try done.
  - rewrite <- list_fmap_compose. apply list_fmap_ext. intros _ x _. simpl.
    unfold change_status. by case_if.
  - intros x (y & -> & Hy)%list_elem_of_fmap. unfold change_status. by case_if.
Qed.

Lemma activate_tables ldb g st activated high st' :
  NoDup (gen_number <$> generations st) → actives_agree (generations st) →
  activate ldb g st = Ok (activated, high, st') →
  runs st' = runs st ∧ checkpoints st' = checkpoints st ∧
  gen_number <$> generations st' = gen_number <$> generations st ∧
  actives_agree (generations st').
Proof.
  intros Huniq Hact H. unfold activate in H. apply bind_ok in H as (u & _ & H).
  cbv zeta in H. apply bind_ok in H as (u' & _ & H).
  destruct (checkpoints st !! g) as [c|] eqn:Hc; [|by injection H as _ _ <-].
  case_if_in H; [|by injection H as _ _ <-]. apply bind_ok in H as (u'' & _ & H).
  apply bind_ok in H as (u''' & _ & H). injection H as _ _ <-. cbn [set_generations generations runs checkpoints].
  split_and!; [done|done| |].
  - rewrite <- !list_fmap_compose. apply list_fmap_ext. intros _ x _. simpl.
    unfold promote, retire_others. by repeat (case_if; simpl).
  - assert (Hg : ∀ x, x ∈ promote g (last_position ldb) <$> (retire_others g <$> generations st) →
      gen_status x = active → gen_number x = g).
    { intros x (y & -> & (z & -> & _)%list_elem_of_fmap)%list_elem_of_fmap.
      unfold promote, promotes. case_if.
      - bool_props. done.
      - unfold retire_others. case_if; [done|]. intros Hz.
        match goal with H : bool_decide _ && _ = false |- _ =>
          rewrite bool_decide_eq_true_2 in H by done; cbn [andb] in H end. by bool_props. }
    intros a b Ha Hb Hsa Hsb. by rewrite (Hg a), (Hg b).
Qed.

Lemma apply_event_only g st event st' :
  apply_event locale_le reg fault_injector g st event = Ok st' → only_runs_of g st st'.
Proof.
  intros H. unfold apply_event in H. apply bind_ok in H as (u & _ & H).
  apply bind_ok in H as (st1 & H1 & H). apply bind_ok in H as (u' & _ & [= <-]).
  case_if_in H1; [|injection H1 as <-; apply only_runs_refl].
  apply bind_ok in H1 as (e & _ & H1). cbv zeta in H1. apply bind_ok in H1 as (next & _ & H1).
  unfold upsertProjectedRun in H1. apply bind_ok in H1 as (u'' & _ & H1).
  assert (Hset : only_runs_of g st (set_run (run_key g (run_stream next)) next st)).
  { split_and!; [done..|]. intros g' k Hne. simpl.
    by rewrite lookup_insert_ne by (unfold run_key; congruence). }
  destruct (runs st !! _) as [old|]; [case_if_in H1|]; injection H1 as <-; done.
Qed.

Lemma applyBatch_expected g c events st st' :
  applyBatch locale_le reg fault_injector g c events st = Ok st' →
  ∃ ck, checkpoints st !! g = Some ck ∧ ck_position ck = c.
Proof.
  intros H. unfold applyBatch in H. apply bind_ok in H as (st1 & Hf & H).
  assert (Hck : checkpoints st1 = checkpoints st).
  { clear H. revert st Hf. induction events as [|e events IH]; intros st Hf; [by injection Hf as <-|].
    cbn [fold_result] in Hf. apply bind_ok in Hf as (st2 & H2 & Hf).
    rewrite (IH _ Hf). by apply apply_event_only in H2 as [-> _]. }
  cbv zeta in H. apply bind_ok in H as (u & _ & H).
  destruct (updateCheckpoint g c _ st1) as [st2 n] eqn:Hu.
  apply bind_ok in H as (u' & Hn & _). apply throw_if_ok, negb_false_iff, Z.eqb_eq in Hn as ->.
  apply updateCheckpoint_ok in Hu as (ck & Hg & Hpos & _). exists ck. by rewrite <- Hck.
Qed.

Lemma prefix_length {A} (l l' m m' : list A) :
  l ++ l' = m ++ m' → length l = length m → l = m.
Proof. intros H Hl. by apply app_inj_1 in H as [-> _]. Qed.

Lemma pinv_apply l st b bs st' :
  pinv (MkPConfig l st (b :: bs)) →
  applyBatch locale_le reg fault_injector (batch_generation b) (batch_expected b)
    (batch_events b) st = Ok st' →
  pinv (MkPConfig l (add_processed (Z.of_nat (length (batch_events b))) st') bs).
Proof.
  intros [Hwf Hex Hfresh Hknown Huniq Hact Hpend]; simpl in *. intros Hb.
  apply Forall_cons in Hpend as [(p & r & rs & p' & Hrows & Hexp & Hev) Hpend].
  destruct b as [g c events]; simpl in *. subst events.
  destruct (applyBatch_expected _ _ _ _ _ Hb) as (ck & Hg & Hck).
  destruct (Hex g ck Hg) as (q & q' & Hq & Hlen & He).
  assert (q = p) as -> by (apply (prefix_length q q' p ((rs ++ [r]) ++ p')); [by rewrite <- Hq|lia]).
  destruct (applyBatch_exact locale_le reg fault_injector (db l) g c rs r p p' st st') as
    (_ & He' & Hcks & Hgens & Hruns); [done..|].
  split; simpl; [done| | | |by rewrite Hgens|by rewrite Hgens|done].
  - intros h d. rewrite Hcks. destruct (decide (h = g)) as [->|Hne].
    + rewrite lookup_insert_eq. intros [= <-]. exists (p ++ rs ++ [r]), p'.
      split_and!; [by rewrite <- app_assoc|simpl; rewrite !length_app in *; lia|].
      revert He'. by apply exact_runs.
    + rewrite lookup_insert_ne by done. intros Hd. destruct (Hex h d Hd) as (a & a' & ? & ? & Ha).
      exists a, a'. split_and!; [done..|]. revert Ha. apply exact_runs. intros k. by apply Hruns.
  - intros h k. rewrite Hcks. destruct (decide (h = g)) as [->|Hne]; [by rewrite lookup_insert_eq|].
    rewrite lookup_insert_ne by done. rewrite Hruns by done. apply Hfresh.
  - intros h. rewrite Hcks, Hgens, <- Hknown. destruct (decide (h = g)) as [->|Hne].
    + rewrite lookup_insert_eq, Hg. by split.
    + by rewrite lookup_insert_ne.
Qed.

Lemma max_above (l : list Z) x : x ∈ l → (x ≤ fold_right Z.max 0 l)%Z.
Proof. induction 1; simpl; lia. Qed.

Lemma pinv_create l st bs :
  pinv (MkPConfig l st bs) → pinv (MkPConfig l (createGeneration (db l) st).2 bs).
Proof.
  intros [Hwf Hex Hfresh Hknown Huniq Hact Hpend]; simpl in *. unfold createGeneration. cbn [snd].
  set (g := (fold_right Z.max 0 (gen_number <$> generations st) + 1)%Z).
  assert (Hg : g ∉ gen_number <$> generations st).
  { intros Hin%max_above. unfold g in Hin. lia. }
  assert (Hnone : checkpoints st !! g = None).
  { apply eq_None_not_Some. by rewrite Hknown. }
  split; simpl; [done| | | | | |done].
  - intros h c. destruct (decide (h = g)) as [->|Hne].
    + rewrite lookup_insert_eq. intros [= <-]. exists [], (execution_events (db l)).
      split_and!; [done..|]. apply exact_nil. simpl. intros k. by apply Hfresh.
    + rewrite lookup_insert_ne by done. apply Hex.
  - intros h k. destruct (decide (h = g)) as [->|Hne]; [by rewrite lookup_insert_eq|].
    rewrite lookup_insert_ne by done. apply Hfresh.
  - intros h. rewrite fmap_app, elem_of_app, <- Hknown. simpl. rewrite list_elem_of_singleton.
    destruct (decide (h = g)) as [->|Hne].
    + rewrite lookup_insert_eq. by split; [right|].
    + rewrite lookup_insert_ne by done. naive_solver.
  - rewrite fmap_app. apply NoDup_app. split_and!; [done| |apply NoDup_singleton].
    simpl. intros x Hx ->%list_elem_of_singleton. done.
  - intros a b Ha Hb Hsa Hsb. apply elem_of_app in Ha as [Ha| ->%list_elem_of_singleton]; [|done].
    apply elem_of_app in Hb as [Hb| ->%list_elem_of_singleton]; [|done]. by apply Hact.
Qed.

Lemma pending_ok_read ldb n limit g c events :
  wf_db ldb → c = Z.of_nat n → n ≤ length (execution_events ldb) →
  readGlobal ldb (VNum (NInt c)) limit VUndef = Ok events → events ≠ [] →
  pending_ok (execution_events ldb) (MkBatch g c events).
Proof.
  intros Hwf -> Hn Hr Hne. apply readGlobal_batch in Hr as [_ ->]; [|done].
  set (k := Z.to_nat (int_of limit)) in *.
  destruct (take k (drop n (execution_events ldb))) as [|r rs _] eqn:Ht using rev_ind; [done|].
  exists (take n (execution_events ldb)), r, rs, (drop k (drop n (execution_events ldb))).
  split_and!; simpl.
  - rewrite <- Ht, !take_drop. done.
  - rewrite length_take. lia.
  - done.
Qed.

Lemma pstep_inv x y : pinv x → pstep x y → pinv y.
Proof.
  intros Hx Hstep. destruct Hstep as [now l st bs request|l st bs g c limit events Hc Hr Hne|
    l st bs b st' Hb|l st bs bs' Hp|l st bs b e He Hcode|l st bs bs' g e mark Hsub|l st bs|
    l st bs g activated high st' Ha].
  - destruct Hx as [Hwf Hex Hfresh Hknown Huniq Hact Hpend]; simpl in *.
    destruct (append_grows reg now l request Hwf) as [Hwf' [tail Ht]].
    split; simpl; try done; rewrite Ht.
    + intros g c Hg. by apply projected_prefix_extends, Hex.
    + eapply Forall_impl; [done|]. intros b. apply pending_ok_extends.
  - pose proof Hx as [Hwf Hex _ _ _ _ Hpend]; simpl in *.
    destruct (Hex g c Hc) as (p & p' & Hp & Hlen & _).
    destruct Hx; split; simpl in *; try done. constructor; [|done].
    eapply (pending_ok_read _ (length p)); try done. by rewrite Hp, length_app; lia.
  - by apply (pinv_apply l st).
  - destruct Hx; split; simpl in *; try done. by rewrite <- Hp.
  - destruct Hx as [? ? ? ? ? ? Hpend]; split; simpl in *; try done. by apply Forall_cons in Hpend as [_ ?].
  - destruct (record_failure_tables g e mark st) as (Hr & Hc & Hg & Ha).
    assert (Hpend : Forall (pending_ok (execution_events (db l))) bs').
    { apply Forall_forall. intros b Hb. eapply elem_of_submseteq in Hb; [|exact Hsub]. revert b Hb.
      apply Forall_forall, (pinv_pending _ Hx). }
    assert (Hinv : pinv (MkPConfig l (record_failure g e mark st) bs)).
    { apply (pinv_tables l st); try done. intros a b Hina Hinb Hsa Hsb.
      apply (pinv_active _ Hx); auto. }
    by destruct Hinv; split.
  - by apply pinv_create.
  - destruct (activate_tables (db l) g st activated high st') as (Hr & Hc & Hg & Hact);
      [apply (pinv_unique _ Hx)|exact (pinv_active _ Hx)|done|].
    apply (pinv_tables l st); try done. by rewrite Hc.
Qed.

Lemma preachable_inv x : preachable x → pinv x.
Proof.
  induction 1 as [l Hwf|x y _ IH Hstep]; [|by eapply pstep_inv].
  split; simpl; try done.
  - intros g. split; [by intros [? ?%lookup_empty_Some]|by intros ?%not_elem_of_nil].
  - constructor.
  - by intros ?? ?%not_elem_of_nil.
Qed.

(** ** What a reader of a generation sees *)

(** C23: in every reachable configuration, whatever interleaving of appends, batch
    reads, stale or fresh commits, failures, creations and activations led there, the
    rows of every generation are exactly the latest fact of each execution in the
    prefix of the ledger its checkpoint counts, batch conflicts lose nothing and
    apply nothing twice, and at most one generation is active. *)
Theorem projection_exact x g c :
  preachable x → checkpoints (tables x) !! g = Some c →
  (0 ≤ ck_position c ≤ last_position (db (source x)))%Z ∧
  (∀ type id, runs (tables x) !! (g, (type, id)) =
     latest_run (take (Z.to_nat (ck_position c)) (execution_events (db (source x)))) (type, id)) ∧
  ∀ a b, a ∈ generations (tables x) → b ∈ generations (tables x) →
    gen_status a = active → gen_status b = active → a = b.
Proof.
  intros Hx Hc. apply preachable_inv in Hx.
  destruct (pinv_exact x Hx g c Hc) as (l & l' & Hl & -> & He & _).
  rewrite last_position_wf by apply (pinv_wf x Hx). split_and!; [lia|rewrite Hl, length_app; lia| |].
  - intros t i. by rewrite He, Hl, Nat2Z.id, take_app_length.
  - intros a b Ha Hb Hsa Hsb. pose proof (pinv_active x Hx a b Ha Hb Hsa Hsb) as Hab.
    pose proof (pinv_unique x Hx) as Huniq.
    apply list_elem_of_lookup in Ha as [i Hi], Hb as [j Hj].
    assert (i = j) as ->; [|congruence].
    eapply (NoDup_lookup _ i j (gen_number a)); [done|by rewrite list_lookup_fmap, Hi|].
    by rewrite list_lookup_fmap, Hj, Hab.
Qed.

Lemma elem_getGeneration st g x :
  getGeneration st g = Some x → x ∈ generations st ∧ gen_number x = g.
Proof. intros [Hin Hb]%find_some_elem. by bool_props. Qed.

Lemma promoted_once l g x :
  NoDup (gen_number <$> l) → x ∈ l → gen_number x = g → gen_status x = building →
  List.filter (promotes g) l = [x].
Proof.
  intros HN Hx Hg Hs. induction l as [|y l IH]; [by apply not_elem_of_nil in Hx|].
  rewrite fmap_cons in HN. apply NoDup_cons in HN as [Hy HN].
  apply elem_of_cons in Hx as [->|Hx]; simpl.
  - unfold promotes at 1. rewrite Hg, Z.eqb_refl, bool_decide_eq_true_2 by done. simpl. f_equal.
    clear IH HN. induction l as [|z l IH]; [done|]. simpl.
    unfold promotes at 1. rewrite (proj2 (Z.eqb_neq _ _)).
    + apply IH. intros Hin. apply Hy. rewrite fmap_cons. by right.
    + intros Hz. apply Hy. rewrite Hg, <- Hz. left.
  - unfold promotes at 1. rewrite (proj2 (Z.eqb_neq _ _)); [by apply IH|].
    intros Hz. apply Hy. rewrite Hz, <- Hg. by apply list_elem_of_fmap_2.
Qed.

Lemma getActive_only st y :
  y ∈ generations st → gen_status y = active → NoDup (gen_number <$> generations st) →
  actives_agree (generations st) → getActive st = Some y.
Proof.
  intros Hy Hs HN Hag. unfold getActive. destruct (find _ (generations st)) as [z|] eqn:Hf.
  - apply find_some_elem in Hf as [Hz Hb]. bool_props. f_equal.
    apply list_elem_of_lookup in Hy as [i Hi]. apply list_elem_of_lookup in Hz as Hz'. destruct Hz' as [j Hj].
    assert (i = j) as ->; [|congruence].
    eapply (NoDup_lookup _ i j (gen_number y)); [done|by rewrite list_lookup_fmap, Hi|].
    rewrite list_lookup_fmap, Hj. simpl. f_equal. apply Hag; try done. by eapply list_elem_of_lookup_2.
  - apply find_none_elem in Hf. rewrite existsb_false in Hf. specialize (Hf y Hy).
    by apply bool_decide_eq_false in Hf.
Qed.

(** Activation of a generation that is exact and caught up. *)
Lemma activate_caught_up ldb g st y c :
  wf_db ldb → NoDup (gen_number <$> generations st) → actives_agree (generations st) →
  getGeneration st g = Some y → gen_status y = building →
  gen_schema_version y = PROJECTION_SCHEMA_VERSION →
  checkpoints st !! g = Some c → ck_position c = last_position ldb →
  exact (execution_events ldb) g st →
  ∃ st', activate ldb g st = Ok (true, last_position ldb, st') ∧ runs st' = runs st ∧
    checkpoints st' = checkpoints st ∧
    getActive st' = Some (MkGeneration g PROJECTION_SCHEMA_VERSION active (last_position ldb)).
Proof.
  intros Hwf HN Hag Hy Hs Hv Hc Hp He.
  pose proof (elem_getGeneration st g y Hy) as [Hin Hg].
  destruct (exact_integrity ldb g st Hwf He) as [Hcount Hmis].
  set (l1 := retire_others g <$> generations st).
  assert (HN1 : NoDup (gen_number <$> l1)).
  { unfold l1. rewrite <- list_fmap_compose.
    rewrite (list_fmap_ext _ gen_number (generations st)); [done|].
    intros _ x _. simpl. unfold retire_others. by case_if. }
  assert (Hy1 : y ∈ l1).
  { apply list_elem_of_fmap. exists y. split; [|done]. unfold retire_others.
    by rewrite Hs, bool_decide_eq_false_2. }
  pose proof (promoted_once l1 g y HN1 Hy1 Hg Hs) as Hone.
  assert (Ha : activate ldb g st = Ok (true, last_position ldb,
    set_generations (fmap (promote g (last_position ldb)))
      (set_generations (fmap (retire_others g)) st))).
  { unfold activate. rewrite Hy. cbn [fmap option_fmap option_map default].
    rewrite Hs, bool_decide_eq_true_2 by done. cbn [negb throw_if]. rewrite Hv, Z.eqb_refl, Hc, Hp, Z.eqb_refl.
    cbn [throw_if negb]. rewrite Hcount, Z.eqb_refl, Hmis. cbn [negb orb].
    change (generations (set_generations (fmap (retire_others g)) st)) with l1. by rewrite Hone. }
  eexists. split; [exact Ha|]. split; [done|]. split; [done|].
  destruct (activate_tables ldb g st _ _ _ HN Hag Ha) as (_ & _ & Hgn & Hag').
  apply getActive_only; [|done|by rewrite Hgn|done].
  apply list_elem_of_fmap. exists y. split; [|done]. unfold promote, promotes.
  rewrite Hg, Z.eqb_refl, Hs, bool_decide_eq_true_2, Hv by done. done.
Qed.

(** In every reachable configuration a building generation whose checkpoint has
    reached the end of the ledger is activated: the integrity comparison never
    refuses it, no eligibility is lost, every other generation that was active is
    retired, and readers then see its rows. *)
Theorem caught_up_activates x g y c :
  preachable x → getGeneration (tables x) g = Some y → gen_status y = building →
  gen_schema_version y = PROJECTION_SCHEMA_VERSION →
  checkpoints (tables x) !! g = Some c → ck_position c = last_position (db (source x)) →
  ∃ st', activate (db (source x)) g (tables x) = Ok (true, last_position (db (source x)), st') ∧
    runs st' = runs (tables x) ∧
    getActive st' =
      Some (MkGeneration g PROJECTION_SCHEMA_VERSION active (last_position (db (source x)))).
Proof.
  intros Hx Hy Hs Hv Hc Hp. apply preachable_inv in Hx.
  pose proof (pinv_wf x Hx) as Hwf.
  destruct (pinv_exact x Hx g c Hc) as (l & l' & Hl & Hlen & He).
  assert (l' = []) as ->.
  { rewrite Hp, last_position_wf, Hl, length_app in Hlen by done. apply nil_length_inv. lia. }
  rewrite app_nil_r in Hl. subst l.
  destruct (activate_caught_up (db (source x)) g (tables x) y c) as (st' & Ha & Hr & _ & Hga);
    try done.
  - apply (pinv_unique x Hx).
  - exact (pinv_active x Hx).
  - by exists st'.
Qed.

(** ** The functions take the steps of the relation *)

Lemma reconcile_loop_steps l g batch_size fuel : ∀ st processed bs st' r,
  reconcile_loop locale_le reg fault_injector fuel (db l) g batch_size st processed = Some (st', r) →
  ∃ bs', bs ⊆+ bs' ∧ (is_ok r = true → bs' = bs) ∧
    rtc (pstep) (MkPConfig l st bs) (MkPConfig l st' bs').
Proof.
  induction fuel as [|fuel IH]; intros st processed bs st' r H; [done|]. cbn [reconcile_loop] in H.
  assert (Hrefl : ∃ bs', bs ⊆+ bs' ∧ (is_ok r = true → bs' = bs) ∧
    rtc (pstep) (MkPConfig l st bs) (MkPConfig l st bs')) by by exists bs.
  destruct (checkpoints st !! g) as [c|] eqn:Hc; [|by injection H as <- _].
  destruct (readGlobal _ _ _ _) as [events|e] eqn:Hr; [|by injection H as <- _].
  destruct events as [|e events]; [by injection H as <- _|].
  pose proof (step_read l st bs g c batch_size (e :: events) Hc Hr
    ltac:(done)) as Hread. set (b := MkBatch g (ck_position c) (e :: events)) in *.
  destruct (applyBatch _ _ _ _ _ _ _) as [st1|err] eqn:Hb.
  - pose proof (step_apply l st bs b st1 Hb) as Happly.
    case_if_in H.
    + injection H as <- <-. exists bs. split_and!; [done..|]. by eapply rtc_l, rtc_once.
    + destruct (IH _ _ bs _ _ H) as (bs' & ? & ? & Hsteps). exists bs'. split_and!; [done..|].
      by eapply rtc_l, rtc_l.
  - case_if_in H; bool_props.
    + pose proof (step_conflict l st bs b err Hb ltac:(done)) as Hconf.
      destruct (IH _ _ bs _ _ H) as (bs' & ? & ? & Hsteps). exists bs'. split_and!; [done..|].
      by eapply rtc_l, rtc_l.
    + injection H as <- <-. exists (b :: bs). split_and!; [by apply submseteq_cons|done|].
      by apply rtc_once.
Qed.

(** A run of [reconcileGeneration] is a sequence of steps of the relation, and
    leaves no batch behind: whatever it returns or throws, what holds of every
    reachable configuration holds after it. *)
Theorem reconcile_refines l st bs fuel g batch_size st' r :
  reconcileGeneration locale_le reg fault_injector fuel (db l) g batch_size st = Some (st', r) →
  rtc (pstep) (MkPConfig l st bs) (MkPConfig l st' bs).
Proof.
  unfold reconcileGeneration. destruct (getGeneration st g) as [y|]; [|by intros [= <- _]].
  case_if; [by intros [= <- _]|]. case_if; [by intros [= <- _]|].
  destruct (reconcile_loop _ _ _ _ _ _ _ _ _) as [[st1 r1]|] eqn:Hloop; [|done].
  apply (reconcile_loop_steps l g batch_size fuel st 0 bs) in Hloop as (bs' & Hsub & Hok & Hsteps).
  cbv [mbind option_bind]. destruct r1 as [n|e].
  - rewrite Hok in Hsteps by done. destruct (checkpoints st1 !! g); intros [= <- _]; [done|].
    eapply rtc_r; [done|]. by apply step_failure.
  - intros [= <- _]. eapply rtc_r; [done|]. by apply step_failure.
Qed.
End steps.
