(* ===== verification/ProjectionRebuild.v ===== *)
(** * Rebuilding a projection terminates, and failures are contained

    On a ledger whose facts can all be projected, [rebuild] creates a generation,
    catches up and activates it; the fuel is the number of facts plus one, since
    every batch moves the checkpoint.  When a fact cannot be projected the
    generation keeps the rows and the checkpoint of the last committed batch. *)
From S2P Require Import Prelude JsValue CanonicalJson EventRegistry Time Ledger Projections ProjectionSafety.
From S2P Require Import ProjectionSteps.

Section rebuild.
Context (locale_le : string → string → bool) (reg : registry).
Context (fault_injector : string → value → result unit).

(** The fact is read and projected without an error. *)
Definition readable (r : row) : Prop :=
  is_execution r = true →
  projectable r ∧ ∃ e, deserialize locale_le reg (hydrate r) = Ok e.
Definition silent : Prop := ∀ stage event, fault_injector stage event = Ok ().

Lemma applyExecutionRun_total current event status :
  assoc (str_of (get "event_type" event)) STATUS_BY_EVENT = Some status →
  ∃ next, applyExecutionRun current event = Ok next.
Proof.
  intros H. unfold applyExecutionRun. rewrite H.
  destruct current; [case_if|]; by eexists.
Qed.

Lemma apply_event_total g st r l :
  silent → readable r → exact l g st → after_rows l r →
  ∃ st', apply_event locale_le reg fault_injector g st (hydrate r) = Ok st'.
Proof.
  intros Hsil Hread Hl Hafter. unfold apply_event. rewrite hydrate_execution, Hsil.
  destruct (is_execution r) eqn:Hex; [|rewrite Hsil; by eexists].
  destruct (Hread Hex) as [[[status Hst] [op Hop]] [a Ha]]. rewrite Ha.
  pose proof (λ k, deserialize_keeps locale_le reg (hydrate r) a k Ha) as Hget.
  cbv [mbind result_bind]. rewrite !Hget by done.
  change (get "aggregate_id" (hydrate r)) with (VStr (aggregate_id (event_stream (columns r)))).
  change (get "aggregate_type" (hydrate r)) with (VStr (aggregate_type (event_stream (columns r)))).
  cbn [str_of]. replace (MkStream _ _) with (event_stream (columns r)) by by destruct (event_stream (columns r)).
  destruct (applyExecutionRun_total (runs st !! run_key g (event_stream (columns r))) a status)
    as [next Hnext]; [by rewrite Hget|].
  rewrite Hnext. destruct (applyExecutionRun_later l g st r a next Hl Hafter Hex Hget Hnext) as [-> _].
  assert (Hup : ∃ st', upsertProjectedRun g (run_of r) st = Ok st').
  { unfold upsertProjectedRun. simpl. rewrite Hop. simpl.
    destruct (runs st !! _); [case_if|]; by eexists. }
  destruct Hup as [st' ->]. rewrite Hsil. by eexists.
Qed.

Lemma apply_events_total ldb g rows l l' st :
  wf_db ldb → silent → Forall readable rows → execution_events ldb = l ++ rows ++ l' →
  exact l g st →
  ∃ st', fold_result (apply_event locale_le reg fault_injector g) st (hydrate <$> rows) = Ok st'.
Proof.
  intros Hwf Hsil. revert l st. induction rows as [|r rows IH]; intros l st Hread He Hl; [by eexists|].
  apply Forall_cons in Hread as [Hr Hread].
  pose proof (after_rows_split ldb l r (rows ++ l') Hwf He) as Hafter.
  destruct (apply_event_total g st r l Hsil Hr Hl Hafter) as [st1 H1].
  destruct (apply_event_exact locale_le reg fault_injector g st r st1 l Hl Hafter H1) as [Hl1 _].
  rewrite fmap_cons. cbn [fold_result]. rewrite H1. apply (IH (l ++ [r])); [done| |done].
  by rewrite <- app_assoc.
Qed.

(** A batch at the checkpoint commits, and moves it to its last fact. *)
Lemma applyBatch_total ldb g c rows r l l' st :
  wf_db ldb → silent → Forall readable (rows ++ [r]) →
  execution_events ldb = l ++ (rows ++ [r]) ++ l' →
  checkpoints st !! g = Some c → ck_position c = Z.of_nat (length l) → exact l g st →
  ∃ st', applyBatch locale_le reg fault_injector g (ck_position c) (hydrate <$> (rows ++ [r])) st = Ok st' ∧
    exact (l ++ rows ++ [r]) g st' ∧ generations st' = generations st ∧
    checkpoints st' =
      <[g := MkCheckpoint (Z.of_nat (length (l ++ rows ++ [r]))) None]> (checkpoints st).
Proof.
  intros Hwf Hsil Hread He Hc Hp Hl.
  destruct (apply_events_total ldb g (rows ++ [r]) l l' st) as [st1 H1]; [done..|].
  destruct (apply_events_exact locale_le reg fault_injector ldb g (rows ++ [r]) l l' st st1)
    as [Hl1 (Hck & Hgen & _)]; [done..|].
  assert (Hb : ∃ st', applyBatch locale_le reg fault_injector g (ck_position c)
                        (hydrate <$> (rows ++ [r])) st = Ok st').
  { unfold applyBatch. rewrite H1. cbv [mbind result_bind]. rewrite Hsil. unfold updateCheckpoint.
    rewrite Hck, Hc, Z.eqb_refl. by eexists. }
  destruct Hb as [st' Hb]. exists st'. split; [done|].
  destruct (applyBatch_exact locale_le reg fault_injector ldb g (ck_position c) rows r l l' st st')
    as (_ & Hl' & Hcs & Hgs & _); [done..|].
  split; [done|]. split; [done|]. rewrite Hcs. do 2 f_equal. rewrite (length_app l). lia.
Qed.

Lemma reconcile_loop_total ldb g batch_size fuel : ∀ n st processed c,
  wf_db ldb → silent → Forall readable (execution_events ldb) →
  is_integer batch_size = true → (1 ≤ int_of batch_size ≤ 1000)%Z →
  n ≤ length (execution_events ldb) → length (execution_events ldb) - n < fuel →
  checkpoints st !! g = Some c → ck_position c = Z.of_nat n →
  exact (take n (execution_events ldb)) g st →
  ∃ st' c', reconcile_loop locale_le reg fault_injector fuel ldb g batch_size st processed =
      Some (st', Ok (processed + Z.of_nat (length (execution_events ldb) - n))%Z) ∧
    checkpoints st' !! g = Some c' ∧ ck_position c' = Z.of_nat (length (execution_events ldb)) ∧
    exact (execution_events ldb) g st' ∧ generations st' = generations st.
Proof.
  induction fuel as [|fuel IH]; intros n st processed c Hwf Hsil Hread Hi Hb Hn Hf Hc Hp Hl; [lia|].
  cbn [reconcile_loop]. rewrite Hc.
  assert (Hr : ∃ events, readGlobal ldb (VNum (NInt (ck_position c))) batch_size VUndef = Ok events).
  { unfold readGlobal. unfold valid_cursor, nonnegative, positive. rewrite Hi, Hp. simpl.
    rewrite !(proj2 (Z.leb_le _ _)) by lia. by eexists. }
  destruct Hr as [events Hr]. rewrite Hr. pose proof Hr as Hr'. rewrite Hp in Hr'.
  apply readGlobal_batch in Hr' as [_ Hevents]; [|done].
  set (rows := execution_events ldb) in *. set (k := Z.to_nat (int_of batch_size)) in *.
  assert (Hlen : length events = k `min` (length rows - n)).
  { rewrite Hevents, length_fmap, length_take, length_drop. done. }
  destruct (take k (drop n rows)) as [|r rs _] eqn:Ht using rev_ind.
  - subst events. simpl in Hlen. assert (n = length rows) by lia. subst n.
    exists st, c. rewrite take_ge in Hl by lia.
    split; [|done]. simpl. by rewrite Nat.sub_diag, Z.add_0_r.
  - assert (Hrows : rows = take n rows ++ (rs ++ [r]) ++ drop k (drop n rows)).
    { rewrite <- Ht. by rewrite !take_drop. }
    assert (Hlt : length (take n rows) = n) by (rewrite length_take; lia).
    destruct (applyBatch_total ldb g c rs r (take n rows) (drop k (drop n rows)) st)
      as (st1 & Hb1 & Hl1 & Hg1 & Hc1); [done..| |done|done|by rewrite Hlt|done|].
    { rewrite <- Ht. by apply Forall_take, Forall_drop. }
    rewrite <- Hevents in Hb1.
    assert (Hm : length (rs ++ [r]) = length events) by (by rewrite Hevents, length_fmap).
    rewrite length_app in Hm. simpl in Hm.
    destruct events as [|e evs]; [simpl in Hm; lia|]. set (events := e :: evs) in *. rewrite Hb1.
    rewrite !length_app, Hlt in Hc1. simpl length in Hc1. rewrite Hm in Hc1.
    assert (Hne : 1 ≤ length events) by (simpl; lia).
    assert (Hl1' : exact (take (n + length events) rows) g st1).
    { enough (take (n + length events) rows = take n rows ++ rs ++ [r]) as -> by done.
      rewrite Hrows, app_assoc at 1. apply take_app_length'. rewrite !length_app, Hlt. simpl. simpl in Hm. lia. }
    case_if; bool_props.
    + eexists _, _. assert (n + length events = length rows) as Hall by lia.
      rewrite Hall in *. rewrite take_ge in Hl1' by lia.
      split; [do 2 f_equal; f_equal; lia|]. simpl. rewrite Hc1, lookup_insert_eq. done.
    + edestruct (IH (n + length events) (add_processed (Z.of_nat (length events)) st1)
        (processed + Z.of_nat (length events))%Z) as (st2 & c2 & H2 & Hc2 & Hp2 & Hl2 & Hg2);
        try done; [lia|lia|by simpl; rewrite Hc1, lookup_insert_eq|done|].
      exists st2, c2. rewrite H2, Hg2. split_and!; try done. do 3 f_equal. lia.
Qed.

Lemma getGeneration_elem st y :
  NoDup (gen_number <$> generations st) → y ∈ generations st → getGeneration st (gen_number y) = Some y.
Proof.
  intros HN Hy. unfold getGeneration. destruct (find _ _) as [z|] eqn:Hf.
  - apply find_some_elem in Hf as [Hz Hb]. bool_props. f_equal.
    apply list_elem_of_lookup in Hy as [i Hi], Hz as [j Hj].
    assert (i = j) as ->; [|congruence].
    eapply (NoDup_lookup _ i j (gen_number y)); [done|by rewrite list_lookup_fmap, Hi|].
    rewrite list_lookup_fmap, Hj. simpl. congruence.
  - apply find_none_elem in Hf. rewrite existsb_false in Hf. specialize (Hf y Hy).
    by rewrite Z.eqb_refl in Hf.
Qed.

(** C24: on a ledger whose execution facts can be read and projected, a rebuild with
    any valid batch size terminates within one unit of fuel per stored fact and one
    more, in its first round: it answers that the new generation is active at the
    end of the ledger, and that generation holds the latest fact of every execution. *)
Theorem rebuild_activates l st bs batch_size rounds fuel :
  preachable locale_le reg fault_injector (MkPConfig l st bs) → silent →
  Forall readable (execution_events (db l)) →
  is_integer batch_size = true → (1 ≤ int_of batch_size ≤ 1000)%Z →
  length (execution_events (db l)) < fuel →
  ∃ g st', rebuild locale_le reg fault_injector (S rounds) fuel (λ _, db l) batch_size st =
      Some (st', Ok (g, true, last_position (db l))) ∧
    getActive st' =
      Some (MkGeneration g PROJECTION_SCHEMA_VERSION active (last_position (db l))) ∧
    exact (execution_events (db l)) g st'.
Proof.
  intros Hx Hsil Hread Hi Hb Hf. apply preachable_inv in Hx.
  pose proof (pinv_create l st bs Hx) as Hc. unfold rebuild.
  destruct (createGeneration (db l) st) as [g st1] eqn:Hcr. simpl in Hc.
  assert (Hnew : MkGeneration g PROJECTION_SCHEMA_VERSION building (last_position (db l)) ∈ generations st1 ∧
                 checkpoints st1 !! g = Some (MkCheckpoint 0 None)).
  { unfold createGeneration in Hcr. injection Hcr as <- <-. simpl. split; [|by rewrite lookup_insert_eq].
    apply elem_of_app. right. by apply list_elem_of_singleton. }
  destruct Hnew as [Hnew Hck]. set (y := MkGeneration g _ _ _) in *.
  pose proof (getGeneration_elem st1 y (pinv_unique _ Hc) Hnew) as Hy. simpl in Hy.
  destruct (pinv_exact _ Hc g _ Hck) as (p & p' & Hrows & Hlen & He). simpl in Hlen.
  assert (p = []) as -> by (apply nil_length_inv; lia).
  pose proof (pinv_wf _ Hc) as Hwf. simpl in Hwf.
  destruct (reconcile_loop_total (db l) g batch_size fuel 0 st1 0%Z (MkCheckpoint 0 None))
    as (st2 & c2 & Hloop & Hc2 & Hp2 & He2 & Hg2); try done; [lia|lia|].
  destruct (activate_caught_up (db l) g st2 y c2) as (st3 & Ha & Hr3 & _ & Hact); try done.
  - rewrite Hg2. apply (pinv_unique _ Hc).
  - rewrite Hg2. exact (pinv_active _ Hc).
  - unfold getGeneration. by rewrite Hg2.
  - by rewrite Hp2, last_position_wf.
  - exists g, st3. split_and!; [|done|].
    + cbn [rebuild_rounds]. unfold reconcileGeneration. rewrite Hy. simpl.
      rewrite Hloop. cbv [mbind option_bind]. rewrite Hc2, Ha. done.
    + revert He2. apply exact_runs. by rewrite Hr3.
Qed.


(** ** Failures *)

(** What is left of a generation's status when a reconciliation of it throws. *)
Definition after_failure (s : generation_status) : generation_status :=
  match s with building => failed | s => s end.

Lemma applyBatch_keeps g c events st st' :
  applyBatch locale_le reg fault_injector g c events st = Ok st' →
  generations st' = generations st ∧ projection_failures st' = projection_failures st.
Proof.
  intros H. unfold applyBatch in H. apply bind_ok in H as (st1 & Hf & H).
  assert (Hk : generations st1 = generations st ∧ projection_failures st1 = projection_failures st).
  { clear H. revert st Hf. induction events as [|e events IH]; intros st Hf; [by injection Hf as <-|].
    cbn [fold_result] in Hf. apply bind_ok in Hf as (st2 & H2 & Hf).
    destruct (IH _ Hf) as [-> ->]. unfold apply_event in H2.
    apply bind_ok in H2 as (u & _ & H2). apply bind_ok in H2 as (st3 & H3 & H2).
    apply bind_ok in H2 as (u' & _ & [= <-]). case_if_in H3; [|by injection H3 as <-].
    apply bind_ok in H3 as (a & _ & H3). apply bind_ok in H3 as (next & _ & H3).
    unfold upsertProjectedRun in H3. apply bind_ok in H3 as (u'' & _ & H3).
    destruct (runs st !! _); [case_if_in H3|]; by injection H3 as <-. }
  destruct Hk as [<- <-]. cbv zeta in H. apply bind_ok in H as (u & _ & H).
  unfold updateCheckpoint in H. destruct (checkpoints st1 !! g) as [ck|]; [case_if_in H|];
    apply bind_ok in H as (u' & _ & [= <-]); done.
Qed.

Lemma reconcile_loop_keeps ldb g batch_size fuel : ∀ st processed st' r,
  reconcile_loop locale_le reg fault_injector fuel ldb g batch_size st processed = Some (st', r) →
  generations st' = generations st ∧ projection_failures st' = projection_failures st.
Proof.
  induction fuel as [|fuel IH]; intros st processed st' r H; [done|]. cbn [reconcile_loop] in H.
  destruct (checkpoints st !! g) as [c|]; [|by injection H as <- _].
  destruct (readGlobal _ _ _ _) as [events|e]; [|by injection H as <- _].
  destruct events as [|e events]; [by injection H as <- _|].
  destruct (applyBatch _ _ _ _ _ _ _) as [st1|err] eqn:Hb.
  - apply applyBatch_keeps in Hb as [<- <-]. case_if_in H; [by injection H as <- _|].
    destruct (IH _ _ _ _ H) as [-> ->]. done.
  - case_if_in H; [by eapply IH|by injection H as <- _].
Qed.

Lemma getGeneration_fmap st f g :
  (∀ x, gen_number (f x) = gen_number x) →
  getGeneration (set_generations (fmap f) st) g = f <$> getGeneration st g.
Proof.
  intros Hf. unfold getGeneration. simpl. induction (generations st) as [|x l IH]; [done|].
  simpl. rewrite Hf. by case_if.
Qed.

(** When the reconciliation of a building or active generation throws, one
    failure is counted, the message is left on the generation's checkpoint, and a
    building generation is failed while an active one stays active and readable. *)
Theorem reconcile_failure ldb g y batch_size fuel st st' e :
  getGeneration st g = Some y → gen_status y = building ∨ gen_status y = active →
  gen_schema_version y = PROJECTION_SCHEMA_VERSION →
  reconcileGeneration locale_le reg fault_injector fuel ldb g batch_size st = Some (st', Throw e) →
  projection_failures st' = (projection_failures st + 1)%Z ∧
  (∀ c, checkpoints st' !! g = Some c → last_error c = Some (str_of (get "message" e))) ∧
  getGeneration st' g =
    Some (MkGeneration g (gen_schema_version y) (after_failure (gen_status y)) (source_high_water y)).
Proof.
  intros Hy Hs Hv H. pose proof (elem_getGeneration st g y Hy) as [_ Hg].
  unfold reconcileGeneration in H. rewrite Hy, Hv, Z.eqb_refl in H.
  replace (negb _ && negb _) with false in H by by destruct Hs as [-> | ->].
  cbn [negb] in H.
  destruct (reconcile_loop _ _ _ _ _ _ _ _ _) as [[st1 r1]|] eqn:Hloop; [|done].
  apply reconcile_loop_keeps in Hloop as [Hgens Hfail]. cbv [mbind option_bind] in H.
  assert (Hrec : st' = record_failure g e (bool_decide (gen_status y = building)) st1).
  { destruct r1; [|congruence]. destruct (checkpoints st1 !! g); congruence. }
  subst st'. clear H r1.
  assert (Herr : generations (recordError g e st1) = generations st1 ∧
    projection_failures (recordError g e st1) = projection_failures st1 ∧
    ∀ c, checkpoints (recordError g e st1) !! g = Some c → last_error c = Some (str_of (get "message" e))).
  { unfold recordError. destruct (checkpoints st1 !! g) as [c|] eqn:Hc; simpl; split_and!; try done.
    - intros c'. rewrite lookup_insert_eq. by intros [= <-].
    - intros c'. by rewrite Hc. }
  destruct Herr as (Hg1 & Hf1 & Hc1). rewrite <- Hfail, <- Hf1.
  assert (Hfind : getGeneration (recordError g e st1) g = Some y).
  { unfold getGeneration. rewrite Hg1, Hgens. exact Hy. }
  unfold record_failure. destruct Hs as [Hs|Hs]; rewrite Hs; simpl; split_and!; try done.
  - unfold markGenerationFailed. rewrite getGeneration_fmap by (intros x; unfold change_status; by case_if).
    change (getGeneration (add_failure _) g) with (getGeneration (recordError g e st1) g).
    rewrite Hfind. simpl. unfold change_status. rewrite Hg, Z.eqb_refl, Hs. simpl. by rewrite Hv.
  - change (getGeneration (add_failure _) g) with (getGeneration (recordError g e st1) g).
    rewrite Hfind. rewrite <- Hg, <- Hs. by destruct y.
Qed.
End rebuild.
