(* ===== verification/ProjectionExamples.v ===== *)
(** * Projections: the theorems at concrete inputs *)
From S2P Require Import Prelude JsValue CanonicalJson EventRegistry Time Ledger Projections ProjectionSafety.
From S2P Require Import ProjectionSteps ProjectionRebuild.

Definition no_faults : string → value → result unit := λ _ _, Ok ().
Definition sample_batch : value := VNum (NInt 10).
Definition sample_created : pstore := (createGeneration (db first_append.2) empty_store).2.
Definition sample_reconciled : pstore :=
  match reconcileGeneration String.leb execution_registry no_faults 3 (db first_append.2) 1
          sample_batch sample_created with
  | Some (st, _) => st
  | None => sample_created
  end.
Definition sample_step := pstep String.leb execution_registry no_faults.
Definition sample_reachable := preachable String.leb execution_registry no_faults.

Lemma sample_started : sample_reachable (MkPConfig first_append.2 sample_created []).
Proof.
  eapply preach_step; [|apply step_create]. eapply preach_step; [|apply step_append].
  apply preach_start, empty_ledger_wf.
Qed.

Lemma sample_reconcile_result :
  reconcileGeneration String.leb execution_registry no_faults 3 (db first_append.2) 1
    sample_batch sample_created = Some (sample_reconciled, Ok (1, 1)%Z).
Proof. vm_compute. reflexivity. Qed.

Lemma reachable_rtc x y : sample_reachable x → rtc sample_step x y → sample_reachable y.
Proof. intros Hx H. induction H; [done|]. apply IHrtc. by eapply preach_step. Qed.

Lemma sample_done : sample_reachable (MkPConfig first_append.2 sample_reconciled []).
Proof.
  destruct (reconcile_loop_steps String.leb execution_registry no_faults first_append.2 1
    sample_batch 3 sample_created 0 [] sample_reconciled (Ok 1%Z)) as (bs & _ & Hbs & Hs).
  { vm_compute. reflexivity. }
  rewrite Hbs in Hs by done. eapply reachable_rtc; [apply sample_started|exact Hs].
Qed.

Lemma sample_checkpoint : checkpoints sample_reconciled !! 1%Z = Some (MkCheckpoint 1 None).
Proof. vm_compute. reflexivity. Qed.
Lemma sample_generation :
  getGeneration sample_reconciled 1 = Some (MkGeneration 1 PROJECTION_SCHEMA_VERSION building 1).
Proof. vm_compute. reflexivity. Qed.
Lemma sample_position : last_position (db first_append.2) = 1%Z.
Proof. vm_compute. reflexivity. Qed.

Lemma projection_exact_witness :
  runs sample_reconciled !! (1%Z, ("execution", "op")) =
    latest_run (take 1 (execution_events (db first_append.2))) ("execution", "op").
Proof.
  destruct (projection_exact String.leb execution_registry no_faults
    (MkPConfig first_append.2 sample_reconciled []) 1 (MkCheckpoint 1 None) sample_done sample_checkpoint)
    as (_ & H & _). apply H.
Defined.

Lemma caught_up_activates_witness :
  ∃ st', activate (db first_append.2) 1 sample_reconciled =
      Ok (true, last_position (db first_append.2), st') ∧
    runs st' = runs sample_reconciled ∧
    getActive st' =
      Some (MkGeneration 1 PROJECTION_SCHEMA_VERSION active (last_position (db first_append.2))).
Proof.
  apply (caught_up_activates String.leb execution_registry no_faults
    (MkPConfig first_append.2 sample_reconciled []) 1
    (MkGeneration 1 PROJECTION_SCHEMA_VERSION building 1) (MkCheckpoint 1 None)).
  - apply sample_done.
  - apply sample_generation.
  - reflexivity.
  - reflexivity.
  - apply sample_checkpoint.
  - symmetry. apply sample_position.
Defined.

Lemma sample_readable :
  Forall (readable String.leb execution_registry) (execution_events (db first_append.2)).
Proof.
  assert (H : ∃ r, execution_events (db first_append.2) = [r] ∧
    is_Some (assoc (event_type (columns r)) STATUS_BY_EVENT) ∧ is_Some (operation_id (columns r)) ∧
    is_ok (deserialize String.leb execution_registry (hydrate r)) = true).
  { eexists. split; [vm_compute; reflexivity|]. split_and!; vm_compute; eauto. }
  destruct H as (r & -> & Hs & Ho & Hd). constructor; [|constructor]. intros _. split; [done|].
  destruct (deserialize _ _ _) as [e|]; [by exists e|done].
Qed.

Lemma rebuild_activates_witness :
  ∃ g st', rebuild String.leb execution_registry no_faults 1 2 (λ _, db first_append.2) sample_batch
      empty_store = Some (st', Ok (g, true, last_position (db first_append.2))) ∧
    getActive st' =
      Some (MkGeneration g PROJECTION_SCHEMA_VERSION active (last_position (db first_append.2))) ∧
    exact (execution_events (db first_append.2)) g st'.
Proof.
  apply (rebuild_activates String.leb execution_registry no_faults first_append.2 empty_store []
    sample_batch 0 2).
  - eapply preach_step; [|apply step_append]. apply preach_start, empty_ledger_wf.
  - intros stage event. reflexivity.
  - apply sample_readable.
  - reflexivity.
  - simpl. lia.
  - replace (length (execution_events (db first_append.2))) with 1; [lia|]. vm_compute. reflexivity.
Defined.

Lemma reconcile_refines_witness :
  rtc sample_step (MkPConfig first_append.2 sample_created []) (MkPConfig first_append.2 sample_reconciled []).
Proof.
  exact (reconcile_refines String.leb execution_registry no_faults first_append.2 sample_created [] 3 1
    sample_batch sample_reconciled (Ok (1, 1)%Z) sample_reconcile_result).
Defined.

(** A ledger read with an invalid batch size. *)
Definition sample_failed : option (pstore * result (Z * Z)) :=
  reconcileGeneration String.leb execution_registry no_faults 3 (db first_append.2) 1
    (VNum (NInt 0)) sample_created.

Lemma reconcile_failure_witness :
  ∃ st' e, sample_failed = Some (st', Throw e) ∧
    getGeneration st' 1 = Some (MkGeneration 1 PROJECTION_SCHEMA_VERSION failed 1).
Proof.
  destruct sample_failed as [[st' [v|e]]|] eqn:E; [vm_compute in E; discriminate E| |vm_compute in E; discriminate E].
  exists st', e. split; [reflexivity|].
  destruct (reconcile_failure String.leb execution_registry no_faults (db first_append.2) 1
    (MkGeneration 1 PROJECTION_SCHEMA_VERSION building 1) (VNum (NInt 0)) 3 sample_created st' e)
    as (_ & _ & H).
  - vm_compute. reflexivity.
  - left. reflexivity.
  - reflexivity.
  - exact E.
  - exact H.
Defined.
