(* ===== verification/Wildcard.v ===== *)
(** * Wildcard patterns (wildcardMatch of policy-resolver.js)

    The table the program fills row by row decides a declarative relation: the
    value is a concatenation of pieces, one per character of the pattern, where
    [*] takes any piece, [?] any one character and another character itself. *)
From S2P Require Import Prelude JsValue.

Definition star : ascii := "*"%char.
Definition question : ascii := "?"%char.

(** [rows[0][1..]], from the cell to the left. *)
Fixpoint first_row (left : bool) (pattern : list ascii) : list bool :=
  match pattern with
  | [] => []
  | token :: pattern =>
      let cell := Ascii.eqb token star && left in
      cell :: first_row cell pattern
  end.

(** [rows[row][1..]] for the character [c], from the cell to the left, the cell
    above it and the cells [above] of the previous row. *)
Fixpoint next_row (c : ascii) (left diagonal : bool) (pattern : list ascii) (above : list bool) :
    list bool :=
  match pattern, above with
  | token :: pattern, up :: above =>
      let cell := if Ascii.eqb token star then left || up
                  else (Ascii.eqb token question || Ascii.eqb token c) && diagonal in
      cell :: next_row c cell up pattern above
  | _, _ => []
  end.

(** A row is its first cell and the others. *)
Definition step_row (pattern : list ascii) (row : bool * list bool) (c : ascii) : bool * list bool :=
  (false, next_row c false row.1 pattern row.2).
Definition table (value pattern : list ascii) : bool * list bool :=
  fold_left (step_row pattern) value (true, first_row true pattern).

Definition wildcardMatch (value pattern : value) : bool :=
  match value, pattern with
  | VStr value, VStr pattern =>
      if (4096 <? String.length value)%nat || (256 <? String.length pattern)%nat then false
      else
        let row := table (String.list_ascii_of_string value) (String.list_ascii_of_string pattern) in
        default row.1 (last row.2)
  | _, _ => false
  end.

Example wildcard_examples :
  wildcardMatch (VStr "docs/guide.md") (VStr "docs/*.md") = true ∧
  wildcardMatch (VStr "src/guide.js") (VStr "docs/*.md") = false ∧
  wildcardMatch (VStr "") (VStr "**") = true ∧ wildcardMatch (VStr "ab") (VStr "?") = false.
Proof. vm_compute. done. Qed.

(** ** The declarative relation *)

Definition piece_of (token : ascii) (piece : list ascii) : Prop :=
  if Ascii.eqb token star then True
  else if Ascii.eqb token question then length piece = 1
  else piece = [token].

Definition glob (value pattern : list ascii) : Prop :=
  ∃ pieces, value = concat pieces ∧ Forall2 piece_of pattern pieces.

Lemma glob_nil_pattern v : glob v [] ↔ v = [].
Proof.
  split.
  - intros (pieces & -> & H). by inversion H.
  - intros ->. by exists [].
Qed.

Lemma glob_snoc v q t :
  glob v (q ++ [t]) ↔ ∃ u piece, v = u ++ piece ∧ glob u q ∧ piece_of t piece.
Proof.
  split.
  - intros (pieces & -> & H). apply Forall2_app_inv_l in H as (ps & l & Hq & Hl & ->).
    inversion Hl as [|? piece ? l' Hp Hnil]; subst. inversion Hnil; subst.
    exists (concat ps), piece. rewrite concat_app. simpl. rewrite app_nil_r.
    split; [done|]. split; [by exists ps|done].
  - intros (u & piece & -> & (ps & -> & Hq) & Hp). exists (ps ++ [piece]).
    rewrite concat_app. simpl. rewrite app_nil_r. split; [done|]. apply Forall2_app; [done|].
    by constructor.
Qed.

Lemma glob_star_nil q : glob [] (q ++ [star]) ↔ glob [] q.
Proof.
  rewrite glob_snoc. split.
  - intros (u & piece & Hv & Hq & _). symmetry in Hv. by apply app_nil in Hv as [-> _].
  - intros H. by exists [], [].
Qed.

Lemma glob_star_char v c q : glob (v ++ [c]) (q ++ [star]) ↔ glob (v ++ [c]) q ∨ glob v (q ++ [star]).
Proof.
  rewrite !glob_snoc. split.
  - intros (u & piece & Hv & Hq & _).
    destruct piece as [|x piece _] using rev_ind; [left; by rewrite app_nil_r in Hv; subst|right].
    rewrite app_assoc in Hv. apply app_inj_2 in Hv as [-> _]; [|done]. by exists u, piece.
  - intros [H|(u & piece & -> & Hq & _)].
    + exists (v ++ [c]), []. by rewrite app_nil_r.
    + exists u, (piece ++ [c]). by rewrite app_assoc.
Qed.

Lemma glob_one_nil t q : t ≠ star → ¬ glob [] (q ++ [t]).
Proof.
  intros Ht. rewrite glob_snoc. intros (u & piece & Hv & _ & Hp). symmetry in Hv.
  apply app_nil in Hv as [_ ->]. unfold piece_of in Hp.
  rewrite (proj2 (Ascii.eqb_neq t star)) in Hp by done. by case_if_in Hp.
Qed.

Lemma glob_one_char t v c q : t ≠ star →
  glob (v ++ [c]) (q ++ [t]) ↔ (t = question ∨ t = c) ∧ glob v q.
Proof.
  intros Ht. rewrite glob_snoc. unfold piece_of. rewrite (proj2 (Ascii.eqb_neq t star)) by done.
  split.
  - intros (u & piece & Hv & Hq & Hp).
    assert (Hone : ∃ x, piece = [x] ∧ (t = question ∨ t = x)).
    { destruct (Ascii.eqb_spec t question) as [->|].
      - destruct piece as [|x [|]]; [done| |done]. exists x. by split; [|left].
      - exists t. by split; [|right]. }
    destruct Hone as (x & -> & Hx). by apply app_inj_2 in Hv as [-> [= ->]].
  - intros [Hx Hq]. exists v, [c]. split; [done|]. split; [done|].
    destruct (Ascii.eqb_spec t question) as [->|]; [done|]. by destruct Hx as [->| ->].
Qed.

(** ** The table *)

(** The cells of a row, from column [length q + 1] on, decide [glob v]. *)
Definition row_decides (v q pattern : list ascii) (cells : list bool) : Prop :=
  length cells = length pattern ∧
  ∀ j b, cells !! j = Some b → (b = true ↔ glob v (q ++ take (S j) pattern)).

Lemma row_decides_cons v q t pattern cell cells :
  (cell = true ↔ glob v (q ++ [t])) → row_decides v (q ++ [t]) pattern cells →
  row_decides v q (t :: pattern) (cell :: cells).
Proof.
  intros Hc [Hl Hcells]. split; [simpl; lia|]. intros [|j] b Hb; simpl in *.
  - by injection Hb as <-.
  - rewrite (Hcells j b Hb). by rewrite <- app_assoc.
Qed.

Lemma row_decides_uncons v q t pattern cell cells :
  row_decides v q (t :: pattern) (cell :: cells) →
  (cell = true ↔ glob v (q ++ [t])) ∧ row_decides v (q ++ [t]) pattern cells.
Proof.
  intros [Hl Hcells]. split; [by apply (Hcells 0)|]. split; [simpl in Hl; lia|].
  intros j b Hb. rewrite (Hcells (S j) b Hb). by rewrite <- app_assoc.
Qed.

Lemma first_row_decides q left pattern :
  (left = true ↔ glob [] q) → row_decides [] q pattern (first_row left pattern).
Proof.
  revert q left. induction pattern as [|t pattern IH]; intros q left Hl; [by split|].
  simpl. assert (Hcell : Ascii.eqb t star && left = true ↔ glob [] (q ++ [t])).
  { rewrite andb_true_iff, Ascii.eqb_eq, Hl. destruct (decide (t = star)) as [->|Ht].
    - rewrite glob_star_nil. naive_solver.
    - split; [by intros [? _]|]. by intros H%glob_one_nil. }
  by apply row_decides_cons, IH.
Qed.

Lemma next_row_decides c v q left diagonal pattern above :
  (left = true ↔ glob (v ++ [c]) q) → (diagonal = true ↔ glob v q) →
  row_decides v q pattern above →
  row_decides (v ++ [c]) q pattern (next_row c left diagonal pattern above).
Proof.
  revert q left diagonal above. induction pattern as [|t pattern IH]; intros q left diagonal above Hl Hd Ha.
  { split; [done|]. by intros j b. }
  destruct above as [|up above]; [by destruct Ha|]. apply row_decides_uncons in Ha as [Hup Ha].
  cbn [next_row]. set (cell := if Ascii.eqb t star then _ else _).
  assert (Hcell : cell = true ↔ glob (v ++ [c]) (q ++ [t])).
  { unfold cell. destruct (Ascii.eqb_spec t star) as [->|Ht].
    - rewrite orb_true_iff, Hl, Hup, glob_star_char. done.
    - rewrite andb_true_iff, orb_true_iff, !Ascii.eqb_eq, Hd, glob_one_char by done. done. }
  cbv zeta. apply row_decides_cons; [done|]. by apply IH.
Qed.

Lemma table_decides value pattern :
  ((table value pattern).1 = true ↔ glob value []) ∧
  row_decides value [] pattern (table value pattern).2.
Proof.
  unfold table. induction value as [|c value IH] using rev_ind; simpl.
  - split; [by rewrite glob_nil_pattern|]. apply first_row_decides. by rewrite glob_nil_pattern.
  - rewrite fold_left_app. simpl. destruct IH as [Hhead Hrow]. split.
    + rewrite glob_nil_pattern. split; [done|]. by destruct value.
    + apply next_row_decides; [|done|done]. rewrite glob_nil_pattern. split; [done|]. by destruct value.
Qed.

Lemma table_last value pattern :
  default (table value pattern).1 (last (table value pattern).2) = true ↔ glob value pattern.
Proof.
  destruct (table_decides value pattern) as [Hhead [Hl Hrow]].
  destruct (table value pattern) as [b cells]. cbn [fst snd] in *.
  destruct pattern as [|t q _] using rev_ind; [by destruct cells|].
  rewrite length_app in Hl. simpl in Hl. rewrite last_lookup, Hl.
  replace (Nat.pred (length q + 1)) with (length q) by lia.
  destruct (cells !! length q) as [cell|] eqn:Hc.
  - rewrite (Hrow _ _ Hc), take_ge; [done|]. rewrite length_app. simpl. lia.
  - apply lookup_ge_None in Hc. lia.
Qed.

(** The table of [wildcardMatch] decides the declarative meaning of a pattern,
    within the bounds on the two texts; a value that is not a string, or one that is
    too long, never matches. *)
Theorem wildcardMatch_glob value pattern :
  wildcardMatch value pattern = true ↔
  ∃ s p, value = VStr s ∧ pattern = VStr p ∧ String.length s ≤ 4096 ∧ String.length p ≤ 256 ∧
    glob (String.list_ascii_of_string s) (String.list_ascii_of_string p).
Proof.
  unfold wildcardMatch. split.
  - destruct value as [| | | |s| |]; try done. destruct pattern as [| | | |p| |]; try done.
    case_if; [done|]. bool_props. intros Hm%table_last. exists s, p. split_and!; [done..|lia|lia|done].
  - intros (s & p & -> & -> & Hs & Hp & H).
    rewrite !(proj2 (Nat.ltb_ge _ _)) by done. by apply table_last.
Qed.
