(* ===== verification/PolicyResolver.v ===== *)
(** * Resolution of governance policies
      (tools/managed-governance-control-plane/lib/domain/policy-resolver.js)

    A request is normalised, the candidate rules are checked, those that match are
    ordered and folded into a decision with its obligations and evidence.

    The third-party validator behind [parseContract] is the argument [parse_rule]
    and [parse_decision]; [Date.parse], whose result outside of ISO texts is up to
    the engine, is [date_parse] ([None] is NaN); [localeCompare] is [locale_le].
    [deepFreeze] and [structuredClone] are the identity on values of the model. *)
From S2P Require Import Prelude JsValue CanonicalJson Time StrictJson Ledger OperationId Wildcard.

(** ** Data *)

Definition PRECEDENCE : list string :=
  ["constitution"; "organization-standard"; "organization-policy"; "portfolio-product";
   "project-repository"; "environment"; "protected-ref"; "agent-authority"; "activated-surface";
   "approved-exception"].
Definition ACTION_CLASSES : list string := ["read"; "mutation"].
Definition ACTOR_TYPES : list string := ["human"; "agent"; "automation"; "service"].
Definition OPERATIONAL_APPROVAL : string := "operational.approval.required".

Definition PolicyResolutionError_with (message code : string) (details : value) : value :=
  error_with "PolicyResolutionError" message code details.
Definition PolicyResolutionError (message : string) : value :=
  PolicyResolutionError_with message "MANAGED_GOVERNANCE_POLICY_INVALID" (VObj []).

(** [set.has(v)] and [list.includes(v)] for a set or list of strings. *)
Definition has_text (l : list string) (v : value) : bool :=
  match v with VStr s => s ∈s l | _ => false end.

(** ** Checks *)

Definition exactKeys (v : value) (keys : list string) (label : string) : result unit :=
  _ ← throw_if (negb (is_record v)) (PolicyResolutionError (label +:+ " must be an object"));
  let unknown := List.filter (λ k, negb (k ∈s keys)) (object_keys v) in
  throw_if (0 <? length unknown)%nat
    (PolicyResolutionError_with (label +:+ " contains unknown fields")
       "MANAGED_GOVERNANCE_POLICY_UNKNOWN_FIELD"
       (VObj [("fields", VArr (VStr <$> sort_strings unknown))])).

Definition identifier_first (c : ascii) : bool :=
  let n := Ascii.N_of_ascii c in ((97 <=? n)%N && (n <=? 122)%N) || ((48 <=? n)%N && (n <=? 57)%N).
Definition identifier_char (c : ascii) : bool :=
  identifier_first c || Ascii.eqb c "." || Ascii.eqb c "_" || Ascii.eqb c ":" || Ascii.eqb c "-".
(** [/^[a-z0-9][a-z0-9._:-]{0,159}$/] *)
Definition identifier_pattern (s : string) : bool :=
  match s with
  | EmptyString => false
  | String c s => identifier_first c && all_chars identifier_char s && (String.length s <=? 159)%nat
  end.

Definition boundedIdentifier (v : value) (label : string) : result string :=
  match v with
  | VStr s => if identifier_pattern s then Ok s
              else Throw (PolicyResolutionError (label +:+ " is invalid"))
  | _ => Throw (PolicyResolutionError (label +:+ " is invalid"))
  end.
Definition boundedReference (v : value) (label : string) : result string :=
  match v with
  | VStr s => if (s =s "") || (1024 <? String.length s)%nat
              then Throw (PolicyResolutionError (label +:+ " is invalid")) else Ok s
  | _ => Throw (PolicyResolutionError (label +:+ " is invalid"))
  end.
(** [boundedReference(value, label, true)] *)
Definition nullableReference (v : value) (label : string) : result (option string) :=
  if is_null v then Ok None else Some <$> boundedReference v label.
Definition stringArray (v : value) (label : string) (maximum : nat) : result (list string) :=
  match v with
  | VArr items =>
      _ ← throw_if (maximum <? length items)%nat (PolicyResolutionError (label +:+ " is invalid"));
      parsed ← map_result (λ item, boundedReference item label) items;
      _ ← throw_if (has_duplicates parsed) (PolicyResolutionError (label +:+ " contains duplicates"));
      Ok parsed
  | _ => Throw (PolicyResolutionError (label +:+ " is invalid"))
  end.

(** ** The request *)

Record request := MkRequest {
  organization_id : string;
  actor_type : string;
  actor_roles : list string;
  action : string;
  resource_type : string;
  resource_identifier : string;
  scope_repository : option string;
  scope_environment : string;
  scope_branch : option string;
  scope_stack : string;
  scope_capabilities : list string;
  facts : value;
  action_class : string;
}.

Definition facts_not_canonical (e : value) : value :=
  PolicyResolutionError_with "policy facts are not canonical JSON" "MANAGED_GOVERNANCE_POLICY_INVALID"
    (VObj [("cause", or_else (get "code" e) VNull)]).

Definition normalizeRequest (v : value) : result request :=
  _ ← exactKeys v ["organization_id"; "actor"; "action"; "resource"; "scope"; "facts"; "action_class"]
        "policy request";
  let actor := get "actor" v in
  let resource := get "resource" v in
  let scope := get "scope" v in
  _ ← exactKeys actor ["type"; "roles"] "policy actor";
  _ ← exactKeys resource ["type"; "identifier"] "policy resource";
  _ ← exactKeys scope ["repository"; "environment"; "branch"; "stack"; "capabilities"] "policy scope";
  _ ← throw_if (negb (has_text ACTOR_TYPES (get "type" actor)))
        (PolicyResolutionError "policy actor type is invalid");
  _ ← throw_if (negb (has_text ACTION_CLASSES (get "action_class" v)))
        (PolicyResolutionError "policy action class is invalid");
  _ ← throw_if (negb (is_record (get "facts" v)))
        (PolicyResolutionError "policy facts must be an object");
  canonicalFacts ← match canonicalize (get "facts" v) with
                   | Ok text => Ok text
                   | Throw e => Throw (facts_not_canonical e)
                   end;
  _ ← throw_if (256 * 1024 <? Z.of_nat (String.length canonicalFacts))%Z
        (PolicyResolutionError "policy facts exceed the durable evaluation limit");
  organization ← boundedIdentifier (get "organization_id" v) "organization id";
  roles ← stringArray (get "roles" actor) "actor roles" 64;
  action ← boundedIdentifier (get "action" v) "action";
  type ← boundedIdentifier (get "type" resource) "resource type";
  identifier ← boundedReference (get "identifier" resource) "resource identifier";
  repository ← nullableReference (get "repository" scope) "scope repository";
  environment ← boundedIdentifier (get "environment" scope) "scope environment";
  branch ← nullableReference (get "branch" scope) "scope branch";
  stack ← boundedIdentifier (get "stack" scope) "scope stack";
  capabilities ← stringArray (get "capabilities" scope) "scope capabilities" 256;
  Ok (MkRequest organization (str_of (get "type" actor)) roles action type identifier repository
        environment branch stack capabilities (get "facts" v) (str_of (get "action_class" v))).

(** ** Candidate rules *)

Record exception := MkException {
  exception_status : value;
  exception_evidence_ref : string;
  exception_expires_at : string;
}.
(** The rule is kept as the value the validator returns, the statuses as the candidate has them. *)
Record candidate := MkCandidate {
  rule : value;
  precedence : string;
  precedence_rank : nat;
  lifecycle_status : value;
  exception_of : option exception;
}.

Definition rule_id (r : value) : string := str_of (get "rule_id" r).
Definition effect (c : candidate) : string := str_of (get "effect" (rule c)).
Definition priority (c : candidate) : Z := int_of (get "priority" (rule c)).
Definition obligations_of (c : candidate) : list value := items_of (get "obligations" (rule c)).

Section resolver.
Context `{Sha256}.
Context (locale_le : string → string → bool) (date_parse : value → option Z).
Context (parse_rule : value → string → result value) (parse_decision : value → result value).

(** [normalizeException(value, precedence, evaluatedAt)]; [now] is
    [Date.parse(evaluatedAt)]. *)
Definition normalizeException (v : value) (precedence : string) (now : Z) :
    result (option exception) :=
  if is_null v then
    if precedence =s "approved-exception"
    then Throw (PolicyResolutionError "approved-exception rule requires verified approval evidence")
    else Ok None
  else
    _ ← exactKeys v ["status"; "evidence_ref"; "expires_at"] "policy exception";
    _ ← throw_if (negb (precedence =s "approved-exception") ||
                  negb (bool_decide (get "status" v = VStr "approved")))
          (PolicyResolutionError "only approved-exception rules may carry exception evidence");
    match date_parse (get "expires_at" v) with
    | Some expiresAt =>
        if (expiresAt <=? now)%Z
        then Throw (PolicyResolutionError "approved exception is expired or invalid")
        else
          evidence_ref ← boundedReference (get "evidence_ref" v) "exception evidence reference";
          Ok (Some (MkException (get "status" v) evidence_ref (toISOString expiresAt)))
    | None => Throw (PolicyResolutionError "approved exception is expired or invalid")
    end.

(** [PRECEDENCE.indexOf(v)], [None] for -1. *)
Definition precedence_index (v : value) : option nat :=
  match v with
  | VStr s => fst <$> list_find (λ p, p = s) PRECEDENCE
  | _ => None
  end.

Definition normalizeCandidate (now : Z) (index : nat) (v : value) : result candidate :=
  let label := "policy candidate " +:+ pretty index in
  _ ← exactKeys v ["rule"; "precedence"; "lifecycle_status"; "exception"] label;
  match precedence_index (get "precedence" v) with
  | None => Throw (PolicyResolutionError (label +:+ " has invalid precedence"))
  | Some rank =>
      _ ← throw_if (negb (bool_decide (get "lifecycle_status" v = VStr "published")))
            (PolicyResolutionError_with (label +:+ " is not published")
               "MANAGED_GOVERNANCE_POLICY_SOURCE_INVALID" (VObj []));
      rule ← parse_rule (get "rule" v) (label +:+ " rule");
      let precedence := str_of (get "precedence" v) in
      exception ← normalizeException (get "exception" v) precedence now;
      Ok (MkCandidate rule precedence rank (get "lifecycle_status" v) exception)
  end.

Definition normalizeCandidates (candidates : value) (now : Z) : result (list candidate) :=
  match candidates with
  | VArr items =>
      _ ← throw_if (256 <? length items)%nat (PolicyResolutionError "policy candidates are invalid");
      normalized ← imap_result (normalizeCandidate now) 0 items;
      _ ← throw_if (has_duplicates ((λ c, rule_id (rule c)) <$> normalized))
            (PolicyResolutionError "policy rule ids must be unique");
      Ok normalized
  | _ => Throw (PolicyResolutionError "policy candidates are invalid")
  end.

(** ** Matching *)

Fixpoint contains_star (s : string) : bool :=
  match s with EmptyString => false | String c s => Ascii.eqb c star || contains_star s end.

Definition includesOrWildcard (values : list string) (actual : option string) : bool :=
  (length values =? 0)%nat ||
  match actual with
  | None => false
  | Some actual =>
      existsb (λ candidate, (candidate =s actual) ||
                 (contains_star candidate && wildcardMatch (VStr actual) (VStr candidate))) values
  end.

(** [field.split('.')] *)
Fixpoint split_dots (s : string) : list string :=
  match s with
  | EmptyString => [""]
  | String c s =>
      if Ascii.eqb c "." then "" :: split_dots s
      else match split_dots s with
           | part :: parts => String c part :: parts
           | [] => [String c ""]
           end
  end.

Definition null_to_object : value := type_error "Cannot convert undefined or null to object".

(** The own property [k] of a value: objects have their fields, arrays and strings
    their indices and [length], other primitives nothing. *)
Definition own_property (k : string) (v : value) : result (option value) :=
  match v with
  | VUndef | VNull => Throw null_to_object
  | VObj fields => Ok (assoc k fields)
  | VArr items =>
      if k =s "length" then Ok (Some (VNum (NInt (Z.of_nat (length items)))))
      else Ok (n ← index_key k; items !! N.to_nat n)
  | VStr s =>
      if k =s "length" then Ok (Some (VNum (NInt (Z.of_nat (String.length s)))))
      else Ok (n ← index_key k; c ← String.list_ascii_of_string s !! N.to_nat n;
               Some (VStr (String c "")))
  | VBool _ | VNum _ => Ok None
  end.

(** The loop of [factAtPath]; [final] is the text of the last segment, and [None]
    is [exists: false]. *)
Fixpoint walk (final : string) (v : value) (segments : list string) : result (option value) :=
  match segments with
  | [] => Ok (Some v)
  | segment :: segments =>
      if segment ∈s ["__proto__"; "prototype"; "constructor"] then Ok None
      else
        own ← own_property segment v;
        match own with
        | None => Ok None
        | Some v =>
            if is_null v && negb (segment =s final) then Ok None else walk final v segments
        end
  end.
Definition factAtPath (facts : value) (field : string) : result (option value) :=
  let segments := split_dots field in walk (default "" (last segments)) facts segments.

Definition equalJson (left right : value) : bool :=
  match canonicalize left, canonicalize right with
  | Ok a, Ok b => a =s b
  | _, _ => false
  end.

Definition not_iterable : value := type_error "condition.value.some is not a function".

Definition conditionMatches (condition facts : value) : result bool :=
  actual ← factAtPath facts (str_of (get "field" condition));
  let wanted := get "value" condition in
  let operator := get "operator" condition in
  match actual with
  | None => Ok false
  | Some actual =>
      if bool_decide (operator = VStr "exists") then Ok true
      else if bool_decide (operator = VStr "equals") then Ok (equalJson actual wanted)
      else if bool_decide (operator = VStr "not_equals") then Ok (negb (equalJson actual wanted))
      else if bool_decide (operator = VStr "in") then
        if is_array wanted then Ok (existsb (λ v, equalJson v actual) (items_of wanted))
        else Throw not_iterable
      else if bool_decide (operator = VStr "not_in") then
        if is_array wanted then Ok (forallb (λ v, negb (equalJson v actual)) (items_of wanted))
        else Throw not_iterable
      else if bool_decide (operator = VStr "matches") then Ok (wildcardMatch actual wanted)
      else Ok false
  end.

(** [l.every((x) => f(x))] *)
Fixpoint every {A} (f : A → result bool) (l : list A) : result bool :=
  match l with
  | [] => Ok true
  | x :: l => match f x with
              | Ok true => every f l
              | Ok false => Ok false
              | Throw e => Throw e
              end
  end.

Definition scope_matches (r : value) (q : request) : bool :=
  let subject := get "subject" r in
  let resource := get "resource" r in
  let scope := get "scope" r in
  let roles := strings_of (get "roles" subject) in
  bool_decide (get "organization_id" r = VStr (organization_id q)) &&
  (actor_type q ∈s strings_of (get "actor_types" subject)) &&
  ((length roles =? 0)%nat || existsb (λ role, role ∈s actor_roles q) roles) &&
  bool_decide (get "action" r = VStr (action q)) &&
  bool_decide (get "type" resource = VStr (resource_type q)) &&
  includesOrWildcard (strings_of (get "identifiers" resource)) (Some (resource_identifier q)) &&
  includesOrWildcard (strings_of (get "organizations" scope)) (Some (organization_id q)) &&
  includesOrWildcard (strings_of (get "repositories" scope)) (scope_repository q) &&
  includesOrWildcard (strings_of (get "environments" scope)) (Some (scope_environment q)) &&
  includesOrWildcard (strings_of (get "branches" scope)) (scope_branch q) &&
  includesOrWildcard (strings_of (get "stacks" scope)) (Some (scope_stack q)) &&
  forallb (λ capability, capability ∈s scope_capabilities q) (strings_of (get "capabilities" scope)).

Definition ruleMatches (r : value) (q : request) : result bool :=
  if scope_matches r q
  then every (λ condition, conditionMatches condition (facts q)) (items_of (get "conditions" r))
  else Ok false.

(** [normalized.filter((candidate) => ruleMatches(candidate.rule, request))] *)
Fixpoint matching (q : request) (l : list candidate) : result (list candidate) :=
  match l with
  | [] => Ok []
  | c :: l => b ← ruleMatches (rule c) q; rest ← matching q l; Ok (if b : bool then c :: rest else rest)
  end.

(** ** The decision *)

Definition candidate_le (left right : candidate) : bool :=
  if (precedence_rank left <? precedence_rank right)%nat then true
  else if (precedence_rank right <? precedence_rank left)%nat then false
  else if (priority right <? priority left)%Z then true
  else if (priority left <? priority right)%Z then false
  else locale_le (rule_id (rule left)) (rule_id (rule right)).

(** The effects of the candidates of one precedence. *)
Definition level_effects (matches : list candidate) (p : string) : list string :=
  effect <$> List.filter (λ c, precedence c =s p) matches.
Definition level_conflict (matches : list candidate) (p : string) : bool :=
  let effects := level_effects matches p in
  ("allow" ∈s effects) && (("deny" ∈s effects) || ("input_required" ∈s effects)).

Definition has_effect (e : string) (l : list candidate) : bool := existsb (λ c, effect c =s e) l.
Definition is_exception (c : candidate) : bool := precedence c =s "approved-exception".
Definition needs_approval (obligation : value) : bool :=
    bool_decide (get "code" obligation = VStr OPERATIONAL_APPROVAL).

Definition decisionForMatches (matches : list candidate) (q : request) : string * string :=
  if (length matches =? 0)%nat then ("input_required", "policy.no_match")
  else
    let normal := List.filter (λ c, negb (is_exception c)) matches in
    let exceptions := List.filter is_exception matches in
    if existsb (level_conflict matches) (js_set (precedence <$> matches)) then
      (if action_class q =s "mutation" then "deny" else "input_required",
       "policy.same_precedence_conflict")
    else
      let decision := if has_effect "deny" normal then "deny"
                      else if has_effect "input_required" normal then "input_required"
                      else if has_effect "allow" normal then "allow" else "input_required" in
      let reasonCode := "policy." +:+ decision in
      let '(decision, reasonCode) :=
        if has_effect "deny" exceptions then ("deny", "policy.exception_restricts")
        else if has_effect "allow" exceptions then ("allow", "policy.approved_exception")
        else (decision, reasonCode) in
      let obligations : list value := matches ≫= obligations_of in
      if (decision =s "allow") &&
         existsb needs_approval obligations
      then ("input_required", "policy.operational_approval_required")
      else (decision, reasonCode).

(** ** The answer *)

Definition digestCanonical (v : value) : result string :=
  text ← canonicalize v; Ok ("sha256:" +:+ sha256_hex text).

Definition selectedEvidence (c : candidate) : result (list value) :=
  d ← digestCanonical (rule c);
  Ok (VObj [("code", VStr "policy.rule.selected"); ("reference", VStr ("rule:" +:+ rule_id (rule c)));
            ("digest", VStr d)]
      :: match exception_of c with
         | Some e => [VObj [("code", VStr "policy.exception.approval");
                            ("reference", VStr (exception_evidence_ref e))]]
         | None => []
         end).

(** The loops that keep the first item of every canonical text. *)
Fixpoint keep_first (seen : list string) (l : list value) : result (list value) :=
  match l with
  | [] => Ok []
  | v :: l =>
      key ← canonicalize v;
      rest ← keep_first (key :: seen) l;
      Ok (if key ∈s seen then rest else v :: rest)
  end.

Definition resolveGovernancePolicy (candidates request policyVersion releaseDigest : value)
    (evaluatedAt : option Z) : result value :=
  match evaluatedAt with
  | None => Throw (PolicyResolutionError "evaluatedAt is invalid")
  | Some now =>
      q ← normalizeRequest request;
      normalized ← normalizeCandidates candidates now;
      found ← matching q normalized;
      let matches := sort_by candidate_le found in
      let '(decision, reason_code) := decisionForMatches matches q in
      obligations ← keep_first [] (matches ≫= obligations_of);
      selected ← map_result selectedEvidence matches;
      evidence ← keep_first [] (concat selected);
      policy_version ← boundedReference policyVersion "policy version";
      parse_decision
        (VObj [("schema_version", VNum (NInt 1)); ("decision", VStr decision);
               ("reason_code", VStr reason_code); ("policy_version", VStr policy_version);
               ("release_digest", releaseDigest); ("obligations", VArr obligations);
               ("evidence", VArr evidence);
               ("warnings", VArr (if (length matches =? 0)%nat then [VStr "policy.no_match"] else []))])
  end.
End resolver.
