(* ===== verification/PolicyResolution.v ===== *)
(** * What a resolved policy guarantees

    Theorems about [PolicyResolver]: an allowed request has a rule that allows it and
    nothing in force against it, the order of the candidates is irrelevant, and
    further restrictions never grant anything. *)
From S2P Require Import Prelude JsValue CanonicalJson Time StrictJson Ledger OperationId Wildcard.
From S2P Require Import PolicyResolver.

(** ** The decision on the matching rules *)

Definition matching_effect (e : string) (exceptional : bool) (matches : list candidate) : Prop :=
  ∃ c, c ∈ matches ∧ is_exception c = exceptional ∧ effect c = e.

Lemma has_effect_part e b matches :
  has_effect e (List.filter (λ c, Bool.eqb (is_exception c) b) matches) = true ↔
  matching_effect e b matches.
Proof.
  unfold has_effect, matching_effect. rewrite existsb_true. split.
  - intros (c & [Hc Hb]%list_filter_elem & He). apply eqb_prop in Hb. bool_props. by exists c.
  - intros (c & Hc & Hb & He). exists c. split; [apply list_filter_elem; split; [done|]|].
    + rewrite Hb. apply eqb_reflx.
    + by apply String.eqb_eq.
Qed.

Lemma filter_exceptions matches :
  List.filter is_exception matches = List.filter (λ c, Bool.eqb (is_exception c) true) matches.
Proof. apply filter_ext_elem. intros c _. by destruct (is_exception c). Qed.
Lemma filter_normal matches :
  List.filter (λ c, negb (is_exception c)) matches =
  List.filter (λ c, Bool.eqb (is_exception c) false) matches.
Proof. apply filter_ext_elem. intros c _. by destruct (is_exception c). Qed.

Lemma decision_allow matches q reason :
  decisionForMatches matches q = ("allow", reason) →
  (∀ o, o ∈ matches ≫= obligations_of → needs_approval o = false) ∧
  ¬ matching_effect "deny" true matches ∧
  (matching_effect "allow" true matches ∨
   matching_effect "allow" false matches ∧ ¬ matching_effect "deny" false matches ∧
   ¬ matching_effect "input_required" false matches).
Proof.
  unfold decisionForMatches. case_if; [done|]. case_if; [by case_if|].
  rewrite filter_exceptions, filter_normal, <- !has_effect_part, !not_true_iff_false.
  set (normal := List.filter (λ c, Bool.eqb (is_exception c) false) matches).
  set (exceptions := List.filter (λ c, Bool.eqb (is_exception c) true) matches).
  destruct (has_effect "deny" exceptions) eqn:Hxd; [done|].
  assert (Hquiet : existsb needs_approval (matches ≫= obligations_of) = false →
    ∀ o, o ∈ matches ≫= obligations_of → needs_approval o = false) by apply existsb_false.
  destruct (has_effect "allow" exceptions) eqn:Hxa.
  - cbn [andb String.eqb Ascii.eqb Bool.eqb]. case_if; [done|]. intros _. split; [by apply Hquiet|]. split; [done|]. tauto.
  - destruct (has_effect "deny" normal) eqn:Hd; [done|].
    destruct (has_effect "input_required" normal) eqn:Hi; [done|].
    destruct (has_effect "allow" normal) eqn:Ha; [|done].
    cbn [andb String.eqb Ascii.eqb Bool.eqb]. case_if; [done|]. intros _. split; [by apply Hquiet|]. split; [done|]. tauto.
Qed.

Section resolution.
Context `{Sha256}.
Context (locale_le : string → string → bool) (date_parse : value → option Z).
Context (parse_rule : value → string → result value) (parse_decision : value → result value).

(** ** The candidates *)

(** What the checks say of the exception of an item and of what is kept of it: only a rule of
    the precedence of exceptions has one, it was approved and it has not expired. *)
Definition exception_in_force (now : Z) (item : value) (o : option exception) : Prop :=
  match o with
  | None => get "precedence" item ≠ VStr "approved-exception" ∧ get "exception" item = VNull
  | Some e =>
      let v := get "exception" item in
      get "precedence" item = VStr "approved-exception" ∧
      get "status" v = VStr "approved" ∧ exception_status e = get "status" v ∧
      get "evidence_ref" v = VStr (exception_evidence_ref e) ∧
      ∃ t, date_parse (get "expires_at" v) = Some t ∧ (now < t)%Z ∧ exception_expires_at e = toISOString t
  end.

(** The candidate the checks make of an item of the input. *)
Record admitted (now : Z) (item : value) (c : candidate) : Prop := {
  admitted_rule : ∃ label, parse_rule (get "rule" item) label = Ok (rule c);
  admitted_precedence : get "precedence" item = VStr (precedence c) ∧
    precedence_index (VStr (precedence c)) = Some (precedence_rank c);
  admitted_published : get "lifecycle_status" item = VStr "published" ∧
    lifecycle_status c = get "lifecycle_status" item;
  admitted_exception : exception_in_force now item (exception_of c);
}.

Lemma boundedReference_ok v label s : boundedReference v label = Ok s → v = VStr s.
Proof. destruct v; try done. cbn. case_if; [done|]. by intros [= ->]. Qed.

Lemma normalizeException_ok item p now o : get "precedence" item = VStr p →
  normalizeException date_parse (get "exception" item) p now = Ok o → exception_in_force now item o.
Proof.
  unfold normalizeException, exception_in_force. intros Hp. rewrite Hp. case_if.
  - case_if; [done|]. intros [= <-]. split; [intros [= ->]; done|]. by destruct (get "exception" item).
  - intros H0. apply bind_ok in H0 as (u & _ & H0). apply bind_ok in H0 as (u' & Hs & H0).
    apply throw_if_ok, orb_false_iff in Hs as [Hx Hs]. bool_props.
    destruct (date_parse _) as [t|] eqn:Ht; [|done]. case_if_in H0; [done|]. bool_props.
    apply bind_ok in H0 as (r & Hr & [= <-]). apply boundedReference_ok in Hr. cbn. subst p.
    split_and!; try done. by exists t.
Qed.

Lemma normalizeCandidate_ok now i item c :
  normalizeCandidate date_parse parse_rule now i item = Ok c → admitted now item c.
Proof.
  unfold normalizeCandidate. intros H0. apply bind_ok in H0 as (u & _ & H0).
  destruct (precedence_index _) as [rank|] eqn:Hr; [|done].
  apply bind_ok in H0 as (u' & Hpub & H0). apply throw_if_ok in Hpub. bool_props.
  apply bind_ok in H0 as (r & Hrule & H0). apply bind_ok in H0 as (e & He & [= <-]).
  assert (Hp : get "precedence" item = VStr (str_of (get "precedence" item))).
  { revert Hr. by destruct (get "precedence" item). }
  rewrite Hp in Hr. apply (normalizeException_ok _ _ _ _ Hp) in He.
  split; cbn; [by eexists|done..].
Qed.

Lemma normalizeCandidates_ok candidates now l :
  normalizeCandidates date_parse parse_rule candidates now = Ok l →
  ∃ items, candidates = VArr items ∧
    imap_result (normalizeCandidate date_parse parse_rule now) 0 items = Ok l ∧
    NoDup ((λ c, rule_id (rule c)) <$> l) ∧ Forall2 (admitted now) items l.
Proof.
  unfold normalizeCandidates. destruct candidates as [| | | | |items|]; try done.
  intros H0. apply bind_ok in H0 as (u & _ & H0). apply bind_ok in H0 as (l' & Hl & H0).
  apply bind_ok in H0 as (u' & Hd & [= <-]). apply throw_if_ok, has_duplicates_false in Hd.
  exists items. split_and!; try done. apply imap_result_elem in Hl. clear Hd.
  induction Hl as [|v c vs cs (j & Hc) _ IH]; constructor; [|done].
  by apply normalizeCandidate_ok in Hc.
Qed.

Lemma admitted_item now items l c : Forall2 (admitted now) items l → c ∈ l →
  ∃ item, item ∈ items ∧ admitted now item c.
Proof.
  intros HF Hc. apply list_elem_of_lookup in Hc as [i Hi]. destruct (Forall2_lookup_r _ _ _ _ _ HF Hi) as (item & Hit & Ha).
  exists item. split; [by eapply list_elem_of_lookup_2|done].
Qed.

Definition rule_applies (q : request) (c : candidate) : bool :=
  bool_decide (ruleMatches (rule c) q = Ok true).

Lemma matching_ok q l found :
  matching q l = Ok found ↔
  Forall (λ c, is_ok (ruleMatches (rule c) q) = true) l ∧ found = List.filter (rule_applies q) l.
Proof.
  revert found. induction l as [|c l IH]; intros found; simpl.
  { split; [by intros [= <-]|by intros [_ ->]]. }
  rewrite Forall_cons. unfold rule_applies at 1. destruct (ruleMatches (rule c) q) as [b|e] eqn:Hb; simpl.
  - destruct (matching q l) as [rest|e]; simpl.
    + destruct (IH rest) as [IH1 _]. destruct (IH1 eq_refl) as [Hl ->].
      destruct b; [rewrite bool_decide_eq_true_2 by done|rewrite bool_decide_eq_false_2 by done];
        split; [by intros [= <-]|by intros [_ ->]|by intros [= <-]|by intros [_ ->]].
    + split; [done|]. intros [[_ Hl] _]. destruct (IH (List.filter (rule_applies q) l)) as [_ IH2].
      discriminate IH2. done.
  - split; [done|]. by intros [[? _] _].
Qed.

Lemma resolve_ok candidates request pv rd now v :
  resolveGovernancePolicy locale_le date_parse parse_rule parse_decision candidates request pv rd
    (Some now) = Ok v →
  ∃ q normalized fields,
    normalizeRequest request = Ok q ∧
    normalizeCandidates date_parse parse_rule candidates now = Ok normalized ∧
    let matches := sort_by (candidate_le locale_le) (List.filter (rule_applies q) normalized) in
    let '(decision, reason_code) := decisionForMatches matches q in
    parse_decision (VObj (("schema_version", VNum (NInt 1)) :: ("decision", VStr decision) ::
                          ("reason_code", VStr reason_code) :: fields)) = Ok v.
Proof.
  unfold resolveGovernancePolicy. intros H0. apply bind_ok in H0 as (q & Hq & H0).
  apply bind_ok in H0 as (l & Hl & H0). apply bind_ok in H0 as (found & Hf & H0).
  apply matching_ok in Hf as [_ ->]. cbv zeta in H0.
  destruct (decisionForMatches _ _) as [d r] eqn:Hd.
  apply bind_ok in H0 as (os & _ & H0). apply bind_ok in H0 as (sel & _ & H0).
  apply bind_ok in H0 as (ev & _ & H0). apply bind_ok in H0 as (p & _ & H0).
  eexists q, l, _. split; [done|]. split; [done|]. cbv zeta. rewrite Hd. exact H0.
Qed.

(** C26: a policy answers [allow] only if every candidate of the input is published, with
    an approved exception in force exactly when its precedence is that of exceptions;
    no obligation of a matching rule asks for an operational approval; no exception
    denies; and some published item of the input has a matching rule that allows, either
    an ordinary one with no ordinary rule against it, or one with an exception whose status
    is approved and whose expiry lies after the instant of the evaluation. *)
Theorem allow_requires_grant candidates request pv rd now v :
  (∀ d w, parse_decision d = Ok w → w = d) →
  resolveGovernancePolicy locale_le date_parse parse_rule parse_decision candidates request pv rd
    (Some now) = Ok v →
  get "decision" v = VStr "allow" →
  ∃ q items normalized matches,
    normalizeRequest request = Ok q ∧ candidates = VArr items ∧
    normalizeCandidates date_parse parse_rule candidates now = Ok normalized ∧
    Forall2 (admitted now) items normalized ∧
    (∀ c, c ∈ matches ↔ c ∈ normalized ∧ ruleMatches (rule c) q = Ok true) ∧
    (∀ o, o ∈ matches ≫= obligations_of → needs_approval o = false) ∧
    ¬ matching_effect "deny" true matches ∧
    ∃ item c, item ∈ items ∧ admitted now item c ∧ c ∈ matches ∧ effect c = "allow" ∧
      get "lifecycle_status" item = VStr "published" ∧
      (is_exception c = false ∧ ¬ matching_effect "deny" false matches ∧
         ¬ matching_effect "input_required" false matches ∨
       get "status" (get "exception" item) = VStr "approved" ∧
       ∃ t, date_parse (get "expires_at" (get "exception" item)) = Some t ∧ (now < t)%Z).
Proof.
  intros Hparse Hres Hd. apply resolve_ok in Hres as (q & l & fields & Hq & Hl & Hres).
  cbv zeta in Hres. set (matches := sort_by _ _) in Hres.
  destruct (decisionForMatches matches q) as [d r] eqn:Hdec.
  apply Hparse in Hres as ->. simpl in Hd. injection Hd as ->.
  apply decision_allow in Hdec as (Hobl & Hdeny & Hgrant).
  assert (Hin : ∀ c, c ∈ matches ↔ c ∈ l ∧ ruleMatches (rule c) q = Ok true).
  { intros c. unfold matches. rewrite elem_of_sort_by, list_filter_elem. unfold rule_applies.
    by rewrite bool_decide_eq_true. }
  pose proof (normalizeCandidates_ok _ _ _ Hl) as (items & -> & _ & _ & HF).
  assert (Hitem : ∀ c, c ∈ matches → ∃ item, item ∈ items ∧ admitted now item c).
  { intros c Hc. apply (admitted_item _ _ _ _ HF), Hin, Hc. }
  exists q, items, l, matches. split_and!; try done.
  destruct Hgrant as [(c & Hc & Hx & He)|[(c & Hc & Hx & He) Hnone]];
    destruct (Hitem c Hc) as (item & Hit & Ha); exists item, c; split_and!; try apply Ha; try done; [right|by left].
  destruct Ha as [_ [Hp _] _ Hex]. unfold is_exception in Hx. bool_props. rewrite Hx in Hp.
  unfold exception_in_force in Hex. rewrite Hp in Hex. destruct (exception_of c) as [e|]; [|by destruct Hex].
  destruct Hex as (_ & Hs & _ & _ & t & Ht & Hlt & _). split; [done|by exists t].
Qed.

(** ** The order of the candidates *)

Definition label_irrelevant : Prop :=
  ∀ r l l' w, parse_rule r l = Ok w → parse_rule r l' = Ok w.

Lemma normalizeCandidate_label now i j v c :
  label_irrelevant → normalizeCandidate date_parse parse_rule now i v = Ok c →
  normalizeCandidate date_parse parse_rule now j v = Ok c.
Proof.
  intros Hlab. unfold normalizeCandidate. intros H0. apply bind_ok in H0 as (u & Hk & H0).
  apply bind_ok. exists u. split.
  { unfold exactKeys in *. apply bind_ok in Hk as (u' & Hr & Hk). apply throw_if_ok in Hr, Hk.
    rewrite Hr, Hk. by destruct u. }
  destruct (precedence_index _) as [rank|]; [|done].
  apply bind_ok in H0 as (u' & Hp & H0). apply bind_ok. exists u'.
  split; [by apply throw_if_ok; apply throw_if_ok in Hp|].
  apply bind_ok in H0 as (r & Hr & H0). apply (Hlab _ _ ("policy candidate " +:+ pretty j +:+ " rule")) in Hr.
  apply bind_ok. by exists r.
Qed.

Lemma imap_result_any {A B} (f : nat → A → result B) i l k :
  (∀ i j x y, f i x = Ok y → f j x = Ok y) →
  imap_result f i l = Ok k ↔ Forall2 (λ x y, f 0 x = Ok y) l k.
Proof.
  intros Hf. split.
  - revert i k. induction l as [|x l IH]; simpl; intros i k Hk.
    + injection Hk as <-. constructor.
    + apply bind_ok in Hk as (y & Hy & Hk). apply bind_ok in Hk as (ys & Hys & [= <-]).
      constructor; [by eapply Hf|by eapply IH].
  - intros HF. revert i. induction HF as [|x y l k Hx _ IH]; intros i; simpl; [done|].
    by rewrite (Hf _ i _ _ Hx), IH.
Qed.

Lemma Forall2_perm {A B} (P : A → B → Prop) l l' k :
  l ≡ₚ l' → Forall2 P l k → ∃ k', k ≡ₚ k' ∧ Forall2 P l' k'.
Proof.
  intros HP. revert k. induction HP as [|x l l' _ IH|x y l|l l' l'' _ IH1 _ IH2]; intros k HF.
  - inversion HF; subst. by exists [].
  - inversion HF as [|? b ? k1 Hb HF1]; subst. destruct (IH _ HF1) as (k' & Hk & HF').
    exists (b :: k'). by split; constructor.
  - inversion HF as [|? b ? k1 Hb HF1]; subst. inversion HF1 as [|? b2 ? k2 Hb2 HF2]; subst.
    exists (b2 :: b :: k2). split; [apply Permutation_swap|by repeat constructor].
  - destruct (IH1 _ HF) as (k1 & Hk1 & HF1). destruct (IH2 _ HF1) as (k2 & Hk2 & HF2).
    exists k2. by rewrite Hk1.
Qed.

Lemma normalizeCandidates_perm items items' now l :
  label_irrelevant → items ≡ₚ items' →
  normalizeCandidates date_parse parse_rule (VArr items) now = Ok l →
  ∃ l', l ≡ₚ l' ∧ normalizeCandidates date_parse parse_rule (VArr items') now = Ok l'.
Proof.
  intros Hlab HP H0. pose proof H0 as H1. apply normalizeCandidates_ok in H1 as (its & [= <-] & Hi & HN & _).
  rewrite imap_result_any in Hi by (intros; by eapply normalizeCandidate_label).
  destruct (Forall2_perm _ _ _ _ HP Hi) as (l' & Hl & Hi'). exists l'. split; [done|].
  rewrite <- (imap_result_any _ 0) in Hi' by (intros; by eapply normalizeCandidate_label).
  unfold normalizeCandidates in *. apply bind_ok in H0 as (u & Hlen & H0). rewrite <- HP, Hlen.
  cbv [mbind result_bind]. rewrite Hi'.
  rewrite (proj2 (has_duplicates_false _)); [done|]. by rewrite <- Hl.
Qed.

Lemma candidate_le_antisym x y l :
  (∀ s t, locale_le s t = true → locale_le t s = true → s = t) →
  NoDup ((λ c, rule_id (rule c)) <$> l) → x ∈ l → y ∈ l →
  candidate_le locale_le x y = true → candidate_le locale_le y x = true → x = y.
Proof.
  intros Hanti HN Hx Hy Hxy Hyx. assert (Hid : rule_id (rule x) = rule_id (rule y)).
  { unfold candidate_le in Hxy, Hyx.
    destruct (Nat.ltb_spec (precedence_rank x) (precedence_rank y));
      destruct (Nat.ltb_spec (precedence_rank y) (precedence_rank x)); try done; try lia.
    destruct (Z.ltb_spec (priority x) (priority y)); destruct (Z.ltb_spec (priority y) (priority x));
      try done; try lia. by apply Hanti. }
  apply list_elem_of_lookup in Hx as [i Hi], Hy as [j Hj].
  assert (i = j) as ->; [|congruence].
  eapply (NoDup_lookup _ i j (rule_id (rule x))); [done|by rewrite list_lookup_fmap, Hi|].
  by rewrite list_lookup_fmap, Hj, Hid.
Qed.

Lemma candidate_le_order : LebOrder locale_le → LebOrder (candidate_le locale_le).
Proof.
  intros Hle. split.
  - intros x y. unfold candidate_le.
    destruct (Nat.ltb_spec (precedence_rank x) (precedence_rank y));
      destruct (Nat.ltb_spec (precedence_rank y) (precedence_rank x)); auto.
    destruct (Z.ltb_spec (priority x) (priority y)); destruct (Z.ltb_spec (priority y) (priority x)); auto.
    apply (leb_total locale_le).
  - intros x y z. unfold candidate_le. intros Hxy Hyz.
    destruct (Nat.ltb_spec (precedence_rank x) (precedence_rank y));
    destruct (Nat.ltb_spec (precedence_rank y) (precedence_rank x)); try done; try lia;
    destruct (Nat.ltb_spec (precedence_rank y) (precedence_rank z));
    destruct (Nat.ltb_spec (precedence_rank z) (precedence_rank y)); try done; try lia;
    destruct (Nat.ltb_spec (precedence_rank x) (precedence_rank z));
    destruct (Nat.ltb_spec (precedence_rank z) (precedence_rank x)); try done; try lia.
    destruct (Z.ltb_spec (priority x) (priority y)); destruct (Z.ltb_spec (priority y) (priority x));
    try done; try lia;
    destruct (Z.ltb_spec (priority y) (priority z)); destruct (Z.ltb_spec (priority z) (priority y));
    try done; try lia;
    destruct (Z.ltb_spec (priority x) (priority z)); destruct (Z.ltb_spec (priority z) (priority x));
    try done; try lia. by apply (leb_trans locale_le _ (rule_id (rule y))).
Qed.

Lemma List_filter_perm {A} (f : A → bool) l l' : l ≡ₚ l' → List.filter f l ≡ₚ List.filter f l'.
Proof.
  induction 1 as [|x l l' _ IH|x y l|l l' l'' _ IH1 _ IH2]; simpl; [done| | |by rewrite IH1].
  - destruct (f x); [by constructor|done].
  - destruct (f x), (f y); try done. apply Permutation_swap.
Qed.

(** C40: the candidates may come in any order: when a request is resolved with them in
    one order, every other order gives the same decision, obligations and evidence. *)
Theorem resolution_order_independent items items' request pv rd now v :
  LebOrder locale_le → (∀ s t, locale_le s t = true → locale_le t s = true → s = t) →
  label_irrelevant → items ≡ₚ items' →
  resolveGovernancePolicy locale_le date_parse parse_rule parse_decision (VArr items) request pv rd
    now = Ok v →
  resolveGovernancePolicy locale_le date_parse parse_rule parse_decision (VArr items') request pv rd
    now = Ok v.
Proof.
  intros Hle Hanti Hlab HP. unfold resolveGovernancePolicy. destruct now as [now|]; [|done].
  intros H0. apply bind_ok in H0 as (q & Hq & H0). rewrite Hq. cbn [mbind result_bind].
  apply bind_ok in H0 as (l & Hl & H0). apply bind_ok in H0 as (found & Hf & H0).
  pose proof (normalizeCandidates_ok _ _ _ Hl) as (its & _ & _ & HN & _).
  destruct (normalizeCandidates_perm _ _ _ _ Hlab HP Hl) as (l' & HPl & Hl').
  apply matching_ok in Hf as [HF ->].
  assert (Hf' : matching q l' = Ok (List.filter (rule_applies q) l')).
  { apply matching_ok. split; [by rewrite <- HPl|done]. }
  apply bind_ok. exists l'. split; [done|]. apply bind_ok. eexists. split; [exact Hf'|].
  assert (Hsort : sort_by (candidate_le locale_le) (List.filter (rule_applies q) l) =
                  sort_by (candidate_le locale_le) (List.filter (rule_applies q) l')).
  { apply sort_by_unique; [by apply candidate_le_order| |by apply List_filter_perm].
    intros x y [Hx _]%list_filter_elem [Hy _]%list_filter_elem.
    by apply (candidate_le_antisym x y l). }
  by rewrite <- Hsort.
Qed.
End resolution.

(** ** Further restrictions *)

Definition conflicted (matches : list candidate) : bool :=
  existsb (level_conflict matches) (js_set (precedence <$> matches)).

Lemma elem_of_level_effects e matches p :
  (e ∈s level_effects matches p) = true ↔ ∃ c, c ∈ matches ∧ precedence c = p ∧ effect c = e.
Proof.
  rewrite includes_spec. unfold level_effects. rewrite list_elem_of_fmap. split.
  - intros (c & -> & [Hc Hp]%list_filter_elem). bool_props. by exists c.
  - intros (c & Hc & Hp & <-). exists c. split; [done|]. apply list_filter_elem.
    split; [done|]. by apply String.eqb_eq.
Qed.

Lemma conflicted_iff matches :
  conflicted matches = true ↔
  ∃ a b, a ∈ matches ∧ b ∈ matches ∧ precedence a = precedence b ∧ effect a = "allow" ∧
    (effect b = "deny" ∨ effect b = "input_required").
Proof.
  unfold conflicted, level_conflict. rewrite existsb_true. split.
  - intros (p & _ & [Ha Hb]%andb_true_iff). apply elem_of_level_effects in Ha as (a & Ha & Hpa & Hea).
    apply orb_true_iff in Hb as [Hb|Hb]; apply elem_of_level_effects in Hb as (b & Hb & Hpb & Heb);
      exists a, b; split_and!; try done; try congruence; auto.
  - intros (a & b & Ha & Hb & Hp & Hea & Heb). exists (precedence a). split.
    + apply elem_of_js_set. by apply list_elem_of_fmap_2.
    + apply andb_true_iff. split; [apply elem_of_level_effects; by exists a|].
      apply orb_true_iff. destruct Heb; [left|right]; apply elem_of_level_effects; by exists b.
Qed.

Lemma decision_allow_iff matches q :
  (decisionForMatches matches q).1 = "allow" ↔
  conflicted matches = false ∧ existsb needs_approval (matches ≫= obligations_of) = false ∧
  ¬ matching_effect "deny" true matches ∧
  (matching_effect "allow" true matches ∨
   matching_effect "allow" false matches ∧ ¬ matching_effect "deny" false matches ∧
   ¬ matching_effect "input_required" false matches).
Proof.
  unfold decisionForMatches. fold (conflicted matches).
  rewrite filter_exceptions, filter_normal, <- !has_effect_part.
  destruct (length matches =? 0)%nat eqn:Hl.
  { bool_props. apply nil_length_inv in Hl. subst. simpl. naive_solver. }
  destruct (conflicted matches); [case_if; simpl; naive_solver|].
  set (normal := List.filter (λ c, Bool.eqb (is_exception c) false) matches).
  set (exceptions := List.filter (λ c, Bool.eqb (is_exception c) true) matches).
  destruct (has_effect "deny" exceptions); [simpl; naive_solver|].
  destruct (has_effect "allow" exceptions).
  { simpl. case_if; simpl; naive_solver. }
  destruct (has_effect "deny" normal); [simpl; naive_solver|].
  destruct (has_effect "input_required" normal); [simpl; naive_solver|].
  destruct (has_effect "allow" normal); simpl; [case_if; simpl; naive_solver|naive_solver].
Qed.

Lemma decision_deny_iff matches q :
  action_class q = "mutation" →
  (decisionForMatches matches q).1 = "deny" ↔
  conflicted matches = true ∨ matching_effect "deny" true matches ∨
  ¬ matching_effect "allow" true matches ∧ matching_effect "deny" false matches.
Proof.
  intros Hq. unfold decisionForMatches. fold (conflicted matches). rewrite Hq.
  rewrite filter_exceptions, filter_normal, <- !has_effect_part.
  destruct (length matches =? 0)%nat eqn:Hl.
  { bool_props. apply nil_length_inv in Hl. subst. simpl. naive_solver. }
  destruct (conflicted matches); [simpl; naive_solver|].
  set (normal := List.filter (λ c, Bool.eqb (is_exception c) false) matches).
  set (exceptions := List.filter (λ c, Bool.eqb (is_exception c) true) matches).
  destruct (has_effect "deny" exceptions); [simpl; naive_solver|].
  destruct (has_effect "allow" exceptions).
  { simpl. case_if; simpl; naive_solver. }
  destruct (has_effect "deny" normal); [simpl; naive_solver|].
  destruct (has_effect "input_required" normal); [simpl; naive_solver|].
  destruct (has_effect "allow" normal); simpl; [case_if; simpl; naive_solver|naive_solver].
Qed.

Lemma matching_effect_cons e b c matches :
  effect c ≠ e → matching_effect e b (c :: matches) ↔ matching_effect e b matches.
Proof.
  intros Hc. split.
  - intros (x & [->|Hx]%elem_of_cons & Hb & He); [done|]. by exists x.
  - intros (x & Hx & Hb & He). exists x. split; [by right|done].
Qed.
Lemma matching_effect_mono e b c matches :
  matching_effect e b matches → matching_effect e b (c :: matches).
Proof. intros (x & Hx & Hb & He). exists x. split; [by right|done]. Qed.
Lemma conflicted_mono c matches : conflicted matches = true → conflicted (c :: matches) = true.
Proof.
  rewrite !conflicted_iff. intros (a & b & Ha & Hb & Hrest). exists a, b.
  split; [by right|]. split; [by right|done].
Qed.

(** A rule that does not allow anything. *)
Definition restricts (c : candidate) : Prop := effect c = "deny" ∨ effect c = "input_required".

(** C39: a further matching rule that denies or asks for input never turns a refusal
    into a permission, and for mutations it never lifts a denial. *)
Theorem restrictions_monotone c matches q :
  restricts c →
  ((decisionForMatches (c :: matches) q).1 = "allow" → (decisionForMatches matches q).1 = "allow") ∧
  (action_class q = "mutation" →
   (decisionForMatches matches q).1 = "deny" → (decisionForMatches (c :: matches) q).1 = "deny").
Proof.
  intros Hr. assert (Hc : effect c ≠ "allow") by (intros E; destruct Hr; congruence). split.
  - rewrite !decision_allow_iff. rewrite !(matching_effect_cons "allow") by done.
    intros (Hcon & Hobl & Hdeny & Hgrant). split.
    { apply not_true_iff_false. intros H%(conflicted_mono c). congruence. }
    split. { simpl in Hobl. rewrite existsb_app in Hobl. by bool_props. }
    split; [intros H; by apply Hdeny, matching_effect_mono|].
    destruct Hgrant as [H|(Ha & Hd & Hi)]; [by left|right]. split_and!; [done| |];
      intros H; [apply Hd|apply Hi]; by apply matching_effect_mono.
  - intros Hq. rewrite !decision_deny_iff by done. rewrite (matching_effect_cons "allow") by done.
    intros [H|[H|[Ha Hd]]].
    + left. by apply conflicted_mono.
    + right. left. by apply matching_effect_mono.
    + right. right. split; [done|]. by apply matching_effect_mono.
Qed.

(** ** Examples *)

Definition sample_policy (id effect : string) (priority : Z) : value :=
  VObj [("schema_version", VNum (NInt 1)); ("rule_id", VStr id); ("organization_id", VStr "org");
        ("subject", VObj [("actor_types", VArr [VStr "agent"]); ("roles", VArr [])]);
        ("action", VStr "write");
        ("resource", VObj [("type", VStr "repository"); ("identifiers", VArr [VStr "repo:*"])]);
        ("scope", VObj [("organizations", VArr []); ("repositories", VArr []);
                        ("environments", VArr []); ("branches", VArr []); ("stacks", VArr []);
                        ("capabilities", VArr [])]);
        ("conditions", VArr [VObj [("field", VStr "change.kind"); ("operator", VStr "equals");
                                   ("value", VStr "docs")]]);
        ("effect", VStr effect); ("priority", VNum (NInt priority)); ("obligations", VArr [])].
Definition sample_candidate (id effect precedence : string) (priority : Z) (exception : value) : value :=
  VObj [("rule", sample_policy id effect priority); ("precedence", VStr precedence);
        ("lifecycle_status", VStr "published"); ("exception", exception)].
Definition sample_exception : value :=
  VObj [("status", VStr "approved"); ("evidence_ref", VStr "approval:1");
        ("expires_at", VStr "2024-02-29T12:00:00.000Z")].
Definition sample_request (class : string) : value :=
  VObj [("organization_id", VStr "org");
        ("actor", VObj [("type", VStr "agent"); ("roles", VArr [])]); ("action", VStr "write");
        ("resource", VObj [("type", VStr "repository"); ("identifier", VStr "repo:a")]);
        ("scope", VObj [("repository", VNull); ("environment", VStr "prod"); ("branch", VNull);
                        ("stack", VStr "node"); ("capabilities", VArr [])]);
        ("facts", VObj [("change", VObj [("kind", VStr "docs")])]); ("action_class", VStr class)].
(** [Date.parse] on canonical texts. *)
Definition parse_canonical (v : value) : option Z :=
  if is_string v && is_canonical_timestamp (str_of v) then Some (time_of (str_of v)) else None.
Definition accept (v : value) : result value := Ok v.
Definition sample_resolve (candidates : list value) : result value :=
  @resolveGovernancePolicy sample_sha256 String.leb parse_canonical (λ v _, Ok v) accept
    (VArr candidates) (sample_request "mutation") (VStr "v1") VNull (Some 1700000000000%Z).

(** A denial of the organisation, overridden by an approved exception. *)
Definition sample_candidates : list value :=
  [sample_candidate "deny-writes" "deny" "organization-policy" 10 VNull;
   sample_candidate "allow-docs" "allow" "approved-exception" 5 sample_exception].
Definition sample_decision : value :=
  match sample_resolve sample_candidates with Ok v => v | Throw e => e end.

Lemma sample_resolved : sample_resolve sample_candidates = Ok sample_decision.
Proof. vm_compute. reflexivity. Qed.

Lemma allow_requires_grant_witness :
  get "decision" sample_decision = VStr "allow" ∧
  ∃ matches item c, item ∈ sample_candidates ∧ c ∈ matches ∧ effect c = "allow" ∧
    get "lifecycle_status" item = VStr "published" ∧
    (is_exception c = false ∧ ¬ matching_effect "deny" false matches ∧
       ¬ matching_effect "input_required" false matches ∨
     get "status" (get "exception" item) = VStr "approved" ∧
     ∃ t, parse_canonical (get "expires_at" (get "exception" item)) = Some t ∧ (1700000000000 < t)%Z).
Proof.
  assert (Hd : get "decision" sample_decision = VStr "allow") by (vm_compute; reflexivity).
  split; [exact Hd|].
  destruct (@allow_requires_grant sample_sha256 String.leb parse_canonical (λ v _, Ok v) accept
    (VArr sample_candidates) (sample_request "mutation") (VStr "v1") VNull 1700000000000 sample_decision)
    as (q & items & l & matches & _ & Hi & _ & _ & _ & _ & _ & item & c & H1 & _ & H2).
  - intros d w [= <-]. reflexivity.
  - exact sample_resolved.
  - exact Hd.
  - injection Hi as <-. exists matches, item, c. exact (conj H1 H2).
Defined.

Lemma resolution_order_independent_witness :
  sample_resolve (reverse sample_candidates) = Ok sample_decision.
Proof.
  apply (@resolution_order_independent sample_sha256 String.leb parse_canonical (λ v _, Ok v) accept
    sample_candidates).
  - apply string_leb_order.
  - intros s t. apply string_leb_antisym.
  - intros r l l' w Hw. exact Hw.
  - symmetry. apply reverse_Permutation.
  - exact sample_resolved.
Defined.

Definition plain_candidate (effect precedence : string) : candidate :=
  MkCandidate (VObj [("effect", VStr effect)]) precedence 0 (VStr "published") None.
Definition read_request : request :=
  MkRequest "org" "agent" [] "read" "repository" "repo:a" None "prod" None "node" [] (VObj []) "read".
Definition mutation_request : request :=
  MkRequest "org" "agent" [] "write" "repository" "repo:a" None "prod" None "node" [] (VObj []) "mutation".
Definition disputed : list candidate :=
  [plain_candidate "deny" "constitution"; plain_candidate "allow" "environment"].

Lemma restrictions_monotone_witness :
  (decisionForMatches (plain_candidate "deny" "environment" :: disputed) mutation_request).1 = "deny".
Proof.
  apply (restrictions_monotone (plain_candidate "deny" "environment") disputed mutation_request).
  - left. reflexivity.
  - reflexivity.
  - vm_compute. reflexivity.
Defined.

(** For a read the same further denial turns a denial into a question. *)
Lemma read_conflict_softens :
  decisionForMatches disputed read_request = ("deny", "policy.deny") ∧
  decisionForMatches (plain_candidate "deny" "environment" :: disputed) read_request =
    ("input_required", "policy.same_precedence_conflict").
Proof. vm_compute. done. Qed.

(** A [null] fact reached by a path that ends in the same name is dereferenced. *)
Lemma null_segment_throws condition :
  get "field" condition = VStr "a.a" →
  conditionMatches condition (VObj [("a", VNull)]) = Throw null_to_object ∧
  factAtPath (VObj [("a", VNull)]) "a.b" = Ok None.
Proof. intros Hf. unfold conditionMatches. rewrite Hf. done. Qed.
