(* ===== verification/JsonParse.v ===== *)
(** * [JSON.parse]

    The parser the session store and the compaction contracts call on tool
    arguments and tool results.  A literal that is not a safe integer is rounded to
    a double: [nearest m e] is the number nearest to [m * 10^e], an argument.
    Escapes of characters outside of ASCII have no counterpart among the strings of
    the model and are refused.

    The parser reads back what [JSON.stringify] writes, up to the order in which
    objects list their keys. *)
From S2P Require Import Prelude JsValue CanonicalJson.

(** ** Tokens *)

Definition blank (c : ascii) : bool :=
  let n := Ascii.N_of_ascii c in (n =? 32)%N || (n =? 9)%N || (n =? 10)%N || (n =? 13)%N.
Fixpoint skip (s : string) : string :=
  match s with
  | String c rest => if blank c then skip rest else s
  | EmptyString => s
  end.

Definition hex_value (c : ascii) : option N :=
  let n := Ascii.N_of_ascii c in
  if (48 <=? n)%N && (n <=? 57)%N then Some (n - 48)%N
  else if (97 <=? n)%N && (n <=? 102)%N then Some (n - 87)%N
  else if (65 <=? n)%N && (n <=? 70)%N then Some (n - 55)%N else None.

(** The character of a [\uXXXX] escape. *)
Definition unicode_char (a b c d : ascii) : option ascii :=
  w ← hex_value a; x ← hex_value b; y ← hex_value c; z ← hex_value d;
  let n := (((w * 16 + x) * 16 + y) * 16 + z)%N in
  if (n <? 128)%N then Some (Ascii.ascii_of_N n) else None.

Definition escaped (e : ascii) : option ascii :=
  let n := Ascii.N_of_ascii e in
  if (n =? 34)%N || (n =? 92)%N || (n =? 47)%N then Some e
  else if Ascii.eqb e "b" then Some "008"%char else if Ascii.eqb e "f" then Some "012"%char
  else if Ascii.eqb e "n" then Some "010"%char else if Ascii.eqb e "r" then Some "013"%char
  else if Ascii.eqb e "t" then Some "009"%char else None.

Definition prepend (c : ascii) (r : option (string * string)) : option (string * string) :=
  '(s, rest) ← r; Some (String c s, rest).

(** A string literal after its opening quote. *)
Fixpoint read_string (s : string) : option (string * string) :=
  match s with
  | EmptyString => None
  | String c s1 =>
      let n := Ascii.N_of_ascii c in
      if (n =? 34)%N then Some ("", s1)
      else if (n <? 32)%N then None
      else if (n =? 92)%N then
        match s1 with
        | String e s2 =>
            if Ascii.eqb e "u" then
              match s2 with
              | String h1 (String h2 (String h3 (String h4 s3))) =>
                  ch ← unicode_char h1 h2 h3 h4; prepend ch (read_string s3)
              | _ => None
              end
            else ch ← escaped e; prepend ch (read_string s2)
        | EmptyString => None
        end
      else prepend c (read_string s1)
  end.

(** ** Numbers *)

Definition number_char (c : ascii) : bool :=
  numeral c || Ascii.eqb c "+" || Ascii.eqb c "." || Ascii.eqb c "e" || Ascii.eqb c "E".
(** The longest prefix of characters that satisfy [f]. *)
Fixpoint span (f : ascii → bool) (s : string) : string * string :=
  match s with
  | String c rest =>
      if f c then let '(a, b) := span f rest in (String c a, b) else ("", s)
  | EmptyString => ("", "")
  end.
Definition is_digit (c : ascii) : bool := bool_decide (is_Some (ascii_digit c)).

(** The digits of an integer part: no leading zero. *)
Definition integer_part (s : string) : option N :=
  match s with
  | EmptyString => None
  | String c rest =>
      if Ascii.eqb c "0" && negb (rest =s "") then None else decimal_value 0 s
  end.

Definition sign_of (token : string) : bool * string :=
  match token with
  | String c s => if Ascii.eqb c "-" then (true, s) else (false, token)
  | EmptyString => (false, token)
  end.
(** The fraction, what follows it, and whether there was a point. *)
Definition fraction_of (s : string) : string * string * bool :=
  match s with
  | String c s1 =>
      if Ascii.eqb c "." then let '(f, r) := span is_digit s1 in (f, r, true) else ("", s, false)
  | EmptyString => ("", s, false)
  end.
(** What follows [close], the next character. *)
Definition closed (close : ascii) (s : string) : option string :=
  match skip s with
  | String c r => if Ascii.eqb c close then Some r else None
  | EmptyString => None
  end.

Section numbers.
Context (nearest : Z → Z → number).

Definition exponent_part (s : string) : option Z :=
  match s with
  | EmptyString => Some 0%Z
  | String c s =>
      if Ascii.eqb c "e" || Ascii.eqb c "E" then
        match s with
        | String sign digits =>
            if Ascii.eqb sign "-" then (if digits =s "" then None else Z.opp ∘ Z.of_N <$> decimal_value 0 digits)
            else if Ascii.eqb sign "+" then (if digits =s "" then None else Z.of_N <$> decimal_value 0 digits)
            else Z.of_N <$> decimal_value 0 s
        | EmptyString => None
        end
      else None
  end.

Definition read_number (token : string) : option number :=
  let '(negative, s) := sign_of token in
  let '(whole, s) := span is_digit s in
  n ← integer_part whole;
  let '(fraction, s, dotted) := fraction_of s in
  if dotted && (fraction =s "") then None
  else
    m ← decimal_value n fraction;
    e ← exponent_part s;
    let sign := if negative : bool then (-1)%Z else 1%Z in
    Some (if (fraction =s "") && (e =? 0)%Z && (Z.of_N m <=? MAX_SAFE_INTEGER)%Z then
            if negative && (m =? 0)%N then NNegZero else NInt (sign * Z.of_N m)
          else nearest (sign * Z.of_N m) (e - Z.of_nat (String.length fraction))).

(** ** Values *)

(** Items separated by commas, up to the closing bracket; at least one. *)
Fixpoint separated {A} (item : string → option (A * string)) (close : ascii) (fuel : nat) (s : string) :
    option (list A * string) :=
  match fuel with
  | O => None
  | S fuel =>
      '(x, s) ← item s;
      match skip s with
      | String c s =>
          if Ascii.eqb c "," then '(l, s) ← separated item close fuel s; Some (x :: l, s)
          else if Ascii.eqb c close then Some ([x], s) else None
      | EmptyString => None
      end
  end.

Definition member (value_at : string → option (value * string)) (s : string) :
    option ((string * value) * string) :=
  match skip s with
  | String q s =>
      if Ascii.eqb q (Ascii.ascii_of_N 34) then
        '(k, s) ← read_string s;
        match skip s with
        | String c s => if Ascii.eqb c ":" then '(v, s) ← value_at s; Some ((k, v), s) else None
        | EmptyString => None
        end
      else None
  | EmptyString => None
  end.

Fixpoint starts_with (word s : string) : option string :=
  match word, s with
  | EmptyString, _ => Some s
  | String a word, String b s => if Ascii.eqb a b then starts_with word s else None
  | _, EmptyString => None
  end.

Fixpoint parse_value (fuel : nat) (s : string) : option (value * string) :=
  match fuel with
  | O => None
  | S fuel =>
      let s := skip s in
      match s with
      | EmptyString => None
      | String c rest =>
          if Ascii.eqb c (Ascii.ascii_of_N 34) then '(t, r) ← read_string rest; Some (VStr t, r)
          else if Ascii.eqb c "[" then
            match closed "]" rest with
            | Some r => Some (VArr [], r)
            | None => '(l, r) ← separated (parse_value fuel) "]" fuel rest; Some (VArr l, r)
            end
          else if Ascii.eqb c "{" then
            match closed "}" rest with
            | Some r => Some (VObj [], r)
            | None => '(l, r) ← separated (member (parse_value fuel)) "}" fuel rest; Some (from_entries l, r)
            end
          else if Ascii.eqb c "n" then r ← starts_with "null" s; Some (VNull, r)
          else if Ascii.eqb c "t" then r ← starts_with "true" s; Some (VBool true, r)
          else if Ascii.eqb c "f" then r ← starts_with "false" s; Some (VBool false, r)
          else let '(token, r) := span number_char s in n ← read_number token; Some (VNum n, r)
      end
  end.

(** [JSON.parse(s)]; [None] is a [SyntaxError]. *)
Definition json_parse (s : string) : option value :=
  '(v, r) ← parse_value (S (String.length s)) s;
  if skip r =s "" then Some v else None.
End numbers.

Example json_parse_examples :
  json_parse (λ _ _, NNaN) (" { " +:+ quote "b" +:+ " : [1, -20 , true,null] , " +:+ quote "a" +:+ ":{}}")
    = Some (VObj [("b", VArr [VNum (NInt 1); VNum (NInt (-20)); VBool true; VNull]); ("a", VObj [])]) ∧
  json_parse (λ _ _, NNaN) "[01]" = None ∧ json_parse (λ _ _, NNaN) "[1,]" = None ∧
  json_parse (λ _ _, NNaN) "1.5e3" = Some (VNum NNaN) ∧ json_parse (λ _ _, NNaN) "nul" = None.
Proof. vm_compute. done. Qed.

(** ** Reading back what [JSON.stringify] writes *)

Lemma read_string_char c t : read_string (escape_char c +:+ t) = prepend c (read_string t).
Proof. destruct c as [[] [] [] [] [] [] [] []]; reflexivity. Qed.

Lemma read_string_escape s r : read_string (escape s +:+ quote_mark +:+ r) = Some (s, r).
Proof.
  induction s as [|c s IH]; [reflexivity|]. cbn [escape].
  by rewrite app_assoc_s, read_string_char, IH.
Qed.

Definition stops (f : ascii → bool) (r : string) : Prop :=
  match r with EmptyString => True | String c _ => f c = false end.

Lemma span_app f s r : all_chars f s = true → stops f r → span f (s +:+ r) = (s, r).
Proof.
  intros Hs Hr. induction s as [|c s IH].
  - change ("" +:+ r) with r. destruct r as [|c r]; [done|]. simpl in *. by rewrite Hr.
  - rewrite app_String. cbn [span all_chars] in *. bool_props.
    match goal with H : f c = true |- _ => rewrite H end. by rewrite IH.
Qed.

Lemma delimiter_number_char c : delimiter c = true → number_char c = false.
Proof. destruct c as [[] [] [] [] [] [] [] []]; vm_compute; congruence. Qed.
Lemma delimited_stops r : delimited r → stops number_char r.
Proof. destruct r; [done|]. apply delimiter_number_char. Qed.

Lemma all_chars_digits x s :
  all_chars is_digit s = true → all_chars is_digit (pretty_N_go x s) = true.
Proof.
  revert s. induction (N.lt_wf_0 x) as [x _ IH]; intros s Hs.
  destruct (decide (x = 0)%N) as [->|]; [by rewrite pretty_N_go_0|].
  rewrite pretty_N_go_step by lia. apply IH; [apply N.div_lt; lia|]. cbn [all_chars]. rewrite Hs.
  unfold is_digit. by rewrite digit_char by (apply N.mod_lt; lia).
Qed.

Lemma pretty_N_head x s : x ≠ 0%N →
  ∃ c t, pretty_N_go x s = String c t ∧ Ascii.eqb c "0" = false.
Proof.
  revert s. induction (N.lt_wf_0 x) as [x _ IH]; intros s Hx. rewrite pretty_N_go_step by lia.
  destruct (decide (x / 10 = 0)%N) as [E|E].
  - rewrite E, pretty_N_go_0. eexists _, _. split; [reflexivity|].
    assert (x < 10)%N by (apply N.div_small_iff in E; lia). rewrite N.mod_small by done.
    assert (x = 1 ∨ x = 2 ∨ x = 3 ∨ x = 4 ∨ x = 5 ∨ x = 6 ∨ x = 7 ∨ x = 8 ∨ x = 9)%N as Hc by lia.
    by repeat destruct Hc as [->|Hc]; subst.
  - apply IH; [apply N.div_lt; lia|done].
Qed.

Lemma app_nil_r_s s : s +:+ "" = s.
Proof. induction s; [done|]. by apply (f_equal (String a)). Qed.

Lemma span_all f s : all_chars f s = true → span f s = (s, "").
Proof. intros Hs. rewrite <- (app_nil_r_s s) at 1. by apply span_app. Qed.

Lemma pretty_Z_digits (p : positive) :
  let digits := pretty_N_go (Npos p) "" in
  pretty (Zpos p) = digits ∧ pretty (Zneg p) = String "-" digits ∧
  all_chars is_digit digits = true ∧ integer_part digits = Some (Npos p).
Proof.
  intros digits. assert (Hp : pretty (Zpos p) = digits ∧ pretty (Zneg p) = String "-" digits).
  { unfold pretty, pretty_Z, pretty, pretty_positive, pretty, pretty_N.
    by rewrite decide_False by done. }
  destruct Hp as [Hp Hn]. split_and!; [done|done|by apply all_chars_digits|].
  destruct (pretty_N_head (Npos p) "" ltac:(done)) as (c & t & E & Hc).
  fold digits in E. unfold integer_part. rewrite E, Hc. cbn [andb]. rewrite <- E.
  unfold digits. by rewrite decimal_pretty_go.
Qed.

Section roundtrip.
Context (nearest : Z → Z → number).

Lemma read_number_pretty (z : Z) : (Z.abs z <=? MAX_SAFE_INTEGER)%Z = true →
  read_number nearest (pretty z) = Some (NInt z).
Proof.
  intros Hz. destruct z as [|p|p]; [done| |]; destruct (pretty_Z_digits p) as (Hp & Hn & Hd & Hi).
  - rewrite Hp. unfold read_number. assert (Hsign : sign_of (pretty_N_go (Npos p) "") = (false, pretty_N_go (Npos p) "")).
    { unfold sign_of. destruct (pretty_N_go (Npos p) "") as [|c t]; [done|]. simpl in Hd. bool_props.
      destruct (Ascii.eqb_spec c "-") as [->|]; done. }
    rewrite Hsign, span_all by done. rewrite Hi. cbn -[Z.leb MAX_SAFE_INTEGER].
    change (Z.abs _) with (Z.pos p) in Hz. by rewrite Hz.
  - rewrite Hn. unfold read_number. cbn [sign_of Ascii.eqb Bool.eqb]. rewrite span_all by done.
    rewrite Hi. cbn -[Z.leb MAX_SAFE_INTEGER].
    change (Z.abs _) with (Z.pos p) in Hz. by rewrite Hz.
Qed.

(** The value [JSON.parse] rebuilds: every object has its keys in enumeration order. *)
Fixpoint rebuilt (v : value) : value :=
  match v with
  | VArr items => VArr (rebuilt <$> items)
  | VObj fields => from_entries ((λ kv, (kv.1, rebuilt kv.2)) <$> fields)
  | _ => v
  end.

Definition reads {A} (item : string → option (A * string)) (t : string) (x : A) : Prop :=
  ∀ r, delimited r → item (t +:+ r) = Some (x, r).

Lemma skip_delimited_head (c : ascii) r : delimiter c = true → skip (String c r) = String c r.
Proof. destruct c as [[] [] [] [] [] [] [] []]; vm_compute; congruence. Qed.

Lemma separated_reads {A} (item : string → option (A * string)) (close : ascii) fuel :
  delimiter close = true → close ≠ ","%char →
  ∀ (ts : list string) (xs : list A), Forall2 (reads item) ts xs → ts ≠ [] → length ts ≤ fuel →
  ∀ r, separated item close fuel (String.concat "," ts +:+ String close r) = Some (xs, r).
Proof.
  intros Hd Hc ts. revert fuel. induction ts as [|t ts IH]; intros fuel xs HF Hne Hf r; [done|].
  inversion HF as [|? x ? xs' Hx HF']; subst. destruct fuel as [|fuel]; [simpl in Hf; lia|].
  rewrite concat_cons, app_assoc_s. cbn [separated].
  rewrite Hx by (by apply tail_delimited). cbn [mbind option_bind].
  destruct ts as [|t' ts].
  - inversion HF'; subst. cbn [tail_text]. rewrite app_nil_s, skip_delimited_head by done.
    destruct (Ascii.eqb_spec close ",") as [|_]; [done|]. by rewrite Ascii.eqb_refl.
  - cbn [tail_text]. rewrite !app_assoc_s, !app_String, app_nil_s.
    rewrite skip_delimited_head by done. cbn [Ascii.eqb Bool.eqb].
    change (t' +:+ tail_text ts +:+ String close r) with (t' +:+ (tail_text ts +:+ String close r)).
    rewrite <- app_assoc_s, <- concat_cons. rewrite (IH fuel xs'); [done|done|done|simpl in *; lia].
Qed.

Lemma head_kind_plain c : head_kind c ≠ 0 →
  blank c = false ∧ Ascii.eqb c "]" = false ∧ Ascii.eqb c "}" = false.
Proof. destruct c as [[] [] [] [] [] [] [] []]; vm_compute; repeat split; congruence. Qed.

Lemma numeral_dispatch c : numeral c = true →
  Ascii.eqb c (Ascii.ascii_of_N 34) = false ∧ Ascii.eqb c "[" = false ∧ Ascii.eqb c "{" = false ∧
  Ascii.eqb c "n" = false ∧ Ascii.eqb c "t" = false ∧ Ascii.eqb c "f" = false ∧ blank c = false.
Proof. destruct c as [[] [] [] [] [] [] [] []]; vm_compute; repeat split; congruence. Qed.

Lemma skip_head c s : blank c = false → skip (String c s) = String c s.
Proof. intros H. simpl. by rewrite H. Qed.

Lemma length_text_app s t : String.length (s +:+ t) = (String.length s + String.length t)%nat.
Proof. induction s as [|c s IH]; [done|]. rewrite app_String. simpl. by rewrite IH. Qed.

Lemma length_tail_text (ts : list string) t :
  length ts ≤ String.length (tail_text ts) ∧
  (t ∈ ts → String.length t < String.length (tail_text ts)).
Proof.
  induction ts as [|u ts [IHl IHt]]; [split; [done|]; by intros ?%not_elem_of_nil|].
  cbn [tail_text]. rewrite !length_text_app. simpl. split; [lia|].
  intros [->|Hin]%elem_of_cons; [lia|]. specialize (IHt Hin). lia.
Qed.
Lemma length_concat_text (ts : list string) t :
  length ts ≤ S (String.length (String.concat "," ts)) ∧
  (t ∈ ts → String.length t ≤ String.length (String.concat "," ts)).
Proof.
  destruct ts as [|u ts]; [split; [simpl; lia|]; by intros ?%not_elem_of_nil|].
  rewrite concat_cons, length_text_app. destruct (length_tail_text ts t) as [Hl Ht]. simpl.
  split; [lia|]. intros [->|Hin]%elem_of_cons; [lia|]. specialize (Ht Hin). lia.
Qed.

Lemma closed_none (close : ascii) c s :
  blank c = false → Ascii.eqb c close = false → closed close (String c s) = None.
Proof. intros Hb Hc. unfold closed. rewrite skip_head by done. by rewrite Hc. Qed.

Lemma parse_value_text v : plain v = true → ∀ fuel r, String.length (text v) < fuel → delimited r →
  parse_value nearest fuel (text v +:+ r) = Some (rebuilt v, r).
Proof.
  induction v as [| |b|n|s|l IH|f IH] using value_ind'; intros Hp fuel r Hf Hr;
    (destruct fuel as [|fuel]; [lia|]); try done; cbn [parse_value].
  - by destruct b.
  - destruct (plain_integer n Hp) as (z & -> & Ht). rewrite Ht.
    pose proof (pretty_numeral z) as Hn. pose proof (pretty_Z_nonempty z) as He.
    assert (Hs : all_chars number_char (pretty z) = true).
    { clear -Hn. induction (pretty z) as [|c s IH]; [done|]. simpl in *. bool_props.
      rewrite IH by done. unfold number_char. by match goal with H : numeral c = true |- _ => rewrite H end. }
    pose proof (span_app number_char (pretty z) r Hs (delimited_stops r Hr)) as Hspan.
    pose proof (read_number_pretty z Hp) as Hread.
    destruct (pretty z) as [|c s] eqn:Hz; [done|]. simpl in Hn. bool_props.
    destruct (numeral_dispatch c) as (H1 & H2 & H3 & H4 & H5 & H6 & H7); [done|].
    rewrite app_String in *. rewrite skip_head by done. rewrite H1, H2, H3, H4, H5, H6, Hspan.
    cbn [mbind option_bind]. by rewrite Hread.
  - simpl text. unfold quote. rewrite !app_assoc_s. unfold quote_mark at 1. rewrite app_String, app_nil_s.
    rewrite skip_head by done. cbn [Ascii.ascii_of_N Ascii.eqb Bool.eqb].
    rewrite read_string_escape. done.
  - simpl in Hp. rewrite forallb_true, <- Forall_forall in Hp.
    simpl text in *. unfold brackets in *. rewrite !length_text_app in Hf. simpl in Hf.
    rewrite !app_assoc_s, !app_String, !app_nil_s.
    rewrite skip_head by done. cbn [Ascii.ascii_of_N Ascii.eqb Bool.eqb].
    destruct l as [|v l]; [done|].
    assert (Hnone : closed "]" (String.concat "," (text <$> v :: l) +:+ String "]" r) = None).
    { cbn [fmap list_fmap]. rewrite concat_cons. apply Forall_cons in Hp as [Hv _].
      destruct (text_head v Hv) as (c & t & -> & Hk & Hne). rewrite !app_String.
      destruct (head_kind_plain c) as (Hb & Hc & _); [congruence|]. by apply closed_none. }
    rewrite Hnone.
    rewrite (separated_reads (parse_value nearest fuel) "]" fuel eq_refl ltac:(done) (text <$> v :: l) (rebuilt <$> v :: l)); [done| |done|].
    + apply Forall2_fmap_2, Forall2_same_length_lookup_2; [done|]. intros i x y Hx Hy. simplify_eq.
      intros r' Hr'. rewrite Forall_forall in IH, Hp.
      assert (Hin : x ∈ v :: l) by by eapply list_elem_of_lookup_2.
      apply IH; [done|by apply Hp| |done].
      destruct (length_concat_text (text <$> v :: l) (text x)) as [_ Hl].
      specialize (Hl (list_elem_of_fmap_2 _ _ _ Hin)). lia.
    + destruct (length_concat_text (text <$> v :: l) "") as [Hl _]. lia.
  - simpl in Hp. apply andb_true_iff in Hp as [_ Hp]. rewrite forallb_true, <- Forall_forall in Hp.
    rewrite braces_text in *. rewrite !length_text_app in Hf. simpl in Hf.
    rewrite !app_assoc_s, !app_String, !app_nil_s.
    rewrite skip_head by done. cbn [Ascii.ascii_of_N Ascii.eqb Bool.eqb].
    destruct f as [|[k v] f]; [done|].
    assert (Hnone : closed "}" (String.concat "," (member_text <$> (k, v) :: f) +:+ String "}" r) = None).
    { cbn [fmap list_fmap]. rewrite concat_cons. reflexivity. }
    rewrite Hnone.
    rewrite (separated_reads (member (parse_value nearest fuel)) "}" fuel eq_refl ltac:(done) (member_text <$> (k, v) :: f)
      ((λ kv, (kv.1, rebuilt kv.2)) <$> (k, v) :: f)); [done| |done|].
    + apply Forall2_fmap_2, Forall2_same_length_lookup_2; [done|]. intros i x y Hx Hy. simplify_eq.
      intros r' Hr'. rewrite Forall_forall in *.
      assert (Hin : x ∈ (k, v) :: f) by by eapply list_elem_of_lookup_2.
      destruct (length_concat_text (member_text <$> (k, v) :: f) (member_text x)) as [_ Hl].
      specialize (Hl (list_elem_of_fmap_2 _ _ _ Hin)). destruct x as [kx vx]. cbn [fst snd].
      assert (Hlen : String.length (text vx) ≤ String.length (member_text (kx, vx))).
      { unfold member_text. rewrite !length_text_app. simpl. lia. }
      unfold member_text at 1, quote. cbn [fst snd]. rewrite !app_assoc_s. unfold member, quote_mark at 1. rewrite app_String, app_nil_s.
      rewrite skip_head by done. cbn [Ascii.ascii_of_N Ascii.eqb Bool.eqb].
      rewrite read_string_escape. cbn [mbind option_bind].
      rewrite app_String, app_nil_s, skip_head by done. cbn [Ascii.eqb Bool.eqb].
      rewrite (IH (kx, vx)); [done|done| |cbn [snd]; lia|done]. by apply (Hp (kx, vx)).
    + destruct (length_concat_text (member_text <$> (k, v) :: f) "") as [Hl _]. lia.
Qed.

Lemma json_parse_text v : plain v = true → json_parse nearest (text v) = Some (rebuilt v).
Proof.
  intros Hp. unfold json_parse. rewrite <- (app_nil_r_s (text v)) at 2.
  rewrite parse_value_text; [done|done|lia|done].
Qed.

Lemma rebuilt_eq v : plain v = true → json_eq v (rebuilt v).
Proof.
  induction v as [| |b|n|s|l IH|f IH] using value_ind'; intros Hp; try done; try by constructor.
  - apply plain_array in Hp. constructor. rewrite Forall_forall in *.
    apply Forall2_fmap_r, Forall2_same_length_lookup_2; [done|]. intros i x y Hx Hy. simplify_eq.
    apply list_elem_of_lookup_2 in Hx. auto.
  - apply plain_object in Hp as [HN Hp]. cbn [rebuilt].
    destruct (from_entries_NoDup ((λ kv, (kv.1, rebuilt kv.2)) <$> f)) as (g & -> & Hg).
    { by rewrite keys_map_values. }
    eapply json_eq_object; [|exact Hg].
    rewrite Forall_forall in *. apply Forall2_fmap_r, Forall2_same_length_lookup_2; [done|].
    intros i [k x] y Hx Hy. simplify_eq. apply list_elem_of_lookup_2 in Hx. split; [done|].
    apply (IH _ Hx), (Hp _ Hx).
Qed.

Lemma sort_keys_idemp v : sort_keys (sort_keys v) = sort_keys v.
Proof.
  induction v as [| |b|n|s|l IH|f IH] using value_ind'; try done; cbn [sort_keys].
  - f_equal. rewrite <- list_fmap_compose. by apply Forall_fmap_ext_eq.
  - f_equal. rewrite <- !sort_map_values, sort_by_idemp by apply key_le_order. f_equal. rewrite <- list_fmap_compose.
    apply Forall_fmap_ext_eq. eapply Forall_impl; [exact IH|]. intros [k x] E. cbn in *. by rewrite E.
Qed.

(** [JSON.parse] reads back what [JSON.stringify] and [canonicalJson] write for a
    plain value: the same value, up to the order in which objects list their keys. *)
Theorem json_round_trip v :
  plain v = true →
  (∃ t w, json_stringify v = Some t ∧ json_parse nearest t = Some w ∧ json_eq v w) ∧
  ∃ t w, canonical_json v = Some t ∧ json_parse nearest t = Some w ∧ json_eq v w.
Proof.
  intros Hp. pose proof (sort_keys_plain v Hp) as Hs. split.
  - exists (text v), (rebuilt v). rewrite stringify_text, json_parse_text by done.
    split_and!; [done..|by apply rebuilt_eq].
  - exists (text (sort_keys v)), (rebuilt (sort_keys v)).
    rewrite canonical_text, json_parse_text by done. split_and!; [done..|].
    apply sort_keys_json_eq. rewrite <- (json_eq_sort_keys _ _ Hs (rebuilt_eq _ Hs)).
    by rewrite sort_keys_idemp.
Qed.
End roundtrip.

Lemma json_round_trip_witness :
  (∃ t w, json_stringify sample_json = Some t ∧ json_parse (λ _ _, NNaN) t = Some w ∧ json_eq sample_json w) ∧
  ∃ t w, canonical_json sample_json = Some t ∧ json_parse (λ _ _, NNaN) t = Some w ∧ json_eq sample_json w.
Proof. apply (json_round_trip (λ _ _, NNaN)). apply sample_plain. Defined.
