(* ===== verification/SessionState.v ===== *)
(** * The state of a replayed session (packages/agent-session-store/replay.js)

    The records the reducer builds from the durable events of a session.

    Events, specifications, requests, messages and outcomes stay values; the objects
    the reducer mutates are records.  A tool execution is one object reachable from
    its turn and from the session: the turn keeps its invocation identifier. *)
From S2P Require Import Prelude JsValue CanonicalJson JsMap StrictJson Ledger OperationId JsonParse.

(** ** Errors and texts *)

Definition SessionReplayError_with (message code : string) (details : value) : value :=
  error_with "SessionReplayError" message code details.
Definition SessionReplayError (message code : string) : value :=
  SessionReplayError_with message code (VObj []).

Definition text_of (k : string) (v : value) : string := str_of (get k v).
Definition number_at (k : string) (v : value) : Z := int_of (get k v).
Definition list_at (k : string) (v : value) : list value := items_of (get k v).
Definition texts_at (k : string) (v : value) : list string := strings_of (get k v).
Definition event_ref (id : string) : string := "session-event://" +:+ id.
(** [canonicalJson(a) === canonicalJson(b)] *)
Definition same_json (a b : value) : bool := bool_decide (canonical_json a = canonical_json b).
(** [Buffer.byteLength(canonicalJson(v), 'utf8')], of an object or an array. *)
Definition json_bytes (v : value) : Z := Z.of_nat (String.length (default "" (canonical_json v))).
(** [{ ...v, [k]: x }] *)
Definition with_field (k : string) (x v : value) : value :=
  match v with VObj fields => VObj (put k x fields) | _ => VObj [(k, x)] end.
(** Identifiers match [/^[a-z0-9][a-z0-9._:-]*$/], so the only inherited property one
    can name is the constructor, which a lookup finds in every object used as a map. *)
Definition inherited (id : string) : bool := id =s "constructor".

(** [Object.values(map)]: integer-like keys come first. *)
Definition object_values {A} (l : list (string * A)) : list A :=
  omap (λ kv, assoc kv.1 l) (own_order ((λ kv, (kv.1, VNull)) <$> l)).
Fixpoint find_index {A} (f : A → bool) (l : list A) : option nat :=
  match l with
  | [] => None
  | x :: l => if f x then Some O else S <$> find_index f l
  end.
(** [!!map[id]] for a map of objects *)
Definition present {A} (id : string) (l : list (string * A)) : bool :=
  inherited id || bool_decide (is_Some (assoc id l)).

(** ** Data *)

Record step := MkStep {
  step_id : string;
  step_request : value;
  step_request_event_id : string;
  step_source_event_ids : value;
  step_events : list value;
  step_event_ids : list string;
  model_stream_bytes : Z;
  terminal_event_id : option string;
  revision : option (string * string);  (** feedback and event *)
}.
Record turn := MkTurn {
  turn_id : string;
  turn_input : value;
  input_event_id : string;
  input_event_sequence : Z;
  turn_request : option value;
  source_refs : value;
  budget : value;
  request_event_id : option string;
  model_events : list value;
  model_event_ids : list string;
  model_event_sequences : list Z;
  model_steps : list step;
  tool_executions : list (string * string);  (** tool call to invocation *)
  context_compaction : option value;
  tool_compactions : list value;
  pending_older_compaction : option value;
}.
Record execution := MkExecution {
  exec_payload : value;
  started_event_id : string;
  outcome : option value;
  completed_event_id : option string;
  completed_event_sequence : option Z;
  uncertain_outcome : option value;
  uncertain_event_id : option string;
}.
Record revision_entry := MkRevision {
  entry_revision : Z;
  entry_digest : string;
  entry_definition : value;
  entry_event_id : string;
}.
Record reservation := MkReservation {
  workflow_id : string;
  definition_digest : string;
  claim_id : value;
  claim_expires_at : value;
  step_count : Z;
  child_session_ids : list string;
  reservation_event_id : string;
  claim_ref : string;
  released : option (string * string);  (** status and event *)
  reservation_revision : option Z;
  revisions : option (list revision_entry);
}.
Record workflow := MkWorkflow { pinned_digest : string; phases : list string }.

(** [turns] are in the order of [turn_order], which therefore is not a field. *)
Record session := MkSession {
  session_id : option string;
  spec : value;
  status : string;
  current_sequence : Z;
  parent : option value;
  turns : list turn;
  operation_ids : list string;
  children : list string;
  subagent_request : option value;
  compactions : list value;
  workflow_checkpoints : list value;
  workflows : list (string * workflow);
  workflow_reservations : list reservation;
  cancellation_request : option value;
  tool_invocations : list (string * execution);
  terminal_event : option value;
  reserved_tokens : Z;
  reconciliation_reports : list value;
}.

Definition empty_session : session :=
  MkSession None VNull "empty" 0 None [] [] [] None [] [] [] [] None [] None 0 [].

(** ** Updates *)

Definition set_events f s := MkStep (step_id s) (step_request s) (step_request_event_id s)
  (step_source_event_ids s) (f (step_events s)) (step_event_ids s) (model_stream_bytes s)
  (terminal_event_id s) (revision s).
Definition set_step_event_ids f s := MkStep (step_id s) (step_request s) (step_request_event_id s)
  (step_source_event_ids s) (step_events s) (f (step_event_ids s)) (model_stream_bytes s)
  (terminal_event_id s) (revision s).
Definition set_stream_bytes n s := MkStep (step_id s) (step_request s) (step_request_event_id s)
  (step_source_event_ids s) (step_events s) (step_event_ids s) n (terminal_event_id s) (revision s).
Definition set_terminal id s := MkStep (step_id s) (step_request s) (step_request_event_id s)
  (step_source_event_ids s) (step_events s) (step_event_ids s) (model_stream_bytes s) (Some id) (revision s).
Definition set_revision r s := MkStep (step_id s) (step_request s) (step_request_event_id s)
  (step_source_event_ids s) (step_events s) (step_event_ids s) (model_stream_bytes s)
  (terminal_event_id s) (Some r).

Definition set_request req refs b id t := MkTurn (turn_id t) (turn_input t) (input_event_id t)
  (input_event_sequence t) (Some req) refs b (Some id) (model_events t) (model_event_ids t)
  (model_event_sequences t) (model_steps t) (tool_executions t) (context_compaction t)
  (tool_compactions t) (pending_older_compaction t).
Definition set_model f g h t := MkTurn (turn_id t) (turn_input t) (input_event_id t)
  (input_event_sequence t) (turn_request t) (source_refs t) (budget t) (request_event_id t)
  (f (model_events t)) (g (model_event_ids t)) (h (model_event_sequences t)) (model_steps t)
  (tool_executions t) (context_compaction t) (tool_compactions t) (pending_older_compaction t).
Definition set_steps f t := MkTurn (turn_id t) (turn_input t) (input_event_id t)
  (input_event_sequence t) (turn_request t) (source_refs t) (budget t) (request_event_id t)
  (model_events t) (model_event_ids t) (model_event_sequences t) (f (model_steps t))
  (tool_executions t) (context_compaction t) (tool_compactions t) (pending_older_compaction t).
Definition set_executions f t := MkTurn (turn_id t) (turn_input t) (input_event_id t)
  (input_event_sequence t) (turn_request t) (source_refs t) (budget t) (request_event_id t)
  (model_events t) (model_event_ids t) (model_event_sequences t) (model_steps t)
  (f (tool_executions t)) (context_compaction t) (tool_compactions t) (pending_older_compaction t).
Definition set_compaction c tools pending t := MkTurn (turn_id t) (turn_input t) (input_event_id t)
  (input_event_sequence t) (turn_request t) (source_refs t) (budget t) (request_event_id t)
  (model_events t) (model_event_ids t) (model_event_sequences t) (model_steps t)
  (tool_executions t) c tools pending.

Definition set_turns f s := MkSession (session_id s) (spec s) (status s) (current_sequence s) (parent s)
  (f (turns s)) (operation_ids s) (children s) (subagent_request s) (compactions s)
  (workflow_checkpoints s) (workflows s) (workflow_reservations s) (cancellation_request s)
  (tool_invocations s) (terminal_event s) (reserved_tokens s) (reconciliation_reports s).
Definition set_invocations f s := MkSession (session_id s) (spec s) (status s) (current_sequence s) (parent s)
  (turns s) (operation_ids s) (children s) (subagent_request s) (compactions s)
  (workflow_checkpoints s) (workflows s) (workflow_reservations s) (cancellation_request s)
  (f (tool_invocations s)) (terminal_event s) (reserved_tokens s) (reconciliation_reports s).
Definition set_reservations f s := MkSession (session_id s) (spec s) (status s) (current_sequence s) (parent s)
  (turns s) (operation_ids s) (children s) (subagent_request s) (compactions s)
  (workflow_checkpoints s) (workflows s) (f (workflow_reservations s)) (cancellation_request s)
  (tool_invocations s) (terminal_event s) (reserved_tokens s) (reconciliation_reports s).
Definition set_workflows cps ws s := MkSession (session_id s) (spec s) (status s) (current_sequence s) (parent s)
  (turns s) (operation_ids s) (children s) (subagent_request s) (compactions s)
  cps ws (workflow_reservations s) (cancellation_request s)
  (tool_invocations s) (terminal_event s) (reserved_tokens s) (reconciliation_reports s).
Definition set_identity id n s := MkSession (Some id) (spec s) (status s) n (parent s)
  (turns s) (operation_ids s) (children s) (subagent_request s) (compactions s)
  (workflow_checkpoints s) (workflows s) (workflow_reservations s) (cancellation_request s)
  (tool_invocations s) (terminal_event s) (reserved_tokens s) (reconciliation_reports s).
Definition set_status sp st s := MkSession (session_id s) sp st (current_sequence s) (parent s)
  (turns s) (operation_ids s) (children s) (subagent_request s) (compactions s)
  (workflow_checkpoints s) (workflows s) (workflow_reservations s) (cancellation_request s)
  (tool_invocations s) (terminal_event s) (reserved_tokens s) (reconciliation_reports s).
Definition set_lineage p ch sub s := MkSession (session_id s) (spec s) (status s) (current_sequence s) p
  (turns s) (operation_ids s) ch sub (compactions s)
  (workflow_checkpoints s) (workflows s) (workflow_reservations s) (cancellation_request s)
  (tool_invocations s) (terminal_event s) (reserved_tokens s) (reconciliation_reports s).
Definition set_reconciled n rs s := MkSession (session_id s) (spec s) (status s) (current_sequence s) (parent s)
  (turns s) (operation_ids s) (children s) (subagent_request s) (compactions s)
  (workflow_checkpoints s) (workflows s) (workflow_reservations s) (cancellation_request s)
  (tool_invocations s) (terminal_event s) n rs.
Definition set_operations ops s := MkSession (session_id s) (spec s) (status s) (current_sequence s) (parent s)
  (turns s) ops (children s) (subagent_request s) (compactions s)
  (workflow_checkpoints s) (workflows s) (workflow_reservations s) (cancellation_request s)
  (tool_invocations s) (terminal_event s) (reserved_tokens s) (reconciliation_reports s).
Definition set_compactions cs s := MkSession (session_id s) (spec s) (status s) (current_sequence s) (parent s)
  (turns s) (operation_ids s) (children s) (subagent_request s) cs
  (workflow_checkpoints s) (workflows s) (workflow_reservations s) (cancellation_request s)
  (tool_invocations s) (terminal_event s) (reserved_tokens s) (reconciliation_reports s).
Definition set_cancellation c s := MkSession (session_id s) (spec s) (status s) (current_sequence s) (parent s)
  (turns s) (operation_ids s) (children s) (subagent_request s) (compactions s)
  (workflow_checkpoints s) (workflows s) (workflow_reservations s) (Some c)
  (tool_invocations s) (terminal_event s) (reserved_tokens s) (reconciliation_reports s).
Definition set_terminated st e s := MkSession (session_id s) (spec s) st (current_sequence s) (parent s)
  (turns s) (operation_ids s) (children s) (subagent_request s) (compactions s)
  (workflow_checkpoints s) (workflows s) (workflow_reservations s) (cancellation_request s)
  (tool_invocations s) (Some e) (reserved_tokens s) (reconciliation_reports s).

(** ** Lookups *)

Definition find_turn (id : string) (s : session) : option turn :=
  find (λ t, turn_id t =s id) (turns s).
Definition update_turn (id : string) (f : turn → turn) (s : session) : session :=
  set_turns (fmap (λ t, if turn_id t =s id then f t else t)) s.
Definition find_step (id : string) (t : turn) : option step :=
  find (λ x, step_id x =s id) (model_steps t).
Definition update_step (id : string) (f : step → step) (t : turn) : turn :=
  set_steps (fmap (λ x, if step_id x =s id then f x else x)) t.
(** [turn.tool_executions[id]] *)
Definition turn_execution (s : session) (t : turn) (id : string) : option execution :=
  inv ← assoc id (tool_executions t); assoc inv (tool_invocations s).
Definition find_reservation (id : string) (s : session) : option reservation :=
  find (λ r, workflow_id r =s id) (workflow_reservations s).
Definition update_reservation (id : string) (f : reservation → reservation) (s : session) : session :=
  set_reservations (fmap (λ r, if workflow_id r =s id then f r else r)) s.
Definition limit (name : string) (s : session) : Z := number_at name (get "limits" (spec s)).
Definition event_id_of (event : value) : string := text_of "event_id" event.
Definition payload (event : value) : value := get "payload" event.
(** [{ ...event.payload, event_id: event.event_id }] *)
Definition record_of (event : value) : value :=
  with_field "event_id" (VStr (event_id_of event)) (payload event).

(** The constructor an inherited lookup finds is not a turn: using it as one fails. *)
Definition requireTurn (s : session) (id : string) (event : value) : result turn :=
  match find_turn id s with
  | Some t => Ok t
  | None =>
      if inherited id then Throw (type_error "Cannot read properties of undefined")
      else Throw (SessionReplayError_with (text_of "event_type" event +:+ " references an unknown turn")
        "AGENT_SESSION_TURN_NOT_STARTED"
        (VObj [("event_id", get "event_id" event); ("turn_id", VStr id)]))
  end.
