(* ===== verification/SessionTools.v ===== *)
(** * What the replay computes from durable events

    The tool calls a model stream assembles, the message of a tool outcome and the
    durable history of earlier turns (packages/agent-session-store/replay.js), and the
    faithful stub of a pruned tool result
    (packages/agent-runtime-contracts/compaction-contracts.js). *)
From S2P Require Import Prelude JsValue CanonicalJson JsMap StrictJson Ledger OperationId JsonParse SessionState.

(** [Buffer.byteLength] of the canonical text of a list of messages, and their number. *)
Definition compactionStats (messages : list value) : value :=
  let bytes := json_bytes (VArr messages) in
  VObj [("message_count", VNum (NInt (Z.of_nat (length messages))));
        ("bytes", VNum (NInt bytes)); ("tokens", VNum (NInt bytes))].

Section digests.
Context `{Sha256}.
(** [digest(value)] of the reducer and [toolResultDigest(value)] *)
Definition json_digest (v : value) : string :=
  "sha256:" +:+ sha256_hex (default "undefined" (canonical_json v)).
End digests.

(** ** Model streams *)

Definition event_kind (e : value) : string := text_of "event_type" e.
(** [['completed', 'failed'].includes(event.event_type)] *)
Definition is_terminal (e : value) : bool := (event_kind e =s "completed") || (event_kind e =s "failed").
(** [terminal?.event_type === 'completed' && terminal.payload.finish_reason === reason]
    for the last event *)
Definition finished (reason : string) (events : list value) : bool :=
  match last events with
  | Some e => (event_kind e =s "completed") && (text_of "finish_reason" (payload e) =s reason)
  | None => false
  end.
(** [events.filter((e) => e.event_type === 'content.delta').map((e) => e.payload.text).join('')] *)
Definition content_of (events : list value) : string :=
  String.concat "" ((λ e, text_of "text" (payload e)) <$>
    List.filter (λ e, event_kind e =s "content.delta") events).

Record call := MkCall { call_id : string; call_name : string; call_input : value }.
#[export] Instance call_eq_dec : EqDecision call.
Proof. solve_decision. Defined.
Definition call_value (c : call) : value :=
  VObj [("tool_call_id", VStr (call_id c)); ("name", VStr (call_name c)); ("input", call_input c)].

(** The calls under construction: name and text of the arguments. *)
Definition pending_calls : Type := list (string * (option string * string)).

Definition add_delta (e : value) (calls : pending_calls) : result pending_calls :=
  if negb (event_kind e =s "tool_call.delta") then Ok calls
  else
    let id := text_of "tool_call_id" (payload e) in
    let '(name, text) := default (None, "") (assoc id calls) in
    name' ← match get "name" (payload e) with
            | VStr n =>
                if bool_decide (name ≠ None ∧ name ≠ Some n)
                then Throw (SessionReplayError "tool call name changed across deltas" "AGENT_SESSION_TOOL_CALL_INVALID")
                else Ok (Some n)
            | _ => Ok name
            end;
    Ok (upsert id (name', text +:+ text_of "arguments_delta" (payload e)) calls).

Fixpoint add_deltas (events : list value) (calls : pending_calls) : result pending_calls :=
  match events with
  | [] => Ok calls
  | e :: events => calls ← add_delta e calls; add_deltas events calls
  end.

Section json.
Context (nearest : Z → Z → number).

Definition finish_call (c : string * (option string * string)) : result call :=
  let '(id, (name, text)) := c in
  match json_parse nearest text with
  | None => Throw (SessionReplayError_with "tool call arguments are not complete JSON"
              "AGENT_SESSION_TOOL_CALL_INVALID" (VObj [("tool_call_id", VStr id)]))
  | Some input =>
      let name := default "" name in
      if (name =s "") || negb (is_record input)
      then Throw (SessionReplayError_with "tool call requires a name and JSON object input"
             "AGENT_SESSION_TOOL_CALL_INVALID" (VObj [("tool_call_id", VStr id)]))
      else Ok (MkCall id name input)
  end.

Definition assembledToolCalls (events : list value) : result (list call) :=
  calls ← add_deltas events []; map_result finish_call calls.

(** ** Tool outcomes *)

Definition toolOutcomeMessage (x : execution) : value :=
  let o := default VUndef (outcome x) in
  VObj [("role", VStr "tool"); ("name", get "name" (exec_payload x));
        ("tool_call_id", get "tool_call_id" (exec_payload x));
        ("content", VStr (default "" (canonical_json (VObj [
           ("status", get "status" o); ("result", get "result" o); ("error", get "error" o);
           ("evidence_refs", get "evidence_refs" o); ("warnings", get "warnings" o)]))))].

(** ** Pruned stubs *)

Definition PRUNED_STUB_KEYS : list string :=
  ["status"; "evidence_refs"; "warnings"; "error"; "sha256"; "path"; "result_digest"; "pruned"].
(** [v && typeof v === 'object'] *)
Definition is_object (v : value) : bool := is_record v || is_array v.

Definition nextActionMetadata (r : value) : list (string * value) :=
  let error := get "error" r in
  let body := get "result" r in
  (if is_object error
   then [("error", VObj (omap (λ k, if is_undefined (get k error) then None else Some (k, get k error))
                              ["code"; "message"; "retryable"]))] else []) ++
  (if is_object body
   then (if is_string (get "sha256" body) then [("sha256", get "sha256" body)] else []) ++
        (if is_string (get "path" body) then [("path", get "path" body)] else [])
   else []).

Section pruning.
Context `{Sha256}.

Definition pruneToolMessage (message : value) : result value :=
  _ ← throw_if (negb (text_of "role" message =s "tool"))
        (type_error "tool_result_prune accepts only tool messages");
  let r := default VNull (json_parse nearest (text_of "content" message)) in
  let array_at k := if is_array (get k r) then get k r else VArr [] in
  Ok (VObj ([("role", VStr "tool")] ++
    (if truthy (get "name" message) then [("name", get "name" message)] else []) ++
    [("tool_call_id", get "tool_call_id" message);
     ("content", VStr (default "" (canonical_json (VObj (
        [("status", or_else (get "status" r) (VStr "unknown"));
         ("evidence_refs", array_at "evidence_refs"); ("warnings", array_at "warnings")] ++
        nextActionMetadata r ++
        [("result_digest", VStr (json_digest (get "content" message)));
         ("pruned", VBool true)])))))])).

(** The first of [keys] at which the two objects differ. *)
Definition differing (keys : list string) (a b : value) : option string :=
  find (λ k, negb (same_json (get k a) (get k b))) keys.

(** [None] when the replacement is a faithful stub of the source. *)
Definition prunedStubViolation (source replacement : value) : result (option string) :=
  match json_parse nearest (text_of "content" replacement) with
  | None => Ok (Some "stub is not valid JSON")
  | Some stub =>
      pruned ← pruneToolMessage source;
      match json_parse nearest (text_of "content" pruned) with
      | None => Throw (VObj [("name", VStr "SyntaxError"); ("message", VStr "Unexpected token")])
      | Some expected => Ok (
          if negb (is_record stub) then Some "stub is not an object"
          else if negb (bool_decide (get "pruned" stub = VBool true)) then Some "stub is not marked pruned"
          else if negb (forallb (λ k, k ∈s PRUNED_STUB_KEYS) (object_keys stub))
          then Some "stub carries a body field"
          else if negb (bool_decide (get "result_digest" stub = get "result_digest" expected))
          then Some "stub digest differs from the original result"
          else match differing ["status"; "error"; "sha256"; "path"] stub expected with
               | Some k => Some ("stub " +:+ k +:+ " differs from the original result")
               | None =>
                   match differing ["evidence_refs"; "warnings"] stub expected with
                   | Some k => Some ("stub " +:+ k +:+ " differs from the original outcome")
                   | None => None
                   end
               end)
      end
  end.
End pruning.
End json.

(** ** Durable history *)

Definition source_item (id : string) (sequence : Z) (message : value) : value :=
  VObj [("source_event_id", VStr id); ("source_ref", VStr (event_ref id));
        ("sequence", VNum (NInt sequence)); ("message", message)].

(** The input of a turn, and its answer once its model stream has completed. *)
Definition turn_history (t : turn) : list value :=
  source_item (input_event_id t) (input_event_sequence t) (turn_input t) ::
  match find_index (λ e, event_kind e =s "completed") (model_events t) with
  | None => []
  | Some i =>
      let content := content_of (take i (model_events t)) in
      if content =s "" then []
      else [source_item (default "" (model_event_ids t !! i)) (default 0%Z (model_event_sequences t !! i))
              (VObj [("role", VStr "assistant"); ("content", VStr content)])]
  end.

Fixpoint history_before (current : string) (l : list turn) : list value :=
  match l with
  | [] => []
  | t :: l => if turn_id t =s current then [] else turn_history t ++ history_before current l
  end.
Definition durableHistory (s : session) (current : string) : list value :=
  history_before current (turns s).

(** ** Settlement of started work *)

Definition has_terminal (events : list value) : bool := existsb is_terminal events.
(** Model events outside of a step, without a terminal one. *)
Definition incomplete_stream (t : turn) : bool :=
  bool_decide (model_steps t = []) && negb (bool_decide (model_events t = [])) && negb (has_terminal (model_events t)).
Definition incomplete_model (t : turn) : bool :=
  existsb (λ x, negb (has_terminal (step_events x))) (model_steps t) || incomplete_stream t.
Definition has_outcome (x : execution) : bool := bool_decide (is_Some (outcome x)).

Definition assertStartedWorkSettled (s : session) : result unit :=
  throw_if (existsb incomplete_model (turns s) ||
            existsb (λ kv, negb (has_outcome kv.2)) (tool_invocations s))
    (SessionReplayError "session terminal event precedes settlement of started work"
       "AGENT_SESSION_WORK_INCOMPLETE").
