(* ===== verification/SessionWorkflow.v ===== *)
(** * Workflow events of a session (packages/agent-session-store/replay.js)

    A session reserves steps and child sessions for a workflow, revises the definition
    under the claim of the reservation, records the checkpoints of its phases and
    releases it. *)
From S2P Require Import Prelude JsValue CanonicalJson JsMap StrictJson Ledger OperationId JsonParse SessionState SessionTools.

(** ** Definitions of workflows *)

Definition steps_of (definition : value) : list value :=
  concat (list_at "steps" <$> list_at "phases" definition).
Definition child_spec (s : value) : value := get "child_spec" s.
Definition child_id (s : value) : string := text_of "session_id" (child_spec s).
Definition id_list (ids : list string) : value := VArr (VStr <$> ids).
Definition sum_of {A} (f : A → Z) (l : list A) : Z := fold_right (λ x n, (f x + n)%Z) 0%Z l.
(** [Math.ceil(n / m)] for positive integers *)
Definition ceil_div (n m : Z) : Z := ((n + m - 1) / m)%Z.
(** The parallel batches of a definition: a pipeline runs its steps one at a time. *)
Definition windows_of (definition : value) : Z :=
  sum_of (λ phase,
    let n := Z.of_nat (length (list_at "steps" phase)) in
    if text_of "mode" phase =s "pipeline" then n else ceil_div n (number_at "max_parallelism" definition))
    (list_at "phases" definition).
(** [checkpoint.completed_step_ids?.length || 1] *)
Definition checkpoint_steps (c : value) : Z :=
  let n := Z.of_nat (length (list_at "completed_step_ids" c)) in if (n =? 0)%Z then 1%Z else n.
Definition is_released (r : reservation) : bool := bool_decide (is_Some (released r)).

(** Checkpoints of workflows that have no reservation, and their steps. *)
Definition legacy_checkpoints (s : session) : list value :=
  List.filter (λ c, let id := text_of "workflow_id" c in
    negb (inherited id || bool_decide (is_Some (find_reservation id s)))) (workflow_checkpoints s).
Definition legacy_steps (s : session) : Z := sum_of checkpoint_steps (legacy_checkpoints s).

Section workflows.
Context `{Sha256}.

Definition assertWorkflowCheckpoint (checkpoint : value) (definition : option value) : result unit :=
  let invalid := SessionReplayError "workflow checkpoint differs from its pinned phase"
                   "AGENT_SESSION_WORKFLOW_CHECKPOINT_INVALID" in
  match definition with
  | None => Throw invalid
  | Some d =>
      match find (λ p, text_of "phase_id" p =s text_of "phase_id" checkpoint) (list_at "phases" d) with
      | None => Throw invalid
      | Some phase =>
          let steps := list_at "steps" phase in
          throw_if (negb (text_of "definition_digest" checkpoint =s json_digest d) ||
                    negb (text_of "mode" checkpoint =s text_of "mode" phase) ||
                    negb (same_json (get "completed_step_ids" checkpoint) (id_list (text_of "step_id" <$> steps))) ||
                    negb (same_json (get "child_session_ids" checkpoint) (id_list (child_id <$> steps))))
            invalid
      end
  end.

(** [history.find((item) => item.definition_digest === digest)?.definition] *)
Definition pinned (digest : string) (history : list revision_entry) : option value :=
  entry_definition <$> find (λ e, entry_digest e =s digest) history.
Definition history_of (r : reservation) (previous : value) : list revision_entry :=
  default [MkRevision 1 (definition_digest r) previous (reservation_event_id r)] (revisions r).

(** The child of a step keeps the parent's authority and limits. *)
Definition check_child (s : session) (st : value) : result unit :=
  let c := child_spec st in
  _ ← throw_if (bool_decide (Some (child_id st) = session_id s) ||
                negb (bool_decide (get "parent_session_id" c = opt_value (session_id s))) ||
                negb (text_of "authority_ref" c =s text_of "authority_ref" (spec s)) ||
                negb (text_of "policy_ref" c =s text_of "policy_ref" (spec s)))
        (SessionReplayError "workflow child changes parent authority" "AGENT_SESSION_WORKFLOW_AUTHORITY_WIDENING");
  for_each (λ name,
      throw_if (limit name s <? number_at name (get "limits" c))%Z
        (SessionReplayError_with "workflow child widens a parent limit" "AGENT_SESSION_WORKFLOW_LIMIT_WIDENING"
           (VObj [("limit", VStr name)])))
    (object_keys (get "limits" c)).

Definition revised (r : reservation) (rev : Z) (history : list revision_entry) (definition event : value) :
    reservation :=
  let steps := steps_of definition in
  MkReservation (workflow_id r) (json_digest definition) (claim_id r) (claim_expires_at r)
    (Z.of_nat (length steps)) (child_id <$> steps) (reservation_event_id r) (claim_ref r) (released r)
    (Some rev) (Some (history ++ [MkRevision rev (json_digest definition) definition (event_id_of event)])).

(** The claim, the pinned definition and the appended phases. *)
Definition check_revision (r : reservation) (s : session) (p : value) : result unit :=
  let id := text_of "workflow_id" p in
  let previous := get "previous_definition" p in
  let definition := get "definition" p in
  let previousSteps := steps_of previous in
  _ ← throw_if (is_released r || negb (claim_ref r =s text_of "claim_ref" p) ||
                bool_decide (is_Some (cancellation_request s)))
        (SessionReplayError "workflow revision requires the active uncancelled claim" "AGENT_SESSION_WORKFLOW_CLAIM_INVALID");
  _ ← throw_if (negb (number_at "revision" p =? default 1 (reservation_revision r) + 1)%Z)
        (SessionReplayError "workflow revision must advance exactly once" "AGENT_SESSION_WORKFLOW_REVISION_INVALID");
  _ ← throw_if (negb (text_of "workflow_id" previous =s id) || negb (text_of "workflow_id" definition =s id) ||
                negb (json_digest previous =s definition_digest r) ||
                negb (Z.of_nat (length previousSteps) =? step_count r)%Z ||
                negb (same_json (id_list (child_id <$> previousSteps)) (id_list (child_session_ids r))))
        (SessionReplayError "workflow revision does not extend the pinned definition" "AGENT_SESSION_WORKFLOW_DEFINITION_CONFLICT");
  let before := list_at "phases" previous in
  throw_if (negb (text_of "subagent_provider_id" definition =s text_of "subagent_provider_id" previous) ||
            negb (number_at "max_parallelism" definition =? number_at "max_parallelism" previous)%Z ||
            (length (list_at "phases" definition) <=? length before)%nat ||
            negb (same_json (VArr (take (length before) (list_at "phases" definition))) (VArr before)))
    (SessionReplayError "workflow revisions may only append phases" "AGENT_SESSION_WORKFLOW_REVISION_RETROACTIVE").

(** The budgets of the parent. *)
Definition check_resources (r : reservation) (s : session) (p : value) : result unit :=
  let id := text_of "workflow_id" p in
  let definition := get "definition" p in
  let steps := steps_of definition in
  let childIds := child_id <$> steps in
  let others := List.filter (λ o, negb (workflow_id o =s id)) (workflow_reservations s) in
  let foreign := concat (child_session_ids <$> others) in
  _ ← throw_if (existsb (λ c, c ∈s foreign) childIds)
        (SessionReplayError "workflow child identity belongs to another reservation" "AGENT_SESSION_WORKFLOW_CHILD_INVALID");
  _ ← throw_if (limit "max_workflow_steps" s <?
                Z.of_nat (length steps) + sum_of step_count others + legacy_steps s)%Z
        (SessionReplayError "workflow revision exceeds the parent step limit" "AGENT_SESSION_WORKFLOW_STEP_LIMIT_EXCEEDED");
  _ ← throw_if (limit "max_children" s <? Z.of_nat (length (js_set (children s ++ childIds ++ foreign))))%Z
        (SessionReplayError "workflow revision exceeds the parent child limit" "AGENT_SESSION_WORKFLOW_CHILD_LIMIT_EXCEEDED");
  _ ← throw_if (negb (bool_decide (others = [])) || negb (bool_decide (legacy_checkpoints s = [])) ||
                existsb (λ c, negb (c ∈s child_session_ids r)) (children s) ||
                negb (bool_decide (turns s = [])) || negb (bool_decide (operation_ids s = [])) ||
                negb (bool_decide (tool_invocations s = [])) || negb (reserved_tokens s =? 0)%Z)
        (SessionReplayError "workflow revision has unknown competing resource commitments" "AGENT_SESSION_WORKFLOW_BUDGET_UNKNOWN");
  _ ← for_each (check_child s) steps;
  _ ← for_each (λ name,
        throw_if (limit name s <? sum_of (λ st, number_at name (get "limits" (child_spec st))) steps)%Z
          (SessionReplayError_with "workflow revision exceeds aggregate resources"
             "AGENT_SESSION_WORKFLOW_RESOURCE_LIMIT_EXCEEDED" (VObj [("limit", VStr name)])))
        ["max_tokens"; "max_tool_calls"; "max_turns"];
  throw_if (limit "max_duration_ms" s <? windows_of definition * number_at "join_timeout_ms" definition)%Z
    (SessionReplayError "workflow revision exceeds original duration" "AGENT_SESSION_WORKFLOW_DURATION_LIMIT_EXCEEDED").

Definition reviseWorkflow (event : value) (s : session) : result session :=
  let p := payload event in
  let id := text_of "workflow_id" p in
  match find_reservation id s with
  | None => Throw (SessionReplayError "workflow revision requires the active uncancelled claim"
              "AGENT_SESSION_WORKFLOW_CLAIM_INVALID")
  | Some r =>
      _ ← check_revision r s p;
      _ ← check_resources r s p;
      let definition := get "definition" p in
      let history := history_of r (get "previous_definition" p) in
      _ ← for_each (λ c, assertWorkflowCheckpoint c (pinned (text_of "definition_digest" c) history))
            (List.filter (λ c, text_of "workflow_id" c =s id) (workflow_checkpoints s));
      let ws := match assoc id (workflows s) with
                | Some w => upsert id (MkWorkflow (json_digest definition) (phases w)) (workflows s)
                | None => workflows s
                end in
      Ok (set_workflows (workflow_checkpoints s) ws
           (update_reservation id (λ r, revised r (number_at "revision" p) history definition event) s))
  end.

(** ** Reservations *)

Definition workflow_reserved (event : value) (s : session) : result session :=
  let p := payload event in
  let id := text_of "workflow_id" p in
  let ids := texts_at "child_session_ids" p in
  _ ← throw_if (inherited id || bool_decide (is_Some (find_reservation id s)))
        (SessionReplayError "workflow reservation is already durable" "AGENT_SESSION_WORKFLOW_RESERVATION_DUPLICATE");
  _ ← throw_if (limit "max_workflow_steps" s <?
                sum_of step_count (workflow_reservations s) + legacy_steps s + number_at "step_count" p)%Z
        (SessionReplayError "workflow reservation exceeds the parent step limit" "AGENT_SESSION_WORKFLOW_STEP_LIMIT_EXCEEDED");
  let newChildIds := List.filter (λ c, negb (c ∈s children s)) ids in
  _ ← throw_if (limit "max_children" s <? Z.of_nat (length (children s) + length newChildIds))%Z
        (SessionReplayError "workflow reservation exceeds the parent child limit" "AGENT_SESSION_WORKFLOW_CHILD_LIMIT_EXCEEDED");
  _ ← throw_if (existsb (λ r, negb (is_released r)) (workflow_reservations s))
        (SessionReplayError "parent already has an active workflow reservation" "AGENT_SESSION_WORKFLOW_RESERVATION_ACTIVE");
  Ok (set_reservations (λ l, l ++ [MkReservation id (text_of "definition_digest" p) (get "claim_id" p)
        (get "claim_expires_at" p) (number_at "step_count" p) ids (event_id_of event)
        (event_ref (event_id_of event)) None None None]) s).

Definition claim (id at_ : value) (ref : string) (r : reservation) : reservation :=
  MkReservation (workflow_id r) (definition_digest r) id at_ (step_count r) (child_session_ids r)
    (reservation_event_id r) ref (released r) (reservation_revision r) (revisions r).
Definition release (status event : string) (r : reservation) : reservation :=
  MkReservation (workflow_id r) (definition_digest r) (claim_id r) (claim_expires_at r) (step_count r)
    (child_session_ids r) (reservation_event_id r) (claim_ref r) (Some (status, event))
    (reservation_revision r) (revisions r).

(** [Date.parse] of a timestamp with an offset is an argument; [None] is [NaN]. *)
Definition workflow_reclaimed (date_parse : value → option Z) (event : value) (s : session) : result session :=
  let p := payload event in
  let id := text_of "workflow_id" p in
  let invalid := SessionReplayError "workflow reclaim does not match the active claim" "AGENT_SESSION_WORKFLOW_RECLAIM_INVALID" in
  match find_reservation id s with
  | None => Throw invalid
  | Some r =>
      let expired_early := match date_parse (get "occurred_at" event), date_parse (claim_expires_at r) with
                           | Some a, Some b => (a <=? b)%Z
                           | _, _ => false
                           end in
      _ ← throw_if (is_released r || negb (definition_digest r =s text_of "definition_digest" p) ||
                    negb (claim_ref r =s text_of "prior_claim_ref" p) || expired_early) invalid;
      Ok (update_reservation id
            (claim (get "claim_id" p) (get "claim_expires_at" p) (event_ref (event_id_of event))) s)
  end.

Definition workflow_released (event : value) (s : session) : result session :=
  let p := payload event in
  let id := text_of "workflow_id" p in
  let invalid := SessionReplayError "workflow release does not match one active reservation" "AGENT_SESSION_WORKFLOW_RELEASE_INVALID" in
  match find_reservation id s with
  | None => Throw invalid
  | Some r =>
      _ ← throw_if (is_released r || negb (definition_digest r =s text_of "definition_digest" p) ||
                    negb (claim_ref r =s text_of "claim_ref" p)) invalid;
      Ok (update_reservation id (release (text_of "status" p) (event_id_of event)) s)
  end.

(** ** Checkpoints *)

Definition workflow_checkpointed (event : value) (s : session) : result session :=
  let revised := match find_reservation (text_of "workflow_id" (payload event)) s with
                 | Some r => bool_decide (is_Some (reservation_revision r))
                 | None => false
                 end in
  _ ← throw_if revised
        (SessionReplayError "revised workflows require pinned phase checkpoints" "AGENT_SESSION_WORKFLOW_CHECKPOINT_INVALID");
  Ok (set_workflows (workflow_checkpoints s ++ [record_of event]) (workflows s) s).

(** A checkpoint of a revised workflow matches the pinned phase of its revision. *)
Definition check_pinned (p : value) (r : reservation) (s : session) : result unit :=
  match reservation_revision r with
  | None => Ok ()
  | Some _ =>
      _ ← throw_if (is_released r || bool_decide (is_Some (cancellation_request s)))
            (SessionReplayError "revised workflow checkpoint requires an active claim" "AGENT_SESSION_WORKFLOW_CLAIM_INVALID");
      assertWorkflowCheckpoint p (pinned (text_of "definition_digest" p) (default [] (revisions r)))
  end.

Definition workflow_phase_checkpointed (event : value) (s : session) : result session :=
  let p := payload event in
  let id := text_of "workflow_id" p in
  let fenced := SessionReplayError "workflow checkpoint is fenced by a different claim" "AGENT_SESSION_WORKFLOW_CLAIM_INVALID" in
  match find_reservation id s with
  | None => Throw fenced
  | Some r =>
      let is_revised := bool_decide (is_Some (reservation_revision r)) in
      _ ← check_pinned p r s;
      _ ← throw_if (negb (claim_ref r =s text_of "claim_ref" p)) fenced;
      _ ← throw_if (existsb (λ c, negb (c ∈s children s)) (texts_at "child_session_ids" p))
            (SessionReplayError "workflow checkpoint references an unattached child" "AGENT_SESSION_WORKFLOW_CHILD_INVALID");
      let digest := text_of "definition_digest" p in
      let w := default (MkWorkflow (if is_revised then definition_digest r else digest) [])
                 (assoc id (workflows s)) in
      _ ← throw_if (negb is_revised && negb (pinned_digest w =s digest))
            (SessionReplayError "workflow identifier has a different durable definition" "AGENT_SESSION_WORKFLOW_DEFINITION_CONFLICT");
      let phase := text_of "phase_id" p in
      _ ← throw_if (phase ∈s phases w)
            (SessionReplayError "workflow phase is already checkpointed" "AGENT_SESSION_WORKFLOW_PHASE_DUPLICATE");
      let completed := sum_of (λ c, Z.of_nat (length (list_at "completed_step_ids" c)))
                         (List.filter (λ c, text_of "workflow_id" c =s id) (workflow_checkpoints s)) in
      let bound := if (step_count r =? 0)%Z then limit "max_workflow_steps" s else step_count r in
      _ ← throw_if (bound <? completed + Z.of_nat (length (list_at "completed_step_ids" p)))%Z
            (SessionReplayError "workflow step limit is exhausted" "AGENT_SESSION_WORKFLOW_STEP_LIMIT_EXCEEDED");
      Ok (set_workflows (workflow_checkpoints s ++ [record_of event])
            (upsert id (MkWorkflow (pinned_digest w) (phases w ++ [phase])) (workflows s)) s)
  end.
End workflows.
