(* ===== verification/SessionEvents.v ===== *)
(** * Turn, model and tool events of a session (packages/agent-session-store/replay.js)

    One definition per event type of the reducer: the checks of the case in their order
    and what it changes.  [nearest] is the rounding of a decimal to a double. *)
From S2P Require Import Prelude JsValue CanonicalJson JsMap StrictJson Ledger OperationId JsonParse.
From S2P Require Import SessionState SessionTools SessionWorkflow.

Definition MAX_MODEL_EVENTS_PER_STEP : Z := 4096.
Definition MAX_MODEL_STREAM_BYTES_PER_STEP : Z := 16777216.
Definition MODEL_TERMINAL_RESERVE_BYTES : Z := 8192.

Definition ref_of (s : session) : string := default "" (session_id s).
Definition source_event (v : value) : string := text_of "source_event_id" v.
Definition source_reference (v : value) : string := text_of "source_ref" v.
Definition source_message (v : value) : value := get "message" v.
(** [execution?.completed_event_id] *)
Definition completed_id (x : option execution) : value :=
  match x with Some x => opt_value (completed_event_id x) | None => VUndef end.
(** [!execution?.outcome] *)
Definition unsettled (x : option execution) : bool :=
  match x with Some x => negb (has_outcome x) | None => true end.

(** ** Session and turn events *)

Definition session_created (event : value) (s : session) : result session :=
  Ok (set_status (get "spec" (payload event)) "active" s).

Definition session_forked (event : value) (s : session) : result session :=
  let p := payload event in
  _ ← throw_if (negb (number_at "sequence" event =? 2)%Z || bool_decide (is_Some (parent s)))
        (SessionReplayError "session fork lineage must be recorded exactly once after creation" "AGENT_SESSION_FORK_SEQUENCE_INVALID");
  _ ← throw_if (negb (bool_decide (get "parent_session_id" (spec s) = get "parent_session_id" p)))
        (SessionReplayError "fork parent does not match the child session spec" "AGENT_SESSION_FORK_PARENT_MISMATCH");
  Ok (set_lineage (Some p) (children s) (subagent_request s) s).

Definition session_reconciled (event : value) (s : session) : result session :=
  let p := payload event in
  _ ← assertStartedWorkSettled s;
  let reserved := (reserved_tokens s + number_at "reserved_tokens" p)%Z in
  _ ← throw_if (MAX_SAFE_INTEGER <? Z.abs reserved)%Z
        (SessionReplayError "Reconciliation budget overflow" "AGENT_SESSION_REPLAY_INVALID");
  Ok (set_reconciled reserved (reconciliation_reports s ++ [get "report_sha256" p]) s).

Definition session_resumed (event : value) (s : session) : result session :=
  _ ← throw_if (negb (number_at "from_sequence" (payload event) =? number_at "sequence" event - 1)%Z)
        (SessionReplayError "resume source must be the immediately preceding durable sequence" "AGENT_SESSION_RESUME_SEQUENCE_INVALID");
  Ok s.

Definition new_turn (event : value) : turn :=
  MkTurn (text_of "turn_id" (payload event)) (get "input" (payload event)) (event_id_of event)
    (number_at "sequence" event) None VUndef VNull None [] [] [] [] [] None [] None.

Definition turn_started (event : value) (s : session) : result session :=
  let id := text_of "turn_id" (payload event) in
  _ ← throw_if (inherited id || bool_decide (is_Some (find_turn id s)))
        (SessionReplayError_with "turn identifier is already present" "AGENT_SESSION_DUPLICATE_TURN"
           (VObj [("turn_id", VStr id)]));
  Ok (set_turns (λ l, l ++ [new_turn event]) s).

(** ** Context assembly *)

(** The model-visible history of a request: its messages without the preamble, the
    final input and the system blocks. *)
Definition visible_history (request : value) : list value :=
  List.filter (λ m, negb (text_of "role" m =s "system")) (removelast (tail (list_at "messages" request))).

Definition in_sources (refs : list string) (v : value) : bool := source_reference v ∈s refs.

(** [ordinaryInvalid] *)
Definition ordinary_invalid (visible durable : list value) (refs : list string) : bool :=
  let selected := drop (length durable - length visible) durable in
  let selected := if (length visible =? 0)%nat then [] else selected in
  (length durable <? length visible)%nat ||
  negb (same_json (VArr visible) (VArr (source_message <$> selected))) ||
  existsb (λ v, negb (in_sources refs v)) selected.

(** [compactedInvalid] *)
Definition compacted_invalid (compaction : value) (visible durable : list value) (refs : list string) : bool :=
  let retained := List.filter (λ v, source_event v ∈s texts_at "retained_source_event_ids" compaction) durable in
  let compacted := List.filter (λ v, source_event v ∈s texts_at "source_event_ids" compaction) durable in
  let replacement := default VUndef (head (list_at "replacement_messages" compaction)) in
  negb (same_json (VArr visible) (VArr (replacement :: (source_message <$> retained)))) ||
  negb (event_ref (text_of "event_id" compaction) ∈s refs) ||
  existsb (λ v, negb (in_sources refs v)) retained ||
  existsb (in_sources refs) compacted.

(** The providers of a budget are those of a compaction. *)
Definition same_provenance (budget compaction : value) : bool :=
  bool_decide (get "compaction_provider_id" budget = get "provider_id" compaction) &&
  bool_decide (get "checkpoint_provider_id" budget = get "checkpoint_provider_id" compaction) &&
  same_json (get "compaction_provider_manifest" budget) (get "provider_manifest" compaction).

Definition same_model (request : value) (s : session) : bool :=
  let e := get "execution" (spec s) in
  bool_decide (get "provider_id" request = get "model_provider_id" e) &&
  bool_decide (get "model" request = get "model" e).

Definition context_assembled (event : value) (s : session) : result session :=
  let p := payload event in
  let id := text_of "turn_id" p in
  let request := get "request" p in
  let refs := texts_at "source_refs" p in
  t ← requireTurn s id event;
  _ ← throw_if (bool_decide (is_Some (turn_request t)))
        (SessionReplayError "a turn may have only one assembled request" "AGENT_SESSION_DUPLICATE_REQUEST");
  _ ← throw_if (negb (text_of "mode" (get "execution" (spec s)) =s "kernel"))
        (SessionReplayError "delegated sessions cannot contain kernel model requests" "AGENT_SESSION_EXECUTION_MODE_MISMATCH");
  _ ← throw_if (negb (same_model request s))
        (SessionReplayError "assembled request provider or model differs from the durable session" "AGENT_SESSION_PROVIDER_MISMATCH");
  _ ← throw_if (negb (same_json (default VUndef (last (list_at "messages" request))) (turn_input t)))
        (SessionReplayError "assembled request does not end with the durable turn input" "AGENT_SESSION_TURN_INPUT_MISMATCH");
  _ ← throw_if (negb (event_ref (input_event_id t) ∈s refs))
        (SessionReplayError "assembled request does not reference the durable turn event" "AGENT_SESSION_SOURCE_MISMATCH");
  let durable := durableHistory s id in
  let visible := visible_history request in
  let budget := get "budget" p in
  _ ← throw_if (match context_compaction t with
                | Some c => (text_of "overflow_policy" budget =s "compact") && negb (same_provenance budget c)
                | None => false
                end)
        (SessionReplayError "context compaction provenance differs from selected budget providers" "AGENT_SESSION_COMPACTION_PROVENANCE_INVALID");
  _ ← throw_if (match context_compaction t with
                | Some c => compacted_invalid c visible durable refs
                | None => ordinary_invalid visible durable refs
                end)
        (SessionReplayError "model-visible history is not a durable contiguous suffix" "AGENT_SESSION_HISTORY_MISMATCH");
  Ok (update_turn id (set_request request (get "source_refs" p) budget (event_id_of event)) s).

(** ** Model steps *)

Section replay.
Context `{Sha256}.
Context (nearest : Z → Z → number).

Definition executions_of (s : session) (t : turn) (calls : list call) : list (option execution) :=
  (λ c, turn_execution s t (call_id c)) <$> calls.
Definition mismatch (message : string) : value := SessionReplayError message "AGENT_SESSION_REQUEST_MISMATCH".

(** [{ ...request, request_id: previous.request_id, messages: previous.messages }] *)
Definition stable_request (request previous : value) : value :=
  with_field "messages" (get "messages" previous)
    (with_field "request_id" (get "request_id" previous) request).

Definition check_initial (t : turn) (p : value) : result unit :=
  throw_if (negb (same_json (get "request" p) (default VNull (turn_request t))) ||
            negb (same_json (get "source_event_ids" p) (VArr [opt_value (request_event_id t)])))
    (mismatch "initial model step must use the assembled request").

Definition assistant_message (content : string) : list (string * value) :=
  [("role", VStr "assistant"); ("content", VStr content)].

Definition check_review (previous : step) (feedback revision_event : string) (p : value) : result unit :=
  let request := get "request" p in
  let expected := list_at "messages" (step_request previous) ++
    [VObj (assistant_message (content_of (step_events previous)));
     VObj [("role", VStr "user"); ("content", VStr feedback)]] in
  throw_if (negb (same_json (get "messages" request) (VArr expected)) ||
            negb (same_json (get "source_event_ids" p)
                    (VArr [opt_value (terminal_event_id previous); VStr revision_event])) ||
            negb (same_json (stable_request request (step_request previous)) (step_request previous)))
    (mismatch "revision continuation differs from durable review").

(** The messages of the previous request, older tool results replaced by their stubs:
    the last replacement of a call is the one a [Map] keeps. *)
Definition served_prefix (t : turn) (previous : step) : list value :=
  let messages := list_at "messages" (step_request previous) in
  match pending_older_compaction t with
  | None => messages
  | Some c =>
      (λ m, if text_of "role" m =s "tool"
            then default m (find_last (λ r, bool_decide (get "tool_call_id" r = get "tool_call_id" m))
                              (list_at "replacement_messages" c))
            else m) <$> messages
  end.

Definition check_continuation (s : session) (t : turn) (previous : step) (p : value) : result unit :=
  let request := get "request" p in
  let messages := list_at "messages" request in
  let sources := texts_at "source_event_ids" p in
  let before := list_at "messages" (step_request previous) in
  let terminal := default "" (terminal_event_id previous) in
  _ ← throw_if (negb (finished "tool_calls" (step_events previous)))
        (SessionReplayError "a continuation requires a completed tool-call step" "AGENT_SESSION_MODEL_STEP_ORDER_INVALID");
  let expectedPrefix := served_prefix t previous in
  _ ← throw_if (negb (same_json (VArr (take (length before) messages)) (VArr expectedPrefix)) ||
                (length messages <=? length before)%nat || negb (terminal ∈s sources))
        (mismatch "continuation request does not preserve its durable predecessor");
  calls ← assembledToolCalls nearest (step_events previous);
  let executions := executions_of s t calls in
  let completed := completed_id <$> executions in
  let toolCompaction := find (λ c, same_json (get "source_event_ids" c) (VArr completed)) (tool_compactions t) in
  _ ← throw_if (existsb unsettled executions ||
                match toolCompaction with
                | None => existsb (λ i, negb (str_of i ∈s sources)) completed
                | Some c => negb (text_of "event_id" c ∈s sources)
                end)
        (SessionReplayError "model continuation precedes durable tool outcomes" "AGENT_SESSION_TOOL_INCOMPLETE");
  let answer := VObj (assistant_message (content_of (step_events previous)) ++
                      [("tool_calls", VArr (call_value <$> calls))]) in
  let expectedMessages := expectedPrefix ++ [answer] ++
    match toolCompaction with
    | Some c => list_at "replacement_messages" c
    | None => toolOutcomeMessage <$> omap id executions
    end in
  let older := match pending_older_compaction t with Some c => [get "event_id" c] | None => [] end in
  let expectedSources := [VStr terminal] ++ older ++
    match toolCompaction with Some c => [get "event_id" c] | None => completed end in
  throw_if (negb (same_json (get "messages" request) (VArr expectedMessages)) ||
            negb (same_json (get "source_event_ids" p) (VArr expectedSources)) ||
            negb (same_json (stable_request request (step_request previous)) (step_request previous)))
    (mismatch "continuation request differs from durable model and tool facts").

Definition new_step (event : value) : step :=
  let p := payload event in
  MkStep (text_of "step_id" p) (get "request" p) (event_id_of event) (get "source_event_ids" p)
    [] [] 2 None None.

Definition model_request_started (seen : list string) (event : value) (s : session) : result session :=
  let p := payload event in
  let id := text_of "turn_id" p in
  let request := get "request" p in
  t ← requireTurn s id event;
  _ ← throw_if (negb (bool_decide (is_Some (turn_request t))))
        (SessionReplayError "model work cannot start before context assembly" "AGENT_SESSION_REQUEST_NOT_ASSEMBLED");
  let sid := text_of "step_id" p in
  _ ← throw_if (inherited sid || bool_decide (is_Some (find_step sid t)))
        (SessionReplayError "model step identifier is already present" "AGENT_SESSION_DUPLICATE_MODEL_STEP");
  _ ← throw_if (existsb (λ x, text_of "request_id" (step_request x) =s text_of "request_id" request) (model_steps t))
        (SessionReplayError "model request identifier is already present" "AGENT_SESSION_DUPLICATE_MODEL_REQUEST");
  _ ← throw_if (negb (same_model request s))
        (SessionReplayError "model step provider differs from the durable session" "AGENT_SESSION_PROVIDER_MISMATCH");
  _ ← throw_if (existsb (λ i, negb (i ∈s seen)) (texts_at "source_event_ids" p))
        (SessionReplayError "model step references a missing or future source event" "AGENT_SESSION_SOURCE_MISMATCH");
  let previous := last (model_steps t) in
  _ ← throw_if (bool_decide (is_Some (pending_older_compaction t)) &&
                match previous with None => true | Some x => bool_decide (is_Some (revision x)) end)
        (mismatch "older tool compaction has no continuation to serve");
  _ ← match previous with
      | None => check_initial t p
      | Some x =>
          match revision x with
          | Some (feedback, e) => check_review x feedback e p
          | None => check_continuation s t x p
          end
      end;
  Ok (update_turn id (λ t, set_steps (λ l, l ++ [new_step event])
        (set_compaction (context_compaction t) (tool_compactions t) None t)) s).

Definition model_revision_requested (event : value) (s : session) : result session :=
  let p := payload event in
  let id := text_of "turn_id" p in
  t ← requireTurn s id event;
  let invalid := SessionReplayError "revision requires the latest completed model response" "AGENT_SESSION_MODEL_STEP_ORDER_INVALID" in
  match last (model_steps t) with
  | None => Throw invalid
  | Some x =>
      _ ← throw_if (negb (step_id x =s text_of "step_id" p) || bool_decide (is_Some (revision x)) ||
                    negb (finished "stop" (step_events x))) invalid;
      Ok (update_turn id (update_step (step_id x)
            (set_revision (text_of "feedback" p, event_id_of event))) s)
  end.

(** The cumulative bound of a step: room is kept for one terminal event. *)
Definition exceeds_stream (count : nat) (nextBytes : Z) (terminal : bool) : bool :=
  let count := Z.of_nat count in
  (MAX_MODEL_EVENTS_PER_STEP <=? count)%Z ||
  (negb terminal && (MAX_MODEL_EVENTS_PER_STEP - 1 <=? count)%Z) ||
  (MAX_MODEL_STREAM_BYTES_PER_STEP <? nextBytes)%Z ||
  (negb terminal && (MAX_MODEL_STREAM_BYTES_PER_STEP - MODEL_TERMINAL_RESERVE_BYTES <? nextBytes)%Z).
Definition next_bytes (x : step) (e : value) : Z :=
  (model_stream_bytes x + (if bool_decide (step_events x = []) then 0 else 1) + json_bytes e)%Z.

(** Pushing an event on its step. *)
Definition push_event (e : value) (id : string) (x : step) : step :=
  let x' := set_step_event_ids (λ l, l ++ [id]) (set_events (λ l, l ++ [e]) (set_stream_bytes (next_bytes x e) x)) in
  if is_terminal e then set_terminal id x' else x'.

(** Identity, order and termination of a stream, of a step or of the turn. *)
Definition check_stream (request p : value) (target : list value) : result unit :=
  let e := get "event" p in
  _ ← throw_if (negb (text_of "request_id" e =s text_of "request_id" request) ||
                negb (text_of "provider_id" p =s text_of "provider_id" request))
        (SessionReplayError "model stream identity does not match the assembled request" "AGENT_SESSION_MODEL_IDENTITY_MISMATCH");
  let expected := Z.of_nat (length target) in
  _ ← throw_if (negb (number_at "sequence" e =? expected)%Z)
        (SessionReplayError_with "model stream sequence contains a gap or duplicate" "AGENT_SESSION_MODEL_SEQUENCE_INVALID"
           (VObj [("expected_sequence", VNum (NInt expected)); ("actual_sequence", get "sequence" e)]));
  throw_if (has_terminal target)
    (SessionReplayError "model stream continues after a terminal provider event" "AGENT_SESSION_MODEL_ALREADY_TERMINAL").

(** The constructor an inherited lookup finds has no list of events to push on. *)
Definition model_streamed (event : value) (s : session) : result session :=
  let p := payload event in
  let id := text_of "turn_id" p in
  let e := get "event" p in
  let eid := event_id_of event in
  t ← requireTurn s id event;
  let push := set_model (λ l, l ++ [e]) (λ l, l ++ [eid]) (λ l, l ++ [number_at "sequence" event]) in
  match turn_request t with
  | None => Throw (SessionReplayError "model stream cannot precede context assembly" "AGENT_SESSION_REQUEST_NOT_ASSEMBLED")
  | Some assembled =>
      if negb (truthy (get "step_id" p)) then
        _ ← check_stream assembled p (model_events t);
        Ok (update_turn id push s)
      else
        let sid := text_of "step_id" p in
        match find_step sid t with
        | None =>
            if inherited sid then Throw (type_error "Cannot read properties of undefined")
            else Throw (SessionReplayError "model stream references an unknown step" "AGENT_SESSION_MODEL_STEP_NOT_STARTED")
        | Some x =>
            _ ← check_stream (step_request x) p (step_events x);
            _ ← throw_if (exceeds_stream (length (step_events x)) (next_bytes x e) (is_terminal e))
                  (SessionReplayError "model step exceeds its cumulative stream bound" "AGENT_SESSION_MODEL_STREAM_LIMIT");
            Ok (update_turn id (λ t, update_step sid (push_event e eid) (push t)) s)
        end
  end.

(** ** Tool executions *)

Definition new_execution (event : value) : execution :=
  MkExecution (payload event) (event_id_of event) None None None None None.

Definition tool_execution_started (event : value) (s : session) : result session :=
  let p := payload event in
  let id := text_of "turn_id" p in
  let call := text_of "tool_call_id" p in
  let invocation := text_of "invocation_id" p in
  let invalid := SessionReplayError "tool execution requires a durable completed tool-call step" "AGENT_SESSION_TOOL_STEP_INVALID" in
  t ← requireTurn s id event;
  match find_step (text_of "step_id" p) t with
  | None =>
      if inherited (text_of "step_id" p) then Throw (type_error "Cannot read properties of undefined")
      else Throw invalid
  | Some x =>
      _ ← throw_if (negb (finished "tool_calls" (step_events x))) invalid;
      _ ← throw_if (present invocation (tool_invocations s) || present call (tool_executions t))
            (SessionReplayError "tool execution identity is already present" "AGENT_SESSION_DUPLICATE_TOOL_EXECUTION");
      calls ← assembledToolCalls nearest (step_events x);
      _ ← throw_if (match find (λ c, call_id c =s call) calls with
                    | None => true
                    | Some c => negb (call_name c =s text_of "name" p) || negb (same_json (call_input c) (get "input" p))
                    end)
            (SessionReplayError "tool execution differs from the durable model call" "AGENT_SESSION_TOOL_CALL_MISMATCH");
      _ ← throw_if (limit "max_tool_calls" s <=? Z.of_nat (length (tool_invocations s)))%Z
            (SessionReplayError "session tool-call limit is exhausted" "AGENT_SESSION_TOOL_LIMIT_EXCEEDED");
      Ok (set_invocations (upsert invocation (new_execution event))
           (update_turn id (set_executions (upsert call invocation)) s))
  end.

(** [execution[k] === payload[k]] for the fields an outcome repeats. *)
Definition same_call (x : execution) (o : value) : bool :=
  (text_of "tool_call_id" (exec_payload x) =s text_of "tool_call_id" o) &&
  (text_of "name" (exec_payload x) =s text_of "name" o).
Definition same_step (x : execution) (p : value) : bool :=
  text_of "step_id" (exec_payload x) =s text_of "step_id" p.

(** [/^reconciliation:\/\/[a-f0-9]{64}$/.test(ref)] *)
Definition reconciliation_ref (ref : string) : bool :=
  let scheme := "reconciliation://" in
  let rest := String.substring (String.length scheme) (String.length ref) ref in
  String.prefix scheme ref && (String.length rest =? 64)%nat && all_chars lower_hex rest.

(** The execution settled by an outcome; the reconciled one keeps what it replaces. *)
Definition complete (o event : value) (x : execution) : execution :=
  MkExecution (exec_payload x) (started_event_id x) (Some o) (Some (event_id_of event))
    (Some (number_at "sequence" event)) (uncertain_outcome x) (uncertain_event_id x).
Definition reconcile (o event : value) (x : execution) : execution :=
  MkExecution (exec_payload x) (started_event_id x) (Some o) (Some (event_id_of event))
    (Some (number_at "sequence" event)) (outcome x) (completed_event_id x).

Definition tool_execution_reconciled (event : value) (s : session) : result session :=
  let p := payload event in
  let o := get "outcome" p in
  let invocation := text_of "invocation_id" o in
  let invalid := SessionReplayError "Reconciliation must reference a pending uncertain execution" "AGENT_SESSION_REPLAY_INVALID" in
  match assoc invocation (tool_invocations s) with
  | None => Throw invalid
  | Some x =>
      let uncertain := match outcome x with Some o => text_of "status" o =s "uncertain" | None => false end in
      _ ← throw_if (negb uncertain || negb (text_of "turn_id" (exec_payload x) =s text_of "turn_id" p) ||
                    negb (same_step x p) || negb (same_call x o) ||
                    negb (existsb reconciliation_ref (texts_at "evidence_refs" o))) invalid;
      Ok (set_invocations (upsert invocation (reconcile o event x)) s)
  end.

Definition tool_execution_completed (event : value) (s : session) : result session :=
  let p := payload event in
  let o := get "outcome" p in
  let id := text_of "turn_id" p in
  let invocation := text_of "invocation_id" o in
  let invalid := SessionReplayError "tool outcome does not match one pending durable execution" "AGENT_SESSION_TOOL_OUTCOME_MISMATCH" in
  _ ← requireTurn s id event;
  match assoc invocation (tool_invocations s) with
  | None => Throw invalid
  | Some x =>
      _ ← throw_if (has_outcome x || negb (same_step x p) || negb (same_call x o)) invalid;
      Ok (update_turn id (set_executions (upsert (text_of "tool_call_id" (exec_payload x)) invocation))
           (set_invocations (upsert invocation (complete o event x)) s))
  end.

Definition tool_operation_linked (event : value) (s : session) : result session :=
  let p := payload event in
  let call := text_of "tool_call_id" p in
  let operation := text_of "operation_id" p in
  t ← requireTurn s (text_of "turn_id" p) event;
  _ ← throw_if (match turn_execution s t call with
                | Some x => negb (bool_decide (get "operation_id" (default VUndef (outcome x)) = VStr operation))
                | None => inherited call
                end)
        (SessionReplayError "operation link differs from the durable tool outcome" "AGENT_SESSION_OPERATION_MISMATCH");
  _ ← throw_if (operation ∈s operation_ids s)
        (SessionReplayError "governed operation is already linked" "AGENT_SESSION_DUPLICATE_OPERATION");
  Ok (set_operations (operation_ids s ++ [operation]) s).
End replay.
