(* ===== verification/SessionReplay.v ===== *)
(** * Replay of the durable events of a session (packages/agent-session-store/replay.js)

    The compaction, lineage and terminal events, the reducer that folds every event
    after its checks of sequence, identity and termination, the reconstruction of a
    model request and the recovery plan.

    [parse_event] is the third-party schema validation of an event, [date_parse] the
    reading of a timestamp with an offset and [nearest] the rounding of a decimal to a
    double; every theorem holds for any of them. *)
From S2P Require Import Prelude JsValue CanonicalJson JsMap StrictJson Ledger OperationId JsonParse.
From S2P Require Import SessionState SessionTools SessionWorkflow SessionEvents.

(** ** Lineage *)

Definition child_attached (event : value) (s : session) : result session :=
  let id := text_of "child_session_id" (payload event) in
  _ ← throw_if (bool_decide (session_id s = Some id))
        (SessionReplayError "session cannot attach itself as a child" "AGENT_SESSION_SELF_CHILD");
  _ ← throw_if (id ∈s children s)
        (SessionReplayError "child session is already attached" "AGENT_SESSION_DUPLICATE_CHILD");
  _ ← throw_if (limit "max_children" s <=? Z.of_nat (length (children s)))%Z
        (SessionReplayError "session child limit is exhausted" "AGENT_SESSION_CHILD_LIMIT_EXCEEDED");
  Ok (set_lineage (parent s) (children s ++ [id]) (subagent_request s) s).

Definition subagent_requested (event : value) (s : session) : result session :=
  _ ← throw_if (bool_decide (is_Some (subagent_request s)) || negb (bool_decide (turns s = [])))
        (SessionReplayError "subagent request must be unique and precede execution" "AGENT_SESSION_SUBAGENT_REQUEST_INVALID");
  Ok (set_lineage (parent s) (children s) (Some (record_of event)) s).

(** ** Termination *)

Definition cancellation_requested (event : value) (s : session) : result session :=
  _ ← throw_if (bool_decide (is_Some (cancellation_request s)))
        (SessionReplayError "session cancellation was already requested" "AGENT_SESSION_DUPLICATE_CANCELLATION");
  Ok (set_cancellation (record_of event) s).

Definition session_cancelled (event : value) (s : session) : result session :=
  let p := payload event in
  match cancellation_request s with
  | None => Throw (SessionReplayError "session cancellation requires a preceding durable request"
              "AGENT_SESSION_CANCELLATION_REQUIRED")
  | Some c =>
      _ ← throw_if (text_of "source" c =s "deadline")
            (SessionReplayError "deadline cancellation must terminate as a timeout failure" "AGENT_SESSION_CANCELLATION_TERMINAL_INVALID");
      _ ← throw_if (negb (bool_decide (get "reason" p = get "reason" c)) ||
                    negb (bool_decide (get "cascade" p = get "cascade" c)))
            (SessionReplayError "session cancellation terminal differs from the durable request" "AGENT_SESSION_CANCELLATION_MISMATCH");
      _ ← assertStartedWorkSettled s;
      Ok (set_terminated "cancelled" event s)
  end.

Definition session_failed (event : value) (s : session) : result session :=
  _ ← assertStartedWorkSettled s;
  Ok (set_terminated "failed" event s).

(** The first terminal event of the latest step, or of the turn without steps. *)
Definition latest_terminal (s : session) : option value :=
  t ← last (turns s);
  find is_terminal (match last (model_steps t) with Some x => step_events x | None => model_events t end).
Definition stopped (o : option value) : bool :=
  match o with
  | Some e => (event_kind e =s "completed") && (text_of "finish_reason" (payload e) =s "stop")
  | None => false
  end.

Definition session_completed (event : value) (s : session) : result session :=
  _ ← throw_if (existsb incomplete_stream (turns s))
        (SessionReplayError "session cannot complete while a model stream is incomplete" "AGENT_SESSION_MODEL_INCOMPLETE");
  _ ← assertStartedWorkSettled s;
  _ ← throw_if (negb (stopped (latest_terminal s)))
        (SessionReplayError "session success requires the latest model step to complete with stop" "AGENT_SESSION_SUCCESS_PRECONDITION_INVALID");
  Ok (set_terminated "completed" event s).

Definition terminates (event : value) : bool :=
  event_kind event ∈s ["session.cancelled"; "session.failed"; "session.completed"].

(** ** Compaction *)

Section replay.
Context `{Sha256}.
Context (nearest : Z → Z → number) (date_parse : value → option Z).

Definition order_violation (message : string) : value :=
  SessionReplayError message "AGENT_SESSION_COMPACTION_ORDER_INVALID".
Definition lineage_violation (message : string) : value :=
  SessionReplayError message "AGENT_SESSION_COMPACTION_LINEAGE_INVALID".
Definition identity_violation (message : string) : value :=
  SessionReplayError message "AGENT_SESSION_COMPACTION_TOOL_IDENTITY_INVALID".

(** A compaction is a duplicate by its identity or by its sources. *)
Definition duplicate_compaction (p c : value) : bool :=
  bool_decide (get "compaction_id" c = get "compaction_id" p) ||
  bool_decide (get "checkpoint_ref" c = get "checkpoint_ref" p) ||
  (bool_decide (get "turn_id" c = get "turn_id" p) && bool_decide (get "trigger" c = get "trigger" p) &&
   same_json (get "source_event_ids" c) (get "source_event_ids" p)).

(** The history a context compaction replaces: a prefix of the durable one. *)
Definition context_sources (s : session) (t : turn) (p : value) : result (list value) :=
  _ ← throw_if (bool_decide (is_Some (turn_request t)) || bool_decide (is_Some (context_compaction t)))
        (order_violation "turn context compaction must occur exactly once before context assembly");
  let durable := durableHistory s (text_of "turn_id" p) in
  let recorded := list_at "source_event_ids" p ++ list_at "retained_source_event_ids" p in
  _ ← throw_if (negb (same_json (VArr recorded) (VArr ((λ v, get "source_event_id" v) <$> durable))))
        (lineage_violation "compaction lineage must partition the exact durable history into prefix and suffix");
  Ok (take (length (list_at "source_event_ids" p)) durable).

(** The source a settled execution is for a compaction. *)
Definition execution_source (x : execution) : value :=
  VObj [("source_event_id", opt_value (completed_event_id x));
        ("source_ref", VStr (event_ref (default "null" (completed_event_id x))));
        ("sequence", VNum (NInt (default 0%Z (completed_event_sequence x))));
        ("message", toolOutcomeMessage x)].

(** The executions of a turn by completion event; the last one a [Map] keeps. *)
Definition by_completed_event (s : session) (t : turn) (id : string) : option execution :=
  find_last (λ x, bool_decide (completed_event_id x = Some id))
    (omap (λ inv, assoc inv (tool_invocations s)) (object_values (tool_executions t))).
(** The position of a step in its turn *)
Definition step_index (t : turn) (id : string) : option nat :=
  find_index (λ x, step_id x =s id) (model_steps t).

(** One source of an older-results record; [cursor] is the position of the previous one
    in the last request. *)
Definition older_source (s : session) (t : turn) (x : step) (replacements : list value)
    (cursor : Z) (index : nat) (event_id : string) : result (Z * value) :=
  let messages := list_at "messages" (step_request x) in
  match by_completed_event s t event_id with
  | None => Throw (lineage_violation "older-results source is not a completed durable result")
  | Some e =>
      _ ← throw_if (negb (has_outcome e))
            (lineage_violation "older-results source is not a completed durable result");
      _ ← throw_if (match step_index t (text_of "step_id" (exec_payload e)) with
                    | Some i => negb (i <? length (model_steps t) - 1)%nat
                    | None => true
                    end)
            (lineage_violation "older-results source belongs to the current step");
      let call := get "tool_call_id" (exec_payload e) in
      let position := match find_index (λ m, bool_decide (get "tool_call_id" m = call)) messages with
                      | Some i => Z.of_nat i
                      | None => (-1)%Z
                      end in
      _ ← throw_if (position <=? cursor)%Z (lineage_violation "older-results sources are not in request order");
      let durable := toolOutcomeMessage e in
      _ ← throw_if (negb (same_json (default VUndef (messages !! Z.to_nat position)) durable))
            (lineage_violation "older-results source is not verbatim in the last request");
      let replacement := default VUndef (replacements !! index) in
      _ ← throw_if (negb (bool_decide (get "tool_call_id" replacement = call)))
            (identity_violation "older-results replacement changes call identity");
      _ ← throw_if (negb (bool_decide (get "name" replacement = get "name" (exec_payload e))))
            (identity_violation "older-results replacement changes the tool name");
      violation ← prunedStubViolation nearest durable replacement;
      _ ← match violation with
          | Some v => Throw (SessionReplayError ("older tool compaction stub is not faithful: " +:+ v)
                        "AGENT_SESSION_COMPACTION_STUB_MISMATCH")
          | None => Ok ()
          end;
      Ok (position, execution_source e)
  end.
Fixpoint older_sources (s : session) (t : turn) (x : step) (replacements : list value)
    (cursor : Z) (index : nat) (ids : list string) : result (list value) :=
  match ids with
  | [] => Ok []
  | id :: ids =>
      '(cursor, source) ← older_source s t x replacements cursor index id;
      sources ← older_sources s t x replacements cursor (S index) ids;
      Ok (source :: sources)
  end.

(** The sources of a tool compaction, and whether they are results of earlier steps. *)
Definition tool_sources (s : session) (t : turn) (p : value) : result (list value * bool) :=
  let early := order_violation "tool compaction requires a completed tool-call step" in
  let replacements := list_at "replacement_messages" p in
  match last (model_steps t) with
  | None => Throw early
  | Some x =>
      _ ← throw_if (negb (finished "tool_calls" (step_events x))) early;
      calls ← assembledToolCalls nearest (step_events x);
      let executions := executions_of s t calls in
      _ ← throw_if (existsb unsettled executions || negb (bool_decide (list_at "retained_source_event_ids" p = [])))
            (lineage_violation "tool compaction lineage differs from exact durable outcomes");
      let current := VArr (completed_id <$> executions) in
      if same_json (get "source_event_ids" p) current then
        _ ← throw_if (negb (same_json (VArr ((λ m, get "tool_call_id" m) <$> replacements))
                              (id_list (call_id <$> calls))))
              (identity_violation "tool compaction changed call identity or ordering");
        Ok (execution_source <$> omap id executions, false)
      else
        _ ← throw_if (bool_decide (is_Some (pending_older_compaction t)))
              (order_violation "an older-results record is already pending for this step");
        _ ← throw_if (negb (text_of "strategy" p =s "tool_result_prune"))
              (order_violation "an older-results record must prune tool results");
        _ ← throw_if (existsb (λ c, same_json (get "source_event_ids" c) current) (tool_compactions t))
              (order_violation "an older-results record cannot follow the current-results record");
        sources ← older_sources s t x replacements (-1) 0 (texts_at "source_event_ids" p);
        _ ← throw_if (negb (length replacements =? length sources)%nat)
              (identity_violation "older tool compaction changed call identity or ordering");
        Ok (sources, true)
  end.

(** The digest, the sizes and the providers of a compaction. *)
Definition check_accounting (t : turn) (p : value) (sources : list value) : result unit :=
  _ ← throw_if (negb (text_of "source_digest" p =s json_digest (VArr sources)))
        (SessionReplayError "compaction source digest differs from durable history" "AGENT_SESSION_COMPACTION_DIGEST_INVALID");
  _ ← throw_if (negb (same_json (get "before" p) (compactionStats (source_message <$> sources))) ||
                negb (same_json (get "after" p) (compactionStats (list_at "replacement_messages" p))))
        (SessionReplayError "compaction accounting differs from durable messages" "AGENT_SESSION_COMPACTION_ACCOUNTING_INVALID");
  let manifest := get "provider_manifest" p in
  _ ← throw_if ((number_at "max_input_bytes" manifest <? number_at "bytes" (get "before" p))%Z ||
                (number_at "max_output_bytes" manifest <? number_at "bytes" (get "after" p))%Z)
        (SessionReplayError "compaction exceeds its durable provider manifest" "AGENT_SESSION_COMPACTION_CAP_INVALID");
  throw_if (truthy (budget t) && negb (same_provenance (budget t) p))
    (SessionReplayError "tool compaction provenance differs from selected budget providers" "AGENT_SESSION_COMPACTION_PROVENANCE_INVALID").

Definition compaction_completed (event : value) (s : session) : result session :=
  let p := payload event in
  let id := text_of "turn_id" p in
  let context := text_of "trigger" p =s "context_pressure" in
  t ← requireTurn s id event;
  _ ← throw_if (existsb (duplicate_compaction p) (compactions s))
        (SessionReplayError "compaction identity or source set is already recorded" "AGENT_SESSION_DUPLICATE_COMPACTION");
  '(sources, older) ← (if context then sources ← context_sources s t p; Ok (sources, false)
                       else tool_sources s t p);
  _ ← check_accounting t p sources;
  let c := record_of event in
  let record t := set_compaction
    (if context then Some c else context_compaction t)
    (if context then tool_compactions t else tool_compactions t ++ [c])
    (if older : bool then Some c else pending_older_compaction t) t in
  Ok (set_compactions (compactions s ++ [c]) (update_turn id record s)).

(** ** The reducer *)

(** [switch (event.event_type)]: an event type without a case changes nothing. *)
Definition handle (seen : list string) (event : value) (s : session) : result session :=
  let type := text_of "event_type" event in
  if type =s "session.created" then session_created event s
  else if type =s "session.forked" then session_forked event s
  else if type =s "session.reconciled" then session_reconciled event s
  else if type =s "session.resumed" then session_resumed event s
  else if type =s "turn.started" then turn_started event s
  else if type =s "context.assembled" then context_assembled event s
  else if type =s "model.request.started" then model_request_started nearest seen event s
  else if type =s "model.revision.requested" then model_revision_requested event s
  else if type =s "model.streamed" then model_streamed event s
  else if type =s "tool.execution.started" then tool_execution_started nearest event s
  else if type =s "tool.execution.reconciled" then tool_execution_reconciled event s
  else if type =s "tool.execution.completed" then tool_execution_completed event s
  else if type =s "tool.operation_linked" then tool_operation_linked event s
  else if type =s "compaction.completed" then compaction_completed event s
  else if type =s "child.attached" then child_attached event s
  else if type =s "subagent.requested" then subagent_requested event s
  else if type =s "workflow.reserved" then workflow_reserved event s
  else if type =s "workflow.revised" then reviseWorkflow event s
  else if type =s "workflow.reclaimed" then workflow_reclaimed date_parse event s
  else if type =s "workflow.released" then workflow_released event s
  else if type =s "workflow.checkpointed" then workflow_checkpointed event s
  else if type =s "workflow.phase.checkpointed" then workflow_phase_checkpointed event s
  else if type =s "session.cancellation.requested" then cancellation_requested event s
  else if type =s "session.cancelled" then session_cancelled event s
  else if type =s "session.failed" then session_failed event s
  else if type =s "session.completed" then session_completed event s
  else Ok s.

(** The checks before the switch. *)
Definition admit_event (event : value) (s : session) : result unit :=
  let n := number_at "sequence" event in
  let expected := (current_sequence s + 1)%Z in
  let created := text_of "event_type" event =s "session.created" in
  _ ← throw_if (negb (n =? expected)%Z)
        (SessionReplayError_with "session stream contains a sequence gap or duplicate" "AGENT_SESSION_SEQUENCE_INVALID"
           (VObj [("event_id", get "event_id" event); ("expected_sequence", VNum (NInt expected));
                  ("actual_sequence", get "sequence" event)]));
  _ ← throw_if (match session_id s with Some id => negb (text_of "session_id" event =s id) | None => false end)
        (SessionReplayError "session stream contains a foreign session identifier" "AGENT_SESSION_IDENTITY_MISMATCH");
  _ ← match terminal_event s with
      | Some e => Throw (SessionReplayError_with "session stream continues after its terminal outcome"
                    "AGENT_SESSION_ALREADY_TERMINAL"
                    (VObj [("terminal_event_id", get "event_id" e); ("rejected_event_id", get "event_id" event)]))
      | None => Ok ()
      end;
  _ ← throw_if ((n =? 1)%Z && negb created)
        (SessionReplayError "the first session event must be session.created" "AGENT_SESSION_CREATION_REQUIRED");
  _ ← throw_if ((1 <? n)%Z && created)
        (SessionReplayError "session.created may occur only once" "AGENT_SESSION_DUPLICATE_CREATION");
  throw_if (terminates event && existsb (λ r, negb (is_released r)) (workflow_reservations s))
    (SessionReplayError "session cannot terminate before workflow drain" "AGENT_SESSION_WORKFLOW_ACTIVE").

Definition identified (event : value) (s : session) : session :=
  set_identity (text_of "session_id" event) (number_at "sequence" event) s.

(** The state a replay returns, with the identifiers [REPLAY_CHECKPOINTS] keeps for it. *)
Definition checkpoint : Type := session * list string.
Definition no_checkpoint : checkpoint := (empty_session, []).

Definition step_event (event : value) (c : checkpoint) : result checkpoint :=
  let '(s, seen) := c in
  _ ← admit_event event s;
  s ← handle seen event (identified event s);
  Ok (s, seen ++ [event_id_of event]).
Fixpoint fold_events (events : list value) (c : checkpoint) : result checkpoint :=
  match events with
  | [] => Ok c
  | e :: events => c ← step_event e c; fold_events events c
  end.

Context (parse_event : value → result value).

(** Only states a replay has returned are checkpoints: they are the argument [from]. *)
Definition replaySessionEvents (inputEvents : value) (from : option checkpoint) : result checkpoint :=
  match inputEvents with
  | VArr l =>
      events ← map_result parse_event l;
      fold_events events (default no_checkpoint from)
  | _ => Throw (SessionReplayError "events must be an array" "AGENT_SESSION_REPLAY_INVALID")
  end.

(** ** Reading a replayed session *)

Definition reconstructModelRequest (events : value) (turn : option string) (from : option checkpoint) :
    result value :=
  c ← replaySessionEvents events from;
  let s := c.1 in
  let selected := match turn with
                  | Some id => if id =s "" then turn_id <$> last (turns s) else Some id
                  | None => turn_id <$> last (turns s)
                  end in
  match selected ≫= λ id, (λ t, (t, turn_request t)) <$> find_turn id s with
  | Some (t, Some request) =>
      let json := default "" (canonical_json request) in
      Ok (VObj [("request", request); ("canonical_json", VStr json);
                ("byte_length", VNum (NInt (Z.of_nat (String.length json))));
                ("source_refs", source_refs t); ("budget", budget t);
                ("source_event_id", opt_value (request_event_id t))])
  | _ => Throw (SessionReplayError_with "no assembled model request exists for the selected turn"
           "AGENT_SESSION_REQUEST_NOT_FOUND" (VObj [("turn_id", opt_value selected)]))
  end.

Record plan := MkPlan {
  plan_session : option string;
  plan_sequence : Z;
  plan_terminal : bool;
  next_action : string;
  plan_turn : option string;
  plan_request : option value;
}.

(** [turn.tool_executions[id]] is an object: an execution, or the inherited constructor. *)
Definition started_call (t : turn) (c : call) : bool := present (call_id c) (tool_executions t).
Definition next_of_step (s : session) (t : turn) (x : step) : result string :=
  match find is_terminal (step_events x) with
  | None => Ok (if bool_decide (step_events x = []) then "restart_model_request" else "fail_interrupted_model")
  | Some e =>
      if event_kind e =s "failed" then Ok "fail_after_model"
      else if text_of "finish_reason" (payload e) =s "tool_calls" then
        calls ← assembledToolCalls nearest (step_events x);
        Ok (if negb (forallb (started_call t) calls) then "execute_tools"
            else if existsb unsettled (executions_of s t calls) then "resume_tools"
            else "continue_after_tools")
      else Ok "settle_after_model"
  end.

Definition recovery_plan (s : session) : result plan :=
  _ ← throw_if (status s =s "empty")
        (SessionReplayError "cannot recover an empty session" "AGENT_SESSION_NOT_FOUND");
  let plan_with := MkPlan (session_id s) (current_sequence s) in
  if bool_decide (is_Some (terminal_event s)) then Ok (plan_with true "none" None None)
  else
    match last (turns s) with
    | None => Ok (plan_with false "await_input" None None)
    | Some t =>
        match turn_request t with
        | None => Ok (plan_with false "assemble_context" (Some (turn_id t)) None)
        | Some assembled =>
            let latest := last (model_steps t) in
            let request := match latest with Some x => step_request x | None => assembled end in
            action ← (if bool_decide (is_Some (cancellation_request s)) then Ok "settle_cancellation"
                      else match latest with
                           | Some x => next_of_step s t x
                           | None => Ok "restart_model_request"
                           end);
            Ok (plan_with false action (Some (turn_id t)) (Some request))
        end
    end.

Definition buildRecoveryPlan (events : value) : result plan :=
  c ← replaySessionEvents events None;
  recovery_plan c.1.
End replay.
