(* ===== verification/SessionSafety.v ===== *)
(** * Invariants of replayed sessions

    What holds of every state the reducer returns, by induction on the events: the
    well-formedness of its tables, the exact accounting and the bounds of model
    streams, the settlement of started work before a terminal event and the model
    calls behind every tool execution. *)
From S2P Require Import Prelude JsValue CanonicalJson JsMap StrictJson Ledger OperationId JsonParse.
From S2P Require Import SessionState SessionTools SessionWorkflow SessionEvents SessionReplay.

(** ** Lists of keyed records *)

Section keyed.
Context {A : Type} (key : A → string).
Implicit Types (l : list A).

Definition at_key (id : string) (f : A → A) (x : A) : A := if key x =s id then f x else x.

Lemma keys_at_key id f l : (∀ x, key (f x) = key x) → key <$> (at_key id f <$> l) = key <$> l.
Proof.
  intros Hf. rewrite <- list_fmap_compose. apply list_fmap_ext. intros _ x _. simpl.
  unfold at_key. by case_if.
Qed.

Lemma find_key id l x : find (λ x, key x =s id) l = Some x → x ∈ l ∧ key x = id.
Proof. intros [Hx E]%find_some_elem. bool_props. done. Qed.

Lemma find_key_none id l : find (λ x, key x =s id) l = None → id ∉ key <$> l.
Proof.
  intros Hf%find_none_elem. rewrite existsb_false in Hf.
  intros (x & -> & Hx)%list_elem_of_fmap. specialize (Hf x Hx). by rewrite String.eqb_refl in Hf.
Qed.

Lemma find_key_NoDup id l x : NoDup (key <$> l) → x ∈ l → key x = id → find (λ x, key x =s id) l = Some x.
Proof.
  induction l as [|y l IH]; simpl; [set_solver|]. intros HN Hx Hid. inversion HN as [|?? Hy HN']; subst.
  destruct (key y =s key x) eqn:E; bool_props.
  - apply elem_of_cons in Hx as [->|Hx]; [done|]. rewrite E in Hy. destruct Hy. by apply list_elem_of_fmap_2.
  - apply elem_of_cons in Hx as [->|Hx]; [done|]. by apply IH.
Qed.

Lemma elem_of_at_key id f l y : y ∈ at_key id f <$> l →
  ∃ x, x ∈ l ∧ (key x = id ∧ y = f x ∨ y = x).
Proof.
  intros (x & -> & Hx)%list_elem_of_fmap. exists x. split; [done|].
  unfold at_key. destruct (key x =s id) eqn:E; bool_props; auto.
Qed.

Lemma NoDup_snoc_key l x : NoDup (key <$> l) → key x ∉ key <$> l → NoDup (key <$> l ++ [x]).
Proof.
  intros HN Hx. rewrite fmap_app. apply NoDup_app. split_and!; [done| |apply NoDup_singleton].
  set_solver.
Qed.
End keyed.

(** ** The text of a stream *)

Lemma length_concat_snoc l s :
  String.length (String.concat "," (l ++ [s])) =
  (String.length (String.concat "," l) + (if bool_decide (l = []) then 0 else 1) + String.length s)%nat.
Proof.
  induction l as [|x l IH]; [done|]. destruct l as [|y l].
  - simpl. rewrite !length_app_text. simpl. lia.
  - change (String.concat "," ((x :: y :: l) ++ [s])) with (x +:+ "," +:+ String.concat "," ((y :: l) ++ [s])).
    change (String.concat "," (x :: y :: l)) with (x +:+ "," +:+ String.concat "," (y :: l)).
    rewrite !length_app_text, IH. simpl. lia.
Qed.

Lemma json_bytes_snoc l v :
  json_bytes (VArr (l ++ [v])) =
  (json_bytes (VArr l) + (if bool_decide (l = []) then 0 else 1) + json_bytes v)%Z.
Proof.
  unfold json_bytes. simpl. unfold brackets. rewrite fmap_app. simpl.
  rewrite !length_app_text, length_concat_snoc. simpl.
  assert (bool_decide (((λ x, default "" (canonical_json x)) <$> l) = []) = bool_decide (l = [])) as ->.
  { apply bool_decide_ext. destruct l; simpl; split; congruence. }
  case_bool_decide; lia.
Qed.

Lemma json_bytes_nil : json_bytes (VArr []) = 2%Z.
Proof. reflexivity. Qed.
Lemma json_bytes_nonneg v : (0 ≤ json_bytes v)%Z.
Proof. unfold json_bytes. lia. Qed.

Lemma has_terminal_snoc l e : has_terminal (l ++ [e]) = has_terminal l || is_terminal e.
Proof. unfold has_terminal. rewrite existsb_app. simpl. by rewrite orb_false_r. Qed.

(** ** Well-formed steps and turns *)

(** The text of the stream of a step is accounted for, within the bounds and with room
    for a terminal event; its events are numbered and only the last one is terminal. *)
Record step_wf (x : step) : Prop := {
  wf_bytes : model_stream_bytes x = json_bytes (VArr (step_events x));
  wf_count : (Z.of_nat (length (step_events x)) ≤ MAX_MODEL_EVENTS_PER_STEP)%Z;
  wf_stream : (model_stream_bytes x ≤ MAX_MODEL_STREAM_BYTES_PER_STEP)%Z;
  wf_reserve : has_terminal (step_events x) = false →
    (Z.of_nat (length (step_events x)) < MAX_MODEL_EVENTS_PER_STEP)%Z ∧
    (model_stream_bytes x ≤ MAX_MODEL_STREAM_BYTES_PER_STEP - MODEL_TERMINAL_RESERVE_BYTES)%Z;
  wf_numbered i e : step_events x !! i = Some e → number_at "sequence" e = Z.of_nat i;
  wf_last i e : step_events x !! i = Some e → is_terminal e = true → S i = length (step_events x);
}.

Lemma new_step_wf event : step_wf (new_step event).
Proof. by constructor. Qed.

Lemma check_stream_ok request p target : check_stream request p target = Ok () →
  number_at "sequence" (get "event" p) = Z.of_nat (length target) ∧ has_terminal target = false.
Proof. unfold check_stream. intros H. inv_ok H. inv_throw_if. bool_props. done. Qed.

Lemma step_events_push e id x : step_events (push_event e id x) = step_events x ++ [e].
Proof. unfold push_event. by case_if. Qed.
Lemma stream_bytes_push e id x : model_stream_bytes (push_event e id x) = next_bytes x e.
Proof. unfold push_event. by case_if. Qed.
Lemma step_id_push e id x : step_id (push_event e id x) = step_id x.
Proof. unfold push_event. by case_if. Qed.

Lemma push_event_wf e id x :
  step_wf x → number_at "sequence" e = Z.of_nat (length (step_events x)) →
  has_terminal (step_events x) = false →
  exceeds_stream (length (step_events x)) (next_bytes x e) (is_terminal e) = false →
  step_wf (push_event e id x).
Proof.
  intros [Hb Hc Hs Hr Hn Hl] Hseq Ht Hx. unfold exceeds_stream in Hx.
  unfold MAX_MODEL_EVENTS_PER_STEP, MAX_MODEL_STREAM_BYTES_PER_STEP, MODEL_TERMINAL_RESERVE_BYTES in *.
  bool_props.
  constructor; rewrite ?step_events_push, ?stream_bytes_push, ?length_app;
    unfold MAX_MODEL_EVENTS_PER_STEP, MAX_MODEL_STREAM_BYTES_PER_STEP, MODEL_TERMINAL_RESERVE_BYTES; simpl.
  - unfold next_bytes. rewrite Hb. by rewrite json_bytes_snoc.
  - lia.
  - lia.
  - rewrite has_terminal_snoc. intros [_ Hnt]%orb_false_iff. rewrite Hnt in *. simpl in *. bool_props. lia.
  - intros i f [Hf|[Hi Hf]]%lookup_app_Some; [by apply Hn|].
    destruct (i - length (step_events x)) eqn:E; simpl in Hf; [|done]. simplify_eq. lia.
  - intros i f [Hf|[Hi Hf]]%lookup_app_Some Hterm.
    + apply list_elem_of_lookup_2 in Hf. unfold has_terminal in Ht. rewrite existsb_false in Ht.
      by rewrite (Ht _ Hf) in Hterm.
    + destruct (i - length (step_events x)) eqn:E; simpl in Hf; [lia|done].
Qed.

Lemma set_revision_wf r x : step_wf x → step_wf (set_revision r x).
Proof. intros []. by constructor. Qed.

Record turn_wf (t : turn) : Prop := {
  wf_step_ids : NoDup (step_id <$> model_steps t);
  wf_steps x : x ∈ model_steps t → step_wf x;
}.

(** ** What an event changes *)

(** The fields the invariants below are about. *)
Definition core (s : session) :=
  (turns s, tool_invocations s, operation_ids s, children s, workflow_reservations s, spec s,
   terminal_event s, status s, current_sequence s).

(** A change of a turn that keeps its steps. *)
Definition keeps_work (f : turn → turn) : Prop := ∀ t,
  turn_id (f t) = turn_id t ∧ model_steps (f t) = model_steps t.
Definition keeps_claim (f : reservation → reservation) : Prop := ∀ r,
  workflow_id (f r) = workflow_id r ∧ (is_released r = true → is_released (f r) = true).
(** The outcome of an execution may still change: there is none, or it is uncertain. *)
Definition open_outcome (x : execution) : Prop :=
  match outcome x with Some o => text_of "status" o = "uncertain" | None => True end.

Section change.
Context (nearest : Z → Z → number).

(** The call of a finished step that a tool execution carries out. *)
Definition carries_out (x : step) (p : value) : Prop :=
  step_id x = text_of "step_id" p ∧ finished "tool_calls" (step_events x) = true ∧
  ∃ calls c, assembledToolCalls nearest (step_events x) = Ok calls ∧ c ∈ calls ∧
    call_id c = text_of "tool_call_id" p ∧ call_name c = text_of "name" p ∧
    same_json (call_input c) (get "input" p) = true.

(** The abstract transitions of a session: what an accepted event does to its core. *)
Inductive change (event : value) (s : session) : session → Prop :=
  | Framed s' : core s' = core s → change event s s'
  | Created s' : text_of "event_type" event = "session.created" →
      s' = set_status (get "spec" (payload event)) "active" s → change event s s'
  | Turned s' t : core s' = core (set_turns (λ l, l ++ [t]) s) →
      turn_id t ∉ turn_id <$> turns s → model_steps t = [] → tool_executions t = [] → change event s s'
  | Noted s' id f : core s' = core (update_turn id f s) → keeps_work f → change event s s'
  | Stepped s' t f : core s' = core (update_turn (turn_id t) (λ t, set_steps (λ l, l ++ [new_step event]) (f t)) s) →
      t ∈ turns s → keeps_work f → text_of "step_id" (payload event) ∉ step_id <$> model_steps t → change event s s'
  | Streamed s' t x f e : core s' = core (update_turn (turn_id t)
        (λ t, update_step (step_id x) (push_event e (event_id_of event)) (f t)) s) →
      t ∈ turns s → x ∈ model_steps t → keeps_work f →
      number_at "sequence" e = Z.of_nat (length (step_events x)) → has_terminal (step_events x) = false →
      exceeds_stream (length (step_events x)) (next_bytes x e) (is_terminal e) = false → change event s s'
  | Reviewed s' id sid r : core s' = core (update_turn id (update_step sid (set_revision r)) s) → change event s s'
  | Started s' t x p : core s' = core (set_invocations (upsert (text_of "invocation_id" p) (new_execution event))
        (update_turn (turn_id t) (set_executions (upsert (text_of "tool_call_id" p) (text_of "invocation_id" p))) s)) →
      p = payload event → t ∈ turns s → turn_id t = text_of "turn_id" p → x ∈ model_steps t → carries_out x p →
      text_of "invocation_id" p ∉ (tool_invocations s).*1 →
      (Z.of_nat (length (tool_invocations s)) < limit "max_tool_calls" s)%Z → change event s s'
  | Settled s' id inv x x' f : core s' = core (update_turn id f (set_invocations (upsert inv x') s)) →
      keeps_work f → assoc inv (tool_invocations s) = Some x → open_outcome x → exec_payload x' = exec_payload x →
      has_outcome x' = true → change event s s'
  | Linked s' op : core s' = core (set_operations (operation_ids s ++ [op]) s) → op ∉ operation_ids s → change event s s'
  | Attached s' id : core s' = core (set_lineage (parent s) (children s ++ [id]) (subagent_request s) s) →
      id ∉ children s → session_id s ≠ Some id → (Z.of_nat (length (children s)) < limit "max_children" s)%Z →
      change event s s'
  | Reserved s' r : core s' = core (set_reservations (λ l, l ++ [r]) s) →
      workflow_id r ∉ workflow_id <$> workflow_reservations s →
      forallb is_released (workflow_reservations s) = true → change event s s'
  | Claimed s' id f : core s' = core (update_reservation id f s) → keeps_claim f → change event s s'
  | Ended s' st : s' = set_terminated st event s → terminates event = true →
      st ∈ ["cancelled"; "failed"; "completed"] → assertStartedWorkSettled s = Ok () →
      (st = "completed" → stopped (latest_terminal s) = true) → change event s s'.
End change.

(** Handlers that leave the core alone. *)
Lemma reserved_false id s : (inherited id || bool_decide (is_Some (find_reservation id s))) = false →
  id ∉ workflow_id <$> workflow_reservations s.
Proof.
  intros [_ Hf]%orb_false_iff. apply bool_decide_eq_false, eq_None_not_Some in Hf.
  by apply (find_key_none workflow_id).
Qed.

Lemma negb_existsb {A} (f : A → bool) l : existsb (λ x, negb (f x)) l = false → forallb f l = true.
Proof.
  rewrite existsb_false, forallb_true. intros Hl x Hx. specialize (Hl x Hx). by destruct (f x).
Qed.

Lemma includes_false x l : (x ∈s l) = false → x ∉ l.
Proof. intros Hf Hx. apply includes_spec in Hx. congruence. Qed.

Lemma requireTurn_ok s id event t : requireTurn s id event = Ok t → t ∈ turns s ∧ turn_id t = id.
Proof.
  unfold requireTurn. destruct (find_turn id s) eqn:E.
  - intros. simplify_eq. by apply (find_key turn_id).
  - by case_if.
Qed.

Section handlers.
Context `{Sha256} (nearest : Z → Z → number) (date_parse : value → option Z).
Notation change := (change nearest).

Ltac frame := match goal with H : Ok _ = Ok _ |- _ => injection H as <-; by apply Framed end.

Lemma turn_events_change event s s' :
  turn_started event s = Ok s' ∨ context_assembled event s = Ok s' ∨
  model_revision_requested event s = Ok s' → change event s s'.
Proof.
  intros [E|[E|E]].
  - unfold turn_started in E. inv_ok E. inv_throw_if. subst s'.
    apply orb_false_iff in Hok as [_ Hf]. apply bool_decide_eq_false, eq_None_not_Some in Hf.
    eapply Turned with (t := new_turn event); [done| |done|done]. by apply (find_key_none turn_id).
  - unfold context_assembled in E. inv_ok E. subst s'. eapply Noted; [done|]. by intros t.
  - unfold model_revision_requested in E. inv_ok E. destruct (last (model_steps a)); [|done]. inv_ok E. subst s'.
    by eapply Reviewed.
Qed.

Lemma find_step_none t id : (inherited id || bool_decide (is_Some (find_step id t))) = false →
  id ∉ step_id <$> model_steps t.
Proof.
  intros [_ Hf]%orb_false_iff. apply bool_decide_eq_false, eq_None_not_Some in Hf.
  by apply (find_key_none step_id).
Qed.

Lemma model_events_change seen event s s' :
  model_request_started nearest seen event s = Ok s' ∨ model_streamed event s = Ok s' → change event s s'.
Proof.
  intros [E|E].
  - unfold model_request_started in E. inv_ok E. inv_throw_if. subst s'.
    destruct (requireTurn_ok _ _ _ _ Hok) as [Ht Hid].
    eapply Stepped with (t := a) (f := λ t, set_compaction (context_compaction t) (tool_compactions t) None t);
      [by rewrite Hid|done|by intros t|by apply find_step_none].
  - unfold model_streamed in E. inv_ok E. destruct (requireTurn_ok _ _ _ _ Hok) as [Ht Hid].
    destruct (turn_request a); [|done]. destruct (truthy _) eqn:Hstep in E; simpl in E.
    + destruct (find_step _ a) as [x|] eqn:Hx; [|by case_if_in E].
      inv_ok E. inv_throw_if. subst s'. apply (find_key step_id) in Hx as [Hx Hxid].
      destruct a0, (check_stream_ok _ _ _ Hok0) as [Hn Hterm].
      eapply Streamed with (t := a) (x := x) (e := get "event" (payload event)); [by rewrite Hid, Hxid|done..].
    + inv_ok E. subst s'. eapply Noted; [done|by intros t].
Qed.

Lemma tool_events_change event s s' :
  tool_execution_started nearest event s = Ok s' ∨ tool_execution_reconciled event s = Ok s' ∨
  tool_execution_completed event s = Ok s' ∨ tool_operation_linked event s = Ok s' → change event s s'.
Proof.
  intros [E|[E|[E|E]]].
  - unfold tool_execution_started in E. inv_ok E. destruct (requireTurn_ok _ _ _ _ Hok) as [Ht Hid].
    destruct (find_step _ a) as [x|] eqn:Hx; [|by case_if_in E].
    apply (find_key step_id) in Hx as [Hx Hxid]. inv_ok E. inv_throw_if. subst s'.
    rename Hok0 into Hfin, Hok1 into Hdup, Hok2 into Hcalls, Hok3 into Hcall, Hok4 into Hlim.
    eapply Started with (t := a) (x := x); [by rewrite Hid|done..| | |].
    + split_and!; [done|by apply negb_false_iff in Hfin|]. destruct (find _ a2) as [c|] eqn:Hc; [|done].
      apply find_some_elem in Hc as [Hc Hcid]. exists a2, c. bool_props. done.
    + unfold present in Hdup. bool_props. apply assoc_None. by apply eq_None_not_Some.
    + bool_props. lia.
  - unfold tool_execution_reconciled in E. destruct (assoc _ _) as [x|] eqn:Hx; [|done].
    inv_ok E. inv_throw_if. subst s'. bool_props.
    eapply Settled with (f := λ t, t) (x := x) (x' := reconcile (get "outcome" (payload event)) event x) (id := "");
      [|by intros t|exact Hx| |done|done].
    + unfold core. simpl. repeat f_equal. symmetry. rewrite <- (list_fmap_id (turns s)) at 2.
      apply list_fmap_ext. intros _ t _. by case_if.
    + unfold open_outcome. destruct (outcome x); [|done]. by bool_props.
  - unfold tool_execution_completed in E. inv_ok E. destruct (assoc _ _) as [x|] eqn:Hx; [|done].
    inv_ok E. inv_throw_if. subst s'. bool_props.
    eapply Settled with (x := x); [done|by intros t|exact Hx| |done|done].
    unfold open_outcome, has_outcome in *. by destruct (outcome x).
  - unfold tool_operation_linked in E. inv_ok E. inv_throw_if. subst s'.
    eapply Linked; [done|by apply includes_false].
Qed.

Lemma compaction_change event s s' : compaction_completed nearest event s = Ok s' → change event s s'.
Proof.
  unfold compaction_completed. intros E. inv_ok E. destruct a1 as [sources older]. inv_ok E. subst s'.
  eapply Noted; [done|]. by intros t.
Qed.

Lemma lineage_events_change event s s' :
  child_attached event s = Ok s' ∨ subagent_requested event s = Ok s' → change event s s'.
Proof.
  intros [E|E].
  - unfold child_attached in E. inv_ok E. inv_throw_if. subst s'. bool_props.
    eapply Attached; [done|by apply includes_false|done|done].
  - unfold subagent_requested in E. inv_ok E. subst s'. by apply Framed.
Qed.

Lemma workflow_events_change event s s' :
  workflow_reserved event s = Ok s' ∨ reviseWorkflow event s = Ok s' ∨
  workflow_reclaimed date_parse event s = Ok s' ∨ workflow_released event s = Ok s' ∨
  workflow_checkpointed event s = Ok s' ∨ workflow_phase_checkpointed event s = Ok s' → change event s s'.
Proof.
  intros [E|[E|[E|[E|[E|E]]]]].
  - unfold workflow_reserved in E. inv_ok E. inv_throw_if. subst s'.
    eapply Reserved; [done|by apply reserved_false|by apply negb_existsb].
  - unfold reviseWorkflow in E. destruct (find_reservation _ s); [|done]. inv_ok E. subst s'.
    eapply Claimed; [done|by intros r'].
  - unfold workflow_reclaimed in E. destruct (find_reservation _ s); [|done]. inv_ok E. subst s'.
    eapply Claimed; [done|by intros r'].
  - unfold workflow_released in E. destruct (find_reservation _ s); [|done]. inv_ok E. subst s'.
    eapply Claimed; [done|by intros r'].
  - unfold workflow_checkpointed in E. inv_ok E. subst s'. by apply Framed.
  - unfold workflow_phase_checkpointed in E. destruct (find_reservation _ s); [|done]. inv_ok E. subst s'.
    by apply Framed.
Qed.

Lemma session_events_change event s s' :
  session_forked event s = Ok s' ∨ session_reconciled event s = Ok s' ∨ session_resumed event s = Ok s' ∨
  cancellation_requested event s = Ok s' → change event s s'.
Proof.
  intros [E|[E|[E|E]]].
  - unfold session_forked in E. inv_ok E. subst s'. by apply Framed.
  - unfold session_reconciled in E. inv_ok E. subst s'. by apply Framed.
  - unfold session_resumed in E. inv_ok E. subst s'. by apply Framed.
  - unfold cancellation_requested in E. inv_ok E. subst s'. by apply Framed.
Qed.

Lemma terminal_events_change event s s' : terminates event = true →
  session_cancelled event s = Ok s' ∨ session_failed event s = Ok s' ∨
  session_completed event s = Ok s' → change event s s'.
Proof.
  intros Hterm [E|[E|E]].
  - unfold session_cancelled in E. destruct (cancellation_request s); [|done]. inv_ok E. subst s'.
    destruct a1. by eapply Ended with (st := "cancelled"); [| |set_solver|..].
  - unfold session_failed in E. inv_ok E. subst s'. destruct a. by eapply Ended with (st := "failed"); [| |set_solver|..].
  - unfold session_completed in E. inv_ok E. inv_throw_if. subst s'. destruct a0.
    eapply Ended with (st := "completed"); [done|done|set_solver|done|]. intros _. by bool_props.
Qed.

(** The next branch of a chain of conditionals. *)
Ltac branch := match goal with
  | E : (if ?b then _ else _) = Ok _ |- _ => destruct b eqn:?; bool_props
  end.

(** Every accepted event is one of the abstract transitions. *)
Lemma handle_change seen event s s' : handle nearest date_parse seen event s = Ok s' → change event s s'.
Proof.
  unfold handle. intros E.
  branch; [injection E as <-; by apply Created|].
  branch; [apply session_events_change; tauto|]. branch; [apply session_events_change; tauto|].
  branch; [apply session_events_change; tauto|].
  branch; [apply turn_events_change; tauto|]. branch; [apply turn_events_change; tauto|].
  branch; [eapply model_events_change; eauto|]. branch; [apply turn_events_change; tauto|].
  branch; [eapply (model_events_change []); eauto|].
  do 4 (branch; [apply tool_events_change; tauto|]).
  branch; [by apply compaction_change|].
  do 2 (branch; [apply lineage_events_change; tauto|]).
  do 6 (branch; [apply workflow_events_change; tauto|]).
  branch; [apply session_events_change; tauto|].
  do 3 (branch; [apply terminal_events_change; [|tauto];
    unfold terminates, event_kind; match goal with H : text_of _ event = _ |- _ => by rewrite H end|]).
  injection E as <-. by apply Framed.
Qed.
End handlers.

(** ** Well-formed sessions *)

Section invariant.
Context (nearest : Z → Z → number).
Notation carries_out := (carries_out nearest).
Notation change := (change nearest).

(** The tables of a session: identifiers are unique, limits are kept, one reservation at
    most is active, and behind every tool execution there is the finished step of its
    turn that called it with these arguments. *)
Record session_wf (s : session) : Prop := {
  wf_turn_ids : NoDup (turn_id <$> turns s);
  wf_turns t : t ∈ turns s → turn_wf t;
  wf_invocations : NoDup (tool_invocations s).*1;
  wf_tool_limit : tool_invocations s ≠ [] →
    (Z.of_nat (length (tool_invocations s)) ≤ limit "max_tool_calls" s)%Z;
  wf_operations : NoDup (operation_ids s);
  wf_children : NoDup (children s);
  wf_child_limit : children s ≠ [] → (Z.of_nat (length (children s)) ≤ limit "max_children" s)%Z;
  wf_reservation_ids : NoDup (workflow_id <$> workflow_reservations s);
  wf_active r1 r2 : r1 ∈ workflow_reservations s → r2 ∈ workflow_reservations s →
    is_released r1 = false → is_released r2 = false → r1 = r2;
  wf_backed inv x : (inv, x) ∈ tool_invocations s →
    ∃ t st, t ∈ turns s ∧ turn_id t = text_of "turn_id" (exec_payload x) ∧
      st ∈ model_steps t ∧ carries_out st (exec_payload x);
}.

Lemma empty_session_wf : session_wf empty_session.
Proof. constructor; simpl; try done; try (by apply NoDup_nil_2); set_solver. Qed.

Lemma core_wf s s' : core s' = core s → session_wf s → session_wf s'.
Proof.
  unfold core. intros E. injection E as E1 E2 E3 E4 E5 E6 E7 E8 E9.
  intros []. constructor; unfold limit in *; rewrite ?E1, ?E2, ?E3, ?E4, ?E5, ?E6; auto.
Qed.

Lemma update_turn_wf id f s :
  (∀ t, turn_id (f t) = turn_id t) →
  (∀ t, t ∈ turns s → turn_id t = id → turn_wf t → turn_wf (f t)) →
  (∀ t x p, t ∈ turns s → turn_id t = id → turn_wf t → x ∈ model_steps t → carries_out x p →
     ∃ x', x' ∈ model_steps (f t) ∧ carries_out x' p) →
  session_wf s → session_wf (update_turn id f s).
Proof.
  intros Hid Hwf Hkeep [H1 H2 H3 H4 H5 H6 H7 H8 H9 H10].
  assert (Hturns : turns (update_turn id f s) = at_key turn_id id f <$> turns s) by done.
  constructor; rewrite ?Hturns; try done.
  - by rewrite keys_at_key.
  - intros t (t' & Ht & [[E ->]| ->])%elem_of_at_key; auto.
  - intros inv x Hx. destruct (H10 _ _ Hx) as (t & st & Ht & Hp & Hst & Hc).
    destruct (decide (turn_id t = id)) as [E|E].
    + destruct (Hkeep t st (exec_payload x)) as (st' & ? & ?); auto. exists (f t), st'. split_and!; [|by rewrite Hid|done..].
      apply list_elem_of_fmap. exists t. split; [|done]. unfold at_key. by rewrite E, String.eqb_refl.
    + exists t, st. split_and!; try done. apply list_elem_of_fmap. exists t. split; [|done].
      unfold at_key. apply String.eqb_neq in E. by rewrite E.
Qed.

Lemma finished_terminal reason l : finished reason l = true → has_terminal l = true.
Proof.
  unfold finished. destruct (last l) as [e|] eqn:E; [|done]. intros [He _]%andb_true_iff.
  apply existsb_true. exists e. split.
  - apply last_Some in E as [l' ->]. set_solver.
  - unfold is_terminal. by rewrite He.
Qed.

Lemma turn_wf_steps t t' : model_steps t' = model_steps t → turn_wf t → turn_wf t'.
Proof. intros E []. constructor; by rewrite E. Qed.

Lemma stepped_wf event t f : keeps_work f → turn_wf t →
  text_of "step_id" (payload event) ∉ step_id <$> model_steps t →
  turn_wf (set_steps (λ l, l ++ [new_step event]) (f t)).
Proof.
  intros Hf [H1 H2] Hn. destruct (Hf t) as (_ & E). constructor; simpl; rewrite E.
  - by apply NoDup_snoc_key.
  - intros x [Hx| ->%list_elem_of_singleton]%elem_of_app; [auto|apply new_step_wf].
Qed.

Lemma update_step_wf sid f t :
  (∀ x, step_id (f x) = step_id x) →
  (∀ x, x ∈ model_steps t → step_id x = sid → step_wf x → step_wf (f x)) →
  turn_wf t → turn_wf (update_step sid f t).
Proof.
  intros Hid Hf [H1 H2]. assert (E : model_steps (update_step sid f t) = at_key step_id sid f <$> model_steps t) by done.
  constructor; rewrite E.
  - by rewrite keys_at_key.
  - intros x (y & Hy & [[? ->]| ->])%elem_of_at_key; auto.
Qed.

Lemma update_step_keeps sid f t x p :
  (∀ y, y ∈ model_steps t → step_id y = sid → has_terminal (step_events y) = true →
     step_id (f y) = step_id y ∧ step_events (f y) = step_events y) →
  x ∈ model_steps t → carries_out x p →
  ∃ x', x' ∈ model_steps (update_step sid f t) ∧ carries_out x' p.
Proof.
  intros Hf Hx Hc. destruct (decide (step_id x = sid)) as [E|E].
  - exists (f x). assert (Ht : has_terminal (step_events x) = true) by (destruct Hc as (_ & Hc & _); by eapply finished_terminal).
    destruct (Hf x Hx E Ht) as [Hi He]. split.
    + apply list_elem_of_fmap. exists x. by rewrite E, String.eqb_refl.
    + unfold SessionSafety.carries_out in *. by rewrite Hi, He.
  - exists x. split; [|done]. apply list_elem_of_fmap. exists x. apply String.eqb_neq in E. by rewrite E.
Qed.

Lemma noted_wf id f s : keeps_work f → session_wf s → session_wf (update_turn id f s).
Proof.
  intros Hf. apply update_turn_wf; intros t; destruct (Hf t) as (Hi & Hs); [done| |].
  - intros _ _. by apply turn_wf_steps.
  - intros x p _ _ _ Hx Hc. exists x. by rewrite Hs.
Qed.

Lemma turned_wf t s : turn_id t ∉ turn_id <$> turns s → model_steps t = [] → session_wf s →
  session_wf (set_turns (λ l, l ++ [t]) s).
Proof.
  intros Hn Hs []. constructor; simpl; try done.
  - by apply NoDup_snoc_key.
  - intros t' [Ht| ->%list_elem_of_singleton]%elem_of_app; [auto|].
    constructor; rewrite Hs; [constructor|]. by intros x ?%elem_of_nil.
  - intros inv x Hx. destruct (wf_backed0 _ _ Hx) as (t' & st & ? & ?). exists t', st. set_solver.
Qed.

Lemma step_appended_wf event t f s : t ∈ turns s → keeps_work f →
  text_of "step_id" (payload event) ∉ step_id <$> model_steps t → session_wf s →
  session_wf (update_turn (turn_id t) (λ t, set_steps (λ l, l ++ [new_step event]) (f t)) s).
Proof.
  intros Ht Hf Hn Hwf. apply update_turn_wf; [| | |done].
  - intros t'. by destruct (Hf t').
  - intros t' Ht' E Htw. assert (t' = t) as ->.
    { pose proof (find_key_NoDup turn_id (turn_id t) _ t (wf_turn_ids _ Hwf) Ht eq_refl).
      pose proof (find_key_NoDup turn_id (turn_id t) _ t' (wf_turn_ids _ Hwf) Ht' E). congruence. }
    by apply stepped_wf.
  - intros t' x p _ _ _ Hx Hc. exists x. split; [|done]. simpl. destruct (Hf t') as (_ & ->). set_solver.
Qed.

Lemma same_turn s t t' : session_wf s → t ∈ turns s → t' ∈ turns s → turn_id t' = turn_id t → t' = t.
Proof.
  intros Hwf Ht Ht' E. pose proof (find_key_NoDup turn_id (turn_id t) _ t (wf_turn_ids _ Hwf) Ht eq_refl).
  pose proof (find_key_NoDup turn_id (turn_id t) _ t' (wf_turn_ids _ Hwf) Ht' E). congruence.
Qed.
Lemma same_step_of t x y : turn_wf t → x ∈ model_steps t → y ∈ model_steps t → step_id y = step_id x → y = x.
Proof.
  intros [HN _] Hx Hy E. pose proof (find_key_NoDup step_id (step_id x) _ x HN Hx eq_refl).
  pose proof (find_key_NoDup step_id (step_id x) _ y HN Hy E). congruence.
Qed.

Lemma streamed_wf e id t x f s : t ∈ turns s → x ∈ model_steps t → keeps_work f →
  number_at "sequence" e = Z.of_nat (length (step_events x)) → has_terminal (step_events x) = false →
  exceeds_stream (length (step_events x)) (next_bytes x e) (is_terminal e) = false → session_wf s →
  session_wf (update_turn (turn_id t) (λ t, update_step (step_id x) (push_event e id) (f t)) s).
Proof.
  intros Ht Hx Hf Hn Hnt Hex Hwf. apply update_turn_wf; [| | |done].
  - intros t'. simpl. by destruct (Hf t').
  - intros t' Ht' E Htw. assert (t' = t) as -> by by eapply same_turn. destruct (Hf t) as (_ & Hs).
    apply update_step_wf; [intros; apply step_id_push| |by eapply turn_wf_steps].
    intros y Hy Ey Hyw. rewrite Hs in Hy. assert (y = x) as -> by by apply (same_step_of t).
    by apply push_event_wf.
  - intros t' y p Ht' E Htw Hy Hc. assert (t' = t) as -> by by eapply same_turn. destruct (Hf t) as (_ & Hs).
    apply (update_step_keeps _ _ _ y); [|by rewrite Hs|done].
    intros z Hz Ez Hterm. rewrite Hs in Hz. assert (z = x) as -> by by apply (same_step_of t). congruence.
Qed.

Lemma reviewed_wf id sid r s : session_wf s → session_wf (update_turn id (update_step sid (set_revision r)) s).
Proof.
  intros Hwf. apply update_turn_wf; [done| | |done].
  - intros t _ _. apply update_step_wf; [done|]. intros x _ _. apply set_revision_wf.
  - intros t x p _ _ _ Hx Hc. by apply (update_step_keeps _ _ _ x).
Qed.

Lemma invoked_wf inv x s :
  session_wf s →
  (∃ t st, t ∈ turns s ∧ turn_id t = text_of "turn_id" (exec_payload x) ∧
     st ∈ model_steps t ∧ carries_out st (exec_payload x)) →
  inv ∈ (tool_invocations s).*1 ∨ (Z.of_nat (length (tool_invocations s)) < limit "max_tool_calls" s)%Z →
  session_wf (set_invocations (upsert inv x) s).
Proof.
  intros [] Hx Hlim. constructor; simpl; try done.
  - by apply NoDup_upsert.
  - intros _. rewrite length_upsert. unfold limit in *. simpl. case_decide as Hin.
    + apply wf_tool_limit0. intros E. rewrite E in Hin. by apply elem_of_nil in Hin.
    + destruct Hlim; [done|lia].
  - intros inv' y [?|Hy]%elem_of_upsert; [by simplify_eq|eauto].
Qed.

Lemma claimed_wf id f s : keeps_claim f → session_wf s → session_wf (update_reservation id f s).
Proof.
  intros Hf [].
  assert (E : workflow_reservations (update_reservation id f s) = at_key workflow_id id f <$> workflow_reservations s) by done.
  constructor; rewrite ?E; try done.
  - rewrite keys_at_key; [done|]. intros r. apply Hf.
  - assert (Hopen : ∀ r, is_released (at_key workflow_id id f r) = false → is_released r = false).
    { intros r. unfold at_key. case_if; [|done]. destruct (is_released r) eqn:Er; [|done].
      by rewrite (proj2 (Hf r) Er). }
    intros r1 r2 (q1 & -> & H1)%list_elem_of_fmap (q2 & -> & H2)%list_elem_of_fmap E1 E2.
    f_equal. by apply wf_active0; auto.
Qed.

Lemma reserved_wf r s : workflow_id r ∉ workflow_id <$> workflow_reservations s →
  forallb is_released (workflow_reservations s) = true → session_wf s →
  session_wf (set_reservations (λ l, l ++ [r]) s).
Proof.
  intros Hn Hall []. constructor; simpl; try done.
  - by apply NoDup_snoc_key.
  - rewrite forallb_true in Hall.
    intros r1 r2 [H1| ->%list_elem_of_singleton]%elem_of_app [H2| ->%list_elem_of_singleton]%elem_of_app E1 E2;
      try done; [rewrite (Hall _ H1) in E1|rewrite (Hall _ H1) in E1|rewrite (Hall _ H2) in E2]; done.
Qed.

Lemma appended_NoDup {A} (x : A) l : NoDup l → x ∉ l → NoDup (l ++ [x]).
Proof. intros. apply NoDup_app. split_and!; [done|set_solver|apply NoDup_singleton]. Qed.

(** An accepted event keeps the session well formed; a creation comes first. *)
Lemma change_wf event s s' :
  (text_of "event_type" event = "session.created" → ∃ id n, s = set_identity id n empty_session) →
  change event s s' → session_wf s → session_wf s'.
Proof.
  intros Hfirst Hch Hwf. destruct Hch.
  - by eapply core_wf.
  - subst. destruct (Hfirst ltac:(done)) as (id & n & ->).
    constructor; simpl; try done; try (by apply NoDup_nil_2); set_solver.
  - eapply core_wf; [done|]. by apply turned_wf.
  - eapply core_wf; [done|]. by apply noted_wf.
  - eapply core_wf; [done|]. by apply step_appended_wf.
  - eapply core_wf; [done|]. by apply streamed_wf.
  - eapply core_wf; [done|]. by apply reviewed_wf.
  - eapply core_wf; [done|]. apply invoked_wf.
    + by apply noted_wf.
    + exists (set_executions (upsert (text_of "tool_call_id" p) (text_of "invocation_id" p)) t), x.
      subst p. split_and!; try done. apply list_elem_of_fmap. exists t. by rewrite String.eqb_refl.
    + by right.
  - eapply core_wf; [done|]. apply noted_wf; [done|].
    match goal with H : assoc _ _ = Some _ |- _ => rename H into Hx; apply assoc_elem_of in Hx as Hin; [|apply Hwf] end.
    apply invoked_wf; [done| |left; by apply (list_elem_of_fmap_2 fst) in Hin].
    match goal with H : exec_payload _ = exec_payload _ |- _ => rewrite H end. by eapply wf_backed.
  - eapply core_wf; [done|]. destruct Hwf. constructor; simpl; try done. by apply appended_NoDup.
  - eapply core_wf; [done|]. destruct Hwf. constructor; simpl; try done; [by apply appended_NoDup|].
    intros _. rewrite length_app. unfold limit in *. simpl. lia.
  - eapply core_wf; [done|]. by apply reserved_wf.
  - eapply core_wf; [done|]. by apply claimed_wf.
  - subst. by destruct Hwf.
Qed.
End invariant.

(** ** Replayed sessions *)

Section replayed.
Context `{Sha256} (nearest : Z → Z → number) (date_parse : value → option Z)
        (parse_event : value → result value).
Notation change := (change nearest).
Notation step_event := (step_event nearest date_parse).
Notation fold_events := (fold_events nearest date_parse).
Notation replaySessionEvents := (replaySessionEvents nearest date_parse parse_event).

(** What a terminal event guarantees: no started work is pending, no reservation is
    active, and a success has stopped. *)
Record ended (s : session) : Prop := {
  ended_models t : t ∈ turns s → incomplete_model t = false;
  ended_tools inv x : (inv, x) ∈ tool_invocations s → has_outcome x = true;
  ended_reservations r : r ∈ workflow_reservations s → is_released r = true;
  ended_status : status s ∈ ["cancelled"; "failed"; "completed"];
  ended_success : status s = "completed" → stopped (latest_terminal s) = true;
}.

Record checkpoint_wf (c : checkpoint) : Prop := {
  cp_session : session_wf nearest c.1;
  cp_sequence : current_sequence c.1 = Z.of_nat (length c.2);
  cp_empty : c.2 = [] → c.1 = empty_session;
  cp_active : c.2 ≠ [] → terminal_event c.1 = None → status c.1 = "active";
  cp_terminal e : terminal_event c.1 = Some e → ended c.1;
}.

Lemma no_checkpoint_wf : checkpoint_wf no_checkpoint.
Proof. constructor; simpl; try done. apply empty_session_wf. Qed.

Lemma change_sequence event s s' : change event s s' → current_sequence s' = current_sequence s.
Proof.
  intros Hch. destruct Hch; subst; try done;
    match goal with E : core _ = core _ |- _ => unfold core in E; injection E as E1 E2 E3 E4 E5 E6 E7 E8 E9 end;
    simpl in *; congruence.
Qed.

(** The terminal event and the status change together. *)
Lemma change_terminal event s s' : terminal_event s = None → change event s s' →
  (terminal_event s' = None ∧ (status s' = status s ∨ status s' = "active")) ∨
  ∃ st, s' = set_terminated st event s ∧ terminates event = true ∧ assertStartedWorkSettled s = Ok () ∧
    (st = "completed" → stopped (latest_terminal s) = true) ∧ st ∈ ["cancelled"; "failed"; "completed"].
Proof.
  intros Ht Hch. destruct Hch; subst; try (left; 
    match goal with E : core _ = core _ |- _ => unfold core in E; injection E as E1 E2 E3 E4 E5 E6 E7 E8 E9 end;
    simpl in *; split; [congruence|left; congruence]).
  - left. simpl. auto.
  - right. eauto 10.
Qed.

Lemma admit_event_ok event s : admit_event event s = Ok () →
  number_at "sequence" event = (current_sequence s + 1)%Z ∧ terminal_event s = None ∧
  (number_at "sequence" event = 1%Z → text_of "event_type" event = "session.created") ∧
  ((1 < number_at "sequence" event)%Z → text_of "event_type" event ≠ "session.created") ∧
  (terminates event = true → forallb is_released (workflow_reservations s) = true).
Proof.
  unfold admit_event. intros E. inv_ok E. inv_throw_if. destruct (terminal_event s); [done|].
  rename Hok into Hn, Hok2 into H1, Hok3 into H2. bool_props. split_and!; [done|done| | |].
  - intros E1. rewrite E1 in H1. simpl in H1. by bool_props.
  - intros E1. apply Z.ltb_lt in E1. rewrite E1 in H2. simpl in H2. by bool_props.
  - intros Et. rewrite Et in E. by apply negb_existsb.
Qed.

Lemma settled_ok s : assertStartedWorkSettled s = Ok () →
  (∀ t, t ∈ turns s → incomplete_model t = false) ∧
  (∀ inv x, (inv, x) ∈ tool_invocations s → has_outcome x = true).
Proof.
  unfold assertStartedWorkSettled. intros [H1 H2]%throw_if_ok%orb_false_iff.
  rewrite existsb_false in H1. rewrite existsb_false in H2. split; [done|].
  intros inv x Hx. specialize (H2 _ Hx). simpl in H2. by destruct (has_outcome x).
Qed.

Lemma step_event_inv event s seen c : step_event event (s, seen) = Ok c → checkpoint_wf (s, seen) →
  ∃ s', c = (s', seen ++ [event_id_of event]) ∧ change event (identified event s) s' ∧
    admit_event event s = Ok () ∧
    (text_of "event_type" event = "session.created" → status s' = "active" ∧ ∃ id n, identified event s = set_identity id n empty_session).
Proof.
  unfold SessionReplay.step_event. intros E Hwf. inv_ok E. subst c. destruct a.
  exists a0. split_and!; [done|by eapply handle_change|done|].
  intros Hc. split.
  { unfold handle in Hok0. rewrite Hc in Hok0. simpl in Hok0. injection Hok0 as <-. done. }
  destruct (admit_event_ok _ _ Hok) as (Hn & _ & _ & H2 & _).
  unfold identified. eexists _, _. f_equal. apply (cp_empty _ Hwf). simpl.
  pose proof (cp_sequence _ Hwf) as Hs. simpl in Hs. destruct seen; [done|]. simpl in Hs.
  destruct H2; [lia|done].
Qed.

Lemma step_event_wf event c c' : checkpoint_wf c → step_event event c = Ok c' → checkpoint_wf c'.
Proof.
  intros Hwf E. destruct c as [s seen]. destruct (step_event_inv _ _ _ _ E Hwf) as (s' & -> & Hch & Had & Hfirst).
  destruct (admit_event_ok _ _ Had) as (Hn & Ht & H1 & _ & Hres).
  pose proof (change_sequence _ _ _ Hch) as Hseq. simpl in Hseq.
  pose proof (cp_sequence _ Hwf) as Hs. simpl in Hs.
  assert (Hs' : session_wf nearest s').
  { eapply change_wf; [intros Hc; by apply Hfirst|exact Hch|].
    by destruct (cp_session _ Hwf). }
  assert (Hstat : terminal_event s' = None → status s' = "active").
  { intros Ht'. destruct seen as [|i seen].
    - apply Hfirst, H1. simpl in Hs. lia.
    - pose proof (cp_active _ Hwf ltac:(done) Ht) as Ha. simpl in Ha.
      apply change_terminal in Hch as [[_ [E'|E']]|(st & -> & _)]; [by rewrite E'|done|done|done]. }
  constructor; cbn [fst snd]; try done.
  - rewrite Hseq, Hn, Hs, length_app. simpl. lia.
  - by destruct seen.
  - intros e He. apply change_terminal in Hch as [[E' _]|(st & -> & Hterm & Hset & Hsuc & Hst)]; [congruence| |done].
    destruct (settled_ok _ Hset) as [Hm Hx]. specialize (Hres Hterm). rewrite forallb_true in Hres.
    by constructor.
Qed.

Lemma fold_events_wf events c c' : checkpoint_wf c → fold_events events c = Ok c' → checkpoint_wf c'.
Proof.
  revert c. induction events as [|e events IH]; simpl; intros c Hwf E; [by simplify_eq|].
  inv_ok E. eapply IH; [by eapply step_event_wf|done].
Qed.

(** The states a replay returns, from the first event or from an earlier state. *)
Inductive replayed : checkpoint → Prop :=
  | replayed_full events c : replaySessionEvents events None = Ok c → replayed c
  | replayed_more c0 events c : replayed c0 → replaySessionEvents events (Some c0) = Ok c → replayed c.

Lemma replay_fold events from c : replaySessionEvents events from = Ok c →
  ∃ l, fold_events l (default no_checkpoint from) = Ok c.
Proof. unfold SessionReplay.replaySessionEvents. destruct events; try done. intros E. inv_ok E. eauto. Qed.

Lemma replayed_wf c : replayed c → checkpoint_wf c.
Proof.
  induction 1 as [events c E|c0 events c _ IH E]; destruct (replay_fold _ _ _ E) as [l Hl].
  - eapply fold_events_wf; [apply no_checkpoint_wf|done].
  - by eapply fold_events_wf.
Qed.

(** ** Properties *)

(** C20: every state a replay returns, from the first event or from an earlier state, is
    well formed: its sequence counts its events, the identifiers of turns, steps, tool
    invocations, operations, children and reservations are unique, the tool calls and
    the children are within the limits of the session, and at most one workflow
    reservation is active. *)
Theorem replay_invariant c : replayed c →
  current_sequence c.1 = Z.of_nat (length c.2) ∧
  NoDup (turn_id <$> turns c.1) ∧ (∀ t, t ∈ turns c.1 → NoDup (step_id <$> model_steps t)) ∧
  NoDup (tool_invocations c.1).*1 ∧ NoDup (operation_ids c.1) ∧ NoDup (children c.1) ∧
  NoDup (workflow_id <$> workflow_reservations c.1) ∧
  (tool_invocations c.1 ≠ [] → (Z.of_nat (length (tool_invocations c.1)) ≤ limit "max_tool_calls" c.1)%Z) ∧
  (children c.1 ≠ [] → (Z.of_nat (length (children c.1)) ≤ limit "max_children" c.1)%Z) ∧
  ∀ r1 r2, r1 ∈ workflow_reservations c.1 → r2 ∈ workflow_reservations c.1 →
    is_released r1 = false → is_released r2 = false → r1 = r2.
Proof.
  intros [[] Hs _ _ _]%replayed_wf. split_and!; try done. intros t Ht. by apply wf_turns0.
Qed.

(** C5: the bytes a step accounts for are exactly those of the canonical text of its
    events, which stay within 4096 events and 16 MiB; while a step has no terminal event
    there is room for one of fewer than 8192 bytes, which is accepted; and no event
    follows a terminal one. *)
Theorem stream_bounds c t x : replayed c → t ∈ turns c.1 → x ∈ model_steps t →
  model_stream_bytes x = json_bytes (VArr (step_events x)) ∧
  (Z.of_nat (length (step_events x)) ≤ 4096)%Z ∧ (model_stream_bytes x ≤ 16777216)%Z ∧
  (∀ i e, step_events x !! i = Some e →
     number_at "sequence" e = Z.of_nat i ∧ (is_terminal e = true → S i = length (step_events x))) ∧
  ∀ event request, has_terminal (step_events x) = false → turn_request t = Some request →
    let p := payload event in let e := get "event" p in
    text_of "turn_id" p = turn_id t → get "step_id" p = VStr (step_id x) → step_id x ≠ "" →
    text_of "request_id" e = text_of "request_id" (step_request x) →
    text_of "provider_id" p = text_of "provider_id" (step_request x) →
    number_at "sequence" e = Z.of_nat (length (step_events x)) →
    is_terminal e = true → (json_bytes e < 8192)%Z → is_ok (model_streamed event c.1) = true.
Proof.
  intros Hc%replayed_wf Ht Hx. pose proof (cp_session _ Hc) as Hwf.
  pose proof (wf_turns _ _ Hwf t Ht) as Htw. pose proof (wf_steps _ Htw x Hx) as [Hb Hn Hs Hr Hnum Hlast].
  split_and!; [done..|eauto|].
  intros event request Hterm Hreq p e Ep Est Hne Eid Epr Eseq Het Hsize. unfold model_streamed. fold p e.
  unfold requireTurn, find_turn. rewrite (find_key_NoDup turn_id _ _ t (wf_turn_ids _ _ Hwf) Ht (eq_sym Ep)).
  cbn [mbind result_bind]. rewrite Hreq, Est. cbn [truthy].
  apply String.eqb_neq in Hne. rewrite Hne. cbn [negb].
  assert (text_of "step_id" p = step_id x) as -> by (unfold text_of; by rewrite Est).
  unfold find_step. rewrite (find_key_NoDup step_id _ _ x (wf_step_ids _ Htw) Hx eq_refl).
  unfold check_stream. fold e. rewrite Eid, Epr, Eseq, !String.eqb_refl, Z.eqb_refl, Hterm. cbn.
  destruct (Hr Hterm) as [Hr1 Hr2]. unfold exceeds_stream. rewrite Het. cbn [negb andb].
  unfold next_bytes, MAX_MODEL_EVENTS_PER_STEP, MAX_MODEL_STREAM_BYTES_PER_STEP, MODEL_TERMINAL_RESERVE_BYTES in *.
  rewrite (proj2 (Z.leb_gt _ _)) by lia. cbn.
  rewrite (proj2 (Z.ltb_ge _ _)); [done|]. case_bool_decide; lia.
Qed.

(** C21: a terminal event settles a session for good: every model step has a terminal
    event, every tool invocation an outcome, every workflow reservation is released, a
    successful session ended with a step that stopped, and no replay goes beyond it. *)
Theorem terminal_is_final c e : replayed c → terminal_event c.1 = Some e →
  ended c.1 ∧ ∀ events c', replaySessionEvents events (Some c) = Ok c' → c' = c.
Proof.
  intros Hc%replayed_wf He. split; [by eapply cp_terminal|].
  intros events c' E. destruct (replay_fold _ _ _ E) as [l Hl]. destruct l as [|e' l]; simpl in Hl; [by simplify_eq|].
  destruct c as [s seen]. inv_ok Hl. destruct (step_event_inv _ _ _ _ Hok Hc) as (s' & _ & _ & Had & _).
  apply admit_event_ok in Had as (_ & Ht & _). simpl in He. congruence.
Qed.

(** C6: no tool runs without a model call: behind every recorded execution there is a
    step of its turn, completed with the reason [tool_calls], whose stream assembles a
    call with that identifier, name and input. *)
Theorem executions_are_called c inv x : replayed c → (inv, x) ∈ tool_invocations c.1 →
  ∃ t st, t ∈ turns c.1 ∧ turn_id t = text_of "turn_id" (exec_payload x) ∧ st ∈ model_steps t ∧
    carries_out nearest st (exec_payload x).
Proof. intros Hc%replayed_wf. apply (wf_backed _ _ (cp_session _ Hc)). Qed.

(** The events of two parts are those of the whole. *)
Lemma replay_app l k from c : replaySessionEvents (VArr l) from = Ok c →
  replaySessionEvents (VArr (l ++ k)) from = replaySessionEvents (VArr k) (Some c).
Proof.
  unfold SessionReplay.replaySessionEvents. intros E. inv_ok E.
  assert (Hmap : map_result parse_event (l ++ k) = (ks ← map_result parse_event k; Ok (a ++ ks))).
  { clear E. revert a Hok. induction l as [|x l IH]; simpl; intros a Hok.
    - simplify_eq. by destruct (map_result parse_event k).
    - destruct (parse_event x); simpl in *; [|done]. destruct (map_result parse_event l); simpl in *; [|done].
      simplify_eq. rewrite (IH _ eq_refl). by destruct (map_result parse_event k). }
  rewrite Hmap. destruct (map_result parse_event k) as [ks|]; [|done]. simpl.
  generalize dependent (default no_checkpoint from). clear. induction a as [|e a IH]; simpl; intros c0 E.
  - by simplify_eq.
  - inv_ok E. simpl. eauto.
Qed.

(** C37: replaying a stream at once or in two parts, the second from the state of the
    first, gives the same state or the same error. *)
Theorem replay_incremental l k c : replaySessionEvents (VArr l) None = Ok c →
  replayed c ∧ replaySessionEvents (VArr (l ++ k)) None = replaySessionEvents (VArr k) (Some c).
Proof. intros E. split; [by eapply replayed_full|by apply replay_app]. Qed.

(** An outcome that is not open stays with its execution. *)
Lemma change_outcome event s s' inv x : change event s s' →
  assoc inv (tool_invocations s) = Some x → ¬ open_outcome x →
  ∃ x', assoc inv (tool_invocations s') = Some x' ∧ outcome x' = outcome x ∧ exec_payload x' = exec_payload x.
Proof.
  intros Hch Hx Hopen. destruct Hch; subst; try (exists x; split; [|done]);
    try match goal with E : core _ = core _ |- _ => unfold core in E; injection E as E1 E2 E3 E4 E5 E6 E7 E8 E9 end;
    simpl in *; rewrite ?E2; try done.
  - rewrite assoc_upsert_ne; [done|]. intros ->.
    match goal with Hn : _ ∉ _.*1 |- _ => by apply assoc_None in Hn; congruence end.
  - rewrite assoc_upsert_ne; [done|]. intros ->.
    match goal with H1 : assoc _ _ = Some ?a, H2 : assoc _ _ = Some ?b |- _ => congruence end.
Qed.

(** C25: the outcome of a tool execution is recorded once: whatever is replayed after
    it, an execution keeps its call and its outcome, unless the outcome is uncertain. *)
Theorem outcome_is_final c events c' inv x o : replayed c → replaySessionEvents events (Some c) = Ok c' →
  assoc inv (tool_invocations c.1) = Some x → outcome x = Some o → text_of "status" o ≠ "uncertain" →
  ∃ x', assoc inv (tool_invocations c'.1) = Some x' ∧ outcome x' = Some o ∧ exec_payload x' = exec_payload x.
Proof.
  intros Hc%replayed_wf E Hx Ho Hs. destruct (replay_fold _ _ _ E) as [l Hl]. simpl in Hl. clear E events.
  revert c x Hc Hx Ho Hl. induction l as [|e l IH]; simpl; intros c x Hc Hx Ho Hl; [simplify_eq; eauto|].
  inv_ok Hl. destruct c as [s seen]. destruct (step_event_inv _ _ _ _ Hok Hc) as (s' & -> & Hch & _).
  destruct (change_outcome _ _ _ inv x Hch) as (x1 & Hx1 & Ho1 & Hp1); [done|unfold open_outcome; by rewrite Ho|].
  rewrite Ho in Ho1. destruct (IH _ x1 ltac:(by eapply step_event_wf) Hx1 Ho1 Hl) as (x2 & ? & ? & Hp2).
  exists x2. by rewrite Hp2.
Qed.

(** ** Recovery *)

Lemma find_terminal_last x e : step_wf x → find is_terminal (step_events x) = Some e → last (step_events x) = Some e.
Proof.
  intros Hwf Hf. pose proof (find_some_elem _ _ _ Hf) as [[i Hi]%list_elem_of_lookup Ht].
  rewrite last_lookup. by rewrite <- (wf_last _ Hwf _ _ Hi Ht).
Qed.

Lemma add_deltas_keys events calls calls' : NoDup calls.*1 → add_deltas events calls = Ok calls' → NoDup calls'.*1.
Proof.
  revert calls. induction events as [|e events IH]; simpl; intros calls HN E; [by simplify_eq|].
  inv_ok E. eapply IH; [|exact E]. unfold add_delta in Hok. case_if_in Hok; [by simplify_eq|].
  destruct (default _ _). inv_ok Hok. subst. by apply NoDup_upsert.
Qed.

Lemma assembled_ids events calls : assembledToolCalls nearest events = Ok calls → NoDup (call_id <$> calls).
Proof.
  unfold assembledToolCalls. intros E. inv_ok E. assert (HN : NoDup a.*1) by (eapply add_deltas_keys; [|exact Hok]; apply NoDup_nil_2).
  assert (call_id <$> calls = a.*1) as ->; [|done].
  apply map_result_Forall2 in E. clear Hok HN. induction E as [|[id [n txt]] y l k Hxy _ IH]; [done|]. csimpl.
  f_equal; [|done]. unfold finish_call in Hxy. destruct (json_parse _ _); [|done]. case_if_in Hxy; by simplify_eq.
Qed.

Lemma forallb_false {A} (f : A → bool) l : forallb f l = false → ∃ x, x ∈ l ∧ f x = false.
Proof.
  induction l as [|x l IH]; simpl; [done|]. destruct (f x) eqn:E; simpl.
  - intros (y & ? & ?)%IH. exists y. split; [by right|done].
  - intros _. exists x. split; [by left|done].
Qed.

(** The start of the execution of call [k] of step [x]. *)
Definition starts_call (s : session) (t : turn) (x : step) (k : call) (event : value) : Prop :=
  let p := payload event in
  text_of "turn_id" p = turn_id t ∧ text_of "step_id" p = step_id x ∧ text_of "tool_call_id" p = call_id k ∧
  text_of "name" p = call_name k ∧ get "input" p = call_input k ∧
  text_of "invocation_id" p ≠ "constructor" ∧ text_of "invocation_id" p ∉ (tool_invocations s).*1.

Lemma next_of_step_calls t x : ∀ s, next_of_step nearest s t x = Ok "execute_tools" →
  ∃ e calls k, find is_terminal (step_events x) = Some e ∧ event_kind e = "completed" ∧
    text_of "finish_reason" (payload e) = "tool_calls" ∧ assembledToolCalls nearest (step_events x) = Ok calls ∧
    k ∈ calls ∧ started_call t k = false.
Proof.
  intros s. unfold next_of_step. destruct (find _ _) as [e|] eqn:He; [|by case_bool_decide].
  destruct (event_kind e =s "failed") eqn:Ef; [done|].
  destruct (_ =s "tool_calls") eqn:Er; [|done]. destruct (assembledToolCalls _ _) as [calls|] eqn:Hc; [|done]. cbn. bool_props.
  destruct (forallb _ _) eqn:Ea; simpl; [by case_if|]. intros _. apply forallb_false in Ea as (k & ? & ?).
  exists e, calls, k. split_and!; try done.
  apply find_some_elem in He as [_ Ht]. unfold is_terminal in Ht. apply orb_true_iff in Ht as [Ht|Ht]; by bool_props.
Qed.

Lemma next_of_plan s p : recovery_plan nearest s = Ok p → next_action p = "execute_tools" →
  ∃ t x, last (turns s) = Some t ∧ last (model_steps t) = Some x ∧ next_of_step nearest s t x = Ok "execute_tools".
Proof.
  unfold recovery_plan. intros E Ha. inv_ok E. case_if_in E; [by simplify_eq|].
  destruct (last (turns s)) as [t|]; [|by simplify_eq/=]. destruct (turn_request t); [|by simplify_eq/=].
  case_if_in E; [simpl in E; by simplify_eq/=|]. destruct (last (model_steps t)) as [x|] eqn:Hl; [|simpl in E; by simplify_eq/=]. inv_ok E. simplify_eq/=.
  by exists t, x.
Qed.

(** C32: a recovery plan that says to execute tools names a call that can be executed:
    the latest step assembles a call that was never started, and every event that starts
    it with a new invocation is accepted while the tool limit is not exhausted. *)
Theorem execute_tools_accepted c p : replayed c → recovery_plan nearest c.1 = Ok p →
  next_action p = "execute_tools" →
  ∃ t x k, last (turns c.1) = Some t ∧ last (model_steps t) = Some x ∧
    assoc (call_id k) (tool_executions t) = None ∧
    ∀ event, starts_call c.1 t x k event →
      (Z.of_nat (length (tool_invocations c.1)) < limit "max_tool_calls" c.1)%Z →
      is_ok (tool_execution_started nearest event c.1) = true.
Proof.
  intros Hc%replayed_wf Hp Ha. destruct (next_of_plan _ _ Hp Ha) as (t & x & Ht & Hx & Hn).
  pose proof (cp_session _ Hc) as Hwf. exists t, x.
  assert (Hin : t ∈ turns c.1) by (apply last_Some in Ht as [? ->]; set_solver).
  assert (Hxin : x ∈ model_steps t) by (apply last_Some in Hx as [? ->]; set_solver).
  pose proof (wf_turns _ _ Hwf t Hin) as Htw. pose proof (wf_steps _ Htw x Hxin) as Hxw.
  destruct (next_of_step_calls _ _ _ Hn) as (e & calls & k & He & Hk & Er & Hcalls & Hkin & Hnew).
  apply orb_false_iff in Hnew as [Hinh Hnew]. apply bool_decide_eq_false, eq_None_not_Some in Hnew.
  exists k. split_and!; [done..|]. intros event (E1 & E2 & E3 & E4 & E5 & E6 & E7) Hlim.
  unfold tool_execution_started, requireTurn, find_turn, find_step.
  rewrite (find_key_NoDup turn_id _ _ t (wf_turn_ids _ _ Hwf) Hin (eq_sym E1)). cbn [mbind result_bind].
  rewrite (find_key_NoDup step_id _ _ x (wf_step_ids _ Htw) Hxin (eq_sym E2)).
  unfold finished. rewrite (find_terminal_last _ _ Hxw He), Hk, Er. cbn.
  unfold present, inherited in *. rewrite E3, Hinh, Hnew. apply String.eqb_neq in E6. rewrite E6.
  apply assoc_None in E7. rewrite E7. cbn. rewrite Hcalls. cbn.
  rewrite (find_key_NoDup call_id _ _ k (assembled_ids _ _ Hcalls) Hkin eq_refl).
  rewrite E4, E5, String.eqb_refl. unfold same_json. rewrite bool_decide_true by done. cbn.
  apply Z.leb_gt in Hlim. by rewrite Hlim.
Qed.
End replayed.
