(* ===== verification/SessionExamples.v ===== *)
(** * Replays of concrete sessions

    A session that calls a tool, up to its failure, and the theorems of the session
    replay applied to its states. *)
From S2P Require Import Prelude JsValue CanonicalJson JsMap StrictJson Ledger OperationId JsonParse.
From S2P Require Import SessionState SessionTools SessionWorkflow SessionEvents SessionReplay SessionSafety.

#[local] Existing Instance sample_sha256.

Definition num (z : Z) : value := VNum (NInt z).
Definition ev (id : string) (n : Z) (type : string) (fields : list (string * value)) : value :=
  VObj [("event_id", VStr id); ("session_id", VStr "s1"); ("sequence", num n);
        ("event_type", VStr type); ("payload", VObj fields)].
Notation replay l from := (replaySessionEvents (λ _ _, NNaN) (λ _, None) Ok (VArr l) from).
Definition state_of (r : result checkpoint) : checkpoint :=
  match r with Ok c => c | Throw _ => no_checkpoint end.
Notation replayed := (replayed (λ _ _, NNaN) (λ _, None) Ok).

Definition sample_spec : value := VObj [("session_id", VStr "s1");
  ("execution", VObj [("mode", VStr "kernel"); ("model_provider_id", VStr "p"); ("model", VStr "m")]);
  ("limits", VObj [("max_tool_calls", num 3); ("max_children", num 1); ("max_workflow_steps", num 2)])].
Definition user_input : value := VObj [("role", VStr "user"); ("content", VStr "hi")].
Definition sample_request (turn request : string) : value :=
  VObj [("request_id", VStr request); ("turn_id", VStr turn); ("provider_id", VStr "p"); ("model", VStr "m");
        ("messages", VArr [VObj [("role", VStr "system"); ("content", VStr "context")]; user_input])].
Definition streamed (id : string) (n : Z) (turn request type : string) (seq : Z) (fields : list (string * value)) : value :=
  ev id n "model.streamed" [("turn_id", VStr turn); ("step_id", VStr "step"); ("provider_id", VStr "p");
    ("event", VObj [("request_id", VStr request); ("sequence", num seq); ("event_type", VStr type);
                    ("payload", VObj fields)])].

(** A turn whose step asks for the call [id], from sequence [n]. *)
Definition calling_turn (turn request id : string) (n : Z) : list value :=
  let e i := turn +:+ "-" +:+ i in
  [ev (e "1") n "turn.started" [("turn_id", VStr turn); ("input", user_input)];
   ev (e "2") (n + 1) "context.assembled" [("turn_id", VStr turn); ("request", sample_request turn request);
     ("source_refs", VArr [VStr (event_ref (e "1"))]); ("budget", VObj [("overflow_policy", VStr "reject")])];
   ev (e "3") (n + 2) "model.request.started" [("turn_id", VStr turn); ("step_id", VStr "step");
     ("request", sample_request turn request); ("source_event_ids", VArr [VStr (e "2")])];
   streamed (e "4") (n + 3) turn request "tool_call.delta" 0
     [("tool_call_id", VStr id); ("name", VStr "read"); ("arguments_delta", VStr "{}")];
   streamed (e "5") (n + 4) turn request "completed" 1 [("finish_reason", VStr "tool_calls")]].

Definition call_start (turn id inv : string) (n : Z) : value :=
  ev (inv +:+ "-started") n "tool.execution.started" [("turn_id", VStr turn); ("step_id", VStr "step");
    ("invocation_id", VStr inv); ("tool_call_id", VStr id); ("name", VStr "read"); ("input", VObj [])].
Definition call_done (turn id inv : string) (n : Z) : value :=
  ev (inv +:+ "-done") n "tool.execution.completed" [("turn_id", VStr turn); ("step_id", VStr "step");
    ("outcome", VObj [("invocation_id", VStr inv); ("turn_id", VStr turn); ("tool_call_id", VStr id);
       ("name", VStr "read"); ("status", VStr "succeeded"); ("operation_id", VStr "o1"); ("result", VObj []);
       ("error", VNull); ("evidence_refs", VArr []); ("warnings", VArr [])])].

Definition creation : value := ev "e1" 1 "session.created" [("spec", sample_spec)].
Definition called : list value := creation :: calling_turn "t1" "r1" "k1" 2.
Definition executed : list value := [call_start "t1" "k1" "i1" 7; call_done "t1" "k1" "i1" 8].
Definition failure : value := ev "e9" 9 "session.failed" [("error_code", VStr "internal_error")].

Definition called_state : checkpoint := Eval vm_compute in state_of (replay called None).
Definition executed_state : checkpoint := Eval vm_compute in state_of (replay (called ++ executed) None).
Definition failed_state : checkpoint := Eval vm_compute in state_of (replay (called ++ executed ++ [failure]) None).

Lemma called_replay : replay called None = Ok called_state.
Proof. vm_compute. reflexivity. Qed.
Lemma executed_replay : replay (called ++ executed) None = Ok executed_state.
Proof. vm_compute. reflexivity. Qed.
Lemma failed_replay : replay (called ++ executed ++ [failure]) None = Ok failed_state.
Proof. vm_compute. reflexivity. Qed.
Lemma failed_from_executed : replay [failure] (Some executed_state) = Ok failed_state.
Proof. vm_compute. reflexivity. Qed.

(** The recovery plans of the three states. *)
Example sample_plans :
  (match recovery_plan (λ _ _, NNaN) called_state.1 with Ok p => next_action p | _ => "" end) = "execute_tools" ∧
  (match recovery_plan (λ _ _, NNaN) executed_state.1 with Ok p => next_action p | _ => "" end) = "continue_after_tools" ∧
  (match recovery_plan (λ _ _, NNaN) failed_state.1 with Ok p => next_action p | _ => "" end) = "none".
Proof. vm_compute. auto. Qed.

(** ** The theorems at these states *)

Lemma called_replayed : replayed called_state.
Proof. exact (replayed_full _ _ _ _ _ called_replay). Qed.
Lemma executed_replayed : replayed executed_state.
Proof. exact (replayed_full _ _ _ _ _ executed_replay). Qed.
Lemma failed_replayed : replayed failed_state.
Proof. exact (replayed_more _ _ _ _ _ _ executed_replayed failed_from_executed). Qed.

Definition sample_turn : turn := Eval vm_compute in
  default (new_turn VNull) (last (turns called_state.1)).
Definition sample_step : step := Eval vm_compute in
  default (new_step VNull) (last (model_steps sample_turn)).

Lemma sample_turn_in : sample_turn ∈ turns called_state.1 ∧ sample_step ∈ model_steps sample_turn.
Proof. vm_compute. split; left. Qed.

Lemma replay_invariant_witness : NoDup (turn_id <$> turns failed_state.1).
Proof. apply (replay_invariant _ _ _ _ failed_replayed). Defined.

Lemma stream_bounds_witness :
  model_stream_bytes sample_step = json_bytes (VArr (step_events sample_step)).
Proof.
  apply (stream_bounds _ _ _ _ _ _ called_replayed (proj1 sample_turn_in) (proj2 sample_turn_in)).
Defined.

Lemma terminal_is_final_witness : ended failed_state.1.
Proof. apply (terminal_is_final _ _ _ _ failure failed_replayed). reflexivity. Defined.

Lemma executions_are_called_witness : ∃ x, ("i1", x) ∈ tool_invocations executed_state.1 ∧
  ∃ t st, t ∈ turns executed_state.1 ∧ turn_id t = text_of "turn_id" (exec_payload x) ∧ st ∈ model_steps t ∧
    carries_out (λ _ _, NNaN) st (exec_payload x).
Proof.
  eexists. split; [left|]. apply (executions_are_called _ _ _ _ "i1" _ executed_replayed). left.
Defined.

Lemma replay_incremental_witness :
  replay (called ++ executed) None = replay executed (Some called_state).
Proof. apply (replay_incremental _ _ _ called executed called_state). exact called_replay. Defined.

Lemma outcome_is_final_witness : ∃ o x', assoc "i1" (tool_invocations failed_state.1) = Some x' ∧ outcome x' = Some o.
Proof.
  edestruct (outcome_is_final (λ _ _, NNaN) (λ _, None) Ok executed_state (VArr [failure]) failed_state "i1")
    as (x' & ? & ? & ?).
  - exact executed_replayed.
  - exact failed_from_executed.
  - reflexivity.
  - reflexivity.
  - discriminate.
  - eauto.
Defined.

Lemma execute_tools_accepted_witness : ∃ t x k, ∀ event, starts_call called_state.1 t x k event →
  is_ok (tool_execution_started (λ _ _, NNaN) event called_state.1) = true.
Proof.
  edestruct (execute_tools_accepted (λ _ _, NNaN) (λ _, None) Ok called_state) as (t & x & k & _ & _ & _ & Hok).
  - exact called_replayed.
  - reflexivity.
  - reflexivity.
  - exists t, x, k. intros event Hev. apply Hok; [exact Hev|reflexivity].
Defined.

(** ** What the reducer accepts and refuses *)

(** A call a model names [constructor] can never be executed: the lookup finds the
    inherited constructor, its start is refused as a duplicate and the recovery plan
    takes it for started. *)
Definition constructor_state : checkpoint := Eval vm_compute in
  state_of (replay (creation :: calling_turn "t1" "r1" "constructor" 2) None).
Lemma constructor_call_refused :
  code_of (replay [call_start "t1" "constructor" "i1" 7] (Some constructor_state)) =
    Some "AGENT_SESSION_DUPLICATE_TOOL_EXECUTION" ∧
  (match recovery_plan (λ _ _, NNaN) constructor_state.1 with Ok p => next_action p | _ => "" end) = "resume_tools".
Proof. vm_compute. auto. Qed.

(** A turn named [constructor] is refused as present in an empty session. *)
Lemma constructor_turn_refused :
  code_of (replay (creation :: calling_turn "constructor" "r1" "k1" 2) None) = Some "AGENT_SESSION_DUPLICATE_TURN".
Proof. vm_compute. reflexivity. Qed.

(** The outcome of a call of the first turn is accepted under the second turn, which
    then holds an execution of another turn. *)
Lemma foreign_outcome_accepted :
  (match replay (creation :: calling_turn "t1" "r1" "k1" 2 ++ [call_start "t1" "k1" "i1" 7] ++
      [ev "t2-1" 8 "turn.started" [("turn_id", VStr "t2"); ("input", user_input)]; call_done "t2" "k1" "i1" 9]) None with
   | Ok c => tool_executions <$> find_turn "t2" c.1
   | Throw _ => None
   end) = Some [("k1", "i1")].
Proof. vm_compute. reflexivity. Qed.
