(* ===== verification/ContractRegistry.v ===== *)
(** * The registry of tool contracts (tools/lib/governed-execution/contract-registry.js)

    A contract names the capability, the provider, the authority and the schemas of a
    governed tool.  Schemas are objects with functions: a schema argument is its
    version and, when it has one, its [safeParse].  The registry discharges the part of
    the runtime's interface that concerns contracts. *)
From S2P Require Import Prelude JsValue CanonicalJson JsMap StrictJson EventRegistry.
From S2P Require Runtime.

Definition REVERSIBILITY_CLASSES : list string :=
  ["read_only"; "idempotent_mutation"; "compensatable_mutation"; "irreversible_mutation"].
Definition CANCELLATION_POLICIES : list string := ["cooperative"; "non_cancellable"].
Definition FAILURE_MODES : list string := ["fail_closed"; "optional_warning"].

(** The code is a value: a schema may supply it. *)
Definition ExecutionContractError_with (message : string) (code details : value) : value :=
  VObj [("name", VStr "ExecutionContractError"); ("message", VStr message); ("code", code);
        ("details", details)].
Definition ExecutionContractError (message code : string) : value :=
  ExecutionContractError_with message (VStr code) (VObj []).
Definition contract_invalid (message : string) : value :=
  ExecutionContractError message "EXECUTION_CONTRACT_INVALID".

Definition requireText (v : value) (field : string) : result unit :=
  throw_if (negb (nonempty_string v)) (contract_invalid (field +:+ " must be a non-empty string")).

(** ** Schemas *)

Definition parser : Type := value → result value.
(** A schema as given: [safeParse] may be missing. *)
Record schema_arg := MkSchemaArg { arg_version : value; arg_safeParse : option parser }.
Record schema := MkSchema { version : Z; safeParse : parser }.

Definition normalizeSchema (s : option schema_arg) (field : string) : result schema :=
  let invalid := contract_invalid (field +:+ " must declare a positive version and safeParse(value)") in
  match s with
  | Some (MkSchemaArg v (Some parse)) =>
      if is_integer v && (1 <=? int_of v)%Z then Ok (MkSchema (int_of v) parse) else Throw invalid
  | _ => Throw invalid
  end.

Definition normalizeJsonSchema (v : value) : result value :=
  match v with
  | VUndef | VNull => Ok VNull
  | VObj _ => Ok v
  | _ => Throw (contract_invalid "input_json_schema must be a JSON Schema object")
  end.

(** [/^[A-Z][A-Z0-9_]{2,63}$/.test(s)] *)
Definition code_char (c : ascii) : bool := upper_letter c || digit c || Ascii.eqb c underscore.
Definition specific_code (s : string) : bool :=
  match s with
  | String c rest =>
      upper_letter c && all_chars code_char rest &&
      (2 <=? String.length rest)%nat && (String.length rest <=? 63)%nat
  | EmptyString => false
  end.
(** [/^[A-Za-z][A-Za-z0-9 ._,/-]{0,159}$/.test(s)] *)
Definition cause_char (c : ascii) : bool :=
  alphanumeric c || existsb (Ascii.eqb c) [" "%char; "."%char; "_"%char; ","%char; "/"%char; "-"%char].
Definition specific_cause (s : string) : bool :=
  match s with
  | String c rest => (lower_letter c || upper_letter c) && all_chars cause_char rest && (String.length rest <=? 159)%nat
  | EmptyString => false
  end.
(** [pattern.test(error.field || '') ? error.field : null] *)
Definition own_words (pattern : string → bool) (v : value) : option value :=
  if pattern (js_string (or_else v (VStr ""))) then Some v else None.

(** [`EXECUTION_${phase.toUpperCase()}_INVALID`] of the two phases *)
Definition phase_code (phase : string) : string :=
  if phase =s "input" then "EXECUTION_INPUT_INVALID" else "EXECUTION_OUTPUT_INVALID".

Definition parseSchema (s : schema) (v : value) (phase : string) : result value :=
  match safeParse s v with
  | Throw VUndef | Throw VNull => Throw (type_error "Cannot read properties of undefined (reading 'message')")
  | Throw e =>
      Throw (ExecutionContractError_with (phase +:+ " schema evaluation failed")
        (VStr "EXECUTION_SCHEMA_EVALUATION_FAILED") (VObj [("phase", VStr phase); ("cause", get "message" e)]))
  | Ok parsed =>
      if bool_decide (get "success" parsed = VBool true) then Ok (get "data" parsed)
      else
        let e := get "error" parsed in
        let specific := own_words specific_code (get "hseos_code" e) in
        let cause := own_words specific_cause (get "hseos_cause" e) in
        Throw (ExecutionContractError_with
          (phase +:+ " does not match schema v" +:+ show_integer (version s) +:+
           match cause with Some c => ": " +:+ js_string c | None => "" end)
          (default (VStr (phase_code phase)) specific)
          (VObj [("phase", VStr phase); ("schema_version", VNum (NInt (version s)));
                 ("issues", or_else (get "issues" e) (VArr []))]))
  end.

(** ** Contracts *)

Record contract_arg := MkContractArg {
  fields : value;
  input_arg : option schema_arg;
  output_arg : option schema_arg;
}.
Record contract := MkContract {
  name : string;
  capability : string;
  provider : string;
  authority : string;
  policy_version : string;
  reversibility : string;
  cancellation_policy : string;
  failure_mode : string;
  timeout_ms : Z;
  requires_approval : bool;
  exclusive : bool;
  provider_accepts_idempotency : bool;
  sandbox : value;
  prerequisites : list value;
  input_schema : schema;
  input_json_schema : value;
  output_schema : schema;
}.
Record registry := MkRegistry { contracts : list (string * contract); sealed : bool }.
Definition new_registry : registry := MkRegistry [] false.

(** [set.has(v)] for a set of strings *)
Definition has_text (set : list string) (v : value) : bool := is_string v && (str_of v ∈s set).
(** [[...(v || [])]]: a text spreads to its characters. *)
Definition spread (v : value) : result (list value) :=
  if truthy v then
    match v with
    | VArr l => Ok l
    | VStr s => Ok ((λ c, VStr (String c "")) <$> String.list_ascii_of_string s)
    | _ => Throw (type_error "Spread syntax requires ...iterable[Symbol.iterator] to be a function")
    end
  else Ok [].
Definition true_of (v : value) : bool := bool_decide (v = VBool true).

Definition check_fields (v : value) (r : registry) : result unit :=
  _ ← throw_if (negb (is_record v)) (contract_invalid "Tool contract must be an object");
  _ ← for_each (λ f, requireText (get f v) f) ["name"; "capability"; "provider"; "authority"; "policy_version"];
  _ ← throw_if (bool_decide (is_Some (assoc (str_of (get "name" v)) (contracts r))))
        (ExecutionContractError ("Tool already registered: " +:+ str_of (get "name" v)) "EXECUTION_TOOL_DUPLICATE");
  _ ← throw_if (negb (has_text REVERSIBILITY_CLASSES (get "reversibility" v)))
        (contract_invalid ("Invalid reversibility class: " +:+ js_string (get "reversibility" v)));
  _ ← throw_if (negb (has_text CANCELLATION_POLICIES (get "cancellation_policy" v)))
        (contract_invalid ("Invalid cancellation policy: " +:+ js_string (get "cancellation_policy" v)));
  _ ← throw_if (negb (has_text FAILURE_MODES (get "failure_mode" v)))
        (contract_invalid ("Invalid failure mode: " +:+ js_string (get "failure_mode" v)));
  let t := get "timeout_ms" v in
  _ ← throw_if (negb (is_integer t) || (int_of t <? 1)%Z || (3600000 <? int_of t)%Z)
        (contract_invalid "timeout_ms must be an integer between 1 and 3600000");
  throw_if (negb (is_boolean (get "requires_approval" v)) || negb (is_boolean (get "exclusive" v)) ||
            negb (is_boolean (get "provider_accepts_idempotency" v)))
    (contract_invalid "requires_approval, exclusive, and provider_accepts_idempotency must be booleans").

Definition normalize (a : contract_arg) : result contract :=
  let v := fields a in
  let text f := str_of (get f v) in
  prerequisites ← spread (get "prerequisites" v);
  input ← normalizeSchema (input_arg a) "input_schema";
  json ← normalizeJsonSchema (get "input_json_schema" v);
  output ← normalizeSchema (output_arg a) "output_schema";
  Ok (MkContract (text "name") (text "capability") (text "provider") (text "authority") (text "policy_version")
        (text "reversibility") (text "cancellation_policy") (text "failure_mode") (int_of (get "timeout_ms" v))
        (true_of (get "requires_approval" v)) (true_of (get "exclusive" v))
        (true_of (get "provider_accepts_idempotency" v))
        (or_else (get "sandbox" v) VNull) prerequisites input json output).

Definition register (a : contract_arg) (r : registry) : result (contract * registry) :=
  _ ← throw_if (sealed r)
        (ExecutionContractError "Tool contract registry is sealed" "EXECUTION_CONTRACT_REGISTRY_SEALED");
  _ ← check_fields (fields a) r;
  c ← normalize a;
  Ok (c, MkRegistry (contracts r ++ [(name c, c)]) (sealed r)).

Definition resolve (r : registry) (tool : value) : result contract :=
  match assoc (str_of tool) (contracts r) with
  | Some c => if is_string tool then Ok c else
      Throw (ExecutionContractError_with ("Unknown governed tool: " +:+ js_string tool)
        (VStr "EXECUTION_TOOL_NOT_FOUND") (VObj [("tool", tool)]))
  | None => Throw (ExecutionContractError_with ("Unknown governed tool: " +:+ js_string tool)
        (VStr "EXECUTION_TOOL_NOT_FOUND") (VObj [("tool", tool)]))
  end.

Definition validateInput (c : contract) (v : value) : result value := parseSchema (input_schema c) v "input".
Definition validateOutput (c : contract) (v : value) : result value := parseSchema (output_schema c) v "output".

(** [localeCompare] is the collation of the host. *)
Definition list_contracts (locale_le : string → string → bool) (r : registry) : list contract :=
  sort_by (λ a b, locale_le (name a) (name b)) (contracts r).*2.
Definition seal (r : registry) : registry := MkRegistry (contracts r) true.

(** ** The shipped contracts *)

(** The schemas of a tool are those of the package that provides it: arguments. *)
Section shipped.
Context (input_of output_of : string → parser) (json_of : string → list (string * value)).

Definition shipped (name capability provider authority policy_version reversibility cancellation_policy : string)
    (requires_approval provider_accepts_idempotency : bool) (timeout_ms : Z) : contract_arg :=
  MkContractArg
    (VObj [("name", VStr name); ("capability", VStr capability); ("contract_version", VNum (NInt 1));
           ("status", VStr "implemented"); ("provider", VStr provider); ("authority", VStr authority);
           ("policy_version", VStr policy_version); ("reversibility", VStr reversibility);
           ("cancellation_policy", VStr cancellation_policy); ("failure_mode", VStr "fail_closed");
           ("timeout_ms", VNum (NInt timeout_ms)); ("requires_approval", VBool requires_approval);
           ("exclusive", VBool false);
           ("provider_accepts_idempotency", VBool provider_accepts_idempotency);
           ("input_json_schema", VObj (json_of name))])
    (Some (MkSchemaArg (VNum (NInt 1)) (Some (input_of name))))
    (Some (MkSchemaArg (VNum (NInt 1)) (Some (output_of name)))).

Definition environmentContract (name capability : string) (timeout_ms : Z) : contract_arg :=
  shipped name capability "agent-environment" (capability +:+ ".read") "hseos-w5-environment-v1" "read_only"
    "cooperative" false false timeout_ms.
Definition ENVIRONMENT_CONTRACTS : list contract_arg :=
  ((λ action, environmentContract ("environment.lsp." +:+ action) "environment.lsp" 60000) <$>
     ["diagnostics"; "definition"; "references"; "hover"; "rename_preview"]) ++
  [environmentContract "environment.dap.run" "environment.dap" 140000].

Definition capabilityContract (name capability provider authority reversibility : string)
    (requires_approval : bool) (timeout_ms : Z) (provider_accepts_idempotency : bool) : contract_arg :=
  shipped name capability provider authority "hseos-w5-capability-v1" reversibility
    (if reversibility =s "read_only" then "cooperative" else "non_cancellable")
    requires_approval provider_accepts_idempotency timeout_ms.
Definition CAPABILITY_CONTRACTS : list contract_arg :=
  let computer := "environment.computer" in
  [capabilityContract "environment.browser.run" "environment.browser" "agent-environment" "environment.browser.read"
     "read_only" false 70000 false;
   capabilityContract "environment.computer.screenshot" computer "agent-environment" "environment.computer.read"
     "read_only" false 30000 false;
   capabilityContract "environment.computer.start" computer "agent-environment" "environment.computer.mutate"
     "irreversible_mutation" true 310000 false;
   capabilityContract "environment.computer.act" computer "agent-environment" "environment.computer.mutate"
     "irreversible_mutation" true 30000 false;
   capabilityContract "environment.computer.stop" computer "agent-environment" "environment.computer.mutate"
     "idempotent_mutation" false 30000 true;
   capabilityContract "memory.write" "agent-memory" "agent-memory" "agent-memory.mutate"
     "compensatable_mutation" false 30000 true;
   capabilityContract "memory.retrieve" "agent-memory" "agent-memory" "agent-memory.read"
     "read_only" false 30000 false;
   capabilityContract "memory.delete" "agent-memory" "agent-memory" "agent-memory.mutate"
     "irreversible_mutation" true 30000 false].

Fixpoint register_all (l : list contract_arg) (r : registry) : result registry :=
  match l with
  | [] => Ok r
  | a :: l => '(_, r) ← register a r; register_all l r
  end.
Definition registerCapabilityContractStubs (r : registry) : result registry :=
  register_all (ENVIRONMENT_CONTRACTS ++ CAPABILITY_CONTRACTS) r.
End shipped.

(** ** The runtime's interface *)

(** A contract, as far as the runtime reads it. *)
Definition runtime_contract (c : contract) : Runtime.contract :=
  Runtime.MkContract (name c) (capability c) (failure_mode c) (cancellation_policy c) (provider c) (timeout_ms c)
    (policy_version c) (requires_approval c) (reversibility c) (provider_accepts_idempotency c)
    (version (input_schema c)) (version (output_schema c)).

Section interface.
Context (r : registry) (events : EventRegistry.registry) (locale_le : string → string → bool)
  (lookup : string → result bool) (boundary : bool) (project : option (Ledger.database → result unit)).

(** The contract a runtime contract was resolved from: a name has one contract. *)
Definition with_contract (c : Runtime.contract) (k : contract → result value) : result value :=
  c ← resolve r (VStr (Runtime.name c)); k c.
#[local] Instance registry_dependencies : Runtime.Dependencies := {|
  Runtime.event_registry := events;
  Runtime.locale_le := locale_le;
  Runtime.resolve := λ tool, runtime_contract <$> resolve r tool;
  Runtime.validateInput := λ c v, with_contract c (λ c, validateInput c v);
  Runtime.validateOutput := λ c v, with_contract c (λ c, validateOutput c v);
  Runtime.lookup_provider := lookup;
  Runtime.approval_boundary := boundary;
  Runtime.reconcileActive := project;
|}.
End interface.

(** ** Well-formed registries *)

(** What every registered contract satisfies. *)
Record contract_wf (c : contract) : Prop := {
  wf_texts : Forall (λ t, t ≠ "") [name c; capability c; provider c; authority c; policy_version c];
  wf_reversibility : reversibility c ∈ REVERSIBILITY_CLASSES;
  wf_cancellation : cancellation_policy c ∈ CANCELLATION_POLICIES;
  wf_failure_mode : failure_mode c ∈ FAILURE_MODES;
  wf_timeout : (1 ≤ timeout_ms c ≤ 3600000)%Z;
  wf_versions : (1 ≤ version (input_schema c))%Z ∧ (1 ≤ version (output_schema c))%Z;
}.
Record registry_wf (r : registry) : Prop := {
  wf_names : NoDup (contracts r).*1;
  wf_contracts tool c : (tool, c) ∈ contracts r → tool = name c ∧ contract_wf c;
}.

(** The registries the program builds: registrations and seals of an empty one. *)
Inductive built : registry → Prop :=
  | built_new : built new_registry
  | built_register a r c r' : built r → register a r = Ok (c, r') → built r'
  | built_seal r : built r → built (seal r).

Lemma has_text_ok set v : has_text set v = true → str_of v ∈ set.
Proof. intros [_ Hin]%andb_true_iff. by apply includes_spec. Qed.

Lemma normalizeSchema_ok s field x : normalizeSchema s field = Ok x → (1 ≤ version x)%Z.
Proof.
  destruct s as [[v [parse|]]|]; simpl; [|done..]. destruct (is_integer v); [|done]. simpl.
  destruct (1 <=? int_of v)%Z eqn:E; [|done]. intros ?. simplify_eq. simpl. by bool_props.
Qed.

Lemma requireText_ok v field : requireText v field = Ok () → str_of v ≠ "".
Proof. intros Ht%throw_if_ok. apply nonempty_str_of. by bool_props. Qed.

Lemma check_fields_ok v r : check_fields v r = Ok () →
  Forall (λ f, str_of (get f v) ≠ "") ["name"; "capability"; "provider"; "authority"; "policy_version"] ∧
  assoc (str_of (get "name" v)) (contracts r) = None ∧
  str_of (get "reversibility" v) ∈ REVERSIBILITY_CLASSES ∧
  str_of (get "cancellation_policy" v) ∈ CANCELLATION_POLICIES ∧ str_of (get "failure_mode" v) ∈ FAILURE_MODES ∧
  (1 ≤ int_of (get "timeout_ms" v) ≤ 3600000)%Z.
Proof.
  unfold check_fields. intros E. inv_ok E. inv_throw_if.
  inv_ok Hok0.
  repeat match goal with H : requireText _ _ = Ok ?u |- _ => destruct u; apply requireText_ok in H end.
  bool_props. split_and!; try by apply has_text_ok.
  - by repeat constructor.
  - by apply eq_None_not_Some.
  - done.
  - done.
Qed.

Lemma register_ok a r c r' : register a r = Ok (c, r') →
  sealed r = false ∧ contract_wf c ∧ name c ∉ (contracts r).*1 ∧
  r' = MkRegistry (contracts r ++ [(name c, c)]) (sealed r).
Proof.
  unfold register. intros E. inv_ok E. inv_throw_if. subst c r'.
  destruct a1. apply check_fields_ok in Hok0 as (Ht & Hn & Hr & Hcp & Hf & Hto).
  unfold normalize in Hok1. inv_ok Hok1. subst a2.
  split_and!; [done| | |done].
  - repeat match goal with H : Forall _ (_ :: _) |- _ => apply Forall_cons in H as [? H] end.
    constructor; simpl; try done; [by repeat constructor|].
    split; by eapply normalizeSchema_ok.
  - by apply assoc_None.
Qed.

(** C31: in every registry the program builds a name has one contract, and every
    contract is complete: its texts are not empty, its classes are those of the three
    closed lists, its timeout is between a millisecond and an hour and its schemas have
    positive versions. *)
Theorem contracts_are_complete r tool c : built r → resolve r tool = Ok c →
  contract_wf c ∧ tool = VStr (name c) ∧ NoDup (contracts r).*1.
Proof.
  intros Hb. assert (registry_wf r) as [HN Hc].
  { clear tool c. induction Hb as [|a r c r' Hb [HN Hc] E|r Hb [HN Hc]].
    - constructor; simpl; [apply NoDup_nil_2|]. by intros ?? ?%elem_of_nil.
    - apply register_ok in E as (_ & Hwf & Hn & ->). constructor; simpl.
      + rewrite fmap_app. apply NoDup_app. split_and!; [done|set_solver|apply NoDup_singleton].
      + intros k x [Hx|Hx%list_elem_of_singleton]%elem_of_app; [by apply Hc|by simplify_eq].
    - by constructor. }
  unfold resolve. destruct (assoc _ _) as [x|] eqn:E; [|done]. destruct tool; simpl; try done.
  intros [= <-]. apply assoc_elem_of in E; [|done]. destruct (Hc _ _ E) as [Ek ?]. simpl in Ek. by subst.
Qed.

Lemma resolve_extends a r c r' tool x : register a r = Ok (c, r') → resolve r tool = Ok x → resolve r' tool = Ok x.
Proof. intros (_ & _ & _ & ->)%register_ok. unfold resolve. simpl. rewrite assoc_snoc. by destruct (assoc _ _). Qed.

(** Registering never changes what earlier names resolve to, the new name resolves
    to the contract registered, and a sealed registry registers nothing. *)
Theorem register_extends a r c r' : register a r = Ok (c, r') →
  resolve r' (VStr (name c)) = Ok c ∧ (∀ tool x, resolve r tool = Ok x → resolve r' tool = Ok x) ∧
  sealed r = false ∧ ∀ b, is_ok (register b (seal r')) = false.
Proof.
  intros E. split_and!; [|by intros; eapply resolve_extends|by apply register_ok in E as (? & _)|done].
  apply register_ok in E as (_ & _ & Hn & ->). unfold resolve. simpl.
  apply assoc_None in Hn. by rewrite assoc_snoc, Hn, String.eqb_refl.
Qed.

Lemma own_words_code x v : default x (own_words specific_code v) = x ∨
  specific_code (js_string (default x (own_words specific_code v))) = true.
Proof.
  unfold own_words. destruct (specific_code _) eqn:E; [right|by left]. simpl.
  unfold or_else in E. destruct (truthy v); [done|]. by vm_compute in E.
Qed.

(** A schema cannot make validation fail in its own words only: a value is accepted
    with the data of the schema or refused with an error of the registry whose code is
    the one of the phase, a failed evaluation, or a closed-form code. *)
Theorem validation_is_closed c v e : validateInput c v = Throw e →
  error_code e = "EXECUTION_INPUT_INVALID" ∨ error_code e = "EXECUTION_SCHEMA_EVALUATION_FAILED" ∨
  specific_code (js_string (get "code" e)) = true ∨ e = type_error "Cannot read properties of undefined (reading 'message')".
Proof.
  unfold validateInput, parseSchema. destruct (safeParse _ v) as [p|x].
  - case_if; [done|]. intros [= <-].
    destruct (own_words_code (VStr (phase_code "input")) (get "hseos_code" (get "error" p))) as [E|E].
    + left. trans (str_of (default (VStr (phase_code "input")) (own_words specific_code (get "hseos_code" (get "error" p)))));
        [reflexivity|by rewrite E].
    + right; right; left. exact E.
  - intros Ht. destruct x; injection Ht as <-; naive_solver.
Qed.

Section shipped_facts.
Context (input_of output_of : string → parser) (json_of : string → list (string * value)).

(** The registry of the shipped contracts. *)
Definition shipped_registry : registry :=
  match registerCapabilityContractStubs input_of output_of json_of new_registry with
  | Ok r => r
  | Throw _ => new_registry
  end.

Lemma shipped_registers :
  registerCapabilityContractStubs input_of output_of json_of new_registry = Ok shipped_registry.
Proof. vm_compute. reflexivity. Qed.

(** The shipped contracts are accepted by a new registry, whatever their schemas,
    and each declares the approvals the runtime asks for: the runtime demands one beyond
    the policy exactly when the contract says so. *)
Theorem shipped_contracts_register :
  registerCapabilityContractStubs input_of output_of json_of new_registry = Ok shipped_registry ∧
  length (contracts shipped_registry) = 14 ∧
  Forall (λ c, Runtime.needs_approval (runtime_contract c) VNull = requires_approval c) (contracts shipped_registry).*2.
Proof.
  split; [exact shipped_registers|]. split; [vm_compute; reflexivity|]. vm_compute. repeat constructor.
Qed.
End shipped_facts.

Lemma register_all_built l r r' : built r → register_all l r = Ok r' → built r'.
Proof.
  revert r. induction l as [|a l IH]; simpl; intros r Hb E; [by simplify_eq|].
  destruct (register a r) as [[c r1]|] eqn:Ha; simpl in E; [|done].
  eapply IH; [|exact E]. by eapply built_register.
Qed.

(** ** Examples *)

Definition accepting : parser := λ v, Ok (VObj [("success", VBool true); ("data", v)]).
(** A schema that refuses in its own words. *)
Definition refusing : parser := λ _, Ok (VObj [("success", VBool false);
  ("error", VObj [("hseos_code", VStr "ENV_LSP_INPUT_INVALID"); ("hseos_cause", VStr "action is unknown")])]).
Definition sample_registry : registry :=
  shipped_registry (λ _, refusing) (λ _, accepting) (λ _, []).
Definition sample_tool (name : string) : contract_arg :=
  capabilityContract (λ _, refusing) (λ _, accepting) (λ _, []) name "files" "local" "files.read" "read_only" false 1000 false.

Lemma sample_built : built sample_registry.
Proof.
  apply (register_all_built (ENVIRONMENT_CONTRACTS (λ _, refusing) (λ _, accepting) (λ _, []) ++
                             CAPABILITY_CONTRACTS (λ _, refusing) (λ _, accepting) (λ _, [])) new_registry).
  - apply built_new.
  - apply (shipped_registers (λ _, refusing) (λ _, accepting) (λ _, [])).
Qed.

Lemma contracts_are_complete_witness : ∃ c, resolve sample_registry (VStr "memory.delete") = Ok c ∧ contract_wf c.
Proof.
  destruct (resolve sample_registry (VStr "memory.delete")) as [c|e] eqn:E; [|vm_compute in E; discriminate E].
  exists c. split; [reflexivity|]. apply (contracts_are_complete _ _ _ sample_built E).
Defined.

Lemma register_extends_witness : ∃ c r, register (sample_tool "files.list") new_registry = Ok (c, r) ∧
  resolve r (VStr (name c)) = Ok c.
Proof.
  destruct (register (sample_tool "files.list") new_registry) as [[c r]|e] eqn:E; [|vm_compute in E; discriminate E].
  exists c, r. split; [reflexivity|]. exact (proj1 (register_extends _ _ _ _ E)).
Defined.

Lemma validation_is_closed_witness : ∃ c e, validateInput c VNull = Throw e ∧
  (error_code e = "EXECUTION_INPUT_INVALID" ∨ error_code e = "EXECUTION_SCHEMA_EVALUATION_FAILED" ∨
   specific_code (js_string (get "code" e)) = true ∨
   e = type_error "Cannot read properties of undefined (reading 'message')").
Proof.
  destruct (register (sample_tool "files.list") new_registry) as [[c r]|e] eqn:E; [|vm_compute in E; discriminate E].
  exists c. destruct (validateInput c VNull) as [v|e] eqn:Hv.
  - vm_compute in E. injection E as <- <-. vm_compute in Hv. discriminate Hv.
  - exists e. split; [reflexivity|]. apply (validation_is_closed c VNull e Hv).
Defined.
