(* ===== verification/Zod.v ===== *)
(** * Schemas of the third-party validator

    The contracts of the packages are schemas built from the combinators of the library
    zod.  A schema is the data [zschema]; the validator is the interface [Zod], whose one
    law is the documented reading of the combinators ([valid], [parsed]).  The issues a
    refusal lists are the library's own and are left out. *)
From S2P Require Import Prelude JsValue CanonicalJson StrictJson.

Inductive zschema :=
  | ZString (minimum : Z) (maximum : option Z) (pattern : string → bool)   (* z.string().min().max().regex() *)
  | ZBoolean                                                  (* z.boolean() *)
  | ZJson                                                     (* z.json() *)
  | ZLiteral (literal : value)                                (* z.literal(v) *)
  | ZEnum (values : list string)                              (* z.enum(values) *)
  | ZArray (item : zschema)                                   (* z.array(item) *)
  | ZRecord (item : zschema)                                  (* z.record(z.string(), item) *)
  | ZNullable (s : zschema)                                   (* s.nullable() *)
  | ZObject (fields : list (string * zschema))                (* z.object(fields).strict() *)
  | ZRefine (s : zschema) (test : value → bool).              (* s.refine(test), s.superRefine(...) *)

Definition within (low : Z) (high : option Z) (n : Z) : bool :=
  (low <=? n)%Z && match high with Some high => (n <=? high)%Z | None => true end.
Definition any_text (_ : string) : bool := true.
Definition text_size (s : string) : Z := Z.of_nat (String.length s).
Definition fields_of (v : value) : list (string * value) := match v with VObj f => f | _ => [] end.

(** ** What is documented *)

(** A strict object has the fields of its schema and no other. *)
Definition strict_object (tests : list (string * (value → bool))) (v : value) : bool :=
  is_record v && forallb (λ k, k ∈s tests.*1) (object_keys v) && forallb (λ f, f.2 (get f.1 v)) tests.

(** The output: objects list their fields in the order of the schema. *)
Fixpoint parsed (s : zschema) (v : value) : value :=
  match s with
  | ZArray item => VArr (parsed item <$> items_of v)
  | ZRecord item => VObj ((λ kv, (kv.1, parsed item kv.2)) <$> fields_of v)
  | ZNullable s => if is_null v then v else parsed s v
  | ZObject fields => VObj ((λ f, (f.1, parsed f.2 (get f.1 v))) <$> fields)
  | ZRefine s _ => parsed s v
  | _ => v
  end.

(** A refinement tests the output of its schema. *)
Fixpoint valid (s : zschema) (v : value) : bool :=
  match s with
  | ZString low high pattern =>
      is_string v && within low high (text_size (str_of v)) && pattern (str_of v)
  | ZBoolean => is_boolean v
  | ZJson => strict v
  | ZLiteral literal => bool_decide (v = literal)
  | ZEnum values => is_string v && (str_of v ∈s values)
  | ZArray item => is_array v && forallb (valid item) (items_of v)
  | ZRecord item => is_record v && forallb (λ kv, valid item kv.2) (fields_of v)
  | ZNullable s => is_null v || valid s v
  | ZObject fields => strict_object ((λ f, (f.1, valid f.2)) <$> fields) v
  | ZRefine s test => valid s v && test (parsed s v)
  end.

(** [schema.safeParse(value)]: the data of a success. *)
Class Zod := {
  safeParse : zschema → value → option value;
  safeParse_documented s v : safeParse s v = if valid s v then Some (parsed s v) else None;
}.

(** The interface can be met. *)
Definition documented_zod : Zod.
Proof. refine {| safeParse s v := if valid s v then Some (parsed s v) else None |}; done. Defined.

(** ** Strict objects *)

Lemma valid_object fields v : valid (ZObject fields) v = true ↔
  is_record v = true ∧ (∀ k, k ∈ object_keys v → k ∈ fields.*1) ∧
  Forall (λ f : string * zschema, valid f.2 (get f.1 v) = true) fields.
Proof.
  simpl. unfold strict_object. rewrite !andb_true_iff, !forallb_true.
  assert (((λ f : string * zschema, (f.1, valid f.2)) <$> fields).*1 = fields.*1) as ->
    by (rewrite <- list_fmap_compose; by apply list_fmap_ext).
  rewrite Forall_forall. setoid_rewrite includes_spec. split; [intros [[Hr Hk] Hf]|intros (Hr & Hk & Hf)].
  - split_and!; [done..|]. intros [k s] Hin. apply (Hf (k, valid s)). by apply (list_elem_of_fmap_2 (λ f : string * zschema, (f.1, valid f.2))) in Hin.
  - split; [done|]. intros x ([k s] & -> & Hin)%list_elem_of_fmap. by apply (Hf (k, s)).
Qed.

Lemma valid_field fields v k s : valid (ZObject fields) v = true → (k, s) ∈ fields → valid s (get k v) = true.
Proof. intros (_ & _ & HF)%valid_object Hin. rewrite Forall_forall in HF. by apply (HF (k, s)). Qed.

Lemma parsed_field fields v k s : NoDup fields.*1 → (k, s) ∈ fields →
  get k (parsed (ZObject fields) v) = parsed s (get k v).
Proof.
  intros HN Hin. simpl.
  assert (assoc k ((λ f : string * zschema, (f.1, parsed f.2 (get f.1 v))) <$> fields) = Some (parsed s (get k v))) as ->; [|done].
  apply assoc_elem_of.
  - rewrite <- list_fmap_compose. by erewrite (list_fmap_ext _ fst) by done.
  - by apply (list_elem_of_fmap_2 (λ f : string * zschema, (f.1, parsed f.2 (get f.1 v)))) in Hin.
Qed.

Lemma parsed_keys fields v : object_keys (parsed (ZObject fields) v) = fields.*1.
Proof. simpl. rewrite <- list_fmap_compose. by apply list_fmap_ext. Qed.

(** ** Outputs pass again *)

Section schema_ind.
Context (P : zschema → Prop).
Context (HString : ∀ low high p, P (ZString low high p)) (HBoolean : P ZBoolean) (HJson : P ZJson)
  (HLiteral : ∀ v, P (ZLiteral v)) (HEnum : ∀ l, P (ZEnum l)) (HArray : ∀ s, P s → P (ZArray s))
  (HRecord : ∀ s, P s → P (ZRecord s)) (HNullable : ∀ s, P s → P (ZNullable s))
  (HObject : ∀ fields, Forall (λ f, P f.2) fields → P (ZObject fields))
  (HRefine : ∀ s test, P s → P (ZRefine s test)).

Fixpoint zschema_ind' (s : zschema) : P s :=
  match s with
  | ZString low high p => HString low high p
  | ZBoolean => HBoolean
  | ZJson => HJson
  | ZLiteral v => HLiteral v
  | ZEnum l => HEnum l
  | ZArray s => HArray s (zschema_ind' s)
  | ZRecord s => HRecord s (zschema_ind' s)
  | ZNullable s => HNullable s (zschema_ind' s)
  | ZObject fields => HObject fields ((fix go fields : Forall (λ f, P f.2) fields :=
      match fields with [] => Forall_nil_2 _ | f :: fields => Forall_cons_2 _ _ _ (zschema_ind' f.2) (go fields) end) fields)
  | ZRefine s test => HRefine s test (zschema_ind' s)
  end.
End schema_ind.

(** No object of a schema names a field twice. *)
Fixpoint proper_schema (s : zschema) : bool :=
  match s with
  | ZArray s | ZRecord s | ZNullable s | ZRefine s _ => proper_schema s
  | ZObject fields => bool_decide (NoDup fields.*1) && forallb (λ f, proper_schema f.2) fields
  | _ => true
  end.

Lemma parsed_idemp s v : proper_schema s = true → parsed s (parsed s v) = parsed s v.
Proof.
  revert v. induction s as [| | | | |s IH|s IH|s IH|fields IH|s test IH] using zschema_ind'; intros w Hp; try done.
  - simpl. f_equal. rewrite <- list_fmap_compose. apply list_fmap_ext. intros i x _. by apply IH.
  - simpl. f_equal. rewrite <- list_fmap_compose. apply list_fmap_ext. intros i x _. simpl. by rewrite IH.
  - simpl. destruct (is_null w) eqn:E; [by rewrite E|]. case_if; [done|]. by apply IH.
  - cbn [proper_schema] in Hp. apply andb_true_iff in Hp as [HN%bool_decide_eq_true Hp].
    rewrite forallb_true in Hp. rewrite Forall_forall in IH. change (parsed (ZObject fields) ?x) with
      (VObj ((λ f : string * zschema, (f.1, parsed f.2 (get f.1 x))) <$> fields)) at 1 3. f_equal.
    apply Forall_fmap_ext_1, Forall_forall. intros [k s] Hin. simpl. f_equal.
    pose proof (parsed_field fields w k s HN Hin) as Hf. simpl in Hf. simpl. rewrite Hf. by apply (IH (k, s) Hin), (Hp (k, s) Hin).
  - by apply IH.
Qed.

Lemma parsed_valid s v : proper_schema s = true → valid s v = true → valid s (parsed s v) = true.
Proof.
  revert v. induction s as [| | | | |s IH|s IH|s IH|fields IH|s test IH] using zschema_ind'; intros w Hp Hv; try done.
  - simpl in *. bool_props. rewrite forallb_true in *. intros x (y & -> & Hy)%list_elem_of_fmap. auto.
  - simpl in *. bool_props. rewrite forallb_true in *. intros x (y & -> & Hy)%list_elem_of_fmap. simpl. auto.
  - simpl in *. destruct (is_null w) eqn:E; simpl in *; [by rewrite E|]. by rewrite IH, orb_true_r.
  - pose proof (proj1 (valid_object fields w) Hv) as (Hr & Hk & HF). apply valid_object.
    cbn [proper_schema] in Hp. apply andb_true_iff in Hp as [HN%bool_decide_eq_true Hp].
    rewrite forallb_true in Hp. rewrite Forall_forall in *. split_and!; [done|by rewrite parsed_keys|].
    intros [k s] Hin. simpl snd. simpl fst. rewrite (parsed_field fields w k s HN Hin).
    apply (IH (k, s) Hin); [by apply (Hp (k, s))|by apply (HF (k, s))].
  - simpl in *. bool_props. rewrite IH, parsed_idemp by done. done.
Qed.
