(* ===== verification/PortContracts.v ===== *)
(** * Contracts of the tool port (packages/agent-runtime-contracts)

    The schemas of common.js, agent-contracts.js and ports.js that a tool call passes:
    identifiers, strict objects, tool definitions, the inputs and results of the tool
    port, and the correlation of a result with its input. *)
From S2P Require Import Prelude JsValue CanonicalJson StrictJson Ledger Zod.

(** ** Schemas of common.js *)

Definition AgentContractError (message code : string) (details : value) : value :=
  error_with "AgentContractError" message code details.

(** [/^[a-z0-9][a-z0-9._:-]*$/] *)
Definition identifier_head (c : ascii) : bool := lower_letter c || digit c.
Definition identifier_char (c : ascii) : bool :=
  identifier_head c || existsb (Ascii.eqb c) ["."%char; "_"%char; ":"%char; "-"%char].
Definition identifier (s : string) : bool :=
  match s with
  | String c rest => identifier_head c && all_chars identifier_char rest
  | EmptyString => false
  end.
Definition IdentifierSchema : zschema := ZString 1 (Some 160%Z) identifier.
Definition ReferenceSchema : zschema := ZString 1 (Some 1024%Z) any_text.
Definition JsonObjectSchema : zschema := ZRecord ZJson.
Definition boundedJsonObject (maximumBytes : Z) : zschema :=
  ZRefine JsonObjectSchema (λ v, (text_size (default "" (json_stringify v)) <=? maximumBytes)%Z).
Definition strictObject : list (string * zschema) → zschema := ZObject.
Definition CONTRACT_SCHEMA_VERSION : value := VNum (NInt 1).

Definition parseContract `{Zod} (s : zschema) (v : value) (label : string) : result value :=
  match safeParse s v with
  | Some data => Ok data
  | None =>
      Throw (AgentContractError (label +:+ " does not match schema v1") "AGENT_CONTRACT_SCHEMA_INVALID"
        (VObj [("label", VStr label); ("schema_version", CONTRACT_SCHEMA_VERSION)]))
  end.

(** ** Tools (agent-contracts.js) *)

Definition ToolDefinitionSchema : zschema :=
  strictObject [("name", IdentifierSchema); ("description", ZString 1 (Some 8192%Z) any_text);
                ("input_schema", JsonObjectSchema); ("governance_ref", ReferenceSchema)].
Definition ToolDefinitionsSchema : zschema :=
  ZRefine (ZArray ToolDefinitionSchema) (λ tools, negb (has_duplicates ((λ t, str_of (get "name" t)) <$> items_of tools))).

Definition ToolExecutionErrorSchema : zschema :=
  strictObject [("code", ZString 1 None any_text); ("message", ZString 1 None any_text); ("retryable", ZBoolean)].
Definition STATUSES : list string := ["succeeded"; "failed"; "cancelled"; "uncertain"].

(** The refinement of a result: what each status requires. *)
Definition coherent_status (o : value) : bool :=
  let status := str_of (get "status" o) in
  let code := str_of (get "code" (get "error" o)) in
  let failed := negb (status =s "succeeded") in
  negb (negb failed && (is_null (get "operation_id" o) || negb (is_null (get "error" o)))) &&
  negb (failed && (negb (is_null (get "result" o)) || is_null (get "error" o) || truthy (get "replayed" o))) &&
  negb ((status =s "cancelled") && negb (code =s "EXECUTION_CANCELLED")) &&
  negb ((status =s "uncertain") && negb (code =s "EXECUTION_OUTCOME_IN_DOUBT")) &&
  negb ((status =s "failed") && (code ∈s ["EXECUTION_CANCELLED"; "EXECUTION_OUTCOME_IN_DOUBT"])) &&
  negb (has_duplicates (strings_of (get "evidence_refs" o))) && negb (has_duplicates (strings_of (get "warnings" o))).
Definition tool_result_fields : list (string * zschema) :=
  [("schema_version", ZLiteral CONTRACT_SCHEMA_VERSION); ("invocation_id", IdentifierSchema);
   ("session_id", IdentifierSchema); ("turn_id", IdentifierSchema); ("tool_call_id", IdentifierSchema);
   ("name", IdentifierSchema); ("status", ZEnum STATUSES); ("operation_id", ZNullable IdentifierSchema);
   ("result", ZNullable ZJson); ("error", ZNullable ToolExecutionErrorSchema);
   ("evidence_refs", ZArray (ZString 0 None any_text)); ("warnings", ZArray (ZString 0 None any_text));
   ("replayed", ZBoolean)].
Definition ToolExecutionResultSchema : zschema := ZRefine (strictObject tool_result_fields) coherent_status.

(** ** The tool port (ports.js) *)

Definition ToolExecuteInputSchema : zschema :=
  strictObject
    [("schema_version", ZLiteral CONTRACT_SCHEMA_VERSION); ("invocation_id", IdentifierSchema);
     ("session_id", IdentifierSchema); ("turn_id", IdentifierSchema); ("tool_call_id", IdentifierSchema);
     ("name", IdentifierSchema); ("input", boundedJsonObject 1048576);
     ("actor", strictObject [("id", IdentifierSchema); ("type", IdentifierSchema)]);
     ("resource_scope", ZRefine (boundedJsonObject 262144) (λ scope, negb (bool_decide (object_keys scope = []))));
     ("idempotency_key", IdentifierSchema); ("correlation_id", IdentifierSchema); ("causation_id", IdentifierSchema);
     ("approval_context", ZNullable (boundedJsonObject 262144))].
Definition session_fields : list (string * zschema) :=
  [("schema_version", ZLiteral CONTRACT_SCHEMA_VERSION); ("session_id", IdentifierSchema)].
Definition call_schema_fields : list (string * zschema) :=
  [("schema_version", ZLiteral CONTRACT_SCHEMA_VERSION); ("invocation_id", IdentifierSchema);
   ("session_id", IdentifierSchema); ("turn_id", IdentifierSchema); ("tool_call_id", IdentifierSchema)].
Definition ToolListInputSchema : zschema := strictObject session_fields.
Definition ToolDisposeInputSchema : zschema := strictObject session_fields.
Definition ToolCancelInputSchema : zschema :=
  strictObject (call_schema_fields ++ [("reason", ZString 1 (Some 2048%Z) any_text)]).
Definition ToolListResultSchema : zschema := strictObject (session_fields ++ [("tools", ToolDefinitionsSchema)]).
Definition ToolCancelResultSchema : zschema := strictObject (call_schema_fields ++ [("accepted", ZBoolean)]).
Definition ToolDisposeResultSchema : zschema := strictObject (session_fields ++ [("accepted", ZBoolean)]).

(** The methods of the port, with the rows of INPUT_SCHEMAS and RESULT_SCHEMAS. *)
Inductive tool_method := ToolList | ToolExecute | ToolCancel | ToolDispose.
Definition method_name (m : tool_method) : string :=
  match m with ToolList => "list" | ToolExecute => "execute" | ToolCancel => "cancel" | ToolDispose => "dispose" end.
Definition input_schema (m : tool_method) : zschema :=
  match m with
  | ToolList => ToolListInputSchema | ToolExecute => ToolExecuteInputSchema
  | ToolCancel => ToolCancelInputSchema | ToolDispose => ToolDisposeInputSchema
  end.
Definition result_schema (m : tool_method) : zschema :=
  match m with
  | ToolList => ToolListResultSchema | ToolExecute => ToolExecutionResultSchema
  | ToolCancel => ToolCancelResultSchema | ToolDispose => ToolDisposeResultSchema
  end.

(** [correlateResult('ToolRuntime', method, input, result)] *)
Definition correlation_fields (m : tool_method) : list string :=
  match m with
  | ToolList | ToolDispose => ["session_id"]
  | ToolExecute => ["invocation_id"; "session_id"; "turn_id"; "tool_call_id"; "name"]
  | ToolCancel => ["invocation_id"; "session_id"; "turn_id"; "tool_call_id"]
  end.
Definition correlationError (m : tool_method) (field : string) (expected actual : value) : value :=
  AgentContractError ("ToolRuntime." +:+ method_name m +:+ " " +:+ field +:+ " mismatch") "AGENT_PORT_CORRELATION_INVALID"
    (VObj [("port", VStr "ToolRuntime"); ("method", VStr (method_name m)); ("field", VStr field);
           ("expected", expected); ("actual", actual)]).
Definition correlateResult (m : tool_method) (input r : value) : result value :=
  _ ← for_each (λ f, throw_if (negb (bool_decide (get f input = get f r)))
        (correlationError m f (get f input) (get f r))) (correlation_fields m);
  Ok r.

Section port.
Context `{Zod}.

(** [validatePortInput('ToolRuntime', method, value)] *)
Definition validatePortInput (m : tool_method) (v : value) : result value :=
  parseContract (input_schema m) v ("ToolRuntime." +:+ method_name m +:+ " input").

(** [validatePortResult('ToolRuntime', method, value, input)] *)
Definition validatePortResult (m : tool_method) (v inputValue : value) : result value :=
  input ← validatePortInput m inputValue;
  r ← parseContract (result_schema m) v ("ToolRuntime." +:+ method_name m +:+ " result");
  correlateResult m input r.

(** ** Parsed objects *)

Lemma parseContract_ok s v label data :
  parseContract s v label = Ok data ↔ valid s v = true ∧ data = parsed s v.
Proof.
  unfold parseContract. rewrite safeParse_documented. destruct (valid s v); split; [intros [= <-]|intros [_ ->]| |]; try done.
  by intros [].
Qed.

Lemma parseContract_valid s v label : valid s v = true → parseContract s v label = Ok (parsed s v).
Proof. intros Hv. by apply parseContract_ok. Qed.

Lemma parseContract_invalid s v label : valid s v = false → is_ok (parseContract s v label) = false.
Proof. unfold parseContract. rewrite safeParse_documented. by intros ->. Qed.

Lemma input_schema_proper m : proper_schema (input_schema m) = true.
Proof. destruct m; vm_compute; reflexivity. Qed.

Lemma input_valid m v input : validatePortInput m v = Ok input → valid (input_schema m) input = true.
Proof. intros [Hv ->]%parseContract_ok. apply parsed_valid; [apply input_schema_proper|done]. Qed.

(** A parsed input is its own parse. *)
Lemma input_again m v input : validatePortInput m v = Ok input → validatePortInput m input = Ok input.
Proof.
  intros Hi. pose proof (input_valid m v input Hi) as Hv. apply parseContract_ok in Hi as [_ ->].
  unfold validatePortInput. rewrite parseContract_valid by done. by rewrite parsed_idemp by apply input_schema_proper.
Qed.
End port.
