(* ===== verification/ToolRegistry.v ===== *)
(** * The registry of model-visible tools (packages/tool-runtime/registry.js)

    A definition is visible to models once it names a governed contract. *)
From S2P Require Import Prelude JsValue CanonicalJson StrictJson Zod PortContracts.
From S2P Require ContractRegistry.

Definition ToolRuntimeRegistryError (message code : string) (details : list (string * value)) : value :=
  error_with "ToolRuntimeRegistryError" message code (VObj details).
Definition governanceRef (name : string) : string := "governance://tool/" +:+ name.
Definition tool_name (definition : value) : string := str_of (get "name" definition).

(** The contracts are shared with the governed runtime, which may still register some. *)
Record registry := MkRegistry { definitions : list (string * value); sealed : bool }.
Definition new_registry : registry := MkRegistry [] false.

Section registry.
Context `{Zod}.

Definition register (contracts : ContractRegistry.registry) (v : value) (r : registry) : result (value * registry) :=
  _ ← throw_if (sealed r) (ToolRuntimeRegistryError "tool registry is sealed" "TOOL_RUNTIME_REGISTRY_SEALED" []);
  definition ← parseContract ToolDefinitionSchema v "tool definition";
  let name := tool_name definition in
  _ ← throw_if (bool_decide (is_Some (assoc name (definitions r))))
        (ToolRuntimeRegistryError "tool is already registered" "TOOL_RUNTIME_DUPLICATE" [("name", VStr name)]);
  match ContractRegistry.resolve contracts (VStr name) with
  | Throw e =>
      Throw (ToolRuntimeRegistryError "tool has no governed execution contract" "TOOL_RUNTIME_CONTRACT_NOT_FOUND"
        [("name", VStr name); ("cause_code", or_else (get "code" e) (VStr "unknown"))])
  | Ok contract =>
      let expected := governanceRef (ContractRegistry.name contract) in
      _ ← throw_if (negb (bool_decide (get "governance_ref" definition = VStr expected)))
            (ToolRuntimeRegistryError "tool governance reference does not identify its execution contract"
               "TOOL_RUNTIME_GOVERNANCE_MISMATCH" [("name", VStr name); ("expected", VStr expected)]);
      Ok (definition, MkRegistry (definitions r ++ [(name, definition)]) (sealed r))
  end.

Definition resolve (contracts : ContractRegistry.registry) (r : registry) (name : string) :
    result (ContractRegistry.contract * value) :=
  match assoc name (definitions r) with
  | None => Throw (ToolRuntimeRegistryError "tool is not model-visible" "TOOL_RUNTIME_TOOL_NOT_FOUND" [("name", VStr name)])
  | Some definition =>
      contract ← ContractRegistry.resolve contracts (VStr name); Ok (contract, definition)
  end.

(** [left.name < right.name ? -1 : left.name > right.name ? 1 : 0] *)
Definition name_le (a b : value) : bool := String.leb (tool_name a) (tool_name b).
Definition list_tools (r : registry) : list value := sort_by name_le (definitions r).*2.
Definition seal (r : registry) : registry := MkRegistry (definitions r) true.

(** ** Visible tools *)

Record registry_wf (contracts : ContractRegistry.registry) (r : registry) : Prop := {
  wf_names : NoDup (definitions r).*1;
  wf_definitions name d : (name, d) ∈ definitions r →
    name = tool_name d ∧ identifier name = true ∧ valid ToolDefinitionSchema d = true ∧
    ∃ c, ContractRegistry.resolve contracts (VStr name) = Ok c ∧
      get "governance_ref" d = VStr (governanceRef (ContractRegistry.name c));
}.

(** The registries the program builds together; either may be sealed at any time. *)
Inductive built : ContractRegistry.registry → registry → Prop :=
  | built_new : built ContractRegistry.new_registry new_registry
  | built_contract a cr c cr' r : built cr r → ContractRegistry.register a cr = Ok (c, cr') → built cr' r
  | built_tool v cr r d r' : built cr r → register cr v r = Ok (d, r') → built cr r'
  | built_seal_contracts cr r : built cr r → built (ContractRegistry.seal cr) r
  | built_seal cr r : built cr r → built cr (seal r).

Lemma tool_registered cr v r d r' : register cr v r = Ok (d, r') →
  sealed r = false ∧ valid ToolDefinitionSchema d = true ∧ tool_name d ∉ (definitions r).*1 ∧
  r' = MkRegistry (definitions r ++ [(tool_name d, d)]) (sealed r) ∧
  ∃ c, ContractRegistry.resolve cr (VStr (tool_name d)) = Ok c ∧
    get "governance_ref" d = VStr (governanceRef (ContractRegistry.name c)).
Proof.
  unfold register. intros E. inv_ok E. inv_throw_if. apply parseContract_ok in Hok0 as [Hd ->]. destruct (ContractRegistry.resolve _ _) as [c|] eqn:Hc; [|done]. inv_ok E. inv_throw_if.
  subst. bool_props. split_and!; [done|by apply (parsed_valid ToolDefinitionSchema)| |done|by exists c].
  apply assoc_None. by apply eq_None_not_Some.
Qed.

Lemma ToolDefinition_identifier d : valid ToolDefinitionSchema d = true → identifier (tool_name d) = true.
Proof.
  intros Hd. apply (valid_field _ d "name" IdentifierSchema) in Hd; [|by left].
  simpl in Hd. by bool_props.
Qed.

Lemma built_wf cr r : built cr r → registry_wf cr r.
Proof.
  induction 1 as [|a cr c cr' r _ [HN Hd] E|v cr r d r' _ [HN Hd] E|cr r _ [HN Hd]|cr r _ [HN Hd]].
  - constructor; [apply NoDup_nil_2|]. by intros ?? ?%elem_of_nil.
  - constructor; [done|]. intros name d Hin. destruct (Hd _ _ Hin) as (? & ? & ? & c' & ? & ?).
    split_and!; try done. exists c'. split; [by eapply ContractRegistry.resolve_extends|done].
  - apply tool_registered in E as (_ & Hs & Hn & -> & c & Hc & Hg). constructor; simpl.
    + rewrite fmap_app. apply NoDup_app. split_and!; [done|set_solver|apply NoDup_singleton].
    + intros name x [Hx|Hx%list_elem_of_singleton]%elem_of_app; [by apply Hd|]. simplify_eq.
      split_and!; [done|by apply ToolDefinition_identifier|done|by exists c].
  - by constructor.
  - by constructor.
Qed.

#[export] Instance name_le_order : LebOrder name_le.
Proof.
  split; unfold name_le.
  - intros x y. apply (@leb_total _ _ string_leb_order).
  - intros x y z. apply (@leb_trans _ _ string_leb_order).
Qed.

(** C30: a tool is visible to models only with a governed contract: every definition the
    registry lists has an identifier for a name, a complete schema and the governance
    reference of the contract its name resolves to, the list is sorted and has no
    duplicates, and listed tools are exactly those that resolve. *)
Theorem visible_tools_are_governed cr r : built cr r →
  StronglySorted (le_of name_le) (list_tools r) ∧ NoDup (tool_name <$> list_tools r) ∧
  ∀ d, d ∈ list_tools r ↔ ∃ c, resolve cr r (tool_name d) = Ok (c, d) ∧ valid ToolDefinitionSchema d = true ∧
    get "governance_ref" d = VStr (governanceRef (ContractRegistry.name c)).
Proof.
  intros [HN Hd]%built_wf. unfold list_tools.
  assert (Hnames : tool_name <$> (definitions r).*2 = (definitions r).*1).
  { rewrite <- list_fmap_compose. apply Forall_fmap_ext_1, Forall_forall. intros [k d] Hin. simpl.
    symmetry. by apply Hd. }
  split_and!.
  - apply sort_by_sorted, name_le_order.
  - rewrite sort_by_perm. by rewrite Hnames.
  - intros d. rewrite elem_of_sort_by. unfold resolve. split.
    + intros ([k d'] & -> & Hin)%list_elem_of_fmap. simpl in *. destruct (Hd _ _ Hin) as (-> & _ & Hs & c & Hc & Hg).
      exists c. apply assoc_elem_of in Hin; [|done]. rewrite Hin. simpl. by rewrite Hc.
    + intros (c & E & _). destruct (assoc (tool_name d) (definitions r)) as [d'|] eqn:Ha; [|done].
      apply assoc_elem_of in Ha; [|done]. destruct (ContractRegistry.resolve _ _); simpl in E; [|done]. simplify_eq.
      by apply (list_elem_of_fmap_2 snd) in Ha.
Qed.
End registry.
