(* ===== verification/ToolRuntime.v ===== *)
(** * The tool runtime (packages/tool-runtime/tool-runtime.js)

    A tool call of an agent session enters the governed scheduler once per operation
    (tool and idempotency key); calls of the same operation share the handle, and each
    answers with the normalised envelope of its promise.

    [execute] is cut at its only [await]: [begin_execute] runs up to it, [finish_execute]
    is the rest, which can run once the promise of the handle is settled.  An operation
    is an object: its position in [heap] is its identity.  The scheduler is the one of
    [Scheduler]; that it is the genuine one (an object-identity test) is taken for
    granted, that the contracts are sealed is tested. *)
From S2P Require Import Prelude JsValue CanonicalJson JsMap Envelope StrictJson OperationId Zod PortContracts.
From S2P Require ContractRegistry ToolRegistry Scheduler.

Definition ToolRuntimeError (message code : string) (details : list (string * value)) : value :=
  error_with "ToolRuntimeError" message code (VObj details).
Definition outcome_invalid (message : string) : value := ToolRuntimeError message "TOOL_RUNTIME_OUTCOME_INVALID" [].

(** ** Envelopes *)

Definition requireExactKeys (v : value) (keys : list string) (label : string) : result unit :=
  _ ← throw_if (negb (is_record v)) (outcome_invalid (label +:+ " must be an object"));
  throw_if (negb (bool_decide (sort_strings (object_keys v) = sort_strings keys)))
    (outcome_invalid (label +:+ " has non-canonical fields")).

Definition status_of_code (code : string) : string :=
  if code =s "EXECUTION_CANCELLED" then "cancelled"
  else if code =s "EXECUTION_OUTCOME_IN_DOUBT" then "uncertain" else "failed".

(** Status, operation, result, error and replay of an outcome. *)
Definition outcome_fields (envelope : value) : result (list (string * value)) :=
  let data := get "data" envelope in
  let e := get "error" envelope in
  if bool_decide (get "ok" envelope = VBool true) then
    _ ← requireExactKeys data ["operation_id"; "result"; "replayed"] "execution success";
    _ ← throw_if (negb (is_null e) || negb (nonempty_string (get "operation_id" data)) ||
                  negb (is_boolean (get "replayed" data)))
          (outcome_invalid "execution success is not canonical");
    Ok [("status", VStr "succeeded"); ("operation_id", get "operation_id" data); ("result", get "result" data);
        ("error", VNull); ("replayed", get "replayed" data)]
  else
    _ ← requireExactKeys e ["code"; "message"; "operation_id"; "retryable"] "execution failure";
    _ ← throw_if (negb (is_null data) || negb (nonempty_string (get "code" e)) ||
                  negb (nonempty_string (get "message" e)) || negb (is_boolean (get "retryable" e)) ||
                  negb (is_null (get "operation_id" e) || nonempty_string (get "operation_id" e)))
          (outcome_invalid "execution failure is not canonical");
    Ok [("status", VStr (status_of_code (str_of (get "code" e)))); ("operation_id", get "operation_id" e);
        ("result", VNull);
        ("error", VObj [("code", get "code" e); ("message", get "message" e); ("retryable", get "retryable" e)]);
        ("replayed", VBool false)].

Definition call_fields : list string := ["invocation_id"; "session_id"; "turn_id"; "tool_call_id"; "name"].
Definition raw_outcome (input envelope : value) (outcome : list (string * value)) : value :=
  VObj ([("schema_version", CONTRACT_SCHEMA_VERSION)] ++ ((λ f, (f, get f input)) <$> call_fields) ++ outcome ++
        [("evidence_refs", get "evidence" envelope); ("warnings", get "warnings" envelope)]).

Definition normalizeEnvelope `{Zod} (input envelope : value) : result value :=
  _ ← requireExactKeys envelope ["schema_version"; "ok"; "data"; "error"; "evidence"; "warnings"] "execution envelope";
  _ ← throw_if (negb (bool_decide (get "schema_version" envelope = VNum (NInt 1))) ||
                negb (is_boolean (get "ok" envelope)) || negb (unique_strings (get "evidence" envelope)) ||
                negb (unique_strings (get "warnings" envelope)))
        (outcome_invalid "execution envelope is not canonical");
  outcome ← outcome_fields envelope;
  parseContract ToolExecutionResultSchema (raw_outcome input envelope outcome) "tool execution outcome".

Definition scope_fields : list string :=
  ["name"; "input"; "session_id"; "turn_id"; "tool_call_id"; "actor"; "resource_scope"; "correlation_id";
   "causation_id"; "approval_context"].
Definition scope_of (input : value) : value := VObj ((λ f, (f, get f input)) <$> scope_fields).
Definition operationSignature (input : value) : string := stable_json (scope_of input).

(** ** State *)

Record operation := MkOperation { op_handle : Scheduler.handle; op_signature : string }.
Record active_call := MkActive { call_input : value; call_key : string; call_operation : nat }.
Record state := MkState {
  active : list (string * active_call);
  operations : list (string * nat);
  heap : list operation;
  scheduler : Scheduler.state;
}.
Definition operation_key (input : value) : string :=
  str_of (get "name" input) +:+ NUL +:+ str_of (get "idempotency_key" input).

(** The value the promise of a handle is resolved with. *)
Definition promise (s : Scheduler.state) (h : Scheduler.handle) : option value :=
  match h with
  | Scheduler.Rejected envelope => Some envelope
  | Scheduler.Accepted i => it ← Scheduler.items s !! i; head (Scheduler.resolved it)
  end.

Section runtime.
Context `{Sha256} `{Zod} (contracts : ContractRegistry.registry) (tools : ToolRegistry.registry).

(** What the scheduler reads of a contract. *)
Definition contract_view (name : string) : result value :=
  c ← ContractRegistry.resolve contracts (VStr name);
  Ok (VObj [("exclusive", VBool (ContractRegistry.exclusive c));
            ("cancellation_policy", VStr (ContractRegistry.cancellation_policy c))]).

(** The request handed to the scheduler; the signal is an argument of its own. *)
Definition scheduled_request (input : value) : value :=
  VObj [("tool", get "name" input); ("input", get "input" input); ("actor", get "actor" input);
        ("resource_scope", get "resource_scope" input); ("idempotency_key", get "idempotency_key" input);
        ("correlation_id", get "correlation_id" input); ("causation_id", get "causation_id" input);
        ("approval_context", get "approval_context" input)].

Definition list_tools (v : value) : result value :=
  input ← validatePortInput ToolList v;
  validatePortResult ToolList
    (VObj [("schema_version", CONTRACT_SCHEMA_VERSION); ("session_id", get "session_id" input);
           ("tools", VArr (ToolRegistry.list_tools tools))]) input.

(** The operation of a call: the active one of its key, or a new request. *)
Definition join_operation (input : value) (signal : Scheduler.signal_arg) (s : state) : result (nat * state) :=
  let key := operation_key input in
  let signature := operationSignature input in
  match assoc key (operations s) with
  | Some o =>
      _ ← throw_if (negb (bool_decide (op_signature <$> heap s !! o = Some signature)))
            (ToolRuntimeError "idempotency key is active for a different operation scope" "TOOL_RUNTIME_OPERATION_ACTIVE"
               [("name", get "name" input); ("idempotency_key", get "idempotency_key" input)]);
      Ok (o, s)
  | None =>
      let '(sched, h) := Scheduler.enqueue contract_view (scheduled_request input) signal (scheduler s) in
      let o := length (heap s) in
      Ok (o, MkState (active s) (operations s ++ [(key, o)]) (heap s ++ [MkOperation h signature]) sched)
  end.

Definition begin_execute (v : value) (signal : Scheduler.signal_arg) (s : state) : result (string * state) :=
  input ← validatePortInput ToolExecute v;
  _ ← ToolRegistry.resolve contracts tools (str_of (get "name" input));
  _ ← throw_if (negb (ContractRegistry.sealed contracts))
        (ToolRuntimeError "ToolRuntime requires a governed scheduler using the registry contract resolver"
           "TOOL_RUNTIME_GOVERNED_SCHEDULER_REQUIRED" []);
  let id := str_of (get "invocation_id" input) in
  _ ← throw_if (bool_decide (is_Some (assoc id (active s))))
        (ToolRuntimeError "invocation identifier is already active" "TOOL_RUNTIME_INVOCATION_ACTIVE"
           [("invocation_id", VStr id)]);
  '(o, s) ← join_operation input signal s;
  Ok (id, MkState (active s ++ [(id, MkActive input (operation_key input) o)]) (operations s) (heap s) (scheduler s)).

(** The continuation of a call: its answer, and the [finally] that forgets the call and
    its operation when no other call needs it. *)
Definition answer_of (a : active_call) (envelope : value) : result value :=
  outcome ← normalizeEnvelope (call_input a) envelope;
  validatePortResult ToolExecute outcome (call_input a).
Definition release (id : string) (a : active_call) (s : state) : state :=
  let rest := remove id (active s) in
  let unused := bool_decide (assoc (call_key a) (operations s) = Some (call_operation a)) &&
                negb (existsb (λ kv, (call_operation kv.2 =? call_operation a)%nat) rest) in
  MkState rest (if unused then remove (call_key a) (operations s) else operations s) (heap s) (scheduler s).

Definition finish_execute (id : string) (s : state) : option (result value * state) :=
  a ← assoc id (active s);
  op ← heap s !! call_operation a;
  envelope ← promise (scheduler s) (op_handle op);
  Some (answer_of a envelope, release id a s).

(** ** Cancellation *)

(** [handle.cancel(reason)]; the handle of a rejected request refuses. *)
Definition cancel_operation (o : nat) (reason : string) (s : state) : state * bool :=
  match op_handle <$> heap s !! o with
  | Some (Scheduler.Accepted i) =>
      let '(sched, accepted) := Scheduler.cancel_handle i reason (scheduler s) in
      (MkState (active s) (operations s) (heap s) sched, accepted)
  | _ => (s, false)
  end.

Definition owns (a : active_call) (input : value) : bool :=
  forallb (λ f, bool_decide (get f (call_input a) = get f input)) ["session_id"; "turn_id"; "tool_call_id"].

Definition cancel (v : value) (s : state) : result value * state :=
  match validatePortInput ToolCancel v with
  | Throw e => (Throw e, s)
  | Ok input =>
      let id := str_of (get "invocation_id" input) in
      let '(s, accepted) :=
        match assoc id (active s) with
        | Some a => if owns a input then cancel_operation (call_operation a) (str_of (get "reason" input)) s
                    else (s, false)
        | None => (s, false)
        end in
      (validatePortResult ToolCancel (VObj (((λ f, (f, get f input)) <$>
          ["schema_version"; "invocation_id"; "session_id"; "turn_id"; "tool_call_id"]) ++
          [("accepted", VBool accepted)])) input, s)
  end.

Fixpoint cancel_all (l : list active_call) (s : state) : state * bool :=
  match l with
  | [] => (s, true)
  | a :: l =>
      let '(s, accepted) := cancel_operation (call_operation a) "Agent session disposed" s in
      let '(s, all) := cancel_all l s in (s, accepted && all)
  end.
Definition dispose (v : value) (s : state) : result value * state :=
  match validatePortInput ToolDispose v with
  | Throw e => (Throw e, s)
  | Ok input =>
      let matching := List.filter (λ a, bool_decide (get "session_id" (call_input a) = get "session_id" input))
                        (active s).*2 in
      let '(s, accepted) := cancel_all matching s in
      (validatePortResult ToolDispose (VObj [("schema_version", CONTRACT_SCHEMA_VERSION);
         ("session_id", get "session_id" input); ("accepted", VBool accepted)]) input, s)
  end.

Definition snapshot (s : state) : value :=
  VObj [("active", VNum (NInt (Z.of_nat (length (active s)))));
        ("active_operations", VNum (NInt (Z.of_nat (length (operations s)))));
        ("scheduler", Scheduler.snapshot (scheduler s))].

(** ** Interleavings *)

(** Calls, continuations, cancellations and the scheduler's own [allowed] actions (its
    callbacks, its port, its other clients) in any order. *)
Inductive step (allowed : Scheduler.action → Prop) (s : state) : state → Prop :=
  | Executes v signal id s' : begin_execute v signal s = Ok (id, s') → step allowed s s'
  | Finishes id r s' : finish_execute id s = Some (r, s') → step allowed s s'
  | Cancels v : step allowed s (cancel v s).2
  | Disposes v : step allowed s (dispose v s).2
  | Schedules a sched : allowed a → Scheduler.perform contract_view a (scheduler s) = Some sched →
      step allowed s (MkState (active s) (operations s) (heap s) sched).
Inductive reachable (allowed : Scheduler.action → Prop) : state → Prop :=
  | reach_new mc mq sched : Scheduler.new_scheduler mc mq = Ok sched → reachable allowed (MkState [] [] [] sched)
  | reach_step s s' : reachable allowed s → step allowed s s' → reachable allowed s'.
End runtime.
