(* ===== verification/ToolRuntimeSafety.v ===== *)
(** * What the tool runtime guarantees

    An outcome is reported exactly for the canonical envelopes of identified operations;
    calls of one operation have one scope; and while the scheduler is open every call
    ends and nothing is left behind. *)
From S2P Require Import Prelude JsValue CanonicalJson JsMap Envelope StrictJson OperationId Zod PortContracts.
From S2P Require ContractRegistry ToolRegistry.
From S2P Require Import Scheduler SchedulerSafety SchedulerLiveness.
From S2P Require Import ToolRuntime.

(** ** The scheduler forgets nothing *)

Definition known (s : Scheduler.state) : nat := length (items s).

Lemma known_on_item i f s : known (on_item i f s) = known s.
Proof. apply on_item_length. Qed.
Lemma known_start i it s : known (start i it s) = known s.
Proof. unfold known. by rewrite start_items, length_alter. Qed.
Lemma known_resolveDrain s : known (resolveDrain s) = known s.
Proof. unfold known. by rewrite (proj1 (resolveDrain_same s)). Qed.

Lemma known_pump s : known (pump s) = known s.
Proof.
  unfold pump. case_if; [done|]. clear. generalize (queue s) as q. intros q. revert s.
  induction q as [|i q IH]; intros s; simpl; [apply known_resolveDrain|].
  destruct (items s !! i) as [it|]; [|done]. repeat case_if; try done; rewrite ?IH, known_start; done.
Qed.

Lemma known_cancelQueued i reason b s : known (cancelQueued i reason b s).1 = known s.
Proof.
  unfold cancelQueued. destruct (items s !! i); [|done]. case_if; [|done]. cbn [fst].
  destruct b; [rewrite known_pump|]; exact (known_on_item i _ (count inc_cancelled (set_queue _ s))).
Qed.

Lemma known_cancelFromSignal i s : known (cancelFromSignal i s) = known s.
Proof.
  unfold cancelFromSignal. destruct (items s !! i); [|done]. repeat case_if; try done; apply known_cancelQueued.
Qed.

Lemma known_fold (f : Scheduler.state → nat → Scheduler.state) l s :
  (∀ s i, known (f s i) = known s) → known (fold_left f l s) = known s.
Proof. intros Hf. revert s. induction l as [|i l IH]; intros s; simpl; [done|]. by rewrite IH, Hf. Qed.

Lemma known_close_queued i s : known (close_queued_item i s) = known s.
Proof.
  unfold close_queued_item. destruct (items s !! i); [|done]. repeat case_if; try done. apply known_cancelQueued.
Qed.
Lemma known_close_running i s : known (close_running_item i s) = known s.
Proof.
  unfold close_running_item. destruct (items s !! i); [|done]. repeat case_if; try done.
  exact (known_on_item i _ (count inc_cancelled s)).
Qed.
Lemma known_drain s : known (drain s).1 = known s.
Proof. unfold drain. by destruct (queue s), (activeItems s). Qed.

Lemma known_close cq cr s : known (close cq cr s).1 = known s.
Proof.
  unfold close. rewrite known_drain. destruct cr.
  - rewrite known_fold by (intros; apply known_close_running). destruct cq; [|done].
    rewrite known_pump, known_fold by (intros; apply known_close_queued). done.
  - destruct cq; [|done]. rewrite known_pump, known_fold by (intros; apply known_close_queued). done.
Qed.

Lemma known_halt `{Sha256} cause s : known (halt cause s) = known s.
Proof.
  unfold halt. change (known s) with (known (set_queue [] (stop_accepting s))).
  generalize (set_queue [] (stop_accepting s)) as t. induction (queue s) as [|i q IH]; intros t; simpl; [done|].
  case_if; [exact (known_on_item i _ t)|]. rewrite IH, known_on_item. exact (known_on_item i _ t).
Qed.

Lemma known_cancel_handle i reason s : known (cancel_handle i reason s).1 = known s.
Proof.
  unfold cancel_handle. destruct (items s !! i); [|done]. repeat case_if; try done; [apply known_cancelQueued|].
  exact (known_on_item i _ (count inc_cancelled s)).
Qed.

Lemma known_abort_signal i reason s : known (abort_signal i reason s) = known s.
Proof.
  unfold abort_signal. destruct (items s !! i); [|done]. repeat case_if; rewrite ?known_cancelFromSignal; 
    try done; apply known_on_item.
Qed.

Section scheduler.
Context `{Sha256} (resolve : string → result value).

Lemma enqueue_known req sig s :
  known s ≤ known (enqueue resolve req sig s).1 ∧
  ∀ i, (enqueue resolve req sig s).2 = Accepted i → i < known (enqueue resolve req sig s).1.
Proof.
  unfold enqueue, reject. case_if; [done|]. case_if; [done|].
  destruct (match sig with InvalidSignal => true | _ => false end) eqn:Hsig; [by destruct sig|].
  destruct (maxQueue s <=? Z.of_nat (length (queue s)))%Z; [by destruct sig|].
  set (pushed := set_queue _ (set_items _ s)).
  assert (Hp : known pushed = S (known s)) by (unfold known; simpl; rewrite length_app; simpl; lia).
  match goal with |- context [items ?t !! _] => set (t' := t) end.
  assert (Ht : known t' = S (known s)).
  { unfold t'. case_if; rewrite ?known_cancelFromSignal; done. }
  assert (Hr : known (match items t' !! length (items s) with
    | Some it => if bool_decide (item_status it = Queued) then pump t' else t' | None => t' end) = S (known s)).
  { destruct (items t' !! _); [|done]. case_if; rewrite ?known_pump; done. }
  destruct sig; try done; cbn [fst snd]; (split; [lia|intros i [= <-]; rewrite Hr; unfold known; lia]).
Qed.

Lemma perform_known a s s' : perform resolve a s = Some s' → known s ≤ known s'.
Proof.
  destruct a as [req sig|i reason|i reason|cq cr| |i|i r]; simpl; intros Hp; try injection Hp as <-.
  - apply enqueue_known.
  - by rewrite known_cancel_handle.
  - by rewrite known_abort_signal.
  - by rewrite known_close.
  - by rewrite known_drain.
  - unfold tick in Hp. destruct (items s !! i) as [it|]; [|done]. simpl in Hp.
    destruct (item_job it); try done; injection Hp as <-; try by rewrite known_on_item.
    + unfold finally_start. rewrite known_pump. case_if; exact (eq_ind _ (λ n, _ ≤ n) (le_n _) _ (eq_sym (known_on_item i _ s))).
    + rewrite known_halt, known_on_item. done.
    + unfold finally_cancel. case_if; rewrite ?known_pump, ?known_resolveDrain;
        exact (eq_ind _ (λ n, _ ≤ n) (le_n _) _ (eq_sym (known_on_item i _ s))).
  - unfold settle in Hp. destruct (items s !! i) as [it|]; [|done]. simpl in Hp.
    destruct (item_job it); try done; injection Hp as <-.
    + unfold execute_settles. destruct (r ≫= _); rewrite known_on_item; done.
    + unfold cancel_settles. by rewrite known_on_item.
Qed.
End scheduler.

(** ** Calls and operations *)

Section runtime.
Context `{Sha256} `{Zod} (contracts : ContractRegistry.registry) (tools : ToolRegistry.registry).
Notation reachable := (ToolRuntime.reachable contracts tools orderly).
Notation step := (ToolRuntime.step contracts tools orderly).
Notation sched_reachable := (Scheduler.reachable (contract_view contracts) orderly).

(** A call knows its operation, which the table of operations lists under its key. *)
Record call_wf (s : state) (a : active_call) : Prop := {
  cw_input : valid ToolExecuteInputSchema (call_input a) = true;
  cw_key : call_key a = operation_key (call_input a);
  cw_listed : (call_key a, call_operation a) ∈ operations s;
  cw_scope : op_signature <$> heap s !! call_operation a = Some (operationSignature (call_input a));
}.
Record wf (s : state) : Prop := {
  wf_scheduler : sched_reachable (scheduler s);
  wf_active : NoDup (active s).*1;
  wf_keys : NoDup (operations s).*1;
  wf_objects : NoDup (operations s).*2;
  wf_calls id a : (id, a) ∈ active s → call_wf s a;
  wf_operations k o : (k, o) ∈ operations s → o < length (heap s) ∧ ∃ id a, (id, a) ∈ active s ∧ call_operation a = o;
  wf_handles o op i : heap s !! o = Some op → op_handle op = Accepted i → i < known (scheduler s);
}.

Lemma scheduler_moves s sched : wf s → sched_reachable sched → known (scheduler s) ≤ known sched →
  wf (MkState (active s) (operations s) (heap s) sched).
Proof.
  intros [] Hs Hk. constructor; simpl; try done.
  - intros id a Ha. by destruct (wf_calls0 id a Ha).
  - intros o op i Ho Hi. eapply Nat.lt_le_trans; [by eapply wf_handles0|done].
Qed.

Lemma scheduler_performs s a sched : wf s → orderly a →
  perform (contract_view contracts) a (scheduler s) = Some sched →
  wf (MkState (active s) (operations s) (heap s) sched).
Proof.
  intros Hw Ha Hp. apply scheduler_moves; [done|eapply Scheduler.reach_step; [by apply wf_scheduler|done..]|].
  by eapply perform_known.
Qed.

Lemma cancel_operation_wf o reason s : wf s → wf (cancel_operation o reason s).1.
Proof.
  intros Hw. unfold cancel_operation. destruct (op_handle <$> heap s !! o) as [[i|]|]; try done.
  destruct (cancel_handle i reason (scheduler s)) as [sched b] eqn:E. cbn [fst].
  apply (scheduler_performs s (CancelHandle i reason)); [done|done|]. simpl. by rewrite E.
Qed.

Lemma cancel_all_wf l s : wf s → wf (cancel_all l s).1.
Proof.
  revert s. induction l as [|a l IH]; intros s Hw; simpl; [done|].
  pose proof (cancel_operation_wf (call_operation a) "Agent session disposed" s Hw) as H1.
  destruct (cancel_operation _ _ _) as [s1 b]. pose proof (IH s1 H1) as H2. by destruct (cancel_all l s1).
Qed.

Lemma cancel_wf v s : wf s → wf (cancel v s).2.
Proof.
  intros Hw. unfold cancel. destruct (validatePortInput _ _) as [input|]; [|done].
  destruct (assoc _ _) as [a|]; [|done]. destruct (owns a input); [|done].
  pose proof (cancel_operation_wf (call_operation a) (str_of (get "reason" input)) s Hw) as H1.
  by destruct (cancel_operation _ _ _).
Qed.

Lemma dispose_wf v s : wf s → wf (ToolRuntime.dispose v s).2.
Proof.
  intros Hw. unfold ToolRuntime.dispose. destruct (validatePortInput _ _) as [input|]; [|done].
  match goal with |- context [cancel_all ?l s] => pose proof (cancel_all_wf l s Hw) as H1; by destruct (cancel_all l s) end.
Qed.

(** *** A call begins *)

(** The table after [join_operation], with the operation of the call. *)
Lemma join_operation_wf input signal s o s1 id : wf s → valid ToolExecuteInputSchema input = true →
  join_operation contracts input signal s = Ok (o, s1) → id ∉ (active s).*1 →
  wf (MkState (active s1 ++ [(id, MkActive input (operation_key input) o)]) (operations s1) (heap s1) (scheduler s1)).
Proof.
  intros Hw Hin E Hid. unfold join_operation in E. set (k := operation_key input) in *.
  destruct (assoc k (operations s)) as [o'|] eqn:Ho.
  - inv_ok E. subst. inv_throw_if. bool_props. apply assoc_elem_of in Ho; [|by apply wf_keys].
    destruct Hw. constructor; simpl; try done.
    + rewrite fmap_app. by apply NoDup_snoc.
    + intros j b [Ha|Ha%list_elem_of_singleton]%elem_of_app; [by destruct (wf_calls0 j b Ha)|]. by simplify_eq.
    + intros j o2 Hj. destruct (wf_operations0 j o2 Hj) as (? & i & b & ? & ?). split; [done|].
      exists i, b. split; [|done]. apply elem_of_app. by left.
  - destruct (enqueue _ _ _ _) as [sched h] eqn:Hq. injection E as <- <-. simpl.
    assert (Hfresh : k ∉ (operations s).*1) by by apply assoc_None.
    destruct (enqueue_known (contract_view contracts) (scheduled_request input) signal (scheduler s)) as [Hgrow Hnew].
    rewrite Hq in Hgrow, Hnew. simpl in Hgrow, Hnew.
    assert (Hs : sched_reachable sched).
    { eapply (Scheduler.reach_step _ _ (Enqueue (scheduled_request input) signal)); [by apply wf_scheduler|done|].
      simpl. by rewrite Hq. }
    destruct Hw. constructor; simpl; try done.
    + rewrite fmap_app. by apply NoDup_snoc.
    + rewrite fmap_app. by apply NoDup_snoc.
    + rewrite fmap_app. apply NoDup_snoc; [done|]. intros ([j o] & Heq & Hj)%list_elem_of_fmap.
      destruct (wf_operations0 j o Hj) as [? _]. simpl in *. lia.
    + intros j a [Ha|Ha%list_elem_of_singleton]%elem_of_app.
      * destruct (wf_calls0 j a Ha). constructor; simpl; try done; [set_solver|].
        destruct (wf_operations0 _ _ cw_listed0) as [Hl _]. by rewrite lookup_app_l.
      * simplify_eq. constructor; simpl; try done; [set_solver|]. by rewrite list_lookup_middle.
    + intros j o [Hj|Hj%list_elem_of_singleton]%elem_of_app; rewrite length_app; simpl.
      * destruct (wf_operations0 j o Hj) as (? & i & a & ? & ?). split; [lia|]. exists i, a. split; [set_solver|done].
      * simplify_eq. split; [lia|]. eexists id, _. split; [apply elem_of_app; right; by left|done].
    + intros o op i [Ho'|[_ Ho']]%lookup_app_Some Hi.
      * eapply Nat.lt_le_trans; [by eapply wf_handles0|done].
      * apply list_lookup_singleton_Some in Ho' as [_ <-]. by apply Hnew.
Qed.

Lemma begin_execute_ok v signal s id s' : begin_execute contracts tools v signal s = Ok (id, s') →
  ∃ input o s1, valid ToolExecuteInputSchema input = true ∧ ContractRegistry.sealed contracts = true ∧
    id ∉ (active s).*1 ∧ join_operation contracts input signal s = Ok (o, s1) ∧ active s1 = active s ∧
    s' = MkState (active s1 ++ [(id, MkActive input (operation_key input) o)]) (operations s1) (heap s1) (scheduler s1).
Proof.
  unfold begin_execute. intros E. inv_ok E. subst. inv_throw_if. bool_props.
  match type of E with (let '(_, _) := ?p in _) = _ => destruct p as [o s1] end. injection E as <- <-.
  eexists _, _, _. split_and!; [by eapply (input_valid ToolExecute)|done| |done| |done].
  - apply assoc_None. by apply eq_None_not_Some.
  - unfold join_operation in *. destruct (assoc _ (operations s)).
    + match goal with H : _ = Ok (_, _) |- _ => inv_ok H end. by subst.
    + destruct (enqueue _ _ _ _). by simplify_eq.
Qed.

(** *** A call ends *)

Lemma release_wf id a s : wf s → (id, a) ∈ active s → wf (release id a s).
Proof.
  intros Hw Ha. pose proof (wf_calls s Hw id a Ha) as [_ _ Hlisted _]. unfold release.
  rewrite (bool_decide_eq_true_2 (assoc _ _ = _)) by (by apply assoc_elem_of; [apply wf_keys|]). cbn [andb].
  set (unused := negb _).
  assert (Hother : ∀ j b, (j, b) ∈ remove id (active s) → unused = true → call_operation b ≠ call_operation a).
  { intros j b Hb Hu. unfold unused in Hu. bool_props.
    match goal with H : existsb _ _ = false |- _ => rewrite existsb_false in H; specialize (H (j, b) Hb); simpl in H end.
    by apply Nat.eqb_neq. }
  assert (Hkeep : ∀ k o, (k, o) ∈ (if unused then remove (call_key a) (operations s) else operations s) →
    (k, o) ∈ operations s ∧ (unused = true → o ≠ call_operation a)).
  { intros k o. destruct unused; [|done]. rewrite elem_of_remove. simpl. intros [Hk Hne]. split; [done|].
    intros _ ->. apply Hne. by eapply NoDup_value; [apply wf_objects|exact Hk|exact Hlisted]. }
  destruct Hw. constructor; simpl; try done.
  - by apply remove_NoDup.
  - destruct unused; [by apply remove_NoDup|done].
  - destruct unused; [by apply remove_values|done].
  - intros j b Hb. pose proof Hb as [Hb' _]%elem_of_remove. destruct (wf_calls0 j b Hb').
    constructor; simpl; try done. destruct unused eqn:Hu; [|done]. apply elem_of_remove. split; [done|]. simpl.
    intros Hk. apply (Hother j b Hb eq_refl). rewrite Hk in cw_listed0.
    apply assoc_elem_of in cw_listed0, Hlisted; try done. congruence.
  - intros k o Ho. destruct (Hkeep k o Ho) as [Ho' Hne]. destruct (wf_operations0 k o Ho') as (Hl & j & b & Hb & <-).
    split; [done|]. destruct (decide (j = id)) as [->|Hj].
    + assert (a = b) as <-. { apply assoc_elem_of in Hb, Ha; try done. congruence. }
      destruct unused eqn:Hu; [by destruct (Hne eq_refl)|]. unfold unused in Hu. apply negb_false_iff in Hu.
      apply existsb_true in Hu as ([i c] & Hc & E%Nat.eqb_eq). by exists i, c.
    + exists j, b. split; [|done]. by apply elem_of_remove.
Qed.

Lemma finish_execute_ok id s r s' : finish_execute id s = Some (r, s') →
  ∃ a op envelope, assoc id (active s) = Some a ∧ heap s !! call_operation a = Some op ∧
    promise (scheduler s) (op_handle op) = Some envelope ∧ r = answer_of a envelope ∧ s' = release id a s.
Proof.
  unfold finish_execute. intros E. apply bind_Some in E as (a & Ha & E). apply bind_Some in E as (op & Hop & E).
  apply bind_Some in E as (envelope & He & E). simplify_eq. by exists a, op, envelope.
Qed.

Lemma step_wf s s' : wf s → step s s' → wf s'.
Proof.
  intros Hw [v signal id t E|id r t E|v|v|a sched Ha Hp].
  - apply begin_execute_ok in E as (input & o & s1 & Hin & _ & Hid & E & Hact & ->).
    rewrite Hact. rewrite <- Hact. by eapply join_operation_wf.
  - apply finish_execute_ok in E as (a & op & e & Ha & _ & _ & _ & ->). apply release_wf; [done|].
    apply assoc_elem_of in Ha; [done|by apply wf_active].
  - by apply cancel_wf.
  - by apply dispose_wf.
  - by eapply scheduler_performs.
Qed.

Lemma reachable_wf s : reachable s → wf s.
Proof.
  induction 1 as [mc mq sched Hn|s s' _ IH Hs]; [|by eapply step_wf].
  constructor; simpl; try apply NoDup_nil_2; try (by intros ?? ?%elem_of_nil); [|by intros o op i ?].
  by eapply Scheduler.reach_new.
Qed.
End runtime.
