(* ===== verification/ToolRuntimeAnswers.v ===== *)
(** * The answers of the tool runtime

    [report] is the outcome an envelope stands for; a call answers with it exactly when
    its envelope is canonical, names its operation by an identifier and carries strict
    JSON.  Then: which calls share an operation, and why every call ends. *)
From S2P Require Import Prelude JsValue CanonicalJson Envelope StrictJson OperationId Zod PortContracts.
From S2P Require ContractRegistry ToolRegistry.
From S2P Require Import Scheduler SchedulerSafety SchedulerLiveness.
From S2P Require Import ToolRuntime ToolRuntimeSafety.

(** ** The outcome of an envelope *)

Definition succeeded (envelope : value) : bool := bool_decide (get "ok" envelope = VBool true).
Definition envelope_status (envelope : value) : string :=
  if succeeded envelope then "succeeded" else status_of_code (str_of (get "code" (get "error" envelope))).
Definition report (input envelope : value) : value :=
  let part := if succeeded envelope then get "data" envelope else get "error" envelope in
  let e := get "error" envelope in
  VObj (("schema_version", CONTRACT_SCHEMA_VERSION) :: ((λ f, (f, get f input)) <$> call_fields) ++
    [("status", VStr (envelope_status envelope)); ("operation_id", get "operation_id" part);
     ("result", if succeeded envelope then get "result" part else VNull);
     ("error", if succeeded envelope then VNull else VObj [("code", get "code" e); ("message", get "message" e);
        ("retryable", get "retryable" e)]);
     ("evidence_refs", get "evidence" envelope); ("warnings", get "warnings" envelope);
     ("replayed", if succeeded envelope then get "replayed" part else VBool false)]).

(** What the result schema asks beyond the canonical envelope. *)
Definition reportable (envelope : value) : bool :=
  if succeeded envelope then valid IdentifierSchema (get "operation_id" (get "data" envelope)) && strict (get "result" (get "data" envelope))
  else valid (ZNullable IdentifierSchema) (get "operation_id" (get "error" envelope)).

(** The objects of an envelope do not list a property twice, as no object does. *)
Record proper_envelope (envelope : value) : Prop := {
  proper_top : NoDup (object_keys envelope);
  proper_data : NoDup (object_keys (get "data" envelope));
  proper_error : NoDup (object_keys (get "error" envelope));
}.

Definition sample_success : value :=
  executionEnvelope true (VObj [("operation_id", VStr "operation-1"); ("result", VObj [("size", VNum (NInt 3))]);
    ("replayed", VBool false)]) VNull ["receipt:1"] [].
Definition sample_input : value :=
  VObj [("schema_version", VNum (NInt 1)); ("invocation_id", VStr "invocation-1"); ("session_id", VStr "session-1");
    ("turn_id", VStr "turn-1"); ("tool_call_id", VStr "call-1"); ("name", VStr "files.read");
    ("input", VObj [("path", VStr "README.md")]);
    ("actor", VObj [("id", VStr "agent-1"); ("type", VStr "agent")]);
    ("resource_scope", VObj [("path", VStr "docs")]); ("idempotency_key", VStr "key-1");
    ("correlation_id", VStr "correlation-1"); ("causation_id", VStr "causation-1"); ("approval_context", VNull)].
Definition sample_call : active_call := MkActive sample_input (operation_key sample_input) 0.

Example sample_answers :
  canonical sample_success && reportable sample_success = true ∧
  valid ToolExecuteInputSchema sample_input = true ∧
  @answer_of documented_zod sample_call sample_success = Ok (report sample_input sample_success).
Proof. vm_compute. done. Qed.

Lemma requireExactKeys_ok v keys label u : requireExactKeys v keys label = Ok u ↔
  is_record v = true ∧ object_keys v ≡ₚ keys.
Proof.
  unfold requireExactKeys. destruct (is_record v); simpl; [|split; [done|by intros []]].
  rewrite throw_if_ok, negb_false_iff, bool_decide_eq_true. split.
  - intros E. split; [done|]. rewrite <- (sort_by_perm String.leb (object_keys v)), <- (sort_by_perm String.leb keys).
    by unfold sort_strings in E; rewrite E.
  - intros [_ E]. by apply sort_strings_perm.
Qed.

Lemma has_keys_perm v keys : sort_strings keys = keys → object_keys v ≡ₚ keys → has_keys v keys = true.
Proof.
  intros Hs E%sort_strings_perm. unfold has_keys, joined_keys. by rewrite E, Hs, String.eqb_refl.
Qed.

Lemma sorted_keys l : bool_decide (sort_strings l = l) = true → sort_strings l = l.
Proof. apply bool_decide_eq_true_1. Qed.

Lemma exact_keys v keys keys' label : is_record v = true → object_keys v ≡ₚ keys' →
  bool_decide (sort_strings keys' = sort_strings keys) = true → requireExactKeys v keys label = Ok ().
Proof.
  intros Hr Hk E%bool_decide_eq_true. unfold requireExactKeys. rewrite Hr. simpl. apply throw_if_ok.
  by rewrite (sort_strings_perm _ _ Hk), E, bool_decide_eq_true_2.
Qed.

Lemma canonical_ok envelope : canonical envelope = true →
  get "ok" envelope = VBool true ∧ valid_success envelope = true ∨
  get "ok" envelope = VBool false ∧ valid_failure envelope = true.
Proof.
  rewrite assert_accepts. intros Hc. bool_props.
  destruct (get "ok" envelope) as [| |[]| | | |]; simpl in *; try done; auto.
Qed.

Lemma has_keys_required v keys : NoDup (object_keys v) → has_keys v keys = true →
  bool_decide (NoDup keys) && negb (bool_decide (keys = [])) = true →
  Forall (λ k, get k v ≠ VUndef) keys → object_keys v ≡ₚ keys.
Proof. intros HN Hh Hk HF. bool_props. by apply has_keys_exact. Qed.

Lemma boolean_cases v : is_boolean v = true → v = VBool true ∨ v = VBool false.
Proof. destruct v as [| |[]| | | |]; simpl; try done; auto. Qed.
Lemma null_value v : is_null v = true → v = VNull.
Proof. by destruct v. Qed.

Lemma strict_defined v : strict v = true → v ≠ VUndef.
Proof. by intros Hv ->. Qed.

(** What the two checks of an outcome share, by cases on its success. *)
Definition success_facts (envelope : value) : Prop :=
  let data := get "data" envelope in
  is_record data = true ∧ nonempty_string (get "operation_id" data) = true ∧
  is_boolean (get "replayed" data) = true ∧ get "error" envelope = VNull.
Definition failure_facts (envelope : value) : Prop :=
  let e := get "error" envelope in
  get "data" envelope = VNull ∧ is_record e = true ∧ nonempty_string (get "code" e) = true ∧
  nonempty_string (get "message" e) = true ∧ is_boolean (get "retryable" e) = true ∧
  (is_null (get "operation_id" e) || nonempty_string (get "operation_id" e)) = true.

Lemma success_outcome envelope : success_facts envelope → get "ok" envelope = VBool true →
  object_keys (get "data" envelope) ≡ₚ data_keys →
  outcome_fields envelope = Ok [("status", VStr "succeeded"); ("operation_id", get "operation_id" (get "data" envelope));
    ("result", get "result" (get "data" envelope)); ("error", VNull); ("replayed", get "replayed" (get "data" envelope))].
Proof.
  intros (Hr & Hid & Hb & He) Hok Hk. unfold outcome_fields. rewrite Hok, bool_decide_eq_true_2 by done.
  rewrite (exact_keys _ _ data_keys) by done. cbn [mbind result_bind]. by rewrite He, Hid, Hb.
Qed.

Lemma failure_outcome envelope : failure_facts envelope → get "ok" envelope = VBool false →
  object_keys (get "error" envelope) ≡ₚ error_keys →
  outcome_fields envelope = Ok [("status", VStr (status_of_code (str_of (get "code" (get "error" envelope)))));
    ("operation_id", get "operation_id" (get "error" envelope)); ("result", VNull);
    ("error", VObj [("code", get "code" (get "error" envelope)); ("message", get "message" (get "error" envelope));
                    ("retryable", get "retryable" (get "error" envelope))]); ("replayed", VBool false)].
Proof.
  intros (Hd & Hr & Hc & Hm & Hb & Hid) Hok Hk. unfold outcome_fields. rewrite Hok, bool_decide_eq_false_2 by done.
  rewrite (exact_keys _ _ error_keys) by done. cbn [mbind result_bind]. by rewrite Hd, Hc, Hm, Hb, Hid.
Qed.

Lemma input_identifiers input f : valid ToolExecuteInputSchema input = true → f ∈ call_fields →
  valid IdentifierSchema (get f input) = true.
Proof.
  intros Hv Hf. eapply valid_field; [exact Hv|]. unfold call_fields in Hf.
  repeat (apply elem_of_cons in Hf as [->|Hf]; [set_solver|]). by apply elem_of_nil in Hf.
Qed.

Lemma unique_parts v : unique_strings v = is_string_array v && negb (has_duplicates (strings_of v)).
Proof. done. Qed.

(** The raw outcome passes the result schema exactly when its operation is identified
    and its result is JSON; the parsed outcome is the same in the order of the schema. *)
Definition raw_fields (status : string) (id result error replayed : value) : list (string * value) :=
  [("status", VStr status); ("operation_id", id); ("result", result); ("error", error); ("replayed", replayed)].
Definition parsed_outcome (input envelope : value) (status : string) (id result error replayed : value) : value :=
  VObj (("schema_version", CONTRACT_SCHEMA_VERSION) :: ((λ f, (f, get f input)) <$> call_fields) ++
    [("status", VStr status); ("operation_id", id); ("result", result); ("error", error);
     ("evidence_refs", get "evidence" envelope); ("warnings", get "warnings" envelope); ("replayed", replayed)]).

Definition parsed_error (error : value) : Prop :=
  error = VNull ∨ ∃ c m r, error = VObj [("code", c); ("message", m); ("retryable", r)].

Section outcome.
Context `{Zod} (input envelope : value) (status : string) (id result error replayed : value).
Context (Hinput : valid ToolExecuteInputSchema input = true).
Context (Hevidence : unique_strings (get "evidence" envelope) = true).
Context (Hwarnings : unique_strings (get "warnings" envelope) = true).
Context (Herror : parsed_error error).
Notation raw := (raw_outcome input envelope (raw_fields status id result error replayed)).
Notation outcome := (parsed_outcome input envelope status id result error replayed).

Lemma parsed_strings l : parsed (ZArray (ZString 0 None any_text)) (VArr l) = VArr l.
Proof. simpl. f_equal. by rewrite list_fmap_id. Qed.

Lemma unique_array v : unique_strings v = true → ∃ l, v = VArr l ∧ valid (ZArray (ZString 0 None any_text)) v = true.
Proof.
  intros [Ha _]%andb_true_iff. destruct v as [| | | | |l|]; try done. exists l. split; [done|]. simpl in *.
  rewrite forallb_true in *. intros x Hx. specialize (Ha x Hx). unfold within, text_size.
  rewrite Ha. simpl. apply andb_true_iff. split; [|done]. apply andb_true_iff. split; [apply Z.leb_le; lia|done].
Qed.

Lemma raw_parsed : parsed (strictObject tool_result_fields) raw = outcome.
Proof.
  destruct (unique_array _ Hevidence) as (e & He & _), (unique_array _ Hwarnings) as (w & Hw & _).
  unfold parsed_outcome, raw_outcome. rewrite He, Hw. destruct Herror as [-> |(c & m & r & ->)];
    cbn -[IdentifierSchema]; rewrite !list_fmap_id; by destruct (is_null id), (is_null result).
Qed.

Lemma raw_shape : valid (strictObject tool_result_fields) raw =
  (status ∈s STATUSES) && valid (ZNullable IdentifierSchema) id && valid (ZNullable ZJson) result &&
  valid (ZNullable ToolExecutionErrorSchema) error && is_boolean replayed.
Proof.
  destruct (unique_array _ Hevidence) as (_ & _ & He), (unique_array _ Hwarnings) as (_ & _ & Hw).
  unfold strictObject. change (valid (ZObject ?l) ?v) with (strict_object ((λ f : string * zschema, (f.1, valid f.2)) <$> l) v).
  unfold strict_object. change (is_record raw) with true. change (forallb _ (object_keys raw)) with true.
  unfold raw_outcome, raw_fields, call_fields, tool_result_fields. cbn -[valid existsb STATUSES].
  rewrite !(input_identifiers input) by (done || set_solver). rewrite He, Hw. 
  change (valid (ZLiteral _) _) with true. change (valid (ZEnum STATUSES) (VStr status)) with (status ∈s STATUSES).
  change (valid ZBoolean replayed) with (is_boolean replayed).
  cbn [andb]. by rewrite !andb_true_r, !andb_assoc.
Qed.
Definition coherent_outcome : bool :=
  if status =s "succeeded" then negb (is_null id) && is_null error
  else is_null result && negb (is_null error) && negb (truthy replayed) &&
       (status =s status_of_code (str_of (get "code" error))).

Lemma outcome_coherent : (status ∈s STATUSES) = true → coherent_status outcome = coherent_outcome.
Proof.
  intros Hs. unfold coherent_status, coherent_outcome, status_of_code.
  rewrite unique_parts in Hevidence, Hwarnings. apply andb_true_iff in Hevidence as [_ He], Hwarnings as [_ Hw].
  apply includes_spec in Hs. unfold STATUSES in Hs.
  cbn -[String.eqb is_null truthy has_duplicates strings_of get existsb]. cbn [get assoc] in He, Hw |- *.
  cbn. rewrite He, Hw, !andb_true_r. clear He Hw Herror.
  generalize (str_of (get "code" error)) as code. intros code.
  destruct (code =s "EXECUTION_CANCELLED") eqn:E1; [apply String.eqb_eq in E1 as ->|];
    [|destruct (code =s "EXECUTION_OUTCOME_IN_DOUBT") eqn:E2].
  all: repeat (apply elem_of_cons in Hs as [->|Hs]; [cbn; destruct (is_null id), (is_null error), (is_null result), (truthy replayed); done|]).
  all: by apply elem_of_nil in Hs.
Qed.

Definition outcome_ok : bool :=
  (status ∈s STATUSES) && valid (ZNullable IdentifierSchema) id && valid (ZNullable ZJson) result &&
  valid (ZNullable ToolExecutionErrorSchema) error && is_boolean replayed && coherent_outcome.

Lemma raw_schema : valid ToolExecutionResultSchema raw = outcome_ok.
Proof.
  change (valid ToolExecutionResultSchema raw) with
    (valid (strictObject tool_result_fields) raw && coherent_status (parsed (strictObject tool_result_fields) raw)).
  rewrite raw_shape, raw_parsed. unfold outcome_ok. destruct (status ∈s STATUSES) eqn:Hs; [|done].
  by rewrite (outcome_coherent Hs).
Qed.

Lemma result_proper : proper_schema ToolExecutionResultSchema = true.
Proof. vm_compute. reflexivity. Qed.

Lemma outcome_parses label : if outcome_ok then parseContract ToolExecutionResultSchema raw label = Ok outcome
  else is_ok (parseContract ToolExecutionResultSchema raw label) = false.
Proof.
  rewrite <- raw_schema. destruct (valid ToolExecutionResultSchema raw) eqn:Hv.
  - apply parseContract_ok. by rewrite <- raw_parsed.
  - by apply parseContract_invalid.
Qed.

(** The port accepts it again, under the names of its call. *)
Lemma outcome_validates : outcome_ok = true → validatePortInput ToolExecute input = Ok input →
  validatePortResult ToolExecute outcome input = Ok outcome.
Proof.
  intros Ho Hi. unfold validatePortResult. rewrite Hi. cbn [mbind result_bind]. rewrite <- raw_schema in Ho.
  pose proof (parsed_valid _ _ result_proper Ho) as Hv. pose proof (parsed_idemp _ raw result_proper) as Hp.
  change (parsed ToolExecutionResultSchema raw) with (parsed (strictObject tool_result_fields) raw) in Hv, Hp.
  rewrite raw_parsed in Hv, Hp. change (result_schema ToolExecute) with ToolExecutionResultSchema.
  rewrite parseContract_valid by done. rewrite Hp. cbn [mbind result_bind].
  unfold correlateResult. erewrite (proj2 (for_each_ok _ _)); [done|].
  repeat constructor; apply throw_if_ok, negb_false_iff, bool_decide_eq_true_2; done.
Qed.
End outcome.

Lemma status_of_code_known code : (status_of_code code ∈s STATUSES) = true ∧ (status_of_code code =s "succeeded") = false.
Proof. unfold status_of_code. repeat case_if; done. Qed.

Lemma some_text v : valid (ZString 1 None any_text) v = nonempty_string v.
Proof.
  destruct v as [| | | |s| |]; try done. simpl. unfold within, text_size, any_text. rewrite !andb_true_r.
  destruct s as [|c s]; [done|]. simpl. apply Z.leb_le. lia.
Qed.

Lemma error_object_schema c m r :
  valid (ZNullable ToolExecutionErrorSchema) (VObj [("code", c); ("message", m); ("retryable", r)]) =
  nonempty_string c && nonempty_string m && is_boolean r.
Proof.
  rewrite <- !some_text. unfold ToolExecutionErrorSchema, strictObject.
  change (valid (ZNullable (ZObject ?l)) (VObj ?o)) with (strict_object ((λ f : string * zschema, (f.1, valid f.2)) <$> l) (VObj o)).
  unfold strict_object. cbn -[valid within]. by rewrite andb_true_r, !andb_assoc.
Qed.

Lemma nullable_json v : valid (ZNullable ZJson) v = strict v.
Proof. by destruct v. Qed.

(** ** What a call answers *)

Definition success_envelope (envelope : value) : Prop :=
  get "ok" envelope = VBool true ∧ success_facts envelope ∧ object_keys (get "data" envelope) ≡ₚ data_keys.
Definition failure_envelope (envelope : value) : Prop :=
  get "ok" envelope = VBool false ∧ failure_facts envelope ∧ object_keys (get "error" envelope) ≡ₚ error_keys.
Record exact_envelope (envelope : value) : Prop := {
  exact_record : is_record envelope = true;
  exact_top : object_keys envelope ≡ₚ envelope_keys;
  exact_version : get "schema_version" envelope = VNum (NInt 1);
  exact_evidence : unique_strings (get "evidence" envelope) = true;
  exact_warnings : unique_strings (get "warnings" envelope) = true;
  exact_outcome : success_envelope envelope ∨ failure_envelope envelope;
}.

Lemma canonical_exact envelope : proper_envelope envelope → canonical envelope = true → reportable envelope = true →
  exact_envelope envelope.
Proof.
  intros [Ht Hd He] Hc Hrep. destruct (canonical_well_formed envelope Ht Hc) as (Hk & _).
  pose proof (canonical_ok envelope Hc) as Hcases. rewrite assert_accepts in Hc. bool_props.
  constructor; try done. unfold reportable, succeeded in Hrep.
  destruct Hcases as [[Hok Hv]|[Hok Hv]]; rewrite Hok in Hrep;
    [rewrite bool_decide_eq_true_2 in Hrep by done|rewrite bool_decide_eq_false_2 in Hrep by done];
    unfold valid_success, valid_failure in Hv; bool_props; [left|right]; split_and!; try done.
  - split_and!; try done. by apply null_value.
  - apply has_keys_required; try done. repeat constructor.
    + by apply (defined_by nonempty_string).
    + by apply (defined_by is_boolean).
    + by apply strict_defined.
  - split_and!; try done. by apply null_value.
  - apply has_keys_required; try done. repeat constructor.
    + by apply (defined_by nonempty_string).
    + by apply (defined_by nonempty_string).
    + by apply (defined_by (λ v, is_null v || nonempty_string v)).
    + by apply (defined_by is_boolean).
Qed.

Lemma exact_canonical envelope : exact_envelope envelope → canonical envelope = true.
Proof.
  intros [Hr Hk Hv He Hw Ho]. rewrite assert_accepts, Hr, Hv, He, Hw, bool_decide_eq_true_2 by done.
  rewrite has_keys_perm by done. cbn [andb].
  destruct Ho as [(Hok & (Hd & Hid & Hb & Hn) & Hx)|(Hok & (Hn & Hd & Hc & Hm & Hb & Hid) & Hx)];
    rewrite Hok; simpl; unfold valid_success, valid_failure.
  - by rewrite Hd, has_keys_perm, Hid, Hb, Hn.
  - by rewrite Hn, Hd, Hc, Hm, Hb, has_keys_perm, Hid.
Qed.

Section answers.
Context `{Zod}.

Lemma exact_normalize input envelope : validatePortInput ToolExecute input = Ok input → exact_envelope envelope →
  if reportable envelope then
    normalizeEnvelope input envelope = Ok (report input envelope) ∧
    validatePortResult ToolExecute (report input envelope) input = Ok (report input envelope)
  else is_ok (normalizeEnvelope input envelope) = false.
Proof.
  intros Hin [Hr Hk Hv He Hw Ho]. pose proof (input_valid ToolExecute _ _ Hin) as Hvalid. unfold normalizeEnvelope.
  rewrite (exact_keys _ _ envelope_keys) by done. cbn [mbind result_bind].
  assert (is_boolean (get "ok" envelope) = true) as -> by (by destruct Ho as [(-> & _)|(-> & _)]).
  rewrite Hv, He, Hw, bool_decide_eq_true_2 by done. cbn [negb orb throw_if mbind result_bind].
  destruct Ho as [(Hok & Hf & Hx)|(Hok & Hf & Hx)].
  - rewrite (success_outcome envelope Hf Hok Hx). destruct Hf as (Hd & Hid & Hb & Hn).
    set (id := get "operation_id" (get "data" envelope)) in *. set (res := get "result" (get "data" envelope)).
    set (rep := get "replayed" (get "data" envelope)) in *.
    assert (Hreport : report input envelope = parsed_outcome input envelope "succeeded" id res VNull rep).
    { unfold report, envelope_status, succeeded. by rewrite Hok, bool_decide_eq_true_2. }
    assert (Hrep : reportable envelope = outcome_ok "succeeded" id res VNull rep).
    { unfold reportable, succeeded, outcome_ok, coherent_outcome. rewrite Hok, bool_decide_eq_true_2, Hb by done.
      fold id res. rewrite nullable_json. change (valid (ZNullable ?s) id) with (is_null id || valid s id).
      by destruct id; cbn -[valid]; rewrite ?andb_true_r. }
    cbn [mbind result_bind]. rewrite Hrep, Hreport.
    pose proof (outcome_parses input envelope "succeeded" id res VNull rep Hvalid He Hw (or_introl eq_refl)) as Hparse.
    specialize (Hparse "tool execution outcome"). destruct (outcome_ok _ _ _ _ _) eqn:E; [|exact Hparse].
    split; [exact Hparse|]. by apply outcome_validates; auto; left.
  - rewrite (failure_outcome envelope Hf Hok Hx). destruct Hf as (Hn & Hd & Hc & Hm & Hb & Hid).
    set (e := get "error" envelope) in *. set (st := status_of_code (str_of (get "code" e))).
    set (eo := VObj [("code", get "code" e); ("message", get "message" e); ("retryable", get "retryable" e)]).
    assert (Hreport : report input envelope = parsed_outcome input envelope st (get "operation_id" e) VNull eo (VBool false)).
    { unfold report, envelope_status, succeeded. by rewrite Hok, bool_decide_eq_false_2. }
    destruct (status_of_code_known (str_of (get "code" e))) as [Hs1 Hs2]. fold st in Hs1, Hs2.
    assert (Hrep : reportable envelope = outcome_ok st (get "operation_id" e) VNull eo (VBool false)).
    { unfold reportable, succeeded, outcome_ok, coherent_outcome. rewrite Hok, bool_decide_eq_false_2, Hs1, Hs2 by done.
      unfold eo. rewrite error_object_schema, nullable_json, Hc, Hm, Hb.
      change (status_of_code (str_of (get "code" (VObj _)))) with st. fold e. rewrite String.eqb_refl.
      cbn -[valid get]. by rewrite !andb_true_r. }
    assert (Heo : parsed_error eo) by (right; by do 3 eexists).
    cbn [mbind result_bind]. rewrite Hrep, Hreport.
    pose proof (outcome_parses input envelope st (get "operation_id" e) VNull eo (VBool false) Hvalid He Hw Heo) as Hparse.
    specialize (Hparse "tool execution outcome"). destruct (outcome_ok _ _ _ _ _) eqn:E; [|exact Hparse].
    split; [exact Hparse|]. by apply outcome_validates.
Qed.

Lemma same_keys k l : bool_decide (sort_strings k = sort_strings l) = true → k ≡ₚ l.
Proof.
  intros E%bool_decide_eq_true. rewrite <- (sort_by_perm String.leb k), <- (sort_by_perm String.leb l).
  unfold sort_strings in E. by rewrite E.
Qed.

Lemma outcome_exact envelope l : is_boolean (get "ok" envelope) = true → outcome_fields envelope = Ok l →
  success_envelope envelope ∨ failure_envelope envelope.
Proof.
  intros Hb E. unfold outcome_fields in E.
  destruct (boolean_cases _ Hb) as [Hok|Hok]; rewrite Hok in E; [left|right];
    [rewrite bool_decide_eq_true_2 in E by done|rewrite bool_decide_eq_false_2 in E by done];
    inv_ok E; clear E;
    match goal with H : requireExactKeys _ _ _ = Ok _ |- _ => apply requireExactKeys_ok in H as [Hr Hk] end;
    inv_throw_if; bool_props; split_and!; try done.
  - split_and!; try done. by apply null_value.
  - rewrite Hk. by apply same_keys.
  - split_and!; try done. by apply null_value.
Qed.

Lemma normalize_exact input envelope r : normalizeEnvelope input envelope = Ok r → exact_envelope envelope.
Proof.
  unfold normalizeEnvelope. intros E. inv_ok E. clear E.
  match goal with H : requireExactKeys envelope _ _ = Ok _ |- _ => apply requireExactKeys_ok in H as [Hr Hk] end.
  inv_throw_if. bool_props. constructor; try done.
  - rewrite Hk. by apply same_keys.
  - by eapply outcome_exact.
Qed.

(** C29: a call answers with the outcome its envelope stands for, under the names of the
    call, exactly when the envelope is canonical, its operation is named by an identifier
    (or unknown, in a failure) and its result is strict JSON; any other envelope is an error. *)
Theorem answers_report v a envelope :
  validatePortInput ToolExecute v = Ok (call_input a) → proper_envelope envelope →
  if canonical envelope && reportable envelope then answer_of a envelope = Ok (report (call_input a) envelope)
  else is_ok (answer_of a envelope) = false.
Proof.
  intros Hin%input_again Hp. unfold answer_of. case_if.
  - bool_props. pose proof (exact_normalize (call_input a) envelope Hin) as Hx.
    match goal with H : reportable envelope = true |- _ => rewrite H in Hx end.
    destruct Hx as [-> Hx]; [by apply canonical_exact|]. exact Hx.
  - destruct (normalizeEnvelope (call_input a) envelope) as [r|] eqn:E; [|done]. exfalso.
    pose proof (normalize_exact _ _ _ E) as Hx. pose proof (exact_normalize (call_input a) envelope Hin Hx) as Hr.
    rewrite (exact_canonical envelope Hx) in *. simpl in *. destruct (reportable envelope); [done|]. by rewrite E in Hr.
Qed.
End answers.

Lemma answers_report_witness :
  @answer_of documented_zod sample_call sample_success = Ok (report sample_input sample_success).
Proof.
  apply (@answers_report documented_zod sample_input sample_call sample_success).
  - vm_compute. reflexivity.
  - constructor; apply (bool_decide_unpack _); vm_compute; exact I.
Defined.
