(* ===== verification/ToolRuntimeCalls.v ===== *)
(** * The calls of the tool runtime

    Active calls share an operation exactly when they name the same tool and idempotency
    key; and without new calls or cancellations every call ends, leaving nothing. *)
From S2P Require Import Prelude JsValue CanonicalJson JsMap Envelope StrictJson OperationId Zod PortContracts.
From S2P Require ContractRegistry ToolRegistry.
From S2P Require Import Scheduler SchedulerSafety SchedulerLiveness.
From S2P Require Import ToolRuntime ToolRuntimeSafety.

(** ** Keys *)

Definition plain_char (c : ascii) : bool := negb (Ascii.eqb c "000").

Lemma identifier_no_nul s : identifier s = true → all_chars plain_char s = true.
Proof.
  destruct s as [|c s]; [done|]. intros Hs. simpl in Hs. bool_props.
  assert (Hc : ∀ c, identifier_char c = true → plain_char c = true).
  { intros d. unfold plain_char. destruct (Ascii.eqb d "000") eqn:E; [|done].
    apply Ascii.eqb_eq in E as ->. vm_compute. done. }
  simpl. apply andb_true_iff. split; [apply Hc; unfold identifier_char; by apply orb_true_intro; left|].
  by eapply all_chars_impl.
Qed.

Lemma identifier_value v : valid IdentifierSchema v = true →
  v = VStr (str_of v) ∧ all_chars plain_char (str_of v) = true.
Proof. intros Hv. simpl in Hv. bool_props. split; [by destruct v|by apply identifier_no_nul]. Qed.

Lemma separated_inj s t s' t' : all_chars plain_char s = true → all_chars plain_char s' = true →
  s +:+ NUL +:+ t = s' +:+ NUL +:+ t' → s = s' ∧ t = t'.
Proof.
  assert (Hnul : ∀ x, "" +:+ NUL +:+ x = String "000" x) by done.
  revert s'. induction s as [|c s IH]; intros [|c' s'] Hs Hs' E; rewrite ?Hnul, ?app_String in E.
  - by injection E.
  - injection E as <- _. by simpl in Hs'.
  - injection E as -> _. by simpl in Hs.
  - simpl in *. bool_props. injection E as -> E. by destruct (IH s') as [-> ->].
Qed.

Lemma call_identifiers input : valid ToolExecuteInputSchema input = true →
  all_chars plain_char (str_of (get "name" input)) = true ∧
  get "name" input = VStr (str_of (get "name" input)) ∧
  get "idempotency_key" input = VStr (str_of (get "idempotency_key" input)).
Proof.
  intros Hv. destruct (identifier_value (get "name" input)) as [Hn ?]; [eapply valid_field; [exact Hv|set_solver]|].
  destruct (identifier_value (get "idempotency_key" input)) as [Hi ?]; [eapply valid_field; [exact Hv|set_solver]|].
  by split_and!.
Qed.

Definition same_request (a b : active_call) : Prop :=
  get "name" (call_input a) = get "name" (call_input b) ∧
  get "idempotency_key" (call_input a) = get "idempotency_key" (call_input b).
Definition same_scope (a b : active_call) : Prop := json_eq (scope_of (call_input a)) (scope_of (call_input b)).

Section calls.
Context `{Sha256} `{Zod} (contracts : ContractRegistry.registry) (tools : ToolRegistry.registry).
Notation reachable := (ToolRuntime.reachable contracts tools orderly).
Notation wf := (ToolRuntimeSafety.wf contracts).

Lemma same_operation_key s i a j b : wf s → (i, a) ∈ active s → (j, b) ∈ active s →
  call_operation a = call_operation b ↔ call_key a = call_key b.
Proof.
  intros Hw [_ _ Ha _]%(wf_calls _ _ Hw) [_ _ Hb _]%(wf_calls _ _ Hw). split; intros E; rewrite E in Ha.
  - by eapply NoDup_value; [eapply wf_objects|..].
  - apply assoc_elem_of in Ha, Hb; try by eapply wf_keys. congruence.
Qed.

Lemma same_request_key s i a j b : wf s → (i, a) ∈ active s → (j, b) ∈ active s →
  same_request a b ↔ call_key a = call_key b.
Proof.
  intros Hw [Ha Hka _ _]%(wf_calls _ _ Hw) [Hb Hkb _ _]%(wf_calls _ _ Hw). rewrite Hka, Hkb.
  unfold same_request, operation_key. split; [by intros [-> ->]|].
  destruct (call_identifiers _ Ha) as (Hca & Hna & Hia), (call_identifiers _ Hb) as (Hcb & Hnb & Hib).
  intros [E1 E2]%separated_inj; [|done..]. split; [by rewrite Hna, Hnb, E1|by rewrite Hia, Hib, E2].
Qed.

(** C19: calls that are active together share one scheduled operation exactly when they
    name the same tool and idempotency key, and then their scopes (input, session, actor,
    resources, causes and approval) have the same signature: a key in use is never reused for
    a request that signs otherwise.  Scopes made of plain values, without [undefined],
    decimals, negative zero or integers beyond the safe range, are then equal up to the
    order of keys; others may share a signature and differ, as [0] and [-0] do. *)
Theorem calls_share_operations s i a j b :
  reachable s → (i, a) ∈ active s → (j, b) ∈ active s →
  (call_operation a = call_operation b ↔ same_request a b) ∧
  (same_request a b → operationSignature (call_input a) = operationSignature (call_input b)) ∧
  (same_request a b → plain (scope_of (call_input a)) = true → plain (scope_of (call_input b)) = true → same_scope a b).
Proof.
  intros Hw%reachable_wf Ha Hb. rewrite (same_operation_key s i a j b), (same_request_key s i a j b) by done.
  assert (Hsig : call_key a = call_key b → operationSignature (call_input a) = operationSignature (call_input b)).
  { intros Hk. apply (same_operation_key s i a j b) in Hk; [|done..].
    destruct (wf_calls _ _ Hw i a Ha) as [_ _ _ Hsa], (wf_calls _ _ Hw j b Hb) as [_ _ _ Hsb].
    rewrite Hk in Hsa. rewrite Hsa in Hsb. exact (inj Some _ _ Hsb). }
  split_and!; [done|exact Hsig|]. intros Hk Hpa Hpb. by apply (stable_json_iff _ _ Hpa Hpb), Hsig.
Qed.

(** ** Every call ends *)

(** Callbacks, answers of the port and continuations of calls. *)
Inductive settles (s : state) : state → Prop :=
  | Settles_call id r s' : finish_execute id s = Some (r, s') → settles s s'
  | Settles_job a sched : background a → perform (contract_view contracts) a (scheduler s) = Some sched →
      settles s (MkState (active s) (operations s) (heap s) sched).

Definition pending (s : state) : nat := work (scheduler s) + length (active s).

Lemma settles_step s s' : settles s s' → ToolRuntime.step contracts tools orderly s s'.
Proof. intros [id r t E|a sched [_ Ho] Hp]; [by eapply Finishes|by eapply Schedules]. Qed.

Lemma settles_pending s s' : wf s → settles s s' → pending s' < pending s.
Proof.
  intros Hw [id r t E|a sched [Hi Ho] Hp]; unfold pending.
  - apply finish_execute_ok in E as (a & op & e & Ha & _ & _ & _ & ->). simpl.
    apply assoc_elem_of in Ha; [|by eapply wf_active]. pose proof (length_remove id (active s) a Ha). lia.
  - simpl. pose proof (reachable_stable _ _ _ (wf_scheduler _ _ Hw)) as Hs.
    pose proof (internal_step _ _ _ _ (stable_wf _ Hs) Hi Hp). lia.
Qed.

Lemma settles_open s s' : wf s → settles s s' → open_or_empty (scheduler s) → open_or_empty (scheduler s').
Proof.
  intros Hw [id r t E|a sched [Hi Ho] Hp] Hopen.
  - by apply finish_execute_ok in E as (a & op & e & _ & _ & _ & _ & ->).
  - simpl. pose proof (reachable_stable _ _ _ (wf_scheduler _ _ Hw)) as Hs.
    by eapply internal_open; [apply stable_wf| | |].
Qed.

Lemma settled_quiet s : (∀ s', ¬ settles s s') → quiet (scheduler s).
Proof.
  intros Hn i r. split.
  - destruct (tick i (scheduler s)) as [sched|] eqn:E; [|done]. exfalso.
    eapply Hn, (Settles_job _ (Tick i)); [by split|exact E].
  - assert (settle i (Ok VNull) (scheduler s) = None) as Hok.
    { destruct (settle i (Ok VNull) (scheduler s)) as [sched|] eqn:E; [|done]. exfalso.
      eapply Hn, (Settles_job _ (Settle i (Ok VNull))); [by split|exact E]. }
    revert Hok. unfold settle. destruct (items (scheduler s) !! i) as [it|]; [|done]. simpl.
    by destruct (item_job it).
Qed.

Lemma settled_ended s : wf s → open_or_empty (scheduler s) → (∀ s', ¬ settles s s') →
  active s = [] ∧ operations s = [].
Proof.
  intros Hw Hopen Hn.
  assert (Hact : active s = []).
  { destruct (active s) as [|[id a] l] eqn:Hl; [done|]. exfalso.
    assert (Ha : (id, a) ∈ active s) by (rewrite Hl; by left).
    destruct (wf_calls _ _ Hw id a Ha) as [_ _ _ Hop].
    destruct (heap s !! call_operation a) as [op|] eqn:Ho; [|done]. clear Hop.
    assert (∃ e, promise (scheduler s) (op_handle op) = Some e) as [e He].
    { unfold promise. destruct (op_handle op) as [k|e] eqn:Hh; [|by exists e].
      pose proof (wf_handles _ _ Hw _ _ _ Ho Hh) as Hk. apply lookup_lt_is_Some_2 in Hk as [it Hit].
      destruct (quiet_answered (scheduler s)) as (_ & _ & _ & Hall); [| |done|by apply settled_quiet|].
      - by eapply reachable_stable, wf_scheduler.
      - by eapply reachable_accounted, wf_scheduler.
      - destruct (Hall k it Hit) as (_ & v & Hv & _). exists v. by rewrite Hit; simpl; rewrite Hv. }
    eapply Hn, (Settles_call s id). unfold finish_execute.
    apply assoc_elem_of in Ha; [|by eapply wf_active]. rewrite Ha. simpl. rewrite Ho. simpl. rewrite He. done. }
  split; [done|]. destruct (operations s) as [|[k o] l] eqn:Hl; [done|]. exfalso.
  destruct (wf_operations _ _ Hw k o) as (_ & id & a & Ha & _); [rewrite Hl; by left|].
  rewrite Hact in Ha. by apply elem_of_nil in Ha.
Qed.

(** C18: while the scheduler is open, the callbacks, the answers of the port and the
    continuations of calls are bounded by the work pending, in any order; when none is
    left, every call has ended and no operation is kept. *)
Theorem calls_end n s s' :
  reachable s → open_or_empty (scheduler s) → nsteps settles n s s' →
  n ≤ pending s ∧ ((∀ s'', ¬ settles s' s'') → active s' = [] ∧ operations s' = []).
Proof.
  intros Hw%reachable_wf Hopen Hrun. revert Hw Hopen. induction Hrun as [s|n s s1 s' Hs _ IH]; intros Hw Hopen.
  - split; [lia|]. by apply settled_ended.
  - destruct IH as [Hle Hend]; [by eapply step_wf, settles_step|by eapply settles_open|].
    split; [|done]. pose proof (settles_pending s s1 Hw Hs). lia.
Qed.
End calls.
