(* ===== verification/ToolRuntimeExamples.v ===== *)
(** * The tool runtime, run

    One tool, two calls of the same request and a third that reuses its key: the theorems
    of the tool runtime at the states of this history. *)
From S2P Require Import Prelude JsValue CanonicalJson Envelope StrictJson OperationId Zod PortContracts.
From S2P Require ContractRegistry ToolRegistry.
From S2P Require Import Scheduler SchedulerSafety SchedulerLiveness.
From S2P Require Import ToolRuntime ToolRuntimeSafety ToolRuntimeAnswers ToolRuntimeCalls.

#[local] Existing Instance sample_sha256.
#[local] Existing Instance documented_zod.

Definition sample_definition : value :=
  VObj [("name", VStr "files.list"); ("description", VStr "Lists a directory"); ("input_schema", VObj []);
        ("governance_ref", VStr "governance://tool/files.list")].

Definition with_tool : result (ContractRegistry.registry * ToolRegistry.registry) :=
  '(_, contracts) ← ContractRegistry.register (ContractRegistry.sample_tool "files.list") ContractRegistry.new_registry;
  '(_, tools) ← ToolRegistry.register contracts sample_definition ToolRegistry.new_registry;
  Ok (ContractRegistry.seal contracts, ToolRegistry.seal tools).
Definition sample_contracts : ContractRegistry.registry :=
  match with_tool with Ok (contracts, _) => contracts | Throw _ => ContractRegistry.new_registry end.
Definition sample_tools : ToolRegistry.registry :=
  match with_tool with Ok (_, tools) => tools | Throw _ => ToolRegistry.new_registry end.

Lemma sample_tools_built : ToolRegistry.built sample_contracts sample_tools.
Proof.
  unfold sample_contracts, sample_tools. destruct with_tool as [[c t]|] eqn:E; [|constructor].
  unfold with_tool in E.
  destruct (ContractRegistry.register _ _) as [[x c1]|] eqn:Hc; [|done]. cbn [mbind result_bind] in E.
  destruct (ToolRegistry.register _ _ _) as [[y t1]|] eqn:Ht; [|done]. cbn [mbind result_bind] in E. injection E as <- <-.
  apply ToolRegistry.built_seal, ToolRegistry.built_seal_contracts.
  eapply ToolRegistry.built_tool; [|exact Ht]. eapply ToolRegistry.built_contract; [|exact Hc]. constructor.
Qed.

Lemma visible_tools_are_governed_witness :
  ToolRegistry.list_tools sample_tools = [sample_definition] ∧
  ∃ c, ToolRegistry.resolve sample_contracts sample_tools "files.list" = Ok (c, sample_definition).
Proof.
  assert (Hl : ToolRegistry.list_tools sample_tools = [sample_definition]) by (vm_compute; reflexivity).
  split; [exact Hl|].
  destruct (ToolRegistry.visible_tools_are_governed _ _ sample_tools_built) as (_ & _ & Hv).
  destruct (proj1 (Hv sample_definition)) as (c & Hc & _); [rewrite Hl; constructor|]. exists c. exact Hc.
Defined.

(** A call of the tool with a key. *)
Definition call_of (invocation key path : string) : value :=
  VObj [("schema_version", VNum (NInt 1)); ("invocation_id", VStr invocation); ("session_id", VStr "session-1");
    ("turn_id", VStr "turn-1"); ("tool_call_id", VStr "call-1"); ("name", VStr "files.list");
    ("input", VObj [("path", VStr path)]); ("actor", VObj [("type", VStr "agent"); ("id", VStr "agent-1")]);
    ("resource_scope", VObj [("path", VStr "docs")]); ("idempotency_key", VStr key);
    ("correlation_id", VStr "correlation-1"); ("causation_id", VStr "causation-1"); ("approval_context", VNull)].

Definition no_calls : state :=
  MkState [] [] [] (Scheduler.MkState 2 8 [] [] [] 0 false true [] [] (MkMetrics 0 0 0 0 0 0) []).
Definition begin (invocation key path : string) (s : state) : result state :=
  '(_, s) ← begin_execute sample_contracts sample_tools (call_of invocation key path) NoSignal s; Ok s.
Definition two_calls : state :=
  match (s ← begin "invocation-1" "key-1" "docs" no_calls; begin "invocation-2" "key-1" "docs" s) with
  | Ok s => s | Throw _ => no_calls end.

(** The key is refused for another input while it is in use. *)
Example key_in_use :
  code_of (begin "invocation-3" "key-1" "src" two_calls) = Some "TOOL_RUNTIME_OPERATION_ACTIVE" ∧
  code_of (begin "invocation-2" "key-2" "src" two_calls) = Some "TOOL_RUNTIME_INVOCATION_ACTIVE" ∧
  (length (active two_calls), length (operations two_calls)) = (2%nat, 1%nat).
Proof. vm_compute. done. Qed.

Lemma no_calls_reachable : ToolRuntime.reachable sample_contracts sample_tools orderly no_calls.
Proof. by apply (ToolRuntime.reach_new _ _ _ (VNum (NInt 2)) (VNum (NInt 8))). Qed.

Lemma begin_reachable invocation key path s s' :
  ToolRuntime.reachable sample_contracts sample_tools orderly s → begin invocation key path s = Ok s' →
  ToolRuntime.reachable sample_contracts sample_tools orderly s'.
Proof.
  intros Hs E. unfold begin in E. destruct (begin_execute _ _ _ _ s) as [[id t]|] eqn:Hb; [|done].
  injection E as <-. eapply ToolRuntime.reach_step; [exact Hs|by eapply Executes].
Qed.

Lemma two_calls_reachable : ToolRuntime.reachable sample_contracts sample_tools orderly two_calls.
Proof.
  unfold two_calls. destruct (begin "invocation-1" "key-1" "docs" no_calls) as [s|] eqn:E1; cbn [mbind result_bind].
  - destruct (begin "invocation-2" "key-1" "docs" s) as [s'|] eqn:E2; [|apply no_calls_reachable].
    eapply begin_reachable; [|exact E2]. eapply begin_reachable; [apply no_calls_reachable|exact E1].
  - apply no_calls_reachable.
Qed.

Definition sample_active (id : string) : active_call := default sample_call (assoc id (active two_calls)).

Lemma calls_share_operations_witness :
  call_operation (sample_active "invocation-1") = call_operation (sample_active "invocation-2") ∧
  operationSignature (call_input (sample_active "invocation-1")) = operationSignature (call_input (sample_active "invocation-2")) ∧
  same_scope (sample_active "invocation-1") (sample_active "invocation-2").
Proof.
  destruct (calls_share_operations sample_contracts sample_tools two_calls
    "invocation-1" (sample_active "invocation-1") "invocation-2" (sample_active "invocation-2")) as (Ho & Hg & Hs).
  - apply two_calls_reachable.
  - apply list_elem_of_lookup. exists 0%nat. vm_compute. reflexivity.
  - apply list_elem_of_lookup. exists 1%nat. vm_compute. reflexivity.
  - assert (Hr : same_request (sample_active "invocation-1") (sample_active "invocation-2"))
      by (split; vm_compute; reflexivity).
    split; [apply Ho, Hr|]. split; [apply Hg, Hr|]. apply Hs; [exact Hr|vm_compute; reflexivity..].
Defined.

(** Outside of plain values a signature says less: negative zero signs as zero. *)
Example negative_zero_signs_as_zero :
  stable_json (VObj [("x", VNum NNegZero)]) = stable_json (VObj [("x", VNum (NInt 0))]) ∧
  plain (VObj [("x", VNum NNegZero)]) = false.
Proof. vm_compute. done. Qed.

(** The scheduler answers the operation, then both calls continue. *)
Definition settling : list (Scheduler.action + string) :=
  [inl (Tick 0); inl (Settle 0 (Ok sample_success)); inl (Tick 0); inr "invocation-2"; inl (Tick 0); inr "invocation-1"].
Definition settle_once (a : Scheduler.action + string) (s : state) : option state :=
  match a with
  | inl a => sched ← perform (contract_view sample_contracts) a (scheduler s);
      Some (MkState (active s) (operations s) (heap s) sched)
  | inr id => snd <$> finish_execute id s
  end.
Fixpoint settle_all (l : list (Scheduler.action + string)) (s : state) : option state :=
  match l with [] => Some s | a :: l => s ← settle_once a s; settle_all l s end.
Definition ended : state := default no_calls (settle_all settling two_calls).

Lemma settle_all_run l s s' : Forall (λ a, match a with inl a => background a | inr _ => True end) l →
  settle_all l s = Some s' → nsteps (settles sample_contracts) (length l) s s'.
Proof.
  intros Hl. revert s. induction Hl as [|a l Ha _ IH]; intros s E; simpl in *; [simplify_eq; constructor|].
  destruct (settle_once a s) as [t|] eqn:Ht; [|done]. eapply nsteps_l; [|by apply IH].
  destruct a as [a|id]; simpl in Ht.
  - destruct (perform _ a (scheduler s)) as [sched|] eqn:Hp; [|done]. injection Ht as <-. by eapply Settles_job.
  - destruct (finish_execute id s) as [[r t']|] eqn:Hf; [|done]. injection Ht as <-. by eapply Settles_call.
Qed.

Lemma idle_settled s s' : active s = [] → item_job <$> items (scheduler s) = [Idle] → ¬ settles sample_contracts s s'.
Proof.
  intros Ha Hq [id r t E|a sched [Hi _] Hp].
  - unfold finish_execute in E. by rewrite Ha in E.
  - assert (Hj : ∀ i it, items (scheduler s) !! i = Some it → item_job it = Idle).
    { intros i it Hit. assert (Hl : (item_job <$> items (scheduler s)) !! i = Some (item_job it)) by
        (by rewrite list_lookup_fmap, Hit). rewrite Hq in Hl. by apply list_lookup_singleton_Some in Hl as [_ <-]. }
    destruct a as [| | | | |i|i r]; try done; simpl in Hp; unfold tick, settle in Hp;
      destruct (items (scheduler s) !! i) as [it|] eqn:Hit; try done; simpl in Hp; by rewrite (Hj i it Hit) in Hp.
Qed.

Lemma ended_settled s : ¬ settles sample_contracts ended s.
Proof. apply idle_settled; vm_compute; reflexivity. Qed.

Lemma settling_background : Forall (λ a, match a with inl a => background a | inr _ => True end) settling.
Proof. unfold settling. repeat constructor. Qed.

Lemma calls_end_witness :
  length settling ≤ pending two_calls ∧ active ended = [] ∧ operations ended = [] ∧ length (active two_calls) = 2%nat.
Proof.
  destruct (calls_end sample_contracts sample_tools (length settling) two_calls ended) as [Hn He].
  - apply two_calls_reachable.
  - left. vm_compute. reflexivity.
  - apply settle_all_run; [exact settling_background|vm_compute; reflexivity].
  - destruct (He ended_settled) as [Ha Ho]. split; [exact Hn|]. split; [exact Ha|]. split; [exact Ho|].
    vm_compute. reflexivity.
Defined.
