(* ===== verification/MemoryPolicy.v ===== *)
(** * The policy of agent memory (packages/agent-memory/policy.js)

    What may be remembered, by whom and for how long: the normal form of an entry, the
    decision on a write (by the permission lattice), the operations that approvals are
    bound to, and the shape of a promoted entry.

    [date_parse] is [Date.parse] of a text, [scan] the credential scanner of the host,
    [locale_le] is [localeCompare]. *)
From S2P Require Import Prelude JsValue CanonicalJson StrictJson Time OperationId.
From S2P Require PolicyLattice.
Import (hints) PolicyLattice.

Definition CONTRACT : string := "agent-memory.v1".
Definition AUTHORITY : string := "data".
Definition MAX_CONTENT_BYTES : nat := 8192.
Definition MAX_TTL_SECONDS : Z := (90 * 86400)%Z.
Definition CLASSIFICATIONS : list string := ["public"; "internal"].
Definition TRUSTS : list string := ["trusted"; "untrusted"].
Definition ORIGINS : list string :=
  ["operator"; "agent"; "tool"; "plugin"; "lsp"; "dap"; "browser"; "display"; "mcp"].
Definition UNTRUSTED_ORIGINS : list string := List.filter (λ o, negb (o =s "operator")) ORIGINS.
Definition ACTOR_KINDS : list string := ["host"; "operator"; "agent"].
Definition MAX_REASON_BYTES : nat := 256.
Definition ENTRY_INPUT_FIELDS : list string :=
  ["memory_id"; "scope"; "content"; "authority"; "origin"; "trust"; "classification"; "source_ref"; "source_digest";
   "ttl_seconds"; "supersedes"].
Definition DELETE_OPERATION : string := "memory.delete".
Definition PROMOTE_OPERATION : string := "memory.promote".
Definition PROMOTE_POLICY_REF : string := "operator:promote".
Definition PROMOTED_SUFFIX : string := ":promoted".

(** [/^[a-z0-9][a-z0-9._:-]{0,159}$/] *)
Definition identifier_char (c : ascii) : bool :=
  lower_letter c || digit c || existsb (Ascii.eqb c) ["."%char; "_"%char; ":"%char; "-"%char].
Definition IDENTIFIER (s : string) : bool :=
  match s with
  | String c rest => (lower_letter c || digit c) && all_chars identifier_char rest && (String.length rest <=? 159)%nat
  | EmptyString => false
  end.
(** [/^[0-9a-f]{64}$/] *)
Definition SHA256_HEX (s : string) : bool := (String.length s =? 64)%nat && all_chars lower_hex s.
(** A character of [\s]. *)
Definition space (c : ascii) : bool :=
  let n := Ascii.N_of_ascii c in ((9 <=? n)%N && (n <=? 13)%N) || (n =? 32)%N || (n =? 160)%N.
(** [/^[^\s\u0000-\u001F\u007F]{1,1024}$/u] *)
Definition reference_char (c : ascii) : bool :=
  let n := Ascii.N_of_ascii c in negb (space c) && negb (n <=? 31)%N && negb (n =? 127)%N.
Definition SAFE_REFERENCE (s : string) : bool :=
  (1 <=? String.length s)%nat && (String.length s <=? 1024)%nat && all_chars reference_char s.
(** [s.trim().length === 0] *)
Definition blank (s : string) : bool := all_chars space s.

Definition AgentMemoryError (message code : string) (details : list (string * value)) : value :=
  error_with "AgentMemoryError" message code (VObj details).
Definition invalid (message field : string) : value :=
  AgentMemoryError message "AGENT_MEMORY_INVALID" [("field", VStr field)].
Definition one_of (set : list string) (v : value) : bool := is_string v && (str_of v ∈s set).

Definition requireIdentifier (v : value) (field : string) : result unit :=
  throw_if (negb (is_string v && IDENTIFIER (str_of v))) (invalid (field +:+ " must be a lowercase identifier") field).

Definition assertEntryInputFields (v : value) : result unit :=
  _ ← throw_if (negb (is_record v)) (invalid "memory entry must be an object" "entry");
  match List.filter (λ f, negb (f ∈s ENTRY_INPUT_FIELDS)) (object_keys v) with
  | field :: _ => Throw (invalid "the entry carries host-owned or unknown fields" field)
  | [] => Ok ()
  end.

(** ** Credentials *)

(** The scanner of the host, if it is a function. *)
Definition scanner : Type := option (string → bool).
Definition detected (message field : string) : value :=
  AgentMemoryError message "AGENT_MEMORY_CREDENTIAL_DETECTED" [("field", VStr field)].
Definition scanner_required : value :=
  AgentMemoryError "a credential scanner is required to write memory" "AGENT_MEMORY_SCANNER_REQUIRED" [].

Definition normalizeActor (actor : value) (scan : scanner) : result value :=
  _ ← throw_if (negb (is_record actor) || negb (one_of ACTOR_KINDS (get "kind" actor)))
        (invalid "actor.kind is not allowed" "actor");
  _ ← requireIdentifier (get "id" actor) "actor.id";
  _ ← throw_if (match scan with Some f => f (str_of (get "id" actor)) | None => false end)
        (detected "actor contains a credential pattern" "actor");
  Ok (VObj [("kind", get "kind" actor); ("id", get "id" actor)]).

Definition normalizeReason (reason : value) (scan : scanner) : result value :=
  _ ← throw_if (negb (is_string reason) || blank (str_of reason) || (MAX_REASON_BYTES <? String.length (str_of reason))%nat)
        (invalid "reason must be a short non-empty string" "reason");
  match scan with
  | None => Throw scanner_required
  | Some f =>
      _ ← throw_if (f (str_of reason)) (detected "reason contains a credential pattern" "reason"); Ok reason
  end.

Definition assertNoCredential (entry : value) (scan : scanner) : result unit :=
  match scan with
  | None => Throw scanner_required
  | Some f =>
      for_each (λ field, throw_if (f (str_of (get field entry)))
        (detected ("memory " +:+ field +:+ " contains a credential pattern") field)) ["content"; "source_ref"]
  end.

(** ** Entries *)

Section entries.
Context `{Sha256} (date_parse : string → option Z).

Definition sha256Text (text : string) : string := sha256_hex text.

Definition canonicalTimestamp (v : value) (field : string) : result value :=
  match v with
  | VStr s =>
      match date_parse s with
      | Some t => Ok (VStr (toISOString t))
      | None => Throw (invalid (field +:+ " must be a valid timestamp") field)
      end
  | _ => Throw (invalid (field +:+ " must be a valid timestamp") field)
  end.

(** [a ?? b] *)
Definition nullish_else (a b : value) : value := if is_undefined a || is_null a then b else a.

Definition check_content (input : value) : result unit :=
  let content := get "content" input in
  _ ← requireIdentifier (get "project_id" (get "scope" input)) "scope.project_id";
  _ ← throw_if (negb (is_string content) || blank (str_of content)) (invalid "content must be a non-empty string" "content");
  throw_if (MAX_CONTENT_BYTES <? String.length (str_of content))%nat (invalid "content exceeds the byte limit" "content").

Definition check_provenance (input : value) : result unit :=
  _ ← throw_if (negb (one_of ORIGINS (get "origin" input))) (invalid "origin is not allowed for memory" "origin");
  _ ← throw_if (negb (one_of TRUSTS (get "trust" input))) (invalid "trust must be trusted or untrusted" "trust");
  _ ← throw_if (one_of UNTRUSTED_ORIGINS (get "origin" input) && negb (bool_decide (get "trust" input = VStr "untrusted")))
        (AgentMemoryError "an untrusted origin can only be stored as untrusted" "AGENT_MEMORY_TRUST_INVALID"
           [("origin", get "origin" input)]);
  _ ← throw_if (negb (one_of CLASSIFICATIONS (get "classification" input)))
        (invalid "classification is not allowed" "classification");
  throw_if (negb (is_string (get "source_ref" input) && SAFE_REFERENCE (str_of (get "source_ref" input))))
    (invalid "source_ref must be a safe reference" "source_ref").

Definition normalizeEntry (input : value) (maxTtlSeconds : Z) : result value :=
  let authority := get "authority" input in
  _ ← throw_if (negb (is_record input)) (invalid "memory entry must be an object" "entry");
  _ ← throw_if (negb (is_undefined authority) && negb (bool_decide (authority = VStr AUTHORITY)))
        (AgentMemoryError "memory can only carry data authority" "AGENT_MEMORY_AUTHORITY_ESCALATION"
           [("authority", VStr (js_string authority))]);
  _ ← check_content input;
  _ ← check_provenance input;
  let sourceDigest := nullish_else (get "source_digest" input) (VStr (sha256Text (str_of (get "content" input)))) in
  _ ← throw_if (negb (is_string sourceDigest && SHA256_HEX (str_of sourceDigest)))
        (invalid "source_digest must be a sha-256 hex digest" "source_digest");
  let ttl := get "ttl_seconds" input in
  _ ← throw_if (negb (is_integer ttl) || (int_of ttl <? 1)%Z || (maxTtlSeconds <? int_of ttl)%Z)
        (AgentMemoryError "ttl_seconds is required and bounded by the policy ceiling" "AGENT_MEMORY_TTL_INVALID"
           [("ttl_seconds", ttl); ("max", VNum (NInt maxTtlSeconds))]);
  _ ← requireIdentifier (get "memory_id" input) "memory_id";
  created_at ← canonicalTimestamp (get "created_at" input) "created_at";
  let write_policy_ref := get "write_policy_ref" input in
  _ ← throw_if (negb (is_undefined write_policy_ref) && negb (nonempty_string write_policy_ref))
        (invalid "write_policy_ref must be a string" "write_policy_ref");
  _ ← (if is_undefined (get "supersedes" input) then Ok () else requireIdentifier (get "supersedes" input) "supersedes");
  Ok (VObj ([("memory_id", get "memory_id" input); ("scope", VObj [("project_id", get "project_id" (get "scope" input))]);
    ("content", get "content" input); ("authority", VStr AUTHORITY); ("origin", get "origin" input);
    ("trust", get "trust" input); ("classification", get "classification" input); ("source_ref", get "source_ref" input);
    ("source_digest", sourceDigest); ("created_at", created_at); ("ttl_seconds", ttl)] ++
    (if is_undefined write_policy_ref then [] else [("write_policy_ref", write_policy_ref)]) ++
    (if is_undefined (get "supersedes" input) then [] else [("supersedes", get "supersedes" input)]))).

(** ** Promotions *)

(** An operation an approval is bound to. *)
Record memory_operation := MkOperation { operation : string; operation_id : string; resource_scope : value }.

Definition delete_operation_id (projectId memoryId : string) : string :=
  DELETE_OPERATION +:+ ":" +:+ projectId +:+ ":" +:+ memoryId.
Definition memoryDeleteOperation (projectId memoryId : value) : result memory_operation :=
  _ ← requireIdentifier projectId "project_id";
  _ ← requireIdentifier memoryId "memory_id";
  Ok (MkOperation DELETE_OPERATION (delete_operation_id (str_of projectId) (str_of memoryId))
    (VObj [("project_id", projectId); ("memory_id", memoryId)])).

Definition promote_operation_id (projectId memoryId contentSha256 : string) : string :=
  PROMOTE_OPERATION +:+ ":" +:+ projectId +:+ ":" +:+ memoryId +:+ ":" +:+ contentSha256.
Definition memoryPromoteOperation (projectId memoryId contentSha256 : value) : result memory_operation :=
  _ ← requireIdentifier projectId "project_id";
  _ ← requireIdentifier memoryId "memory_id";
  _ ← throw_if (negb (is_string contentSha256 && SHA256_HEX (str_of contentSha256)))
        (invalid "content_sha256 must be a sha-256 hex digest" "content_sha256");
  Ok (MkOperation PROMOTE_OPERATION
    (promote_operation_id (str_of projectId) (str_of memoryId) (str_of contentSha256))
    (VObj [("project_id", projectId); ("memory_id", memoryId); ("content_sha256", contentSha256)])).

Definition promotedSourceRef (projectId memoryId contentSha256 : string) : string :=
  "memory://" +:+ projectId +:+ "/" +:+ memoryId +:+ "@" +:+ contentSha256.

Definition isPromotedEntry (entry : value) (projectId : string) : bool :=
  bool_decide (get "origin" entry = VStr "operator") &&
  bool_decide (get "trust" entry = VStr "trusted") &&
  bool_decide (get "write_policy_ref" entry = VStr PROMOTE_POLICY_REF) &&
  is_string (get "supersedes" entry) &&
  bool_decide (get "source_digest" entry = VStr (sha256Text (str_of (get "content" entry)))) &&
  bool_decide (get "source_ref" entry =
    VStr (promotedSourceRef projectId (str_of (get "supersedes" entry)) (str_of (get "source_digest" entry)))).
End entries.

(** ** The decision on a write *)

Definition admitWrite (locale_le : string → string → bool) (rules approved execution_mode : value) : result value :=
  let rules := if is_undefined rules then VArr [] else rules in
  let mode := if is_undefined execution_mode then Some (VStr "default") else Some execution_mode in
  outcome ← PolicyLattice.evaluatePermissionLattice locale_le rules mode PolicyLattice.no_callback;
  let d := PolicyLattice.out_decision outcome in
  let admitted := bool_decide (d = PolicyLattice.allow) ||
                  (bool_decide (d = PolicyLattice.ask) && bool_decide (approved = VBool true)) in
  match PolicyLattice.deciding_rule_id outcome with
  | Some id => if admitted then Ok (VStr ("rule:" +:+ id))
      else Throw (AgentMemoryError "no admitting policy for memory.write" "AGENT_MEMORY_WRITE_DENIED"
             [("decision", VStr (PolicyLattice.decision_name d))])
  | None => Throw (AgentMemoryError "no admitting policy for memory.write" "AGENT_MEMORY_WRITE_DENIED"
             [("decision", VStr (PolicyLattice.decision_name d))])
  end.
