(* ===== verification/MemoryStore.v ===== *)
(** * The memory store (packages/agent-memory/store.js)

    Memory is a stream of events per project on the execution ledger; the records are a
    projection of it, cached with the version of the stream it was made from.  Deletions
    and promotions append inside the transaction that consumes their approval.

    [world] is what an operation reads and changes: the ledger, the approvals and the
    cached projection of this store.  A throw keeps the world it left behind.  The clock
    readings of an operation are its argument [instants].  The verifier of approvals is
    the one of policy.js ([createExecutionApprovalVerifier]), when the host gives one. *)
From S2P Require Import Prelude JsValue CanonicalJson JsMap StrictJson Time OperationId MemoryPolicy.
From S2P Require Ledger EventRegistry Approvals.

Definition AGGREGATE_TYPE : string := "agent_memory".
Definition WRITTEN : string := "memory.written".
Definition SUPERSEDED : string := "memory.superseded".
Definition EXPIRED : string := "memory.expired".
Definition DELETED : string := "memory.deleted".
Definition DEFAULT_ACTOR : value := VObj [("kind", VStr "host"); ("id", VStr "agent-memory")].
Definition DEFAULT_LIMIT : Z := 5.
Definition MAX_LIMIT : Z := 50.

(** ** The lexical index *)

Definition letter_or_number (c : ascii) : bool := lower_letter c || upper_letter c || digit c.
(** [text.match(/[\p{L}\p{N}]+/gu)], with the word read so far. *)
Fixpoint words_from (word : string) (text : string) : list string :=
  match text with
  | EmptyString => if word =s "" then [] else [word]
  | String c text =>
      if letter_or_number c then words_from (word +:+ String c "") text
      else if word =s "" then words_from "" text else word :: words_from "" text
  end.
Definition tokenize (text : string) : list string := sort_strings (js_set (words_from "" (to_lower text))).

(** ** Records *)

Inductive status := active | superseded | expired | deleted.
#[export] Instance status_eq_dec : EqDecision status.
Proof. solve_decision. Defined.
Definition status_name (s : status) : string :=
  match s with active => "active" | superseded => "superseded" | expired => "expired" | deleted => "deleted" end.

Record record := MkRecord {
  entry : value;
  record_status : status;
  tokens : list string;
  promotion : value;
  record_operation_id : value;
  superseded_by : value;
}.
Definition records : Type := list (string * record).

Definition event_invalid (type : string) : value :=
  AgentMemoryError ("memory event " +:+ type +:+ " does not apply to the current state") "AGENT_MEMORY_EVENT_INVALID" [].

(** [transition(event, from, to, patch)] *)
Definition transition (event : value) (from : list status) (to : status) (by_ : option value) (rs : records) : result records :=
  let id := str_of (get "memory_id" (get "payload" event)) in
  match assoc id rs with
  | Some r =>
      if bool_decide (record_status r ∈ from) then
        Ok (upsert id (MkRecord (entry r) to (tokens r) (promotion r) (record_operation_id r)
                         (default (superseded_by r) by_)) rs)
      else Throw (event_invalid (str_of (get "event_type" event)))
  | None => Throw (event_invalid (str_of (get "event_type" event)))
  end.

(** What the property access or the call throws on a value that is not an object, or not a text. *)
Definition unreadable (v : value) (property : string) : value :=
  type_error ("Cannot read properties of " +:+ js_string v +:+ " (reading '" +:+ property +:+ "')").
Definition untokenizable (v : value) : value :=
  if is_undefined v || is_null v then unreadable v "toLowerCase" else type_error "text.toLowerCase is not a function".
Definition apply_written (event : value) (rs : records) : result records :=
  let payload := get "payload" event in
  let e := get "entry" payload in
  _ ← throw_if (is_undefined e || is_null e) (unreadable e "memory_id");
  _ ← throw_if (negb (is_string (get "content" e))) (untokenizable (get "content" e));
  Ok (upsert (str_of (get "memory_id" e))
    (MkRecord e active (tokenize (str_of (get "content" e))) (nullish_else (get "promotion" payload) VNull)
      (nullish_else (get "operation_id" event) VNull) VUndef) rs).

Definition apply_event (event : value) (rs : records) : result records :=
  let type := str_of (get "event_type" event) in
  if type =s WRITTEN then apply_written event rs
  else if type =s SUPERSEDED then transition event [active] superseded (Some (get "superseded_by" (get "payload" event))) rs
  else if type =s EXPIRED then transition event [active] expired None rs
  else if type =s DELETED then transition event [active; superseded; expired] deleted None rs
  else Throw (AgentMemoryError ("unknown memory event type: " +:+ type) "AGENT_MEMORY_EVENT_UNKNOWN" []).

Definition foldEvents (events : list value) : result records := EventRegistry.fold_result (λ rs e, apply_event e rs) [] events.

(** ** The world *)

Record cached := MkCached { cached_version : Z; cached_records : records }.
Record world := MkWorld {
  ledger : Ledger.ledger;
  approvals : Approvals.store;
  projection : list (string * cached);
}.
Record instants := MkInstants { at_start : Z; at_append : Z; at_verification : Z; recorded : string }.

(** A program over the world; a throw keeps what was done before it. *)
Definition program (A : Type) : Type := world → result A * world.
#[export] Instance program_ret : MRet program := λ A a w, (Ok a, w).
#[export] Instance program_bind : MBind program := λ A B f m w,
  match m w with (Ok a, w) => f a w | (Throw e, w) => (Throw e, w) end.
Definition lift {A} (r : result A) : program A := λ w, (r, w).

Definition stored_approvals : program Approvals.store := λ w, (Ok (approvals w), w).
Definition set_projection (p : list (string * cached)) : program unit := λ w,
  (Ok (), MkWorld (ledger w) (approvals w) p).

(** An event to append: [operation_id] is [null] by default. *)
Record fact := MkFact { fact_type : string; fact_memory : string; fact_payload : list (string * value); fact_operation : value }.

(** [createExecutionApprovalVerifier({ approvalStore, resolveApprovalId, policyVersion })] *)
Record verifier := MkVerifier {
  resolveApprovalId : memory_operation → value → result value;
  policyVersion : string;
}.

Section store.
Context `{Sha256} (locale_le : string → string → bool) (date_parse : string → option Z).
Context (reg : EventRegistry.registry) (scanCredential : scanner) (maxTtlSeconds : Z).
Context (approvalVerifier : option verifier)
  (promotionAttestation : option (Approvals.store → string → string → bool)).

Definition event_uuid (projectId type memoryId : string) : string :=
  let hex := sha256_hex (projectId +:+ NUL +:+ type +:+ NUL +:+ memoryId) in
  slice 0 8 hex +:+ "-" +:+ slice 8 12 hex +:+ "-" +:+ slice 12 16 hex +:+ "-" +:+ slice 16 20 hex +:+ "-" +:+ slice 20 32 hex.

(** [rebuild()] *)
Definition rebuild : program unit := set_projection [].

(** The records of a project: the cached ones of this version, or those of the stream. *)
Definition read_records (db : Ledger.database) (projectId : string) : result records :=
  rows ← Ledger.readStream db AGGREGATE_TYPE projectId (VNum (NInt 1)) (VNum (NInt MAX_SAFE_INTEGER));
  foldEvents rows.
Definition cached_at (projectId : string) (version : Z) (w : world) : option cached :=
  match assoc projectId (projection w) with
  | Some c => if (cached_version c =? version)%Z then Some c else None
  | None => None
  end.
Definition state_of (projectId : string) : program cached := λ w,
  let db := Ledger.db (ledger w) in
  match Ledger.getVersion db (VStr AGGREGATE_TYPE) (VStr projectId) with
  | Throw e => (Throw e, w)
  | Ok version =>
      match cached_at projectId version w with
      | Some c => (Ok c, w)
      | None =>
          match read_records db projectId with
          | Ok rs =>
              let c := MkCached version rs in
              (Ok c, MkWorld (ledger w) (approvals w) (upsert projectId c (projection w)))
          | Throw e => (Throw e, w)
          end
      end
  end.

(** ** Appending *)

Definition event_of (projectId : string) (actor : value) (t : Z) (f : fact) : value :=
  VObj [("event_id", VStr (event_uuid projectId (fact_type f) (fact_memory f))); ("event_type", VStr (fact_type f));
        ("schema_version", VNum (NInt 1)); ("occurred_at", VStr (toISOString t));
        ("correlation_id", VStr ("memory:" +:+ projectId));
        ("causation_id", VStr ("memory:" +:+ projectId +:+ ":" +:+ fact_memory f)); ("actor", actor);
        ("operation_id", fact_operation f);
        ("payload", VObj ([("contract", VStr CONTRACT); ("memory_id", VStr (fact_memory f))] ++ fact_payload f));
        ("evidence_refs", VArr [])].
Definition append_request (projectId : string) (expected actor : value) (t : Z) (facts : list fact) : value :=
  VObj [("aggregate_id", VStr projectId); ("aggregate_type", VStr AGGREGATE_TYPE); ("expected_version", expected);
        ("events", VArr (event_of projectId actor t <$> facts))].
Definition append_facts (projectId : string) (expected actor : value) (i : instants) (facts : list fact)
    (l : Ledger.ledger) : result value * Ledger.ledger :=
  Ledger.append reg (recorded i) l (append_request projectId expected actor (at_append i) facts).

Definition forget_projection (projectId : string) (w : world) : world :=
  MkWorld (ledger w) (approvals w) (remove projectId (projection w)).
(** [_append(projectId, state, expectedVersion, actor, facts)] *)
Definition append_ (projectId : string) (expected actor : value) (i : instants) (facts : list fact) : program value := λ w,
  match append_facts projectId expected actor i facts (ledger w) with
  | (Ok v, l) => (Ok v, forget_projection projectId (MkWorld l (approvals w) (projection w)))
  | (Throw e, l) => (Throw e, MkWorld l (approvals w) (projection w))
  end.

(** ** Approvals *)

Definition approval_required (op : memory_operation) (what : string) (cause : option string) : value :=
  AgentMemoryError (what +:+ " needs a single-use approval for this operation") "AGENT_MEMORY_APPROVAL_REQUIRED"
    (("operation", VStr (operation_id op)) ::
     match cause with Some c => if c =s "" then [] else [("cause", VStr c)] | None => [] end).
Definition cause_of (e : value) : option string :=
  Some (if is_string (get "code" e) then error_code e else "VERIFIER_FAILED").

Definition consumption_request (h : verifier) (op : memory_operation) (id : value) (t : Z) : value :=
  VObj [("approval_id", id); ("operation_id", VStr (operation_id op)); ("resource_scope", resource_scope op);
        ("policy_version", VStr (policyVersion h)); ("now", VStr (toISOString t))].
(** The verifier: it consumes the approval the host resolved; [onConsumed] runs inside. *)
Definition execution_approval_verifier (h : verifier) (op : memory_operation) (actor : value) (t : Z)
    (onConsumed : value → Ledger.ledger → result value * Ledger.ledger) (s : Approvals.store) (l : Ledger.ledger) :
    result bool * Approvals.store * Ledger.ledger :=
  match resolveApprovalId h op actor with
  | Throw e => (Throw e, s, l)
  | Ok id =>
      if negb (nonempty_string id) then
        (Throw (AgentMemoryError "no approval was issued for this operation" "AGENT_MEMORY_APPROVAL_REQUIRED" []), s, l)
      else
        match Approvals.consume s l (consumption_request h op id t) (onConsumed id) with
        | (Ok _, s, l) => (Ok true, s, l)
        | (Throw e, s, l) => (Throw e, s, l)
        end
  end.

(** What [onConsumed] has caught ([appendFailure]): it runs when the consumption is
    authorized, and is given the identifier of the approval. *)
Definition appendFailure (h : verifier) (op : memory_operation) (actor : value) (t : Z)
    (onConsumed : value → Ledger.ledger → result value * Ledger.ledger) (s : Approvals.store) (l : Ledger.ledger) : option value :=
  match resolveApprovalId h op actor with
  | Throw _ => None
  | Ok id =>
      if negb (nonempty_string id) then None
      else
        match Approvals.authorization s (consumption_request h op id t) with
        | Throw _ => None
        | Ok _ => match (onConsumed id l).1 with Throw e => Some e | Ok _ => None end
        end
  end.

(** [_withApproval(operation, what, actor, append)]: a refusal of the verifier becomes the
    refusal of the operation, a failure of the append is thrown as it is. *)
Definition withApproval (op : memory_operation) (what projectId : string) (actor : value) (i : instants)
    (append : value → Ledger.ledger → result value * Ledger.ledger) : program unit := λ w,
  match approvalVerifier with
  | None => (Throw (approval_required op what None), w)
  | Some h =>
      match execution_approval_verifier h op actor (at_verification i) append (approvals w) (ledger w) with
      | (Ok _, s, l) => (Ok (), forget_projection projectId (MkWorld l s (projection w)))
      | (Throw e, s, l) =>
          (Throw (default (approval_required op what (cause_of e))
                    (appendFailure h op actor (at_verification i) append (approvals w) (ledger w))),
           MkWorld l s (projection w))
      end
  end.

(** ** Writing *)

(** What only the host supplies. *)
Record host := MkHost { rules : value; approved : value; host_actor : value; execution_mode : value; expected_version : value }.

Definition with_field (k : string) (v e : value) : value :=
  match e with VObj f => VObj (put k v f) | _ => VObj [(k, v)] end.

(** The checks of [write] before the records are read: the entry and its actor. *)
Definition accept_entry (input : value) (h : host) (t : Z) : result (value * value) :=
  _ ← assertEntryInputFields input;
  e ← normalizeEntry date_parse (with_field "created_at" (VStr (toISOString t)) input) maxTtlSeconds;
  _ ← throw_if (negb (bool_decide (get "source_digest" e = VStr (sha256Text (str_of (get "content" e))))))
        (invalid "source_digest does not match the content" "source_digest");
  _ ← throw_if (ends_with PROMOTED_SUFFIX (str_of (get "memory_id" e)))
        (AgentMemoryError "the :promoted suffix is reserved for operator promotions" "AGENT_MEMORY_ID_RESERVED"
           [("memory_id", get "memory_id" e)]);
  actor ← normalizeActor (if is_undefined (host_actor h) then DEFAULT_ACTOR else host_actor h) scanCredential;
  _ ← throw_if (bool_decide (get "origin" e = VStr "operator") && negb (bool_decide (get "kind" actor = VStr "operator")))
        (AgentMemoryError "operator origin needs an operator actor" "AGENT_MEMORY_ORIGIN_ACTOR_MISMATCH"
           [("origin", get "origin" e)]);
  ref ← admitWrite locale_le (rules h) (approved h) (execution_mode h);
  let e := with_field "write_policy_ref" ref e in
  _ ← assertNoCredential e scanCredential;
  Ok (e, actor).

Definition status_at (id : string) (rs : records) : option status := record_status <$> assoc id rs.
Definition write_facts (e : value) (rs : records) : result (list fact) :=
  let id := str_of (get "memory_id" e) in
  _ ← throw_if (bool_decide (is_Some (assoc id rs)))
        (AgentMemoryError "memory_id is already used in this project" "AGENT_MEMORY_DUPLICATE" [("memory_id", VStr id)]);
  let written := MkFact WRITTEN id [("entry", e)] VNull in
  if is_undefined (get "supersedes" e) then Ok [written]
  else
    let old := str_of (get "supersedes" e) in
    _ ← throw_if (negb (bool_decide (status_at old rs = Some active)))
          (AgentMemoryError "only an active entry can be superseded" "AGENT_MEMORY_SUPERSEDE_INVALID" [("memory_id", VStr old)]);
    Ok [written; MkFact SUPERSEDED old [("superseded_by", VStr id)] VNull].

Definition project_of (e : value) : string := str_of (get "project_id" (get "scope" e)).
Definition write (input : value) (h : host) (i : instants) : program value :=
  '(e, actor) ← lift (accept_entry input h (at_start i));
  st ← state_of (project_of e);
  facts ← lift (write_facts e (cached_records st));
  _ ← append_ (project_of e) (nullish_else (expected_version h) (VNum (NInt (cached_version st)))) actor i facts;
  mret (VObj [("memory_id", get "memory_id" e); ("write_policy_ref", get "write_policy_ref" e)]).

(** ** Expiry *)

(** [Date.parse(v)] of a property. *)
Definition date_of (v : value) : option Z := match v with VStr s => date_parse s | _ => None end.
Definition isExpired (r : record) (now : Z) : bool :=
  match date_of (get "created_at" (entry r)) with
  | Some t => (t + int_of (get "ttl_seconds" (entry r)) * 1000 <=? now)%Z
  | None => false
  end.
Definition is_active (r : record) : bool := bool_decide (record_status r = active).

Definition sweepExpired (projectId actor : value) (i : instants) : program (list string) :=
  _ ← lift (requireIdentifier projectId "project_id");
  actor ← lift (normalizeActor (if is_undefined actor then DEFAULT_ACTOR else actor) scanCredential);
  st ← state_of (str_of projectId);
  let due := List.filter (λ kr : string * record, is_active kr.2 && isExpired kr.2 (at_start i)) (cached_records st) in
  let ids := (λ kr : string * record, str_of (get "memory_id" (entry kr.2))) <$> due in
  match due with
  | [] => mret []
  | _ =>
      _ ← append_ (str_of projectId) (VNum (NInt (cached_version st))) actor i
        ((λ id, MkFact EXPIRED id [("expired_at", VStr (toISOString (at_start i)))] VNull) <$> ids);
      mret ids
  end.

(** ** Deletion *)

Definition not_found (message : string) (memoryId : value) : value :=
  AgentMemoryError message "AGENT_MEMORY_NOT_FOUND" [("memory_id", memoryId)].
Definition operator_required (what : string) : value :=
  AgentMemoryError (what +:+ " memory requires an operator actor") "AGENT_MEMORY_OPERATOR_REQUIRED" [].
(** A parameter with a default: [undefined] stands for it. *)
Definition default_to (d v : value) : value := if is_undefined v then d else v.

Definition forget (input actor : value) (i : instants) : program unit :=
  let projectId := get "project_id" input in
  let memoryId := get "memory_id" input in
  _ ← lift (requireIdentifier projectId "project_id");
  _ ← lift (requireIdentifier memoryId "memory_id");
  _ ← lift (throw_if (negb (bool_decide (get "kind" actor = VStr "operator"))) (operator_required "deleting"));
  resolvedActor ← lift (normalizeActor actor scanCredential);
  safeReason ← lift (normalizeReason (default_to (VStr "operator command") (get "reason" input)) scanCredential);
  st ← state_of (str_of projectId);
  _ ← lift (throw_if (match status_at (str_of memoryId) (cached_records st) with
                      | None | Some deleted => true | Some _ => false end)
              (not_found "memory entry does not exist" memoryId));
  op ← lift (memoryDeleteOperation projectId memoryId);
  withApproval op "deleting memory" (str_of projectId) resolvedActor i (λ id,
    append_facts (str_of projectId) (VNum (NInt (cached_version st))) resolvedActor i
      [MkFact DELETED (str_of memoryId) [("reason", safeReason); ("approval_id", id)] (VStr (operation_id op))]).

(** ** Promotion *)

(** [Math.ceil(ms / 1000)] *)
Definition ceil_seconds (ms : Z) : Z := (- (- ms / 1000))%Z.
(** The seconds the promoted entry has left; [NaN] when the date of the original is not one. *)
Definition remaining_seconds (e : value) (now : Z) : value :=
  match date_of (get "created_at" e) with
  | Some t => VNum (NInt (Z.max 1 (ceil_seconds (t + int_of (get "ttl_seconds" e) * 1000 - now))))
  | None => VNum NNaN
  end.
Definition promoted_id (memoryId : string) : string := memoryId +:+ PROMOTED_SUFFIX.
Definition promoted_input (projectId memoryId digest : string) (original : value) (now : Z) : value :=
  VObj [("memory_id", VStr (promoted_id memoryId)); ("scope", VObj [("project_id", VStr projectId)]);
        ("content", get "content" original); ("origin", VStr "operator"); ("trust", VStr "trusted");
        ("classification", get "classification" original);
        ("source_ref", VStr (promotedSourceRef projectId memoryId digest)); ("source_digest", VStr digest);
        ("ttl_seconds", remaining_seconds original now); ("supersedes", VStr memoryId);
        ("write_policy_ref", VStr PROMOTE_POLICY_REF); ("created_at", VStr (toISOString now))].
Definition promotion_facts (memoryId digest : string) (promoted actor reason : value) (op id : value) : list fact :=
  [MkFact WRITTEN (promoted_id memoryId)
     [("entry", promoted);
      ("promotion", VObj [("promoted_from", VStr memoryId); ("promoted_by", get "id" actor); ("reason", reason);
                          ("content_sha256", VStr digest); ("approval_id", id)])] op;
   MkFact SUPERSEDED memoryId [("superseded_by", VStr (promoted_id memoryId))] op].

(** The checks on the record to promote: what it holds and that the operator saw it. *)
Definition promotable (memoryId contentSha256 : value) (now : Z) (rs : records) : result record :=
  match assoc (str_of memoryId) rs with
  | Some r =>
      _ ← throw_if (negb (is_active r) || isExpired r now)
            (not_found "only an active memory entry of this project can be promoted" memoryId);
      _ ← throw_if (bool_decide (get "trust" (entry r) = VStr "trusted"))
            (AgentMemoryError "the memory entry is already trusted" "AGENT_MEMORY_PROMOTE_INVALID" [("memory_id", memoryId)]);
      _ ← throw_if (negb (bool_decide (contentSha256 = VStr (sha256Text (str_of (get "content" (entry r)))))))
            (AgentMemoryError "the approved digest does not match the stored content" "AGENT_MEMORY_DIGEST_MISMATCH"
               [("memory_id", memoryId)]);
      _ ← assertNoCredential (entry r) scanCredential;
      Ok r
  | None => Throw (not_found "only an active memory entry of this project can be promoted" memoryId)
  end.

Definition promote (input actor : value) (i : instants) : program value :=
  let projectId := get "project_id" input in
  let memoryId := get "memory_id" input in
  _ ← lift (requireIdentifier projectId "project_id");
  _ ← lift (requireIdentifier memoryId "memory_id");
  _ ← lift (throw_if (negb (bool_decide (get "kind" actor = VStr "operator"))) (operator_required "promoting"));
  resolvedActor ← lift (normalizeActor actor scanCredential);
  safeReason ← lift (normalizeReason (default_to (VStr "operator promotion") (get "reason" input)) scanCredential);
  st ← state_of (str_of projectId);
  r ← lift (promotable memoryId (get "content_sha256" input) (at_start i) (cached_records st));
  let digest := sha256Text (str_of (get "content" (entry r))) in
  promoted ← lift (normalizeEntry date_parse
    (promoted_input (str_of projectId) (str_of memoryId) digest (entry r) (at_start i)) maxTtlSeconds);
  op ← lift (memoryPromoteOperation projectId memoryId (VStr digest));
  _ ← withApproval op "promoting memory" (str_of projectId) resolvedActor i (λ id,
    append_facts (str_of projectId) (VNum (NInt (cached_version st))) resolvedActor i
      (promotion_facts (str_of memoryId) digest promoted resolvedActor safeReason (VStr (operation_id op)) id));
  mret (VObj [("memory_id", VStr (promoted_id (str_of memoryId))); ("promoted_from", memoryId); ("content_sha256", VStr digest)]).

(** ** Reading *)

Definition inspect (projectId memoryId : value) : program value :=
  _ ← lift (requireIdentifier projectId "project_id");
  _ ← lift (requireIdentifier memoryId "memory_id");
  st ← state_of (str_of projectId);
  match assoc (str_of memoryId) (cached_records st) with
  | None => lift (Throw (not_found "memory entry does not exist" memoryId))
  | Some r =>
      let e := entry r in
      mret (VObj [("memory_id", memoryId); ("status", VStr (status_name (record_status r))); ("origin", get "origin" e);
                  ("trust", get "trust" e); ("content", get "content" e);
                  ("content_sha256", VStr (sha256Text (str_of (get "content" e))))])
  end.

(** [_isAttestedPromotion(record, projectId, records)]: the host answers from the approvals. *)
Definition promotion_recorded (r : record) (projectId : string) (rs : records) : bool :=
  let e := entry r in
  isPromotedEntry e projectId &&
  bool_decide (is_Some (assoc (str_of (get "supersedes" e)) rs)) &&
  bool_decide (get "promoted_from" (promotion r) = get "supersedes" e) &&
  bool_decide (get "content_sha256" (promotion r) = get "source_digest" e) &&
  is_string (get "approval_id" (promotion r)).
Definition isAttestedPromotion (s : Approvals.store) (r : record) (projectId : string) (rs : records) : result bool :=
  match promotionAttestation with
  | None => Ok false
  | Some attest =>
      if negb (promotion_recorded r projectId rs) then Ok false
      else
        op ← memoryPromoteOperation (VStr projectId) (get "supersedes" (entry r)) (get "source_digest" (entry r));
        Ok (bool_decide (record_operation_id r = VStr (operation_id op)) &&
            attest s (str_of (get "approval_id" (promotion r))) (operation_id op))
  end.

Definition status_now (r : record) (now : Z) : status :=
  if is_active r && isExpired r now then expired else record_status r.
Definition list_ (projectId : value) (i : instants) : program (list value) :=
  _ ← lift (requireIdentifier projectId "project_id");
  st ← state_of (str_of projectId);
  mret ((λ kr : string * record,
    VObj [("memory_id", get "memory_id" (entry kr.2)); ("status", VStr (status_name (status_now kr.2 (at_start i))));
          ("trust", get "trust" (entry kr.2))]) <$> cached_records st).

(** *** Ranking *)

Record ranked := MkRanked { ranked_record : record; score : nat }.
Definition score_of (terms : list string) (r : record) : nat := length (List.filter (λ term, term ∈s tokens r) terms).
Definition field_text (k : string) (r : ranked) : string := str_of (get k (entry (ranked_record r))).
(** The comparison of the sort: score descending, newest first, then the identifier. *)
Definition ranks_before (a b : ranked) : bool :=
  if (score b <? score a)%nat then true
  else if (score a <? score b)%nat then false
  else if string_lt (field_text "created_at" b) (field_text "created_at" a) then true
  else if string_lt (field_text "created_at" a) (field_text "created_at" b) then false
  else String.leb (field_text "memory_id" a) (field_text "memory_id" b).

Definition eligible (includeUntrusted : bool) (now : Z) (r : record) : bool :=
  is_active r && negb (isExpired r now) &&
  (negb (bool_decide (get "trust" (entry r) = VStr "untrusted")) || includeUntrusted).
Definition candidates (terms : list string) (includeUntrusted : bool) (now : Z) (rs : records) : list ranked :=
  List.filter (λ c, 0 <? score c)%nat
    ((λ kr : string * record, MkRanked kr.2 (score_of terms kr.2)) <$>
       List.filter (λ kr : string * record, eligible includeUntrusted now kr.2) rs).
Definition ranking (terms : list string) (includeUntrusted : bool) (now : Z) (limit : nat) (rs : records) : list ranked :=
  take limit (sort_by ranks_before (candidates terms includeUntrusted now rs)).

(** *** Sources *)

Definition memory_ref (projectId : string) (e : value) : value :=
  VStr ("memory://" +:+ projectId +:+ "/" +:+ str_of (get "memory_id" e)).
Definition transform_step (id version input_digest : value) : value :=
  VObj [("id", id); ("version", version); ("input_digest", input_digest)].
Definition source_of (projectId : string) (now : Z) (promoted : bool) (index : nat) (e : value) : value :=
  let digest := VStr (sha256Text (str_of (get "content" e))) in
  VObj [("source_ref", memory_ref projectId e); ("classification", get "classification" e);
        ("priority", VNum (NInt (Z.max 0 (100 - Z.of_nat index)))); ("content", get "content" e);
        ("authority", VStr AUTHORITY);
        ("provenance", VObj [("origin", VStr "memory"); ("source_ref", memory_ref projectId e); ("digest", digest);
           ("retrieved_at", VStr (toISOString now)); ("trust", VStr (if promoted then "trusted" else "untrusted"));
           ("transform", VArr (
             [transform_step (VStr ("memory.write." +:+ str_of (get "origin" e))) (VStr CONTRACT) (get "source_digest" e)] ++
             (if promoted then [transform_step (VStr "memory.promote") (VStr CONTRACT) digest] else []) ++
             [transform_step (VStr "memory.retrieve") (VStr "1") digest]))])].

Definition sources (boundary : value) (projectId : string) (now : Z) (store : Approvals.store) (rs : records)
    (l : list ranked) : result (list value) :=
  imap_result (λ index c,
    promoted ← (if bool_decide (boundary = VStr "context") then isAttestedPromotion store (ranked_record c) projectId rs
                else Ok false);
    Ok (source_of projectId now promoted index (entry (ranked_record c)))) 0%nat l.
Definition check_query (input : value) : result Z :=
  let query := get "query" input in
  let limit := default_to (VNum (NInt DEFAULT_LIMIT)) (get "limit" input) in
  _ ← requireIdentifier (get "project_id" input) "project_id";
  _ ← throw_if (negb (is_string query) || blank (str_of query)) (invalid "query must be a non-empty string" "query");
  _ ← throw_if (negb (is_integer limit) || (int_of limit <? 1)%Z || (MAX_LIMIT <? int_of limit)%Z)
        (invalid "limit is out of range" "limit");
  Ok (int_of limit).

Definition retrieve (input boundary : value) (i : instants) : program (list value) :=
  limit ← lift (check_query input);
  let projectId := str_of (get "project_id" input) in
  st ← state_of projectId;
  let includeUntrusted := bool_decide (get "include_untrusted" input = VBool true) in
  let rs := cached_records st in
  store ← stored_approvals;
  lift (sources boundary projectId (at_start i) store rs
    (ranking (tokenize (str_of (get "query" input))) includeUntrusted (at_start i) (Z.to_nat limit) rs)).
End store.
