(* ===== verification/MemoryEvents.v ===== *)
(** * The stored events of memory

    What a column of the ledger keeps of an object, what an append adds to the stream of
    a project, and what the records become: the events of an append act on the records
    as the facts they were made from. *)
From S2P Require Import Prelude JsValue CanonicalJson JsMap StrictJson Time OperationId MemoryPolicy MemoryStore.
From S2P Require EventRegistry Ledger.

(** ** Columns *)

Lemma assoc_map_values {A B} (f : A → B) k (l : list (string * A)) :
  assoc k ((λ kv, (kv.1, f kv.2)) <$> l) = f <$> assoc k l.
Proof. induction l as [|[k' x] l IH]; [done|]. simpl. by case_if. Qed.

(** A field of the stored object is the stored field. *)
Lemma get_json_column k f :
  NoDup f.*1 → get k (Ledger.json_column (VObj f)) = Ledger.json_column (get k (VObj f)).
Proof.
  intros HN. unfold Ledger.json_column. cbn [stable_value].
  destruct (from_entries_NoDup (sort_by key_le ((λ kv, (kv.1, stable_value kv.2)) <$> f)))
    as (g & -> & Hg); [by rewrite sort_by_perm, keys_map_values|].
  rewrite sort_by_perm in Hg. cbn [reparse get]. rewrite assoc_map_values.
  rewrite (assoc_perm k g _) with (2 := Hg) by (by rewrite Hg, keys_map_values).
  rewrite assoc_map_values. by destruct (assoc k f).
Qed.

Lemma json_column_object f : NoDup f.*1 →
  ∃ g, Ledger.json_column (VObj f) = VObj g ∧ NoDup g.*1.
Proof.
  intros HN. unfold Ledger.json_column. cbn [stable_value].
  destruct (from_entries_NoDup (sort_by key_le ((λ kv, (kv.1, stable_value kv.2)) <$> f)))
    as (g & -> & Hg); [by rewrite sort_by_perm, keys_map_values|].
  rewrite sort_by_perm in Hg. eexists. split; [reflexivity|]. by rewrite keys_map_values, Hg, keys_map_values.
Qed.

Lemma str_of_column v : str_of (Ledger.json_column v) = str_of v.
Proof. by destruct v as [| | |[]| | |]. Qed.
Lemma is_string_column v : is_string (Ledger.json_column v) = is_string v.
Proof. by destruct v as [| | |[]| | |]. Qed.

(** ** The projection of a stream *)

Definition memory_stream (projectId : string) : Ledger.stream := Ledger.MkStream projectId AGGREGATE_TYPE.
Definition stream_events (db : Ledger.database) (projectId : string) : list value :=
  Ledger.hydrate <$> Ledger.stream_rows db (memory_stream projectId).

Definition replay (events : list value) (rs : records) : result records :=
  EventRegistry.fold_result (λ rs e, apply_event e rs) rs events.

Lemma replay_events_app l k rs : replay (l ++ k) rs = rs' ← replay l rs; replay k rs'.
Proof.
  revert rs. induction l as [|e l IH]; intros rs; [done|]. unfold replay in *. cbn [app EventRegistry.fold_result].
  destruct (apply_event e rs); [apply IH|done].
Qed.

(** The table is small enough for its rows to be numbered exactly. *)
Definition small (db : Ledger.database) : Prop :=
  (Z.of_nat (length (Ledger.execution_events db)) ≤ MAX_SAFE_INTEGER)%Z.

Lemma numbers_sorted n k : StronglySorted (λ a b : Z, (a < b)%Z) (numbers n k).
Proof.
  revert n. induction k as [|k IH]; intros n; simpl; constructor; [apply IH|].
  rewrite Forall_forall. intros x Hx%elem_of_numbers. lia.
Qed.

Lemma sorted_of_fmap {A} (R : A → A → Prop) (S : Z → Z → Prop) (f : A → Z) l :
  (∀ a b, S (f a) (f b) → R a b) → StronglySorted S (f <$> l) → StronglySorted R l.
Proof.
  intros HR. induction l as [|a l IH]; intros H; [constructor|]. rewrite fmap_cons in H.
  apply StronglySorted_inv in H as [H1 H2]. constructor; [by apply IH|].
  rewrite Forall_fmap in H2. eapply Forall_impl; [exact H2|]. intros b. apply HR.
Qed.

Lemma filter_all {A} (f : A → bool) l : (∀ x, x ∈ l → f x = true) → List.filter f l = l.
Proof.
  induction l as [|x l IH]; intros H; [done|]. simpl. rewrite (H x) by (by left). f_equal.
  apply IH. intros y Hy. apply H. by right.
Qed.

#[export] Instance sequence_le_order : LebOrder Ledger.sequence_le.
Proof. split; unfold Ledger.sequence_le; intros; rewrite !Z.leb_le in *; lia. Qed.

Lemma select_stream_all db s : Ledger.wf_db db → small db →
  Ledger.select_stream db s 1 MAX_SAFE_INTEGER = Ledger.stream_rows db s.
Proof.
  intros Hwf Hs. pose proof (Ledger.wf_streams _ Hwf s) as Hn.
  assert (Hlen : (Z.of_nat (length (Ledger.stream_rows db s)) ≤ MAX_SAFE_INTEGER)%Z).
  { unfold small, Ledger.stream_rows in *.
    pose proof (filter_length (Ledger.in_stream s) (Ledger.execution_events db)). lia. }
  unfold Ledger.select_stream.
  assert (E : List.filter (λ r, Ledger.in_stream s r && (1 <=? Ledger.stream_sequence (Ledger.columns r))%Z &&
      (Ledger.stream_sequence (Ledger.columns r) <=? MAX_SAFE_INTEGER)%Z) (Ledger.execution_events db) =
    Ledger.stream_rows db s).
  { unfold Ledger.stream_rows. apply List.filter_ext_in. intros r Hr. destruct (Ledger.in_stream s r) eqn:Es; [|done].
    assert (Hin : r ∈ Ledger.stream_rows db s) by (apply list_filter_elem; by rewrite list_elem_of_In).
    apply (list_elem_of_fmap_2 Ledger.row_sequence) in Hin. rewrite Hn in Hin. apply elem_of_numbers in Hin.
    unfold Ledger.row_sequence in Hin. apply andb_true_iff. rewrite andb_true_iff, !Z.leb_le. lia. }
  rewrite E. apply sort_by_sorted_id. apply (sorted_of_fmap _ (λ a b : Z, (a < b)%Z) Ledger.row_sequence).
  - intros a b Hab. unfold le_of, Ledger.sequence_le, Ledger.row_sequence in *. apply Z.leb_le. lia.
  - rewrite Hn. apply numbers_sorted.
Qed.

Lemma read_records_stream db p : Ledger.wf_db db → small db → p ≠ "" →
  read_records db p = foldEvents (stream_events db p).
Proof.
  intros Hwf Hs Hp. unfold read_records, Ledger.readStream.
  assert (Hr : ∀ label, Ledger.requireString (VStr p) label = Ok ()).
  { intros label. unfold Ledger.requireString. by destruct p. }
  rewrite Hr. change (Ledger.requireString (VStr AGGREGATE_TYPE) "aggregate_type") with (@Ok unit ()).
  cbn [mbind result_bind]. change (throw_if _ _) with (@Ok unit ()). cbn [mbind result_bind].
  change (int_of (VNum (NInt 1))) with 1%Z. change (int_of (VNum (NInt MAX_SAFE_INTEGER))) with MAX_SAFE_INTEGER.
  by rewrite select_stream_all.
Qed.

(** ** Facts and events *)

(** The columns of an event the records depend on. *)
Record essence := MkEssence { essence_type : string; essence_operation : option string; essence_payload : value }.
Definition essence_of (c : Ledger.candidate) : essence :=
  MkEssence (Ledger.event_type c) (Ledger.operation_id c) (Ledger.payload_json c).
Definition essence_event (e : essence) : value :=
  VObj [("event_type", VStr (essence_type e)); ("operation_id", Ledger.opt_value (essence_operation e));
        ("payload", essence_payload e)].
Definition essence_value (e : value) : essence :=
  MkEssence (str_of (get "event_type" e)) (Ledger.optional_string (get "operation_id" e))
    (Ledger.json_column (get "payload" e)).
Definition fact_event (f : fact) : value :=
  VObj [("event_type", VStr (fact_type f));
        ("operation_id", Ledger.opt_value (Ledger.optional_string (fact_operation f)));
        ("payload", Ledger.json_column (VObj ([("contract", VStr CONTRACT); ("memory_id", VStr (fact_memory f))] ++
           fact_payload f)))].

Lemma normalizeEvent_essence e s n c : Ledger.normalizeEvent e s n = Ok c → essence_of c = essence_value e.
Proof. unfold Ledger.normalizeEvent. intros H. inv_ok H. by subst c. Qed.

Lemma apply_hydrated r rs :
  apply_event (Ledger.hydrate r) rs = apply_event (essence_event (essence_of (Ledger.columns r))) rs.
Proof. reflexivity. Qed.

Lemma essence_fact `{Sha256} projectId actor t f :
  essence_event (essence_value (event_of projectId actor t f)) = fact_event f.
Proof. reflexivity. Qed.

Definition apply_facts (facts : list fact) (rs : records) : result records := replay (fact_event <$> facts) rs.

Lemma replay_ext (l k : list value) :
  Forall2 (λ e e', ∀ rs, apply_event e rs = apply_event e' rs) l k → ∀ rs, replay l rs = replay k rs.
Proof.
  induction 1 as [|e e' l k He _ IH]; intros rs; [done|]. unfold replay in *. cbn [EventRegistry.fold_result].
  rewrite He. destruct (apply_event e' rs); [apply IH|done].
Qed.

Lemma replay_hydrated rows rs :
  replay (Ledger.hydrate <$> rows) rs =
    replay (essence_event <$> ((λ r, essence_of (Ledger.columns r)) <$> rows)) rs.
Proof.
  apply replay_ext. rewrite <- list_fmap_compose. apply Forall2_fmap_l, Forall2_fmap_r, Forall_Forall2_diag.
  apply Forall_true. intros r rs'. apply apply_hydrated.
Qed.

(** ** What an append of facts does *)

Lemma append_facts_effect `{Sha256} reg p expected actor i facts l v l' :
  Ledger.wf_db (Ledger.db l) →
  append_facts reg p expected actor i facts l = (Ok v, l') →
  let db := Ledger.db l in
  let db' := Ledger.db l' in
  let advanced := Ledger.selectVersion db (memory_stream p) = int_of expected ∧
    (∀ p', p' ≠ p → stream_events db' p' = stream_events db p') ∧
    ∃ rows, stream_events db' p = stream_events db p ++ rows ∧ ∀ rs, replay rows rs = apply_facts facts rs in
  Ledger.wf_db db' ∧ (db' = db ∨ advanced) ∧ (Ledger.selectVersion db (memory_stream p) = int_of expected → advanced).
Proof.
  intros Hwf Happ db db' advanced. unfold append_facts in Happ.
  destruct (Ledger.append_effect essence_of essence_value normalizeEvent_essence _ _ _ _ _ _ Hwf Happ)
    as (Hwf' & Hor & Hadv).
  cbn -[Ledger.selectVersion Ledger.stream_rows fmap] in Hor, Hadv. fold (memory_stream p) in Hor, Hadv.
  assert (Himp : Ledger.selectVersion db (memory_stream p) = int_of expected ∧
      (∀ s', s' ≠ memory_stream p → Ledger.stream_rows db' s' = Ledger.stream_rows db s') ∧
      (∃ added, Ledger.stream_rows db' (memory_stream p) = Ledger.stream_rows db (memory_stream p) ++ added ∧
         (λ r, essence_of (Ledger.columns r)) <$> added =
           essence_value <$> (event_of p actor (at_append i) <$> facts)) → advanced).
  { intros (Hv & Hothers & added & Hrows & Hcols). split_and!; [done| |].
    - intros p' Hne. unfold stream_events. rewrite Hothers; [done|]. by intros [=].
    - exists (Ledger.hydrate <$> added). split; [unfold stream_events; by rewrite Hrows, fmap_app|].
      intros rs. rewrite replay_hydrated, Hcols. unfold apply_facts. f_equal.
      rewrite <- !list_fmap_compose. apply list_fmap_ext. intros _ f _. apply essence_fact. }
  split_and!; [done| |].
  - destruct Hor as [E|Hor]; [by left|right]. by apply Himp.
  - intros Hv. by apply Himp, Hadv.
Qed.
