(* ===== verification/MemoryEntries.v ===== *)
(** * Entries of memory

    The normal form of an entry, as [normalizeEntry] establishes it, and that a column of
    the ledger keeps it. *)
From S2P Require Import Prelude JsValue CanonicalJson JsMap StrictJson Time OperationId MemoryPolicy MemoryStore MemoryEvents.
From S2P Require Ledger.

Section entries.
Context `{Sha256} (maxTtlSeconds : Z).

(** Who wrote an entry and how far it is trusted. *)
Definition provenance_ok (origin trust : string) : Prop :=
  origin ∈ ORIGINS ∧ trust ∈ TRUSTS ∧ (origin ≠ "operator" → trust = "untrusted").

Record normal (p : string) (e : value) : Prop := {
  normal_project : IDENTIFIER p = true;
  normal_id : ∃ id, get "memory_id" e = VStr id ∧ IDENTIFIER id = true;
  normal_scope : get "scope" e = VObj [("project_id", VStr p)];
  normal_content : ∃ c, get "content" e = VStr c ∧ blank c = false ∧ (String.length c ≤ MAX_CONTENT_BYTES)%nat;
  normal_authority : get "authority" e = VStr AUTHORITY;
  normal_origin : ∃ o t, get "origin" e = VStr o ∧ get "trust" e = VStr t ∧ provenance_ok o t;
  normal_classification : ∃ c, get "classification" e = VStr c ∧ c ∈ CLASSIFICATIONS;
  normal_ref : ∃ r, get "source_ref" e = VStr r ∧ SAFE_REFERENCE r = true;
  normal_digest : ∃ d, get "source_digest" e = VStr d ∧ SHA256_HEX d = true;
  normal_ttl : ∃ z, get "ttl_seconds" e = VNum (NInt z) ∧ (1 ≤ z ≤ maxTtlSeconds)%Z;
  normal_created : ∃ t, get "created_at" e = VStr (toISOString t);
  normal_policy : get "write_policy_ref" e = VUndef ∨ ∃ w, get "write_policy_ref" e = VStr w;
  normal_supersedes : get "supersedes" e = VUndef ∨ ∃ s, get "supersedes" e = VStr s ∧ IDENTIFIER s = true;
}.

Lemma requireIdentifier_ok v field u : requireIdentifier v field = Ok u → ∃ s, v = VStr s ∧ IDENTIFIER s = true.
Proof. unfold requireIdentifier. intros HI. inv_throw_if. bool_props. destruct v; try done. eauto. Qed.

Lemma one_of_ok set v : one_of set v = true → ∃ s, v = VStr s ∧ s ∈ set.
Proof. unfold one_of. intros [H1 H2]%andb_true_iff. destruct v; try done. exists s. split; [done|]. by apply includes_spec. Qed.

Lemma provenance_untrusted o t : o ∈ ORIGINS → t ∈ TRUSTS →
  one_of UNTRUSTED_ORIGINS (VStr o) && negb (bool_decide (VStr t = VStr "untrusted")) = false →
  provenance_ok o t.
Proof.
  intros Ho Ht HU. split_and!; [done..|]. intros Hne. apply andb_false_iff in HU as [HU|HU].
  - exfalso. unfold one_of in HU. cbn [is_string str_of andb] in HU.
    assert (E : existsb (String.eqb o) UNTRUSTED_ORIGINS = true); [|congruence].
    apply includes_spec. unfold UNTRUSTED_ORIGINS. apply list_filter_elem. split; [done|].
    by apply negb_true_iff, String.eqb_neq.
  - apply negb_false_iff, bool_decide_eq_true in HU. by injection HU.
Qed.

Lemma check_provenance_ok input u : check_provenance input = Ok u →
  (∃ o t, get "origin" input = VStr o ∧ get "trust" input = VStr t ∧ provenance_ok o t) ∧
  (∃ c, get "classification" input = VStr c ∧ c ∈ CLASSIFICATIONS) ∧
  ∃ r, get "source_ref" input = VStr r ∧ SAFE_REFERENCE r = true.
Proof.
  unfold check_provenance. intros HP. inv_ok HP. inv_throw_if. bool_props.
  repeat match goal with H : one_of _ _ = true |- _ => apply one_of_ok in H as (? & ? & ?) end.
  destruct (get "source_ref" input) as [| | | |r| |] eqn:Er; try done.
  split_and!; eauto.
  match goal with
  | Eo : get "origin" input = VStr ?o, Et : get "trust" input = VStr ?t, E : _ && _ = false |- _ =>
      rewrite Eo, Et in E; exists o, t; split_and!; [done..|by apply provenance_untrusted]
  end.
Qed.

Lemma check_content_ok input u : check_content input = Ok u →
  (∃ p, get "project_id" (get "scope" input) = VStr p ∧ IDENTIFIER p = true) ∧
  ∃ c, get "content" input = VStr c ∧ blank c = false ∧ (String.length c ≤ MAX_CONTENT_BYTES)%nat.
Proof.
  unfold check_content. intros HC. inv_ok HC. apply requireIdentifier_ok in Hok. inv_throw_if. bool_props.
  destruct (get "content" input) as [| | | |c| |]; try done. split; [done|]. exists c. by split_and!.
Qed.

Lemma ttl_ok v : negb (is_integer v) || (int_of v <? 1)%Z || (maxTtlSeconds <? int_of v)%Z = false →
  ∃ z, v = VNum (NInt z) ∧ (1 ≤ z ≤ maxTtlSeconds)%Z.
Proof.
  intros HT. bool_props. exists (int_of v).
  by destruct v as [| | |[z| | | |]| | |].
Qed.

Lemma undefined_or {A} v (u : A) (r : result A) (P : value → Prop) :
  (∀ a, r = Ok a → P v) → ∀ u', (if is_undefined v then Ok u else r) = Ok u' → v = VUndef ∨ P v.
Proof. intros HP u' HU. destruct v; cbn in *; eauto. Qed.

(** What [normalizeEntry] returns: the normal form of the fields it was given. *)
Lemma normalizeEntry_ok date_parse input e :
  normalizeEntry date_parse input maxTtlSeconds = Ok e →
  ∃ f p, e = VObj f ∧ NoDup f.*1 ∧ get "project_id" (get "scope" input) = VStr p ∧ IDENTIFIER p = true ∧ normal p e ∧
    Forall (λ k, get k e = get k input)
      ["memory_id"; "content"; "origin"; "trust"; "classification"; "source_ref"; "supersedes"; "write_policy_ref"] ∧
    get "source_digest" e = nullish_else (get "source_digest" input) (VStr (sha256Text (str_of (get "content" input)))).
Proof.
  unfold normalizeEntry. intros HN. inv_ok HN.
  repeat match goal with
  | H : check_content _ = Ok _ |- _ => apply check_content_ok in H as ((p & Hp & Hpid) & Hcontent)
  | H : check_provenance _ = Ok _ |- _ => apply check_provenance_ok in H as (Horigin & Hclass & Href)
  | H : requireIdentifier (get "memory_id" _) _ = Ok _ |- _ => apply requireIdentifier_ok in H as Hid
  | H : throw_if (_ || _ || _) _ = Ok _ |- _ => apply throw_if_ok, ttl_ok in H as Httl
  | H : canonicalTimestamp _ ?v _ = Ok _ |- _ =>
      destruct v; [done..| |done|done]; cbn [canonicalTimestamp] in H;
      destruct (date_parse _); [injection H as <-|done]
  end.
  set (d := nullish_else _ _) in *.
  assert (Hd : ∃ s, d = VStr s ∧ SHA256_HEX s = true).
  { inv_throw_if. bool_props. destruct d; try done. eauto. }
  assert (Hw : get "write_policy_ref" input = VUndef ∨ ∃ w, get "write_policy_ref" input = VStr w).
  { inv_throw_if. destruct (get "write_policy_ref" input); try done; eauto. }
  assert (Hs : get "supersedes" input = VUndef ∨ ∃ s, get "supersedes" input = VStr s ∧ IDENTIFIER s = true).
  { eapply (undefined_or _ _ _ (λ v, ∃ s, v = VStr s ∧ IDENTIFIER s = true)); [|exact Hok8]. intros u. apply requireIdentifier_ok. }
  eexists _, p. split; [symmetry; exact HN|]. clearbody d.
  destruct Hw as [Ew|[w Ew]], Hs as [Es|(s' & Es & Hs')]; rewrite Ew, Es, Hp in *; cbn [is_undefined app] in *; subst e;
    (split_and!; [apply (bool_decide_unpack _); vm_compute; exact I|done|done|split; cbn; eauto| |done]);
    repeat (constructor; [cbn; congruence|]); constructor.
Qed.

(** ** Stored entries *)

Lemma normal_stored p f : NoDup f.*1 → normal p (VObj f) → normal p (Ledger.json_column (VObj f)).
Proof.
  intros HN [Hpr (?&Hi&?) Hs (?&Hc&?&?) Ha (?&?&Ho&Ht&?) (?&Hcl&?) (?&Hr&?) (?&Hd&?) (?&Htt&?) (?&Hcr) Hw Hsu].
  split; [done|..]; rewrite !get_json_column by done; rewrite ?Hi, ?Hs, ?Hc, ?Ha, ?Ho, ?Ht, ?Hcl, ?Hr, ?Hd, ?Htt, ?Hcr; eauto 8.
  - destruct Hw as [->|[? ->]]; eauto.
  - destruct Hsu as [->|(?&->&?)]; eauto.
Qed.

(** The normal form, sealed by the digest of its content and the policy that admitted it. *)
Record stored_entry (p : string) (e : value) : Prop := {
  stored_normal : normal p e;
  stored_digest : get "source_digest" e = VStr (sha256Text (str_of (get "content" e)));
  stored_policy : ∃ w, get "write_policy_ref" e = VStr w;
}.

Lemma stored_entry_column p f : NoDup f.*1 → stored_entry p (VObj f) → stored_entry p (Ledger.json_column (VObj f)).
Proof.
  intros HN [Hn Hd [w Hw]]. split; [by apply normal_stored|..]; rewrite !get_json_column by done.
  - destruct (normal_content _ _ Hn) as (c & Hc & _). by rewrite Hd, Hc.
  - rewrite Hw. by exists w.
Qed.

Lemma put_keys_NoDup k v f : NoDup f.*1 → NoDup (put k v f).*1.
Proof.
  induction f as [|[k' x] f IH]; intros HN; [apply NoDup_singleton|]. rewrite fmap_cons in HN. cbn in HN.
  apply NoDup_cons in HN as [Hk HN]. cbn [put]. case_if; rewrite fmap_cons; cbn; constructor; auto.
  bool_props. intros [[j y] [Ej Hy]]%list_elem_of_fmap. cbn in Ej. subst j.
  apply elem_of_put in Hy as [Hy|[_ Hy]]; [|by cbn in Hy].
  apply Hk. by apply (list_elem_of_fmap_2 fst) in Hy.
Qed.

Lemma normal_admitted p f w : NoDup f.*1 → normal p (VObj f) →
  normal p (VObj (put "write_policy_ref" (VStr w) f)) ∧
  (∀ k, k ≠ "write_policy_ref" → get k (VObj (put "write_policy_ref" (VStr w) f)) = get k (VObj f)) ∧
  get "write_policy_ref" (VObj (put "write_policy_ref" (VStr w) f)) = VStr w.
Proof.
  intros HN Hn. assert (Hne : ∀ k, k ≠ "write_policy_ref" →
      get k (VObj (put "write_policy_ref" (VStr w) f)) = get k (VObj f)).
  { intros k Hk. cbn [get]. by rewrite assoc_put_ne. }
  assert (He : get "write_policy_ref" (VObj (put "write_policy_ref" (VStr w) f)) = VStr w).
  { cbn [get]. by rewrite assoc_put_eq. }
  split_and!; [|done..]. destruct Hn. split; rewrite ?Hne by done; eauto.
Qed.

(** ** The entries of [write] and [promote] *)

Lemma admitWrite_ref le rules approved mode ref :
  admitWrite le rules approved mode = Ok ref → ∃ id, ref = VStr ("rule:" +:+ id).
Proof.
  unfold admitWrite. intros HA. apply bind_ok in HA as (o & _ & HA).
  destruct (PolicyLattice.deciding_rule_id o); [|done]. case_if_in HA; [|done]. injection HA as <-. eauto.
Qed.

Lemma normalizeActor_ok actor scan v : normalizeActor actor scan = Ok v → get "kind" v = get "kind" actor.
Proof. unfold normalizeActor. intros HA. inv_ok HA. by subst v. Qed.

(** An admitted entry: normal, sealed, not under the reserved suffix, admitted by a rule;
    the origin [operator] needs an operator. *)
Record admitted (p : string) (e actor : value) : Prop := {
  admitted_fields : ∃ f, e = VObj f ∧ NoDup f.*1;
  admitted_stored : stored_entry p e;
  admitted_suffix : ends_with PROMOTED_SUFFIX (str_of (get "memory_id" e)) = false;
  admitted_rule : ∃ id, get "write_policy_ref" e = VStr ("rule:" +:+ id);
  admitted_actor : get "origin" e = VStr "operator" → get "kind" actor = VStr "operator";
}.

Lemma admit_ok le date_parse scan input h t e actor :
  accept_entry le date_parse scan maxTtlSeconds input h t = Ok (e, actor) → admitted (project_of e) e actor.
Proof.
  unfold accept_entry. intros HA. inv_ok HA. apply normalizeEntry_ok in Hok0 as (f & p & -> & HN & _ & Hp & Hn & _).
  apply admitWrite_ref in Hok5 as [id ->]. inv_throw_if. subst e actor.
  destruct (normal_admitted p f ("rule:" +:+ id) HN Hn) as (Hn' & Hne & He). bool_props.
  assert (Hpr : project_of (with_field "write_policy_ref" (VStr ("rule:" +:+ id)) (VObj f)) = p).
  { unfold project_of. cbn [with_field]. by rewrite (normal_scope _ _ Hn'). }
  rewrite Hpr. cbn [with_field] in *. split; rewrite ?He, ?Hne by done; eauto.
  - eexists. split; [done|]. by apply put_keys_NoDup.
  - split; [done| |eauto]. by rewrite !Hne.
  - intros Ho. rewrite Ho in *. cbn in *. bool_props.
    match goal with E : _ && _ = false |- _ => apply andb_false_iff in E as [E|E]; bool_props end; done.
Qed.

(** What [write] accepts is what it was given: the fields of the input as they are, with the rule
    of the policy that admits it, and free of credentials. *)
Lemma accept_agrees le date_parse scan input h t e actor :
  accept_entry le date_parse scan maxTtlSeconds input h t = Ok (e, actor) →
  Forall (λ k, get k e = get k input) ["memory_id"; "content"; "origin"; "trust"; "classification"; "source_ref"; "supersedes"] ∧
  admitWrite le (rules h) (approved h) (execution_mode h) = Ok (get "write_policy_ref" e) ∧
  assertNoCredential e scan = Ok ().
Proof.
  unfold accept_entry. intros HA. inv_ok HA.
  assert (Hin : ∀ k, k ≠ "created_at" → get k (with_field "created_at" (VStr (toISOString t)) input) = get k input).
  { intros k Hk. destruct input; try done. cbn. by rewrite assoc_put_ne. }
  apply normalizeEntry_ok in Hok0 as (f & p & -> & HN & _ & _ & Hn & Hf & _).
  pose proof Hok5 as Hadm. apply admitWrite_ref in Hok5 as [id ->]. subst e actor.
  destruct (normal_admitted p f ("rule:" +:+ id) HN Hn) as (_ & Hne & He). cbn [with_field] in *. rewrite He.
  split_and!; [|done|by destruct a6]. rewrite !Forall_cons in Hf |- *. rewrite !Hin in Hf by done.
  rewrite !Hne by done. naive_solver.
Qed.

(** A promoted entry: the content of its original, operator and trusted, superseding it. *)
Record promoted_entry (p memoryId content : string) (e : value) : Prop := {
  promoted_fields : ∃ f, e = VObj f ∧ NoDup f.*1;
  promoted_stored : stored_entry p e;
  promoted_shape : isPromotedEntry e p = true;
  promoted_id_of : get "memory_id" e = VStr (promoted_id memoryId);
  promoted_content : get "content" e = VStr content;
  promoted_from : get "supersedes" e = VStr memoryId;
}.

Lemma promoted_ok date_parse p memoryId original content now e :
  get "content" original = VStr content →
  normalizeEntry date_parse (promoted_input date_parse p memoryId (sha256Text content) original now) maxTtlSeconds = Ok e →
  promoted_entry p memoryId content e.
Proof.
  intros Hc HN. apply normalizeEntry_ok in HN as (f & q & -> & HN & Hq & _ & Hn & HF & Hd).
  cbn in Hq. injection Hq as <-. repeat (apply Forall_cons in HF as [? HF]).
  repeat match goal with E : get ?k (VObj f) = get ?k (promoted_input _ _ _ _ _ _) |- _ =>
    cbn -[promotedSourceRef sha256Text promoted_id] in E; change (default VUndef (assoc k f)) with (get k (VObj f)) in E end.
  cbn -[promotedSourceRef sha256Text promoted_id] in Hd. change (default VUndef (assoc "source_digest" f)) with (get "source_digest" (VObj f)) in Hd.
  rewrite Hc in *. split; eauto.
  - split; [done| |eauto]. by rewrite Hd, H1.
  - unfold isPromotedEntry. rewrite H1, H2, H3, H5, H6, H7, Hd. cbn [is_string str_of].
    by rewrite !bool_decide_eq_true_2.
Qed.
End entries.
