(* ===== verification/MemoryRecords.v ===== *)
(** * What the records of a project promise

    Every record holds a stored entry under its own identifier; a replaced entry names the
    one that replaced it; a deleted or promoted one was authorized by an approval that has
    been consumed for exactly that operation.  The facts the store appends keep this, and
    records only evolve: entries are never edited or removed, statuses only advance. *)
From S2P Require Import Prelude JsValue CanonicalJson JsMap StrictJson Time OperationId MemoryPolicy MemoryStore.
From S2P Require Import MemoryEvents MemoryEntries.
From S2P Require Ledger Approvals EventRegistry.

(** ** Evolution *)

(** The order statuses advance in. *)
Definition evolves (a b : status) : bool :=
  match a, b with
  | active, _ | _, deleted => true
  | superseded, superseded | expired, expired => true
  | _, _ => false
  end.
Lemma evolves_refl a : evolves a a = true. Proof. by destruct a. Qed.
Lemma evolves_trans a b c : evolves a b = true → evolves b c = true → evolves a c = true.
Proof. by destruct a, b, c. Qed.

(** [r'] is a later state of the record [r]. *)
Record later (r r' : record) : Prop := {
  later_entry : entry r' = entry r;
  later_tokens : tokens r' = tokens r;
  later_promotion : promotion r' = promotion r;
  later_operation : record_operation_id r' = record_operation_id r;
  later_status : evolves (record_status r) (record_status r') = true;
}.
Definition grows (rs rs' : records) : Prop :=
  ∀ id r, assoc id rs = Some r → ∃ r', assoc id rs' = Some r' ∧ later r r'.

Lemma later_refl r : later r r. Proof. split; try done. apply evolves_refl. Qed.
Lemma later_trans r s t : later r s → later s t → later r t.
Proof. intros [] []. split; try congruence. by eapply evolves_trans. Qed.
#[export] Instance grows_preorder : PreOrder grows.
Proof.
  split.
  - intros rs id r Hr. exists r. split; [done|apply later_refl].
  - intros rs ss ts H1 H2 id r Hr. destruct (H1 _ _ Hr) as (s & Hs & L1).
    destruct (H2 _ _ Hs) as (t & Ht & L2). exists t. split; [done|by eapply later_trans].
Qed.

(** ** Approvals *)

(** An approval has been consumed for this operation. *)
Definition consumed (s : Approvals.store) (operationId : string) : Prop :=
  ∃ u, u ∈ Approvals.execution_approval_uses s ∧ Approvals.use_operation_id u = operationId.
(** The uses of [s] are kept. *)
Definition spends (s s' : Approvals.store) : Prop :=
  Approvals.execution_approval_uses s ⊆ Approvals.execution_approval_uses s'.

#[export] Instance spends_preorder : PreOrder spends.
Proof. split; unfold spends; [intros s; done|intros s t u; set_solver]. Qed.
Lemma consumed_spends s s' op : spends s s' → consumed s op → consumed s' op.
Proof. intros Hs (u & Hu & E). exists u. split; [by apply Hs|done]. Qed.

Section records.
Context `{Sha256} (maxTtlSeconds : Z).

(** ** Records *)

Definition digest_of (e : value) : string := sha256Text (str_of (get "content" e)).

(** The facts that make a promotion provable. *)
Record promotion_facts_ok (s : Approvals.store) (p : string) (rs : records) (id : string) (r : record) : Prop := {
  promotion_shape : isPromotedEntry (entry r) p = true;
  promotion_original : ∃ original ro, id = promoted_id original ∧ get "supersedes" (entry r) = VStr original ∧
    assoc original rs = Some ro ∧ get "content" (entry ro) = get "content" (entry r) ∧
    get "promoted_from" (promotion r) = VStr original ∧
    get "content_sha256" (promotion r) = VStr (digest_of (entry r)) ∧
    record_operation_id r = VStr (promote_operation_id p original (digest_of (entry r))) ∧
    ∃ u, u ∈ Approvals.execution_approval_uses s ∧
      get "approval_id" (promotion r) = VStr (Approvals.use_approval_id u) ∧
      Approvals.use_operation_id u = promote_operation_id p original (digest_of (entry r));
}.

Record record_ok (s : Approvals.store) (p : string) (rs : records) (id : string) (r : record) : Prop := {
  record_entry : stored_entry maxTtlSeconds p (entry r);
  record_id : get "memory_id" (entry r) = VStr id;
  record_tokens : tokens r = tokenize (str_of (get "content" (entry r)));
  record_policy : ends_with PROMOTED_SUFFIX id = false → ∃ rule, get "write_policy_ref" (entry r) = VStr ("rule:" +:+ rule);
  record_promotion : ends_with PROMOTED_SUFFIX id = true → promotion_facts_ok s p rs id r;
  record_superseded : record_status r = superseded →
    ∃ by_ rb, superseded_by r = VStr by_ ∧ assoc by_ rs = Some rb ∧ get "supersedes" (entry rb) = VStr id;
  record_deleted : record_status r = deleted → consumed s (delete_operation_id p id);
}.

Record records_ok (s : Approvals.store) (p : string) (rs : records) : Prop := {
  records_keys : NoDup rs.*1;
  records_each id r : assoc id rs = Some r → record_ok s p rs id r;
}.

Lemma records_ok_nil s p : records_ok s p [].
Proof. split; [constructor|done]. Qed.

Lemma record_ok_mono s s' p rs rs' id r :
  spends s s' → grows rs rs' → record_ok s p rs id r → record_ok s' p rs' id r.
Proof.
  intros Hs Hg [He Hi Ht Hw Hp Hsup Hd]. split; try done.
  - intros Hsuf. destruct (Hp Hsuf) as [Hsh (o & ro & E1 & E2 & E3 & E4 & E5 & E6 & E7 & u & Hu & E8)].
    split; [done|]. destruct (Hg _ _ E3) as (ro' & Hro' & L). exists o, ro'. split_and!; try done.
    + by rewrite (later_entry _ _ L).
    + exists u. split; [by apply Hs|done].
  - intros Hst. destruct (Hsup Hst) as (b & rb & E1 & E2 & E3). destruct (Hg _ _ E2) as (rb' & Hrb & L).
    exists b, rb'. split_and!; try done. by rewrite (later_entry _ _ L).
  - intros Hst. eapply consumed_spends; [exact Hs|by apply Hd].
Qed.

Lemma records_ok_spends s s' p rs : spends s s' → records_ok s p rs → records_ok s' p rs.
Proof. intros Hs [HN HE]. split; [done|]. intros id r Hr. eapply record_ok_mono; [done|reflexivity|by apply HE]. Qed.

Lemma grows_upsert id r rs :
  (∀ r0, assoc id rs = Some r0 → later r0 r) → grows rs (upsert id r rs).
Proof.
  intros Hl id' r' Hr. destruct (decide (id' = id)) as [->|Hne].
  - exists r. split; [apply assoc_upsert_eq|by apply Hl].
  - exists r'. split; [by rewrite assoc_upsert_ne|apply later_refl].
Qed.

(** Storing a record that is later than the one it replaces, if any. *)
Lemma records_ok_upsert s s' p rs id r :
  spends s s' → records_ok s p rs → (∀ r0, assoc id rs = Some r0 → later r0 r) →
  record_ok s' p (upsert id r rs) id r → records_ok s' p (upsert id r rs) ∧ grows rs (upsert id r rs).
Proof.
  intros Hs [HN HE] Hl Hr. pose proof (grows_upsert _ _ _ Hl) as Hg. split; [|done].
  split; [by apply NoDup_upsert|]. intros id' r' Hr'. destruct (decide (id' = id)) as [->|Hne].
  - rewrite assoc_upsert_eq in Hr'. by injection Hr' as <-.
  - rewrite assoc_upsert_ne in Hr' by done. eapply record_ok_mono; [done..|by apply HE].
Qed.

(** ** What a fact does *)

Definition payload_of (f : fact) : list (string * value) :=
  [("contract", VStr CONTRACT); ("memory_id", VStr (fact_memory f))] ++ fact_payload f.

Lemma get_fact_payload f k : NoDup (payload_of f).*1 →
  get k (get "payload" (fact_event f)) = Ledger.json_column (get k (VObj (payload_of f))).
Proof. intros HN. unfold fact_event. cbn [get assoc String.eqb Ascii.eqb Bool.eqb default]. by apply get_json_column. Qed.

Lemma fact_memory_id f : NoDup (payload_of f).*1 →
  str_of (get "memory_id" (get "payload" (fact_event f))) = fact_memory f.
Proof. intros HN. by rewrite get_fact_payload. Qed.

Lemma transition_fact f from to by_ rs r :
  NoDup (payload_of f).*1 → assoc (fact_memory f) rs = Some r → record_status r ∈ from →
  transition (fact_event f) from to by_ rs =
    Ok (upsert (fact_memory f) (MkRecord (entry r) to (tokens r) (promotion r) (record_operation_id r)
                                  (default (superseded_by r) by_)) rs).
Proof.
  intros HN Hr Hs. unfold transition. rewrite fact_memory_id, Hr by done. by rewrite bool_decide_eq_true_2.
Qed.

(** A record moved to another status. *)
Definition moved (r : record) (to : status) (by_ : value) : record :=
  MkRecord (entry r) to (tokens r) (promotion r) (record_operation_id r) by_.

Lemma moved_later r to by_ : evolves (record_status r) to = true → later r (moved r to by_).
Proof. by split. Qed.

Lemma moved_ok s s' p rs id r to by_ :
  spends s s' → records_ok s p rs → assoc id rs = Some r → evolves (record_status r) to = true →
  (to = superseded → ∃ b rb, by_ = VStr b ∧ assoc b rs = Some rb ∧ get "supersedes" (entry rb) = VStr id) →
  (to = deleted → consumed s' (delete_operation_id p id)) →
  records_ok s' p (upsert id (moved r to by_) rs) ∧ grows rs (upsert id (moved r to by_) rs).
Proof.
  intros Hs Hok Hr He Hsup Hdel.
  assert (Hl : ∀ r0, assoc id rs = Some r0 → later r0 (moved r to by_)).
  { intros r0 E. rewrite Hr in E. injection E as <-. by apply moved_later. }
  apply (records_ok_upsert s s'); [done..|]. pose proof (grows_upsert _ _ _ Hl) as Hg.
  destruct (record_ok_mono _ _ _ _ _ _ _ Hs Hg (records_each _ _ _ Hok _ _ Hr)) as [H1 H2 H3 H4 H5 H6 H7].
  split; try done.
  - intros Hsuf. destruct (H5 Hsuf) as [Ha (o & ro & E1 & E2 & E3 & E4)]. split; [done|by exists o, ro].
  - intros E. destruct (Hsup E) as (b & rb & -> & Hb & E'). destruct (Hg _ _ Hb) as (rb' & Hrb' & L).
    exists b, rb'. split_and!; try done. by rewrite (later_entry _ _ L).
Qed.

(** *** Expiry and deletion *)

Definition expired_fact (at_ : value) (id : string) : fact := MkFact EXPIRED id [("expired_at", at_)] VNull.
Definition deleted_fact (reason approval : value) (op id : string) : fact :=
  MkFact DELETED id [("reason", reason); ("approval_id", approval)] (VStr op).
Definition superseded_fact (by_ : string) (op : value) (id : string) : fact :=
  MkFact SUPERSEDED id [("superseded_by", VStr by_)] op.

Lemma apply_expired at_ id rs r : assoc id rs = Some r → record_status r = active →
  apply_event (fact_event (expired_fact at_ id)) rs = Ok (upsert id (moved r expired (superseded_by r)) rs).
Proof.
  intros Hr Hs. change (apply_event (fact_event (expired_fact at_ id)) rs) with
    (transition (fact_event (expired_fact at_ id)) [active] expired None rs).
  rewrite (transition_fact _ _ _ _ _ r); [done| |done|rewrite Hs; by left].
  apply (bool_decide_unpack _). vm_compute. exact I.
Qed.

Lemma apply_deleted reason approval op id rs r : assoc id rs = Some r → record_status r ≠ deleted →
  apply_event (fact_event (deleted_fact reason approval op id)) rs = Ok (upsert id (moved r deleted (superseded_by r)) rs).
Proof.
  intros Hr Hs. change (apply_event (fact_event (deleted_fact reason approval op id)) rs) with
    (transition (fact_event (deleted_fact reason approval op id)) [active; superseded; expired] deleted None rs).
  rewrite (transition_fact _ _ _ _ _ r); [done| |done|destruct (record_status r); set_solver].
  apply (bool_decide_unpack _). vm_compute. exact I.
Qed.

Lemma apply_superseded by_ op id rs r : assoc id rs = Some r → record_status r = active →
  apply_event (fact_event (superseded_fact by_ op id)) rs = Ok (upsert id (moved r superseded (VStr by_)) rs).
Proof.
  intros Hr Hs. set (f := superseded_fact by_ op id).
  assert (HN : NoDup (payload_of f).*1) by (apply (bool_decide_unpack _); vm_compute; exact I).
  change (apply_event (fact_event f) rs) with
    (transition (fact_event f) [active] superseded (Some (get "superseded_by" (get "payload" (fact_event f)))) rs).
  rewrite (transition_fact _ _ _ _ _ r); [|done|done|rewrite Hs; by left].
  by rewrite get_fact_payload.
Qed.

(** *** Writing *)

Definition written_fact (id : string) (e : value) (extra : list (string * value)) (op : value) : fact :=
  MkFact WRITTEN id (("entry", e) :: extra) op.
Definition written_record (f extra : list (string * value)) (op : value) : record :=
  let column := Ledger.json_column (VObj f) in
  MkRecord column active (tokenize (str_of (get "content" column)))
    (nullish_else (Ledger.json_column (get "promotion" (VObj extra))) VNull)
    (nullish_else (Ledger.opt_value (Ledger.optional_string op)) VNull) VUndef.

Lemma apply_written_fact p id f extra op rs :
  NoDup f.*1 → NoDup ("contract" :: "memory_id" :: "entry" :: extra.*1) →
  normal maxTtlSeconds p (VObj f) → get "memory_id" (VObj f) = VStr id →
  apply_event (fact_event (written_fact id (VObj f) extra op)) rs = Ok (upsert id (written_record f extra op) rs).
Proof.
  intros HN HE Hn Hid. set (w := written_fact id (VObj f) extra op).
  change (apply_event (fact_event w) rs) with (apply_written (fact_event w) rs).
  unfold apply_written. rewrite !get_fact_payload by exact HE.
  change (get "entry" (VObj (payload_of w))) with (VObj f).
  change (get "promotion" (VObj (payload_of w))) with (get "promotion" (VObj extra)).
  pose proof (normal_stored _ _ _ HN Hn) as Hst. destruct (normal_content _ _ _ Hst) as (c & Hc & _).
  destruct (json_column_object f HN) as (g & Eg & _). rewrite (get_json_column "memory_id"), Hid, Hc by done.
  unfold written_record. rewrite Eg in *. cbn [is_undefined is_null orb throw_if mbind result_bind is_string negb]. by rewrite Hc.
Qed.

(** ** What the operations append *)

Lemma apply_facts_cons f fs rs : apply_facts (f :: fs) rs = rs' ← apply_event (fact_event f) rs; apply_facts fs rs'.
Proof. reflexivity. Qed.

(** What an entry replaces is no longer active. *)
Definition replaces (rs : records) (e : value) : Prop :=
  ∀ old, get "supersedes" e = VStr old → ∃ ro, assoc old rs = Some ro ∧ record_status ro ≠ active.
Definition linked (rs : records) : Prop := ∀ id r, assoc id rs = Some r → replaces rs (entry r).

Lemma replaces_grows rs rs' e : grows rs rs' → replaces rs e → replaces rs' e.
Proof.
  intros Hg Hr old Hold. destruct (Hr _ Hold) as (ro & Ho & Hs). destruct (Hg _ _ Ho) as (ro' & Ho' & L).
  exists ro'. split; [done|]. pose proof (later_status _ _ L). by destruct (record_status ro), (record_status ro').
Qed.

Lemma linked_grows rs rs' : linked rs → grows rs rs' →
  (∀ id r', assoc id rs' = Some r' → is_Some (assoc id rs) ∨ replaces rs' (entry r')) → linked rs'.
Proof.
  intros Hl Hg Hnew id r' Hr'. destruct (Hnew _ _ Hr') as [[r Hr]|?]; [|done].
  destruct (Hg _ _ Hr) as (r1 & Hr1 & L). rewrite Hr' in Hr1. injection Hr1 as <-.
  rewrite (later_entry _ _ L). eapply replaces_grows; [done|by eapply Hl].
Qed.

Lemma is_Some_upsert id k (r : record) rs : is_Some (assoc id (upsert k r rs)) → id = k ∨ is_Some (assoc id rs).
Proof. destruct (decide (id = k)) as [->|Hne]; [by left|]. rewrite assoc_upsert_ne by done. by right. Qed.

Lemma linked_moved rs id r to by_ : linked rs → assoc id rs = Some r →
  grows rs (upsert id (moved r to by_) rs) → linked (upsert id (moved r to by_) rs).
Proof.
  intros Hl Hr Hg. eapply linked_grows; [exact Hl|exact Hg|]. intros id' r' Hr'. left.
  destruct (is_Some_upsert id' id (moved r to by_) rs) as [->|?]; eauto.
Qed.

(** Writing an entry and replacing the one it supersedes. *)
Lemma linked_replaced rs id r old ro by_ :
  linked rs → assoc id rs = None → assoc old rs = Some ro → old ≠ id →
  get "supersedes" (entry r) = VStr old → record_status ro = active →
  linked (upsert old (moved ro superseded by_) (upsert id r rs)).
Proof.
  intros Hl Hnone Ho Hne He Hact.
  assert (Hg : grows rs (upsert old (moved ro superseded by_) (upsert id r rs))).
  { transitivity (upsert id r rs); apply grows_upsert; [by rewrite Hnone|].
    rewrite assoc_upsert_ne, Ho by done. intros r0 [= <-]. apply moved_later. by rewrite Hact. }
  eapply linked_grows; [exact Hl|exact Hg|]. intros id' r' Hr'.
  destruct (decide (id' = old)) as [->|Hne']; [left; eauto|]. rewrite assoc_upsert_ne in Hr' by done.
  destruct (decide (id' = id)) as [->|?]; [|rewrite assoc_upsert_ne in Hr' by done; left; eauto].
  rewrite assoc_upsert_eq in Hr'. injection Hr' as <-. right. intros o. rewrite He. intros [= <-].
  exists (moved ro superseded by_). by rewrite assoc_upsert_eq.
Qed.

(** The facts [fs] turn the records of [p] into records that are later and well formed. *)
Record advances (s' : Approvals.store) (p : string) (fs : list fact) (rs rs' : records) : Prop := {
  advances_apply : apply_facts fs rs = Ok rs';
  advances_ok : records_ok s' p rs';
  advances_linked : linked rs';
  advances_grows : grows rs rs';
}.

(** The record of an entry [write] has admitted. *)
Lemma written_record_ok s p f actor id rs :
  admitted maxTtlSeconds p (VObj f) actor → NoDup f.*1 → get "memory_id" (VObj f) = VStr id →
  record_ok s p rs id (written_record f [] VNull).
Proof.
  intros [_ Hst Hsuf [rule Hrule] _] HN Hid. split; cbn [entry record_status tokens promotion record_operation_id written_record]; try done.
  - by apply stored_entry_column.
  - by rewrite get_json_column, Hid.
  - intros _. exists rule. by rewrite get_json_column, Hrule.
  - intros Hs. rewrite Hid in Hsuf. cbn in Hsuf. congruence.
Qed.

Lemma write_facts_advance s p e actor rs fs :
  records_ok s p rs → linked rs → admitted maxTtlSeconds p e actor → write_facts e rs = Ok fs →
  ∃ id rs' r, get "memory_id" e = VStr id ∧ assoc id rs = None ∧ advances s p fs rs rs' ∧
    assoc id rs' = Some r ∧ record_status r = active ∧ entry r = Ledger.json_column e.
Proof.
  intros Hok Hl Hadm Hw. pose proof Hadm as [(f & -> & HN) Hst _ _ _].
  pose proof (stored_normal _ _ _ Hst) as Hn. destruct (normal_id _ _ _ Hn) as (id & Hid & _).
  unfold write_facts in Hw. rewrite Hid in Hw. cbn [str_of] in Hw. apply bind_ok in Hw as (u & Hnew & Hw).
  apply throw_if_ok, bool_decide_eq_false in Hnew.
  assert (Hnone : assoc id rs = None) by (destruct (assoc id rs); [exfalso; eauto|done]).
  set (r := written_record f [] VNull).
  destruct (records_ok_upsert s s p rs id r) as [Hok1 Hg1];
    [done|done|by rewrite Hnone|by eapply written_record_ok|].
  pose proof (apply_written_fact p id f [] VNull rs HN
    ltac:(apply (bool_decide_unpack _); vm_compute; exact I) Hn Hid) as Happ.
  case_if_in Hw.
  - injection Hw as <-. exists id, (upsert id r rs), r. split_and!; try done; [|apply assoc_upsert_eq].
    assert (Hund : get "supersedes" (VObj f) = VUndef) by (by destruct (get "supersedes" (VObj f))).
    split; [|done| |done].
    + rewrite apply_facts_cons. change (MkFact _ _ _ _) with (written_fact id (VObj f) [] VNull). by rewrite Happ.
    + eapply linked_grows; [exact Hl|done|]. intros id' r' Hr'.
      destruct (is_Some_upsert id' id r rs) as [->|?]; [by exists r'| |by left]. right.
      rewrite assoc_upsert_eq in Hr'. injection Hr' as <-. intros old. unfold r, written_record. cbn [entry].
      by rewrite get_json_column, Hund.
  - destruct (normal_supersedes _ _ _ Hn) as [E|(old & Eold & _)]; [by rewrite E in *|].
    rewrite Eold in Hw. cbn [str_of] in Hw. apply bind_ok in Hw as (u' & Hold & Hw).
    apply throw_if_ok in Hold. bool_props. injection Hw as <-.
    unfold status_at in Hold. destruct (assoc old rs) as [ro|] eqn:Ero; [|done]. cbn in Hold. injection Hold as Hact.
    assert (Hne : old ≠ id) by (intros ->; congruence).
    assert (Ero1 : assoc old (upsert id r rs) = Some ro) by (by rewrite assoc_upsert_ne).
    destruct (moved_ok s s p (upsert id r rs) old ro superseded (VStr id)) as [Hok2 Hg2];
      [done|done|done|by rewrite Hact| |done|].
    { intros _. exists id, r. split_and!; [done|apply assoc_upsert_eq|].
      unfold r, written_record. cbn [entry]. by rewrite get_json_column, Eold. }
    exists id, (upsert old (moved ro superseded (VStr id)) (upsert id r rs)), r.
    split_and!; try done; [|by rewrite assoc_upsert_ne, assoc_upsert_eq].
    split; [|done| |by etrans].
    + rewrite apply_facts_cons. change (MkFact WRITTEN _ _ _) with (written_fact id (VObj f) [] VNull).
      rewrite Happ. cbn [mbind result_bind]. change (MkFact SUPERSEDED _ _ _) with (superseded_fact id VNull old).
      rewrite apply_facts_cons. by rewrite (apply_superseded _ _ _ _ ro).
    + eapply linked_replaced; [done..| |exact Hact].
      unfold r, written_record. cbn [entry]. by rewrite get_json_column, Eold.
Qed.

Lemma expiry_advance s p at_ ids rs :
  records_ok s p rs → linked rs → NoDup ids → (∀ id, id ∈ ids → ∃ r, assoc id rs = Some r ∧ record_status r = active) →
  ∃ rs', advances s p (expired_fact at_ <$> ids) rs rs' ∧
    (∀ id, id ∈ ids → status_at id rs' = Some expired) ∧ (∀ id, id ∉ ids → assoc id rs' = assoc id rs).
Proof.
  revert rs. induction ids as [|id ids IH]; intros rs Hok Hl HN Hids.
  - exists rs. split_and!; [done| |done]. by intros id ?%not_elem_of_nil.
  - apply NoDup_cons in HN as [Hid HN]. destruct (Hids id ltac:(by left)) as (r & Hr & Hact).
    destruct (moved_ok s s p rs id r expired (superseded_by r)) as [Hok1 Hg1]; [done|done|done|by rewrite Hact|done..|].
    destruct (IH (upsert id (moved r expired (superseded_by r)) rs)) as (rs' & [Happ Hok' Hl' Hg'] & Hexp & Hsame);
      [done|by apply linked_moved|done| |].
    { intros id' Hin. destruct (Hids id' ltac:(by right)) as (r' & Hr' & Ha'). exists r'.
      rewrite assoc_upsert_ne by (by intros ->). done. }
    exists rs'. split_and!.
    + split; [|done|done|by etrans]. rewrite fmap_cons, apply_facts_cons.
      by rewrite (apply_expired _ _ _ r).
    + intros id' [->|Hin]%elem_of_cons; [|by apply Hexp].
      unfold status_at. by rewrite (Hsame _ Hid), assoc_upsert_eq.
    + intros id' [Hne Hin]%not_elem_of_cons. by rewrite Hsame, assoc_upsert_ne.
Qed.

Lemma deletion_advance s s' p reason approval id rs r :
  records_ok s p rs → linked rs → spends s s' → consumed s' (delete_operation_id p id) →
  assoc id rs = Some r → record_status r ≠ deleted →
  advances s' p [deleted_fact reason approval (delete_operation_id p id) id] rs (upsert id (moved r deleted (superseded_by r)) rs).
Proof.
  intros Hok Hl Hs Hc Hr Hst. destruct (moved_ok s s' p rs id r deleted (superseded_by r)) as [Hok' Hg]; try done.
  { by destruct (record_status r). }
  split; [|done|by apply linked_moved|done]. rewrite apply_facts_cons. by rewrite (apply_deleted _ _ _ _ _ r).
Qed.

(** *** Promotion *)

Lemma append_same_length a b c d : a +:+ c = b +:+ d → String.length c = String.length d → a = b ∧ c = d.
Proof.
  revert b. induction a as [|x a IH]; intros [|y b] E Hl; [done| | |].
  - exfalso. apply (f_equal String.length) in E. rewrite !length_app_text in E. cbn in E. lia.
  - exfalso. apply (f_equal String.length) in E. rewrite !length_app_text in E. cbn in E. lia.
  - cbn in E. injection E as -> E. destruct (IH _ E Hl) as [-> ->]. done.
Qed.
Lemma append_cancel_r a b c : a +:+ c = b +:+ c → a = b.
Proof. intros E. by apply append_same_length in E as [? _]. Qed.

Lemma ends_with_promoted m : ends_with PROMOTED_SUFFIX (promoted_id m) = true.
Proof. unfold promoted_id. induction m as [|c m IH]; [done|]. apply orb_true_iff. right. exact IH. Qed.

(** The suffix is reserved and a promotion replaces its original, so the identifier of the
    promotion of an active entry is free. *)
Lemma promoted_id_free s p rs m r :
  records_ok s p rs → linked rs → assoc m rs = Some r → record_status r = active → assoc (promoted_id m) rs = None.
Proof.
  intros Hok Hl Hr Hact. destruct (assoc (promoted_id m) rs) as [r'|] eqn:Hr'; [|done]. exfalso.
  destruct (record_promotion _ _ _ _ _ (records_each _ _ _ Hok _ _ Hr') (ends_with_promoted m))
    as [_ (o & ro & Eid & Es & _)].
  apply append_cancel_r in Eid as <-. destruct (Hl _ _ Hr' _ Es) as (ro' & Hro' & Hne). congruence.
Qed.

Lemma isPromotedEntry_column p f : NoDup f.*1 → isPromotedEntry (VObj f) p = true →
  isPromotedEntry (Ledger.json_column (VObj f)) p = true.
Proof.
  intros HN Hs. unfold isPromotedEntry in *. rewrite !get_json_column by done. bool_props.
  repeat match goal with E : get ?k (VObj f) = VStr _ |- _ => rewrite E; clear E end.
  rewrite is_string_column, !str_of_column. cbn [str_of]. rewrite !bool_decide_eq_true_2 by done. by rewrite !andb_true_r.
Qed.

Lemma promotion_advance s s' p m digest e actor reason id r rs :
  records_ok s p rs → linked rs → spends s s' → assoc m rs = Some r → record_status r = active →
  digest = digest_of (entry r) → promoted_entry maxTtlSeconds p m (str_of (get "content" (entry r))) e →
  (∃ u, u ∈ Approvals.execution_approval_uses s' ∧ id = VStr (Approvals.use_approval_id u) ∧
     Approvals.use_operation_id u = promote_operation_id p m digest) →
  ∃ rs', advances s' p (promotion_facts m digest e actor reason (VStr (promote_operation_id p m digest)) id) rs rs' ∧
    status_at m rs' = Some superseded ∧ status_at (promoted_id m) rs' = Some active.
Proof.
  intros Hok Hl Hs Hr Hact -> [(f & -> & HN) Hst Hsh Hid Hc Hsup] (u & Hu & -> & Hop).
  set (digest := digest_of (entry r)) in *. set (op := promote_operation_id p m digest) in *.
  set (extra := [("promotion", VObj [("promoted_from", VStr m); ("promoted_by", get "id" actor); ("reason", reason);
                          ("content_sha256", VStr digest); ("approval_id", VStr (Approvals.use_approval_id u))])]).
  pose proof (promoted_id_free _ _ _ _ _ Hok Hl Hr Hact) as Hnone.
  set (w := written_record f extra (VStr op)).
  assert (Hne : m ≠ promoted_id m) by (intros E; rewrite <- E in Hnone; congruence).
  assert (Hcol : ∀ k, get k (entry w) = Ledger.json_column (get k (VObj f))).
  { intros k. unfold w, written_record. cbn [entry]. by rewrite get_json_column. }
  assert (Hg1 : grows rs (upsert (promoted_id m) w rs)) by (apply grows_upsert; by rewrite Hnone).
  assert (Hok1 : records_ok s' p (upsert (promoted_id m) w rs)).
  { apply (records_ok_upsert s s'); [done..|by rewrite Hnone|].
    assert (Hstw : stored_entry maxTtlSeconds p (entry w)) by (by apply stored_entry_column).
    assert (Hdig : digest_of (entry w) = digest) by (unfold digest_of; by rewrite Hcol, Hc).
    split; [done|by rewrite Hcol, Hid|done|by rewrite ends_with_promoted| |done..]. intros _. split.
    - by apply isPromotedEntry_column.
    - exists m, r. rewrite Hdig, !Hcol, Hsup. rewrite assoc_upsert_ne by done. split_and!; try done.
      + rewrite Hc. destruct (normal_content _ _ _ (stored_normal _ _ _ (record_entry _ _ _ _ _ (records_each _ _ _ Hok _ _ Hr))))
          as (c & -> & _). done.
      + by exists u. }
  pose proof (apply_written_fact p (promoted_id m) f extra (VStr op) rs HN
    ltac:(apply (bool_decide_unpack _); vm_compute; exact I) (stored_normal _ _ _ Hst) Hid) as Happ.
  assert (Hr1 : assoc m (upsert (promoted_id m) w rs) = Some r) by (by rewrite assoc_upsert_ne).
  destruct (moved_ok s' s' p (upsert (promoted_id m) w rs) m r superseded (VStr (promoted_id m))) as [Hok2 Hg2];
    [done|done|done|by rewrite Hact| |done|].
  { intros _. exists (promoted_id m), w. split_and!; [done|apply assoc_upsert_eq|by rewrite Hcol, Hsup]. }
  exists (upsert m (moved r superseded (VStr (promoted_id m))) (upsert (promoted_id m) w rs)). split_and!.
  - split; [|done| |by etrans].
    + unfold promotion_facts. rewrite apply_facts_cons.
      change (MkFact WRITTEN _ _ _) with (written_fact (promoted_id m) (VObj f) extra (VStr op)).
      rewrite Happ. cbn [mbind result_bind].
      change (MkFact SUPERSEDED _ _ _) with (superseded_fact (promoted_id m) (VStr op) m).
      rewrite apply_facts_cons. by rewrite (apply_superseded _ _ _ _ r).
    + eapply linked_replaced; [done..|by rewrite Hcol, Hsup|done].
  - unfold status_at. by rewrite assoc_upsert_eq.
  - unfold status_at. by rewrite assoc_upsert_ne, assoc_upsert_eq.
Qed.
End records.
