(* ===== verification/MemoryWorlds.v ===== *)
(** * Worlds of the memory store and what each operation does to them

    [post] is the logic of the programs of [MemoryStore]: a predicate for the answer and one
    for the throw, with a rule per construct.  [wf_world] is the invariant of a world and
    [develops] what a change may do to its records.  Every operation is specified once,
    on both outcomes. *)
From S2P Require Import Prelude JsValue CanonicalJson JsMap StrictJson Time OperationId MemoryPolicy MemoryStore.
From S2P Require Import MemoryEvents MemoryEntries MemoryRecords.
From S2P Require Ledger Approvals EventRegistry.

(** ** The logic of programs *)

Definition post {A} (m : program A) (w : world) (Q : A → world → Prop) (E : value → world → Prop) : Prop :=
  match m w with (Ok a, w') => Q a w' | (Throw e, w') => E e w' end.

Section post.
Context {A B : Type}.
Implicit Types (m : program A) (f : A → program B) (w : world).

Lemma post_bind m f w Q E : post m w (λ a w', post (f a) w' Q E) E → post (m ≫= f) w Q E.
Proof. cbv [post mbind program_bind]. by destruct (m w) as [[a|e] w1]. Qed.

Lemma post_ret a w (Q : A → world → Prop) E : Q a w → post (mret a) w Q E.
Proof. done. Qed.

Lemma post_lift r w (Q : A → world → Prop) E :
  (∀ a, r = Ok a → Q a w) → (∀ e, r = Throw e → E e w) → post (lift r) w Q E.
Proof. unfold post, lift. destruct r; eauto. Qed.

Lemma post_mono m w (Q Q' : A → world → Prop) (E E' : value → world → Prop) :
  post m w Q E → (∀ a w', Q a w' → Q' a w') → (∀ e w', E e w' → E' e w') → post m w Q' E'.
Proof. unfold post. destruct (m w) as [[a|e] w']; eauto. Qed.

Lemma post_elim m w Q E a w' : post m w Q E → m w = (Ok a, w') → Q a w'.
Proof. unfold post. intros HP Hm. by rewrite Hm in HP. Qed.
Lemma post_elim_throw m w (Q : A → world → Prop) E e w' : post m w Q E → m w = (Throw e, w') → E e w'.
Proof. unfold post. intros HP Hm. by rewrite Hm in HP. Qed.

(** What holds of the world after either outcome. *)
Lemma post_world m w (P : world → Prop) : post m w (λ _, P) (λ _, P) → P (m w).2.
Proof. unfold post. by destruct (m w) as [[a|e] w']. Qed.
End post.

(** A guard that throws leaves the world as it is. *)
Lemma post_guard {A B} (r : result A) (f : A → program B) w Q E :
  (∀ e, E e w) → (∀ a, r = Ok a → post (f a) w Q E) → post (lift r ≫= f) w Q E.
Proof. intros HE HQ. apply post_bind, post_lift; eauto. Qed.

(** ** Worlds *)

Definition table (w : world) : Ledger.database := Ledger.db (ledger w).
Definition stored (w : world) (p : string) (rs : records) : Prop := foldEvents (stream_events (table w) p) = Ok rs.
Definition version (w : world) (p : string) : Z := Ledger.selectVersion (table w) (memory_stream p).

(** A cached projection is the one of a prefix of its stream. *)
Definition coherent (db : Ledger.database) (p : string) (c : cached) : Prop :=
  ∃ n, cached_version c = Z.of_nat n ∧ n ≤ length (stream_events db p) ∧
    foldEvents (take n (stream_events db p)) = Ok (cached_records c).

Section worlds.
Context `{Sha256} (maxTtlSeconds : Z).

Record wf_world (w : world) : Prop := {
  world_table : Ledger.wf_db (table w);
  world_approvals : Approvals.wf_store (approvals w);
  world_records p : ∃ rs, stored w p rs ∧ records_ok maxTtlSeconds (approvals w) p rs ∧ linked rs;
  world_cache p c : assoc p (projection w) = Some c → coherent (table w) p c;
}.

(** Approvals stay spent, streams are only extended and records only evolve. *)
Record develops (w w' : world) : Prop := {
  develops_spends : spends (approvals w) (approvals w');
  develops_history p : ∃ rows, stream_events (table w') p = stream_events (table w) p ++ rows;
  develops_records p rs : stored w p rs → ∃ rs', stored w' p rs' ∧ grows rs rs';
}.

#[export] Instance develops_preorder : PreOrder develops.
Proof.
  split.
  - intros w. split; [done| |].
    + intros p. exists []. by rewrite app_nil_r.
    + intros p rs Hrs. exists rs. split; [done|reflexivity].
  - intros u v w [S1 E1 D1] [S2 E2 D2]. split; [by etrans| |].
    { intros p. destruct (E1 p) as [r1 Er1], (E2 p) as [r2 Er2]. exists (r1 ++ r2). by rewrite Er2, Er1, app_assoc. }
    intros p rs Hrs. destruct (D1 _ _ Hrs) as (rs1 & H1 & G1). destruct (D2 _ _ H1) as (rs2 & H2 & G2).
    exists rs2. split; [done|by etrans].
Qed.

Lemma stored_unique w p rs rs' : stored w p rs → stored w p rs' → rs = rs'.
Proof. unfold stored. congruence. Qed.

Lemma stored_ok w p rs : wf_world w → stored w p rs → records_ok maxTtlSeconds (approvals w) p rs ∧ linked rs.
Proof. intros Hw Hs. destruct (world_records _ Hw p) as (rs' & Hs' & ?). by rewrite (stored_unique _ _ _ _ Hs Hs'). Qed.

Lemma version_length w p : wf_world w → version w p = Z.of_nat (length (stream_events (table w) p)).
Proof.
  intros Hw. unfold version, stream_events. rewrite length_fmap.
  by apply Ledger.selectVersion_wf, world_table.
Qed.

(** The same data, with a projection that is still coherent. *)
Record unchanged (w w' : world) : Prop := {
  unchanged_table : table w' = table w;
  unchanged_approvals : approvals w' = approvals w;
  unchanged_wf : wf_world w';
}.

Lemma unchanged_refl w : wf_world w → unchanged w w.
Proof. by split. Qed.
Lemma unchanged_trans u v w : unchanged u v → unchanged v w → unchanged u w.
Proof. intros [] []. split; [congruence..|done]. Qed.
Lemma unchanged_stored w w' p rs : unchanged w w' → stored w p rs ↔ stored w' p rs.
Proof. intros [E _ _]. unfold stored. by rewrite E. Qed.
Lemma unchanged_develops w w' : unchanged w w' → develops w w'.
Proof.
  intros U. split; [unfold spends; by rewrite (unchanged_approvals _ _ U)| |].
  { intros p. exists []. by rewrite (unchanged_table _ _ U), app_nil_r. }
  intros p rs Hrs. exists rs. split; [by apply (unchanged_stored _ _ _ _ U)|reflexivity].
Qed.

(** Changing the projection, or the metrics of the ledger. *)
Lemma wf_world_projection w w' :
  wf_world w → table w' = table w → approvals w' = approvals w →
  (∀ p c, assoc p (projection w') = Some c → coherent (table w) p c) → unchanged w w'.
Proof.
  intros [Ht Ha Hr Hc] Et Ea Hp. split; [done..|]. split; rewrite ?Et, ?Ea; try done.
  intros p. destruct (Hr p) as (rs & Hs & ?). exists rs. unfold stored in *. by rewrite Et.
Qed.

(** Every stream is the old one, followed by events that keep the records well formed. *)
Lemma wf_world_extends w w' :
  wf_world w → Ledger.wf_db (table w') → Approvals.wf_store (approvals w') → spends (approvals w) (approvals w') →
  (∀ p rs, stored w p rs → ∃ rows rs', stream_events (table w') p = stream_events (table w) p ++ rows ∧
     replay rows rs = Ok rs' ∧ records_ok maxTtlSeconds (approvals w') p rs' ∧ linked rs' ∧ grows rs rs') →
  (∀ p c, assoc p (projection w') = Some c → assoc p (projection w) = Some c) →
  wf_world w' ∧ develops w w'.
Proof.
  intros Hw Ht Ha Hs Hstep Hp.
  assert (Hall : ∀ p rs, stored w p rs → ∃ rs', stored w' p rs' ∧ records_ok maxTtlSeconds (approvals w') p rs' ∧
      linked rs' ∧ grows rs rs').
  { intros p rs Hrs. destruct (Hstep p rs Hrs) as (rows & rs' & E & Hrep & Hok & Hl & Hg). exists rs'.
    split_and!; try done. unfold stored. rewrite E.
    change (replay (stream_events (table w) p ++ rows) [] = Ok rs'). rewrite replay_events_app.
    change (replay (stream_events (table w) p) []) with (foldEvents (stream_events (table w) p)).
    unfold stored in Hrs. by rewrite Hrs. }
  assert (Hhist : ∀ p, ∃ rows, stream_events (table w') p = stream_events (table w) p ++ rows).
  { intros p. destruct (world_records _ Hw p) as (rs & Hrs & _).
    destruct (Hstep p rs Hrs) as (rows & _ & E & _). by exists rows. }
  split; [split; try done|split; [done|done|]].
  - intros p. destruct (world_records _ Hw p) as (rs & Hrs & _). destruct (Hall p rs Hrs) as (rs' & ? & ? & ? & _). eauto.
  - intros p c Hc. apply Hp in Hc. destruct (world_cache _ Hw _ _ Hc) as (n & En & Hn & Hf).
    destruct (Hhist p) as (rows & E). exists n. split_and!; [done|rewrite E, length_app; lia|by rewrite E, take_app_le].
  - intros p rs Hrs. destruct (Hall p rs Hrs) as (rs' & ? & _ & _ & ?). eauto.
Qed.

(** ** Reading the records *)

Lemma identifier_nonempty p : IDENTIFIER p = true → p ≠ "".
Proof. by intros HI ->. Qed.

(** The records read are those of the stream, from the cache or not. *)
Lemma state_of_post w p : wf_world w → small (table w) → IDENTIFIER p = true →
  post (state_of p) w
    (λ c w', unchanged w w' ∧ cached_version c = version w p ∧ stored w p (cached_records c)) (λ _ _, False).
Proof.
  intros Hw Hsm Hp%identifier_nonempty. unfold post, state_of. fold (table w).
  assert (Hv : Ledger.getVersion (table w) (VStr AGGREGATE_TYPE) (VStr p) = Ok (version w p)) by (by destruct p).
  rewrite Hv. destruct (cached_at p (version w p) w) as [c|] eqn:Ec.
  - unfold cached_at in Ec. destruct (assoc p (projection w)) as [c'|] eqn:Ea; [|done].
    case_if_in Ec; [|done]. injection Ec as ->. bool_props. split_and!; [by apply unchanged_refl|done|].
    destruct (world_cache _ Hw _ _ Ea) as (n & En & _ & Hf). rewrite version_length in * by done.
    assert (n = length (stream_events (table w) p)) as -> by lia. by rewrite firstn_all in Hf.
  - rewrite read_records_stream by (done || apply Hw). destruct (world_records _ Hw p) as (rs & Hrs & _).
    unfold stored in Hrs. rewrite Hrs. split_and!; [|done|done].
    eapply wf_world_projection; [done..|]. intros q c. destruct (decide (q = p)) as [->|Hne]; cbn [projection].
    + rewrite assoc_upsert_eq. intros [= <-]. exists (length (stream_events (table w) p)).
      split_and!; [by apply version_length|done|by rewrite firstn_all].
    + rewrite assoc_upsert_ne by done. by apply world_cache.
Qed.

(** The records of a project, read at the start of an operation. *)
Lemma read_state {B} w p (f : cached → program B) Q E :
  wf_world w → small (table w) → IDENTIFIER p = true →
  (∀ c w', unchanged w w' → cached_version c = version w' p → stored w' p (cached_records c) → post (f c) w' Q E) →
  post (state_of p ≫= f) w Q E.
Proof.
  intros Hw Hsm Hp HQ. apply post_bind. eapply post_mono; [by apply state_of_post| |done].
  intros c w' (U & Hv & Hs). apply HQ; [done| |by apply (unchanged_stored _ _ _ _ U)].
  unfold version. by rewrite (unchanged_table _ _ U).
Qed.

(** ** Appending *)

(** The facts [fs] of [p] are stored, or the append replayed stored events. *)
Record appended (p : string) (expected : value) (rs' : records) (w w' : world) : Prop := {
  appended_wf : wf_world w';
  appended_develops : develops w w';
  appended_approvals : approvals w' = approvals w;
  appended_or : table w' = table w ∨ stored w' p rs';
  appended_current : version w p = int_of expected → stored w' p rs';
  appended_others q : q ≠ p → ∀ rs, stored w q rs ↔ stored w' q rs;
}.

Lemma assoc_remove_some {A} k j (l : list (string * A)) x : assoc k (remove j l) = Some x → assoc k l = Some x.
Proof.
  destruct (decide (k = j)) as [->|Hne]; [|by rewrite assoc_remove_ne].
  intros E. exfalso. assert (Hin : j ∉ (remove j l).*1); [|by apply assoc_None in Hin; congruence].
  intros [[k x'] [-> Hx]]%list_elem_of_fmap. by apply elem_of_remove in Hx as [_ Hx].
Qed.

Lemma stored_others w db p q rs : q ≠ p → (∀ q, q ≠ p → stream_events db q = stream_events (table w) q) →
  stored w q rs ↔ foldEvents (stream_events db q) = Ok rs.
Proof. intros Hne E. unfold stored. by rewrite E. Qed.

(** The world after [fs] have been appended to the stream of [p] and an approval may have been spent. *)
Lemma append_world reg w l' s' p expected actor i fs v rs rs' proj :
  wf_world w → Approvals.wf_store s' → spends (approvals w) s' → stored w p rs →
  advances maxTtlSeconds s' p fs rs rs' →
  append_facts reg p expected actor i fs (ledger w) = (Ok v, l') →
  (∀ q c, assoc q proj = Some c → assoc q (projection w) = Some c) →
  let w' := MkWorld l' s' proj in
  wf_world w' ∧ develops w w' ∧ (table w' = table w ∨ stored w' p rs') ∧
  (version w p = int_of expected → stored w' p rs') ∧ (∀ q, q ≠ p → ∀ rs, stored w q rs ↔ stored w' q rs).
Proof.
  intros Hw Hs' Hsp Hrs Hadv Happ Hproj w'.
  destruct (append_facts_effect _ _ _ _ _ _ _ _ _ (world_table _ Hw) Happ) as (Hwf & Hor & Hcur).
  cbn zeta in Hor, Hcur. fold (table w) in Hor, Hcur. change (Ledger.db l') with (table w') in *.
  assert (Hrep : ∀ rows, stream_events (table w') p = stream_events (table w) p ++ rows →
      (∀ rs, replay rows rs = apply_facts fs rs) → stored w' p rs').
  { intros rows E Hr. unfold stored. rewrite E. change (replay (stream_events (table w) p ++ rows) [] = Ok rs').
    rewrite replay_events_app. change (replay (stream_events (table w) p) []) with (foldEvents (stream_events (table w) p)).
    unfold stored in Hrs. rewrite Hrs. cbn [mbind result_bind]. rewrite Hr. apply Hadv. }
  assert (Hsame : ∀ q rs, stored w q rs → records_ok maxTtlSeconds s' q rs ∧ linked rs ∧ grows rs rs).
  { intros q rs0 Hq. destruct (stored_ok _ _ _ Hw Hq). split_and!; [by eapply records_ok_spends|done|reflexivity]. }
  split_and!.
  1,2: apply (wf_world_extends w w'); try done; intros q rs0 Hq; destruct Hor as [E|(Hv & Hothers & rows & E & Hr)];
    [exists [], rs0; rewrite E, app_nil_r; destruct (Hsame q rs0 Hq) as (? & ? & ?); by split_and!|];
    destruct (decide (q = p)) as [->|Hne];
      [rewrite (stored_unique _ _ _ _ Hq Hrs); exists rows, rs'; rewrite Hr; destruct Hadv; by split_and!
      |exists [], rs0; rewrite Hothers, app_nil_r by done; destruct (Hsame q rs0 Hq) as (? & ? & ?); by split_and!].
  - destruct Hor as [E|(_ & _ & rows & E & Hr)]; [by left|right; eauto].
  - intros Hv. destruct (Hcur Hv) as (_ & _ & rows & E & Hr). eauto.
  - intros q Hne rs0. destruct Hor as [E|(_ & Hothers & _)]; [unfold stored; by rewrite E|].
    by eapply (stored_others w (table w')).
Qed.

Lemma append_post reg w p expected actor i fs rs rs' :
  wf_world w → stored w p rs → advances maxTtlSeconds (approvals w) p fs rs rs' →
  post (append_ reg p expected actor i fs) w (λ _ w', appended p expected rs' w w') (λ _ w', unchanged w w').
Proof.
  intros Hw Hrs Hadv. unfold post, append_. destruct (append_facts _ _ _ _ _ _ _) as [[v|e] l] eqn:E.
  - destruct (append_world reg w l (approvals w) p expected actor i fs v rs rs' (remove p (projection w)))
      as (H1 & H2 & H3 & H4 & H5); [done|apply Hw|done|done|done|done|intros q c; apply assoc_remove_some|by split].
  - eapply wf_world_projection; [done| |done|apply (world_cache _ Hw)].
    unfold append_facts in E. by apply Ledger.append_throws in E.
Qed.
End worlds.
