(* ===== verification/MemorySafety.v ===== *)
(** * What every operation of the memory store does

    One specification per operation, on both outcomes: an operation that throws leaves the
    events and the approvals as they were; one that answers has stored its facts, with the
    approval it needs spent in the same transaction. *)
From S2P Require Import Prelude JsValue CanonicalJson JsMap StrictJson Time OperationId MemoryPolicy MemoryStore.
From S2P Require Import MemoryEvents MemoryEntries MemoryRecords MemoryWorlds.
From S2P Require Ledger Approvals EventRegistry.

Section safety.
Context `{Sha256} (locale_le : string → string → bool) (date_parse : string → option Z).
Context (reg : EventRegistry.registry) (scanCredential : scanner) (maxTtlSeconds : Z).
Context (approvalVerifier : option verifier).

Notation wf_world := (wf_world maxTtlSeconds).
Notation unchanged := (unchanged maxTtlSeconds).
Notation advances := (advances maxTtlSeconds).

(** ** Approvals *)

(** One approval has been spent: it was granted for this operation and this scope. *)
Definition spent (s s' : Approvals.store) (op : memory_operation) : Prop :=
  ∃ u a, Approvals.execution_approval_uses s' = Approvals.execution_approval_uses s ++ [u] ∧
    Approvals.use_operation_id u = operation_id op ∧ a ∈ Approvals.execution_approvals s ∧
    Approvals.approval_id a = Approvals.use_approval_id u ∧ Approvals.decision a = "approved" ∧
    Approvals.same_text (Approvals.resource_scope_json a) (Ledger.json_column (resource_scope op)) = true.
Definition delete_operation (p id : string) : memory_operation :=
  MkOperation DELETE_OPERATION (delete_operation_id p id) (VObj [("project_id", VStr p); ("memory_id", VStr id)]).
Definition promote_operation (p id digest : string) : memory_operation :=
  MkOperation PROMOTE_OPERATION (promote_operation_id p id digest)
    (VObj [("project_id", VStr p); ("memory_id", VStr id); ("content_sha256", VStr digest)]).

(** The facts an approval authorizes are stored with it. *)
Record authorized (p : string) (op : memory_operation) (P : records → Prop) (w w' : world) : Prop := {
  authorized_wf : wf_world w';
  authorized_develops : develops w w';
  authorized_spent : spent (approvals w) (approvals w') op;
  authorized_stored : ∃ rs', stored w' p rs' ∧ P rs';
  authorized_others q : q ≠ p → ∀ rs, stored w q rs ↔ stored w' q rs;
}.

Lemma consumption_parsed h op id t r :
  Approvals.parse_consumption (consumption_request h op id t) = Ok r →
  Approvals.req_operation_id r = operation_id op ∧
  Approvals.req_resource_scope_json r = Ledger.json_column (resource_scope op) ∧
  ∃ a, id = VStr a ∧ Approvals.req_approval_id r = a.
Proof.
  unfold Approvals.parse_consumption, Approvals.stableJson. intros HP. inv_ok HP. subst r.
  split_and!; [done|by inv_ok Hok1|]. cbn in Hok. destruct id; try done. eauto.
Qed.

Lemma withApproval_post op what p actor actor' i expected (facts : value → list fact) w rs P :
  wf_world w → stored w p rs → version w p = int_of expected →
  (∀ s' u, spends (approvals w) s' → u ∈ Approvals.execution_approval_uses s' →
     Approvals.use_operation_id u = operation_id op →
     ∃ rs', advances s' p (facts (VStr (Approvals.use_approval_id u))) rs rs' ∧ P rs') →
  post (withApproval approvalVerifier op what p actor i
         (λ id, append_facts reg p expected actor' i (facts id))) w
    (λ _ w', authorized p op P w w') (λ _ w', unchanged w w').
Proof.
  intros Hw Hrs Hv Hadv. unfold post, withApproval.
  destruct approvalVerifier as [h|]; [|by apply unchanged_refl]. unfold execution_approval_verifier.
  assert (Hsame : ∀ l, Ledger.db l = table w → unchanged w (MkWorld l (approvals w) (projection w))).
  { intros l El. eapply wf_world_projection; [done|done|done|apply (world_cache _ _ Hw)]. }
  destruct (resolveApprovalId h op actor) as [id|e]; [|by apply Hsame].
  destruct (negb (nonempty_string id)); [by apply Hsame|].
  set (request := consumption_request h op id (at_verification i)). unfold Approvals.consume.
  destruct (Approvals.authorization (approvals w) request) as [[a s']|e] eqn:Ha; [|by apply Hsame].
  destruct (append_facts reg p expected actor' i (facts id) (ledger w)) as [[v|e] l'] eqn:Happ.
  2:{ apply Hsame. unfold Approvals.rolled_back. done. }
  destruct (Approvals.authorization_ok _ _ _ _ (world_approvals _ _ Hw) Ha) as (Hs' & _ & r & Hr & Hu & Hin & Hid & Hdec & Hsc).
  apply consumption_parsed in Hr as (Hop & Hscope & x & -> & Hx). rewrite Hscope in Hsc.
  set (u := Approvals.MkUse _ _ _) in Hu.
  assert (Hsp : spends (approvals w) s') by (unfold spends; rewrite Hu; set_solver).
  destruct (Hadv s' u Hsp) as (rs' & Ha' & HP); [rewrite Hu; set_solver|done|].
  cbn [Approvals.use_approval_id u] in Ha'. rewrite Hx in Ha'. fold (table w) in *.
  destruct (append_world maxTtlSeconds reg w l' s' p expected actor' i (facts (VStr x)) v rs rs'
    (remove p (projection w))) as (H1 & H2 & _ & H4 & H5); try done.
  { intros q c. apply assoc_remove_some. }
  split; [done|done|by exists u, a| |done]. exists rs'. split; [by apply H4|done].
Qed.

(** ** Writing *)

(** The entry is stored, or the append replayed events that were stored. *)
Record written (p : string) (e : value) (expected : value) (w w' : world) : Prop := {
  written_wf : wf_world w';
  written_develops : develops w w';
  written_approvals : approvals w' = approvals w;
  written_stored : version w p = int_of expected → ∃ id r rs rs', get "memory_id" e = VStr id ∧
    stored w p rs ∧ assoc id rs = None ∧ stored w' p rs' ∧ assoc id rs' = Some r ∧
    record_status r = active ∧ entry r = Ledger.json_column e;
  written_others q : q ≠ p → ∀ rs, stored w q rs ↔ stored w' q rs;
}.

Lemma appended_unchanged_l u v w p expected rs' : unchanged u v → appended maxTtlSeconds p expected rs' v w →
  appended maxTtlSeconds p expected rs' u w.
Proof.
  intros U [A1 A2 A3 A4 A5 A6]. pose proof U as [Et Ea _]. split; [done| |congruence|by rewrite <- Et| |].
  - etrans; [by eapply unchanged_develops|done].
  - unfold version in *. by rewrite <- Et.
  - intros q Hne rs. rewrite <- A6 by done. by eapply unchanged_stored.
Qed.

Lemma write_post input h i w :
  wf_world w → small (table w) →
  post (write locale_le date_parse reg scanCredential maxTtlSeconds input h i) w
    (λ _ w', ∃ e actor, accept_entry locale_le date_parse scanCredential maxTtlSeconds input h (at_start i) = Ok (e, actor) ∧
       written (project_of e) e (nullish_else (expected_version h) (VNum (NInt (version w (project_of e))))) w w')
    (λ _ w', unchanged w w').
Proof.
  intros Hw Hsm. unfold write. apply post_guard; [intros _; by apply unchanged_refl|]. intros [e actor] Hadm.
  pose proof (admit_ok _ _ _ _ _ _ _ _ _ Hadm) as Had.
  eapply read_state; [done|done|apply (normal_project _ _ _ (stored_normal _ _ _ (admitted_stored _ _ _ _ Had)))|]. intros c w1 U Hv Hs. rewrite Hv.
  assert (Ev : version w1 (project_of e) = version w (project_of e)) by (unfold version; by rewrite (unchanged_table _ _ _ U)).
  apply post_guard; [done|]. intros fs Hfs. destruct (stored_ok _ _ _ _ (unchanged_wf _ _ _ U) Hs) as [Hok Hl].
  destruct (write_facts_advance _ _ _ _ _ _ _ Hok Hl Had Hfs) as (id & rs' & r & Hid & Hnone & Hadv & Hr & Hact & He).
  apply post_bind. eapply post_mono; [by eapply append_post; [apply U|..]| |].
  2:{ intros x w' U'. by eapply unchanged_trans. }
  intros x w2 A%(appended_unchanged_l _ _ _ _ _ _ U). apply post_ret. exists e, actor. split; [done|].
  destruct A as [A1 A2 A3 _ A4 A5]. rewrite Ev in *. split; try done. intros Hcur. exists id, r, (cached_records c), rs'.
  split_and!; try done; [by eapply unchanged_stored|by apply A4].
Qed.

(** ** Expiry *)

(** The active entries of [rs] whose time has elapsed are recorded as expired, and no other changes. *)
Record swept (p : string) (now : Z) (ids : list string) (w w' : world) : Prop := {
  swept_wf : wf_world w';
  swept_develops : develops w w';
  swept_approvals : approvals w' = approvals w;
  swept_stored : ∃ rs rs', stored w p rs ∧ stored w' p rs' ∧
    (∀ id, id ∈ ids ↔ ∃ r, assoc id rs = Some r ∧ record_status r = active ∧ isExpired date_parse r now = true) ∧
    (∀ id, id ∈ ids → status_at id rs' = Some expired) ∧ (∀ id, id ∉ ids → assoc id rs' = assoc id rs);
}.

Definition due (now : Z) (rs : records) : list (string * record) :=
  List.filter (λ kr, is_active kr.2 && isExpired date_parse kr.2 now) rs.

Lemma due_keys s p now rs : records_ok maxTtlSeconds s p rs →
  (λ kr : string * record, str_of (get "memory_id" (entry kr.2))) <$> due now rs = (due now rs).*1.
Proof.
  intros Hok. apply list_fmap_ext. intros j [k r] Hj. apply list_elem_of_lookup_2 in Hj.
  apply list_filter_elem in Hj as [Hin _]. apply assoc_elem_of in Hin; [|apply Hok].
  cbn. by rewrite (record_id _ _ _ _ _ _ (records_each _ _ _ _ Hok _ _ Hin)).
Qed.

Lemma due_iff s p now rs id : records_ok maxTtlSeconds s p rs →
  id ∈ (due now rs).*1 ↔ ∃ r, assoc id rs = Some r ∧ record_status r = active ∧ isExpired date_parse r now = true.
Proof.
  intros Hok. rewrite list_elem_of_fmap. split.
  - intros ([k r] & -> & [Hin Hd]%list_filter_elem). apply assoc_elem_of in Hin; [|apply Hok].
    unfold is_active in Hd. cbn in *. bool_props. eauto.
  - intros (r & Hr & Hact & He). exists (id, r). split; [done|]. apply list_filter_elem.
    split; [by apply assoc_elem_of; [apply Hok|]|]. unfold is_active. cbn. rewrite Hact, He. done.
Qed.

Lemma due_NoDup now rs : NoDup rs.*1 → NoDup (due now rs).*1.
Proof.
  intros HN. eapply sublist_NoDup; [exact HN|]. unfold due. clear HN.
  induction rs as [|[k r] rs IH]; [constructor|]. cbn [List.filter]. case_if; rewrite ?fmap_cons; by constructor.
Qed.

Lemma sweepExpired_post projectId actor i w :
  wf_world w → small (table w) →
  post (sweepExpired date_parse reg scanCredential projectId actor i) w
    (λ ids w', swept (str_of projectId) (at_start i) ids w w') (λ _ w', unchanged w w').
Proof.
  intros Hw Hsm. unfold sweepExpired. apply post_guard; [intros _; by apply unchanged_refl|]. intros u Hp.
  apply requireIdentifier_ok in Hp as (p & -> & Hp). cbn [str_of].
  apply post_guard; [intros _; by apply unchanged_refl|]. intros v Hv.
  eapply read_state; [done..|]. intros c w1 U Hver Hs.
  destruct (stored_ok _ _ _ _ (unchanged_wf _ _ _ U) Hs) as [Hok Hl].
  fold (due (at_start i) (cached_records c)). cbn zeta. rewrite (due_keys _ _ _ _ Hok).
  assert (Hnone : due (at_start i) (cached_records c) = [] → swept p (at_start i) [] w w1).
  { intros E. split; [apply U|by eapply unchanged_develops|apply U|].
    exists (cached_records c), (cached_records c). split_and!; [by eapply unchanged_stored|done| |by intros id ?%not_elem_of_nil|done].
    intros id. by rewrite <- (due_iff _ _ (at_start i) _ id Hok), E. }
  destruct (due (at_start i) (cached_records c)) as [|d ds] eqn:Ed; [apply post_ret; by apply Hnone|].
  rewrite <- Ed. destruct (expiry_advance maxTtlSeconds (approvals w1) p (VStr (toISOString (at_start i)))
    (due (at_start i) (cached_records c)).*1 (cached_records c)) as (rs' & Hadv & Hexp & Hsame);
    [done|done|by apply due_NoDup, Hok| |].
  { intros id (r & ? & ? & _)%(due_iff _ _ _ _ _ Hok). eauto. }
  apply post_bind. eapply post_mono; [by eapply append_post; [apply U|..]| |].
  2:{ intros x w' U'. by eapply unchanged_trans. }
  intros x w2 A%(appended_unchanged_l _ _ _ _ _ _ U). apply post_ret. destruct A as [A1 A2 A3 _ A4 _].
  split; [done..|]. exists (cached_records c), rs'. split_and!; [by eapply unchanged_stored| | |done|done].
  - apply A4. cbn [int_of]. rewrite Hver. unfold version. by rewrite (unchanged_table _ _ _ U).
  - intros id. by apply due_iff with (s := approvals w1) (p := p).
Qed.

(** ** Deletion and promotion *)

Lemma authorized_unchanged_l u v w p op P : unchanged u v → authorized p op P v w → authorized p op P u w.
Proof.
  intros U [A1 A2 A3 A4 A5]. pose proof U as [_ Ea _]. split; [done| |by rewrite <- Ea|done|].
  - etrans; [by eapply unchanged_develops|done].
  - intros q Hne rs. rewrite <- A5 by done. by eapply unchanged_stored.
Qed.

Lemma forget_post input actor i w :
  wf_world w → small (table w) →
  post (forget reg scanCredential approvalVerifier input actor i) w
    (λ _ w', ∃ p id rs, get "project_id" input = VStr p ∧ get "memory_id" input = VStr id ∧
       get "kind" actor = VStr "operator" ∧ stored w p rs ∧
       authorized p (delete_operation p id) (λ rs', status_at id rs' = Some deleted ∧
         ∀ id', id' ≠ id → assoc id' rs' = assoc id' rs) w w')
    (λ _ w', unchanged w w').
Proof.
  intros Hw Hsm. unfold forget.
  apply post_guard; [intros _; by apply unchanged_refl|]. intros u1 (p & Ep & Hp)%requireIdentifier_ok.
  apply post_guard; [intros _; by apply unchanged_refl|]. intros u2 (id & Eid & Hid)%requireIdentifier_ok.
  apply post_guard; [intros _; by apply unchanged_refl|]. intros u3 Hkind%throw_if_ok. bool_props.
  apply post_guard; [intros _; by apply unchanged_refl|]. intros actor' _.
  apply post_guard; [intros _; by apply unchanged_refl|]. intros reason _. rewrite Ep, Eid. cbn [str_of].
  eapply read_state; [done..|]. intros c w1 U Hver Hs.
  apply post_guard; [done|]. intros u4 Hst%throw_if_ok. apply post_guard; [done|]. intros op Hop.
  unfold memoryDeleteOperation in Hop. inv_ok Hop. subst op. cbn [operation_id str_of].
  destruct (stored_ok _ _ _ _ (unchanged_wf _ _ _ U) Hs) as [Hrec Hl].
  assert (Hr : ∃ r, assoc id (cached_records c) = Some r ∧ record_status r ≠ deleted).
  { unfold status_at in Hst. destruct (assoc id (cached_records c)) as [r|]; [|done]. exists r. split; [done|].
    cbn in Hst. by destruct (record_status r). }
  destruct Hr as (r & Hr & Hnd).
  eapply post_mono; [eapply (withApproval_post _ _ p) with (rs := cached_records c)
    (P := λ rs', status_at id rs' = Some deleted ∧ ∀ id', id' ≠ id → assoc id' rs' = assoc id' (cached_records c)) |..].
  - apply U.
  - done.
  - by rewrite Hver.
  - intros s' use Hsp Huse Hopa. exists (upsert id (moved r deleted (superseded_by r)) (cached_records c)). split.
    + by apply (deletion_advance _ (approvals w1)); [..|by exists use| |].
    + split; [unfold status_at; by rewrite assoc_upsert_eq|]. intros id' Hne. by rewrite assoc_upsert_ne.
  - intros [] w2 A. exists p, id, (cached_records c). split_and!; try done; [by eapply unchanged_stored|].
    by eapply authorized_unchanged_l.
  - intros e w2 U'. by eapply unchanged_trans.
Qed.

Lemma promotable_ok m v now rs r : promotable date_parse scanCredential m v now rs = Ok r →
  assoc (str_of m) rs = Some r ∧ record_status r = active ∧ isExpired date_parse r now = false ∧
  get "trust" (entry r) ≠ VStr "trusted" ∧ v = VStr (digest_of (entry r)).
Proof.
  unfold promotable. destruct (assoc (str_of m) rs) as [r0|]; [|done]. intros HP. inv_ok HP. subst r0.
  inv_throw_if. unfold is_active in *. bool_props. done.
Qed.

Lemma promote_post input actor i w :
  wf_world w → small (table w) →
  post (promote date_parse reg scanCredential maxTtlSeconds approvalVerifier input actor i) w
    (λ _ w', ∃ p id rs r, get "project_id" input = VStr p ∧ get "memory_id" input = VStr id ∧
       get "kind" actor = VStr "operator" ∧ stored w p rs ∧ assoc id rs = Some r ∧ record_status r = active ∧
       get "trust" (entry r) ≠ VStr "trusted" ∧ get "content_sha256" input = VStr (digest_of (entry r)) ∧
       authorized p (promote_operation p id (digest_of (entry r))) (λ rs',
         status_at id rs' = Some superseded ∧ status_at (promoted_id id) rs' = Some active) w w')
    (λ _ w', unchanged w w').
Proof.
  intros Hw Hsm. unfold promote.
  apply post_guard; [intros _; by apply unchanged_refl|]. intros u1 (p & Ep & Hp)%requireIdentifier_ok.
  apply post_guard; [intros _; by apply unchanged_refl|]. intros u2 (id & Eid & Hid)%requireIdentifier_ok.
  apply post_guard; [intros _; by apply unchanged_refl|]. intros u3 Hkind%throw_if_ok. bool_props.
  apply post_guard; [intros _; by apply unchanged_refl|]. intros actor' _.
  apply post_guard; [intros _; by apply unchanged_refl|]. intros reason _. rewrite Ep, Eid. cbn [str_of].
  eapply read_state; [done..|]. intros c w1 U Hver Hs.
  apply post_guard; [done|]. intros r (Hr & Hact & _ & Htrust & Hdig)%promotable_ok. cbn [str_of] in Hr.
  destruct (stored_ok _ _ _ _ (unchanged_wf _ _ _ U) Hs) as [Hrec Hl].
  destruct (normal_content _ _ _ (stored_normal _ _ _ (record_entry _ _ _ _ _ _ (records_each _ _ _ _ Hrec _ _ Hr))))
    as (content & Hc & _).
  apply post_guard; [done|]. intros e Hpe. rewrite Hc in Hpe. cbn [str_of] in Hpe.
  apply (promoted_ok maxTtlSeconds _ _ _ _ content) in Hpe; [|done].
  apply post_guard; [done|]. intros op Hop. unfold memoryPromoteOperation in Hop. inv_ok Hop. subst op.
  cbn [operation_id str_of]. fold (digest_of (entry r)) in *.
  apply post_bind. eapply post_mono; [eapply (withApproval_post _ _ p) with (rs := cached_records c)
    (P := λ rs', status_at id rs' = Some superseded ∧ status_at (promoted_id id) rs' = Some active) |..].
  - apply U.
  - done.
  - by rewrite Hver.
  - intros s' use Hsp Huse Hopa.
    destruct (promotion_advance maxTtlSeconds (approvals w1) s' p id (digest_of (entry r)) e actor' reason
      (VStr (Approvals.use_approval_id use)) r (cached_records c)) as (rs' & Hadv & H1 & H2); try done.
    + by rewrite Hc.
    + by exists use.
    + by exists rs'.
  - intros [] w2 A. apply post_ret. exists p, id, (cached_records c), r. split_and!; try done; [by eapply unchanged_stored|].
    by eapply authorized_unchanged_l.
  - intros x w2 U'. by eapply unchanged_trans.
Qed.

(** ** Reading *)

Lemma inspect_post projectId memoryId w : wf_world w → small (table w) →
  post (inspect projectId memoryId) w (λ _ w', unchanged w w') (λ _ w', unchanged w w').
Proof.
  intros Hw Hsm. unfold inspect. apply post_guard; [intros _; by apply unchanged_refl|].
  intros u1 (p & -> & Hp)%requireIdentifier_ok. apply post_guard; [intros _; by apply unchanged_refl|]. intros u2 _.
  eapply read_state; [done..|]. intros c w1 U _ _. destruct (assoc _ _); [by apply post_ret|by apply post_lift].
Qed.

Lemma list_post projectId i w : wf_world w → small (table w) →
  post (list_ date_parse projectId i) w (λ _ w', unchanged w w') (λ _ w', unchanged w w').
Proof.
  intros Hw Hsm. unfold list_. apply post_guard; [intros _; by apply unchanged_refl|].
  intros u1 (p & -> & Hp)%requireIdentifier_ok. eapply read_state; [done..|]. intros c w1 U _ _. by apply post_ret.
Qed.

Lemma check_query_ok input n : check_query input = Ok n →
  (1 ≤ n ≤ MAX_LIMIT)%Z ∧ ∃ p, get "project_id" input = VStr p ∧ IDENTIFIER p = true.
Proof. unfold check_query. intros HQ. inv_ok HQ. apply requireIdentifier_ok in Hok. inv_throw_if. bool_props. by subst n. Qed.

Lemma retrieve_post attest input boundary i w : wf_world w → small (table w) →
  post (retrieve date_parse attest input boundary i) w
    (λ l w', unchanged w w' ∧ ∃ p limit rs, get "project_id" input = VStr p ∧ stored w p rs ∧
       check_query input = Ok limit ∧
       sources attest boundary p (at_start i) (approvals w) rs
         (ranking date_parse (tokenize (str_of (get "query" input)))
            (bool_decide (get "include_untrusted" input = VBool true)) (at_start i) (Z.to_nat limit) rs) = Ok l)
    (λ _ w', unchanged w w').
Proof.
  intros Hw Hsm. unfold retrieve. apply post_guard; [intros _; by apply unchanged_refl|].
  intros n Hn. destruct (check_query_ok _ _ Hn) as (_ & p & Ep & Hp). rewrite Ep. cbn [str_of].
  eapply read_state; [done..|]. intros c w1 U Hver Hs. cbv zeta. apply post_bind. unfold post at 1, stored_approvals.
  apply post_lift; [|done]. intros l Hl. split; [done|].
  exists p, n, (cached_records c). split; [done|]. split; [by eapply unchanged_stored|].
  rewrite <- (unchanged_approvals _ _ _ U). done.
Qed.

(** ** One call of a store *)

Inductive call :=
  | Write (input : value) (h : host)
  | Sweep (projectId actor : value)
  | Forget (input actor : value)
  | Promote (input actor : value)
  | Inspect (projectId memoryId : value)
  | List (projectId : value)
  | Retrieve (input boundary : value)
  | Rebuild.

Definition run (attest : option (Approvals.store → string → string → bool)) (c : call) (i : instants) (w : world) : world :=
  match c with
  | Write input h => (write locale_le date_parse reg scanCredential maxTtlSeconds input h i w).2
  | Sweep projectId actor => (sweepExpired date_parse reg scanCredential projectId actor i w).2
  | Forget input actor => (forget reg scanCredential approvalVerifier input actor i w).2
  | Promote input actor => (promote date_parse reg scanCredential maxTtlSeconds approvalVerifier input actor i w).2
  | Inspect projectId memoryId => (inspect projectId memoryId w).2
  | List projectId => (list_ date_parse projectId i w).2
  | Retrieve input boundary => (retrieve date_parse attest input boundary i w).2
  | Rebuild => (rebuild w).2
  end.

Lemma unchanged_steps w w' : unchanged w w' → wf_world w' ∧ develops w w'.
Proof. intros U. split; [apply U|by eapply unchanged_develops]. Qed.

(** What a program may do, from what it may do when it answers and that its throws change nothing. *)
Lemma run_rule {A} (m : program A) w Q :
  post m w Q (λ _ w', unchanged w w') → (∀ a w', Q a w' → wf_world w' ∧ develops w w') →
  wf_world (m w).2 ∧ develops w (m w).2.
Proof. unfold post. intros HP HQ. destruct (m w) as [[a|e] w']; [by eapply HQ|by apply unchanged_steps]. Qed.

Lemma run_ok attest c i w : wf_world w → small (table w) → wf_world (run attest c i w) ∧ develops w (run attest c i w).
Proof.
  intros Hw Hsm. destruct c as [input h|p a|input a|input a|p m|p|input b|]; cbn [run].
  - eapply run_rule; [by apply write_post|]. intros v w' (e & ac & _ & []). by split.
  - eapply run_rule; [by apply sweepExpired_post|]. intros ids w' []. by split.
  - eapply run_rule; [by apply forget_post|]. intros [] w' (? & ? & ? & _ & _ & _ & _ & []). by split.
  - eapply run_rule; [by apply promote_post|]. intros v w' (? & ? & ? & ? & _ & _ & _ & _ & _ & _ & _ & _ & []). by split.
  - eapply run_rule; [by apply inspect_post|]. intros v w'. apply unchanged_steps.
  - eapply run_rule; [by apply list_post|]. intros v w'. apply unchanged_steps.
  - eapply run_rule; [by apply retrieve_post|]. intros v w' [U _]. by apply unchanged_steps.
  - apply unchanged_steps. by eapply wf_world_projection.
Qed.
End safety.
