(* ===== verification/MemoryHost.v ===== *)
(** * Memory in the host (tools/cli/lib/memory-context-source.js)

    What the host builds around a memory store: the attestation of promotions from the
    approvals, the sources of a context assembly (governed memory first, then the external
    bridge), and the operator's promotion, which issues and spends its own approval.

    [containsCredential] is the credential scanner of the repository, [searchProvider] the
    external bridge, if there is one: its answer to the query, or what it throws. *)
From S2P Require Import Prelude JsValue CanonicalJson JsMap StrictJson Time OperationId MemoryPolicy MemoryStore.
From S2P Require Ledger EventRegistry Approvals.

Definition MAX_AXON_RESULTS : nat := 10.

(** [createPromotionAttestation(db)]: the statement, over the two tables. *)
Definition createPromotionAttestation (s : Approvals.store) (approvalId operationId : string) : bool :=
  existsb (λ u : Approvals.approval_use,
    (Approvals.use_approval_id u =s approvalId) && (Approvals.use_operation_id u =s operationId) &&
    existsb (λ a : Approvals.approval, (Approvals.approval_id a =s Approvals.use_approval_id u) &&
      (Approvals.operation_id a =s operationId) && (Approvals.decision a =s "approved"))
      (Approvals.execution_approvals s))
    (Approvals.execution_approval_uses s).

(** ** Sources of a context *)

(** [a ?? b ?? …] over the properties of a value. *)
Fixpoint first_field (keys : list string) (v : value) : value :=
  match keys with
  | [] => VUndef
  | k :: keys => nullish_else (get k v) (first_field keys v)
  end.
Definition axonItems (result : value) : list value :=
  match result with
  | VArr items => items
  | _ => items_of (nullish_else (first_field ["results"; "memories"; "items"] result)
                     (if is_string result then VArr [result] else VArr []))
  end.

Fixpoint trim_start (s : string) : string :=
  match s with
  | String c s' => if space c then trim_start s' else s
  | EmptyString => ""
  end.
Fixpoint trim_end (s : string) : string :=
  match s with
  | String c s' => let t := trim_end s' in if space c && (t =s "") then "" else String c t
  | EmptyString => ""
  end.
Definition trim (s : string) : string := trim_end (trim_start s).
Definition axonText (item : value) : string :=
  let text := if is_string item then item else first_field ["content"; "text"; "summary"] item in
  if is_string text then trim (str_of text) else "".

Section host.
Context `{Sha256} (date_parse : string → option Z) (containsCredential : string → bool).
Context (searchProvider : option (string → result value)).

Definition bridged_source (query content : string) (now : Z) : value :=
  let digest := sha256Text content in
  let ref := VStr ("axon://memory/" +:+ slice 0 16 digest) in
  VObj [("source_ref", ref); ("classification", VStr "internal"); ("priority", VNum (NInt 0)); ("content", VStr content);
        ("authority", VStr AUTHORITY);
        ("provenance", VObj [("origin", VStr "mcp"); ("source_ref", ref); ("digest", VStr digest);
           ("retrieved_at", VStr (toISOString now)); ("trust", VStr "untrusted");
           ("transform", VArr [transform_step (VStr "memory.axon.search") (VStr "1") (VStr (sha256Text query))])])].

(** The loop over the items: the digests seen so far, and the sources in order. *)
Fixpoint bridged (query : string) (now : Z) (seen : list string) (items : list value) : list value :=
  match items with
  | [] => []
  | item :: items =>
      let content := axonText item in
      let digest := sha256Text content in
      if (content =s "") || (MAX_CONTENT_BYTES <? String.length content)%nat || containsCredential content ||
         (digest ∈s seen)
      then bridged query now seen items
      else bridged_source query content now :: bridged query now (digest :: seen) items
  end.

Definition collectMemorySources (input : value) (i : instants) (now : Z) : program (list value) :=
  found ← retrieve date_parse (Some createPromotionAttestation) input (VStr "context") i;
  let query := str_of (get "query" input) in
  let limit := int_of (default_to (VNum (NInt DEFAULT_LIMIT)) (get "limit" input)) in
  match searchProvider with
  | None => mret found
  | Some search =>
      if negb (bool_decide (get "include_untrusted" input = VBool true)) || containsCredential query then mret found
      else match search query with
           | Throw _ => mret found
           | Ok answer =>
               mret (found ++ take (Z.to_nat (limit - Z.of_nat (length found)))
                                (bridged query now [] (take MAX_AXON_RESULTS (axonItems answer))))
           end
  end.

(** ** The operator *)

Definition OPERATOR_POLICY_VERSION : string := "hseos-operational-v1".

Definition approval_record (op : memory_operation) (approvalId : string) (operator : value) (issued ttl_ms : Z) : value :=
  VObj [("approval_id", VStr approvalId); ("operation_id", VStr (operation_id op));
        ("authorizer", VObj [("id", get "id" operator); ("type", VStr "human")]);
        ("resource_scope", resource_scope op); ("issued_at", VStr (toISOString issued));
        ("expires_at", VStr (toISOString (issued + ttl_ms))); ("decision", VStr "approved");
        ("policy_version", VStr OPERATOR_POLICY_VERSION);
        ("evidence_ref", VStr ("hseos://operator/memory-promotion/" +:+ approvalId))].

(** The verifier of the operator's store: [granted] holds the one approval just issued. *)
Definition operator_verifier (op : memory_operation) (approvalId : string) : verifier :=
  MkVerifier (λ op' _, Ok (if operation_id op' =s operation_id op then VStr approvalId else VUndef))
    OPERATOR_POLICY_VERSION.

(** [openOperatorMemory(...).promote(input)] with the approval identifier and the clock readings it takes. *)
Definition operator_promote (reg : EventRegistry.registry) (operator : value) (ttl_ms : Z) (input : value) (approvalId : string)
    (issued : Z) (i : instants) : program value := λ w,
  match memoryPromoteOperation (get "project_id" input) (get "memory_id" input) (get "content_sha256" input) with
  | Throw e => (Throw e, w)
  | Ok op =>
      match Approvals.issue (approvals w) (approval_record op approvalId operator issued ttl_ms) with
      | Throw e => (Throw e, w)
      | Ok (_, s) =>
          promote date_parse reg (Some containsCredential) MAX_TTL_SECONDS (Some (operator_verifier op approvalId))
            input operator i (MkWorld (ledger w) s (projection w))
      end
  end.
End host.
