(* ===== verification/MemoryGuarantees.v ===== *)
(** * The guarantees of agent memory

    Theorems over every world that calls of the stores and changes made by others can reach. *)
From S2P Require Import Prelude JsValue CanonicalJson JsMap StrictJson Time OperationId MemoryPolicy MemoryStore.
From S2P Require Import MemoryEvents MemoryEntries MemoryRecords MemoryWorlds MemorySafety MemoryHost.
From S2P Require Ledger Approvals EventRegistry.

Section guarantees.
Context `{Sha256} (locale_le : string → string → bool) (date_parse : string → option Z).
Context (reg : EventRegistry.registry) (scanCredential : scanner) (maxTtlSeconds : Z).

(** ** Reachable worlds *)

(** A call of this store; a call of another store on the same database (its projection is
    its own); anything else that leaves the streams of memory alone, keeps the table and
    the approvals well formed and unspends no approval. *)
Inductive step : world → world → Prop :=
  | step_call verifier attest c i w :
      step w (run locale_le date_parse reg scanCredential maxTtlSeconds verifier attest c i w)
  | step_other verifier attest c i w w1 :
      w1 = run locale_le date_parse reg scanCredential maxTtlSeconds verifier attest c i
             (MkWorld (ledger w) (approvals w) []) →
      step w (MkWorld (ledger w1) (approvals w1) (projection w))
  | step_environment w w' :
      projection w' = projection w → Ledger.wf_db (table w') → Approvals.wf_store (approvals w') →
      spends (approvals w) (approvals w') →
      (∀ p, Ledger.stream_rows (table w') (memory_stream p) = Ledger.stream_rows (table w) (memory_stream p)) →
      step w w'.

(** The worlds in which every step before has met a table that can be numbered. *)
Inductive steps : world → world → Prop :=
  | steps_refl w : steps w w
  | steps_step w v u : steps w v → small (table v) → step v u → steps w u.

Record initial (w : world) : Prop := {
  initial_table : Ledger.wf_db (table w);
  initial_approvals : Approvals.wf_store (approvals w);
  initial_streams p : Ledger.stream_rows (table w) (memory_stream p) = [];
  initial_projection : projection w = [];
}.
Definition reachable (w : world) : Prop := ∃ w0, initial w0 ∧ steps w0 w.

Notation wf_world := (wf_world maxTtlSeconds).

Lemma initial_wf w : initial w → wf_world w.
Proof.
  intros [Ht Ha Hs Hp]. split; [done..| |by rewrite Hp]. intros p. exists []. split_and!; [|apply records_ok_nil|done].
  unfold stored, stream_events. by rewrite Hs.
Qed.

(** A cached projection stays the one of a prefix when its stream is extended. *)
Lemma coherent_develops w w' p c : develops w w' → coherent (table w) p c → coherent (table w') p c.
Proof.
  intros D (n & En & Hn & Hf). destruct (develops_history _ _ D p) as [rows E]. exists n. rewrite E.
  split_and!; [done|rewrite length_app; lia|]. by rewrite take_app_le.
Qed.

Lemma step_ok w w' : wf_world w → small (table w) → step w w' → wf_world w' ∧ develops w w'.
Proof.
  intros Hw Hsm Hst. destruct Hst as [v a c i w|v a c i w w1 ->|w w' Hp Ht Ha Hs Hrows].
  - by apply run_ok.
  - set (u := MkWorld (ledger w) (approvals w) []).
    assert (Hu : wf_world u) by (destruct Hw as [H1 H2 H3 H4]; by split).
    destruct (run_ok locale_le date_parse reg scanCredential maxTtlSeconds v a c i u Hu Hsm) as [[H1 H2 H3 H4] D].
    set (u' := run _ _ _ _ _ _ _ _ _ u) in *. split.
    + split; [done..|]. intros p x Hx. apply (coherent_develops u u'); [done|]. by apply (world_cache _ _ Hw).
    + destruct D. by split.
  - assert (Hev : ∀ p, stream_events (table w') p = stream_events (table w) p).
    { intros p. unfold stream_events. by rewrite Hrows. }
    apply wf_world_extends; try done; [|by rewrite Hp]. intros p rs Hrs. exists [], rs.
    destruct (stored_ok _ _ _ _ Hw Hrs). rewrite Hev, app_nil_r. split_and!; try done. by eapply records_ok_spends.
Qed.

Lemma steps_ok w w' : wf_world w → steps w w' → wf_world w' ∧ develops w w'.
Proof.
  intros Hw. induction 1 as [w|w v u _ IH Hsm Hst]; [by split|]. destruct (IH Hw) as [Hv D].
  destruct (step_ok _ _ Hv Hsm Hst) as [Hu D']. split; [done|by etrans].
Qed.

Lemma reachable_world_wf w : reachable w → wf_world w.
Proof. intros (w0 & Hi & Hs). by apply (steps_ok w0), Hs; apply initial_wf. Qed.

(** C9: in every reachable world the events of every project replay without an error; the
    records they make are under the identifier of their entry, hold a normal entry (a
    lower-case identifier, this project, at most 8 KiB of content, authority [data], a
    time to live within the ceiling, an untrusted origin only as untrusted) sealed by
    the digest of its content; a deleted record has a consumed approval for its
    deletion, a replaced one names its successor, a promoted one carries the facts of a
    promotion whose approval was consumed; and every cached projection is the replay of a
    prefix of its stream. *)
Theorem memory_invariant w : reachable w → wf_world w.
Proof. intros (w0 & Hi & Hs). by apply (steps_ok w0), Hs; apply initial_wf. Qed.

(** C13: memory is append-only: whatever happens after a record exists, its entry, its
    tokens and the facts of its promotion never change and its status only advances; a
    deletion is final. *)
Theorem records_evolve w w' p rs id r :
  reachable w → steps w w' → stored w p rs → assoc id rs = Some r →
  ∃ rs' r', stored w' p rs' ∧ assoc id rs' = Some r' ∧ entry r' = entry r ∧ promotion r' = promotion r ∧
    evolves (record_status r) (record_status r') = true ∧
    (record_status r = deleted → record_status r' = deleted).
Proof.
  intros Hr Hs Hrs Hid. destruct (steps_ok _ _ (reachable_world_wf _ Hr) Hs) as [_ D].
  destruct (develops_records _ _ D _ _ Hrs) as (rs' & Hrs' & Hg). destruct (Hg _ _ Hid) as (r' & Hr' & L).
  exists rs', r'. split_and!; try apply L; try done. intros E. pose proof (later_status _ _ L) as Hst.
  rewrite E in Hst. by destruct (record_status r').
Qed.

(** ** Approvals *)

(** C11: a deletion answers only to an operator, with an approval for exactly that entry of
    that project spent in the same transaction as its event: the entry is deleted, the other
    records are as before.  One that throws leaves the events and the approvals alone. *)
Theorem forget_outcome verifier input actor i w res w' :
  reachable w → small (table w) → forget reg scanCredential verifier input actor i w = (res, w') →
  match res with
  | Ok _ => ∃ p id rs rs', get "project_id" input = VStr p ∧ get "memory_id" input = VStr id ∧
      get "kind" actor = VStr "operator" ∧ stored w p rs ∧ stored w' p rs' ∧
      spent (approvals w) (approvals w') (delete_operation p id) ∧ status_at id rs' = Some deleted ∧
      (∀ id', id' ≠ id → assoc id' rs' = assoc id' rs) ∧ ∀ q, q ≠ p → ∀ rs, stored w q rs ↔ stored w' q rs
  | Throw _ => table w' = table w ∧ approvals w' = approvals w
  end.
Proof.
  intros Hr Hsm Hf. pose proof (forget_post locale_le date_parse reg scanCredential _ verifier input actor i w (reachable_world_wf _ Hr) Hsm) as HP.
  destruct res as [u|e].
  - destruct (post_elim _ _ _ _ _ _ HP Hf) as (p & id & rs & Ep & Eid & Hk & Hs & [_ _ Hsp (rs' & Hs' & Hd & Ho) Hoth]).
    exists p, id, rs, rs'. by split_and!.
  - destruct (post_elim_throw _ _ _ _ _ _ HP Hf) as [Et Ea _]. done.
Qed.

(** C10: a promotion answers only to an operator who named the digest of the stored content of
    an active, untrusted entry, with an approval for that project, entry and digest spent
    in the same transaction as its two events: the original is replaced by the promoted
    entry, whose identifier was free.  One that throws leaves the events and the approvals alone. *)
Theorem promote_outcome verifier input actor i w res w' :
  reachable w → small (table w) →
  promote date_parse reg scanCredential maxTtlSeconds verifier input actor i w = (res, w') →
  match res with
  | Ok _ => ∃ p id rs rs' r, get "project_id" input = VStr p ∧ get "memory_id" input = VStr id ∧
      get "kind" actor = VStr "operator" ∧ stored w p rs ∧ stored w' p rs' ∧
      assoc id rs = Some r ∧ record_status r = active ∧ get "trust" (entry r) ≠ VStr "trusted" ∧
      get "content_sha256" input = VStr (digest_of (entry r)) ∧
      spent (approvals w) (approvals w') (promote_operation p id (digest_of (entry r))) ∧
      assoc (promoted_id id) rs = None ∧
      status_at id rs' = Some superseded ∧ status_at (promoted_id id) rs' = Some active
  | Throw _ => table w' = table w ∧ approvals w' = approvals w
  end.
Proof.
  intros Hr Hsm Hf. pose proof (reachable_world_wf _ Hr) as Hw.
  pose proof (promote_post locale_le date_parse reg scanCredential _ verifier input actor i w Hw Hsm) as HP.
  destruct res as [u|e].
  - destruct (post_elim _ _ _ _ _ _ HP Hf)
      as (p & id & rs & r & Ep & Eid & Hk & Hs & Hid & Hact & Ht & Hd & [_ _ Hsp (rs' & Hs' & H1 & H2) _]).
    destruct (stored_ok _ _ _ _ Hw Hs) as [Hok Hl]. exists p, id, rs, rs', r. split_and!; try done.
    by eapply promoted_id_free.
  - destruct (post_elim_throw _ _ _ _ _ _ HP Hf) as [Et Ea _]. done.
Qed.

(** ** Attestation *)

Lemma attestation_of_use s u op : Approvals.wf_store s → u ∈ Approvals.execution_approval_uses s →
  Approvals.use_operation_id u = op → createPromotionAttestation s (Approvals.use_approval_id u) op = true.
Proof.
  intros Hs Hu Hop. apply existsb_true. exists u. split; [done|]. rewrite Hop, !String.eqb_refl. cbn [andb].
  destruct (Approvals.wf_uses _ Hs u Hu) as (a & Ha & Hid & Ho & Hd & _). apply existsb_true. exists a.
  split; [done|]. by rewrite Hid, Ho, Hd, Hop, !String.eqb_refl.
Qed.

Lemma attested_reserved w p rs id r :
  wf_world w → stored w p rs → assoc id rs = Some r →
  isAttestedPromotion (Some createPromotionAttestation) (approvals w) r p rs = Ok (ends_with PROMOTED_SUFFIX id).
Proof.
  intros Hw Hs Hr. destruct (stored_ok _ _ _ _ Hw Hs) as [Hok _]. pose proof (records_each _ _ _ _ Hok _ _ Hr) as Hrec.
  destruct (ends_with PROMOTED_SUFFIX id) eqn:Esuf.
  - destruct (record_promotion _ _ _ _ _ _ Hrec Esuf) as [Hsh (o & ro & _ & Hsup & Ho & _ & Hfrom & Hdig & Hop & u & Hu & Ha & Hou)].
    pose proof (record_entry _ _ _ _ _ _ Hrec) as [Hn Hd _]. fold (digest_of (entry r)) in Hd.
    assert (Hrp : promotion_recorded r p rs = true).
    { unfold promotion_recorded. rewrite Hsh, Hsup, Hd, Hfrom, Hdig, Ha. cbn [str_of is_string andb].
      by rewrite Ho, !bool_decide_eq_true_2. }
    unfold isAttestedPromotion. rewrite Hrp. cbn [negb].
    assert (Eop : memoryPromoteOperation (VStr p) (get "supersedes" (entry r)) (get "source_digest" (entry r)) =
      Ok (MkOperation PROMOTE_OPERATION (promote_operation_id p o (digest_of (entry r)))
        (VObj [("project_id", VStr p); ("memory_id", VStr o); ("content_sha256", VStr (digest_of (entry r)))]))).
    { destruct (normal_supersedes _ _ _ Hn) as [E|(o' & E & Hid)]; [by rewrite E in Hsup|].
      rewrite E in Hsup. injection Hsup as ->. destruct (normal_digest _ _ _ Hn) as (d & Ed & Hex).
      rewrite E, Hd. rewrite Hd in Ed. injection Ed as <-. unfold memoryPromoteOperation, requireIdentifier. cbn [is_string str_of andb].
      by rewrite (normal_project _ _ _ Hn), Hid, Hex. }
    rewrite Eop. cbn [mbind result_bind operation_id]. rewrite Hop, bool_decide_eq_true_2, Ha by done. cbn [andb str_of].
    by rewrite attestation_of_use; [|apply Hw|..].
  - destruct (record_policy _ _ _ _ _ _ Hrec Esuf) as [rule Hrule]. unfold isAttestedPromotion, promotion_recorded, isPromotedEntry.
    rewrite Hrule, (bool_decide_eq_false_2 (VStr ("rule:" +:+ rule) = VStr PROMOTE_POLICY_REF)) by done.
    by rewrite !andb_false_r.
Qed.

(** What the rows of the approvals have to say for the promotion of an entry of a project, for
    records that may come from any event, a forged one included: the entry claims the trust
    of an operator, its promotion names an original the project has and the digest of
    the content, and an approval that was granted for exactly that project,
    original and digest has been spent on it. *)
Record vouched (s : Approvals.store) (p : string) (rs : records) (r : record) (original : string) : Prop := {
  vouched_trust : get "origin" (entry r) = VStr "operator" ∧ get "trust" (entry r) = VStr "trusted" ∧
    get "write_policy_ref" (entry r) = VStr PROMOTE_POLICY_REF;
  vouched_original : get "supersedes" (entry r) = VStr original ∧ is_Some (assoc original rs) ∧
    get "promoted_from" (promotion r) = VStr original;
  vouched_content : get "source_digest" (entry r) = VStr (digest_of (entry r)) ∧
    get "content_sha256" (promotion r) = VStr (digest_of (entry r)) ∧
    get "source_ref" (entry r) = VStr (promotedSourceRef p original (digest_of (entry r)));
  vouched_names : IDENTIFIER p = true ∧ IDENTIFIER original = true;
  vouched_operation : record_operation_id r = VStr (promote_operation_id p original (digest_of (entry r)));
  vouched_approval : ∃ a u, a ∈ Approvals.execution_approvals s ∧ u ∈ Approvals.execution_approval_uses s ∧
    get "approval_id" (promotion r) = VStr (Approvals.approval_id a) ∧
    Approvals.use_approval_id u = Approvals.approval_id a ∧ Approvals.decision a = "approved" ∧
    Approvals.operation_id a = promote_operation_id p original (digest_of (entry r)) ∧
    Approvals.use_operation_id u = promote_operation_id p original (digest_of (entry r));
}.

(** Ways to a promotion fact: the shape of the entry, and the record of the promotion. *)
Lemma isPromotedEntry_iff e p : isPromotedEntry e p = true ↔
  ∃ original, get "origin" e = VStr "operator" ∧ get "trust" e = VStr "trusted" ∧
    get "write_policy_ref" e = VStr PROMOTE_POLICY_REF ∧ get "supersedes" e = VStr original ∧
    get "source_digest" e = VStr (digest_of e) ∧
    get "source_ref" e = VStr (promotedSourceRef p original (digest_of e)).
Proof.
  unfold isPromotedEntry. rewrite !andb_true_iff, !bool_decide_eq_true. fold (digest_of e). split.
  - intros [[[[[Ho Ht] Hw] Hs] Hd] Hr]. destruct (get "supersedes" e) as [| | | |original| |] eqn:Es; try done.
    exists original. rewrite Hd in Hr. done.
  - intros (original & -> & -> & -> & -> & -> & ->). done.
Qed.

Lemma promotion_recorded_iff r p rs : promotion_recorded r p rs = true ↔
  ∃ original approval, isPromotedEntry (entry r) p = true ∧ get "supersedes" (entry r) = VStr original ∧
    is_Some (assoc original rs) ∧ get "promoted_from" (promotion r) = VStr original ∧
    get "content_sha256" (promotion r) = get "source_digest" (entry r) ∧
    get "approval_id" (promotion r) = VStr approval.
Proof.
  unfold promotion_recorded. rewrite !andb_true_iff, !bool_decide_eq_true. split.
  - intros [[[[Hsh Ho] Hf] Hc] Ha]. pose proof (proj1 (isPromotedEntry_iff _ _) Hsh) as (original & _ & _ & _ & Es & _).
    rewrite Es in *. destruct (get "approval_id" _) as [| | | |approval| |] eqn:Ea; try done.
    by exists original, approval.
  - intros (original & approval & Hsh & -> & Ho & -> & -> & ->). done.
Qed.

Lemma attestation_iff s approval op : createPromotionAttestation s approval op = true ↔
  ∃ a u, a ∈ Approvals.execution_approvals s ∧ u ∈ Approvals.execution_approval_uses s ∧
    Approvals.approval_id a = approval ∧ Approvals.use_approval_id u = approval ∧ Approvals.decision a = "approved" ∧
    Approvals.operation_id a = op ∧ Approvals.use_operation_id u = op.
Proof.
  unfold createPromotionAttestation. rewrite existsb_true. split.
  - intros (u & Hu & E). rewrite !andb_true_iff, existsb_true in E. destruct E as [[E1 E2] (a & Ha & E)].
    bool_props. exists a, u. split_and!; congruence || done.
  - intros (a & u & Ha & Hu & E1 & E2 & E3 & E4 & E5). exists u. split; [done|].
    rewrite !andb_true_iff, existsb_true. split_and!; [by apply String.eqb_eq..|].
    exists a. split; [done|]. rewrite E1, E2, E3, E4, !String.eqb_refl. done.
Qed.

Lemma memoryPromoteOperation_ok p o d op :
  memoryPromoteOperation (VStr p) (VStr o) (VStr d) = Ok op →
  IDENTIFIER p = true ∧ IDENTIFIER o = true ∧ operation_id op = promote_operation_id p o d.
Proof.
  unfold memoryPromoteOperation, requireIdentifier. cbn [is_string str_of andb]. intros E. inv_ok E.
  repeat inv_throw_if. bool_props. by subst op.
Qed.

Lemma sha256Text_hex t : SHA256_HEX (sha256Text t) = true.
Proof. unfold SHA256_HEX, sha256Text. by rewrite sha256_length, sha256_digits. Qed.

Lemma memoryPromoteOperation_names p o t : IDENTIFIER p = true → IDENTIFIER o = true →
  ∃ op, memoryPromoteOperation (VStr p) (VStr o) (VStr (sha256Text t)) = Ok op ∧
    operation_id op = promote_operation_id p o (sha256Text t).
Proof.
  intros Hp Ho. unfold memoryPromoteOperation, requireIdentifier. cbn [is_string str_of andb].
  rewrite Hp, Ho, sha256Text_hex. by eexists.
Qed.

(** The answer of the store, record by record: exactly what the approvals vouch for. *)
Lemma attested_vouched s p rs r :
  isAttestedPromotion (Some createPromotionAttestation) s r p rs = Ok true ↔ ∃ original, vouched s p rs r original.
Proof.
  unfold isAttestedPromotion. split.
  - destruct (promotion_recorded r p rs) eqn:Erec; [|done]. cbn [negb].
    apply promotion_recorded_iff in Erec as (original & approval & Hsh & Es & Ho & Ef & Ec & Ea).
    apply isPromotedEntry_iff in Hsh as (original' & Eo & Et & Ew & Es' & Ed & Er).
    rewrite Es in Es'. injection Es' as <-. rewrite Es, Ed. rewrite Ed in Ec. intros E.
    apply bind_ok in E as (op & Eop & E). apply memoryPromoteOperation_ok in Eop as (Hp & Hor & Eid). injection E as E.
    apply andb_true_iff in E as [Eop Eat]. apply bool_decide_eq_true in Eop. rewrite Ea in Eat. cbn [str_of] in Eat.
    apply attestation_iff in Eat as (a & u & Ha & Hu & E1 & E2 & E3 & E4 & E5). exists original.
    split; [done..|by rewrite Eop, Eid|]. exists a, u. rewrite <-Eid, Ea. split_and!; congruence || done.
  - intros (original & [(Eo & Et & Ew) (Es & Ho & Ef) (Ed & Ec & Er) [Hp Hor] Eop (a & u & Ha & Hu & Ea & E1 & E2 & E3 & E4)]).
    assert (Hsh : isPromotedEntry (entry r) p = true) by (apply isPromotedEntry_iff; by exists original).
    assert (Hrec : promotion_recorded r p rs = true).
    { apply promotion_recorded_iff. exists original, (Approvals.approval_id a). by rewrite Ed. }
    destruct (memoryPromoteOperation_names p original (str_of (get "content" (entry r))) Hp Hor) as (op & E & Eid).
    rewrite Hrec, Es, Ed. cbn [negb]. unfold digest_of at 1. rewrite E. cbn [mbind result_bind]. f_equal.
    rewrite andb_true_iff, bool_decide_eq_true, Eid. split; [done|]. rewrite Ea. cbn [str_of]. apply attestation_iff.
    by exists a, u.
Qed.

Lemma digest_of_operation p1 o1 t1 p2 o2 t2 :
  promote_operation_id p1 o1 (sha256Text t1) = promote_operation_id p2 o2 (sha256Text t2) → sha256Text t1 = sha256Text t2.
Proof.
  unfold promote_operation_id, sha256Text. rewrite <-!app_assoc_s. intros E.
  by apply append_same_length in E as [_ ?]; [|by rewrite !sha256_length].
Qed.

(** C12: what it takes to be trusted.  For any records, whatever the events they were folded
    from (forged events among them), the store proves a promotion exactly when the
    approvals vouch for it: it answers [true] for no entry without an original, with another digest, for
    another operation or with an approval that was not granted and spent on that very
    operation.  One approval vouches for one content only, whatever the projects and records that
    name it.  Where no event is forged (in the worlds the stores reach), the proved
    records are those under the reserved suffix: no written entry passes for a promoted
    one, and every promoted one is proved. *)
Theorem attested_iff_promoted :
  (∀ s p rs r, isAttestedPromotion (Some createPromotionAttestation) s r p rs = Ok true ↔
     ∃ original, vouched s p rs r original) ∧
  (∀ s p1 rs1 r1 p2 rs2 r2, Approvals.wf_store s →
     isAttestedPromotion (Some createPromotionAttestation) s r1 p1 rs1 = Ok true →
     isAttestedPromotion (Some createPromotionAttestation) s r2 p2 rs2 = Ok true →
     get "approval_id" (promotion r1) = get "approval_id" (promotion r2) →
     record_operation_id r1 = record_operation_id r2 ∧ digest_of (entry r1) = digest_of (entry r2)) ∧
  (∀ w p rs id r, reachable w → stored w p rs → assoc id rs = Some r →
     isAttestedPromotion (Some createPromotionAttestation) (approvals w) r p rs = Ok (ends_with PROMOTED_SUFFIX id)).
Proof.
  split_and!; [apply attested_vouched| |].
  - intros s p1 rs1 r1 p2 rs2 r2 Hs H1 H2 E. apply attested_vouched in H1 as (o1 & V1), H2 as (o2 & V2).
    destruct V1 as [_ _ _ _ Eop1 (a1 & u1 & _ & Hu1 & Ea1 & Eu1 & _ & _ & Ou1)].
    destruct V2 as [_ _ _ _ Eop2 (a2 & u2 & _ & Hu2 & Ea2 & Eu2 & _ & _ & Ou2)].
    assert (u1 = u2) as <- by (eapply Approvals.use_unique; congruence || done).
    split; [congruence|]. apply (digest_of_operation p1 o1 _ p2 o2). unfold digest_of in *. congruence.
  - intros w p rs id r Hr. by apply attested_reserved, reachable_world_wf.
Qed.

(** ** Writing *)

(** C34: a write answers only for the entry it was given (its identifier, content, origin,
    trust, classification, source and predecessor are those of the input) when the host
    admits it: normal, sealed, outside of the reserved suffix, free of credentials, by a rule of
    the policy, of an operator when its origin says so.  It spends no approval and, when the caller expects
    no other version, it stores that entry as an active record under an identifier the
    project had not used.  A write that throws leaves the events and the approvals alone. *)
Theorem write_outcome input h i w res w' :
  reachable w → small (table w) →
  write locale_le date_parse reg scanCredential maxTtlSeconds input h i w = (res, w') →
  match res with
  | Ok _ => ∃ p e actor, accept_entry locale_le date_parse scanCredential maxTtlSeconds input h (at_start i) = Ok (e, actor) ∧
      Forall (λ k, get k e = get k input)
        ["memory_id"; "content"; "origin"; "trust"; "classification"; "source_ref"; "supersedes"] ∧
      admitWrite locale_le (rules h) (approved h) (execution_mode h) = Ok (get "write_policy_ref" e) ∧
      assertNoCredential e scanCredential = Ok () ∧
      admitted maxTtlSeconds p e actor ∧ approvals w' = approvals w ∧
      (is_undefined (expected_version h) = true → ∃ id r rs rs', get "memory_id" e = VStr id ∧
         stored w p rs ∧ assoc id rs = None ∧ stored w' p rs' ∧ assoc id rs' = Some r ∧ record_status r = active ∧
         entry r = Ledger.json_column e)
  | Throw _ => table w' = table w ∧ approvals w' = approvals w
  end.
Proof.
  intros Hr Hsm Hf.
  pose proof (write_post locale_le date_parse reg scanCredential _ input h i w (reachable_world_wf _ Hr) Hsm) as HP.
  destruct res as [u|e].
  - destruct (post_elim _ _ _ _ _ _ HP Hf) as (e & actor & Had & [_ _ Ha Hst _]).
    destruct (accept_agrees _ _ _ _ _ _ _ _ _ Had) as (Hg & Hp & Hc).
    exists (project_of e), e, actor. split_and!; [done..|by eapply admit_ok|done|].
    intros Hv. apply Hst. by destruct (expected_version h).
  - destruct (post_elim_throw _ _ _ _ _ _ HP Hf) as [Et Ea _]. done.
Qed.

Lemma reachable_step w w' : reachable w → small (table w) → step w w' → reachable w'.
Proof. intros (w0 & Hi & Hs) Hsm Hst. exists w0. split; [done|by eapply steps_step]. Qed.
End guarantees.

(** ** The operator *)

Section operator.
Context `{Sha256} (locale_le : string → string → bool) (date_parse : string → option Z).
Context (reg : EventRegistry.registry) (containsCredential : string → bool).

Notation reachable := (reachable locale_le date_parse reg (Some containsCredential) MAX_TTL_SECONDS).

(** C15: the operator's command, end to end: when it answers, the promoted record exists, a
    task context will trust it, and an approval was spent for that project, entry and
    digest; when it throws, no event was added and no approval spent, even if one was issued. *)
Theorem operator_promotion operator ttl_ms input approvalId issued i w res w' :
  reachable w → small (table w) →
  operator_promote date_parse containsCredential reg operator ttl_ms input approvalId issued i w = (res, w') →
  match res with
  | Ok _ => ∃ p id digest rs' r', get "project_id" input = VStr p ∧ get "memory_id" input = VStr id ∧
      get "content_sha256" input = VStr digest ∧ consumed (approvals w') (promote_operation_id p id digest) ∧
      stored w' p rs' ∧ assoc (promoted_id id) rs' = Some r' ∧ record_status r' = active ∧
      isAttestedPromotion (Some createPromotionAttestation) (approvals w') r' p rs' = Ok true
  | Throw _ => table w' = table w ∧
      Approvals.execution_approval_uses (approvals w') = Approvals.execution_approval_uses (approvals w)
  end.
Proof.
  intros Hr Hsm Hop. pose proof (reachable_world_wf _ _ _ _ _ _ Hr) as Hw. unfold operator_promote in Hop.
  destruct (memoryPromoteOperation _ _ _) as [op|e]; [|by injection Hop as <- <-].
  destruct (Approvals.issue _ _) as [[v s]|e] eqn:Ei; [|by injection Hop as <- <-].
  destruct (Approvals.issue_ok _ _ _ _ (world_approvals _ _ Hw) Ei) as [Hs Eu].
  set (u := MkWorld (ledger w) s (projection w)) in *.
  assert (Hu : wf_world MAX_TTL_SECONDS u).
  { eapply (reachable_world_wf locale_le date_parse reg (Some containsCredential)).
    eapply reachable_step; [exact Hr|done|]. apply step_environment; try done; [apply Hw|].
    unfold spends, u. cbn [approvals]. by rewrite Eu. }
  pose proof (promote_post locale_le date_parse reg (Some containsCredential) _ (Some (operator_verifier op approvalId))
    input operator i u Hu Hsm) as HP.
  destruct res as [x|e].
  - destruct (post_elim _ _ _ _ _ _ HP Hop)
      as (p & id & rs & r & Ep & Eid & _ & _ & _ & _ & _ & Hd & [Hw' _ (use & a & Huse & Hopu & _) (rs' & Hs' & _ & Hst) _]).
    unfold status_at in Hst. destruct (assoc (promoted_id id) rs') as [r'|] eqn:Er; [|done]. cbn in Hst.
    injection Hst as Hact. exists p, id, (digest_of (entry r)), rs', r'. split_and!; try done.
    + exists use. rewrite Huse. split; [set_solver|done].
    + rewrite (attested_reserved _ _ _ _ _ _ Hw' Hs' Er). by rewrite ends_with_promoted.
  - destruct (post_elim_throw _ _ _ _ _ _ HP Hop) as [Et Ea _]. rewrite Ea, Et. done.
Qed.
End operator.
