(* ===== verification/MemoryRetrieval.v ===== *)
(** * Retrieval

    The ranking is a total order and the best of it is what is answered; what a source may
    claim; and that the cached projection never shows in an answer. *)
From S2P Require Import Prelude JsValue CanonicalJson JsMap StrictJson Time OperationId MemoryPolicy MemoryStore.
From S2P Require Import MemoryEvents MemoryEntries MemoryRecords MemoryWorlds MemorySafety MemoryHost MemoryGuarantees.
From S2P Require Ledger Approvals EventRegistry.

(** ** Lexicographic orders *)

Section lexicographic.
Context {A : Type}.
Implicit Types (le : A → A → bool).

Definition lex_le le1 le2 (a b : A) : bool := le1 a b && (negb (le1 b a) || le2 a b).

Lemma lex_le_order le1 le2 : LebOrder le1 → LebOrder le2 → LebOrder (lex_le le1 le2).
Proof.
  intros O1 O2. split; unfold lex_le.
  - intros x y. pose proof (leb_total le1 x y). pose proof (leb_total le2 x y).
    destruct (le1 x y), (le1 y x), (le2 x y), (le2 y x); naive_solver.
  - intros x y z. pose proof (leb_trans le1 x y z) as T1. pose proof (leb_trans le1 z x y) as T2.
    pose proof (leb_trans le1 y z x) as T3. pose proof (leb_trans le2 x y z) as T4.
    destruct (le1 x y), (le1 y x), (le1 y z), (le1 z y), (le1 x z), (le1 z x), (le2 x y), (le2 y z), (le2 x z); naive_solver.
Qed.

Lemma leb_on_order {B} (f : A → B) (le : B → B → bool) : LebOrder le → LebOrder (λ a b, le (f a) (f b)).
Proof. intros O. split; intros; [by apply leb_total|by eapply leb_trans]. Qed.
Lemma leb_flip_order le : LebOrder le → LebOrder (λ a b, le b a).
Proof.
  intros O. split; [intros x y; by apply leb_total|]. intros x y z H1 H2. by eapply leb_trans.
Qed.
End lexicographic.

#[export] Instance nat_leb_order : LebOrder Nat.leb.
Proof. split; intros *; rewrite ?Nat.leb_le; lia. Qed.

(** The order of the sort, as a lexicographic order. *)
Definition ranking_order : ranked → ranked → bool :=
  lex_le (λ a b, score b <=? score a)%nat
    (lex_le (λ a b, String.leb (field_text "created_at" b) (field_text "created_at" a))
       (λ a b, String.leb (field_text "memory_id" a) (field_text "memory_id" b))).

Lemma string_lt_leb a b : string_lt a b = negb (String.leb b a).
Proof.
  unfold string_lt, String.ltb, String.leb. rewrite (String.compare_antisym b a). by destruct (String.compare a b).
Qed.

Lemma ranks_before_lex a b : ranks_before a b = ranking_order a b.
Proof.
  unfold ranks_before, ranking_order, lex_le. rewrite !string_lt_leb.
  pose proof (leb_total String.leb (field_text "created_at" a) (field_text "created_at" b)) as T.
  destruct (Nat.ltb_spec (score b) (score a)).
  - rewrite (proj2 (Nat.leb_le _ _)), (proj2 (Nat.leb_gt _ _)) by lia. done.
  - destruct (Nat.ltb_spec (score a) (score b)).
    + by rewrite (proj2 (Nat.leb_gt _ _)) by lia.
    + rewrite !(proj2 (Nat.leb_le _ _)) by lia. cbn [andb negb orb].
      destruct (String.leb (field_text "created_at" a) _), (String.leb (field_text "created_at" b) _); naive_solver.
Qed.

#[export] Instance ranks_before_order : LebOrder ranks_before.
Proof.
  assert (O : LebOrder ranking_order).
  { apply lex_le_order; [apply (leb_flip_order (λ a b, score a <=? score b)%nat), leb_on_order; apply _|].
    apply lex_le_order; [apply (leb_flip_order (λ a b, String.leb (field_text "created_at" a) (field_text "created_at" b)))|];
      apply leb_on_order; apply string_leb_order. }
  split; intros *; rewrite !ranks_before_lex; [by apply leb_total|by apply leb_trans].
Qed.

Section retrieval.
Context `{Sha256} (locale_le : string → string → bool) (date_parse : string → option Z).
Context (reg : EventRegistry.registry) (scanCredential : scanner) (maxTtlSeconds : Z).

Lemma elem_of_candidates terms untrusted now rs c :
  c ∈ candidates date_parse terms untrusted now rs ↔
    ∃ id r, (id, r) ∈ rs ∧ eligible date_parse untrusted now r = true ∧ c = MkRanked r (score_of terms r) ∧
      (0 < score_of terms r)%nat.
Proof.
  unfold candidates. rewrite list_filter_elem, list_elem_of_fmap, Nat.ltb_lt. split.
  - intros [([id r] & -> & [Hin He]%list_filter_elem) Hs]. eauto 8.
  - intros (id & r & Hin & He & -> & Hs). split; [|done]. exists (id, r). split; [done|]. by apply list_filter_elem.
Qed.

(** The answer to a query is the best of its matches: only active, unexpired entries that
    share a word with it (untrusted ones when asked for), as many as the limit allows, in
    order, and no match left out ranks before one that is answered. *)
Theorem ranking_spec terms untrusted now limit rs :
  let all := candidates date_parse terms untrusted now rs in
  let best := ranking date_parse terms untrusted now limit rs in
  (∀ c, c ∈ all ↔ ∃ id r, (id, r) ∈ rs ∧ eligible date_parse untrusted now r = true ∧
     c = MkRanked r (score_of terms r) ∧ (0 < score_of terms r)%nat) ∧
  length best = Nat.min limit (length all) ∧ StronglySorted (le_of ranks_before) best ∧
  ∃ rest, best ++ rest ≡ₚ all ∧ ∀ a b, a ∈ best → b ∈ rest → ranks_before a b = true.
Proof.
  intros all best. split; [intros c; apply elem_of_candidates|].
  pose proof (sort_by_sorted ranks_before all) as Hsort.
  assert (E : best ++ drop limit (sort_by ranks_before all) = sort_by ranks_before all) by apply take_drop.
  rewrite <- E in Hsort. apply StronglySorted_app in Hsort as (Hcross & Hbest & _). split_and!; [|done|].
  - unfold best, ranking. by rewrite length_take, length_sort_by.
  - exists (drop limit (sort_by ranks_before all)). split; [by rewrite E, sort_by_perm|].
    intros a b Ha Hb. by apply (Hcross a b).
Qed.

(** ** Sources *)

(** What a source of the project [p] says of the record [r] it was made from. *)
Record source_says (p : string) (now : Z) (trusted : bool) (index : nat) (e source : value) : Prop := {
  says_ref : get "source_ref" source = VStr ("memory://" +:+ p +:+ "/" +:+ str_of (get "memory_id" e));
  says_content : get "content" source = get "content" e;
  says_authority : get "authority" source = VStr "data";
  says_digest : get "digest" (get "provenance" source) = get "source_digest" e;
  says_trust : get "trust" (get "provenance" source) = VStr (if trusted then "trusted" else "untrusted");
  says_priority : get "priority" source = VNum (NInt (Z.max 0 (100 - Z.of_nat index)));
}.

Lemma imap_result_lookup {A B} (f : nat → A → result B) i l k j y :
  imap_result f i l = Ok k → k !! j = Some y → ∃ x, l !! j = Some x ∧ f (i + j)%nat x = Ok y.
Proof.
  revert i k j. induction l as [|x l IH]; intros i k j Hk Hy; cbn [imap_result] in Hk; [by injection Hk as <-|].
  apply bind_ok in Hk as (b & Hb & Hk). apply bind_ok in Hk as (k' & Hk' & Hk). injection Hk as <-.
  destruct j as [|j]; [injection Hy as <-; exists x; by rewrite Nat.add_0_r|].
  destruct (IH (S i) k' j Hk' Hy) as (x' & Hx & Hf). exists x'. split; [done|].
  by replace (i + S j)%nat with (S i + j)%nat by lia.
Qed.

Lemma imap_result_length {A B} (f : nat → A → result B) i l k : imap_result f i l = Ok k → length k = length l.
Proof. intros HF%imap_result_elem. symmetry. by eapply Forall2_length. Qed.

(** C14: a source answered in any reachable world is an active, unexpired entry of the project
    asked, carries authority [data] and the digest its content was sealed with, and is
    trusted only in a task context and only for a promotion the store can prove; an
    untrusted entry is answered only when asked for. *)
Theorem retrieved_sources input boundary i w l w' :
  reachable locale_le date_parse reg scanCredential maxTtlSeconds w → small (table w) →
  retrieve date_parse (Some createPromotionAttestation) input boundary i w = (Ok l, w') →
  ∃ p limit rs, get "project_id" input = VStr p ∧ check_query input = Ok limit ∧ stored w p rs ∧
    (length l ≤ Z.to_nat limit)%nat ∧
    ∀ index source, l !! index = Some source →
      ∃ id r, assoc id rs = Some r ∧ record_status r = active ∧ isExpired date_parse r (at_start i) = false ∧
        source_says p (at_start i) (bool_decide (boundary = VStr "context") && ends_with PROMOTED_SUFFIX id) index
          (entry r) source ∧
        (get "trust" (entry r) = VStr "untrusted" → get "include_untrusted" input = VBool true).
Proof.
  intros Hr Hsm HR. pose proof (reachable_world_wf _ _ _ _ _ _ Hr) as Hw.
  destruct (post_elim _ _ _ _ _ _ (retrieve_post date_parse maxTtlSeconds _ input boundary i w Hw Hsm) HR)
    as (_ & p & limit & rs & Ep & Hs & Hq & Hl).
  exists p, limit, rs. split_and!; try done.
  { rewrite (imap_result_length _ _ _ _ Hl). unfold ranking. rewrite length_take. lia. }
  intros index source Hi. destruct (imap_result_lookup _ _ _ _ _ _ Hl Hi) as (c & Ec & Hc0).
  assert (Hc : c ∈ candidates date_parse (tokenize (str_of (get "query" input)))
    (bool_decide (get "include_untrusted" input = VBool true)) (at_start i) rs).
  { apply list_elem_of_lookup_2 in Ec. unfold ranking in Ec. apply elem_of_take in Ec as (j & Ec & _).
    apply list_elem_of_lookup_2 in Ec. by apply elem_of_sort_by in Ec. }
  apply elem_of_candidates in Hc as (id & r & Hin & He & -> & _). cbn [ranked_record].
  destruct (stored_ok _ _ _ _ Hw Hs) as [Hok _]. apply assoc_elem_of in Hin; [|apply Hok]. cbn [ranked_record] in Hc0.
  rewrite (attested_reserved _ _ _ _ _ _ Hw Hs Hin) in Hc0.
  unfold eligible, is_active in He. bool_props. exists id, r. split_and!; try done.
  - assert (Es : source = source_of p (at_start i)
      (bool_decide (boundary = VStr "context") && ends_with PROMOTED_SUFFIX id) index (entry r)).
    { destruct (bool_decide (boundary = VStr "context")); cbn [andb mbind result_bind] in *; by injection Hc0. }
    rewrite Es. pose proof (stored_digest _ _ _ (record_entry _ _ _ _ _ _ (records_each _ _ _ _ Hok _ _ Hin))) as Hd.
    by split.
  - intros Ht. rewrite Ht in *. match goal with E : _ || _ = true |- _ => apply orb_true_iff in E as [E|E] end; by bool_props.
Qed.

(** ** The cache never shows *)

(** The same data. *)
Definition agree (w w' : world) : Prop := ledger w = ledger w' ∧ approvals w = approvals w'.
(** The same answer, over the same data. *)
Definition same {A} (m : program A) (w w' : world) : Prop :=
  (m w).1 = (m w').1 ∧ agree (m w).2 (m w').2.

Lemma same_bind {A B} (m : program A) (f : A → program B) w w' :
  same m w w' → (∀ a v v', agree v v' → same (f a) v v') → same (m ≫= f) w w'.
Proof.
  intros [E1 E2] Hf. cbv [same mbind program_bind]. destruct (m w) as [[a|e] v], (m w') as [[a'|e'] v']; cbn in *;
    try done; injection E1 as <-; [by apply Hf|done].
Qed.
Lemma same_lift {A} (r : result A) w w' : agree w w' → same (lift r) w w'.
Proof. done. Qed.
Lemma same_ret {A} (a : A) w w' : agree w w' → same (mret a) w w'.
Proof. done. Qed.

Lemma same_append p expected actor i fs w w' : agree w w' → same (append_ reg p expected actor i fs) w w'.
Proof.
  intros [El Ea]. unfold same, append_. rewrite <- El. by destruct (append_facts _ _ _ _ _ _ _) as [[v|e] l].
Qed.
Lemma same_approval verifier op what p actor i f w w' : agree w w' → same (withApproval verifier op what p actor i f) w w'.
Proof.
  intros [El Ea]. unfold same, withApproval. destruct verifier as [h|]; [|done]. rewrite <- El, <- Ea.
  by destruct (execution_approval_verifier _ _ _ _ _ _ _) as [[[b|e] s] l].
Qed.

Lemma same_state p w w' : wf_world maxTtlSeconds w → wf_world maxTtlSeconds w' → small (table w) →
  IDENTIFIER p = true → agree w w' → same (state_of p) w w'.
Proof.
  intros Hw Hw' Hsm Hp [El Ea]. assert (Et : table w' = table w) by (unfold table; by rewrite El).
  pose proof (state_of_post maxTtlSeconds w p Hw Hsm Hp) as P1.
  pose proof (state_of_post maxTtlSeconds w' p Hw' ltac:(by rewrite Et) Hp) as P2.
  unfold post in *. unfold same. destruct (state_of p w) as [[c|e] v] eqn:E1; [|done].
  destruct (state_of p w') as [[c'|e] v'] eqn:E2; [|done].
  destruct P1 as (U1 & V1 & S1), P2 as (U2 & V2 & S2). cbn.
  assert (c = c') as <-.
  { unfold version, stored in *. rewrite Et in V2, S2. destruct c, c'. cbn in *. congruence. }
  split; [done|]. assert (Hkeep : ∀ u c u', state_of p u = (Ok c, u') → ledger u' = ledger u ∧ approvals u' = approvals u).
  { intros u d u'. unfold state_of. destruct (Ledger.getVersion _ _ _); [|done]. destruct (cached_at _ _ _).
    - by intros [= _ <-].
    - destruct (read_records _ _); [|done]. by intros [= _ <-]. }
  destruct (Hkeep _ _ _ E1), (Hkeep _ _ _ E2). split; congruence.
Qed.

Lemma same_guarded {A B} (r : result A) (f : A → program B) w w' :
  agree w w' → (∀ a, r = Ok a → same (f a) w w') → same (lift r ≫= f) w w'.
Proof. intros HA Hf. destruct r as [a|e] eqn:E; [by apply (Hf a)|done]. Qed.

Ltac same_rest :=
  repeat match goal with
  | |- same (let _ := _ in _) _ _ => cbv zeta
  | |- same (_ ≫= _) _ _ => apply same_bind; [|intros ? ? ? ?]
  | |- same (lift _) _ _ => by apply same_lift
  | |- same (mret _) _ _ => by apply same_ret
  | |- same (append_ _ _ _ _ _ _) _ _ => by apply same_append
  | |- same (withApproval _ _ _ _ _ _ _) _ _ => by apply same_approval
  | |- same (match ?x with _ => _ end) _ _ => destruct x
  end.

(** C16: the projection is disposable: dropping it, or having the one of any earlier version
    of the streams, changes neither what an operation answers or throws nor what it does
    to the ledger and the approvals. *)
Theorem projection_transparent w proj verifier attest input boundary projectId memoryId h actor i :
  reachable locale_le date_parse reg scanCredential maxTtlSeconds w → small (table w) →
  (∀ p c, assoc p proj = Some c → coherent (table w) p c) →
  let w' := MkWorld (ledger w) (approvals w) proj in
  same (write locale_le date_parse reg scanCredential maxTtlSeconds input h i) w w' ∧
  same (sweepExpired date_parse reg scanCredential projectId actor i) w w' ∧
  same (forget reg scanCredential verifier input actor i) w w' ∧
  same (promote date_parse reg scanCredential maxTtlSeconds verifier input actor i) w w' ∧
  same (inspect projectId memoryId) w w' ∧ same (list_ date_parse projectId i) w w' ∧
  same (retrieve date_parse attest input boundary i) w w'.
Proof.
  intros Hr Hsm Hproj w'. pose proof (reachable_world_wf _ _ _ _ _ _ Hr) as Hw.
  assert (Hw' : wf_world maxTtlSeconds w') by (destruct Hw; by split).
  assert (HA : agree w w') by done.
  assert (Hstate : ∀ A p (f : cached → program A), IDENTIFIER p = true →
      (∀ c v v', agree v v' → same (f c) v v') → same (state_of p ≫= f) w w').
  { intros A p f Hp Hf. apply same_bind; [by apply same_state|done]. }
  split_and!.
  - apply same_guarded; [done|]. intros [e a] Had%admit_ok. apply Hstate; [apply Had|]. intros c v v' Hv. same_rest.
  - apply same_guarded; [done|]. intros u1 (p & -> & Hp)%requireIdentifier_ok. apply same_guarded; [done|]. intros a _.
    apply Hstate; [done|]. intros c v v' Hv. cbn zeta. same_rest.
  - apply same_guarded; [done|]. intros u1 (p & -> & Hp)%requireIdentifier_ok. apply same_guarded; [done|].
    intros u2 _. do 3 (apply same_guarded; [done|]; intros ? _). apply Hstate; [done|]. intros c v v' Hv. same_rest.
  - apply same_guarded; [done|]. intros u1 (p & -> & Hp)%requireIdentifier_ok. apply same_guarded; [done|].
    intros u2 _. do 3 (apply same_guarded; [done|]; intros ? _). apply Hstate; [done|]. intros c v v' Hv. cbn zeta. same_rest.
  - apply same_guarded; [done|]. intros u1 (p & -> & Hp)%requireIdentifier_ok. apply same_guarded; [done|]. intros u2 _.
    apply Hstate; [done|]. intros c v v' Hv. same_rest.
  - apply same_guarded; [done|]. intros u1 (p & -> & Hp)%requireIdentifier_ok.
    apply Hstate; [done|]. intros c v v' Hv. same_rest.
  - apply same_guarded; [done|]. intros n Hn. destruct (check_query_ok _ _ Hn) as (_ & p & Ep & Hp). rewrite Ep.
    apply Hstate; [done|]. intros c v v' Hv. apply same_bind; [|intros; by apply same_lift].
    destruct Hv as [El Ea]. split; [cbn; by rewrite Ea|by split].
Qed.
End retrieval.
