(* ===== verification/MemoryExamples.v ===== *)
(** * Agent memory, run

    A note written, promoted by the operator, retrieved and deleted: the witnesses of the
    theorems about memory. *)
From S2P Require Import Prelude JsValue CanonicalJson JsMap StrictJson Time OperationId MemoryPolicy MemoryStore.
From S2P Require Import MemoryEvents MemoryEntries MemoryRecords MemoryWorlds MemorySafety MemoryHost MemoryGuarantees MemoryRetrieval.
From S2P Require PolicyLattice EventRegistry Ledger Approvals.

(** ** Parameters *)

(** A digest that tells the texts of the examples apart: 64 hexadecimal digits of a polynomial. *)
Definition nibble (n : N) : ascii := Ascii.ascii_of_N (if (n <? 10)%N then 48 + n else 87 + n)%N.
Fixpoint hex_digits (width : nat) (n : N) : string :=
  match width with
  | 0%nat => ""
  | S width => String (nibble (n mod 16)) (hex_digits width (n / 16))
  end.
Fixpoint polynomial (acc : N) (s : string) : N :=
  match s with
  | EmptyString => acc
  | String c s => polynomial (acc * 1000003 + Ascii.N_of_ascii c + 1)%N s
  end.

Lemma length_hex_digits w n : String.length (hex_digits w n) = w.
Proof. revert n. induction w as [|w IH]; intros n; [done|]. cbn. by rewrite IH. Qed.
Lemma nibble_hex n : (n < 16)%N → lower_hex (nibble n) = true.
Proof.
  intros Hn. assert (E : (n = 0 ∨ n = 1 ∨ n = 2 ∨ n = 3 ∨ n = 4 ∨ n = 5 ∨ n = 6 ∨ n = 7 ∨ n = 8 ∨ n = 9 ∨
    n = 10 ∨ n = 11 ∨ n = 12 ∨ n = 13 ∨ n = 14 ∨ n = 15)%N) by lia.
  repeat (destruct E as [-> | E]; [reflexivity|]). by subst.
Qed.
Lemma hex_digits_lower w n : all_chars lower_hex (hex_digits w n) = true.
Proof.
  revert n. induction w as [|w IH]; intros n; [done|]. cbn [hex_digits all_chars].
  rewrite nibble_hex by (by apply N.mod_lt). apply IH.
Qed.
#[local] Instance toy_sha256 : Sha256.
Proof.
  refine {| sha256_hex s := hex_digits 64 (polynomial 7 s) |}; intros s; [apply length_hex_digits|apply hex_digits_lower].
Defined.

Definition parse_canonical (s : string) : option Z := if is_canonical_timestamp s then Some (time_of s) else None.
Definition scan_example : string → bool := λ s, existsb (λ n, String.substring n 4 s =s "AKIA") (seq 0 (String.length s)).
Definition no_registry : EventRegistry.registry := EventRegistry.empty_registry.

(** ** A world *)

Definition memory_schemas : list (string * Z) := [(WRITTEN, 1%Z); (SUPERSEDED, 1%Z); (EXPIRED, 1%Z); (DELETED, 1%Z)].
Definition empty_world : world :=
  MkWorld (Ledger.MkLedger (Ledger.MkDb [] memory_schemas) Ledger.no_metrics) Approvals.empty_store [].

Lemma empty_world_initial : initial empty_world.
Proof. split; [split; [done|constructor|done]|apply Approvals.empty_store_wf|done|done]. Qed.

Definition noon : Z := 1709208000000.
Definition at_ (minutes : Z) : instants :=
  let t := (noon + minutes * 60000)%Z in MkInstants t t t "2024-02-29 12:00:00".

Definition allow_rule : value :=
  VObj [("id", VStr "project-memory"); ("source", VStr "project"); ("stage", VStr "allow"); ("decision", VStr "allow")].
Definition policy : host := MkHost (VArr [allow_rule]) VUndef VUndef VUndef VUndef.
Definition note (id content : string) : value :=
  VObj [("memory_id", VStr id); ("scope", VObj [("project_id", VStr "hseos")]); ("content", VStr content);
        ("origin", VStr "agent"); ("trust", VStr "untrusted"); ("classification", VStr "internal");
        ("source_ref", VStr "run:1"); ("ttl_seconds", VNum (NInt 86400))].
Definition operator : value := VObj [("kind", VStr "operator"); ("id", VStr "ana")].

Notation do_write id content m :=
  (write String.leb parse_canonical no_registry (Some scan_example) MAX_TTL_SECONDS (note id content) policy (at_ m)).
Definition written_world : world :=
  run String.leb parse_canonical no_registry (Some scan_example) MAX_TTL_SECONDS None None
    (Write (note "n1" "Use the staging database") policy) (at_ 0) empty_world.

Definition is_ok {A} (r : result A) : bool := match r with Ok _ => true | Throw _ => false end.
Definition ok_of {A} (d : A) (r : result A) : A := match r with Ok a => a | Throw _ => d end.

Example write_answers : (do_write "n1" "Use the staging database" 0 empty_world).1 = Ok (VObj [("memory_id", VStr "n1"); ("write_policy_ref", VStr "rule:project-memory")]).
Proof. vm_compute. reflexivity. Qed.

(** ** The operator promotes the note *)

Definition note_digest : string := sha256Text "Use the staging database".
Definition promotion_input : value :=
  VObj [("project_id", VStr "hseos"); ("memory_id", VStr "n1"); ("content_sha256", VStr note_digest)].
Notation do_promote :=
  (operator_promote parse_canonical scan_example no_registry operator 30000 promotion_input "ap-1"
    (noon + 60000) (at_ 1)).
Definition promoted_world : world := (do_promote written_world).2.

(** What the operator's verifier sees: the same promotion, with an approval that was issued. *)
Definition the_operation : memory_operation :=
  ok_of (MkOperation "" "" VNull) (memoryPromoteOperation (VStr "hseos") (VStr "n1") (VStr note_digest)).
Definition granted : verifier := operator_verifier the_operation "ap-1".
Definition issued_world : world :=
  MkWorld (ledger written_world)
    (ok_of (VNull, Approvals.empty_store)
       (Approvals.issue (approvals written_world) (approval_record the_operation "ap-1" operator (noon + 60000) 30000))).2
    (projection written_world).

(** ** Questions *)

Definition question : value :=
  VObj [("project_id", VStr "hseos"); ("query", VStr "which database?"); ("include_untrusted", VBool true)].
Notation ask_memory :=
  (retrieve parse_canonical (Some createPromotionAttestation) question (VStr "context") (at_ 2)).

Definition trust_of (source : value) : value := get "trust" (get "provenance" source).
Example retrieved_before : trust_of <$> ok_of [] (ask_memory written_world).1 = [VStr "untrusted"].
Proof. vm_compute. reflexivity. Qed.
Example retrieved_after : trust_of <$> ok_of [] (ask_memory promoted_world).1 = [VStr "trusted"].
Proof. vm_compute. reflexivity. Qed.
Example listed_after : ok_of [] (list_ parse_canonical (VStr "hseos") (at_ 2) promoted_world).1 =
  [VObj [("memory_id", VStr "n1"); ("status", VStr "superseded"); ("trust", VStr "untrusted")];
   VObj [("memory_id", VStr "n1:promoted"); ("status", VStr "active"); ("trust", VStr "trusted")]].
Proof. vm_compute. reflexivity. Qed.

(** ** Witnesses *)

Notation is_reachable := (reachable String.leb parse_canonical no_registry (Some scan_example) MAX_TTL_SECONDS).

Lemma written_reachable : is_reachable written_world.
Proof.
  eapply (reachable_step _ _ _ _ _ empty_world).
  - exists empty_world. split; [apply empty_world_initial|constructor].
  - vm_compute. discriminate.
  - apply step_call.
Qed.
Lemma written_small : small (table written_world).
Proof. vm_compute. discriminate. Qed.

(** An approval issued between two calls. *)
Definition issue_in (op : memory_operation) (id : string) (w : world) : world :=
  MkWorld (ledger w)
    (ok_of (VNull, approvals w) (Approvals.issue (approvals w) (approval_record op id operator (noon + 60000) 30000))).2
    (projection w).

Lemma issue_step op id w : is_reachable w →
  step String.leb parse_canonical no_registry (Some scan_example) MAX_TTL_SECONDS w (issue_in op id w).
Proof.
  intros Hr. pose proof (reachable_world_wf _ _ _ _ _ _ Hr) as Hw.
  destruct (Approvals.issue (approvals w) (approval_record op id operator (noon + 60000) 30000)) as [[v s]|e] eqn:E.
  - destruct (Approvals.issue_ok _ _ _ _ (world_approvals _ _ Hw) E) as [Hs Eu]. unfold issue_in. rewrite E.
    apply step_environment; try done; [apply Hw|]. unfold spends. cbn [approvals ok_of snd]. by rewrite Eu.
  - unfold issue_in. rewrite E. apply step_environment; try done; apply Hw.
Qed.
Lemma issue_reachable op id w : is_reachable w → small (table w) → is_reachable (issue_in op id w).
Proof. intros Hr Hsm. eapply reachable_step; [exact Hr|done|by apply issue_step]. Qed.

Definition delete_op : memory_operation :=
  ok_of (MkOperation "" "" VNull) (memoryDeleteOperation (VStr "hseos") (VStr "n1")).
Definition promote_ready : world := issue_in the_operation "ap-1" written_world.
Definition delete_ready : world := issue_in delete_op "ap-2" written_world.
Definition deletion_verifier : verifier := operator_verifier delete_op "ap-2".
Notation do_forget :=
  (forget no_registry (Some scan_example) (Some deletion_verifier)
    (VObj [("project_id", VStr "hseos"); ("memory_id", VStr "n1")]) operator (at_ 1)).

Lemma promote_ready_reachable : is_reachable promote_ready.
Proof. apply issue_reachable; [apply written_reachable|apply written_small]. Qed.
Lemma delete_ready_reachable : is_reachable delete_ready.
Proof. apply issue_reachable; [apply written_reachable|apply written_small]. Qed.

Lemma delete_ready_steps :
  steps String.leb parse_canonical no_registry (Some scan_example) MAX_TTL_SECONDS written_world delete_ready.
Proof. eapply steps_step; [constructor|apply written_small|apply issue_step, written_reachable]. Qed.

(** A program that answers, without the answer. *)
Lemma answers {A} (m : program A) w : is_ok (m w).1 = true → ∃ a w', m w = (Ok a, w').
Proof. destruct (m w) as [[a|e] w']; [eauto|done]. Qed.
Notation do_store_promote :=
  (promote parse_canonical no_registry (Some scan_example) MAX_TTL_SECONDS (Some granted) promotion_input operator (at_ 1)).
Lemma forget_answers : ∃ u w', do_forget delete_ready = (Ok u, w').
Proof. apply answers. vm_compute. reflexivity. Qed.
Lemma promote_answers : ∃ u w', do_store_promote promote_ready = (Ok u, w').
Proof. apply answers. vm_compute. reflexivity. Qed.
Lemma second_write_answers : ∃ u w', do_write "n2" "Deploy on Fridays" 1 written_world = (Ok u, w').
Proof. apply answers. vm_compute. reflexivity. Qed.
Lemma ask_answers : ∃ l w', ask_memory written_world = (Ok l, w').
Proof. apply answers. vm_compute. reflexivity. Qed.
Lemma operator_answers : ∃ u w', do_promote written_world = (Ok u, w').
Proof. apply answers. vm_compute. reflexivity. Qed.
Lemma promote_ready_small : small (table promote_ready).
Proof. vm_compute. discriminate. Qed.
Lemma delete_ready_small : small (table delete_ready).
Proof. vm_compute. discriminate. Qed.

Lemma memory_invariant_witness : wf_world MAX_TTL_SECONDS written_world.
Proof. exact (memory_invariant _ _ _ _ _ _ written_reachable). Defined.

Definition written_records : records := ok_of [] (foldEvents (stream_events (table written_world) "hseos")).
Lemma written_stored : stored written_world "hseos" written_records.
Proof. vm_compute. reflexivity. Qed.
Definition written_note : record :=
  default (MkRecord VNull active [] VNull VNull VUndef) (assoc "n1" written_records).
Lemma written_note_found : assoc "n1" written_records = Some written_note.
Proof. vm_compute. reflexivity. Qed.

Lemma forget_outcome_witness :
  ∃ w' p id rs', stored w' p rs' ∧ status_at id rs' = Some deleted ∧
    spent (approvals delete_ready) (approvals w') (delete_operation p id).
Proof.
  destruct forget_answers as (u & w' & E).
  destruct (forget_outcome String.leb parse_canonical no_registry (Some scan_example) MAX_TTL_SECONDS _ _ _ _ _ _ _
    delete_ready_reachable delete_ready_small E)
    as (p & id & rs & rs' & _ & _ & _ & _ & Hs & Hsp & Hd & _).
  exists w', p, id, rs'. exact (conj Hs (conj Hd Hsp)).
Defined.

Lemma promote_outcome_witness :
  ∃ w' p id rs', stored w' p rs' ∧ status_at (promoted_id id) rs' = Some active.
Proof.
  destruct promote_answers as (u & w' & E).
  destruct (promote_outcome String.leb parse_canonical no_registry (Some scan_example) MAX_TTL_SECONDS _ _ _ _ _ _ _
    promote_ready_reachable promote_ready_small E)
    as (p & id & rs & rs' & r & _ & _ & _ & _ & Hs & _ & _ & _ & _ & _ & _ & _ & Ha).
  exists w', p, id, rs'. exact (conj Hs Ha).
Defined.

Lemma write_outcome_witness :
  ∃ w' p id e r rs', get "content" e = VStr "Deploy on Fridays" ∧ stored w' p rs' ∧ assoc id rs' = Some r ∧
    record_status r = active ∧ entry r = Ledger.json_column e.
Proof.
  destruct second_write_answers as (u & w' & E).
  destruct (write_outcome String.leb parse_canonical no_registry (Some scan_example) MAX_TTL_SECONDS _ _ _ _ _ _
    written_reachable written_small E) as (p & e & actor & _ & Hg & _ & _ & _ & _ & Hst).
  destruct (Hst eq_refl) as (id & r & rs & rs' & _ & _ & _ & Hs & Hr & Ha & He).
  apply Forall_cons in Hg as [_ Hg]. apply Forall_cons in Hg as [Hc _].
  exists w', p, id, e, r, rs'. exact (conj Hc (conj Hs (conj Hr (conj Ha He)))).
Defined.

Lemma records_evolve_witness :
  ∃ rs' r', stored delete_ready "hseos" rs' ∧ assoc "n1" rs' = Some r' ∧
    entry r' = entry written_note.
Proof.
  destruct (records_evolve String.leb parse_canonical no_registry (Some scan_example) MAX_TTL_SECONDS written_world
    delete_ready "hseos" written_records "n1" written_note written_reachable delete_ready_steps written_stored
    written_note_found) as (rs' & r' & Hs & Hr & He & _).
  exists rs', r'. exact (conj Hs (conj Hr He)).
Defined.

(** The events of a promotion over approvals that were issued and never spent: what a forger who
    writes to the ledger leaves. *)
Definition forged_world : world := MkWorld (ledger promoted_world) (approvals promote_ready) [].
Definition forged_records : records := ok_of [] (foldEvents (stream_events (table forged_world) "hseos")).
Definition forged_note : record :=
  default (MkRecord VNull active [] VNull VNull VUndef) (assoc "n1:promoted" forged_records).
Lemma forged_shape : stored forged_world "hseos" forged_records ∧
  assoc "n1:promoted" forged_records = Some forged_note ∧ promotion_recorded forged_note "hseos" forged_records = true.
Proof. vm_compute. done. Qed.
Lemma forged_unspent : Approvals.execution_approval_uses (approvals forged_world) = [] ∧
  length (Approvals.execution_approvals (approvals forged_world)) = 1%nat.
Proof. vm_compute. done. Qed.
Lemma promoted_answer :
  isAttestedPromotion (Some createPromotionAttestation) (approvals promoted_world) forged_note "hseos" forged_records = Ok true.
Proof. vm_compute. reflexivity. Qed.

Lemma attested_iff_promoted_witness :
  (∃ original, vouched (approvals promoted_world) "hseos" forged_records forged_note original) ∧
  (promotion_recorded forged_note "hseos" forged_records = true ∧
   isAttestedPromotion (Some createPromotionAttestation) (approvals forged_world) forged_note "hseos" forged_records ≠ Ok true) ∧
  isAttestedPromotion (Some createPromotionAttestation) (approvals written_world) written_note "hseos" written_records = Ok false.
Proof.
  destruct (attested_iff_promoted String.leb parse_canonical no_registry (Some scan_example) MAX_TTL_SECONDS)
    as (Hiff & _ & Hreach).
  split; [exact (proj1 (Hiff _ _ _ _) promoted_answer)|split; [split; [apply forged_shape|]|]].
  - intros E. apply Hiff in E as (original & [_ _ _ _ _ (a & u & _ & Hu & _)]).
    rewrite (proj1 forged_unspent) in Hu. by apply not_elem_of_nil in Hu.
  - exact (Hreach _ _ _ _ _ written_reachable written_stored written_note_found).
Defined.

Lemma retrieved_sources_witness :
  ∃ l w' p limit rs, ask_memory written_world = (Ok l, w') ∧ stored written_world p rs ∧
    (length l ≤ Z.to_nat limit)%nat.
Proof.
  destruct ask_answers as (l & w' & E).
  destruct (retrieved_sources String.leb parse_canonical no_registry (Some scan_example) MAX_TTL_SECONDS _ _ _ _ _ _
    written_reachable written_small E) as (p & limit & rs & _ & _ & Hs & Hl & _).
  exists l, w', p, limit, rs. exact (conj E (conj Hs Hl)).
Defined.

Lemma projection_transparent_witness :
  same ask_memory written_world (MkWorld (ledger written_world) (approvals written_world) []).
Proof.
  destruct (projection_transparent String.leb parse_canonical no_registry (Some scan_example) MAX_TTL_SECONDS written_world []
    None (Some createPromotionAttestation) question (VStr "context") VNull VNull policy VNull (at_ 2)
    written_reachable written_small) as (_ & _ & _ & _ & _ & _ & Hs); [done|exact Hs].
Defined.

Lemma operator_promotion_witness :
  ∃ w' p id rs' r', assoc (promoted_id id) rs' = Some r' ∧
    isAttestedPromotion (Some createPromotionAttestation) (approvals w') r' p rs' = Ok true.
Proof.
  destruct operator_answers as (u & w' & E).
  destruct (operator_promotion String.leb parse_canonical no_registry scan_example _ _ _ _ _ _ _ _ _
    written_reachable written_small E) as (p & id & d & rs' & r' & _ & _ & _ & _ & _ & Hr & _ & Ha).
  exists w', p, id, rs', r'. exact (conj Hr Ha).
Defined.

(** ** Identifiers of operations *)

(** Two entries of two projects can have the same identifier of deletion: the colon that
    separates the parts is a character of the parts. *)
Example shared_operation :
  delete_operation_id "a:b" "c" = delete_operation_id "a" "b:c" ∧
  IDENTIFIER "a:b" = true ∧ IDENTIFIER "c" = true ∧ IDENTIFIER "a" = true ∧ IDENTIFIER "b:c" = true.
Proof. vm_compute. done. Qed.
